(* ===== verification/_CoqProject ===== *)
-Q . S2P
Prelude.v
Marshall.v
Extent.v
Containers.v
ReplyWindow.v
RpcServer.v
RpcClient.v
Rpc.v
RpcSession.v
Directory.v
RpcUtil.v
RpcThreads.v
RpcTest.v
ExtentRpc.v
Fifo.v
ThrPool.v
MethodThread.v
PollMgr.v
PollLoop.v
Connection.v
ConnSend.v
Tcp.v
LockServer.v
LockServerCache.v
LockClientCache.v
LockRpc.v
LockSystem.v
LockTester.v
Handle.v
YfsClient.v
Fuse.v
FileSystem.v
YfsProgram.v
Concurrent.v
YfsSystem.v
Posix.v
LabTests.v
LabProofs.v
LabRuns.v
