(* ===== verification/Prelude.v ===== *)
(** * Verification of the Y-F-S distributed file system

    Y-F-S is a FUSE file system whose files live in an extent server and
    whose operations are serialised by a lock server; the processes talk
    over a small RPC library.  A request of the kernel travels down:

    - fuse.cc turns it into a call of yfs_client (yfs_client.cc);
    - yfs_client takes locks through lock_client_cache and reads and writes
      extents through extent_client; a directory is an extent of text lines;
    - lock_client_cache and lock_server_cache hand cached locks around with
      revoke and retry RPCs over connections kept by handle_mgr (handle.cc);
    - extent_client and the lock stubs are calls of rpcc::call (rpc/rpc.cc),
      answered by rpcs::dispatch and the handlers of extent_server.cc;
    - requests and replies are encoded by marshall/unmarshall
      (rpc/marshall.h), and a per-client reply window filters duplicates;
    - a connection (rpc/connection.cc) carries the encoded messages as
      framed PDUs over a stream socket; a poll thread (rpc/pollmgr.cc) runs
      its callbacks, and the server queues each request for a thread pool
      (rpc/thr_pool.cc) over a bounded queue (rpc/fifo.h).

    ** Files

    - Prelude (this file): the result monad [res] with the three ways a C++
      process ends (a failed VERIFY, an exception nobody catches, undefined
      behaviour), machine integers of an ILP32 target as [Z] with their
      wrap-around, bytes, std::string operations with the library's size
      limit, shared lemmas (among them sums over finite maps, [total]),
      hints and tactics.
    - Marshall: marshall, unmarshall, the two headers and the [<<], [>>]
      operators.  A buffer is a list of optional bytes: [None] is memory
      that was allocated and never written.  The class [WireOk] is the
      contract between a type's operators and their users.
    - Extent: extent_protocol.h and every handler of extent_server.cc.
    - Containers: the vector and map operators of marshall.h, and a universe
      of the types that have operators, over which round trips are proved
      once and for all of them.
    - ReplyWindow: rpcs::checkduplicate_and_update, add_reply and
      free_reply_window over the list of replies of one client.
    - RpcServer: rpcs: constructor, dispatch, reg1, updatestat, rpcbind,
      got_pdu and the handler templates (one definition over nested pairs,
      those for six and seven arguments also written out); effects on
      connections are a list of actions.
    - RpcClient: rpcc: bind, call1 cut at its critical sections, cancel,
      got_pdu, update_xid_rep, get_refconn and the call templates.
    - Rpc: one call from the client through dispatch and back, as a
      predicate [call_wp] over whatever carries the messages.
    - RpcSession: a new client that binds to a new server and calls it.
    - Directory: the text format of directories and its parser.
    - RpcUtil: timespec arithmetic, sockaddr parsing and ordering, and the
      send-and-wait loop of call1 with its deadlines.
    - RpcThreads: the threads inside one rpcc, the replies, cancel and the
      destructor, interleaved by [step]; a call is in get_refconn, in a send
      or in its wait ([place]), and with [stuck] the first two need not
      return.
    - RpcTest: rpc/rpctest.cc: the test handlers, testmarshall and the tests
      as sequences of calls whose VERIFYs are to be established; a bind where
      nobody listens runs the loop of RpcUtil.
    - ExtentRpc: the server of extent_smain.cc with its registrations and the
      stubs of extent_client.cc, each one call of Rpc.
    - Fifo, ThrPool: the bounded queue and the thread pool, threads and
      condition variables explicit.
    - MethodThread: method_thread.h and ThrPool::addObjJob, the wrapper
      objects on an explicit heap.
    - PollMgr: SelectAIO and EPollAIO behind the interface [AioMgr];
      PollLoop: the callback table and the wait loop of class PollMgr.
    - Connection: class connection and tcpsconn; send is cut where it waits,
      system calls are outcomes, and the effects on poll manager, threads
      and chanmgr are a list.  A receiving end reads a modelled stream.
    - ConnSend: the threads around one connection, interleaved by [step].
    - Tcp: sender, stream and receiver together, calls over them, and the
      server's table of latest connections.
    - LockServer: lock_protocol.h, lock_server.cc as a step relation in
      which mutex and condition variable are explicit, and lock_client.cc.
    - LockServerCache: lock_server_cache.cc: handlers, the retryer and
      revoker loops and their thread-pool jobs, interleaved by [step].
    - LockClientCache: lock_client_cache.cc: acquire, release, the revoke
      and retry handlers, the releaser and its jobs, interleaved by [step];
      with [exact] an acquire RPC during which a retry was accepted is not
      granted.
    - LockRpc: the registrations of lock_smain.cc, the calls between
      caching clients and server over Rpc, and the calls of lock_client.cc
      and lock_demo.cc against this server.
    - LockSystem: any number of caching clients and the caching server in
      one world, each call a step; an executable interpreter of its runs.
    - LockTester: lock_tester.cc: the threads of its tests run against the
      world of LockSystem.
    - Handle: handle.cc over an explicit heap of hinfo objects.
    - YfsClient: every operation of yfs_client.cc against the classes
      [ExtentClient] and [LockClient], whose promises are the class
      [Backend]; the world of an extent table and a lock table is an
      instance.
    - Fuse: the request handlers of fuse.cc; a handler returns its replies.
    - FileSystem: an abstract tree of files and directories with its
      operations, and runs of yfs_client operations that implement it.
    - YfsProgram: the operations of yfs_client.cc as trees of lock and
      extent calls, so that they can be interleaved; run in one go they are
      the definitions of YfsClient.
    - Concurrent: any number of yfs_clients whose calls interleave, and the
      machine in which operations take effect at once on the abstract tree.
    - YfsSystem: threads of many yfs_client processes over the lock service
      of LockSystem and the handlers of Extent.
    - Posix: the system calls the file system tests make, as the class
      [Posix] with a contract for its law that holds until a call or a fork
      fails for lack of resources ([starved]), processes that fork and wait,
      and a rely-guarantee logic for them; an executable system is an
      instance.
    - LabTests: test-lab-3-b.c and test-lab-3-c.c, every function and main.
    - LabProofs, LabRuns: what the functions of the tests do beside another
      process, and the tests as a whole.

    ** What the theorems show

    - Encoding: requests and replies round trip for all types that have
      operators ([request_roundtrip]); received data ends the process in
      exactly one case.
    - RPC: a call over a working connection is the method call
      ([rpc_transparent]), a session of binding and calls is the sequence of
      the method calls ([rpc_session]), also over the modelled connections
      ([rpc_over_tcp]), and the stubs of extent_client return what the
      extent server's handlers do ([extent_stubs]); with first arrivals in
      order a request runs at most once whatever is retransmitted, up to the
      one retransmission that is undefined ([at_most_once_in_order]), and the
      cases in which the window fails are exhibited; the acknowledgement
      window is exact; references to connections are accounted for; the
      wait loop terminates; threads that share a client get their own
      answers ([own_answers]), and cancel ends unless a send hangs, as one can
      ([cancel_returns], [send_blocks_cancel]), and makes deletion safe
      ([delete_after_cancel]); the tests of rpctest.cc pass
      ([rpctest_passes], [testmarshall_passes]), calls that must be refused
      or time out included.
    - Connections: concurrent senders do not mix their PDUs, the receiver
      recovers them from any arrival pattern that splits no size field and
      reads to the end, both together ([pdus_cross]); which sizes overrun
      the read buffer; which waits of send can be lost; references of a
      call are balanced.
    - Threads: the queue is first in first out and loses no wake-up, the
      pool runs accepted jobs once and its shutdown ends; a call handed to
      another thread is made once and its wrapper deleted; select reports
      exactly the ready descriptors, both aio managers ask the kernel for
      the same events ([aio_equivalence]), and
      block_remove_fd keeps its promise, spurious wake-ups apart.
    - Extents: every run without resize refines a store of byte strings, up
      to the putbuf, if any, that ends the server ([extent_refines_store]);
      putbuf is a POSIX write; the crashes of the server are characterised.
    - Locks: mutual exclusion of lock_server, of lock_server_cache (under
      the exact condition that excludes its race, which is exhibited) and
      of the threads of a caching client, whose VERIFYs hold, both unless a
      grant overtakes a retry ([overtaken_retry]);
      hand-over is first come first served; two lost wake-ups.  Composed,
      the caching clients and the server exclude each other's threads under
      that condition ([system_mutex]), the checks of lock_tester never fail
      ([lock_tester_passes]), and what goes wrong outside of it, or when a
      revocation is repeated, is exhibited ([system_race],
      [system_pops_empty], [system_releaser_asserts]).  The calls that the
      composition takes as steps are single executions of the critical
      sections over the RPC layer ([lock_calls]); the plain client is
      refused by this server ([plain_client_refused]).
    - Handles: reference counts are exact and no deleted object is used.
    - File system: create, remove, lookup, read and write have their
      functional meaning on every backend that keeps its promises, locks are
      balanced, and errors are reported as the code reports them.  With
      names without ':' and newline, numbers from random() that are not in
      use and sizes that fit, sequences of operations refine the abstract
      tree ([yfs_refines]) and trees built from a new server are well formed
      ([fsck]).  Under the same conditions, when many clients run at once on
      an ideal table of locks, all operations but readir are linearizable
      ([yfs_linearizable]) and never deadlock ([yfs_no_deadlock]); readir,
      which takes no lock, is not ([readdir_not_atomic]).  Over the composed
      lock service and the extent server's handlers they are linearizable
      too as long as the race of the lock service is avoided, and none of
      their requests ends the server ([yfs_system_linearizable]).
    - FUSE: every request has one reply, with one exception; contents of
      the replies to setattr, read and create.
    - Tests: on a system that does what POSIX says of their calls, and with
      mount points of at most 400 bytes, the file system tests pass under
      every schedule of their processes as long as no call or fork fails for
      lack of resources, without undefined behaviour, and end
      ([lab3b_passes], [lab3c_passes]); after a failed fork they exit with 1
      ([fork_fails_exit]).

    ** Conventions, bounds and fuel

    A function that runs under a mutex is one atomic definition; code that
    drops the mutex is cut at that point and the parts are steps of an
    inductive relation, over which invariants are proved by rule
    induction.  time(NULL), random(), the library's string limit, address
    resolution and the outcome of a connection attempt are arguments.
    Reference parameters are passed in and returned.  Loops recurse on the
    list they walk.  The exceptions: printing a number has fuel 20, the
    number of digits of 2^64; the carry loop of add_timespec has fuel 3,
    more than the nanoseconds of a 32-bit long can need; new_inum walks the stream of
    random numbers it is given, and is shown to return when a usable one
    occurs; call1's loop walks the outcomes of its waits and is shown to
    end within eight; [drain] of Connection repeats the read callback while
    there is data and is shown to need one turn more than there are bytes.
    Condition variables may wake without a signal unless a theorem says
    otherwise.  [dircheck_loop] of LabTests has fuel 1003, enough for the
    1000 names its array holds, two dot entries and the end; the tests are
    shown not to run out of it.

    Concurrent has a lock table and a store in place of the two servers:
    an acquire waits until the lock is free, an extent call is one step and
    does not fail; YfsSystem replaces both by the servers themselves, with
    calls that are delivered.  A number from random() that is in use erases
    the file it belongs to, in these models as in the code
    ([create_truncates_reused]); that this does not happen in a run is a
    hypothesis of the theorems ([fresh_numbers], [fresh] of [ystep]), as is
    the order that avoids the lock service's race ([guarded]).

    ** Not modelled

    The socket set-up of tcpsconn and of the mains, slock.h, logging,
    gettime.cc (Mac OS only), the command lines of the mains, and fuse.cc's
    main.  Of rpctest.cc the creation of threads, the environment variables
    of lossy_test and main are left out.  The unsynchronised accesses of
    lock_server::release to its map are atomic steps of LockServer.
    The kernel and libfuse between the file system tests and fuse.cc are
    not part of the sources, so the tests are proved against a contract and
    not against Fuse.  ConnSend lets callbacks come at any time instead of
    taking them from PollLoop.  revoke_handler waits, so its call is a step
    of LockSystem and not a call of LockRpc. *)

From Stdlib Require Import ZArith Lia Strings.Byte Strings.String.
From stdpp Require Import base decidable countable list gmap.

#[global] Set Default Goal Selector "!".

(** ** Faults and the result monad

    A C++ operation either returns or ends the process.  [res] records
    which: a failed [VERIFY]/[assert], an exception that no caller
    catches (no function of the repository has a handler), or behaviour
    the language leaves undefined. *)

Inductive fault :=
| AssertFailed
| Uncaught
| Undefined.

Inductive res (A : Type) :=
| Ret (a : A)
| Crash (f : fault).
Arguments Ret {A} a.
Arguments Crash {A} f.

#[export] Instance res_ret : MRet res := fun A a => Ret a.
#[export] Instance res_bind : MBind res := fun A B f m =>
  match m with Ret a => f a | Crash e => Crash e end.

Declare Scope yfs_scope.
Delimit Scope yfs_scope with yfs.

(** [verify b k]: the VERIFY macro of lang/verify.h guarding [k]. *)
Definition verify {A} (b : bool) (k : res A) : res A :=
  if b then k else Crash AssertFailed.

Definition returns {A} (m : res A) : Prop := exists a, m = Ret a.

Lemma bind_Ret_inv {A B} (m : res A) (f : A -> res B) b :
  m ≫= f = Ret b -> exists a, m = Ret a /\ f a = Ret b.
Proof. destruct m as [a|e]; cbn; [eauto|discriminate]. Qed.

(** ** Machine integers

    The sources are compiled for an ILP32 target: the stubs of
    extent_client.cc marshall [size_t] values, and marshall.h overloads
    [operator<<] for [unsigned int] but has no [unsigned long] one. *)

Definition u8 (z : Z) : Z := z mod 2 ^ 8.
Definition u16 (z : Z) : Z := z mod 2 ^ 16.
Definition u32 (z : Z) : Z := z mod 2 ^ 32.
Definition u64 (z : Z) : Z := z mod 2 ^ 64.
Definition i8 (z : Z) : Z := (z + 2 ^ 7) mod 2 ^ 8 - 2 ^ 7.
Definition i16 (z : Z) : Z := (z + 2 ^ 15) mod 2 ^ 16 - 2 ^ 15.
Definition i32 (z : Z) : Z := (z + 2 ^ 31) mod 2 ^ 32 - 2 ^ 31.

Definition is_u8 (z : Z) : Prop := (0 <= z < 2 ^ 8)%Z.
Definition is_i8 (z : Z) : Prop := (- 2 ^ 7 <= z < 2 ^ 7)%Z.
Definition is_i16 (z : Z) : Prop := (- 2 ^ 15 <= z < 2 ^ 15)%Z.
Definition is_u16 (z : Z) : Prop := (0 <= z < 2 ^ 16)%Z.
Definition is_u32 (z : Z) : Prop := (0 <= z < 2 ^ 32)%Z.
Definition is_u64 (z : Z) : Prop := (0 <= z < 2 ^ 64)%Z.
Definition is_i32 (z : Z) : Prop := (- 2 ^ 31 <= z < 2 ^ 31)%Z.

(** Signed arithmetic that leaves the [int] range is undefined. *)
Definition chk_int (z : Z) : res Z :=
  if ((- 2 ^ 31 <=? z) && (z <? 2 ^ 31))%Z then Ret z else Crash Undefined.

Create HintDb yfs.
Create Rewrite HintDb yfs.

Lemma u32_small z : is_u32 z -> u32 z = z.
Proof. apply Z.mod_small. Qed.

Lemma u64_small z : is_u64 z -> u64 z = z.
Proof. apply Z.mod_small. Qed.

Lemma i32_small z : is_i32 z -> i32 z = z.
Proof. unfold is_i32, i32; intros. rewrite Z.mod_small; lia. Qed.

Lemma u32_range z : is_u32 (u32 z).
Proof. apply Z.mod_pos_bound; lia. Qed.

Lemma u64_range z : is_u64 (u64 z).
Proof. apply Z.mod_pos_bound; lia. Qed.

Lemma i32_range z : is_i32 (i32 z).
Proof.
  unfold is_i32, i32. pose proof (Z.mod_pos_bound (z + 2 ^ 31) (2 ^ 32)). lia.
Qed.

(** [int] and [unsigned int] are two views of the same 32 bits. *)
Lemma i32_u32 z : i32 (u32 z) = i32 z.
Proof. unfold i32, u32. rewrite Zplus_mod_idemp_l. reflexivity. Qed.

Lemma u32_i32 z : u32 (i32 z) = u32 z.
Proof.
  unfold i32, u32. rewrite Zminus_mod_idemp_l. f_equal. lia.
Qed.

Lemma chk_int_ok z : is_i32 z -> chk_int z = Ret z.
Proof.
  unfold is_i32, chk_int. intros.
  destruct (Z.leb_spec (- 2 ^ 31) z), (Z.ltb_spec z (2 ^ 31)); try lia; reflexivity.
Qed.

#[export] Hint Resolve u32_range u64_range i32_range : yfs.
#[export] Hint Rewrite i32_u32 u32_i32 : yfs.

(** ** Bytes

    [char] data is a list of bytes; a [std::string] is such a list. *)

Abbreviation byte := Corelib.Init.Byte.byte.
Abbreviation bytes := (list byte).

Definition byte_Z (b : byte) : Z := Z.of_N (Byte.to_N b).

Definition Z_byte (z : Z) : byte :=
  match Byte.of_N (Z.to_N (u8 z)) with Some b => b | None => "000"%byte end.

Lemma byte_Z_range b : is_u8 (byte_Z b).
Proof.
  unfold is_u8, byte_Z. pose proof (Byte.to_N_bounded b).
  change (2 ^ 8)%Z with 256%Z. lia.
Qed.

Lemma byte_Z_of_Z z : byte_Z (Z_byte z) = u8 z.
Proof.
  unfold byte_Z, Z_byte. pose proof (Z.mod_pos_bound z (2 ^ 8) ltac:(lia)) as Hb.
  fold (u8 z) in Hb.
  destruct (Byte.of_N (Z.to_N (u8 z))) as [b|] eqn:E.
  - apply Byte.to_of_N in E. rewrite E. lia.
  - apply Byte.of_N_None_iff in E. change (2 ^ 8)%Z with 256%Z in Hb. lia.
Qed.

Lemma Z_byte_of_byte b : Z_byte (byte_Z b) = b.
Proof.
  unfold Z_byte, byte_Z, u8. pose proof (Byte.to_N_bounded b).
  rewrite Z.mod_small by (change (2 ^ 8)%Z with 256%Z; lia).
  rewrite N2Z.id, Byte.of_to_N. reflexivity.
Qed.

#[export] Instance byte_eq_dec : EqDecision byte := Byte.byte_eq_dec.
#[export] Program Instance byte_countable : Countable byte :=
  inj_countable Byte.to_N Byte.of_N _.
Next Obligation. intros b. apply Byte.of_to_N. Qed.

(** Literals: [str] turns a Rocq string into the bytes of a C string. *)
Definition str (s : string) : bytes := list_byte_of_string s.
Arguments str s%_string_scope.
Export String.StringSyntax.

Abbreviation lenZ l := (Z.of_nat (length l)).

(** ** Bit-level facts *)

Lemma testbit_high d k n :
  (0 <= d < 2 ^ k)%Z -> (k <= n)%Z -> Z.testbit d n = false.
Proof.
  intros Hd Hn. destruct (decide (d = 0%Z)) as [->|]; [apply Z.bits_0|].
  apply Z.bits_above_log2; [lia|]. apply Z.log2_lt_pow2; [lia|].
  eapply Z.lt_le_trans; [apply Hd|]. apply Z.pow_le_mono_r; lia.
Qed.

(** Or-ing a value into low bits that are clear is an addition. *)
Lemma lor_add_low a d k :
  (0 <= k)%Z -> (0 <= d < 2 ^ k)%Z -> Z.lor (Z.shiftl a k) d = (a * 2 ^ k + d)%Z.
Proof.
  intros Hk Hd. rewrite Z.shiftl_mul_pow2 by lia.
  rewrite Z.add_nocarry_lxor; apply Z.bits_inj'; intros n Hn;
    rewrite ?Z.lor_spec, ?Z.lxor_spec, ?Z.land_spec, ?Z.bits_0;
    (destruct (Z.lt_ge_cases n k);
     [rewrite Z.mul_pow2_bits_low by lia | rewrite (testbit_high d k n) by lia]);
    destruct (Z.testbit _ n); reflexivity.
Qed.

Lemma land_ff z : Z.land z 255 = u8 z.
Proof. change 255%Z with (Z.ones 8). apply Z.land_ones. lia. Qed.

(** ** std::string

    The operations the sources use, on byte lists.  The library fixes
    [max_size()], a parameter here; growing beyond it throws
    [std::length_error], an offset beyond the end throws
    [std::out_of_range]. *)

Class StringLimit := max_size : Z.

Definition string_resize `{StringLimit} (n : Z) (s : bytes) : res bytes :=
  if (max_size <? n)%Z then Crash Uncaught
  else Ret (take (Z.to_nat n) s ++ replicate (Z.to_nat n - length s) "000"%byte).

Definition string_substr (s : bytes) (off n : Z) : res bytes :=
  if (lenZ s <? off)%Z then Crash Uncaught
  else Ret (take (Z.to_nat n) (drop (Z.to_nat off) s)).

Definition string_replace `{StringLimit} (s : bytes) (off n : Z) (t : bytes) : res bytes :=
  if (lenZ s <? off)%Z then Crash Uncaught
  else
    let r := take (Z.to_nat off) s ++ t ++ drop (Z.to_nat off + Z.to_nat n) s in
    if (max_size <? lenZ r)%Z then Crash Uncaught else Ret r.

Definition string_erase (s : bytes) (off n : Z) : res bytes :=
  if (lenZ s <? off)%Z then Crash Uncaught
  else Ret (take (Z.to_nat off) s ++ drop (Z.to_nat off + Z.to_nat n) s).

Lemma string_resize_length `{StringLimit} n s t :
  (0 <= n)%Z -> string_resize n s = Ret t -> lenZ t = n.
Proof.
  unfold string_resize. intros Hn. destruct (Z.ltb_spec max_size n); [discriminate|].
  intros [= <-]. rewrite length_app, length_take, length_replicate. lia.
Qed.

(** ** Tactics *)

(** Case analysis on the booleans comparisons of the code, keeping the
    arithmetic meaning of each branch. *)
Ltac bcase :=
  match goal with
  | |- context [(?a <? ?b)%Z] => destruct (Z.ltb_spec a b)
  | |- context [(?a <=? ?b)%Z] => destruct (Z.leb_spec a b)
  | |- context [(?a =? ?b)%Z] => destruct (Z.eqb_spec a b)
  | H : context [(?a <? ?b)%Z] |- _ => destruct (Z.ltb_spec a b)
  | H : context [(?a <=? ?b)%Z] |- _ => destruct (Z.leb_spec a b)
  | H : context [(?a =? ?b)%Z] |- _ => destruct (Z.eqb_spec a b)
  end; try lia; cbn [andb orb negb] in *.

(** Run one bind of the result monad whose first part is known. *)
Ltac rstep H := rewrite H; cbn [mbind res_bind].

(** Take apart a [Ret] produced by a bind. *)
Ltac rinv H :=
  let a := fresh "a" in let E := fresh "E" in
  apply bind_Ret_inv in H; destruct H as (a & E & H).

(** ** A sum over a finite map *)

Section total.
#[local] Open Scope Z_scope.
Context {K : Type} `{Countable K}.

Definition total {A} (f : A -> Z) (m : gmap K A) : Z := map_fold (fun _ x n => (f x + n)%Z) 0%Z m.

Lemma total_insert {A} (f : A -> Z) (m : gmap K A) t x : m !! t = None -> total f (<[t := x]> m) = f x + total f m.
Proof. intros Ht. unfold total. rewrite map_fold_insert_L; [done| |done]. intros. lia. Qed.

Lemma total_delete {A} (f : A -> Z) (m : gmap K A) t x : m !! t = Some x -> total f m = f x + total f (delete t m).
Proof.
  intros Ht. rewrite <- (insert_delete_id m t x Ht) at 1. apply total_insert. apply lookup_delete_eq.
Qed.

Lemma total_update {A} (f : A -> Z) (m : gmap K A) t x y : m !! t = Some x -> total f (<[t := y]> m) = total f m - f x + f y.
Proof.
  intros Ht. rewrite (total_delete f m t x Ht), <- insert_delete_eq, total_insert by apply lookup_delete_eq. lia.
Qed.

Lemma total_pos {A} (f : A -> Z) (m : gmap K A) : (forall t x, m !! t = Some x -> 0 <= f x) -> 0 <= total f m.
Proof.
  induction m as [|t x m Ht IH] using map_ind; intros Hf; [done|]. rewrite total_insert by done.
  assert (0 <= total f m).
  { apply IH. intros t' x' Hx'. apply (Hf t'). rewrite lookup_insert_ne; [done|congruence]. }
  pose proof (Hf t x (lookup_insert_eq _ _ _)). lia.
Qed.

Lemma total_bound {A} (f : A -> Z) (m : gmap K A) n :
  (forall t x, m !! t = Some x -> f x <= n) -> total f m <= n * Z.of_nat (size m).
Proof.
  induction m as [|t x m Ht IH] using map_ind; intros Hf; [unfold total; rewrite map_fold_empty, map_size_empty; lia|]. rewrite total_insert, map_size_insert_None by done.
  assert (total f m <= n * Z.of_nat (size m)).
  { apply IH. intros t' x' Hx'. apply (Hf t'). rewrite lookup_insert_ne; [done|congruence]. }
  pose proof (Hf t x (lookup_insert_eq _ _ _)). lia.
Qed.

End total.
