(* ===== verification/Marshall.v ===== *)
(** * Marshalling (rpc/marshall.h, rpc/rpc.cc)

    The growing output buffer [marshall], the checked input cursor
    [unmarshall], the request and reply headers and the [<<]/[>>]
    operators of the base types.  Allocated but unwritten memory is a
    [None] cell, so that what is sent uninitialised stays visible. *)

From Stdlib Require Import ZArith Lia Strings.Byte.
From stdpp Require Import base list.
From S2P Require Import Prelude.

#[local] Open Scope Z_scope.

(** ** Headers and constants *)

Record req_header := ReqHeader {
  rq_xid : Z;        (* int *)
  rq_proc : Z;       (* int *)
  rq_clt_nonce : Z;  (* unsigned int *)
  rq_srv_nonce : Z;  (* unsigned int *)
  rq_xid_rep : Z     (* int *)
}.

Record reply_header := ReplyHeader {
  rp_xid : Z;  (* int *)
  rp_ret : Z   (* int *)
}.

Definition static_max (a b : Z) : Z := if a >? b then a else b.

Definition sizeof_req_header : Z := 20.
Definition sizeof_reply_header : Z := 8.
Definition sizeof_rpc_sz_t : Z := 4.

Definition DEFAULT_RPC_SZ : Z := 1024.
(** RPC_CHECKSUMMING is not defined by the makefile. *)
Definition RPC_HEADER_SZ : Z :=
  static_max sizeof_req_header sizeof_reply_header + sizeof_rpc_sz_t.

(** ** class marshall *)

Abbreviation cell := (option byte).

Record marshall := Marshall {
  m_buf : option (list cell);  (* char *_buf, None is NULL *)
  m_capa : Z;
  m_ind : Z
}.

Definition marshall_new : marshall :=
  Marshall (Some (replicate (Z.to_nat DEFAULT_RPC_SZ) None)) DEFAULT_RPC_SZ RPC_HEADER_SZ.

(** realloc: the old cells are kept, the new ones are indeterminate. *)
Definition realloc (b : list cell) (n : Z) : list cell :=
  take (Z.to_nat n) b ++ replicate (Z.to_nat n - length b) None.

Definition grow (capa : Z) (m : marshall) : res marshall :=
  capa ← chk_int capa;
  match m_buf m with
  | None => Crash AssertFailed
  | Some b => Ret (Marshall (Some (realloc b capa)) capa (m_ind m))
  end.

(** Store [cs] at [_buf+_ind], with the bounds the allocation imposes. *)
Definition store_at (m : marshall) (cs : list cell) : res marshall :=
  match m_buf m with
  | None => Crash Undefined
  | Some b =>
      if (0 <=? m_ind m) && (m_ind m + lenZ cs <=? lenZ b)
      then ind ← chk_int (m_ind m + lenZ cs);
           Ret (Marshall
                  (Some (take (Z.to_nat (m_ind m)) b ++ cs ++
                         drop (Z.to_nat (m_ind m) + length cs) b))
                  (m_capa m) ind)
      else Crash Undefined
  end.

Definition m_rawbyte (x : Z) (m : marshall) : res marshall :=
  m ← (if m_ind m >=? m_capa m then grow (m_capa m * 2) m else Ret m);
  store_at m [Some (Z_byte x)].

(** [p] is the source memory, [n] the [int] byte count. *)
Definition m_rawbytes (p : bytes) (n : Z) (m : marshall) : res marshall :=
  sum ← chk_int (m_ind m + n);
  m ← (if sum >? m_capa m
       then grow (if m_capa m >? n then 2 * m_capa m else m_capa m + n) m
       else Ret m);
  if (0 <=? n) && (n <=? lenZ p)
  then store_at m (Some <$> take (Z.to_nat n) p)
  else Crash Undefined.

(** [std::string get_content()]: the cells after the header. *)
Definition get_content (m : marshall) : option (list cell) :=
  b ← m_buf m;
  Some (take (Z.to_nat (m_ind m - RPC_HEADER_SZ)) (drop (Z.to_nat RPC_HEADER_SZ) b)).

Definition pack (x : Z) (m : marshall) : res marshall :=
  m ← m_rawbyte (Z.land (Z.shiftr x 24) 255) m;
  m ← m_rawbyte (Z.land (Z.shiftr x 16) 255) m;
  m ← m_rawbyte (Z.land (Z.shiftr x 8) 255) m;
  m_rawbyte (Z.land x 255) m.

Definition set_ind (i : Z) (m : marshall) : marshall :=
  Marshall (m_buf m) (m_capa m) i.

Definition pack_req_header (h : req_header) (m : marshall) : res marshall :=
  let saved_sz := m_ind m in
  let m := set_ind sizeof_rpc_sz_t m in
  m ← pack (rq_xid h) m;
  m ← pack (rq_proc h) m;
  m ← pack (i32 (rq_clt_nonce h)) m;
  m ← pack (i32 (rq_srv_nonce h)) m;
  m ← pack (rq_xid_rep h) m;
  Ret (set_ind saved_sz m).

Definition pack_reply_header (h : reply_header) (m : marshall) : res marshall :=
  let saved_sz := m_ind m in
  let m := set_ind sizeof_rpc_sz_t m in
  m ← pack (rp_xid h) m;
  m ← pack (rp_ret h) m;
  Ret (set_ind saved_sz m).

(** take_buf hands out the buffer and its used size and forgets both. *)
Definition m_take_buf (m : marshall) : option (list cell) * Z * marshall :=
  (m_buf m, m_ind m, Marshall None (m_capa m) 0).

(** ** class unmarshall *)

Record unmarshall := Unmarshall {
  u_buf : option bytes;  (* char *_buf, None is NULL *)
  u_sz : Z;
  u_ind : Z;
  u_ok : bool
}.

Definition unmarshall_new : unmarshall := Unmarshall None 0 0 false.
Definition unmarshall_buf (b : bytes) (sz : Z) : unmarshall := Unmarshall (Some b) sz 0 true.

Definition okdone (u : unmarshall) : bool := u_ok u && (u_ind u =? u_sz u).

(** [char c] is returned as [unsigned int], so it is sign-extended. *)
Definition rawbyte (u : unmarshall) : res (Z * unmarshall) :=
  if u_ind u >=? u_sz u then
    Ret (0, Unmarshall (u_buf u) (u_sz u) (u_ind u) false)
  else
    match u_buf u with
    | Some b =>
        match b !! Z.to_nat (u_ind u) with
        | Some c => Ret (u32 (i8 (byte_Z c)), Unmarshall (u_buf u) (u_sz u) (u_ind u + 1) (u_ok u))
        | None => Crash Undefined
        end
    | None => Crash Undefined
    end.

(** [_ind+n] is computed in [unsigned int]; building a string longer than
    [max_size] throws length_error. *)
Definition rawbytes `{StringLimit} (ss : bytes) (n : Z) (u : unmarshall) : res (bytes * unmarshall) :=
  if u32 (u_ind u + n) >? u32 (u_sz u) then
    Ret (ss, Unmarshall (u_buf u) (u_sz u) (u_ind u) false)
  else if n >? max_size then Crash Uncaught
  else
    match u_buf u with
    | Some b =>
        let tmps := take (Z.to_nat n) (drop (Z.to_nat (u_ind u)) b) in
        if lenZ tmps =? n
        then Ret (tmps, Unmarshall (u_buf u) (u_sz u) (u_ind u + n) (u_ok u))
        else Crash Undefined
    | None => Crash Undefined
    end.

(** Four bytes, most significant first, or-ed into one word. *)
Definition read4 (u : unmarshall) : res (Z * unmarshall) :=
  '(a, u) ← rawbyte u;
  let x := u32 (Z.shiftl (Z.land a 255) 24) in
  '(b, u) ← rawbyte u;
  let x := Z.lor x (u32 (Z.shiftl (Z.land b 255) 16)) in
  '(c, u) ← rawbyte u;
  let x := Z.lor x (u32 (Z.shiftl (Z.land c 255) 8)) in
  '(d, u) ← rawbyte u;
  Ret (Z.lor x (Z.land d 255), u).

Definition unpack (u : unmarshall) : res (Z * unmarshall) :=
  '(x, u) ← read4 u; Ret (i32 x, u).

Definition u_set_ind (i : Z) (u : unmarshall) : unmarshall :=
  Unmarshall (u_buf u) (u_sz u) i (u_ok u).

Definition unpack_req_header (u : unmarshall) : res (req_header * unmarshall) :=
  let u := u_set_ind sizeof_rpc_sz_t u in
  '(xid, u) ← unpack u;
  '(proc, u) ← unpack u;
  '(clt_nonce, u) ← unpack u;
  '(srv_nonce, u) ← unpack u;
  '(xid_rep, u) ← unpack u;
  Ret (ReqHeader xid proc (u32 clt_nonce) (u32 srv_nonce) xid_rep,
       u_set_ind RPC_HEADER_SZ u).

Definition unpack_reply_header (u : unmarshall) : res (reply_header * unmarshall) :=
  let u := u_set_ind sizeof_rpc_sz_t u in
  '(xid, u) ← unpack u;
  '(ret, u) ← unpack u;
  Ret (ReplyHeader xid ret, u_set_ind RPC_HEADER_SZ u).

Definition u_take_buf (u : unmarshall) : option bytes * Z * unmarshall :=
  (u_buf u, u_sz u, Unmarshall None 0 0 (u_ok u)).

(** [take_in]: steal another object's buffer and skip its header. *)
Definition take_in (u another : unmarshall) : unmarshall * unmarshall :=
  let '(b, sz, another) := u_take_buf another in
  (Unmarshall b sz RPC_HEADER_SZ (sz >=? RPC_HEADER_SZ), another).

(** ** The << and >> operators *)

Definition put_uchar (x : Z) (m : marshall) : res marshall := m_rawbyte x m.
Definition put_bool (x : bool) (m : marshall) : res marshall := m_rawbyte (Z.b2z x) m.
Definition put_char (x : Z) (m : marshall) : res marshall := put_uchar (u8 x) m.

Definition put_ushort (x : Z) (m : marshall) : res marshall :=
  m ← m_rawbyte (Z.land (Z.shiftr x 8) 255) m;
  m_rawbyte (Z.land x 255) m.
Definition put_short (x : Z) (m : marshall) : res marshall := put_ushort (u16 x) m.

Definition put_uint (x : Z) (m : marshall) : res marshall :=
  m ← m_rawbyte (Z.land (Z.shiftr x 24) 255) m;
  m ← m_rawbyte (Z.land (Z.shiftr x 16) 255) m;
  m ← m_rawbyte (Z.land (Z.shiftr x 8) 255) m;
  m_rawbyte (Z.land x 255) m.
Definition put_int (x : Z) (m : marshall) : res marshall := put_uint (u32 x) m.

Definition put_string (s : bytes) (m : marshall) : res marshall :=
  m ← put_uint (u32 (lenZ s)) m;
  m_rawbytes s (i32 (lenZ s)) m.

Definition put_ull (x : Z) (m : marshall) : res marshall :=
  m ← put_uint (u32 (Z.shiftr x 32)) m;
  put_uint (u32 x) m.

Definition get_bool (u : unmarshall) : res (bool * unmarshall) :=
  '(c, u) ← rawbyte u; Ret (negb (c =? 0), u).
Definition get_uchar (u : unmarshall) : res (Z * unmarshall) :=
  '(c, u) ← rawbyte u; Ret (u8 c, u).
Definition get_char (u : unmarshall) : res (Z * unmarshall) :=
  '(c, u) ← rawbyte u; Ret (i8 c, u).

Definition read2 (u : unmarshall) : res (Z * unmarshall) :=
  '(a, u) ← rawbyte u;
  let x := Z.shiftl (Z.land a 255) 8 in
  '(b, u) ← rawbyte u;
  Ret (Z.lor x (Z.land b 255), u).
Definition get_ushort (u : unmarshall) : res (Z * unmarshall) :=
  '(x, u) ← read2 u; Ret (u16 x, u).
Definition get_short (u : unmarshall) : res (Z * unmarshall) :=
  '(x, u) ← read2 u; Ret (i16 x, u).

Definition get_uint (u : unmarshall) : res (Z * unmarshall) := read4 u.
Definition get_int (u : unmarshall) : res (Z * unmarshall) :=
  '(x, u) ← read4 u; Ret (i32 x, u).

Definition get_ull (u : unmarshall) : res (Z * unmarshall) :=
  '(h, u) ← get_uint u;
  '(l, u) ← get_uint u;
  Ret (Z.lor l (u64 (Z.shiftl h 32)), u).

Definition get_string `{StringLimit} (s : bytes) (u : unmarshall) : res (bytes * unmarshall) :=
  '(sz, u) ← get_uint u;
  if u_ok u then rawbytes s sz u else Ret (s, u).

(** ** What the buffers hold *)

(** Big-endian image of a 32-bit value. *)
Definition be4 (x : Z) : bytes :=
  [Z_byte (Z.shiftr x 24); Z_byte (Z.shiftr x 16); Z_byte (Z.shiftr x 8); Z_byte x].
Definition be2 (x : Z) : bytes := [Z_byte (Z.shiftr x 8); Z_byte x].

(** The marshaller has memory [b], all of it within its capacity. *)
Definition mem (m : marshall) (b : list cell) : Prop :=
  m_buf m = Some b /\ lenZ b = m_capa m.

(** Header cells [h] followed by the marshalled bytes [bs]. *)
Record holds (m : marshall) (h : list cell) (bs : bytes) : Prop := Holds {
  holds_mem : exists b, mem m b /\
    take (Z.to_nat (m_ind m)) b = h ++ (Some <$> bs);
  holds_hdr : lenZ h = RPC_HEADER_SZ;
  holds_ind : m_ind m = RPC_HEADER_SZ + lenZ bs;
  holds_fit : m_ind m <= m_capa m;
  holds_capa : DEFAULT_RPC_SZ <= m_capa m <= 2 * Z.max DEFAULT_RPC_SZ (m_ind m)
}.

(** The largest payload for which no [int] of the marshaller overflows. *)
Definition MAX_PAYLOAD : Z := 2 ^ 29.

Lemma Z_byte_ext a b : u8 a = u8 b -> Z_byte a = Z_byte b.
Proof. unfold Z_byte. intros ->. reflexivity. Qed.

Lemma Z_byte_land z : Z_byte (Z.land z 255) = Z_byte z.
Proof. apply Z_byte_ext. rewrite land_ff. apply Z.mod_mod. lia. Qed.

Lemma Z_byte_mod z n : 8 <= n -> Z_byte (z mod 2 ^ n) = Z_byte z.
Proof.
  intros. apply Z_byte_ext. apply Z.mod_mod_divide.
  exists (2 ^ (n - 8)). rewrite <- Z.pow_add_r by lia. f_equal. lia.
Qed.

Lemma shiftr_mod z n k : 0 <= k <= n -> Z.shiftr (z mod 2 ^ n) k = Z.shiftr z k mod 2 ^ (n - k).
Proof.
  intros. apply Z.bits_inj'. intros i Hi.
  rewrite Z.shiftr_spec by lia.
  destruct (Z.lt_ge_cases i (n - k)).
  - rewrite !Z.mod_pow2_bits_low, Z.shiftr_spec by lia. reflexivity.
  - rewrite !Z.mod_pow2_bits_high by lia. reflexivity.
Qed.

(** Only the low 32 bits of a value reach the wire. *)
Lemma be4_u32 x : be4 (u32 x) = be4 x.
Proof.
  unfold be4, u32.
  rewrite !shiftr_mod by lia. rewrite !Z_byte_mod by lia. reflexivity.
Qed.

Lemma be4_i32 x : be4 (i32 x) = be4 x.
Proof. rewrite <- (be4_u32 (i32 x)), u32_i32. apply be4_u32. Qed.

(** *** Writing *)

Lemma store_at_ok m (b cs : list cell) :
  mem m b -> 0 <= m_ind m -> m_ind m + lenZ cs <= m_capa m -> m_capa m < 2 ^ 31 ->
  store_at m cs =
    Ret (Marshall (Some (take (Z.to_nat (m_ind m)) b ++ cs ++
                         drop (Z.to_nat (m_ind m) + length cs) b))
           (m_capa m) (m_ind m + lenZ cs)).
Proof.
  intros [Hb Hl] Hi Hc Hm. unfold store_at. rewrite Hb. do 2 bcase.
  rewrite chk_int_ok by (unfold is_i32; lia). reflexivity.
Qed.

Lemma mem_stored (b cs : list cell) (i capa : Z) :
  lenZ b = capa -> 0 <= i -> i + lenZ cs <= capa ->
  lenZ (take (Z.to_nat i) b ++ cs ++ drop (Z.to_nat i + length cs) b) = capa.
Proof.
  intros. rewrite !length_app, length_take, length_drop. lia.
Qed.

(** Two stores in a row are one store of both parts. *)
Lemma store_at_app m (b cs ds : list cell) :
  mem m b -> 0 <= m_ind m -> m_ind m + lenZ (cs ++ ds) <= m_capa m -> m_capa m < 2 ^ 31 ->
  (m ← store_at m cs; store_at m ds) = store_at m (cs ++ ds).
Proof.
  intros Hm Hi Hc Hlt. rewrite length_app in Hc.
  rewrite (store_at_ok m b cs), (store_at_ok m b (cs ++ ds)); try done; try lia.
  2: { rewrite length_app. lia. }
  cbn [mbind res_bind]. destruct Hm as [Hb Hl].
  erewrite store_at_ok;
    [|split; [reflexivity|cbn; apply mem_stored; lia]|cbn; lia..].
  cbn. do 2 f_equal; [|rewrite length_app; lia]. f_equal.
  set (p := take (Z.to_nat (m_ind m)) b). set (q := drop _ b).
  assert (Hp : Z.to_nat (m_ind m + lenZ cs) = length (p ++ cs))
    by (subst p; rewrite length_app, length_take; lia).
  rewrite Hp, (app_assoc p cs q), take_app_length, drop_app_add.
  subst q. rewrite drop_drop, <- !app_assoc. do 4 f_equal.
  rewrite length_app. lia.
Qed.

Lemma grow_ok m b capa :
  mem m b -> m_capa m <= capa < 2 ^ 31 ->
  grow capa m = Ret (Marshall (Some (b ++ replicate (Z.to_nat capa - length b) None)) capa (m_ind m)).
Proof.
  intros [Hb Hl] Hc. unfold grow. rewrite chk_int_ok by (unfold is_i32; lia).
  cbn [mbind res_bind]. rewrite Hb. unfold realloc.
  rewrite take_ge by lia. reflexivity.
Qed.

(** Appending [ds] to a marshaller that holds [bs], once there is room. *)
Lemma append_holds m b h bs ds :
  mem m b -> take (Z.to_nat (m_ind m)) b = h ++ (Some <$> bs) ->
  lenZ h = RPC_HEADER_SZ -> m_ind m = RPC_HEADER_SZ + lenZ bs ->
  m_ind m + lenZ ds <= m_capa m -> m_capa m < 2 ^ 31 ->
  DEFAULT_RPC_SZ <= m_capa m <= 2 * Z.max DEFAULT_RPC_SZ (m_ind m + lenZ ds) ->
  exists m', store_at m (Some <$> ds) = Ret m' /\ holds m' h (bs ++ ds).
Proof.
  intros Hm Ht Hh Hi Hf Hlt Hc. assert (Hp : 0 <= RPC_HEADER_SZ) by (cbv; discriminate).
  assert (Hd : lenZ (Some <$> ds) = lenZ ds) by (rewrite length_fmap; reflexivity).
  rewrite (store_at_ok m b) by (rewrite ?Hd; first [done|lia]).
  eexists; split; [reflexivity|]. destruct Hm as [Hb Hl].
  split; cbn [m_buf m_capa m_ind]; rewrite ?Hd, ?length_app; try lia.
  eexists; split.
  - split; cbn; [reflexivity|]. apply mem_stored; rewrite ?Hd; lia.
  - rewrite Ht, fmap_app, app_assoc, (app_assoc h).
    apply take_app_length'. rewrite !length_app, !length_fmap. lia.
Qed.

Lemma sizes : DEFAULT_RPC_SZ = 1024 /\ RPC_HEADER_SZ = 24 /\ MAX_PAYLOAD = 2 ^ 29.
Proof. done. Qed.

Lemma holds_append m h bs ds :
  holds m h bs -> m_ind m + lenZ ds <= m_capa m -> lenZ bs + lenZ ds <= MAX_PAYLOAD ->
  exists m', store_at m (Some <$> ds) = Ret m' /\ holds m' h (bs ++ ds).
Proof.
  intros [(b & Hm & Ht) Hh Hi Hf Hc] Hr Hs. pose proof sizes.
  apply (append_holds m b); first [done|lia].
Qed.

Lemma holds_grow_append m h bs ds capa :
  holds m h bs -> lenZ bs + lenZ ds <= MAX_PAYLOAD -> m_capa m <= capa ->
  m_ind m + lenZ ds <= capa <= 2 * Z.max DEFAULT_RPC_SZ (m_ind m + lenZ ds) ->
  exists m', (m ← grow capa m; store_at m (Some <$> ds)) = Ret m' /\ holds m' h (bs ++ ds).
Proof.
  intros [(b & Hm & Ht) Hh Hi Hf Hc] Hs Hg Hr. pose proof sizes.
  rewrite (grow_ok m b) by (first [done|lia]). cbn [mbind res_bind].
  destruct Hm as [Hb Hl].
  apply (append_holds _ (b ++ replicate (Z.to_nat capa - length b) None)); cbn; try lia; try done.
  - split; cbn; [reflexivity|]. rewrite length_app, length_replicate. lia.
  - rewrite take_app_le by lia. exact Ht.
Qed.

Lemma m_rawbyte_holds m h bs x :
  holds m h bs -> lenZ bs < MAX_PAYLOAD ->
  exists m', m_rawbyte x m = Ret m' /\ holds m' h (bs ++ [Z_byte x]).
Proof.
  intros Hm Hs. unfold m_rawbyte. pose proof sizes. pose proof Hm as [_ _ ? ? ?].
  change [Some (Z_byte x)] with (Some <$> [Z_byte x]).
  rewrite Z.geb_leb. bcase.
  - apply holds_grow_append; cbn; first [done|lia].
  - cbn [mbind res_bind]. apply holds_append; cbn; first [done|lia].
Qed.

Lemma m_rawbytes_holds m h bs p :
  holds m h bs -> lenZ bs + lenZ p <= MAX_PAYLOAD ->
  exists m', m_rawbytes p (i32 (lenZ p)) m = Ret m' /\ holds m' h (bs ++ p).
Proof.
  intros Hm Hs. unfold m_rawbytes. pose proof sizes. pose proof Hm as [_ _ ? ? ?].
  rewrite i32_small, chk_int_ok by (unfold is_i32; lia). cbn [mbind res_bind].
  rewrite !Z.gtb_ltb, Nat2Z.id, take_ge by lia.
  replace ((0 <=? lenZ p) && (lenZ p <=? lenZ p)) with true by (do 2 bcase).
  destruct (Z.ltb_spec (m_capa m) (m_ind m + lenZ p)).
  - apply holds_grow_append; try done; bcase.
  - cbn [mbind res_bind]. apply holds_append; first [done|lia].
Qed.

(** *** Packing a header over the reserved cells *)

Lemma res_assoc {A B C} (m : res A) (f : A -> res B) (g : B -> res C) :
  (x ← (y ← m; f y); g x) = (y ← m; x ← f y; g x).
Proof. destruct m; reflexivity. Qed.

Lemma store_rawbyte m b cs x :
  mem m b -> 0 <= m_ind m -> m_ind m + lenZ cs < m_capa m -> m_capa m < 2 ^ 31 ->
  (m ← store_at m cs; m_rawbyte x m) = store_at m (cs ++ [Some (Z_byte x)]).
Proof.
  intros Hm Hi Hc Hlt. rewrite <- (store_at_app m b); try done.
  2: { rewrite length_app. cbn [length]. lia. }
  rewrite (store_at_ok m b) by (first [done|lia]). cbn [mbind res_bind].
  unfold m_rawbyte. cbn [m_ind m_capa]. rewrite Z.geb_leb. bcase. reflexivity.
Qed.

Lemma store_pack m b cs x :
  mem m b -> 0 <= m_ind m -> m_ind m + lenZ cs + 4 <= m_capa m -> m_capa m < 2 ^ 31 ->
  (m ← store_at m cs; pack x m) = store_at m (cs ++ (Some <$> be4 x)).
Proof.
  intros Hm Hi Hc Hlt. unfold pack.
  rewrite <- !res_assoc.
  do 4 (rewrite (store_rawbyte m b) by (rewrite ?length_app; cbn [length]; first [done|lia])).
  rewrite !Z_byte_land, <- !app_assoc. reflexivity.
Qed.

Lemma store_nothing m b :
  mem m b -> 0 <= m_ind m <= m_capa m -> m_capa m < 2 ^ 31 -> store_at m [] = Ret m.
Proof.
  intros Hm Hi Hlt. rewrite (store_at_ok m b) by (cbn; first [done|lia]).
  destruct Hm as [Hb Hl], m as [mb mc mi]; cbn in *. subst mb.
  rewrite Nat.add_0_r, take_drop, Z.add_0_r. reflexivity.
Qed.

(** Cells stored below the payload leave the payload alone. *)
Lemma store_header m h bs i cs :
  holds m h bs -> lenZ bs <= MAX_PAYLOAD -> 0 <= i -> i + lenZ cs <= RPC_HEADER_SZ ->
  exists m', store_at (set_ind i m) cs = Ret m' /\
    holds (set_ind (m_ind m) m')
      (take (Z.to_nat i) h ++ cs ++ drop (Z.to_nat i + length cs) h) bs.
Proof.
  intros [(b & [Hb Hl] & Ht) Hh Hi Hf Hc] Hs H0 Hr. pose proof sizes.
  rewrite (store_at_ok _ b); cbn; try lia; [|done].
  eexists; split; [reflexivity|]. split; cbn; try lia; [|apply mem_stored; lia].
  eexists; split; [split; cbn; [reflexivity|apply mem_stored; lia]|].
  assert (Hsplit : exists t, b = h ++ (Some <$> bs) ++ t).
  { exists (drop (Z.to_nat (m_ind m)) b). rewrite app_assoc, <- Ht. symmetry. apply take_drop. }
  destruct Hsplit as [t ->].
  rewrite (take_app_le h), (drop_app_le h) by lia. rewrite !app_assoc. apply take_app_length'.
  rewrite !length_app, length_fmap, length_take, length_drop. lia.
Qed.

(** The 24 header cells of a request and of a reply. *)
Definition req_header_cells (h0 : list cell) (h : req_header) : list cell :=
  take 4 h0 ++ (Some <$> be4 (rq_xid h) ++ be4 (rq_proc h) ++ be4 (rq_clt_nonce h) ++
                         be4 (rq_srv_nonce h) ++ be4 (rq_xid_rep h)).

Definition reply_header_cells (h0 : list cell) (h : reply_header) : list cell :=
  take 4 h0 ++ (Some <$> be4 (rp_xid h) ++ be4 (rp_ret h)) ++ drop 12 h0.

Lemma pack_req_header_holds m h0 bs h :
  holds m h0 bs -> lenZ bs <= MAX_PAYLOAD ->
  exists m', pack_req_header h m = Ret m' /\ holds m' (req_header_cells h0 h) bs.
Proof.
  intros Hm Hs. pose proof sizes. pose proof Hm as [(b & Hb & _) Hh Hi Hf Hc].
  unfold pack_req_header. set (m0 := set_ind sizeof_rpc_sz_t m).
  assert (Hb0 : mem m0 b) by done.
  assert (H0 : m_ind m0 = 4 /\ m_capa m0 = m_capa m) by done.
  assert (E : Ret m0 = store_at m0 []) by (symmetry; apply (store_nothing m0 b); [done|lia..]).
  change (pack (rq_xid h) m0) with (m ← Ret m0; pack (rq_xid h) m). rewrite E.
  rewrite <- !res_assoc.
  do 5 (rewrite (store_pack m0 b) by (rewrite ?length_app, ?length_fmap; cbn [length be4]; first [done|lia])).
  rewrite !be4_i32, app_nil_l, <- !fmap_app, <- !app_assoc.
  destruct (store_header m h0 bs 4
    (Some <$> be4 (rq_xid h) ++ be4 (rq_proc h) ++ be4 (rq_clt_nonce h) ++
              be4 (rq_srv_nonce h) ++ be4 (rq_xid_rep h)) Hm) as (m' & Hs' & Hm');
    [lia..|cbn; lia|].
  subst m0. unfold sizeof_rpc_sz_t. rstep Hs'. eexists; split; [reflexivity|].
  rewrite drop_ge, app_nil_r in Hm' by (cbn; lia). exact Hm'.
Qed.

Lemma pack_reply_header_holds m h0 bs h :
  holds m h0 bs -> lenZ bs <= MAX_PAYLOAD ->
  exists m', pack_reply_header h m = Ret m' /\ holds m' (reply_header_cells h0 h) bs.
Proof.
  intros Hm Hs. pose proof sizes. pose proof Hm as [(b & Hb & _) Hh Hi Hf Hc].
  unfold pack_reply_header. set (m0 := set_ind sizeof_rpc_sz_t m).
  assert (Hb0 : mem m0 b) by done.
  assert (H0 : m_ind m0 = 4 /\ m_capa m0 = m_capa m) by done.
  assert (E : Ret m0 = store_at m0 []) by (symmetry; apply (store_nothing m0 b); [done|lia..]).
  change (pack (rp_xid h) m0) with (m ← Ret m0; pack (rp_xid h) m). rewrite E.
  rewrite <- !res_assoc.
  do 2 (rewrite (store_pack m0 b) by (rewrite ?length_app, ?length_fmap; cbn [length be4]; first [done|lia])).
  rewrite app_nil_l, <- !fmap_app.
  destruct (store_header m h0 bs 4 (Some <$> be4 (rp_xid h) ++ be4 (rp_ret h)) Hm)
    as (m' & Hs' & Hm'); [lia..|cbn; lia|].
  subst m0. unfold sizeof_rpc_sz_t. rstep Hs'. eexists; split; [reflexivity|]. exact Hm'.
Qed.

Lemma marshall_new_holds : holds marshall_new (replicate 24 None) [].
Proof.
  split; try done. eexists; split; [split; reflexivity|]. reflexivity.
Qed.

(** *** Reading *)

(** The unread part of the input is [l]. *)
Definition ahead (u : unmarshall) (l : bytes) : Prop :=
  exists b, u_buf u = Some b /\ u_sz u = lenZ b /\ 0 <= u_ind u <= lenZ b /\
    drop (Z.to_nat (u_ind u)) b = l.

Definition advance (n : Z) (u : unmarshall) : unmarshall :=
  Unmarshall (u_buf u) (u_sz u) (u_ind u + n) (u_ok u).

Lemma advance_ahead u (p l : bytes) : ahead u (p ++ l) -> ahead (advance (lenZ p) u) l.
Proof.
  intros (b & Hb & Hs & Hi & Hd). exists b. cbn.
  assert (Hl : length (drop (Z.to_nat (u_ind u)) b) = length (p ++ l)) by (rewrite Hd; done).
  rewrite length_drop, length_app in Hl.
  repeat split; try done; try lia.
  replace (Z.to_nat (u_ind u + lenZ p)) with (Z.to_nat (u_ind u) + length p)%nat by lia.
  rewrite <- drop_drop, Hd. apply drop_app_length.
Qed.

Lemma advance_advance a b u : advance b (advance a u) = advance (a + b) u.
Proof. unfold advance. cbn. f_equal. lia. Qed.

Lemma ahead_bound u l : ahead u l -> u_ind u + lenZ l = u_sz u /\ 0 <= u_ind u.
Proof.
  intros (b & Hb & Hs & Hi & <-). rewrite length_drop. lia.
Qed.

(** Sign extension disappears under the 0xff mask. *)
Lemma sext_land c : Z.land (u32 (i8 (byte_Z c))) 255 = byte_Z c.
Proof. destruct c; reflexivity. Qed.

Lemma rawbyte_ahead u c l :
  ahead u (c :: l) ->
  rawbyte u = Ret (u32 (i8 (byte_Z c)), advance 1 u) /\ ahead (advance 1 u) l.
Proof.
  intros H. split; [|exact (advance_ahead u [c] l H)].
  pose proof (ahead_bound _ _ H) as [Hb1 Hb2]. cbn [length] in Hb1.
  destruct H as (b & Hb & Hs & Hi & Hd). unfold rawbyte.
  rewrite Z.geb_leb, Hb. bcase.
  rewrite <- (Nat.add_0_r (Z.to_nat (u_ind u))), <- lookup_drop, Hd. cbn.
  unfold advance. rewrite Hb. reflexivity.
Qed.

Ltac read_byte H :=
  let E := fresh "E" in
  apply rawbyte_ahead in H as [E H]; rstep E; rewrite ?sext_land.

Lemma read4_ahead u x l :
  ahead u (be4 x ++ l) -> read4 u = Ret (u32 x, advance 4 u).
Proof.
  intros H. unfold read4, be4 in *. cbn [app] in H.
  read_byte H. read_byte H. read_byte H. read_byte H.
  rewrite !advance_advance. do 2 f_equal.
  rewrite !byte_Z_of_Z. set (a := u8 _). set (b := u8 _). set (c := u8 _). set (d := u8 _).
  assert (is_u8 a /\ is_u8 b /\ is_u8 c /\ is_u8 d) as (Ha & Hb & Hc & Hd)
    by (repeat split; apply Z.mod_pos_bound; lia).
  unfold is_u8 in *.
  rewrite !u32_small by (unfold is_u32; rewrite Z.shiftl_mul_pow2 by lia; lia).
  rewrite <- (Z.lor_assoc _ (Z.shiftl c 8)), (lor_add_low c d 8) by lia.
  rewrite <- Z.lor_assoc, (lor_add_low b _ 16), (lor_add_low a _ 24) by lia.
  subst a b c d. unfold u32, u8. rewrite !Z.shiftr_div_pow2 by lia.
  Z.div_mod_to_equations. lia.
Qed.

(** ** Wire types

    The templates of rpc.h use [<<] and [>>] of their argument types.  A
    [wire] packages the two operators of a type with what they promise:
    the byte image of a value, for the values of the type's range. *)

Record wire (A : Type) := Wire {
  w_put : A -> marshall -> res marshall;
  w_get : A -> unmarshall -> res (A * unmarshall);
  w_image : A -> bytes;
  w_range : A -> Prop
}.
Arguments w_put {A} w _ _.
Arguments w_get {A} w _ _.
Arguments w_image {A} w _.
Arguments w_range {A} w _.

Class WireOk {A} (w : wire A) : Prop := {
  put_ok m h bs a :
    holds m h bs -> w_range w a -> lenZ bs + lenZ (w_image w a) <= MAX_PAYLOAD ->
    exists m', w_put w a m = Ret m' /\ holds m' h (bs ++ w_image w a);
  get_ok u l a0 a :
    ahead u (w_image w a ++ l) -> u_ok u = true -> u_sz u < 2 ^ 31 -> w_range w a ->
    w_get w a0 u = Ret (a, advance (lenZ (w_image w a)) u)
}.

Definition wire_uint : wire Z :=
  {| w_put := put_uint; w_get _ := get_uint; w_image := be4; w_range := is_u32 |}.
Definition wire_int : wire Z :=
  {| w_put := put_int; w_get _ := get_int; w_image := be4; w_range := is_i32 |}.
Definition wire_ull : wire Z :=
  {| w_put := put_ull; w_get _ := get_ull;
     w_image x := be4 (Z.shiftr x 32) ++ be4 x; w_range := is_u64 |}.
Definition wire_bool : wire bool :=
  {| w_put := put_bool; w_get _ := get_bool; w_image x := [Z_byte (Z.b2z x)];
     w_range _ := True |}.
Definition wire_ushort : wire Z :=
  {| w_put := put_ushort; w_get _ := get_ushort; w_image := be2; w_range := is_u16 |}.
Definition wire_uchar : wire Z :=
  {| w_put := put_uchar; w_get _ := get_uchar; w_image x := [Z_byte x]; w_range := is_u8 |}.
Definition wire_char : wire Z :=
  {| w_put := put_char; w_get _ := get_char; w_image x := [Z_byte x]; w_range := is_i8 |}.
Definition wire_short : wire Z :=
  {| w_put := put_short; w_get _ := get_short; w_image := be2; w_range := is_i16 |}.
Definition wire_string `{StringLimit} : wire bytes :=
  {| w_put := put_string; w_get := get_string;
     w_image s := be4 (lenZ s) ++ s; w_range s := lenZ s <= max_size < 2 ^ 31 |}.

(** Consecutive arguments: [m << a1; m << a2] and [args >> a1; args >> a2]. *)
Definition wire_pair {A B} (wa : wire A) (wb : wire B) : wire (A * B) :=
  {| w_put p m := m ← w_put wa p.1 m; w_put wb p.2 m;
     w_get p u := '(a, u) ← w_get wa p.1 u; '(b, u) ← w_get wb p.2 u; Ret ((a, b), u);
     w_image p := w_image wa p.1 ++ w_image wb p.2;
     w_range p := w_range wa p.1 /\ w_range wb p.2 |}.

Lemma put_uint_holds m h bs x :
  holds m h bs -> lenZ bs + 4 <= MAX_PAYLOAD ->
  exists m', put_uint x m = Ret m' /\ holds m' h (bs ++ be4 x).
Proof.
  intros H0 Hs. unfold put_uint.
  destruct (m_rawbyte_holds m h bs (Z.land (Z.shiftr x 24) 255) H0) as (m1 & E1 & H1); [lia|].
  rstep E1.
  destruct (m_rawbyte_holds _ _ _ (Z.land (Z.shiftr x 16) 255) H1) as (m2 & E2 & H2);
    [rewrite length_app; cbn; lia|].
  rstep E2.
  destruct (m_rawbyte_holds _ _ _ (Z.land (Z.shiftr x 8) 255) H2) as (m3 & E3 & H3);
    [rewrite !length_app; cbn; lia|].
  rstep E3.
  destruct (m_rawbyte_holds _ _ _ (Z.land x 255) H3) as (m4 & E4 & H4);
    [rewrite !length_app; cbn; lia|].
  exists m4. split; [exact E4|].
  rewrite !Z_byte_land, <- !app_assoc in H4. exact H4.
Qed.

Lemma length_be4 x : lenZ (be4 x) = 4.
Proof. reflexivity. Qed.

#[export] Instance wire_uint_ok : WireOk wire_uint.
Proof.
  split; cbn.
  - intros m h bs a Hm _ Hs. apply put_uint_holds; [done|exact Hs].
  - intros u l a0 a Ha _ _ Hr. unfold get_uint. rewrite (read4_ahead u a l Ha).
    rewrite u32_small by done. reflexivity.
Qed.

#[export] Instance wire_int_ok : WireOk wire_int.
Proof.
  split; cbn.
  - intros m h bs a Hm _ Hs. unfold put_int. rewrite <- be4_u32.
    apply put_uint_holds; [done|exact Hs].
  - intros u l a0 a Ha _ _ Hr. unfold get_int. rstep (read4_ahead u a l Ha).
    rewrite i32_u32, i32_small by done. reflexivity.
Qed.

#[export] Instance wire_ull_ok : WireOk wire_ull.
Proof.
  split; cbn [w_put w_get w_image w_range wire_ull].
  - intros m h bs a Hm _ Hs. rewrite length_app, Nat2Z.inj_add, !length_be4 in Hs.
    unfold put_ull.
    destruct (put_uint_holds m h bs (u32 (Z.shiftr a 32)) Hm) as (m1 & E1 & H1); [lia|].
    rstep E1. rewrite be4_u32 in H1.
    destruct (put_uint_holds _ _ _ (u32 a) H1) as (m2 & E2 & H2);
      [rewrite length_app, Nat2Z.inj_add, length_be4; lia|].
    rewrite be4_u32, <- app_assoc in H2. eauto.
  - intros u l a0 a Ha _ _ Hr. rewrite <- app_assoc in Ha. unfold get_ull, get_uint.
    rstep (read4_ahead u _ _ Ha). apply advance_ahead in Ha. rewrite length_be4 in Ha.
    rstep (read4_ahead _ _ _ Ha). rewrite advance_advance.
    do 2 f_equal. unfold is_u64 in Hr. rewrite Z.shiftr_div_pow2 by lia.
    rewrite (u32_small (a / _)) by (unfold is_u32; Z.div_mod_to_equations; lia).
    rewrite u64_small
      by (unfold is_u64; rewrite Z.shiftl_mul_pow2 by lia; Z.div_mod_to_equations; lia).
    rewrite Z.lor_comm, lor_add_low by (try apply u32_range; lia).
    unfold u32. Z.div_mod_to_equations. lia.
Qed.

#[export] Instance wire_bool_ok : WireOk wire_bool.
Proof.
  split; cbn [w_put w_get w_image w_range wire_bool].
  - intros m h bs a Hm _ Hs. cbn in Hs. apply m_rawbyte_holds; [done|lia].
  - intros u l a0 a Ha _ _ _. unfold get_bool. read_byte Ha.
    destruct a; reflexivity.
Qed.

Lemma sext_u8 c : u8 (u32 (i8 (byte_Z c))) = byte_Z c.
Proof. destruct c; reflexivity. Qed.

Lemma sext_i8 c : i8 (u32 (i8 (byte_Z c))) = i8 (byte_Z c).
Proof. destruct c; reflexivity. Qed.

#[export] Instance wire_uchar_ok : WireOk wire_uchar.
Proof.
  split; cbn [w_put w_get w_image w_range wire_uchar].
  - intros m h bs a Hm _ Hs. cbn in Hs. apply m_rawbyte_holds; [done|lia].
  - intros u l a0 a Ha _ _ Hr. unfold get_uchar. read_byte Ha. rewrite sext_u8, byte_Z_of_Z.
    unfold u8. by rewrite Z.mod_small.
Qed.

#[export] Instance wire_char_ok : WireOk wire_char.
Proof.
  split; cbn [w_put w_get w_image w_range wire_char].
  - intros m h bs a Hm _ Hs. cbn in Hs. unfold put_char, put_uchar.
    rewrite <- (Z_byte_ext (u8 a) a) by (apply Z.mod_mod; lia). apply m_rawbyte_holds; [done|lia].
  - intros u l a0 a Ha _ _ Hr. unfold get_char. read_byte Ha. rewrite sext_i8, byte_Z_of_Z. do 2 f_equal.
    unfold i8, u8, is_i8 in *. Z.div_mod_to_equations. lia.
Qed.

Lemma put_ushort_holds m h bs x :
  holds m h bs -> lenZ bs + 2 <= MAX_PAYLOAD ->
  exists m', put_ushort x m = Ret m' /\ holds m' h (bs ++ be2 x).
Proof.
  intros Hm Hs. unfold put_ushort.
  destruct (m_rawbyte_holds m h bs (Z.land (Z.shiftr x 8) 255) Hm) as (m1 & E1 & H1); [lia|].
  rstep E1.
  destruct (m_rawbyte_holds _ _ _ (Z.land x 255) H1) as (m2 & E2 & H2);
    [rewrite length_app; cbn; lia|].
  exists m2. split; [exact E2|]. rewrite !Z_byte_land, <- app_assoc in H2. exact H2.
Qed.

Lemma read2_ahead u x l : ahead u (be2 x ++ l) -> read2 u = Ret (u16 x, advance 2 u).
Proof.
  intros Ha. unfold read2, be2 in *. cbn [app] in Ha. read_byte Ha. read_byte Ha. rewrite advance_advance. do 2 f_equal.
  rewrite !byte_Z_of_Z, lor_add_low by (try apply Z.mod_pos_bound; lia).
  unfold u16, u8. rewrite Z.shiftr_div_pow2 by lia. Z.div_mod_to_equations. lia.
Qed.

#[export] Instance wire_ushort_ok : WireOk wire_ushort.
Proof.
  split; cbn [w_put w_get w_image w_range wire_ushort].
  - intros m h bs a Hm _ Hs. cbn in Hs. apply put_ushort_holds; [done|lia].
  - intros u l a0 a Ha _ _ Hr. unfold get_ushort. rstep (read2_ahead u a l Ha). do 2 f_equal.
    unfold u16, is_u16 in *. rewrite Z.mod_mod by lia. by apply Z.mod_small.
Qed.

#[export] Instance wire_short_ok : WireOk wire_short.
Proof.
  split; cbn [w_put w_get w_image w_range wire_short].
  - intros m h bs a Hm _ Hs. cbn in Hs. unfold put_short.
    replace (be2 a) with (be2 (u16 a)); [apply put_ushort_holds; [done|lia]|].
    unfold be2. f_equal; [|f_equal]; apply Z_byte_ext; unfold u16, u8; rewrite ?Z.shiftr_div_pow2 by lia;
      Z.div_mod_to_equations; lia.
  - intros u l a0 a Ha _ _ Hr. unfold get_short. rstep (read2_ahead u a l Ha). do 2 f_equal.
    unfold i16, u16, is_i16 in *. Z.div_mod_to_equations. lia.
Qed.

Lemma rawbytes_ahead `{StringLimit} ss (s l : bytes) u :
  ahead u (s ++ l) -> u_sz u < 2 ^ 31 -> lenZ s <= max_size ->
  rawbytes ss (lenZ s) u = Ret (s, advance (lenZ s) u).
Proof.
  intros Ha Hz Hm. pose proof (ahead_bound _ _ Ha) as [H1 H2]. rewrite length_app in H1.
  destruct Ha as (b & Hb & Hs & Hi & Hd). unfold rawbytes.
  rewrite !u32_small by (unfold is_u32; lia). rewrite !Z.gtb_ltb. do 2 bcase.
  rewrite Hb, Hd, Nat2Z.id, take_app_length, Z.eqb_refl. unfold advance. rewrite Hb. reflexivity.
Qed.

#[export] Instance wire_string_ok `{StringLimit} : WireOk wire_string.
Proof.
  split; cbn [w_put w_get w_image w_range wire_string].
  - intros m h bs s Hm Hr Hs. rewrite length_app, Nat2Z.inj_add, length_be4 in Hs.
    unfold put_string.
    destruct (put_uint_holds m h bs (u32 (lenZ s)) Hm) as (m1 & E1 & H1); [lia|].
    rstep E1. rewrite be4_u32 in H1.
    destruct (m_rawbytes_holds _ _ _ s H1) as (m2 & E2 & H2);
      [rewrite length_app, Nat2Z.inj_add, length_be4; lia|].
    rewrite <- app_assoc in H2. eauto.
  - intros u l s0 s Ha Hok Hz Hr. rewrite <- app_assoc in Ha. unfold get_string, get_uint.
    rstep (read4_ahead u _ _ Ha). apply advance_ahead in Ha. rewrite length_be4 in Ha.
    cbn [u_ok advance]. rewrite Hok, u32_small by (unfold is_u32; lia).
    rewrite (rawbytes_ahead s0 s l) by (first [done|lia]).
    rewrite length_app, Nat2Z.inj_add, length_be4, advance_advance. reflexivity.
Qed.

#[export] Instance wire_pair_ok {A B} (wa : wire A) (wb : wire B) :
  WireOk wa -> WireOk wb -> WireOk (wire_pair wa wb).
Proof.
  intros Ha Hb. split; cbn [w_put w_get w_image w_range wire_pair].
  - intros m h bs [a b] Hm [Ra Rb] Hs. cbn [fst snd] in *.
    rewrite length_app, Nat2Z.inj_add in Hs.
    destruct (put_ok m h bs a Hm Ra) as (m1 & E1 & H1); [lia|]. rstep E1.
    destruct (put_ok m1 h _ b H1 Rb) as (m2 & E2 & H2); [rewrite length_app; lia|].
    rewrite <- app_assoc in H2. eauto.
  - intros u l [a0 b0] [a b] Hu Hok Hz [Ra Rb]. cbn [fst snd] in *.
    rewrite <- app_assoc in Hu.
    rstep (get_ok u _ a0 a Hu Hok Hz Ra). apply advance_ahead in Hu.
    rstep (get_ok _ _ b0 b Hu Hok Hz Rb).
    rewrite advance_advance, length_app, Nat2Z.inj_add. reflexivity.
Qed.

(** ** From one end to the other

    [realizes cs b]: the bytes [b] a connection delivers agree with the
    cells [cs] of the sent buffer wherever the sender wrote one; the
    cells it never wrote can arrive as anything. *)

Definition realizes (cs : list cell) (b : bytes) : Prop :=
  Forall2 (fun c x => c = None \/ c = Some x) cs b.

Lemma realizes_app cs ds b :
  realizes (cs ++ ds) b ->
  exists b1 b2, b = b1 ++ b2 /\ realizes cs b1 /\ realizes ds b2.
Proof.
  intros H. apply Forall2_app_inv_l in H as (b1 & b2 & ? & ? & ->). eauto.
Qed.

Lemma realizes_written bs b : realizes (Some <$> bs) b -> b = bs.
Proof.
  unfold realizes. revert b. induction bs as [|x bs IH]; intros b H; cbn in H.
  - apply Forall2_nil_inv_l in H. done.
  - apply Forall2_cons_inv_l in H as (y & b' & [?|?] & Hb & ->); simplify_eq.
    f_equal. apply IH. exact Hb.
Qed.

(** The buffer [take_buf] hands to the connection. *)
Definition sent (m : marshall) : list cell :=
  default [] (take (Z.to_nat (m_ind m)) <$> m_buf m).

Lemma holds_sent m h bs : holds m h bs -> sent m = h ++ (Some <$> bs).
Proof.
  intros [(b & [Hb _] & Ht) _ _ _ _]. unfold sent. rewrite Hb. exact Ht.
Qed.

Lemma unpack_ahead u x l :
  ahead u (be4 x ++ l) -> unpack u = Ret (i32 x, advance 4 u) /\ ahead (advance 4 u) l.
Proof.
  intros H. unfold unpack. rstep (read4_ahead u x l H). rewrite i32_u32.
  split; [reflexivity|]. apply advance_ahead in H. exact H.
Qed.

Ltac unpack_step H :=
  let E := fresh "E" in apply unpack_ahead in H as [E H]; rstep E; rewrite ?advance_advance in *.

Definition req_header_ok (h : req_header) : Prop :=
  is_i32 (rq_xid h) /\ is_i32 (rq_proc h) /\ is_u32 (rq_clt_nonce h) /\
  is_u32 (rq_srv_nonce h) /\ is_i32 (rq_xid_rep h).

Definition reply_header_ok (h : reply_header) : Prop := is_i32 (rp_xid h) /\ is_i32 (rp_ret h).

(** A delivered request: its header and the cursor at its arguments. *)
Lemma delivered_request m h0 h bs b :
  holds m (req_header_cells h0 h) bs -> req_header_ok h -> realizes (sent m) b ->
  exists u, unpack_req_header (unmarshall_buf b (lenZ b)) = Ret (h, u) /\
    ahead u bs /\ u_ok u = true /\ u_sz u = RPC_HEADER_SZ + lenZ bs.
Proof.
  intros Hm (R1 & R2 & R3 & R4 & R5) Hb. pose proof (holds_hdr _ _ _ Hm) as Hh.
  rewrite (holds_sent _ _ _ Hm) in Hb. apply realizes_app in Hb as (b1 & b2 & -> & Hb1 & Hb2).
  apply realizes_written in Hb2 as ->.
  apply realizes_app in Hb1 as (s & b3 & -> & Hs & Hb3). apply realizes_written in Hb3 as ->.
  unfold req_header_cells in Hh. rewrite length_app, length_fmap in Hh.
  pose proof (Forall2_length _ _ _ Hs) as Hls. cbn in Hh. change RPC_HEADER_SZ with 24 in *.
  assert (Hl4 : length s = 4%nat) by lia.
  set (body := be4 (rq_xid h) ++ be4 (rq_proc h) ++ be4 (rq_clt_nonce h) ++
               be4 (rq_srv_nonce h) ++ be4 (rq_xid_rep h)) in *.
  set (u0 := unmarshall_buf _ _).
  assert (Ha : ahead (u_set_ind 4 u0) (body ++ bs)).
  { exists ((s ++ body) ++ bs). repeat split; cbn; rewrite ?length_app; try lia.
    rewrite <- app_assoc. apply drop_app_length'. lia. }
  subst body. rewrite <- !app_assoc in Ha. unfold unpack_req_header, sizeof_rpc_sz_t.
  do 5 unpack_step Ha. rewrite !u32_i32, !u32_small by done.
  rewrite (i32_small (rq_xid h)), (i32_small (rq_proc h)), (i32_small (rq_xid_rep h)) by done.
  eexists; split; [destruct h; reflexivity|]. split; [exact Ha|]. split; [reflexivity|].
  cbn. rewrite !length_app. cbn. lia.
Qed.

Lemma delivered_reply m h0 h bs b :
  holds m (reply_header_cells h0 h) bs -> lenZ h0 = RPC_HEADER_SZ -> reply_header_ok h ->
  realizes (sent m) b ->
  exists u, unpack_reply_header (unmarshall_buf b (lenZ b)) = Ret (h, u) /\
    ahead u bs /\ u_ok u = true /\ u_sz u = RPC_HEADER_SZ + lenZ bs.
Proof.
  intros Hm Hh0 (R1 & R2) Hb. pose proof (holds_hdr _ _ _ Hm) as Hh.
  rewrite (holds_sent _ _ _ Hm) in Hb. apply realizes_app in Hb as (b1 & b2 & -> & Hb1 & Hb2).
  apply realizes_written in Hb2 as ->.
  apply realizes_app in Hb1 as (s & b3 & -> & Hs & Hb3).
  apply realizes_app in Hb3 as (b4 & t & -> & Hb4 & Ht). apply realizes_written in Hb4 as ->.
  pose proof (Forall2_length _ _ _ Hs) as Hls. pose proof (Forall2_length _ _ _ Ht) as Hlt.
  rewrite length_take in Hls. rewrite length_drop in Hlt. change RPC_HEADER_SZ with 24 in *.
  assert (length s = 4%nat /\ length t = 12%nat) as [Hl4 Hl12] by lia.
  set (u0 := unmarshall_buf _ _).
  assert (Ha : ahead (u_set_ind 4 u0) (be4 (rp_xid h) ++ be4 (rp_ret h) ++ t ++ bs)).
  { exists ((s ++ (be4 (rp_xid h) ++ be4 (rp_ret h)) ++ t) ++ bs).
    repeat split; cbn; rewrite ?length_app; cbn; try lia.
    rewrite <- !app_assoc. apply drop_app_length'. lia. }
  unfold unpack_reply_header, sizeof_rpc_sz_t.
  do 2 unpack_step Ha. rewrite !i32_small by done.
  eexists; split; [destruct h; reflexivity|].
  split; [|split; [reflexivity|cbn; rewrite !length_app; cbn; lia]].
  apply advance_ahead in Ha. rewrite Hl12, advance_advance in Ha. exact Ha.
Qed.

(** The bytes of an argument list, read back after the header. *)
Lemma get_arguments {A} (w : wire A) `{WireOk A w} u a0 a :
  ahead u (w_image w a) -> u_ok u = true -> u_sz u < 2 ^ 31 -> w_range w a ->
  exists u', w_get w a0 u = Ret (a, u') /\ okdone u' = true.
Proof.
  intros Ha Hok Hz Hr. pose proof (ahead_bound _ _ Ha) as [Hb _].
  rewrite (get_ok u [] a0 a); try done; [|rewrite app_nil_r; done].
  eexists; split; [reflexivity|]. unfold okdone. cbn. rewrite Hok, Hb, Z.eqb_refl. reflexivity.
Qed.

(** The reply object a caller reads from after take_in. *)
Lemma take_in_ahead un u bs :
  ahead u bs -> u_sz u = RPC_HEADER_SZ + lenZ bs ->
  ahead (take_in un u).1 bs /\ u_ok (take_in un u).1 = true /\
  u_sz (take_in un u).1 = RPC_HEADER_SZ + lenZ bs.
Proof.
  intros Ha Hz. destruct (ahead_bound _ _ Ha) as [Hi _].
  assert (E : u_ind u = RPC_HEADER_SZ) by lia.
  split; [|split; [cbn; apply Z.geb_le; lia|done]].
  destruct Ha as (b & ? & ? & ? & ?). rewrite E in *. by exists b.
Qed.

(** ** Theorems *)

(** A request survives: packing arguments and header does not fail, and
    from any delivery of the sent buffer both are read back. *)
Lemma request_survives {A} (w : wire A) (Hw : WireOk w) (h : req_header) (a a0 : A) :
  req_header_ok h -> w_range w a -> lenZ (w_image w a) <= MAX_PAYLOAD ->
  exists m1 m2, w_put w a marshall_new = Ret m1 /\ pack_req_header h m1 = Ret m2 /\
    forall b, realizes (sent m2) b ->
    exists u1 u2, unpack_req_header (unmarshall_buf b (lenZ b)) = Ret (h, u1) /\
      w_get w a0 u1 = Ret (a, u2) /\ okdone u2 = true.
Proof.
  intros Hh Hr Hs. pose proof sizes.
  destruct (put_ok _ _ _ a marshall_new_holds Hr) as (m1 & E1 & H1); [cbn; lia|].
  destruct (pack_req_header_holds _ _ _ h H1) as (m2 & E2 & H2); [cbn; lia|].
  exists m1, m2. do 2 (split; [done|]). intros b Hb.
  destruct (delivered_request _ _ _ _ _ H2 Hh Hb) as (u1 & Eu & Ha & Hok & Hz).
  destruct (get_arguments w u1 a0 a) as (u2 & Eg & Hd); try done; [cbn in Hz; lia|].
  eauto.
Qed.

(** A reply survives the way back: the client's unpack_reply_header
    recovers xid and return code, and after take_in the [>>] of the reply
    type recovers the result with okdone() true, although twelve of the
    header bytes are never written by the server. *)
Theorem reply_roundtrip {A} (w : wire A) (Hw : WireOk w) (h : reply_header) (r r0 : A)
    (un : unmarshall) :
  reply_header_ok h -> w_range w r -> lenZ (w_image w r) <= MAX_PAYLOAD ->
  exists m1 m2, w_put w r marshall_new = Ret m1 /\ pack_reply_header h m1 = Ret m2 /\
    forall b, realizes (sent m2) b ->
    exists u1 u2, unpack_reply_header (unmarshall_buf b (lenZ b)) = Ret (h, u1) /\
      w_get w r0 (take_in un u1).1 = Ret (r, u2) /\ okdone u2 = true.
Proof.
  intros Hh Hr Hs. pose proof sizes.
  destruct (put_ok _ _ _ r marshall_new_holds Hr) as (m1 & E1 & H1); [cbn; lia|].
  destruct (pack_reply_header_holds _ _ _ h H1) as (m2 & E2 & H2); [cbn; lia|].
  exists m1, m2. do 2 (split; [done|]). intros b Hb.
  destruct (delivered_reply _ _ _ _ _ H2 ltac:(done) Hh Hb) as (u1 & Eu & Ha & Hok & Hz).
  destruct (take_in_ahead un u1 _ Ha Hz) as (Ha' & Hok' & Hz').
  destruct (get_arguments w (take_in un u1).1 r0 r) as (u2 & Eg & Hd); try done; [rewrite app_nil_l in Hz'; lia|].
  eauto.
Qed.

Lemma reply_roundtrip_witness :
  let L := 2 ^ 30 : StringLimit in
  exists m1 m2,
    w_put wire_string (str "data") marshall_new = Ret m1 /\
    pack_reply_header (ReplyHeader 3 0) m1 = Ret m2 /\
    forall b, realizes (sent m2) b ->
    exists u1 u2,
      unpack_reply_header (unmarshall_buf b (lenZ b)) = Ret (ReplyHeader 3 0, u1) /\
      w_get wire_string [] (take_in unmarshall_new u1).1 = Ret (str "data", u2) /\
      okdone u2 = true.
Proof.
  intros L. apply (reply_roundtrip wire_string _).
  - vm_compute. repeat split; discriminate.
  - vm_compute. repeat split; discriminate.
  - vm_compute. discriminate.
Defined.

(** The cursor of a buffer received from a connection. *)
Definition received (u : unmarshall) : Prop :=
  exists b, u_buf u = Some b /\ u_sz u = lenZ b /\ 0 <= u_ind u < 2 ^ 31 /\ u_sz u < 2 ^ 31.

(** unmarshall::rawbytes never reads outside the received buffer; it
    ends the process exactly when the length field makes [_ind+n] wrap
    around 32 bits, because the bound check then passes and the string
    constructor throws. *)
Theorem rawbytes_crash `{StringLimit} (ss : bytes) (n : Z) (u : unmarshall) (f : fault) :
  received u -> is_u32 n -> max_size < 2 ^ 31 -> u_ind u <= u_sz u ->
  lenZ (default [] (u_buf u)) <= max_size ->
  rawbytes ss n u = Crash f <->
    f = Uncaught /\ 2 ^ 32 <= u_ind u + n.
Proof.
  intros (b & Hb & Hs & Hi & Hz) Hn Hmax Hle Hlb. unfold is_u32 in Hn.
  rewrite Hb in Hlb. cbn in Hlb.
  unfold rawbytes. rewrite !Z.gtb_ltb, (u32_small (u_sz u)) by (unfold is_u32; lia).
  destruct (Z.lt_ge_cases (u_ind u + n) (2 ^ 32)).
  - rewrite u32_small by (unfold is_u32; lia). bcase; [split; [discriminate|lia]|]. bcase.
    rewrite Hb, length_take, length_drop. bcase. split; [discriminate|lia].
  - assert (E : u32 (u_ind u + n) = u_ind u + n - 2 ^ 32).
    { unfold u32. Z.div_mod_to_equations. lia. }
    rewrite E. do 2 bcase.
    split; [intros [= <-]; done|intros (-> & _); reflexivity].
Qed.

Lemma rawbytes_crash_witness :
  let L := 2 ^ 30 : StringLimit in
  let u := Unmarshall (Some (replicate 40 "000"%byte)) 40 28 true in
  rawbytes [] (2 ^ 32 - 20) u = Crash Uncaught.
Proof.
  intros L u. apply (rawbytes_crash [] (2 ^ 32 - 20) u Uncaught).
  - exists (replicate 40 "000"%byte). vm_compute. repeat split; discriminate.
  - vm_compute. split; [discriminate|reflexivity].
  - reflexivity.
  - vm_compute. discriminate.
  - vm_compute. discriminate.
  - vm_compute. repeat split; discriminate.
Defined.
