(* ===== verification/Extent.v ===== *)
(** * The extent server (extent_protocol.h, extent_server.cc)

    Handlers over the [store_table]; every handler runs under the server
    mutex, so each is one atomic function of the table.  [time(NULL)] is
    an argument, one per call in the code.  A reference parameter is
    passed in and returned. *)

From Stdlib Require Import ZArith Lia Strings.Byte.
From stdpp Require Import base list gmap.
From S2P Require Import Prelude Marshall.

#[local] Open Scope Z_scope.

Module extent_protocol.

(** enum xxstatus *)
Definition OK : Z := 0.
Definition RPCERR : Z := 1.
Definition NOENT : Z := 2.
Definition IOERR : Z := 3.

(** enum rpc_numbers *)
Definition put : Z := 24577. (* 0x6001 *)
Definition get : Z := 24578.
Definition getattr : Z := 24579.
Definition remove : Z := 24580.
Definition resize : Z := 24581.
Definition getbuf : Z := 24582.
Definition putbuf : Z := 24583.

Record attr := Attr { atime : Z; mtime : Z; ctime : Z; size : Z }.

Definition put_attr (a : attr) (m : marshall) : res marshall :=
  m ← put_uint (atime a) m;
  m ← put_uint (mtime a) m;
  m ← put_uint (ctime a) m;
  put_uint (size a) m.

Definition get_attr (u : unmarshall) : res (attr * unmarshall) :=
  '(at', u) ← get_uint u;
  '(mt, u) ← get_uint u;
  '(ct, u) ← get_uint u;
  '(sz, u) ← get_uint u;
  Ret (Attr at' mt ct sz, u).

Definition wire_attr : wire attr :=
  {| w_put := put_attr; w_get _ := get_attr;
     w_image a := be4 (atime a) ++ be4 (mtime a) ++ be4 (ctime a) ++ be4 (size a);
     w_range a := is_u32 (atime a) /\ is_u32 (mtime a) /\ is_u32 (ctime a) /\ is_u32 (size a) |}.

(** [attr] marshalls as the four words it is made of. *)
Definition attr_words : wire (Z * (Z * (Z * Z))) :=
  wire_pair wire_uint (wire_pair wire_uint (wire_pair wire_uint wire_uint)).

#[export] Instance wire_attr_ok : WireOk wire_attr.
Proof.
  assert (W : WireOk attr_words) by (repeat apply wire_pair_ok; apply wire_uint_ok).
  split.
  - intros m h bs [a1 a2 a3 a4] Hm Hr Hs.
    exact (@put_ok _ attr_words W m h bs (a1, (a2, (a3, a4))) Hm Hr Hs).
  - intros u l a0 [a1 a2 a3 a4] Ha Hok Hz Hr.
    pose proof (@get_ok _ attr_words W u l (0, (0, (0, 0))) (a1, (a2, (a3, a4))) Ha Hok Hz Hr) as E.
    cbn [w_get wire_attr attr_words wire_pair wire_uint fst snd] in *. unfold get_attr.
    revert E. repeat (destruct (get_uint _) as [[? ?]|?] in |- *;
      cbn [mbind res_bind]; [|discriminate]). intros [= -> -> -> -> ->]. reflexivity.
Qed.

End extent_protocol.

Module extent_server.
Import extent_protocol.

Record store := Store { buf : bytes; a : attr }.

(** [std::map<int, struct store>]: the 64-bit id is narrowed to [int]. *)
Abbreviation table := (gmap Z store).
Definition key (id : Z) : Z := i32 id.

Section handlers.
Context `{StringLimit}.

Definition put (id : Z) (b : bytes) (now : Z) (st : table) : Z * table :=
  let curtime := u32 now in
  (OK, <[key id := Store b (Attr curtime curtime curtime (u32 (lenZ b)))]> st).

Definition get (id : Z) (b : bytes) (now : Z) (st : table) : Z * bytes * table :=
  match st !! key id with
  | None => (NOENT, b, st)
  | Some r =>
      let r' := Store (buf r) (Attr (u32 now) (mtime (a r)) (ctime (a r)) (size (a r))) in
      (OK, buf r, <[key id := r']> st)
  end.

Definition getattr (id : Z) (st : table) : Z * attr :=
  match st !! key id with
  | None => (NOENT, Attr 0 0 0 0)
  | Some r => (OK, a r)
  end.

Definition remove (id : Z) (st : table) : Z * table :=
  match st !! key id with
  | None => (NOENT, st)
  | Some _ => (OK, delete (key id) st)
  end.

(** [now1] and [now2] are the two calls of time(NULL); a.size is not written. *)
Definition resize (id new_size now1 now2 : Z) (st : table) : res (Z * table) :=
  match st !! key id with
  | None => Ret (NOENT, st)
  | Some r =>
      let mt := if lenZ (buf r) >? new_size then u32 now1 else mtime (a r) in
      b ← string_resize new_size (buf r);
      Ret (OK, <[key id := Store b (Attr (atime (a r)) mt (u32 now2) (size (a r)))]> st)
  end.

Definition getbuf (id ask_size off : Z) (b : bytes) (now : Z) (st : table) : res (Z * bytes * table) :=
  match st !! key id with
  | None => Ret (NOENT, b, st)
  | Some r =>
      let len := lenZ (buf r) in
      if off <? len then
        let allowsize := if len - off >? ask_size then ask_size else len - off in
        b ← string_substr (buf r) off allowsize;
        Ret (OK, b, <[key id := Store (buf r) (Attr (u32 now) (mtime (a r)) (ctime (a r)) (size (a r)))]> st)
      else Ret (IOERR, b, st)
  end.

Definition putbuf (id off : Z) (b : bytes) (now : Z) (st : table) : res (Z * table) :=
  match st !! key id with
  | None => Ret (NOENT, st)
  | Some r =>
      let len := lenZ (buf r) in
      let end' := u32 (off + lenZ b) in
      s ← (if end' >? len then string_resize end' (buf r) else Ret (buf r));
      s ← string_replace s off (lenZ b) b;
      Ret (OK, <[key id := Store s (Attr (atime (a r)) (u32 now) (ctime (a r)) (u32 (lenZ s)))]> st)
  end.

(** The constructor creates the root directory, id 1, empty. *)
Definition extent_server_new (now : Z) : table := (put 1 [] now ∅).2.

(** ** Requests and runs

    One constructor per registered handler (extent_smain.cc), carrying
    the clock readings the handler makes. *)

Inductive request :=
| Put (id : Z) (b : bytes) (now : Z)
| Get (id now : Z)
| Getattr (id : Z)
| Remove (id : Z)
| Resize (id new_size now1 now2 : Z)
| Getbuf (id ask_size off now : Z)
| Putbuf (id off : Z) (b : bytes) (now : Z).

(** What the handler's reply carries besides the status. *)
Inductive payload :=
| PUnit
| PData (b : bytes)
| PAttr (at' : attr).

Definition serve (r : request) (st : table) : res (Z * payload * table) :=
  match r with
  | Put id b now => let '(s, st') := put id b now st in Ret (s, PUnit, st')
  | Get id now => let '(s, b, st') := get id [] now st in Ret (s, PData b, st')
  | Getattr id => let '(s, at') := getattr id st in Ret (s, PAttr at', st)
  | Remove id => let '(s, st') := remove id st in Ret (s, PUnit, st')
  | Resize id n t1 t2 => '(s, st') ← resize id n t1 t2 st; Ret (s, PUnit, st')
  | Getbuf id n off now => '(s, b, st') ← getbuf id n off [] now st; Ret (s, PData b, st')
  | Putbuf id off b now => '(s, st') ← putbuf id off b now st; Ret (s, PUnit, st')
  end.

Fixpoint serve_all (rs : list request) (st : table) : res (list (Z * payload) * table) :=
  match rs with
  | [] => Ret ([], st)
  | r :: rs =>
      '(s, p, st) ← serve r st;
      '(out, st) ← serve_all rs st;
      Ret ((s, p) :: out, st)
  end.

(** Every string of a request obeys the library's limit. *)
Definition request_ok (r : request) : Prop :=
  match r with
  | Put _ b _ => lenZ b <= max_size
  | Putbuf _ off b _ => is_u32 off /\ lenZ b <= max_size
  | Getbuf _ n off _ => is_u32 n /\ is_u32 off
  | Resize _ n _ _ => is_u32 n
  | _ => True
  end.

Definition is_resize (r : request) : bool :=
  match r with Resize _ _ _ _ => true | _ => false end.

(** ** Invariant *)

Definition coherent (r : store) : Prop :=
  lenZ (buf r) <= max_size /\ size (a r) = u32 (lenZ (buf r)).

Definition table_ok (st : table) : Prop := map_Forall (fun _ r => coherent r) st.

Lemma table_ok_insert k r st : table_ok st -> coherent r -> table_ok (<[k := r]> st).
Proof. intros. by apply map_Forall_insert_2. Qed.

Lemma table_ok_delete k st : table_ok st -> table_ok (delete k st).
Proof. apply map_Forall_delete. Qed.

Lemma string_replace_bound s off n b t :
  string_replace s off n b = Ret t -> lenZ t <= max_size.
Proof.
  unfold string_replace. destruct (Z.ltb_spec (lenZ s) off); [discriminate|].
  bcase; [discriminate|]. intros [= <-]. done.
Qed.

#[local] Hint Resolve table_ok_insert table_ok_delete : yfs.

Lemma serve_table_ok r st s p st' :
  table_ok st -> request_ok r -> is_resize r = false ->
  serve r st = Ret (s, p, st') -> table_ok st'.
Proof.
  intros Hst Hr Hn E. destruct r; cbn in *; try discriminate.
  - injection E as <- <- <-. apply table_ok_insert; [done|]. split; cbn; done.
  - unfold get in E. destruct (st !! key id) as [r|] eqn:Hk; injection E as <- <- <-; [|done].
    apply table_ok_insert; [done|]. apply (Hst _ _ Hk).
  - unfold getattr in E. destruct (st !! key id); injection E as <- <- <-; done.
  - unfold remove in E. destruct (st !! key id); injection E as <- <- <-; auto with yfs.
  - unfold getbuf in E. destruct (st !! key id) as [r|] eqn:Hk; [|injection E as <- <- <-; done].
    destruct (off <? _); [|injection E as <- <- <-; done].
    rinv E. rinv E0. injection E0 as <-. injection E as <- <- <-.
    apply table_ok_insert; [done|]. apply (Hst _ _ Hk).
  - unfold putbuf in E. destruct (st !! key id) as [r|] eqn:Hk; [|injection E as <- <- <-; done].
    rinv E. rinv E0. rinv E0. injection E0 as <-. injection E as <- <- <-.
    apply table_ok_insert; [done|]. split; cbn; [|done]. by eapply string_replace_bound.
Qed.

Lemma table_ok_new now : 0 <= max_size -> table_ok (extent_server_new now).
Proof. intros. apply table_ok_insert; [apply map_Forall_empty|]. split; cbn; [lia|done]. Qed.

(** ** What the handlers do to the contents *)

(** The POSIX meaning of writing [b] at [off]: a hole is zero filled. *)
Definition write_at (s : bytes) (off : nat) (b : bytes) : bytes :=
  take off (s ++ replicate (off - length s) "000"%byte) ++ b ++ drop (off + length b) s.

Definition read_at (s : bytes) (off n : nat) : bytes := take n (drop off s).

Lemma length_write_at s off b : length (write_at s off b) = (length s `max` (off + length b))%nat.
Proof.
  unfold write_at. rewrite !length_app, length_take, length_app, length_replicate, length_drop. lia.
Qed.

Lemma lookup_write_at s off b i :
  write_at s off b !! i =
    if decide (off <= i < off + length b)%nat then b !! (i - off)%nat
    else if decide (i < length s)%nat then s !! i
    else if decide (i < off)%nat then Some "000"%byte else None.
Proof.
  unfold write_at.
  assert (Hl : length (take off (s ++ replicate (off - length s) "000"%byte)) = off)
    by (rewrite length_take, length_app, length_replicate; lia).
  destruct (decide (i < off)%nat).
  - rewrite lookup_app_l by lia. rewrite lookup_take_lt by lia.
    rewrite (decide_False (P := (off <= i < _)%nat)) by lia.
    destruct (decide (i < length s)%nat).
    + by rewrite lookup_app_l by lia.
    + rewrite lookup_app_r, lookup_replicate_2 by lia. done.
  - rewrite lookup_app_r by lia. rewrite Hl.
    destruct (decide (off <= i < off + length b)%nat).
    + by rewrite lookup_app_l by lia.
    + rewrite lookup_app_r, lookup_drop by lia.
      replace (off + length b + (i - off - length b))%nat with i by lia.
      destruct (decide (i < length s)%nat); [done|]. apply lookup_ge_None_2. lia.
Qed.

Lemma read_write_at s off b : read_at (write_at s off b) off (length b) = b.
Proof.
  unfold read_at, write_at.
  rewrite drop_app_length' by (rewrite length_take, length_app, length_replicate; lia).
  apply take_app_length.
Qed.

Definition touched_store (s : bytes) (r : store) (now : Z) : store :=
  Store s (Attr (atime (a r)) (u32 now) (ctime (a r)) (u32 (lenZ s))).

Lemma string_replace_ok (s b : bytes) (off : Z) :
  0 <= off <= lenZ s -> lenZ s <= max_size -> off + lenZ b <= max_size ->
  string_replace s off (lenZ b) b =
    Ret (take (Z.to_nat off) s ++ b ++ drop (Z.to_nat off + length b) s).
Proof.
  intros. unfold string_replace. bcase. rewrite Nat2Z.id.
  rewrite !length_app, length_take, length_drop. bcase. done.
Qed.

Lemma resize_then_replace (s b : bytes) (off : Z) :
  0 <= off -> lenZ s <= max_size -> off + lenZ b <= max_size -> max_size < 2 ^ 31 ->
  (s ← (if u32 (off + lenZ b) >? lenZ s then string_resize (u32 (off + lenZ b)) s else Ret s);
   string_replace s off (lenZ b) b) = Ret (write_at s (Z.to_nat off) b).
Proof.
  intros H0 Hs Hb Hm. rewrite u32_small by (unfold is_u32; lia).
  rewrite Z.gtb_ltb. destruct (Z.ltb_spec (lenZ s) (off + lenZ b)).
  - unfold string_resize. bcase. cbn [mbind res_bind]. rewrite (take_ge s) by lia.
    rewrite string_replace_ok by (rewrite ?length_app, ?length_replicate; lia).
    f_equal. unfold write_at.
    rewrite (drop_ge s), (drop_ge (s ++ _)) by (rewrite ?length_app, ?length_replicate; lia).
    f_equal. rewrite !take_app, !take_replicate. do 2 f_equal. lia.
  - cbn [mbind res_bind]. rewrite string_replace_ok by lia. unfold write_at.
    replace (Z.to_nat off - length s)%nat with 0%nat by lia. rewrite app_nil_r. done.
Qed.

Lemma putbuf_ok id off b now st r :
  st !! key id = Some r -> 0 <= off -> lenZ (buf r) <= max_size ->
  off + lenZ b <= max_size -> max_size < 2 ^ 31 ->
  putbuf id off b now st =
    Ret (OK, <[key id := touched_store (write_at (buf r) (Z.to_nat off) b) r now]> st).
Proof.
  intros Hk H0 Hs Hb Hm. unfold putbuf. rewrite Hk, <- res_assoc.
  rewrite resize_then_replace by done. reflexivity.
Qed.

Lemma getbuf_ok id n off b now st r :
  st !! key id = Some r -> 0 <= n -> 0 <= off < lenZ (buf r) ->
  exists st', getbuf id n off b now st =
    Ret (OK, read_at (buf r) (Z.to_nat off) (Z.to_nat n), st') /\
    (forall j, buf <$> st' !! j = buf <$> st !! j).
Proof.
  intros Hk Hn Ho. unfold getbuf. rewrite Hk. bcase.
  unfold string_substr. bcase. cbn [mbind res_bind]. eexists; split.
  - do 3 f_equal. unfold read_at. rewrite Z.gtb_ltb. bcase; [done|].
    rewrite !take_ge by (rewrite length_drop; lia). done.
  - intros j. destruct (decide (key id = j)) as [<-|].
    + rewrite lookup_insert_eq, Hk. done.
    + rewrite lookup_insert_ne by done. done.
Qed.

(** ** Abstract specification: a store of byte strings *)

Inductive observation :=
| ODone
| OData (b : bytes)
| OSize (n : Z).

Definition observe (p : payload) : observation :=
  match p with PUnit => ODone | PData b => OData b | PAttr at' => OSize (size at') end.

Definition contents (st : table) : gmap Z bytes := buf <$> st.

(** What a client is promised, with no times and no buffer juggling. *)
Definition spec (r : request) (fs : gmap Z bytes) : Z * observation * gmap Z bytes :=
  match r with
  | Put id b _ => (OK, ODone, <[key id := b]> fs)
  | Get id _ =>
      match fs !! key id with
      | Some b => (OK, OData b, fs)
      | None => (NOENT, OData [], fs)
      end
  | Getattr id =>
      match fs !! key id with
      | Some b => (OK, OSize (lenZ b), fs)
      | None => (NOENT, OSize 0, fs)
      end
  | Remove id =>
      match fs !! key id with
      | Some _ => (OK, ODone, delete (key id) fs)
      | None => (NOENT, ODone, fs)
      end
  | Resize id n _ _ =>
      match fs !! key id with
      | Some b => (OK, ODone, <[key id := take (Z.to_nat n) b ++
                                 replicate (Z.to_nat n - length b) "000"%byte]> fs)
      | None => (NOENT, ODone, fs)
      end
  | Getbuf id n off _ =>
      match fs !! key id with
      | Some b => if off <? lenZ b then (OK, OData (read_at b (Z.to_nat off) (Z.to_nat n)), fs)
                  else (IOERR, OData [], fs)
      | None => (NOENT, OData [], fs)
      end
  | Putbuf id off b _ =>
      match fs !! key id with
      | Some s => (OK, ODone, <[key id := write_at s (Z.to_nat off) b]> fs)
      | None => (NOENT, ODone, fs)
      end
  end.

Fixpoint spec_all (rs : list request) (fs : gmap Z bytes)
  : list (Z * observation) * gmap Z bytes :=
  match rs with
  | [] => ([], fs)
  | r :: rs =>
      let '(s, o, fs) := spec r fs in
      let '(out, fs) := spec_all rs fs in ((s, o) :: out, fs)
  end.

(** The request asks for a string the library cannot build. *)
Definition oversize (r : request) (st : table) : Prop :=
  match r with
  | Putbuf id off b _ => is_Some (st !! key id) /\ max_size < off + lenZ b
  | Resize id n _ _ => is_Some (st !! key id) /\ max_size < n
  | _ => False
  end.

#[export] Instance oversize_dec r st : Decision (oversize r st).
Proof. destruct r; cbn; apply _. Defined.

Lemma lookup_contents st k : contents st !! k = buf <$> st !! k.
Proof. apply lookup_fmap. Qed.

Lemma contents_same k r s' st :
  st !! k = Some r -> buf s' = buf r -> contents (<[k := s']> st) = contents st.
Proof.
  intros Hk Hb. unfold contents. rewrite fmap_insert, Hb. apply insert_id.
  rewrite lookup_fmap, Hk. done.
Qed.

Lemma putbuf_oversize id off b now st r :
  st !! key id = Some r -> lenZ (buf r) <= max_size -> is_u32 off -> lenZ b <= max_size ->
  max_size < 2 ^ 31 -> max_size < off + lenZ b -> putbuf id off b now st = Crash Uncaught.
Proof.
  unfold is_u32. intros Hk Hr Ho Hb Hm Hbig. unfold putbuf. rewrite Hk, <- res_assoc.
  destruct (Z.lt_ge_cases (off + lenZ b) (2 ^ 32)).
  - rewrite (u32_small (off + lenZ b)) by (unfold is_u32; lia). rewrite Z.gtb_ltb. bcase.
    unfold string_resize. bcase. done.
  - replace (u32 (off + lenZ b)) with (off + lenZ b - 2 ^ 32)
      by (unfold u32; Z.div_mod_to_equations; lia).
    set (e := off + lenZ b - 2 ^ 32).
    assert (He0 : 0 <= e < lenZ b) by (subst e; lia).
    assert (He : lenZ (take (Z.to_nat e) (buf r) ++
                  replicate (Z.to_nat e - length (buf r)) "000"%byte) <= max_size).
    { rewrite length_app, length_take, length_replicate. lia. }
    destruct (e >? lenZ (buf r)).
    + unfold string_resize. bcase. cbn [mbind res_bind].
      unfold string_replace. bcase. done.
    + cbn [mbind res_bind]. unfold string_replace. bcase. done.
Qed.


(** ** Theorems *)

Lemma serve_spec r st s p st' :
  max_size < 2 ^ 31 -> table_ok st -> request_ok r ->
  serve r st = Ret (s, p, st') -> spec r (contents st) = (s, observe p, contents st').
Proof.
  intros Hm Hst Hr E. unfold spec.
  destruct r; cbn [serve request_ok] in *; rewrite ?lookup_contents.
  - injection E as <- <- <-. unfold contents. rewrite fmap_insert. done.
  - unfold get in E. destruct (st !! key id) as [r|] eqn:Hk; injection E as <- <- <-; [|done].
    cbn. rewrite (contents_same _ r) by done. done.
  - unfold getattr in E. destruct (st !! key id) as [r|] eqn:Hk; injection E as <- <- <-; [|done].
    cbn. destruct (Hst _ _ Hk) as [? ->]. rewrite u32_small by (unfold is_u32; lia). done.
  - unfold remove in E. destruct (st !! key id) as [r|] eqn:Hk; injection E as <- <- <-; [|done].
    unfold contents. rewrite fmap_delete. done.
  - unfold resize in E. destruct (st !! key id) as [r|] eqn:Hk; [|injection E as <- <- <-; done].
    rinv E. rinv E0. injection E0 as <-. injection E as <- <- <-.
    unfold string_resize in E1. destruct (max_size <? new_size); [discriminate|].
    injection E1 as <-. unfold contents. rewrite fmap_insert. done.
  - destruct Hr as [Hn Ho]. unfold is_u32 in *.
    destruct (st !! key id) as [r|] eqn:Hk; cbn.
    + bcase.
      * destruct (getbuf_ok id ask_size off [] now st r) as (st2 & Eg & Hc); [done|lia..|].
        rewrite Eg in E. cbn in E. injection E as <- <- <-. cbn. f_equal.
        apply map_eq. intros j. rewrite !lookup_contents. symmetry. apply Hc.
      * unfold getbuf in E. rewrite Hk in E. cbn in E. destruct (Z.ltb_spec off (lenZ (buf r))); [lia|].
        injection E as <- <- <-. done.
    + unfold getbuf in E. rewrite Hk in E. injection E as <- <- <-. done.
  - destruct Hr as [Ho Hb]. destruct (st !! key id) as [r|] eqn:Hk; cbn.
    + destruct (Hst _ _ Hk) as [Hl _]. destruct (Z.le_gt_cases (off + lenZ b) max_size).
      * rewrite (putbuf_ok id off b now st r) in E by (unfold is_u32 in *; first [done|lia]).
        injection E as <- <- <-. unfold contents. rewrite fmap_insert. done.
      * rewrite (putbuf_oversize id off b now st r) in E by first [done|lia]. discriminate.
    + unfold putbuf in E. rewrite Hk in E. injection E as <- <- <-. done.
Qed.

Lemma serve_total r st :
  max_size < 2 ^ 31 -> table_ok st -> request_ok r ->
  (oversize r st -> serve r st = Crash Uncaught) /\ (~ oversize r st -> returns (serve r st)).
Proof.
  intros Hm Hst Hr. unfold returns. destruct r; cbn [oversize serve request_ok] in *;
    try (split; [done|intros _]).
  - eexists; done.
  - destruct (get id [] now st) as [[? ?] ?]. eexists; done.
  - destruct (getattr id st) as [? ?]. eexists; done.
  - destruct (remove id st) as [? ?]. eexists; done.
  - unfold resize, string_resize. destruct (st !! key id) as [r|] eqn:Hk.
    + bcase; (split; [intros [_ ?]|intros Hno]); try lia; [done|destruct Hno; eauto|eexists; done].
    + split; [intros [[? ?] _]; done|eexists; done].
  - unfold getbuf. destruct (st !! key id) as [r|] eqn:Hk; [|eexists; done].
    bcase; [|eexists; done]. unfold string_substr. bcase. eexists; done.
  - destruct Hr as [Ho Hb]. destruct (st !! key id) as [r|] eqn:Hk.
    + destruct (Hst _ _ Hk) as [Hl _]. split.
      * intros [_ ?]. rewrite (putbuf_oversize id off b now st r) by first [done|lia]. done.
      * intros Hno. unfold is_u32 in *.
        assert (off + lenZ b <= max_size).
        { destruct (Z.le_gt_cases (off + lenZ b) max_size); [done|]. destruct Hno; eauto. }
        rewrite (putbuf_ok id off b now st r) by first [done|lia]. eexists; done.
    + unfold putbuf. rewrite Hk. split; [intros [[? ?] _]; done|eexists; done].
Qed.


Lemma serve_all_ok rs st :
  max_size < 2 ^ 31 -> table_ok st -> Forall request_ok rs ->
  Forall (fun r => is_resize r = false) rs ->
  forall out st', serve_all rs st = Ret (out, st') ->
  table_ok st' /\
  spec_all rs (contents st) = ((fun sp => (sp.1, observe sp.2)) <$> out, contents st').
Proof.
  intros Hm Hst Hr Hn. revert st Hst.
  induction rs as [|r rs IH]; intros st Hst out st' E; cbn in E.
  - injection E as <- <-. done.
  - apply Forall_cons in Hr as [Hr Hrs]. apply Forall_cons in Hn as [Hn Hns].
    rinv E. destruct a0 as [[s p] st1]. rinv E. destruct a0 as [out1 st2].
    injection E as <- <-.
    destruct (IH Hrs Hns st1) with (out := out1) (st' := st2) as [Hok Hs]; try done.
    + by eapply serve_table_ok.
    + split; [done|]. cbn. rewrite (serve_spec r st s p st1) by done. rewrite Hs. done.
Qed.

(** In every table the extent server reaches by put, get, getattr,
    remove, getbuf and putbuf requests, the attribute [size] of each
    extent is the length of its contents. *)
Theorem reachable_coherent (now : Z) (rs : list request) out st' :
  0 <= max_size < 2 ^ 31 -> Forall request_ok rs ->
  Forall (fun r => is_resize r = false) rs ->
  serve_all rs (extent_server_new now) = Ret (out, st') ->
  forall k r, st' !! k = Some r -> size (a r) = lenZ (buf r).
Proof.
  intros Hm Hr Hn E k r Hk.
  destruct (serve_all_ok rs (extent_server_new now)) with (out := out) (st' := st')
    as [Hok _]; try done; [lia|apply table_ok_new; lia|].
  destruct (Hok _ _ Hk) as [Hl ->]. apply u32_small. unfold is_u32. lia.
Qed.

(** The answers of a run as the abstract store gives them. *)
Definition observed (out : list (Z * payload)) : list (Z * observation) := (fun sp => (sp.1, observe sp.2)) <$> out.

(** A run answers all its requests, or ends at the first one that makes a
    string too long. *)
Lemma serve_all_total rs st :
  max_size < 2 ^ 31 -> table_ok st -> Forall request_ok rs -> Forall (fun r => is_resize r = false) rs ->
  (exists out st', serve_all rs st = Ret (out, st')) \/
  (exists rs1 r rs2 out st', rs = rs1 ++ r :: rs2 /\ serve_all rs1 st = Ret (out, st') /\ oversize r st' /\
     serve_all rs st = Crash Uncaught).
Proof.
  intros Hm Hst Hr Hn. revert st Hst. induction rs as [|r rs IH]; intros st Hst; [left; by eexists _, _|].
  apply Forall_cons in Hr as [Hr Hrs]. apply Forall_cons in Hn as [Hn Hns].
  destruct (serve_total r st Hm Hst Hr) as [Hc Hret]. destruct (decide (oversize r st)) as [Ho|Ho].
  - right. exists [], r, rs, [], st. split_and!; try done. cbn. by rewrite (Hc Ho).
  - destruct (Hret Ho) as [[[s p] st1] E].
    destruct (IH Hrs Hns st1) as [(out & st' & E')|(rs1 & r' & rs2 & out & st' & -> & E1 & Ho' & E')]; [by eapply serve_table_ok|left|right].
    + exists ((s, p) :: out), st'. cbn [serve_all]. rewrite E. cbn. by rewrite E'.
    + exists (r :: rs1), r', rs2, ((s, p) :: out), st'. split_and!; try done; cbn [serve_all app]; rewrite E; cbn; [by rewrite E1|by rewrite E'].
Qed.

(** C8: the extent server implements the abstract store of byte strings,
    from its start on and for any list of requests other than resize whose
    strings obey the limit of the library.  Either it answers all of them,
    with the statuses and data the specification prescribes, and ends with
    its contents; or one of them is a putbuf that would make an extent
    longer than a string can be: then the requests before it are answered
    as prescribed, and at that one the process ends with the uncaught
    exception of the string. *)
Theorem extent_refines_store (now : Z) (rs : list request) :
  0 <= max_size < 2 ^ 31 -> Forall request_ok rs ->
  Forall (fun r => is_resize r = false) rs ->
  (exists out st', serve_all rs (extent_server_new now) = Ret (out, st') /\
     spec_all rs {[1 := []]} = (observed out, contents st')) \/
  (exists rs1 r rs2 out st', rs = rs1 ++ r :: rs2 /\
     serve_all rs1 (extent_server_new now) = Ret (out, st') /\ spec_all rs1 {[1 := []]} = (observed out, contents st') /\
     oversize r st' /\ serve_all rs (extent_server_new now) = Crash Uncaught).
Proof.
  intros Hm Hr Hn. assert (Hst : table_ok (extent_server_new now)) by (apply table_ok_new; lia).
  destruct (serve_all_total rs (extent_server_new now)) as [(out & st' & E)|(rs1 & r & rs2 & out & st' & -> & E1 & Ho & E)];
    [lia|done|done|done|left|right].
  - exists out, st'. split; [done|]. apply (serve_all_ok rs (extent_server_new now)) with (out := out); try done. lia.
  - apply Forall_app in Hr as [Hr _]. apply Forall_app in Hn as [Hn _].
    exists rs1, r, rs2, out, st'. split_and!; try done. apply (serve_all_ok rs1 (extent_server_new now)) with (out := out); try done. lia.
Qed.

(** On a coherent table a handler ends the process exactly for a
    putbuf or resize of an existing extent beyond the largest string,
    including the offsets whose end wraps around 32 bits; every other
    request returns. *)
Theorem serve_crash (r : request) (st : table) :
  max_size < 2 ^ 31 -> table_ok st -> request_ok r ->
  (oversize r st <-> serve r st = Crash Uncaught) /\ (~ oversize r st <-> returns (serve r st)).
Proof.
  intros Hm Hst Hr. destruct (serve_total r st Hm Hst Hr) as [H1 H2].
  assert (Hx : returns (serve r st) -> ~ oversize r st)
    by (intros [x Hx] Ho; specialize (H1 Ho); congruence).
  split; [|tauto]. split; [exact H1|]. intros E.
  destruct (decide (oversize r st)) as [|Hno]; [done|].
  destruct (H2 Hno) as [? ?]. congruence.
Qed.

(** A write is a POSIX write: after putbuf every byte of the extent
    is the written one inside the range, the old one elsewhere, zero in a
    hole between the old end and the offset; no other extent changes. *)
Theorem putbuf_writes (id off : Z) (b : bytes) (now : Z) (st : table) (r : store) :
  st !! key id = Some r -> 0 <= off -> lenZ (buf r) <= max_size ->
  off + lenZ b <= max_size -> max_size < 2 ^ 31 ->
  exists st' r', putbuf id off b now st = Ret (OK, st') /\ st' !! key id = Some r' /\
    lenZ (buf r') = Z.max (lenZ (buf r)) (off + lenZ b) /\ size (a r') = lenZ (buf r') /\
    (forall i, buf r' !! i =
       if decide (Z.to_nat off <= i < Z.to_nat off + length b)%nat
       then b !! (i - Z.to_nat off)%nat
       else if decide (i < length (buf r))%nat then buf r !! i
       else if decide (i < Z.to_nat off)%nat then Some "000"%byte else None) /\
    (forall j, j <> key id -> st' !! j = st !! j).
Proof.
  intros Hk H0 Hl Hb Hm. rewrite (putbuf_ok id off b now st r) by done.
  eexists _, _. split; [done|]. split; [apply lookup_insert_eq|]. cbn.
  rewrite length_write_at. split; [lia|]. split; [apply u32_small; unfold is_u32; lia|].
  split; [apply lookup_write_at|]. intros j Hj. by rewrite lookup_insert_ne.
Qed.

(** What is written is read back: a getbuf of the range of a
    successful non-empty putbuf returns the written bytes. *)
Theorem putbuf_getbuf (id off : Z) (b out : bytes) (t1 t2 : Z) (st : table) :
  is_Some (st !! key id) -> 0 <= off -> 0 < lenZ b ->
  (forall r, st !! key id = Some r -> lenZ (buf r) <= max_size) ->
  off + lenZ b <= max_size -> max_size < 2 ^ 31 ->
  exists st1 st2, putbuf id off b t1 st = Ret (OK, st1) /\
    getbuf id (lenZ b) off out t2 st1 = Ret (OK, b, st2).
Proof.
  intros [r Hk] H0 Hb Hl Ho Hm. rewrite (putbuf_ok id off b t1 st r) by auto.
  set (w := write_at (buf r) (Z.to_nat off) b).
  destruct (getbuf_ok id (lenZ b) off out t2 (<[key id := touched_store w r t1]> st)
              (touched_store w r t1)) as (st2 & E & _).
  - apply lookup_insert_eq.
  - lia.
  - subst w. cbn. rewrite length_write_at. lia.
  - eexists _, st2. split; [done|]. rewrite E. cbn. rewrite Nat2Z.id. subst w.
    rewrite read_write_at. done.
Qed.

(** A put creates or replaces the extent whatever was there, get
    returns it, and extents whose id differs in the low 32 bits keep
    their record; an id that agrees in them is the same extent. *)
Theorem put_get (id id' : Z) (b out : bytes) (t1 t2 : Z) (st : table) :
  let st' := (put id b t1 st).2 in
  (put id b t1 st).1 = OK /\
  (u32 id' = u32 id -> (get id' out t2 st').1 = (OK, b)) /\
  (u32 id' <> u32 id -> (get id' out t2 st').1 = (get id' out t2 st).1).
Proof.
  assert (Hkey : key id = key id' <-> u32 id' = u32 id).
  { unfold key. split; intros E.
    - rewrite <- (u32_i32 id'), <- E. apply u32_i32.
    - rewrite <- (i32_u32 id'), E. symmetry. apply i32_u32. }
  cbn. split; [done|]. unfold get. split; intros E.
  - rewrite <- (proj2 Hkey E), lookup_insert_eq. done.
  - rewrite lookup_insert_ne by (intros ?; tauto). destruct (st !! key id'); done.
Qed.

(** Resize leaves the attributes behind: after growing a three byte
    extent to five bytes, getattr still reports size three. *)
Theorem resize_stale_size :
  5 <= max_size ->
  exists st, (serve_all [Put 2 (str "abc") 10; Resize 2 5 11 12; Getattr 2] ∅) =
    Ret ([(OK, PUnit); (OK, PUnit); (OK, PAttr (Attr 10 10 12 3))], st) /\
  (buf <$> st !! 2) = Some (str "abc" ++ ["000"%byte; "000"%byte]).
Proof.
  intros Hm. cbn. unfold resize. rewrite lookup_insert_eq. cbn.
  unfold string_resize. bcase. cbn [mbind res_bind]. unfold getattr.
  rewrite lookup_insert_eq. cbn. eexists; split; [done|]. reflexivity.
Qed.

End handlers.

(** ** Instances of the theorems *)

(** A library whose longest string has 2^30 bytes, a run that leaves a hole
    in an extent, and the extent it leaves. *)
Definition demo_limit : StringLimit := 2 ^ 30.

Definition demo_run : list request :=
  [Put 2 (str "abc") 10; Putbuf 2 5 (str "xy") 11; Getbuf 2 10 1 12; Getattr 2; Remove 3].

Definition demo_store : store :=
  Store (str "abc" ++ ["000"%byte; "000"%byte] ++ str "xy") (Attr 12 11 10 7).

Definition demo_table : table := <[2 := demo_store]> (extent_server_new 5).

Lemma demo_run_ok : Forall (@request_ok demo_limit) demo_run /\
  Forall (fun r => is_resize r = false) demo_run /\
  @serve_all demo_limit demo_run (extent_server_new 5) =
    Ret ([(OK, PUnit); (OK, PUnit); (OK, PData (drop 1 (buf demo_store))); (OK, PAttr (a demo_store));
          (NOENT, PUnit)], demo_table).
Proof.
  split; [|split; [repeat (constructor; [done|]); constructor|reflexivity]].
  repeat (constructor; [cbn; unfold is_u32, max_size, demo_limit; lia|]). constructor.
Qed.

Lemma reachable_coherent_witness :
  forall k r, demo_table !! k = Some r -> size (a r) = lenZ (buf r).
Proof.
  destruct demo_run_ok as (H1 & H2 & H3).
  refine (@reachable_coherent demo_limit 5 demo_run _ demo_table _ H1 H2 H3).
  unfold max_size, demo_limit. lia.
Defined.

Lemma extent_refines_store_witness :
  spec_all demo_run {[1 := []]} =
    ([(OK, ODone); (OK, ODone); (OK, OData (drop 1 (buf demo_store))); (OK, OSize 7); (NOENT, ODone)],
     contents demo_table).
Proof.
  destruct demo_run_ok as (H1 & H2 & H3).
  destruct (@extent_refines_store demo_limit 5 demo_run) as [(out & st' & E & Hs)|(rs1 & r & rs2 & out & st' & _ & _ & _ & _ & E)].
  - unfold max_size, demo_limit. lia.
  - exact H1.
  - exact H2.
  - rewrite H3 in E. injection E as <- <-. exact Hs.
  - rewrite H3 in E. discriminate E.
Defined.

Lemma demo_table_ok : @table_ok demo_limit demo_table.
Proof.
  apply table_ok_insert; [apply table_ok_new|split]; unfold max_size, demo_limit; cbn; try lia. reflexivity.
Qed.

Lemma serve_crash_witness : @serve demo_limit (Putbuf 2 (2 ^ 32 - 1) (str "xy") 9) demo_table = Crash Uncaught.
Proof.
  apply (@serve_crash demo_limit (Putbuf 2 (2 ^ 32 - 1) (str "xy") 9) demo_table).
  - unfold max_size, demo_limit. lia.
  - exact demo_table_ok.
  - unfold request_ok, is_u32, max_size, demo_limit. cbn. lia.
  - split; [done|]. unfold max_size, demo_limit. cbn. lia.
Defined.

Lemma putbuf_writes_witness :
  exists st' r', @putbuf demo_limit 2 9 (str "z") 20 demo_table = Ret (OK, st') /\ st' !! 2 = Some r' /\
    lenZ (buf r') = 10 /\ buf r' !! 8%nat = Some "000"%byte /\ buf r' !! 9%nat = Some "z"%byte.
Proof.
  destruct (@putbuf_writes demo_limit 2 9 (str "z") 20 demo_table demo_store)
    as (st' & r' & H1 & H2 & H3 & _ & H4 & _); try reflexivity; try (cbn; unfold max_size, demo_limit; lia).
  exists st', r'. split; [exact H1|]. split; [exact H2|]. split; [exact H3|]. split; rewrite H4; reflexivity.
Defined.

Lemma putbuf_getbuf_witness :
  exists st1 st2, @putbuf demo_limit 2 1 (str "QQ") 20 demo_table = Ret (OK, st1) /\
    getbuf 2 2 1 [] 21 st1 = Ret (OK, str "QQ", st2).
Proof.
  apply (@putbuf_getbuf demo_limit 2 1 (str "QQ") [] 20 21 demo_table).
  - eexists; reflexivity.
  - lia.
  - cbn; lia.
  - intros r [= <-]. vm_compute; discriminate.
  - vm_compute; discriminate.
  - unfold max_size, demo_limit; lia.
Defined.

Lemma put_get_witness :
  (get (2 + 2 ^ 32) [] 9 (put 2 (str "new") 8 demo_table).2).1 = (OK, str "new").
Proof. apply (put_get 2 (2 + 2 ^ 32) (str "new") [] 8 9 demo_table). reflexivity. Defined.

Lemma resize_stale_size_witness :
  exists st, (@serve_all demo_limit [Put 2 (str "abc") 10; Resize 2 5 11 12; Getattr 2] ∅) =
    Ret ([(OK, PUnit); (OK, PUnit); (OK, PAttr (Attr 10 10 12 3))], st) /\
  (buf <$> st !! 2) = Some (str "abc" ++ ["000"%byte; "000"%byte]).
Proof. apply (@resize_stale_size demo_limit). unfold max_size, demo_limit. lia. Defined.

End extent_server.
