(* ===== verification/Containers.v ===== *)
(** * The container operators (rpc/marshall.h)

    [<<] and [>>] of std::vector and std::map over any element types.  A
    std::map is the list of its entries in key order.  With them all types
    that have the two operators are modelled, and the file ends with the
    round trip of a request of any of these types. *)

From Stdlib Require Import ZArith Lia Sorted.
From stdpp Require Import base list.
From S2P Require Import Prelude Marshall Extent.

#[local] Open Scope Z_scope.

Section vector.
Context {C : Type} (wc : wire C) (c0 : C). (* [c0] is what the uninitialised C z holds *)

Fixpoint put_all (v : list C) (m : marshall) : res marshall :=
  match v with
  | [] => Ret m
  | c :: v => m ← w_put wc c m; put_all v m
  end.

Definition put_vector (v : list C) (m : marshall) : res marshall :=
  m ← put_uint (u32 (lenZ v)) m; put_all v m.

(** The loop of [>>]: [n] elements are pushed onto [v]. *)
Fixpoint get_all (n : nat) (v : list C) (u : unmarshall) : res (list C * unmarshall) :=
  match n with
  | O => Ret (v, u)
  | S n => '(z, u) ← w_get wc c0 u; get_all n (v ++ [z]) u
  end.

Definition get_vector (v : list C) (u : unmarshall) : res (list C * unmarshall) :=
  '(n, u) ← get_uint u; get_all (Z.to_nat n) v u.

Definition vector_image (v : list C) : bytes := be4 (lenZ v) ++ concat (w_image wc <$> v).

Definition vector_range (v : list C) : Prop := lenZ v < 2 ^ 32 /\ Forall (w_range wc) v.

(** The operators of an argument or an element: the templates and the loop
    above read into a variable of their own, which is empty. *)
Definition wire_vector : wire (list C) :=
  {| w_put := put_vector; w_get _ := get_vector []; w_image := vector_image; w_range := vector_range |}.

Context `{!WireOk wc}.

Lemma put_all_holds v m h bs :
  holds m h bs -> Forall (w_range wc) v -> lenZ bs + lenZ (concat (w_image wc <$> v)) <= MAX_PAYLOAD ->
  exists m', put_all v m = Ret m' /\ holds m' h (bs ++ concat (w_image wc <$> v)).
Proof.
  revert m bs. induction v as [|c v IH]; intros m bs Hm Hr Hs.
  - exists m. cbn. by rewrite app_nil_r.
  - apply Forall_cons in Hr as [Hc Hv]. rewrite fmap_cons in *. cbn [concat] in *.
    rewrite length_app in Hs. destruct (put_ok m h bs c Hm Hc) as (m1 & E1 & H1); [lia|].
    destruct (IH m1 _ H1 Hv) as (m2 & E2 & H2); [rewrite length_app; lia|].
    exists m2. cbn [put_all]. rstep E1. split; [done|]. by rewrite <- app_assoc in H2.
Qed.

Lemma get_all_ahead v v0 u l :
  ahead u (concat (w_image wc <$> v) ++ l) -> u_ok u = true -> u_sz u < 2 ^ 31 -> Forall (w_range wc) v ->
  get_all (length v) v0 u = Ret (v0 ++ v, advance (lenZ (concat (w_image wc <$> v))) u).
Proof.
  revert v0 u. induction v as [|c v IH]; intros v0 u Ha Hok Hz Hr.
  - cbn. rewrite app_nil_r. unfold advance. rewrite Z.add_0_r. by destruct u.
  - apply Forall_cons in Hr as [Hc Hv]. rewrite fmap_cons in *. cbn [concat] in *. rewrite <- app_assoc in Ha.
    cbn [length get_all]. rstep (get_ok u _ c0 c Ha Hok Hz Hc). apply advance_ahead in Ha.
    rewrite (IH _ _ Ha) by done. rewrite <- app_assoc. cbn [app].
    rewrite advance_advance, length_app, Nat2Z.inj_add. done.
Qed.

Lemma put_vector_holds v m h bs :
  holds m h bs -> vector_range v -> lenZ bs + lenZ (vector_image v) <= MAX_PAYLOAD ->
  exists m', put_vector v m = Ret m' /\ holds m' h (bs ++ vector_image v).
Proof.
  intros Hm [_ Hr] Hs. unfold vector_image in *. rewrite length_app, Nat2Z.inj_add, length_be4 in Hs.
  destruct (put_uint_holds m h bs (u32 (lenZ v)) Hm) as (m1 & E1 & H1); [lia|]. rewrite be4_u32 in H1.
  destruct (put_all_holds v m1 h _ H1 Hr) as (m2 & E2 & H2);
    [rewrite length_app, Nat2Z.inj_add, length_be4; lia|].
  exists m2. unfold put_vector. rstep E1. split; [done|]. by rewrite <- app_assoc in H2.
Qed.

Lemma get_vector_ahead v v0 u l :
  ahead u (vector_image v ++ l) -> u_ok u = true -> u_sz u < 2 ^ 31 -> vector_range v ->
  get_vector v0 u = Ret (v0 ++ v, advance (lenZ (vector_image v)) u).
Proof.
  intros Ha Hok Hz [Hl Hr]. unfold vector_image in *. rewrite <- app_assoc in Ha.
  unfold get_vector, get_uint. rstep (read4_ahead u _ _ Ha). apply advance_ahead in Ha.
  rewrite length_be4 in Ha. rewrite u32_small by (unfold is_u32; lia). rewrite Nat2Z.id.
  rewrite (get_all_ahead v v0 _ l Ha) by done.
  rewrite advance_advance, length_app, Nat2Z.inj_add, length_be4. done.
Qed.

#[export] Instance wire_vector_ok : WireOk wire_vector.
Proof.
  split; cbn [w_put w_get w_image w_range wire_vector].
  - intros m h bs v Hm Hr Hs. by apply put_vector_holds.
  - intros u l v0 v Ha Hok Hz Hr. by rewrite (get_vector_ahead v [] u l).
Qed.

End vector.

(** ** Maps *)

(** std::less of the key type. *)
Class KeyOrder (A : Type) := key_lt : A -> A -> bool.
Class KeyOrderOk A `{KeyOrder A} : Prop := {
  key_irrefl a : key_lt a a = false;
  key_trans a b c : key_lt a b = true -> key_lt b c = true -> key_lt a c = true
}.

Section map.
Context {A B : Type} `{KeyOrder A} (wa : wire A) (wb : wire B) (a0 : A) (b0 : B).

(** [d[a] = b]. *)
Fixpoint map_assign (a : A) (b : B) (d : list (A * B)) : list (A * B) :=
  match d with
  | [] => [(a, b)]
  | (a', b') :: d =>
      if key_lt a' a then (a', b') :: map_assign a b d
      else if key_lt a a' then (a, b) :: (a', b') :: d
      else (a', b) :: d
  end.

Definition put_map (d : list (A * B)) (m : marshall) : res marshall :=
  m ← put_uint (u32 (lenZ d)) m; put_all (wire_pair wa wb) d m.

Fixpoint get_entries (n : nat) (d : list (A * B)) (u : unmarshall) : res (list (A * B) * unmarshall) :=
  match n with
  | O => Ret (d, u)
  | S n =>
      '(a, u) ← w_get wa a0 u;
      '(b, u) ← w_get wb b0 u;
      get_entries n (map_assign a b d) u
  end.

(** [>>] clears [d] after the count is read. *)
Definition get_map (d : list (A * B)) (u : unmarshall) : res (list (A * B) * unmarshall) :=
  '(n, u) ← get_uint u; get_entries (Z.to_nat n) [] u.

Definition entry_lt (x y : A * B) : Prop := key_lt x.1 y.1 = true.

Definition wire_map : wire (list (A * B)) :=
  {| w_put := put_map; w_get := get_map;
     w_image := vector_image (wire_pair wa wb);
     w_range d := vector_range (wire_pair wa wb) d /\ StronglySorted entry_lt d |}.

Context `{!KeyOrderOk A, !WireOk wa, !WireOk wb}.

(** Keys that arrive in order are appended. *)
Lemma map_assign_last a b d :
  Forall (fun x => key_lt x.1 a = true) d -> map_assign a b d = d ++ [(a, b)].
Proof.
  induction d as [|[a' b'] d IH]; intros Hd; [done|]. apply Forall_cons in Hd as [Ha Hd].
  cbn in *. rewrite Ha. by rewrite IH.
Qed.

Lemma get_entries_ahead d d1 u l :
  ahead u (concat (w_image (wire_pair wa wb) <$> d) ++ l) -> u_ok u = true -> u_sz u < 2 ^ 31 ->
  Forall (w_range (wire_pair wa wb)) d -> StronglySorted entry_lt d ->
  Forall (fun x => Forall (entry_lt x) d) d1 ->
  get_entries (length d) d1 u = Ret (d1 ++ d, advance (lenZ (concat (w_image (wire_pair wa wb) <$> d))) u).
Proof.
  revert d1 u. induction d as [|[a b] d IH]; intros d1 u Ha Hok Hz Hr Hs Hb.
  - cbn. rewrite app_nil_r. unfold advance. rewrite Z.add_0_r. by destruct u.
  - apply Forall_cons in Hr as [[Ra Rb] Hr]. apply StronglySorted_inv in Hs as [Hs Hlt].
    rewrite fmap_cons in *. cbn [concat w_image wire_pair fst snd] in *. rewrite <- !app_assoc in Ha.
    cbn [length get_entries]. rstep (get_ok u _ a0 a Ha Hok Hz Ra). apply advance_ahead in Ha.
    rstep (get_ok _ _ b0 b Ha Hok Hz Rb). apply advance_ahead in Ha.
    rewrite map_assign_last by (eapply Forall_impl; [exact Hb|]; intros x Hx; by apply Forall_cons in Hx as [? _]).
    rewrite (IH _ _ Ha); try done.
    + rewrite <- app_assoc, !advance_advance, !length_app, !Nat2Z.inj_add. do 3 f_equal. lia.
    + apply Forall_app. split; [|by constructor].
      eapply Forall_impl; [exact Hb|]. intros x Hx. by apply Forall_cons in Hx as [_ ?].
Qed.

#[export] Instance wire_map_ok : WireOk wire_map.
Proof.
  split; cbn [w_put w_get w_image w_range wire_map].
  - intros m h bs d Hm [Hr _] Hs. by apply (put_vector_holds (wire_pair wa wb)).
  - intros u l d0 d Ha Hok Hz [[Hl Hr] Hs]. unfold vector_image in *. rewrite <- app_assoc in Ha.
    unfold get_map, get_uint. rstep (read4_ahead u _ _ Ha). apply advance_ahead in Ha.
    rewrite length_be4 in Ha. rewrite u32_small by (unfold is_u32; lia). rewrite Nat2Z.id.
    rewrite (get_entries_ahead d [] _ l Ha) by (done || constructor).
    rewrite advance_advance, length_app, Nat2Z.inj_add, length_be4. done.
Qed.

End map.

(** ** Theorems *)

#[export] Instance Z_key : KeyOrder Z := Z.ltb.
#[export] Instance Z_key_ok : KeyOrderOk Z.
Proof.
  split; unfold key_lt, Z_key; intros; [apply Z.ltb_irrefl|].
  apply Z.ltb_lt. etransitivity; by apply Z.ltb_lt.
Qed.

Section roundtrip.
Context {A B C : Type} `{KeyOrder A, !KeyOrderOk A}.
Context (wa : wire A) (wb : wire B) (wc : wire C) `{!WireOk wa, !WireOk wb, !WireOk wc}.

(** Containers round trip in a request: a std::map of any wire types
    replaces what the receiver's variable held, and a std::vector is
    appended to it, so that it arrives as sent only in an empty variable;
    both leave the reader at the end of the message. *)
Theorem containers_roundtrip (h : req_header) (v v1 : list C) (d d1 : list (A * B)) (a0 : A) (b0 : B) (c0 : C) :
  req_header_ok h ->
  vector_range wc v -> lenZ (vector_image wc v) <= MAX_PAYLOAD ->
  w_range (wire_map wa wb a0 b0) d -> lenZ (vector_image (wire_pair wa wb) d) <= MAX_PAYLOAD ->
  (exists m1 m2, put_vector wc v marshall_new = Ret m1 /\ pack_req_header h m1 = Ret m2 /\
    forall b, realizes (sent m2) b ->
    exists u1 u2, unpack_req_header (unmarshall_buf b (lenZ b)) = Ret (h, u1) /\
      get_vector wc c0 v1 u1 = Ret (v1 ++ v, u2) /\ okdone u2 = true) /\
  (exists m1 m2, put_map wa wb d marshall_new = Ret m1 /\ pack_req_header h m1 = Ret m2 /\
    forall b, realizes (sent m2) b ->
    exists u1 u2, unpack_req_header (unmarshall_buf b (lenZ b)) = Ret (h, u1) /\
      get_map wa wb a0 b0 d1 u1 = Ret (d, u2) /\ okdone u2 = true).
Proof.
  intros Hh Hv Hvs Hd Hds. pose proof sizes. split.
  - destruct (put_vector_holds wc v _ _ _ marshall_new_holds Hv) as (m1 & E1 & H1); [cbn [length app]; lia|].
    destruct (pack_req_header_holds _ _ _ h H1) as (m2 & E2 & H2); [cbn [length app]; lia|].
    exists m1, m2. do 2 (split; [done|]). intros b Hb.
    destruct (delivered_request _ _ _ _ _ H2 Hh Hb) as (u1 & Eu & Ha & Hok & Hz).
    pose proof (ahead_bound _ _ Ha) as [Hbd _]. cbn [app] in *.
    exists u1. eexists. split; [done|]. split.
    + apply (get_vector_ahead wc c0 v v1 u1 []); [by rewrite app_nil_r|done|lia|done].
    + unfold okdone, advance. cbn [u_ok u_ind u_sz]. rewrite Hok, Hbd, Z.eqb_refl. done.
  - destruct (put_ok (w := wire_map wa wb a0 b0) _ _ _ d marshall_new_holds Hd) as (m1 & E1 & H1); [cbn [length app w_image wire_map] in *; lia|].
    destruct (pack_req_header_holds _ _ _ h H1) as (m2 & E2 & H2); [cbn [length app w_image wire_map] in *; lia|].
    exists m1, m2. do 2 (split; [done|]). intros b Hb.
    destruct (delivered_request _ _ _ _ _ H2 Hh Hb) as (u1 & Eu & Ha & Hok & Hz).
    destruct (get_arguments (wire_map wa wb a0 b0) u1 d1 d) as (u2 & Eg & Hdn); try done; [cbn [length app w_image wire_map] in *; lia|].
    eauto.
Qed.

End roundtrip.

(** A vector read into a variable that already holds 7, and a map. *)
Lemma containers_roundtrip_witness :
  (exists m1 m2, put_vector wire_int [1; 2] marshall_new = Ret m1 /\ pack_req_header (ReqHeader 3 1 5 9 2) m1 = Ret m2 /\
    forall b, realizes (sent m2) b ->
    exists u1 u2, unpack_req_header (unmarshall_buf b (lenZ b)) = Ret (ReqHeader 3 1 5 9 2, u1) /\
      get_vector wire_int 0 [7] u1 = Ret ([7; 1; 2], u2) /\ okdone u2 = true) /\
  (exists m1 m2, put_map wire_int wire_ull [(-1, 5); (4, 6)] marshall_new = Ret m1 /\
    pack_req_header (ReqHeader 3 1 5 9 2) m1 = Ret m2 /\
    forall b, realizes (sent m2) b ->
    exists u1 u2, unpack_req_header (unmarshall_buf b (lenZ b)) = Ret (ReqHeader 3 1 5 9 2, u1) /\
      get_map wire_int wire_ull 0 0 [(8, 8)] u1 = Ret ([(-1, 5); (4, 6)], u2) /\ okdone u2 = true).
Proof.
  apply (containers_roundtrip wire_int wire_ull wire_int (ReqHeader 3 1 5 9 2) [1; 2] [7] [(-1, 5); (4, 6)] [(8, 8)] 0 0 0).
  - vm_compute. repeat split; discriminate.
  - split; [reflexivity|]. repeat constructor; discriminate.
  - vm_compute. discriminate.
  - split; [split; [reflexivity|]|]; repeat constructor; discriminate.
  - vm_compute. discriminate.
Defined.

(** ** Every type with the two operators *)

(** The integers, the keys maps are used with. *)
Inductive scalar := UChar | Char | UShort | Short | UInt | Int | ULL.

(** The types of marshall.h and extent_protocol.h, and arguments that
    follow one another. *)
Inductive type :=
| Scalar (s : scalar) | Bool | String | Attr
| Then (t1 t2 : type) | Vector (t : type) | Map (k : scalar) (t : type).

Fixpoint value (t : type) : Type :=
  match t with
  | Scalar _ => Z
  | Bool => bool
  | String => bytes
  | Attr => extent_protocol.attr
  | Then t1 t2 => value t1 * value t2
  | Vector t => list (value t)
  | Map _ t => list (Z * value t)
  end.

Definition wire_scalar (s : scalar) : wire Z :=
  match s with
  | UChar => wire_uchar | Char => wire_char | UShort => wire_ushort | Short => wire_short
  | UInt => wire_uint | Int => wire_int | ULL => wire_ull
  end.

Section types.
Context `{!StringLimit} (junk : forall t, value t). (* what uninitialised variables hold *)

Fixpoint wire_of (t : type) : wire (value t) :=
  match t with
  | Scalar s => wire_scalar s
  | Bool => wire_bool
  | String => wire_string
  | Attr => extent_protocol.wire_attr
  | Then t1 t2 => wire_pair (wire_of t1) (wire_of t2)
  | Vector t => wire_vector (wire_of t) (junk t)
  | Map k t => wire_map (wire_scalar k) (wire_of t) (junk (Scalar k)) (junk t)
  end.

#[export] Instance wire_scalar_ok s : WireOk (wire_scalar s).
Proof. destruct s; apply _. Qed.

#[export] Instance wire_of_ok t : WireOk (wire_of t).
Proof. induction t; cbn [wire_of]; first [apply _ | apply extent_protocol.wire_attr_ok]. Qed.

(** C14: what a client marshalls the server reads back.  Take any argument
    list built from the types that have [<<] and [>>] in the program: bool,
    the signed and unsigned integers, std::string, extent_protocol::attr,
    std::vector of any of these types and std::map from integers to any of
    them.  For values of the types' ranges, and at most [MAX_PAYLOAD] bytes
    of them, packing arguments and request header never fails, and from any
    delivery of the sent buffer unpack_req_header recovers the header and
    [>>] the arguments, with okdone() true.  The variables read into are
    those of the templates of rpc.h, new ones: a vector is appended to what
    its variable holds. *)
Theorem request_roundtrip (t : type) (h : req_header) (a a0 : value t) :
  req_header_ok h -> w_range (wire_of t) a -> lenZ (w_image (wire_of t) a) <= MAX_PAYLOAD ->
  exists m1 m2, w_put (wire_of t) a marshall_new = Ret m1 /\ pack_req_header h m1 = Ret m2 /\
    forall b, realizes (sent m2) b ->
    exists u1 u2, unpack_req_header (unmarshall_buf b (lenZ b)) = Ret (h, u1) /\
      w_get (wire_of t) a0 u1 = Ret (a, u2) /\ okdone u2 = true.
Proof. apply request_survives, _. Qed.

End types.

(** A lock id, a client id, a short and a vector of maps. *)
Definition demo_type : type :=
  Then (Scalar ULL) (Then String (Then (Scalar Short) (Vector (Map Char Bool)))).

Definition demo_value : value demo_type :=
  (7, (str "127.0.0.1:2048", (-2, [[(-1, true); (5, false)]; []]))).

Fixpoint demo_junk (t : type) : value t :=
  match t with
  | Scalar _ => 99
  | Bool => true
  | String => []
  | Attr => extent_protocol.Attr 1 2 3 4
  | Then t1 t2 => (demo_junk t1, demo_junk t2)
  | Vector _ | Map _ _ => []
  end.

Lemma request_roundtrip_witness :
  let L := 2 ^ 30 : StringLimit in
  exists m1 m2, w_put (wire_of demo_junk demo_type) demo_value marshall_new = Ret m1 /\
    pack_req_header (ReqHeader 3 28673 5 9 2) m1 = Ret m2 /\
    forall b, realizes (sent m2) b ->
    exists u1 u2, unpack_req_header (unmarshall_buf b (lenZ b)) = Ret (ReqHeader 3 28673 5 9 2, u1) /\
      w_get (wire_of demo_junk demo_type) (demo_junk demo_type) u1 = Ret (demo_value, u2) /\ okdone u2 = true.
Proof.
  intros L. apply (request_roundtrip demo_junk demo_type (ReqHeader 3 28673 5 9 2) demo_value (demo_junk demo_type)).
  - vm_compute. repeat split; discriminate.
  - cbn -[Z.pow]. split; [vm_compute; split; [discriminate|reflexivity]|].
    split; [vm_compute; split; [discriminate|reflexivity]|].
    split; [vm_compute; split; [discriminate|reflexivity]|].
    split; [reflexivity|]. repeat constructor; discriminate.
  - vm_compute. discriminate.
Defined.
