(* ===== verification/ReplyWindow.v ===== *)
(** * The at-most-once reply window of rpcs (rpc/rpc.cc, rpc/rpc.h)

    [checkduplicate_and_update], [add_reply] and [free_reply_window] over
    the per-client list of replies, with the list iterators of the code:
    an iterator is a position in the list, [end()] is the absence of an
    element, and reading through [end()] is [Undefined]. *)

From Stdlib Require Import ZArith Lia Sorted.
From stdpp Require Import base list gmap.
From S2P Require Import Prelude Marshall.

#[local] Open Scope Z_scope.

Inductive rpcstate_t := NEW | INPROGRESS | DONE | FORGOTTEN.

#[export] Instance rpcstate_eq_dec : EqDecision rpcstate_t.
Proof. solve_decision. Defined.

Record reply_t := Reply {
  r_xid : Z;
  cb_present : bool;
  r_buf : option (list cell);  (* char *buf *)
  r_sz : Z
}.

(** The constructor reply_t(unsigned int _xid). *)
Definition reply_new (x : Z) : reply_t := Reply x false None 0.

Abbreviation window := (list reply_t).

(** The outcome of a check: the state, and for DONE the saved reply if
    the code assigned *b and *sz. *)
Definition saved : Type := option (option (list cell) * Z).

(** ** checkduplicate_and_update *)

(** [while(reply_iter == begin)]: drop completed entries from the front
    while [reply_iter_after] holds the next xid.  [erase] returns the next
    iterator, but [reply_iter_after] is not advanced. *)
Fixpoint move_window (after : option reply_t) (l : window) : res window :=
  match l with
  | [] => Crash Undefined
  | cur :: rest =>
      if cb_present cur then
        match after with
        | None => Crash Undefined
        | Some a => if r_xid a =? u32 (r_xid cur + 1) then move_window after rest else Ret l
        end
      else Ret l
  end.

(** The rest of the loop body at [pre ++ cur :: rest], the iterator on
    [cur]; [next] continues with the following iteration. *)
Definition visit (x : Z) (pre : window) (cur : reply_t) (rest : window)
    (after : option reply_t) (next : res (rpcstate_t * saved * window))
  : res (rpcstate_t * saved * window) :=
  let l := pre ++ cur :: rest in
  if x <? r_xid (hd cur l) then Ret (FORGOTTEN, None, l)
  else if x =? r_xid cur then
    if cb_present cur then Ret (DONE, Some (r_buf cur, r_sz cur), l)
    else Ret (INPROGRESS, None, l)
  else if x >? r_xid cur then
    match after with
    | None => Crash Undefined
    | Some a => if x <? r_xid a then Ret (NEW, None, pre ++ reply_new x :: cur :: rest) else next
    end
  else next.

(** The iterations after the first one: [reply_iter] is past [begin]. *)
Fixpoint scan (x : Z) (pre l : window) : res (rpcstate_t * saved * window) :=
  match l with
  | [] => Ret (DONE, None, pre)
  | cur :: rest => visit x pre cur rest (head rest) (scan x (pre ++ [cur]) rest)
  end.

(** The whole for loop: the first iteration moves the window. *)
Definition search (x : Z) (l : window) : res (rpcstate_t * saved * window) :=
  match l with
  | [] => Ret (DONE, None, [])
  | _ :: rest0 =>
      let after := head rest0 in
      l ← move_window after l;
      match l with
      | [] => Crash Undefined
      | cur :: rest => visit x [] cur rest after (scan x [cur] rest)
      end
  end.

(** One client's window. *)
Definition check_window (x : Z) (l0 : window) : res (rpcstate_t * saved * window) :=
  let l1 := match l0 with [] => [Reply 0 true None 0] | _ => l0 end in
  let '(chk, l2) :=
    if x >? default 0 (r_xid <$> last l1) then (NEW, l1 ++ [reply_new x]) else (DONE, l1) in
  let chk := if x <? default 0 (r_xid <$> head l2) then FORGOTTEN else chk in
  match chk with
  | NEW | FORGOTTEN => Ret (chk, None, l2)
  | _ => search x l2
  end.

Abbreviation windows := (gmap Z window).

Definition checkduplicate_and_update (clt_nonce xid xid_rep : Z) (rw : windows)
  : res (rpcstate_t * saved * windows) :=
  '(st, b, l) ← check_window xid (default [] (rw !! clt_nonce));
  Ret (st, b, <[clt_nonce := l]> rw).

(** ** add_reply and free_reply_window *)

Definition fill (x : Z) (b : option (list cell)) (sz : Z) (r : reply_t) : reply_t :=
  if x =? r_xid r then Reply (r_xid r) true b sz else r.

Definition add_reply (clt_nonce xid : Z) (b : option (list cell)) (sz : Z) (rw : windows) : windows :=
  <[clt_nonce := fill xid b sz <$> default [] (rw !! clt_nonce)]> rw.

Definition free_reply_window (rw : windows) : windows := ∅.

(** ** Histories of one client's window

    The window lock makes each check and each add_reply one atomic event;
    a history is any sequence of them. *)

Inductive event :=
| Request (x : Z)
| Answer (x : Z) (b : option (list cell)) (sz : Z).

Fixpoint history (evs : list event) (l : window) : res (list (Z * rpcstate_t) * window) :=
  match evs with
  | [] => Ret ([], l)
  | Request x :: evs =>
      '(st, _, l) ← check_window x l;
      '(out, l) ← history evs l;
      Ret ((x, st) :: out, l)
  | Answer x b sz :: evs => history evs (fill x b sz <$> l)
  end.

(** The xids answered NEW: those whose handler runs. *)
Definition executed (out : list (Z * rpcstate_t)) : list Z :=
  fst <$> filter (fun p => p.2 = NEW) out.

(** The xids of a history, each at its first arrival. *)
Fixpoint arrivals (seen : list Z) (evs : list event) : list Z :=
  match evs with
  | [] => []
  | Request x :: evs =>
      if decide (x ∈ seen) then arrivals seen evs else x :: arrivals (x :: seen) evs
  | Answer _ _ _ :: evs => arrivals seen evs
  end.

(** First arrivals are in xid order; retransmissions come at any time. *)
Fixpoint in_order (seen : list Z) (evs : list event) : Prop :=
  match evs with
  | [] => True
  | Request x :: evs =>
      (x ∈ seen \/ (0 < x /\ forall y, y ∈ seen -> y < x)) /\ in_order (x :: seen) evs
  | Answer _ _ _ :: evs => in_order seen evs
  end.

(** ** Lemmas *)

Abbreviation xids l := (r_xid <$> l).

Definition sorted (l : window) : Prop := StronglySorted Z.lt (xids l).

Lemma sorted_suffix l l' : l' `suffix_of` l -> sorted l -> sorted l'.
Proof.
  intros [k ->] H. unfold sorted in *. rewrite fmap_app in H.
  induction k as [|c k IH]; cbn in *; [done|]. apply IH. by inversion H.
Qed.

Lemma sorted_hd_lt c l y : sorted (c :: l) -> y ∈ xids l -> r_xid c < y.
Proof.
  unfold sorted. cbn. intros H Hy. inversion H as [|? ? ? Hall]; subst.
  rewrite Forall_forall in Hall. by apply Hall.
Qed.

Lemma sorted_snoc l x :
  sorted l -> (forall y, y ∈ xids l -> y < x) -> sorted (l ++ [reply_new x]).
Proof.
  unfold sorted. intros Hs Hlt. rewrite fmap_app. cbn.
  induction l as [|c l IH]; cbn in *; [repeat constructor|].
  inversion Hs as [|? ? Hs' Hall]; subst. constructor.
  - apply IH; [done|]. intros y Hy. apply Hlt. by right.
  - apply Forall_app. split; [done|]. constructor; [|constructor]. apply Hlt. by left.
Qed.

Lemma last_is_max l c : sorted l -> last l = Some c -> forall y, y ∈ xids l -> y <= r_xid c.
Proof.
  intros Hs Hl y Hy. apply last_Some in Hl as [k ->].
  rewrite fmap_app, elem_of_app in Hy. cbn in Hy.
  destruct Hy as [Hy|Hy]; [|apply list_elem_of_singleton in Hy; lia].
  unfold sorted in Hs. rewrite fmap_app in Hs. cbn in Hs.
  induction k as [|d k IH]; cbn in *; [by apply not_elem_of_nil in Hy|].
  inversion Hs as [|? ? Hs' Hall]; subst.
  apply elem_of_cons in Hy as [->|Hy]; [|auto].
  rewrite Forall_app in Hall. destruct Hall as [_ Hc]. apply Forall_inv in Hc. lia.
Qed.

(** The window only ever loses a prefix. *)
Lemma move_window_suffix after l l' :
  move_window after l = Ret l' -> l' `suffix_of` l /\ l' <> [].
Proof.
  induction l as [|c l IH]; cbn; [discriminate|].
  destruct (cb_present c); [|intros [= <-]; done].
  destruct after as [a|]; [|discriminate].
  destruct (_ =? _); [|intros [= <-]; done].
  intros E. destruct (IH E). split; [by apply suffix_cons_r|done].
Qed.

(** On a sorted window the scan finds an xid that is present. *)
Lemma scan_found x pre l :
  sorted (pre ++ l) -> x ∈ xids l ->
  exists st b, scan x pre l = Ret (st, b, pre ++ l) /\ st <> NEW.
Proof.
  revert pre. induction l as [|c l IH]; intros pre Hs Hx; [by apply not_elem_of_nil in Hx|].
  assert (Hfront : r_xid (hd c (pre ++ c :: l)) <= x).
  { assert (Hx' : x ∈ xids (pre ++ c :: l)) by (rewrite fmap_app; apply elem_of_app; by right).
    destruct pre as [|p pre]; cbn in *.
    - apply elem_of_cons in Hx' as [->|Hx']; [lia|]. apply sorted_hd_lt with (y := x) in Hs; [lia|done].
    - apply elem_of_cons in Hx' as [->|Hx']; [lia|]. apply sorted_hd_lt with (y := x) in Hs; [lia|done]. }
  cbn [scan]. unfold visit. bcase.
  destruct (Z.eqb_spec x (r_xid c)).
  - destruct (cb_present c); eexists _, _; (split; [done|discriminate]).
  - cbn in Hx. apply elem_of_cons in Hx as [?|Hx]; [done|].
    assert (Hcl : sorted (c :: l)) by (eapply sorted_suffix; [|done]; by eexists).
    pose proof (sorted_hd_lt c l x Hcl Hx). rewrite Z.gtb_ltb. bcase.
    destruct l as [|d l]; [by apply not_elem_of_nil in Hx|]. cbn [head].
    assert (r_xid d <= x).
    { cbn in Hx. apply elem_of_cons in Hx as [->|Hx]; [lia|].
      assert (Hdl : sorted (d :: l)) by (eapply sorted_suffix; [|apply Hcl]; by exists [c]).
      pose proof (sorted_hd_lt d l x Hdl Hx). lia. }
    bcase. destruct (IH (pre ++ [c])) as (st & b & E & Hn); [by rewrite <- app_assoc|done|].
    exists st, b. rewrite E, <- app_assoc. done.
Qed.

Lemma sorted_split k c l y :
  sorted (k ++ c :: l) -> y ∈ xids (k ++ c :: l) -> r_xid c < y -> y ∈ xids l.
Proof.
  intros Hs Hy Hlt. rewrite fmap_app, elem_of_app in Hy. cbn in Hy.
  rewrite elem_of_cons in Hy. destruct Hy as [Hy|[->|Hy]]; [|lia|done]. exfalso.
  induction k as [|d k IH]; cbn in *; [by apply not_elem_of_nil in Hy|].
  apply elem_of_cons in Hy as [->|Hy].
  - pose proof (sorted_hd_lt d (k ++ c :: l) (r_xid c) Hs) as H.
    rewrite fmap_app, elem_of_app in H. cbn in H. specialize (H ltac:(right; by left)). lia.
  - apply IH; [|done]. eapply sorted_suffix; [|exact Hs]. by exists [d].
Qed.

Lemma search_known x l st b l' :
  sorted l -> x ∈ xids l -> search x l = Ret (st, b, l') ->
  st <> NEW /\ l' `suffix_of` l /\ l' <> [] /\ (default 0 (r_xid <$> head l') <= x -> x ∈ xids l').
Proof.
  intros Hs Hx E. destruct l as [|c0 rest0]; [by apply not_elem_of_nil in Hx|].
  unfold search in E. rinv E. rename a into l1.
  destruct (move_window_suffix _ _ _ E0) as [Hsuf Hne].
  destruct l1 as [|cur rest]; [done|]. destruct Hsuf as [k Hk].
  assert (Hs1 : sorted (cur :: rest)) by (eapply sorted_suffix; [|exact Hs]; by exists k).
  assert (Hin : r_xid cur < x -> x ∈ xids rest).
  { intros. rewrite Hk in Hs, Hx. by eapply sorted_split. }
  unfold visit in E. cbn [app hd] in E.
  destruct (Z.ltb_spec x (r_xid cur)).
  { injection E as <- _ <-. split; [done|]. split; [by exists k|]. split; [done|]. cbn. lia. }
  destruct (Z.eqb_spec x (r_xid cur)) as [->|Hneq].
  { destruct (cb_present cur); injection E as <- _ <-;
      (split; [done|]; split; [by exists k|]; split; [done|]; intros _; by left). }
  rewrite Z.gtb_ltb in E. destruct (Z.ltb_spec (r_xid cur) x); [|lia].
  destruct (head rest0) as [a|] eqn:Ha; [|discriminate].
  assert (Hle : r_xid a <= x).
  { destruct rest0 as [|d rest0]; [discriminate|]. injection Ha as ->.
    assert (Hd : x ∈ xids (a :: rest0)).
    { cbn in Hx. apply elem_of_cons in Hx as [->|Hx]; [|done].
      destruct k as [|d k]; injection Hk as -> Hk; [lia|].
      pose proof (sorted_hd_lt d (k ++ cur :: rest) (r_xid cur)) as Hlt.
      rewrite <- Hk in Hlt. specialize (Hlt Hs). rewrite Hk, fmap_app, elem_of_app in Hlt.
      specialize (Hlt ltac:(right; by left)). lia. }
    assert (Hsd : sorted (a :: rest0)) by (eapply sorted_suffix; [|exact Hs]; by exists [c0]).
    cbn in Hd. apply elem_of_cons in Hd as [->|Hd]; [lia|].
    pose proof (sorted_hd_lt a rest0 x Hsd Hd). lia. }
  destruct (Z.ltb_spec x (r_xid a)); [lia|].
  destruct (scan_found x [cur] rest) as (st1 & b1 & E1 & Hn); [done|auto|].
  rewrite E1 in E. injection E as <- _ <-.
  split; [done|]. split; [by exists k|]. split; [done|]. intros _. right. auto.
Qed.

(** The window of a client whose requests first arrived in order. *)
Definition orderly (seen : list Z) (l : window) : Prop :=
  (seen = [] /\ l = []) \/
  (l <> [] /\ sorted l /\
   (forall x, x ∈ seen -> default 0 (r_xid <$> head l) <= x -> x ∈ xids l) /\
   (forall x, x ∈ xids l -> x = 0 \/ x ∈ seen)).

Lemma xids_fill x b sz (l : window) : xids (fill x b sz <$> l) = xids l.
Proof.
  rewrite <- list_fmap_compose. apply list_fmap_ext. intros _ r _. cbn.
  unfold fill. destruct (x =? r_xid r); done.
Qed.

Lemma orderly_answer seen x b sz (l : window) : orderly seen l -> orderly seen (fill x b sz <$> l).
Proof.
  unfold orderly, sorted. rewrite xids_fill. intros [[-> ->]|(Hne & Hs & H1 & H2)]; [by left|].
  right. split; [by destruct l|]. split; [done|]. split; [|done].
  intros y Hy Hle. apply H1; [done|]. destruct l as [|c l]; [done|]. cbn in *.
  unfold fill in Hle. destruct (x =? r_xid c); done.
Qed.

Lemma check_window_eq x c l d :
  last (c :: l) = Some d ->
  check_window x (c :: l) =
    if r_xid d <? x then
      Ret (if x <? r_xid c then FORGOTTEN else NEW, None, (c :: l) ++ [reply_new x])
    else if x <? r_xid c then Ret (FORGOTTEN, None, c :: l)
    else search x (c :: l).
Proof.
  intros Hl. unfold check_window. rewrite Hl, Z.gtb_ltb.
  change (default 0 (r_xid <$> Some d)) with (r_xid d). destruct (r_xid d <? x).
  - change (default 0 (r_xid <$> head ((c :: l) ++ [reply_new x]))) with (r_xid c).
    destruct (x <? r_xid c); done.
  - change (default 0 (r_xid <$> head (c :: l))) with (r_xid c). destruct (x <? r_xid c); done.
Qed.

Lemma check_seen seen x l st b l' :
  orderly seen l -> x ∈ seen -> check_window x l = Ret (st, b, l') ->
  st <> NEW /\ orderly (x :: seen) l'.
Proof.
  intros [[-> _]|(Hne & Hs & H1 & H2)] Hx E; [by apply not_elem_of_nil in Hx|].
  destruct l as [|c l]; [done|]. destruct (last (c :: l)) as [d|] eqn:Hl; [|by apply last_None in Hl].
  rewrite (check_window_eq x c l d Hl) in E. set (w := c :: l) in *.
  assert (Hweak : orderly (x :: seen) w).
  { right. split; [done|]. split; [done|]. split.
    - intros y Hy. apply elem_of_cons in Hy as [->|Hy]; auto.
    - intros y Hy. destruct (H2 y Hy) as [?|?]; [by left|right; by right]. }
  destruct (Z.ltb_spec (r_xid d) x) as [Hlt|Hge].
  - exfalso. assert (x ∈ xids w) as Hin; [|pose proof (last_is_max w d Hs Hl x Hin); lia].
    apply H1; [done|]. cbn. assert (r_xid c <= r_xid d); [|lia].
    apply (last_is_max w d Hs Hl). by left.
  - destruct (Z.ltb_spec x (r_xid c)).
    + injection E as <- _ <-. done.
    + destruct (search_known x w st b l' Hs) as (Hn & [k Hk] & Hne' & Hin); [apply H1; done|done|].
      subst w. split; [done|]. right. split; [done|].
      split; [eapply sorted_suffix; [by exists k|done]|]. split.
      * intros y Hy Hle. apply elem_of_cons in Hy as [->|Hy]; [auto|].
        assert (Hyw : y ∈ xids (c :: l)).
        { apply H1; [done|]. cbn. destruct l' as [|e l']; [done|]. cbn in Hle.
          destruct k as [|f k]; injection Hk as -> Hk; [done|].
          pose proof (sorted_hd_lt f (k ++ e :: l') (r_xid e)) as Hlt.
          rewrite Hk in Hs. specialize (Hlt Hs). rewrite fmap_app, elem_of_app in Hlt.
          specialize (Hlt ltac:(right; by left)). lia. }
        destruct l' as [|e l']; [done|]. cbn in Hle. rewrite Hk in Hyw, Hs.
        destruct (Z.eq_dec y (r_xid e)) as [->|]; [by left|].
        right. eapply sorted_split; [exact Hs|exact Hyw|lia].
      * intros y Hy. destruct (H2 y) as [?|?]; [|by left|right; by right].
        rewrite Hk, fmap_app, elem_of_app. by right.
Qed.

Lemma check_fresh seen x l :
  orderly seen l -> 0 < x -> (forall y, y ∈ seen -> y < x) ->
  exists l', check_window x l = Ret (NEW, None, l') /\ orderly (x :: seen) l' /\
    exists c k, l' = c :: k ++ [reply_new x] /\ r_xid c < x.
Proof.
  intros Hl Hpos Hx.
  set (w := match l with [] => [Reply 0 true None 0] | _ => l end) in *.
  assert (Ew : check_window x l = check_window x w) by (subst w; by destruct l).
  rewrite Ew. clear Ew.
  assert (Hw : w <> [] /\ sorted w /\ (forall y, y ∈ xids w -> y < x) /\
    (forall y, y ∈ seen -> default 0 (r_xid <$> head w) <= y -> y ∈ xids w) /\
    (forall y, y ∈ xids w -> y = 0 \/ y ∈ seen)).
  { destruct Hl as [[-> ->]|(Hne & Hs & H1 & H2)]; subst w.
    - split; [done|]. split; [repeat constructor|].
      repeat split; intros y Hy; try (by apply not_elem_of_nil in Hy);
        apply list_elem_of_singleton in Hy; cbn in Hy; [lia|by left].
    - destruct l; [done|]. repeat split; try done.
      intros y Hy. destruct (H2 y Hy) as [->|?]; [lia|auto]. }
  destruct Hw as (Hne & Hs & Hlt & H1 & H2). clearbody w.
  destruct w as [|c w]; [done|].
  destruct (last (c :: w)) as [d|] eqn:Hlast; [|by apply last_None in Hlast].
  rewrite (check_window_eq x c w d Hlast).
  assert (r_xid d < x).
  { apply Hlt. apply last_Some in Hlast as [k Hk]. rewrite Hk, fmap_app. apply elem_of_app. right. by left. }
  assert (r_xid c < x) by (apply Hlt; by left).
  do 2 bcase. eexists. split; [done|]. split; [|by exists c, w].
  right. split; [done|]. split; [by apply (sorted_snoc (c :: w))|]. rewrite fmap_app. split.
  - intros y Hy Hle. apply elem_of_app. apply elem_of_cons in Hy as [->|Hy]; [right; by left|].
    left. by apply H1.
  - intros y Hy. apply elem_of_app in Hy as [Hy|Hy].
    + destruct (H2 y Hy); [by left|right; by right].
    + apply list_elem_of_singleton in Hy as ->. right. by left.
Qed.

(** [arrivals] looks at [seen] as a set. *)
#[export] Instance arrivals_proper : Proper ((≡) ==> (=) ==> (=)) arrivals.
Proof.
  intros s1 s2 Hs evs ? <-. revert s1 s2 Hs.
  induction evs as [|[x|x b sz] evs IH]; intros s1 s2 Hs; cbn; [done| |auto].
  destruct (decide (x ∈ s1)) as [H1|H1], (decide (x ∈ s2)) as [H2|H2];
    try (specialize (Hs x); tauto); [auto|].
  f_equal. apply IH. intros y. rewrite !elem_of_cons. by rewrite (Hs y).
Qed.

Lemma history_orderly seen evs l out l' :
  orderly seen l -> in_order seen evs -> history evs l = Ret (out, l') ->
  executed out = arrivals seen evs.
Proof.
  revert seen l out. induction evs as [|[x|x b sz] evs IH]; intros seen l out Hl Ho E; cbn in E.
  - injection E as <- _. done.
  - destruct Ho as [Hx Ho]. rinv E. destruct a as [[st b] l1]. rinv E. destruct a as [out1 l2].
    injection E as <- <-. cbn [arrivals]. unfold executed.
    destruct (decide (x ∈ seen)) as [Hin|Hnin].
    + destruct (check_seen seen x l st b l1 Hl Hin E0) as [Hn Hl1].
      rewrite filter_cons_False by done. fold (executed out1).
      rewrite (IH (x :: seen) l1 out1 Hl1 Ho E1).
      apply arrivals_proper; [|done]. intros y. rewrite elem_of_cons.
      split; [intros [->|?]; done|by right].
    + destruct Hx as [?|[Hpos Hx]]; [done|].
      destruct (check_fresh seen x l Hl Hpos Hx) as (l1' & E' & Hl1 & _).
      rewrite E' in E0. injection E0 as <- <- <-.
      rewrite filter_cons_True by done. cbn. f_equal. by apply (IH (x :: seen) l1' out1).
  - by apply (IH seen (fill x b sz <$> l) out (orderly_answer _ _ _ _ _ Hl)).
Qed.

Lemma arrivals_fresh seen evs : NoDup (arrivals seen evs) /\ (forall x, x ∈ arrivals seen evs -> x ∉ seen).
Proof.
  revert seen. induction evs as [|[x|x b sz] evs IH]; intros seen; cbn.
  - split; [constructor|]. intros x Hx. by apply not_elem_of_nil in Hx.
  - destruct (decide (x ∈ seen)); [apply IH|]. destruct (IH (x :: seen)) as [Hn Hs]. split.
    + constructor; [|done]. intros Hx. apply (Hs x Hx). by left.
    + intros y Hy. apply elem_of_cons in Hy as [->|Hy]; [done|]. intros ?. apply (Hs y Hy). by right.
  - apply IH.
Qed.

Lemma u32_succ_neq x : x <> u32 (x + 1).
Proof. unfold u32. intros. Z.div_mod_to_equations. lia. Qed.

(** ** Theorems *)

Lemma move_window_singleton c : move_window None [c] = if cb_present c then Crash Undefined else Ret [c].
Proof. cbn. by destruct (cb_present c). Qed.

Lemma move_window_more c d l : exists w, move_window (Some d) (c :: d :: l) = Ret w.
Proof.
  cbn. destruct (cb_present c); [|eauto]. destruct (_ =? _); [|eauto].
  destruct (cb_present d); [|eauto].
  destruct (Z.eqb_spec (r_xid d) (u32 (r_xid d + 1))) as [E|]; [|eauto].
  by apply u32_succ_neq in E.
Qed.

(** A retransmission to a window in order reads past the end of the
    reply list exactly when the window has shrunk to that one completed
    request; every other retransmission is answered. *)
Theorem retransmission_undefined (seen : list Z) (x : Z) (l : window) :
  orderly seen l -> x ∈ seen ->
  check_window x l = Crash Undefined <-> exists c, l = [c] /\ cb_present c = true /\ x = r_xid c.
Proof.
  intros [[-> _]|(Hne & Hs & H1 & H2)] Hx; [by apply not_elem_of_nil in Hx|].
  destruct l as [|c l]; [done|].
  destruct (last (c :: l)) as [d|] eqn:Hl; [|by apply last_None in Hl].
  rewrite (check_window_eq x c l d Hl).
  assert (Hcd : r_xid c <= r_xid d) by (apply (last_is_max (c :: l) d Hs Hl); by left).
  destruct (Z.ltb_spec (r_xid d) x).
  { split; [discriminate|]. intros (e & [= -> ->] & _ & ->). injection Hl as ->. lia. }
  destruct (Z.ltb_spec x (r_xid c)).
  { split; [discriminate|]. intros (e & [= -> ->] & _ & ->). lia. }
  assert (Hin : x ∈ xids (c :: l)) by (apply H1; done).
  destruct l as [|e l].
  - apply list_elem_of_singleton in Hin. unfold search. cbn [head].
    rewrite move_window_singleton. destruct (cb_present c) eqn:Hc.
    + split; [intros _; by exists c|done].
    + cbn. unfold visit. cbn. rewrite Hin, Z.ltb_irrefl, Z.eqb_refl, Hc.
      split; [discriminate|]. intros (e & [= ->] & ? & _). congruence.
  - split; [|intros (? & [=] & _)]. intros E. exfalso.
    destruct (move_window_more c e l) as [w Hw].
    destruct (search x (c :: e :: l)) as [[[st b] l']|f] eqn:Es; [done|].
    revert Es. unfold search. cbn [head]. rstep Hw.
    destruct (move_window_suffix _ _ _ Hw) as [[k Hk] Hnw].
    destruct w as [|cur rest]; [done|].
    assert (Hs1 : sorted (cur :: rest)) by (eapply sorted_suffix; [|exact Hs]; by exists k).
    unfold visit. cbn [app hd].
    destruct (Z.ltb_spec x (r_xid cur)); [discriminate|].
    destruct (Z.eqb_spec x (r_xid cur)); [destruct (cb_present cur); discriminate|].
    rewrite Z.gtb_ltb. bcase. destruct (x <? r_xid e); [discriminate|].
    destruct (scan_found x [cur] rest) as (st1 & b1 & -> & _); [done| |discriminate].
    rewrite Hk in Hs, Hin. by eapply sorted_split.
Qed.

Lemma retransmission_undefined_witness :
  check_window 1 [Reply 1 true None 24] = Crash Undefined.
Proof.
  apply (retransmission_undefined [1] 1).
  - right. split; [done|]. split; [repeat constructor|].
    split; intros y Hy; [intros _; exact Hy|right; exact Hy].
  - by left.
  - by exists (Reply 1 true None 24).
Defined.

(** No other fault is possible. *)
Lemma check_window_fault x l f : check_window x l = Crash f -> f = Undefined.
Proof.
  assert (Hv : forall pre cur rest after next, visit x pre cur rest after next = Crash f ->
    (next = Crash f -> f = Undefined) -> f = Undefined).
  { intros pre cur rest after next. unfold visit. destruct (_ <? _); [done|]. destruct (_ =? _); [by destruct (cb_present cur)|].
    destruct (_ >? _); [|auto]. destruct after as [a|]; [|by intros [= <-]]. destruct (_ <? _); [done|auto]. }
  assert (Hs : forall l pre, scan x pre l = Crash f -> f = Undefined).
  { clear l. intros l. induction l as [|cur rest IH]; intros pre; cbn [scan]; [done|]. intros E. by eapply Hv; [|apply IH]. }
  assert (Hm : forall after l, move_window after l = Crash f -> f = Undefined).
  { clear l. intros after l. induction l as [|cur rest IH]; cbn; [by intros [= <-]|]. destruct (cb_present cur); [|done].
    destruct after as [a|]; [|by intros [= <-]]. destruct (_ =? _); [done|done]. }
  unfold check_window. set (w := match l with [] => _ | _ => _ end). clearbody w.
  assert (Hse : forall w, search x w = Crash f -> f = Undefined).
  { intros [|c rest]; [done|]. unfold search. destruct (move_window _ _) as [[|cur rest']|g] eqn:Em; cbn [mbind res_bind].
    - by intros [= <-].
    - intros E. by eapply Hv; [|apply Hs].
    - intros [= ->]. by eapply Hm. }
  destruct (x >? _), (x <? _); try done; apply Hse.
Qed.

Lemma in_order_prefix seen evs1 evs2 : in_order seen (evs1 ++ evs2) -> in_order seen evs1.
Proof.
  revert seen. induction evs1 as [|[x|x b sz] evs1 IH]; intros seen; cbn; [done| |apply IH]. intros [? ?]. eauto.
Qed.

(** A history ends, or stops where it reads past the end of the list. *)
Lemma history_total seen evs l :
  orderly seen l -> in_order seen evs ->
  (exists out l', history evs l = Ret (out, l')) \/
  (exists evs1 x evs2 out c, evs = evs1 ++ Request x :: evs2 /\ history evs1 l = Ret (out, [c]) /\
     cb_present c = true /\ x = r_xid c /\ history evs l = Crash Undefined).
Proof.
  revert seen l. induction evs as [|[x|x b sz] evs IH]; intros seen l Hl Ho; [left; by eexists _, _| |].
  2: { destruct (IH seen (fill x b sz <$> l) (orderly_answer _ _ _ _ _ Hl) Ho) as [?|(evs1 & y & evs2 & out & c & -> & E)]; [by left|right].
       by exists (Answer x b sz :: evs1), y, evs2, out, c. }
  destruct Ho as [Hx Ho].
  assert (Hgo : forall st b l1, check_window x l = Ret (st, b, l1) -> orderly (x :: seen) l1 ->
    (exists out l', history (Request x :: evs) l = Ret (out, l')) \/
    (exists evs1 y evs2 out c, Request x :: evs = evs1 ++ Request y :: evs2 /\ history evs1 l = Ret (out, [c]) /\
       cb_present c = true /\ y = r_xid c /\ history (Request x :: evs) l = Crash Undefined)).
  { intros st b l1 E Hl1. destruct (IH (x :: seen) l1 Hl1 Ho) as [(out & l' & E')|(evs1 & y & evs2 & out & c & -> & E1 & Hc & Hy & E')].
    - left. eexists _, _. cbn. rewrite E. cbn. by rewrite E'.
    - right. exists (Request x :: evs1), y, evs2. eexists _, c. split; [done|]. cbn. rewrite E. cbn. rewrite E1, E'. done. }
  destruct (decide (x ∈ seen)) as [Hin|Hnin].
  - destruct (check_window x l) as [[[st b] l1]|f] eqn:E.
    + eapply Hgo; [done|]. by eapply check_seen.
    + pose proof (check_window_fault _ _ _ E) as ->. pose proof E as E0.
      apply (retransmission_undefined seen x l Hl Hin) in E0 as (c & -> & Hc & ->). right.
      exists [], (r_xid c), evs, [], c. cbn. by rewrite E.
  - destruct Hx as [?|[Hpos Hx]]; [done|]. destruct (check_fresh seen x l Hl Hpos Hx) as (l1 & E & Hl1 & _). eauto.
Qed.

(** C5: at-most-once for requests that first arrive in xid order: over any
    history of checks and replies, with retransmissions at any time,
    exactly the first arrival of each xid is answered NEW, so no handler
    runs twice; and the history goes on, unless a retransmission meets a
    window of one entry that is its own and is answered.  There the loop
    dereferences end(), which is undefined, and what happens afterwards is
    not known; up to there no handler has run twice. *)
Theorem at_most_once_in_order (evs : list event) :
  in_order [] evs ->
  (exists out l, history evs [] = Ret (out, l) /\ executed out = arrivals [] evs /\ NoDup (executed out)) \/
  (exists evs1 x evs2 out c, evs = evs1 ++ Request x :: evs2 /\ history evs1 [] = Ret (out, [c]) /\
     executed out = arrivals [] evs1 /\ NoDup (executed out) /\
     cb_present c = true /\ x = r_xid c /\ history evs [] = Crash Undefined).
Proof.
  intros Ho. assert (H0 : orderly [] []) by by left.
  assert (Hex : forall evs out l, in_order [] evs -> history evs [] = Ret (out, l) ->
    executed out = arrivals [] evs /\ NoDup (executed out)).
  { intros evs' out l Ho' E. rewrite (history_orderly [] evs' [] out l) by done. split; [done|]. apply arrivals_fresh. }
  destruct (history_total [] evs [] H0 Ho) as [(out & l & E)|(evs1 & x & evs2 & out & c & -> & E & Hc & Hx & E')]; [left|right].
  - exists out, l. split; [done|]. by eapply Hex.
  - exists evs1, x, evs2, out, c. split; [done|]. split; [done|]. destruct (Hex evs1 out [c]); [by eapply in_order_prefix|done|done].
Qed.

Lemma at_most_once_in_order_witness :
  executed [(1, NEW); (2, NEW); (1, DONE); (2, INPROGRESS); (3, NEW)] = [1; 2; 3] /\
  NoDup (executed [(1, NEW); (2, NEW); (1, DONE); (2, INPROGRESS); (3, NEW)]).
Proof.
  destruct (at_most_once_in_order [Request 1; Request 2; Answer 1 None 24; Request 1; Request 2; Request 3])
    as [(out & l & E & H1 & H2)|(evs1 & x & evs2 & out & c & _ & _ & _ & _ & _ & _ & E)].
  - cbn. split; [right|split; [right|split; [left|split; [left|split; [right|done]]]]].
    + split; [lia|]. intros y Hy. by apply not_elem_of_nil in Hy.
    + split; [lia|]. intros y Hy. apply list_elem_of_singleton in Hy. lia.
    + right. by left.
    + right. by left.
    + split; [lia|]. intros y Hy. repeat (apply elem_of_cons in Hy as [->|Hy]; [lia|]).
      by apply not_elem_of_nil in Hy.
  - vm_compute in E. injection E as <- _. split; [reflexivity|exact H2].
  - vm_compute in E. discriminate E.
Defined.

(** Evaluate the loop on a window of a few symbolic entries. *)
Ltac small_window :=
  cbn [r_xid reply_new]; do 2 bcase; unfold search; cbn [head move_window cb_present r_xid reply_new];
  change (u32 (0 + 1)) with 1; repeat (bcase; cbn [mbind res_bind]);
  repeat (progress (unfold visit; cbn; rewrite ?Z.gtb_ltb; repeat bcase)); reflexivity.

(** At-most-once fails when first arrivals are out of order: the
    insertion goes before the smaller neighbour, and with requests [a],
    [c], [b] of one client ([2 <= a < b < c]) a retransmission of [a] is
    answered NEW again, so its handler runs twice. *)
Theorem at_most_once_violated (a b c : Z) :
  2 <= a -> a < b -> b < c -> c < 2 ^ 32 ->
  exists out l,
    history [Request a; Request c; Request b; Request a] [] = Ret (out, l) /\
    executed out = [a; c; b; a].
Proof.
  intros Ha Hab Hbc Hc.
  assert (E1 : check_window a [] = Ret (NEW, None, [Reply 0 true None 0; reply_new a])).
  { change (check_window a []) with (check_window a [Reply 0 true None 0]).
    rewrite (check_window_eq a _ _ (Reply 0 true None 0)) by done. cbn [r_xid]. do 2 bcase. done. }
  assert (E2 : check_window c [Reply 0 true None 0; reply_new a] =
               Ret (NEW, None, [Reply 0 true None 0; reply_new a; reply_new c])).
  { rewrite (check_window_eq c _ _ (reply_new a)) by done. cbn. do 2 bcase. done. }
  assert (E3 : check_window b [Reply 0 true None 0; reply_new a; reply_new c] =
               Ret (NEW, None, [Reply 0 true None 0; reply_new b; reply_new a; reply_new c])).
  { rewrite (check_window_eq b _ _ (reply_new c)) by done. small_window. }
  assert (E4 : exists l, check_window a
      [Reply 0 true None 0; reply_new b; reply_new a; reply_new c] = Ret (NEW, None, l)).
  { eexists. rewrite (check_window_eq a _ _ (reply_new c)) by done. small_window. }
  destruct E4 as [l E4]. cbn [history].
  rstep E1. rstep E2. rstep E3. rstep E4. eexists _, _. split; [done|]. done.
Qed.

Lemma at_most_once_violated_witness :
  exists out l,
    history [Request 3; Request 6; Request 5; Request 3] [] = Ret (out, l) /\
    executed out = [3; 6; 5; 3].
Proof. apply (at_most_once_violated 3 5 6); lia. Defined.

(** A late first arrival can be lost: after requests 1 and [c], the
    first arrival of [b], [1 < b < c], is answered DONE although it never
    ran, with no reply assigned to *b and *sz. *)
Theorem late_request_done_without_reply (b c : Z) :
  1 < b -> b < c -> c < 2 ^ 32 ->
  exists l1 l2, history [Request 1; Request c] [] = Ret ([(1, NEW); (c, NEW)], l1) /\
    check_window b l1 = Ret (DONE, None, l2).
Proof.
  intros Hb Hbc Hc. exists [Reply 0 true None 0; reply_new 1; reply_new c].
  assert (E2 : check_window c [Reply 0 true None 0; reply_new 1] =
               Ret (NEW, None, [Reply 0 true None 0; reply_new 1; reply_new c])).
  { rewrite (check_window_eq c _ _ (reply_new 1)) by done. cbn. do 2 bcase. done. }
  exists [reply_new 1; reply_new c]. split.
  - cbn [history]. change (check_window 1 []) with
      (Ret (NEW, @None (option (list cell) * Z), [Reply 0 true None 0; reply_new 1])).
    cbn [mbind res_bind]. rstep E2. done.
  - rewrite (check_window_eq b _ _ (reply_new c)) by done. small_window.
Qed.

Lemma late_request_done_without_reply_witness :
  exists l1 l2, history [Request 1; Request 3] [] = Ret ([(1, NEW); (3, NEW)], l1) /\
    check_window 2 l1 = Ret (DONE, None, l2).
Proof. apply (late_request_done_without_reply 2 3); lia. Defined.

(** The window is trimmed by the retransmissions themselves, not by
    the client's acknowledgements: with request 2 outstanding, the second
    retransmission of the answered request 1 is FORGOTTEN. *)
Theorem unacknowledged_reply_forgotten (b : option (list cell)) (sz : Z) :
  exists l,
    history [Request 1; Answer 1 b sz; Request 2; Request 1; Request 1] [] =
    Ret ([(1, NEW); (2, NEW); (1, DONE); (1, FORGOTTEN)], l).
Proof. eexists. reflexivity. Qed.
