(* ===== verification/RpcServer.v ===== *)
(** * The RPC server endpoint rpcs (rpc/rpc.cc, rpc/rpc.h)

    Handler registration, the generated handlers, statistics and
    [dispatch].  A connection is an identifier; what dispatch does to
    connections (references taken and dropped, replies sent) is a list of
    actions in program order. *)

From Stdlib Require Import ZArith Lia.
From stdpp Require Import base list gmap.
From S2P Require Import Prelude Marshall ReplyWindow.

#[local] Open Scope Z_scope.

Module rpc_const.
Definition bind : Z := 1.
Definition timeout_failure : Z := -1.
Definition unmarshal_args_failure : Z := -2.
Definition unmarshal_reply_failure : Z := -3.
Definition atmostonce_failure : Z := -4.
Definition oldsrv_failure : Z := -5.
Definition bind_failure : Z := -6.
Definition cancel_failure : Z := -7.
End rpc_const.

Abbreviation conn := positive.

(** What a thread does with connection objects. *)
Inductive action :=
| Incref (c : conn)
| Decref (c : conn)
| Send (c : conn) (data : list cell).

(** handler::fn over the service's state [W]. *)
Definition handler (W : Type) : Type := unmarshall -> marshall -> W -> res (Z * marshall * W).

(** A registered method: arguments in, status and result out. *)
Definition method (W A R : Type) : Type := A -> W -> res (Z * R * W).

(** The class h1 every [reg] template generates, for one to seven
    arguments (nested pairs); [a0] is what the uninitialised locals [a1..]
    hold. *)
Definition h1 {W A R} (wa : wire A) (wr : wire R) (a0 : A) (meth : method W A R)
  : handler W := fun args ret w =>
  '(a, args) ← w_get wa a0 args;
  if negb (okdone args) then Ret (rpc_const.unmarshal_args_failure, ret, w)
  else
    '(b, r, w) ← meth a w;
    ret ← w_put wr r ret;
    Ret (b, ret, w).

(** The templates for six and seven arguments written out: reading the
    arguments one after the other is reading the nested pairs. *)
Definition h1_6 {W A1 A2 A3 A4 A5 A6 R} (w1 : wire A1) (w2 : wire A2) (w3 : wire A3) (w4 : wire A4) (w5 : wire A5) (w6 : wire A6) (wr : wire R)
    (i1 : A1) (i2 : A2) (i3 : A3) (i4 : A4) (i5 : A5) (i6 : A6) (meth : A1 -> A2 -> A3 -> A4 -> A5 -> A6 -> W -> res (Z * R * W))
  : handler W := fun args ret w =>
  '(a1, args) ← w_get w1 i1 args;
  '(a2, args) ← w_get w2 i2 args;
  '(a3, args) ← w_get w3 i3 args;
  '(a4, args) ← w_get w4 i4 args;
  '(a5, args) ← w_get w5 i5 args;
  '(a6, args) ← w_get w6 i6 args;
  if negb (okdone args) then Ret (rpc_const.unmarshal_args_failure, ret, w)
  else
    '(b, r, w) ← meth a1 a2 a3 a4 a5 a6 w;
    ret ← w_put wr r ret;
    Ret (b, ret, w).

Definition h1_7 {W A1 A2 A3 A4 A5 A6 A7 R} (w1 : wire A1) (w2 : wire A2) (w3 : wire A3) (w4 : wire A4) (w5 : wire A5) (w6 : wire A6) (w7 : wire A7) (wr : wire R)
    (i1 : A1) (i2 : A2) (i3 : A3) (i4 : A4) (i5 : A5) (i6 : A6) (i7 : A7) (meth : A1 -> A2 -> A3 -> A4 -> A5 -> A6 -> A7 -> W -> res (Z * R * W))
  : handler W := fun args ret w =>
  '(a1, args) ← w_get w1 i1 args;
  '(a2, args) ← w_get w2 i2 args;
  '(a3, args) ← w_get w3 i3 args;
  '(a4, args) ← w_get w4 i4 args;
  '(a5, args) ← w_get w5 i5 args;
  '(a6, args) ← w_get w6 i6 args;
  '(a7, args) ← w_get w7 i7 args;
  if negb (okdone args) then Ret (rpc_const.unmarshal_args_failure, ret, w)
  else
    '(b, r, w) ← meth a1 a2 a3 a4 a5 a6 a7 w;
    ret ← w_put wr r ret;
    Ret (b, ret, w).

#[local] Ltac read_args :=
  repeat (rewrite !res_assoc; match goal with
  | |- ?X ≫= _ = ?X ≫= _ => destruct X as [[? ?]|]; cbn [mbind res_bind]; try reflexivity
  end).

Lemma h1_6_pairs {W A1 A2 A3 A4 A5 A6 R} (w1 : wire A1) (w2 : wire A2) (w3 : wire A3) (w4 : wire A4) (w5 : wire A5) (w6 : wire A6) (wr : wire R)
    (i1 : A1) (i2 : A2) (i3 : A3) (i4 : A4) (i5 : A5) (i6 : A6) (meth : A1 -> A2 -> A3 -> A4 -> A5 -> A6 -> W -> res (Z * R * W)) args ret w :
  h1_6 w1 w2 w3 w4 w5 w6 wr i1 i2 i3 i4 i5 i6 meth args ret w =
  h1 (wire_pair w1 (wire_pair w2 (wire_pair w3 (wire_pair w4 (wire_pair w5 w6))))) wr (i1, (i2, (i3, (i4, (i5, i6))))) (fun '(a1, (a2, (a3, (a4, (a5, a6))))) => meth a1 a2 a3 a4 a5 a6) args ret w.
Proof. unfold h1_6, h1. cbn [w_get wire_pair fst snd]. read_args. Qed.

Lemma h1_7_pairs {W A1 A2 A3 A4 A5 A6 A7 R} (w1 : wire A1) (w2 : wire A2) (w3 : wire A3) (w4 : wire A4) (w5 : wire A5) (w6 : wire A6) (w7 : wire A7) (wr : wire R)
    (i1 : A1) (i2 : A2) (i3 : A3) (i4 : A4) (i5 : A5) (i6 : A6) (i7 : A7) (meth : A1 -> A2 -> A3 -> A4 -> A5 -> A6 -> A7 -> W -> res (Z * R * W)) args ret w :
  h1_7 w1 w2 w3 w4 w5 w6 w7 wr i1 i2 i3 i4 i5 i6 i7 meth args ret w =
  h1 (wire_pair w1 (wire_pair w2 (wire_pair w3 (wire_pair w4 (wire_pair w5 (wire_pair w6 w7)))))) wr (i1, (i2, (i3, (i4, (i5, (i6, i7)))))) (fun '(a1, (a2, (a3, (a4, (a5, (a6, a7)))))) => meth a1 a2 a3 a4 a5 a6 a7) args ret w.
Proof. unfold h1_7, h1. cbn [w_get wire_pair fst snd]. read_args. Qed.

Record rpcs (W : Type) := Rpcs {
  s_nonce : Z;
  s_reply_window : windows;
  s_conns : gmap Z conn;
  s_counting : Z;
  s_curr_counts : Z;
  s_counts : gmap Z Z;
  s_reachable : bool;
  s_procs : gmap Z (handler W);
  s_app : W  (* the objects the handlers are methods of *)
}.
Arguments Rpcs {W}.
Arguments s_nonce {W} r.
Arguments s_reply_window {W} r.
Arguments s_conns {W} r.
Arguments s_counting {W} r.
Arguments s_curr_counts {W} r.
Arguments s_counts {W} r.
Arguments s_reachable {W} r.
Arguments s_procs {W} r.
Arguments s_app {W} r.

Section rpcs.
Context {W : Type}.
Implicit Types s : rpcs W.

Definition set_window (rw : windows) s : rpcs W :=
  Rpcs (s_nonce s) rw (s_conns s) (s_counting s) (s_curr_counts s) (s_counts s)
    (s_reachable s) (s_procs s) (s_app s).
Definition set_conns (cs : gmap Z conn) s : rpcs W :=
  Rpcs (s_nonce s) (s_reply_window s) cs (s_counting s) (s_curr_counts s) (s_counts s)
    (s_reachable s) (s_procs s) (s_app s).
Definition set_app (w : W) s : rpcs W :=
  Rpcs (s_nonce s) (s_reply_window s) (s_conns s) (s_counting s) (s_curr_counts s) (s_counts s)
    (s_reachable s) (s_procs s) w.

(** reg1: a procedure number is registered once. *)
Definition reg1 (proc : Z) (h : handler W) s : res (rpcs W) :=
  verify (bool_decide (s_procs s !! i32 proc = None))
    (Ret (Rpcs (s_nonce s) (s_reply_window s) (s_conns s) (s_counting s) (s_curr_counts s)
            (s_counts s) (s_reachable s) (<[i32 proc := h]> (s_procs s)) (s_app s))).

(** updatestat: count the call; every [counting_] calls start over. *)
Definition updatestat (proc : Z) s : rpcs W :=
  let counts := <[i32 proc := default 0 (s_counts s !! i32 proc) + 1]> (s_counts s) in
  let curr := s_curr_counts s - 1 in
  Rpcs (s_nonce s) (s_reply_window s) (s_conns s) (s_counting s)
    (if curr =? 0 then s_counting s else curr) counts (s_reachable s) (s_procs s) (s_app s).

(** rpcbind(int a, int &r): [r] is an int that receives the nonce. *)
Definition rpcbind : method (rpcs W) Z Z := fun _ s => Ret (0, i32 (s_nonce s), s).

(** Remember [c] as the latest good connection of client [n].
    [cmp a b] is connection::compare. *)
Definition remember (cmp : conn -> conn -> Z) (n : Z) (c : conn) (conns : gmap Z conn)
  : list action * gmap Z conn :=
  match conns !! n with
  | None => ([Incref c], <[n := c]> conns)
  | Some old =>
      if cmp old c <? 0 then ([Decref old; Incref c], <[n := c]> conns) else ([], conns)
  end.

Definition reply_with (h : reply_header) (m : marshall) : res (list cell * marshall) :=
  m ← pack_reply_header h m;
  Ret (sent m, m).

(** The case NEW of dispatch: run the handler, save and send the reply.
    [dead c] is what c->isdead() reports when the handler has returned. *)
Definition run_new (dead : conn -> bool) (h : req_header) (f : handler W) (req : unmarshall)
    (c : conn) s : res (list action * rpcs W) :=
  let s := if negb (s_counting s =? 0) then updatestat (rq_proc h) s else s in
  '(ret, rep, w) ← f req marshall_new (s_app s);
  let s := set_app w s in
  verify ((0 <=? ret) || (ret =? rpc_const.unmarshal_args_failure)) (
  rep ← pack_reply_header (ReplyHeader (rq_xid h) ret) rep;
  let '(b1, sz1, _) := m_take_buf rep in
  let data := sent rep in
  let s := if rq_clt_nonce h >? 0
           then set_window (add_reply (rq_clt_nonce h) (u32 (rq_xid h)) b1 sz1 (s_reply_window s)) s
           else s in
  match dead c, s_conns s !! rq_clt_nonce h with
  | true, None => Crash Undefined (* conns_[nonce] is created NULL, then increfed *)
  | true, Some c' =>
      if bool_decide (c = c') then Ret ([Send c data; Decref c], s)
      else Ret ([Decref c; Incref c'; Send c' data; Decref c'], s)
  | false, _ => Ret ([Send c data; Decref c], s)
  end).

(** The saved reply as it is sent: the first [sz] cells of the buffer. *)
Definition saved_data (b : option (list cell)) (sz : Z) : list cell :=
  default [] (take (Z.to_nat sz) <$> b).

Definition dispatch (cmp : conn -> conn -> Z) (dead : conn -> bool) (c : conn) (buf : bytes) (sz : Z) s
  : res (list action * rpcs W) :=
  '(h, req) ← unpack_req_header (unmarshall_buf buf sz);
  if negb (u_ok req) then Ret ([Decref c], s)
  else if negb (rq_srv_nonce h =? 0) && negb (rq_srv_nonce h =? s_nonce s) then
    '(data, _) ← reply_with (ReplyHeader (rq_xid h) rpc_const.oldsrv_failure) marshall_new;
    Ret ([Send c data], s)
  else
    match s_procs s !! rq_proc h with
    | None => Ret ([Decref c], s)
    | Some f =>
        if negb (rq_clt_nonce h =? 0) then
          let n := rq_clt_nonce h in
          let s := match s_reply_window s !! n with
                   | None => set_window (<[n := []]> (s_reply_window s)) s
                   | Some _ => s
                   end in
          let '(acts, conns) := remember cmp n c (s_conns s) in
          let s := set_conns conns s in
          '(stat, saved, rw) ← checkduplicate_and_update n (u32 (rq_xid h)) (u32 (rq_xid_rep h))
                                 (s_reply_window s);
          let s := set_window rw s in
          match stat with
          | NEW =>
              '(acts', s) ← run_new dead h f req c s;
              Ret (acts ++ acts', s)
          | INPROGRESS => Ret (acts ++ [Decref c], s)
          | DONE =>
              match saved with
              | Some (b1, sz1) => Ret (acts ++ [Send c (saved_data b1 sz1); Decref c], s)
              | None => Crash Undefined (* b1 and sz1 were never assigned *)
              end
          | FORGOTTEN =>
              '(data, _) ← reply_with (ReplyHeader (rq_xid h) rpc_const.atmostonce_failure) marshall_new;
              Ret (acts ++ [Send c data; Decref c], s)
          end
        else run_new dead h f req c s
    end.

(** got_pdu: queue a dispatch job, unless unreachable.  [added] is what
    the thread pool's addObjJob returns, [later] what the second look at
    reachable_ finds; the job carries a reference.  A job that was queued
    and is deleted is used by the worker that runs it. *)
Definition got_pdu (added later : bool) (c : conn) s : res (bool * list action) :=
  if negb (s_reachable s) then Ret (true, [])
  else if negb added then Ret (added, [Incref c; Decref c])
  else if negb later then Crash Undefined
  else Ret (added, [Incref c]).

Definition set_reachable (r : bool) s : rpcs W :=
  Rpcs (s_nonce s) (s_reply_window s) (s_conns s) (s_counting s) (s_curr_counts s) (s_counts s) r (s_procs s) (s_app s).

(** The destructor: the listener goes before the pool, whose workers may
    still run dispatch, and the reply window last. *)
Inductive part := Listener | DispatchPool.
Definition rpcs_delete s : list part * rpcs W :=
  ([Listener; DispatchPool], set_window (free_reply_window (s_reply_window s)) s).

(** An unreachable server takes requests and starts nothing, until it is
    made reachable again. *)
Lemma unreachable_drops added later c s :
  got_pdu added later c (set_reachable false s) = Ret (true, []) /\
  set_reachable (s_reachable s) (set_reachable false s) = s.
Proof. split; [done|]. by destruct s. Qed.

(** The constructor: [nonce] is what random() returned, [a0] what the
    uninitialised argument of the generated bind handler holds, [w] the
    objects the registered handlers are methods of. *)
Definition rpcs_new (count nonce a0 : Z) (w : W) : res (rpcs W) :=
  let s := Rpcs (u32 nonce) ∅ ∅ count count ∅ true ∅ w in
  reg1 rpc_const.bind (h1 wire_int wire_int a0 (fun a w => '(b, r, _) ← rpcbind a s; Ret (b, r, w))) s.

End rpcs.

(** ** References to connections *)

(** Change of connection [k]'s reference count over some actions. *)
Fixpoint net (k : conn) (acts : list action) : Z :=
  match acts with
  | [] => 0
  | Incref c :: acts => net k acts + (if decide (c = k) then 1 else 0)
  | Decref c :: acts => net k acts - (if decide (c = k) then 1 else 0)
  | Send _ _ :: acts => net k acts
  end.

(** The reference the table conns_ holds on [k] for client [n]. *)
Definition held (n : Z) (k : conn) (conns : gmap Z conn) : Z :=
  if decide (conns !! n = Some k) then 1 else 0.

Lemma net_app k a1 a2 : net k (a1 ++ a2) = net k a1 + net k a2.
Proof. induction a1 as [|[c|c|c d] a1 IH]; cbn; lia. Qed.

Lemma remember_net cmp n c conns acts conns' :
  remember cmp n c conns = (acts, conns') ->
  forall k, net k acts = held n k conns' - held n k conns.
Proof.
  unfold remember, held. intros E k. destruct (conns !! n) as [old|] eqn:Hn.
  - destruct (cmp old c <? 0); injection E as <- <-; cbn.
    + rewrite lookup_insert_eq. repeat case_decide; simplify_eq; lia.
    + rewrite Hn. lia.
  - injection E as <- <-. cbn. rewrite lookup_insert_eq. repeat case_decide; simplify_eq; lia.
Qed.

Section dispatch.
Context {W : Type}.
Implicit Types s : rpcs W.

Lemma run_new_net dead h f req c s acts s' :
  run_new dead h f req c s = Ret (acts, s') ->
  s_conns s' = s_conns s /\ forall k, net k acts = - (if decide (c = k) then 1 else 0).
Proof.
  unfold run_new, verify. intros E. rinv E. destruct a as [[ret rep] w].
  destruct (_ || _); [|discriminate]. rinv E. cbn [m_take_buf] in E.
  assert (Hc : forall b, s_conns (if b : bool
      then set_window (add_reply (rq_clt_nonce h) (u32 (rq_xid h)) (m_buf a) (m_ind a)
             (s_reply_window (set_app w (if negb (s_counting s =? 0) then updatestat (rq_proc h) s else s))))
             (set_app w (if negb (s_counting s =? 0) then updatestat (rq_proc h) s else s))
      else set_app w (if negb (s_counting s =? 0) then updatestat (rq_proc h) s else s)) = s_conns s).
  { intros []; destruct (negb (s_counting s =? 0)); done. }
  rewrite Hc in E. destruct (dead c).
  - destruct (s_conns s !! rq_clt_nonce h) as [c'|]; [|discriminate].
    case_bool_decide; injection E as <- <-; (split; [apply Hc|]); intros k; cbn;
      repeat case_decide; simplify_eq; lia.
  - injection E as <- <-. split; [apply Hc|]. intros k. cbn. lia.
Qed.

(** C35: dispatch consumes exactly the reference its job carries: on every
    path that returns, each connection's count changes by what the table
    of latest connections gains or loses for this client, minus one for
    the job's connection; except for a request addressed to an old server
    instance, which never drops the job's reference. *)
Theorem dispatch_refs cmp dead c buf sz s acts s' :
  dispatch cmp dead c buf sz s = Ret (acts, s') ->
  exists h req, unpack_req_header (unmarshall_buf buf sz) = Ret (h, req) /\
    if u_ok req && negb (rq_srv_nonce h =? 0) && negb (rq_srv_nonce h =? s_nonce s)
    then s' = s /\ forall k, net k acts = 0
    else forall k, net k acts =
           held (rq_clt_nonce h) k (s_conns s') - held (rq_clt_nonce h) k (s_conns s)
           - (if decide (c = k) then 1 else 0).
Proof.
  intros E. unfold dispatch in E. rinv E. destruct a as [h req]. exists h, req. split; [done|].
  destruct (u_ok req); cbn [negb andb] in *.
  2: { injection E as <- <-. intros k. cbn. lia. }
  destruct (negb (rq_srv_nonce h =? 0) && negb (rq_srv_nonce h =? s_nonce s)).
  { rinv E. destruct a as [data m]. injection E as <- <-. done. }
  destruct (s_procs s !! rq_proc h) as [f|].
  2: { injection E as <- <-. intros k. cbn. lia. }
  destruct (negb (rq_clt_nonce h =? 0)).
  2: { apply run_new_net in E as [-> Hn]. intros k. rewrite Hn. lia. }
  set (s1 := match s_reply_window s !! rq_clt_nonce h with Some _ => s | None => _ end) in E.
  assert (Hs1 : s_conns s1 = s_conns s) by (subst s1; by destruct (s_reply_window s !! _)).
  destruct (remember cmp (rq_clt_nonce h) c (s_conns s1)) as [acts1 conns1] eqn:Er.
  rewrite Hs1 in Er. pose proof (remember_net _ _ _ _ _ _ Er) as Hr.
  rinv E. destruct a as [[stat sv] rw]. destruct stat.
  - rinv E. destruct a as [acts2 s2]. injection E as <- <-.
    apply run_new_net in E2 as [-> Hn]. intros k. rewrite net_app, Hr, Hn. cbn. lia.
  - injection E as <- <-. intros k. rewrite net_app, Hr. cbn. lia.
  - destruct sv as [[b1 sz1]|]; [|discriminate]. injection E as <- <-.
    intros k. rewrite net_app, Hr. cbn. lia.
  - rinv E. destruct a as [data m]. injection E as <- <-. intros k. rewrite net_app, Hr. cbn. lia.
Qed.

End dispatch.

(** A request for server instance 5 reaches instance 9. *)
Lemma dispatch_refs_witness :
  let buf := str "            " ++ [Z_byte 0; Z_byte 0; Z_byte 0; Z_byte 7; Z_byte 0; Z_byte 0; Z_byte 0; Z_byte 5]
             ++ replicate 4 (Z_byte 0) in
  let s : rpcs unit := Rpcs 9 ∅ ∅ 0 0 ∅ true ∅ tt in
  exists acts, dispatch (fun _ _ => 0) (fun _ => false) 1%positive buf 24 s = Ret (acts, s) /\
    forall k, net k acts = 0.
Proof.
  intros buf s.
  destruct (dispatch (fun _ _ => 0) (fun _ => false) 1%positive buf 24 s) as [[acts s']|] eqn:E;
    [|vm_compute in E; discriminate].
  destruct (dispatch_refs _ _ _ _ _ _ _ _ E) as (h & req & Eu & H).
  assert (Hc : (u_ok req && negb (rq_srv_nonce h =? 0) && negb (rq_srv_nonce h =? s_nonce s)) = true).
  { vm_compute in Eu. injection Eu as <- <-. reflexivity. }
  rewrite Hc in H. destruct H as [-> H]. exists acts. split; [reflexivity|exact H].
Defined.
