(* ===== verification/RpcClient.v ===== *)
(** * The RPC client endpoint rpcc (rpc/rpc.cc, rpc/rpc.h)

    Binding, the critical sections of [call1], reply delivery, the
    reply-acknowledgement window and the [call] templates. *)

From Stdlib Require Import ZArith Lia Sorted.
From stdpp Require Import base list gmap.
From S2P Require Import Prelude Marshall RpcServer.

#[local] Open Scope Z_scope.

(** struct caller: one outstanding call. *)
Record caller := Caller {
  ca_un : unmarshall;  (* *un, the caller's reply object *)
  ca_intret : Z;
  ca_done : bool
}.

(** struct request: a request kept for duplication in lossy tests. *)
Record request := RequestBuf { rq_buf : list cell; rq_id : Z }.
Definition request_clear : request := RequestBuf [] (-1).
Definition isvalid (r : request) : bool := negb (rq_id r =? -1).

Record rpcc := Rpcc {
  c_clt_nonce : Z;
  c_srv_nonce : Z;
  c_bind_done : bool;
  c_xid : Z;
  c_lossytest : Z;
  c_retrans : bool;
  c_reachable : bool;
  c_destroy_wait : bool;
  c_calls : gmap Z caller;
  c_xid_rep_window : list Z;
  c_dup_req : request;
  c_xid_rep_done : Z
}.

(** The constructor; [nonce] is the value random() returned. *)
Definition rpcc_new (retrans : bool) (nonce lossy : Z) : rpcc :=
  Rpcc (if retrans then u32 nonce else 0) 0 false 1 lossy retrans true false ∅ [0]
    request_clear (-1).

Definition set_calls (m : gmap Z caller) (c : rpcc) : rpcc :=
  Rpcc (c_clt_nonce c) (c_srv_nonce c) (c_bind_done c) (c_xid c) (c_lossytest c) (c_retrans c)
    (c_reachable c) (c_destroy_wait c) m (c_xid_rep_window c) (c_dup_req c) (c_xid_rep_done c).
Definition set_rep_window (w : list Z) (c : rpcc) : rpcc :=
  Rpcc (c_clt_nonce c) (c_srv_nonce c) (c_bind_done c) (c_xid c) (c_lossytest c) (c_retrans c)
    (c_reachable c) (c_destroy_wait c) (c_calls c) w (c_dup_req c) (c_xid_rep_done c).
Definition set_dup (d : request) (done : Z) (c : rpcc) : rpcc :=
  Rpcc (c_clt_nonce c) (c_srv_nonce c) (c_bind_done c) (c_xid c) (c_lossytest c) (c_retrans c)
    (c_reachable c) (c_destroy_wait c) (c_calls c) (c_xid_rep_window c) d done.
Definition set_xid (x : Z) (c : rpcc) : rpcc :=
  Rpcc (c_clt_nonce c) (c_srv_nonce c) (c_bind_done c) x (c_lossytest c) (c_retrans c)
    (c_reachable c) (c_destroy_wait c) (c_calls c) (c_xid_rep_window c) (c_dup_req c) (c_xid_rep_done c).
Definition set_bound (nonce : Z) (c : rpcc) : rpcc :=
  Rpcc (c_clt_nonce c) nonce true (c_xid c) (c_lossytest c) (c_retrans c)
    (c_reachable c) (c_destroy_wait c) (c_calls c) (c_xid_rep_window c) (c_dup_req c) (c_xid_rep_done c).
Definition set_destroy_wait (b : bool) (c : rpcc) : rpcc :=
  Rpcc (c_clt_nonce c) (c_srv_nonce c) (c_bind_done c) (c_xid c) (c_lossytest c) (c_retrans c)
    (c_reachable c) b (c_calls c) (c_xid_rep_window c) (c_dup_req c) (c_xid_rep_done c).
Definition set_reachable (r : bool) (c : rpcc) : rpcc :=
  Rpcc (c_clt_nonce c) (c_srv_nonce c) (c_bind_done c) (c_xid c) (c_lossytest c) (c_retrans c)
    r (c_destroy_wait c) (c_calls c) (c_xid_rep_window c) (c_dup_req c) (c_xid_rep_done c).

(** ** update_xid_rep *)

(** Insert before the first larger element, else push_back. *)
Fixpoint insert_xid (x : Z) (l : list Z) : list Z :=
  match l with
  | [] => [x]
  | y :: l => if y >? x then x :: y :: l else y :: insert_xid x l
  end.

(** [while (front + 1 == *it) pop_front()], with [pre] the elements from
    the front up to, not including, [it]; once they are all popped the
    front is [*it] itself. *)
Fixpoint pop_before (it : Z) (pre : list Z) : list Z :=
  match pre with
  | [] => []
  | f :: pre' => if u32 (f + 1) =? it then pop_before it pre' else pre
  end.

(** The compress loop: [it] walks over the elements after the front. *)
Fixpoint compress (pre l : list Z) : list Z :=
  match l with
  | [] => pre
  | it :: l => compress (pop_before it pre ++ [it]) l
  end.

Definition update_xid_rep (x : Z) (w : list Z) : res (list Z) :=
  match w with
  | [] => Crash Undefined (* front() of an empty list *)
  | f :: _ =>
      if x <=? f then Ret w
      else match insert_xid x w with
           | [] => Crash Undefined
           | g :: l => Ret (compress [g] l)
           end
  end.

(** ** call1 *)

Inductive started :=
| Refused (ret : Z)
| Started (xid xid_rep : Z) (req : marshall) (c : rpcc).

(** The first critical section: checks, a fresh xid, the request header. *)
Definition call1_start (proc : Z) (req : marshall) (c : rpcc) : res started :=
  if (negb (proc =? rpc_const.bind) && negb (c_bind_done c))
     || ((proc =? rpc_const.bind) && c_bind_done c)
  then Ret (Refused rpc_const.bind_failure)
  else if c_destroy_wait c then Ret (Refused rpc_const.cancel_failure)
  else
    match c_xid_rep_window c with
    | [] => Crash Undefined
    | front :: _ =>
        let xid := c_xid c in
        let c := set_xid (u32 (xid + 1)) c in
        let c := set_calls (<[i32 xid := Caller unmarshall_new 0 false]> (c_calls c)) c in
        req ← pack_req_header (ReqHeader (i32 xid) (i32 proc) (c_clt_nonce c) (c_srv_nonce c) (i32 front)) req;
        Ret (Started xid front req c)
    end.

(** The transmission: in lossy tests an old request is replayed before
    the new one once its reply is known to be acknowledged. *)
Definition call1_transmit (req : marshall) (c : rpcc) : list (list cell) * rpcc :=
  if c_reachable c then
    if isvalid (c_dup_req c) && (c_xid_rep_done c >? rq_id (c_dup_req c))
    then ([rq_buf (c_dup_req c); sent req], set_dup request_clear (c_xid_rep_done c) c)
    else ([sent req], c)
  else ([], c).

(** While it is unreachable a client sends nothing and keeps its old
    request. *)
Lemma unreachable_sends req c : call1_transmit req (set_reachable false c) = ([], set_reachable false c).
Proof. done. Qed.

(** The last critical sections: forget the call, acknowledge it, and in
    lossy tests keep the request for later duplication. *)
Definition call1_finish (xid xid_rep : Z) (req : marshall) (c : rpcc) : res (Z * unmarshall * rpcc) :=
  match c_calls c !! i32 xid with
  | None => Crash Undefined
  | Some ca =>
      let c := set_calls (delete (i32 xid) (c_calls c)) c in
      w ← update_xid_rep xid (c_xid_rep_window c);
      let c := set_rep_window w c in
      let c :=
        if ca_done ca && negb (c_lossytest c =? 0) then
          let d := if isvalid (c_dup_req c) then c_dup_req c else RequestBuf (sent req) (i32 xid) in
          let done := if i32 xid_rep >? c_xid_rep_done c then i32 xid_rep else c_xid_rep_done c in
          set_dup d done c
        else c in
      Ret (if ca_done ca then ca_intret ca else rpc_const.timeout_failure, ca_un ca, c)
  end.

(** got_pdu: hand a reply to the caller that waits for its xid. *)
Definition got_pdu (b : bytes) (sz : Z) (c : rpcc) : res rpcc :=
  '(h, rep) ← unpack_reply_header (unmarshall_buf b sz);
  if negb (u_ok rep) then Ret c
  else
    w ← update_xid_rep (u32 (rp_xid h)) (c_xid_rep_window c);
    let c := set_rep_window w c in
    match c_calls c !! rp_xid h with
    | None => Ret c
    | Some ca =>
        let ca := if negb (ca_done ca)
                  then Caller (take_in (ca_un ca) rep).1 (rp_ret h) true
                  else ca in
        Ret (set_calls (<[rp_xid h := ca]> (c_calls c)) c)
    end.

(** cancel, up to the wait: every outstanding call fails. *)
Definition cancel (c : rpcc) : rpcc :=
  let c := set_calls ((fun ca => Caller (ca_un ca) rpc_const.cancel_failure true) <$> c_calls c) c in
  if bool_decide (c_calls c = ∅) then c else set_destroy_wait true c.

(** call_m after call1 returned [intret] and the reply object [u]. *)
Definition call_m {R} (wr : wire R) (r : R) (intret : Z) (u : unmarshall) : res (Z * R) :=
  if intret <? 0 then Ret (intret, r)
  else
    '(r, u) ← w_get wr r u;
    if okdone u then Ret (intret, r) else Ret (rpc_const.unmarshal_reply_failure, r).

(** The call templates: marshall the one to seven arguments in order. *)
Definition call_request {A} (wa : wire A) (a : A) : res marshall := w_put wa a marshall_new.

(** bind after its call returned. *)
Definition bind_done (ret r : Z) (c : rpcc) : rpcc :=
  if ret =? 0 then set_bound (u32 r) c else c.

(** ** The channel *)

(** get_refconn: chan_ is replaced when it is dead, and [ch] becomes a
    reference to it; [new] is the result of connect_to_dst, whose object
    starts with one reference, chan_'s. *)
Definition get_refconn (dead : conn -> bool) (new chan ch : option conn)
  : list action * option conn * option conn :=
  let '(acts, chan) :=
    match chan with
    | Some c => if dead c then ([Decref c], new) else ([], chan)
    | None => ([], new)
    end in
  match chan with
  | Some c => (acts ++ match ch with Some o => [Decref o] | None => [] end ++ [Incref c], chan, Some c)
  | None => (acts, chan, ch)
  end.

(** The transmissions of one call1, each with what get_refconn met, and
    the release of [ch] at its end. *)
Fixpoint call1_channel (ts : list ((conn -> bool) * option conn)) (chan ch : option conn)
  : list action * option conn :=
  match ts with
  | [] => (match ch with Some o => [Decref o] | None => [] end, chan)
  | (dead, new) :: ts =>
      let '(a1, chan, ch) := get_refconn dead new chan ch in
      let '(a2, chan) := call1_channel ts chan ch in
      (a1 ++ a2, chan)
  end.

(** Whether get_refconn calls connect_to_dst. *)
Definition reconnects (dead : conn -> bool) (chan : option conn) : bool :=
  match chan with Some c => dead c | None => true end.

(** The connections made on the way. *)
Fixpoint connected (ts : list ((conn -> bool) * option conn)) (chan ch : option conn) : list conn :=
  match ts with
  | [] => []
  | (dead, new) :: ts =>
      let '(_, chan', ch') := get_refconn dead new chan ch in
      (if reconnects dead chan then match new with Some c => [c] | None => [] end else [])
        ++ connected ts chan' ch'
  end.

(** ** The acknowledgement window *)

(** The xids the window says are answered: everything up to the front,
    and the elements themselves. *)
Definition acked (w : list Z) (y : Z) : Prop := y <= hd 0 w \/ y ∈ w.

(** Non-empty, ordered, below the wrap of [unsigned int], and compressed:
    the successor of the front is not in it. *)
Record rep_window_ok (w : list Z) : Prop := RepWindowOk {
  rw_nonempty : w <> [];
  rw_sorted : StronglySorted Z.le w;
  rw_range : Forall (fun y => 0 <= y < 2 ^ 32 - 1) w;
  rw_compressed : hd 0 w + 1 ∉ w
}.

Lemma insert_xid_elem x l y : y ∈ insert_xid x l <-> y = x \/ y ∈ l.
Proof.
  induction l as [|z l IH]; cbn.
  - rewrite list_elem_of_singleton. split; [by left|intros [?|H]; [done|by apply not_elem_of_nil in H]].
  - destruct (z >? x); rewrite !elem_of_cons, ?IH; tauto.
Qed.

Lemma insert_xid_sorted x l : StronglySorted Z.le l -> StronglySorted Z.le (insert_xid x l).
Proof.
  induction 1 as [|y l Hs IH Hall]; cbn; [repeat constructor|].
  rewrite Z.gtb_ltb. bcase.
  - constructor; [by constructor|]. constructor; [lia|].
    eapply Forall_impl; [exact Hall|]. intros z Hz; lia.
  - constructor; [done|]. apply Forall_forall. intros z Hz. apply insert_xid_elem in Hz as [->|Hz]; [lia|].
    rewrite Forall_forall in Hall. auto.
Qed.

Lemma insert_xid_front x f l : f < x -> exists l', insert_xid x (f :: l) = f :: l'.
Proof. intros. cbn. rewrite Z.gtb_ltb. bcase. eauto. Qed.

(** Either every element before [it] is popped, or none is. *)
Lemma pop_before_spec it f p :
  Forall (fun y => 0 <= y < 2 ^ 32 - 1) (f :: p) ->
  (forall y, y ∈ f :: p -> f <= y <= it) -> f + 1 ∉ f :: p ->
  pop_before it (f :: p) = if it =? f + 1 then [] else f :: p.
Proof.
  intros Hr Hb Hn.
  assert (Hu : forall y, y ∈ f :: p -> u32 (y + 1) = y + 1).
  { intros y Hy. rewrite Forall_forall in Hr. specialize (Hr y Hy). apply u32_small. unfold is_u32. lia. }
  destruct (Z.eqb_spec it (f + 1)) as [->|Hne].
  - assert (Hall : forall q, (forall y, y ∈ q -> y = f) -> pop_before (f + 1) q = []).
    { induction q as [|z q IH]; intros Hq; [done|]. cbn. rewrite (Hq z) by (by left).
      rewrite Hu, Z.eqb_refl by (by left). apply IH. intros y Hy. apply Hq. by right. }
    apply Hall. intros y Hy. specialize (Hb y Hy).
    destruct (Z.eq_dec y (f + 1)) as [->|]; [done|lia].
  - cbn. rewrite Hu by (by left). bcase. done.
Qed.

Lemma sorted_app_le (l1 l2 : list Z) y z :
  StronglySorted Z.le (l1 ++ l2) -> y ∈ l1 -> z ∈ l2 -> y <= z.
Proof.
  induction l1 as [|c l1 IH]; cbn; intros Hs Hy Hz; [by apply not_elem_of_nil in Hy|].
  inversion Hs as [|? ? Hs' Hall]; subst. apply elem_of_cons in Hy as [->|Hy]; [|auto].
  rewrite Forall_forall in Hall. apply Hall. apply elem_of_app. by right.
Qed.

Lemma sorted_app_r (l1 l2 : list Z) : StronglySorted Z.le (l1 ++ l2) -> StronglySorted Z.le l2.
Proof. induction l1; cbn; [done|]. intros H. inversion H; auto. Qed.

(** The compress loop keeps a sorted window meaning the same xids. *)
Lemma compress_spec f p l :
  StronglySorted Z.le ((f :: p) ++ l) ->
  Forall (fun y => 0 <= y < 2 ^ 32 - 1) ((f :: p) ++ l) -> f + 1 ∉ f :: p ->
  rep_window_ok (compress (f :: p) l) /\
  (forall y, acked (compress (f :: p) l) y <-> acked ((f :: p) ++ l) y).
Proof.
  revert f p. induction l as [|it l IH]; intros f p Hs Hr Hn.
  - rewrite app_nil_r in *. split; [by split|done].
  - cbn [compress].
    assert (Hfp : Forall (fun y => 0 <= y < 2 ^ 32 - 1) (f :: p)) by (by apply Forall_app in Hr as [Hr _]).
    assert (Hmin : forall y, y ∈ (f :: p) ++ it :: l -> f <= y).
    { intros y Hy. inversion Hs as [|? ? _ Hall]; subst. cbn in Hy.
      apply elem_of_cons in Hy as [->|Hy]; [lia|]. rewrite Forall_forall in Hall. auto. }
    rewrite pop_before_spec; [|done| |done].
    + destruct (Z.eqb_spec it (f + 1)) as [->|Hne]; cbn [app].
      * destruct (IH (f + 1) []) as [Hok Hac].
        -- apply sorted_app_r in Hs. exact Hs.
        -- apply Forall_app in Hr as [_ Hr]. exact Hr.
        -- intros H. apply list_elem_of_singleton in H. lia.
        -- split; [done|]. intros y. rewrite Hac. unfold acked. cbn [hd app].
           rewrite !elem_of_cons, elem_of_app, elem_of_cons. split.
           ++ intros [Hy|[Hy|Hy]]; [|tauto..]. destruct (Z.le_gt_cases y f); [tauto|].
              assert (y = f + 1) by lia. tauto.
           ++ intros [Hy|[->|[Hy|[->|Hy]]]]; try tauto; try (left; lia).
              left. assert (y <= f + 1); [|done].
              apply (sorted_app_le (f :: p) (f + 1 :: l)); [done|by right|by left].
      * specialize (IH f (p ++ [it])). cbn [app] in IH. rewrite <- app_assoc in IH.
        apply IH; [done|done|].
        rewrite elem_of_cons, elem_of_app, list_elem_of_singleton. intros [?|[?|?]]; try lia.
        apply Hn. by right.
    + intros y Hy. split; [apply Hmin, elem_of_app; by left|].
      apply (sorted_app_le (f :: p) (it :: l)); [done|done|by left].
Qed.

Lemma update_xid_rep_ok (x : Z) (w : list Z) :
  rep_window_ok w -> 0 <= x < 2 ^ 32 - 1 ->
  exists w', update_xid_rep x w = Ret w' /\ rep_window_ok w' /\
    (forall y, acked w' y <-> acked w y \/ y = x) /\
    ~ acked w' (hd 0 w' + 1).
Proof.
  intros Hw Hx.
  assert (Hmax : forall v, rep_window_ok v -> ~ acked v (hd 0 v + 1)).
  { intros v Hv [?|?]; [lia|]. by apply (rw_compressed v Hv). }
  destruct Hw as [Hne Hs Hr Hc]. destruct w as [|f l]; [done|].
  unfold update_xid_rep. destruct (Z.leb_spec x f).
  - exists (f :: l). split; [done|]. assert (Hok : rep_window_ok (f :: l)) by (by split).
    split; [done|]. split; [|auto]. intros y. unfold acked. cbn. split; [tauto|]. intros [?| ->]; tauto.
  - destruct (insert_xid_front x f l) as [l' El]; [lia|].
    pose proof (insert_xid_sorted x (f :: l) Hs) as Hs'.
    assert (Hel : forall y, y ∈ f :: l' <-> y = x \/ y ∈ f :: l)
      by (intros y; rewrite <- El; apply insert_xid_elem).
    rewrite El in Hs' |- *.
    destruct (compress_spec f [] l') as [Hok Hac].
    + exact Hs'.
    + apply Forall_forall. intros y Hy. apply Hel in Hy as [->|Hy]; [lia|].
      rewrite Forall_forall in Hr. auto.
    + intros H1. apply list_elem_of_singleton in H1. lia.
    + eexists. split; [done|]. split; [done|]. split; [|auto].
      intros y. rewrite Hac. unfold acked. cbn [app hd]. rewrite Hel. tauto.
Qed.

(** ** Theorems *)

(** C15: update_xid_rep keeps the window well formed and makes exactly
    one more xid acknowledged; so the xid_rep a client sends, the front
    of its window, is the largest number up to which every call has been
    answered, in whatever order and however often replies arrive. *)
Theorem update_xid_rep_spec (x : Z) (w : list Z) :
  rep_window_ok w -> 0 <= x < 2 ^ 32 - 1 ->
  exists w', update_xid_rep x w = Ret w' /\ rep_window_ok w' /\
    (forall y, acked w' y <-> acked w y \/ y = x) /\
    ~ acked w' (hd 0 w' + 1).
Proof. apply update_xid_rep_ok. Qed.

Lemma update_xid_rep_spec_witness :
  exists w', update_xid_rep 1 [0; 2; 2; 3] = Ret w' /\ rep_window_ok w' /\
    (forall y, acked w' y <-> acked [0; 2; 2; 3] y \/ y = 1) /\ ~ acked w' (hd 0 w' + 1).
Proof.
  apply (update_xid_rep_spec 1 [0; 2; 2; 3]); [|lia]. split.
  - done.
  - repeat (constructor; [|repeat (constructor; [lia|]); constructor]). constructor.
  - repeat (constructor; [lia|]). constructor.
  - rewrite !elem_of_cons. cbn. intros [?|[?|[?|[?|H]]]]; try lia. by apply not_elem_of_nil in H.
Defined.

(** ** References of the client *)

Definition refs_to (k : conn) (o : option conn) : Z := if decide (o = Some k) then 1 else 0.
Definition made (k : conn) (l : list conn) : Z := lenZ (filter (fun c => c = k) l).

Lemma get_refconn_net dead new chan ch acts chan' ch' :
  get_refconn dead new chan ch = (acts, chan', ch') ->
  forall k, net k acts = refs_to k chan' - refs_to k chan + (refs_to k ch' - refs_to k ch)
    - (if reconnects dead chan then refs_to k new else 0).
Proof.
  unfold get_refconn, reconnects, refs_to. intros E k.
  destruct chan as [c|]; [destruct (dead c)|]; destruct new as [n|]; destruct ch as [o|]; injection E as <- <- <-;
    cbn; repeat case_decide; simplify_eq; lia.
Qed.

Lemma made_app k l1 l2 : made k (l1 ++ l2) = made k l1 + made k l2.
Proof. unfold made. rewrite filter_app, length_app. lia. Qed.

Lemma made_option k o : made k (match o with Some c => [c] | None => [] end) = refs_to k o.
Proof.
  destruct o as [c|]; unfold made, refs_to; [|done]. rewrite filter_cons. cbn.
  repeat case_decide; simplify_eq; done.
Qed.

(** A call takes and drops references to connections exactly: over all
    its transmissions, reconnections and failed reconnections, each
    connection's count changes by what chan_ gained or lost, less the one
    reference a connection made on the way was born with; nothing is left
    over from the call itself. *)
Theorem call1_refs (ts : list ((conn -> bool) * option conn)) (chan : option conn) (k : conn) :
  net k (call1_channel ts chan None).1 =
    refs_to k (call1_channel ts chan None).2 - refs_to k chan - made k (connected ts chan None).
Proof.
  enough (H : forall ch, net k (call1_channel ts chan ch).1 =
    refs_to k (call1_channel ts chan ch).2 - refs_to k chan - refs_to k ch - made k (connected ts chan ch)).
  { rewrite H. change (refs_to k None) with 0. lia. }
  revert chan. induction ts as [|[dead new] ts IH]; intros chan ch.
  - unfold refs_to. destruct ch as [o|]; cbn; unfold made; cbn; repeat case_decide; simplify_eq; lia.
  - cbn [call1_channel connected]. destruct (get_refconn dead new chan ch) as [[a1 chan'] ch'] eqn:E.
    specialize (IH chan' ch'). destruct (call1_channel ts chan' ch') as [a2 chan2]. cbn [fst snd] in *.
    rewrite net_app, IH, made_app. rewrite (get_refconn_net _ _ _ _ _ _ _ E k).
    destruct (reconnects dead chan); [rewrite made_option|]; unfold made; cbn; lia.
Qed.
