(* ===== verification/Rpc.v ===== *)
(** * Remote procedure calls end to end

    One call of rpcc::call over a working connection: the client half of
    RpcClient.v, a delivery of the request, dispatch on the server, a
    delivery of the reply, and the client's decoding. *)

From Stdlib Require Import ZArith Lia.
From stdpp Require Import base list gmap.
From S2P Require Import Prelude Marshall ReplyWindow RpcServer RpcClient.

#[local] Open Scope Z_scope.

(** ** One call with any handler

    The client marshals arguments of type [A] and expects a result of type
    [R]; the handler registered under [proc] is arbitrary. *)
Section call.
Context {W A R : Type} (wa : wire A) (wr : wire R) `{!WireOk wa}.
Context (f : handler W) (proc : Z).

(** The client can make a call to this server instance. *)
Record client_live (c : rpcc) (nonce : Z) : Prop := ClientLive {
  cl_live : c_destroy_wait c = false;
  cl_nonce : is_u32 (c_clt_nonce c) /\ c_clt_nonce c <> 0;
  cl_srv : is_u32 (c_srv_nonce c) /\ (c_srv_nonce c = 0 \/ c_srv_nonce c = nonce);
  cl_xid : 0 < c_xid c < 2 ^ 31;
  cl_window : rep_window_ok (c_xid_rep_window c);
  cl_front : hd 0 (c_xid_rep_window c) < 2 ^ 31
}.

(** It is bound, too. *)
Record client_ready (c : rpcc) (nonce : Z) : Prop := ClientReady {
  cr_bound : c_bind_done c = true;
  cr_live : client_live c nonce
}.

(** The server has the handler registered and has only seen earlier xids
    of this client. *)
Record server_has (s : rpcs W) (clt xid : Z) : Prop := ServerHas {
  sh_proc : s_procs s !! proc = Some f;
  sh_window : exists seen, orderly seen (default [] (s_reply_window s !! clt)) /\
    forall y, y ∈ seen -> y < xid
}.

Lemma call1_start_ok a c nonce :
  client_live c nonce -> c_bind_done c = negb (proc =? rpc_const.bind) ->
  w_range wa a -> lenZ (w_image wa a) <= MAX_PAYLOAD -> is_i32 proc ->
  exists m req c1, call_request wa a = Ret m /\
    call1_start proc m c = Ret (Started (c_xid c) (hd 0 (c_xid_rep_window c)) req c1) /\
    holds req (req_header_cells (replicate 24 None)
      (ReqHeader (c_xid c) proc (c_clt_nonce c) (c_srv_nonce c) (hd 0 (c_xid_rep_window c))))
      (w_image wa a) /\
    c1 = set_calls (<[c_xid c := Caller unmarshall_new 0 false]> (c_calls c)) (set_xid (c_xid c + 1) c).
Proof.
  intros Hc Hb Hr Hs Hpr. pose proof sizes.
  destruct (put_ok _ _ _ a marshall_new_holds Hr) as (m & Em & Hm); [cbn; lia|].
  cbn [app] in Hm. destruct Hc as [Hl Hn Hsv Hx Hw Hf].
  destruct (c_xid_rep_window c) as [|x0 l] eqn:Ew; [by apply rw_nonempty in Hw|]. cbn [hd] in *.
  assert (0 <= x0) by (apply (Forall_inv (rw_range _ Hw))).
  assert (i32 (c_xid c) = c_xid c /\ i32 x0 = x0 /\ i32 proc = proc) as (E1 & E2 & E3)
    by (split; [|split]; apply i32_small; unfold is_i32 in *; lia).
  destruct (pack_req_header_holds m _ _
    (ReqHeader (c_xid c) proc (c_clt_nonce c) (c_srv_nonce c) x0) Hm) as (req & Eh & Hreq); [lia|].
  eexists m, req, _. split; [done|]. split; [|split; [exact Hreq|done]].
  unfold call1_start. rewrite Hb, Hl, Ew.
  replace (_ || _) with false by (by destruct (proc =? rpc_const.bind)).
  rewrite E1, E2, E3, u32_small by (unfold is_u32; lia). cbn [c_clt_nonce c_srv_nonce set_calls set_xid].
  rstep Eh. done.
Qed.

(** The handler's side of the call. *)
Lemma run_new_ok dead h u c s b m1 bs w' :
  f u marshall_new (s_app s) = Ret (b, m1, w') -> holds m1 (replicate 24 None) bs ->
  0 <= b \/ b = rpc_const.unmarshal_args_failure -> lenZ bs <= MAX_PAYLOAD -> dead c = false ->
  exists m s', run_new dead h f u c s = Ret ([Send c (sent m); Decref c], s') /\
    holds m (reply_header_cells (replicate 24 None) (ReplyHeader (rq_xid h) b)) bs /\
    s_app s' = w' /\ s_nonce s' = s_nonce s /\ s_procs s' = s_procs s /\ s_conns s' = s_conns s /\
    s_reply_window s' = if rq_clt_nonce h >? 0
      then add_reply (rq_clt_nonce h) (u32 (rq_xid h)) (m_buf m) (m_ind m) (s_reply_window s)
      else s_reply_window s.
Proof.
  intros Ef H1 Hb Hs Hd. pose proof sizes.
  destruct (pack_reply_header_holds _ _ _ (ReplyHeader (rq_xid h) b) H1) as (m2 & E2 & H2); [lia|].
  set (s0 := if negb (s_counting s =? 0) then updatestat (rq_proc h) s else s).
  assert (Hs0 : s_app s0 = s_app s /\ s_nonce s0 = s_nonce s /\ s_procs s0 = s_procs s /\
    s_conns s0 = s_conns s /\ s_reply_window s0 = s_reply_window s)
    by (subst s0; by destruct (negb (s_counting s =? 0))).
  destruct Hs0 as (Ea & En & Ep & Ec & Ew).
  exists m2. eexists. split.
  { unfold run_new. fold s0. rewrite Ea. rstep Ef. unfold verify.
    replace ((0 <=? b) || (b =? rpc_const.unmarshal_args_failure)) with true
      by (destruct Hb as [Hb|Hb]; [by replace (0 <=? b) with true by bcase|subst b; done]).
    rstep E2. cbn [m_take_buf]. rewrite Hd. done. }
  split; [done|]. destruct (rq_clt_nonce h >? 0); cbn; rewrite ?Ew; done.
Qed.

(** dispatch of a first arrival: the handler runs once and its reply goes
    out on the connection. *)
Lemma dispatch_new cmp dead c buf h u s b m1 bs w' :
  unpack_req_header (unmarshall_buf buf (lenZ buf)) = Ret (h, u) -> u_ok u = true ->
  rq_srv_nonce h = 0 \/ rq_srv_nonce h = s_nonce s ->
  rq_proc h = proc -> 0 < rq_clt_nonce h -> 0 < rq_xid h < 2 ^ 31 ->
  server_has s (rq_clt_nonce h) (rq_xid h) ->
  f u marshall_new (s_app s) = Ret (b, m1, w') -> holds m1 (replicate 24 None) bs ->
  0 <= b \/ b = rpc_const.unmarshal_args_failure -> lenZ bs <= MAX_PAYLOAD -> dead c = false ->
  exists m acts s', dispatch cmp dead c buf (lenZ buf) s = Ret (acts ++ [Send c (sent m); Decref c], s') /\
    holds m (reply_header_cells (replicate 24 None) (ReplyHeader (rq_xid h) b)) bs /\
    s_app s' = w' /\ s_nonce s' = s_nonce s /\ s_procs s' = s_procs s /\
    exists l, check_window (rq_xid h) (default [] (s_reply_window s !! rq_clt_nonce h)) = Ret (NEW, None, l) /\
      s_reply_window s' !! rq_clt_nonce h = Some (fill (rq_xid h) (m_buf m) (m_ind m) <$> l).
Proof.
  intros Eu Hok Hsv Hp Hn Hx [Hproc (seen & Ho & Hseen)] Ef H1 Hb Hs Hd.
  destruct (check_fresh seen (rq_xid h) _ Ho ltac:(lia) Hseen) as (l & Ec & _).
  unfold dispatch. rstep Eu. rewrite Hok. cbn [negb].
  replace (negb (rq_srv_nonce h =? 0) && negb (rq_srv_nonce h =? s_nonce s)) with false
    by (destruct Hsv as [->| ->]; [done|rewrite Z.eqb_refl; by rewrite andb_false_r]).
  rewrite Hp, Hproc. destruct (Z.eqb_spec (rq_clt_nonce h) 0); [lia|]. cbn [negb].
  set (cn := rq_clt_nonce h) in *.
  set (s1 := match s_reply_window s !! cn with Some _ => s | None => _ end).
  assert (Hs1 : s_app s1 = s_app s /\ s_nonce s1 = s_nonce s /\ s_procs s1 = s_procs s /\
    default [] (s_reply_window s1 !! cn) = default [] (s_reply_window s !! cn)).
  { subst s1. destruct (s_reply_window s !! cn) eqn:E; cbn; rewrite ?lookup_insert_eq, ?E; done. }
  destruct Hs1 as (Ea & En & Ep & Ew).
  destruct (remember cmp cn c (s_conns s1)) as [acts conns].
  unfold checkduplicate_and_update. cbn [s_reply_window set_conns]. rewrite Ew, u32_small
    by (unfold is_u32; lia). rstep Ec.
  set (s2 := set_window _ _).
  destruct (run_new_ok dead h u c s2 b m1 bs w') as (m & s' & Erun & Hm & Ha' & Hn' & Hp' & _ & Hw');
    try done; [by rewrite <- Ef; unfold s2; cbn; rewrite Ea|].
  rstep Erun. exists m, acts, s'. split; [done|]. split; [done|]. split; [done|].
  split; [by rewrite Hn'|]. split; [by rewrite Hp'|]. exists l. split; [done|].
  rewrite Hw'. destruct (Z.gtb_spec (rq_clt_nonce h) 0); [|subst cn; lia].
  unfold add_reply. fold cn. rewrite lookup_insert_eq. cbn. rewrite lookup_insert_eq.
  rewrite u32_small by (unfold is_u32; lia). done.
Qed.

(** The client's side of the reply. *)
Lemma reply_received c1 x rep req m b bs r r0 b2 :
  c_calls c1 !! x = Some (Caller unmarshall_new 0 false) ->
  rep_window_ok (c_xid_rep_window c1) -> 0 < x < 2 ^ 31 -> is_i32 b -> lenZ bs <= MAX_PAYLOAD ->
  holds m (reply_header_cells (replicate 24 None) (ReplyHeader x b)) bs -> realizes (sent m) b2 ->
  (forall u, ahead u bs -> u_ok u = true -> u_sz u < 2 ^ 31 -> call_m wr r0 b u = Ret (b, r)) ->
  exists c2 u c3, got_pdu b2 (lenZ b2) c1 = Ret c2 /\ call1_finish x rep req c2 = Ret (b, u, c3) /\
    call_m wr r0 b u = Ret (b, r) /\ rep_window_ok (c_xid_rep_window c3) /\
    (forall y, acked (c_xid_rep_window c3) y <-> acked (c_xid_rep_window c1) y \/ y = x) /\
    c_destroy_wait c3 = c_destroy_wait c1 /\ c_clt_nonce c3 = c_clt_nonce c1 /\
    c_srv_nonce c3 = c_srv_nonce c1 /\ c_bind_done c3 = c_bind_done c1 /\ c_xid c3 = c_xid c1.
Proof.
  intros Hc Hw Hx Hib Hs Hm Hre Hcm. pose proof sizes.
  destruct (delivered_reply m _ _ _ b2 Hm eq_refl) as (u1 & Eu & Ha & Hok & Hz);
    [split; cbn; unfold is_i32 in *; [lia|done]|done|].
  destruct (update_xid_rep_ok x _ Hw) as (w1 & E1 & Hw1 & Hac1 & _); [lia|].
  destruct (update_xid_rep_ok x _ Hw1) as (w2 & E2 & Hw2 & Hac2 & _); [lia|].
  destruct (take_in_ahead unmarshall_new u1 _ Ha Hz) as (Ha' & Hok' & Hz').
  eexists _, (take_in unmarshall_new u1).1, _. split.
  { unfold got_pdu. rstep Eu. rewrite Hok. cbn [negb rp_xid rp_ret].
    rewrite u32_small by (unfold is_u32; lia). rstep E1. cbn [c_calls set_rep_window]. rewrite Hc. done. }
  split.
  { unfold call1_finish. cbn [c_calls set_calls]. rewrite i32_small by (unfold is_i32; lia).
    rewrite lookup_insert_eq. cbn [c_xid_rep_window set_calls set_rep_window]. rstep E2. done. }
  split; [apply Hcm; [done|done|lia]|].
  match goal with |- context [if ?q then set_dup _ _ _ else _] => destruct q end; cbn;
    (split; [done|]); (split; [|done]); intros y; rewrite Hac2, Hac1; tauto.
Qed.

(** What a call puts on the wire: the size field is still unwritten, the
    rest of the header and at most [n] bytes of payload follow. *)
Definition pdu_cells (n : Z) (cs : list cell) : Prop :=
  take 4 cs = replicate 4 None /\ 24 <= lenZ cs <= 24 + n.

Lemma holds_pdu_request m h bs n :
  holds m (req_header_cells (replicate 24 None) h) bs -> lenZ bs <= n -> pdu_cells n (sent m).
Proof.
  intros H Hn. rewrite (holds_sent _ _ _ H). split; [done|].
  rewrite length_app, length_fmap. change (length (req_header_cells _ h)) with 24%nat. lia.
Qed.

Lemma holds_pdu_reply m h bs n :
  holds m (reply_header_cells (replicate 24 None) h) bs -> lenZ bs <= n -> pdu_cells n (sent m).
Proof.
  intros H Hn. rewrite (holds_sent _ _ _ H). split; [done|].
  rewrite length_app, length_fmap. change (length (reply_header_cells _ h)) with 24%nat. lia.
Qed.

(** One call, end to end: the client's request reaches dispatch, which
    answers it, and the client decodes the answer; [Q] holds of the status
    and result the client's call returns and of the two ends afterwards.
    [del cs x]: cells [cs] given to a connection can arrive as bytes [x]. *)
Definition call_wp (n : Z) (del : list cell -> bytes -> Prop) (cmp : conn -> conn -> Z) (dead : conn -> bool)
    (k : conn) (c : rpcc) (s : rpcs W) (a : A) (r0 : R) (Q : Z -> R -> rpcc -> rpcs W -> Prop) : Prop :=
  exists m req c1, call_request wa a = Ret m /\
    call1_start proc m c = Ret (Started (c_xid c) (hd 0 (c_xid_rep_window c)) req c1) /\
    pdu_cells n (sent req) /\
  forall b1, del (sent req) b1 ->
  exists acts data s', dispatch cmp dead k b1 (lenZ b1) s = Ret (acts ++ [Send k data; Decref k], s') /\
    pdu_cells n data /\
  forall b2, del data b2 ->
  exists c2 u c3 b r, got_pdu b2 (lenZ b2) c1 = Ret c2 /\
    call1_finish (c_xid c) (hd 0 (c_xid_rep_window c)) req c2 = Ret (b, u, c3) /\
    call_m wr r0 b u = Ret (b, r) /\ Q b r c3 s'.

Lemma call_wp_mono n (del del' : list cell -> bytes -> Prop) cmp dead k c s a r0
    (Q Q' : Z -> R -> rpcc -> rpcs W -> Prop) :
  (forall cs x, pdu_cells n cs -> del' cs x -> del cs x) ->
  (forall b r c s, Q b r c s -> Q' b r c s) ->
  call_wp n del cmp dead k c s a r0 Q -> call_wp n del' cmp dead k c s a r0 Q'.
Proof.
  intros Hd HQ (m & req & c1 & E1 & E2 & Hp & H). exists m, req, c1. do 3 (split; [done|]). intros b1 Hb1.
  destruct (H b1) as (acts & data & s' & E & Hp' & H'); [by apply Hd|].
  exists acts, data, s'. do 2 (split; [done|]). intros b2 Hb2.
  destruct (H' b2) as (c2 & u & c3 & b & r & E3 & E4 & E5 & Hq); [by apply Hd|].
  exists c2, u, c3, b, r. auto.
Qed.

(** The client knows the answer to [x] as well. *)
Definition acked_too (x : Z) (c c' : rpcc) : Prop :=
  forall y, acked (c_xid_rep_window c') y <-> acked (c_xid_rep_window c) y \/ y = x.

(** [b] and [r] are the status and result the client's call returns, [w']
    the service's state; bytes that neither side wrote are arbitrary. *)
Definition call_ends (cmp : conn -> conn -> Z) (dead : conn -> bool) (k : conn)
    (c : rpcc) (s : rpcs W) (a : A) (r0 : R) (b : Z) (r : R) (w' : W) : Prop :=
  call_wp MAX_PAYLOAD realizes cmp dead k c s a r0 (fun b' r' c' s' =>
    b' = b /\ r' = r /\ s_app s' = w' /\ acked_too (c_xid c) c c').

(** What a call leaves as it was, and the next transaction id. *)
Record call_after (c : rpcc) (s : rpcs W) (c' : rpcc) (s' : rpcs W) : Prop := CallAfter {
  af_acked : acked_too (c_xid c) c c';
  af_window : rep_window_ok (c_xid_rep_window c');
  af_live : c_destroy_wait c' = c_destroy_wait c;
  af_nonce : c_clt_nonce c' = c_clt_nonce c;
  af_srv : c_srv_nonce c' = c_srv_nonce c;
  af_bound : c_bind_done c' = c_bind_done c;
  af_xid : c_xid c' = c_xid c + 1;
  af_procs : s_procs s' = s_procs s;
  af_snonce : s_nonce s' = s_nonce s;
  af_seen : forall seen, orderly seen (default [] (s_reply_window s !! c_clt_nonce c)) ->
    (forall y, y ∈ seen -> y < c_xid c) ->
    orderly (c_xid c :: seen) (default [] (s_reply_window s' !! c_clt_nonce c))
}.

Lemma rpc_handler_wp (n : Z) (cmp : conn -> conn -> Z) (dead : conn -> bool) (k : conn)
    (c : rpcc) (s : rpcs W) (a : A) (r r0 : R) (bs : bytes) (b : Z) (w' : W) :
  client_live c (s_nonce s) -> c_bind_done c = negb (proc =? rpc_const.bind) ->
  server_has s (c_clt_nonce c) (c_xid c) -> is_i32 proc -> n <= MAX_PAYLOAD ->
  w_range wa a -> lenZ (w_image wa a) <= n ->
  (forall u, ahead u (w_image wa a) -> u_ok u = true -> u_sz u < 2 ^ 31 ->
     exists m, f u marshall_new (s_app s) = Ret (b, m, w') /\ holds m (replicate 24 None) bs) ->
  is_i32 b -> 0 <= b \/ b = rpc_const.unmarshal_args_failure -> lenZ bs <= n ->
  (forall u, ahead u bs -> u_ok u = true -> u_sz u < 2 ^ 31 -> call_m wr r0 b u = Ret (b, r)) ->
  dead k = false ->
  call_wp n realizes cmp dead k c s a r0 (fun b' r' c' s' =>
    b' = b /\ r' = r /\ s_app s' = w' /\ call_after c s c' s').
Proof.
  intros Hc Hbd Hs Hpr Hmax Hra Hsa Hf Hib Hb Hsr Hcm Hd. pose proof sizes.
  destruct (call1_start_ok a c (s_nonce s) Hc Hbd Hra ltac:(lia) Hpr) as (m & req & c1 & E1 & E2 & Hreq & Ec1).
  exists m, req, c1. split; [done|]. split; [done|].
  split; [by eapply holds_pdu_request|]. intros b1 Hb1.
  destruct Hc as [_ [Hn Hn0] [Hsv Hsv'] Hx Hw Hfr0].
  assert (Hfr : 0 <= hd 0 (c_xid_rep_window c)).
  { destruct (c_xid_rep_window c) as [|x l]; [by apply rw_nonempty in Hw|].
    apply (Forall_inv (rw_range _ Hw)). }
  unfold is_u32 in *.
  destruct (delivered_request req _ _ _ b1 Hreq) as (u & Eu & Ha & Hok & Hz); [|done|].
  { unfold req_header_ok, is_i32, is_u32 in *. cbn. lia. }
  destruct (Hf u Ha Hok ltac:(lia)) as (m1 & Ef & H1).
  destruct (dispatch_new cmp dead k b1 _ u s b m1 bs w' Eu) as (m2 & acts & s' & Ed & Hm2 & Ha' & Hn' & Hp' & l & El & Hl);
    cbn [rq_srv_nonce rq_proc rq_clt_nonce rq_xid]; try done; try lia.
  exists acts, (sent m2), s'. split; [done|].
  split; [by eapply holds_pdu_reply|]. intros b2 Hb2.
  assert (Hc1 : c_xid_rep_window c1 = c_xid_rep_window c /\ c_calls c1 !! c_xid c = Some (Caller unmarshall_new 0 false))
    by (subst c1; cbn; split; [done|apply lookup_insert_eq]).
  destruct Hc1 as [Hw1 Hca].
  destruct (reply_received c1 (c_xid c) (hd 0 (c_xid_rep_window c)) req m2 b bs r r0 b2)
    as (c2 & u2 & c3 & E3 & E4 & E5 & Hw3 & Hac & F1 & F2 & F3 & F4 & F5); try done; [by rewrite Hw1|lia|].
  exists c2, u2, c3, b, r. do 3 (split; [done|]). do 3 (split; [done|]).
  rewrite Hw1 in Hac. subst c1. split; try done.
  intros seen Ho Hseen. cbn [rq_clt_nonce rq_xid] in Hl, El. rewrite Hl. cbn [default].
  destruct (check_fresh seen (c_xid c) _ Ho ltac:(lia) Hseen) as (l' & El' & Ho' & _).
  rewrite El in El'. injection El' as <-. by apply orderly_answer.
Qed.

(** A handler that finds the wrong number of bytes rejects the call: the
    client's call returns unmarshal_args_failure, its result object is
    left alone and the service does not run. *)
Lemma rpc_rejected_wp (n : Z) (cmp : conn -> conn -> Z) (dead : conn -> bool) (k : conn)
    (c : rpcc) (s : rpcs W) (a : A) (r0 : R) :
  client_live c (s_nonce s) -> c_bind_done c = negb (proc =? rpc_const.bind) ->
  server_has s (c_clt_nonce c) (c_xid c) -> is_i32 proc -> 0 <= n <= MAX_PAYLOAD ->
  w_range wa a -> lenZ (w_image wa a) <= n ->
  (forall u, ahead u (w_image wa a) -> u_ok u = true -> u_sz u < 2 ^ 31 ->
     f u marshall_new (s_app s) = Ret (rpc_const.unmarshal_args_failure, marshall_new, s_app s)) ->
  dead k = false ->
  call_wp n realizes cmp dead k c s a r0 (fun b' r' c' s' =>
    b' = rpc_const.unmarshal_args_failure /\ r' = r0 /\ s_app s' = s_app s /\ call_after c s c' s').
Proof.
  intros Hc Hbd Hs Hpr Hn Hra Hsa Hf Hd.
  apply (rpc_handler_wp n cmp dead k c s a r0 r0 [] rpc_const.unmarshal_args_failure (s_app s));
    try done; try lia; [|cbn; lia].
  intros u Ha Hok Hz. exists marshall_new. split; [by apply Hf|apply marshall_new_holds].
Qed.

End call.

(** ** Registration, and arguments that do not fit *)

Lemma reg1_ok {W} proc (f : handler W) s :
  is_i32 proc -> s_procs s !! proc = None ->
  exists s', reg1 proc f s = Ret s' /\ s_nonce s' = s_nonce s /\ s_reply_window s' = s_reply_window s /\
    s_app s' = s_app s /\
    forall p, s_procs s' !! p = if decide (p = proc) then Some f else s_procs s !! p.
Proof.
  intros Hp Hf. eexists. split; [unfold reg1; rewrite i32_small by done; unfold verify; rewrite bool_decide_true by done; done|].
  do 3 (split; [done|]). intros p. cbn [s_procs]. case_decide; [subst; apply lookup_insert_eq|by apply lookup_insert_ne].
Qed.

(** Bytes left over: the handler does not run its method. *)
Lemma h1_leftover {W A R} (wa : wire A) (wr : wire R) `{!WireOk wa} (meth : method W A R) a0 a u m w (l : bytes) :
  ahead u (w_image wa a ++ l) -> u_ok u = true -> u_sz u < 2 ^ 31 -> w_range wa a -> l <> [] ->
  h1 wa wr a0 meth u m w = Ret (rpc_const.unmarshal_args_failure, m, w).
Proof.
  intros Ha Hok Hz Hr Hl. unfold h1. pose proof (get_ok u l a0 a Ha Hok Hz Hr) as Eg. rstep Eg.
  pose proof (advance_ahead u _ l Ha) as Hb. apply ahead_bound in Hb as [Hb _].
  assert (0 < lenZ l) by (destruct l; [done|cbn; lia]).
  unfold okdone. destruct (Z.eqb_spec (u_ind (advance (lenZ (w_image wa a)) u)) (u_sz (advance (lenZ (w_image wa a)) u)));
    [lia|]. by rewrite andb_false_r.
Qed.

(** ** Calls of a registered method *)
Section method_call.
Context {W A R : Type} (wa : wire A) (wr : wire R) `{!WireOk wa, !WireOk wr}.
Context (meth : method W A R) (proc : Z).

(** The server has the method registered and has only seen earlier xids
    of this client. *)
Record server_ready (s : rpcs W) (clt xid : Z) (a0 : A) : Prop := ServerReady {
  sr_proc : s_procs s !! proc = Some (h1 wa wr a0 meth);
  sr_window : exists seen, orderly seen (default [] (s_reply_window s !! clt)) /\
    forall y, y ∈ seen -> y < xid
}.

Lemma ready_has s clt xid a0 :
  server_ready s clt xid a0 -> server_has (h1 wa wr a0 meth) proc s clt xid.
Proof. intros [H1 H2]. by split. Qed.

(** The handler of a method runs it on the arguments it was sent. *)
Lemma h1_runs a0 a u w b r w' :
  ahead u (w_image wa a) -> u_ok u = true -> u_sz u < 2 ^ 31 -> w_range wa a ->
  meth a w = Ret (b, r, w') -> w_range wr r -> lenZ (w_image wr r) <= MAX_PAYLOAD ->
  exists m, h1 wa wr a0 meth u marshall_new w = Ret (b, m, w') /\ holds m (replicate 24 None) (w_image wr r).
Proof.
  intros Ha Hok Hz Hr Em Hrr Hs. destruct (get_arguments wa u a0 a Ha Hok Hz Hr) as (u' & Eg & Hdone).
  destruct (put_ok _ _ _ r marshall_new_holds Hrr) as (m1 & E1 & H1); [cbn; lia|]. exists m1. split; [|done].
  unfold h1. rstep Eg. rewrite Hdone. cbn [negb]. rstep Em. rstep E1. done.
Qed.

Lemma rpc_call_wp (n : Z) (cmp : conn -> conn -> Z) (dead : conn -> bool) (k : conn)
    (c : rpcc) (s : rpcs W) (a a0 : A) (r r0 : R) (b : Z) (w' : W) :
  client_live c (s_nonce s) -> c_bind_done c = negb (proc =? rpc_const.bind) ->
  server_ready s (c_clt_nonce c) (c_xid c) a0 -> is_i32 proc -> n <= MAX_PAYLOAD ->
  w_range wa a -> lenZ (w_image wa a) <= n ->
  meth a (s_app s) = Ret (b, r, w') -> is_i32 b -> 0 <= b ->
  w_range wr r -> lenZ (w_image wr r) <= n -> dead k = false ->
  call_wp wa wr proc n realizes cmp dead k c s a r0 (fun b' r' c' s' =>
    b' = b /\ r' = r /\ s_app s' = w' /\ call_after c s c' s').
Proof.
  intros Hc Hbd Hs Hpr Hmax Hra Hsa Em Hib Hb Hrr Hsr Hd.
  eapply (rpc_handler_wp wa wr (h1 wa wr a0 meth)); try done; [by apply ready_has| |by left|].
  - intros u Ha Hok Hz. apply (h1_runs a0 a u (s_app s)); try done. lia.
  - intros u Ha Hok Hz. destruct (get_arguments wr u r0 r Ha Hok Hz Hrr) as (u2 & Eg & Hdn).
    unfold call_m. bcase. rstep Eg. rewrite Hdn. done.
Qed.

Lemma rpc_call_ok (cmp : conn -> conn -> Z) (dead : conn -> bool) (k : conn)
    (c : rpcc) (s : rpcs W) (a a0 : A) (r r0 : R) (b : Z) (w' : W) :
  client_ready c (s_nonce s) -> server_ready s (c_clt_nonce c) (c_xid c) a0 ->
  proc <> rpc_const.bind -> is_i32 proc ->
  w_range wa a -> lenZ (w_image wa a) <= MAX_PAYLOAD ->
  meth a (s_app s) = Ret (b, r, w') -> is_i32 b -> 0 <= b ->
  w_range wr r -> lenZ (w_image wr r) <= MAX_PAYLOAD -> dead k = false ->
  call_ends wa wr proc cmp dead k c s a r0 b r w'.
Proof.
  intros [Hbd Hc] Hs Hp Hpr Hra Hsa Em Hib Hb Hrr Hsr Hd.
  eapply (call_wp_mono wa wr proc MAX_PAYLOAD realizes realizes); [done| |].
  2: { apply (rpc_call_wp MAX_PAYLOAD) with (a0 := a0); try done.
       destruct (Z.eqb_spec proc rpc_const.bind); [done|]. done. }
  intros b' r' c' s' (-> & -> & Hw & Haf). do 3 (split; [done|]). by apply af_acked in Haf.
Qed.

(** A remote call is the method call: for any registered method of any
    wire types, a bound client's call reaches dispatch as a new request,
    runs the method once on the server's state with exactly the client's
    arguments, and the client's call returns exactly the method's status
    and result, whatever the bytes neither side wrote turn out to be. *)
Theorem rpc_transparent (cmp : conn -> conn -> Z) (dead : conn -> bool) (k : conn)
    (c : rpcc) (s : rpcs W) (a a0 : A) (r r0 : R) (b : Z) (w' : W) :
  client_ready c (s_nonce s) -> server_ready s (c_clt_nonce c) (c_xid c) a0 ->
  proc <> rpc_const.bind -> is_i32 proc ->
  w_range wa a -> lenZ (w_image wa a) <= MAX_PAYLOAD ->
  meth a (s_app s) = Ret (b, r, w') -> is_i32 b -> 0 <= b ->
  w_range wr r -> lenZ (w_image wr r) <= MAX_PAYLOAD -> dead k = false ->
  call_ends wa wr proc cmp dead k c s a r0 b r w'.
Proof. apply rpc_call_ok. Qed.

End method_call.

(** A counter service whose one method adds its argument and returns the
    sum, a client bound to it and the server after start-up. *)
Definition counter_add : method Z Z Z := fun a w => Ret (0, w + a, w + a).

Definition counter_server : rpcs Z :=
  Rpcs 9 ∅ ∅ 0 0 ∅ true {[ 0x7001 := h1 wire_int wire_int 0 counter_add ]} 40.

Definition counter_client : rpcc := bind_done 0 9 (rpcc_new true 77 0).

Lemma counter_client_ready : client_ready counter_client (s_nonce counter_server).
Proof.
  split; [done|]. split; unfold is_u32; cbn; try done; try lia; [split; [done|by right]|]. split; cbn.
  - done.
  - repeat constructor.
  - repeat (constructor; [lia|]). constructor.
  - intros H. apply list_elem_of_singleton in H. lia.
Qed.

Lemma counter_server_ready :
  server_ready wire_int wire_int counter_add 0x7001 counter_server (c_clt_nonce counter_client)
    (c_xid counter_client) 0.
Proof.
  split; [reflexivity|]. exists []. split; [|intros y Hy; by apply not_elem_of_nil in Hy]. by left.
Qed.

Lemma rpc_transparent_witness :
  call_ends wire_int wire_int 0x7001 (fun _ _ => 0) (fun _ => false) 1%positive
    counter_client counter_server 2 0 0 42 42.
Proof.
  apply (rpc_transparent wire_int wire_int counter_add 0x7001 (fun _ _ => 0) (fun _ => false)
    1%positive counter_client counter_server 2 0 42 0 0 42).
  - apply counter_client_ready.
  - apply counter_server_ready.
  - done.
  - done.
  - done.
  - vm_compute; discriminate.
  - reflexivity.
  - done.
  - done.
  - done.
  - vm_compute; discriminate.
  - done.
Defined.
