(* ===== verification/RpcSession.v ===== *)
(** * Sessions: a client binds and makes calls, one after the other

    Rpc.v treats one call between a client and a server that are ready for
    it.  Here a new rpcc binds to a new rpcs and then makes any number of
    calls; each call leaves both ends ready for the next one. *)

From Stdlib Require Import ZArith Lia Sorted.
From stdpp Require Import base list gmap.
From S2P Require Import Prelude Marshall ReplyWindow RpcServer RpcClient Rpc.

#[local] Open Scope Z_scope.

Section session.
Context {W A R : Type} (wa : wire A) (wr : wire R) `{!WireOk wa, !WireOk wr}.
Context (meth : method W A R) (proc : Z).
Context (n : Z) (cmp : conn -> conn -> Z) (dead : conn -> bool) (k : conn).

(** The calls, each with what the caller's result variable holds before. *)
Fixpoint session_wp (del : list cell -> bytes -> Prop) (calls : list (A * R)) (c : rpcc) (s : rpcs W)
    (Q : list (Z * R) -> rpcc -> rpcs W -> Prop) : Prop :=
  match calls with
  | [] => Q [] c s
  | (a, r0) :: calls =>
      call_wp wa wr proc n del cmp dead k c s a r0 (fun b r c s =>
        session_wp del calls c s (fun l => Q ((b, r) :: l)))
  end.

(** The same calls of the method itself. *)
Fixpoint run_methods (calls : list (A * R)) (w : W) : res (list (Z * R) * W) :=
  match calls with
  | [] => Ret ([], w)
  | (a, _) :: calls =>
      '(b, r, w) ← meth a w;
      '(l, w) ← run_methods calls w;
      Ret ((b, r) :: l, w)
  end.

(** Arguments and results that fit the wire. *)
Definition sendable_arg (x : A * R) : Prop := w_range wa x.1 /\ lenZ (w_image wa x.1) <= n.
Definition sendable_result (x : Z * R) : Prop :=
  is_i32 x.1 /\ 0 <= x.1 /\ w_range wr x.2 /\ lenZ (w_image wr x.2) <= n.

(** A client that makes its calls in sequence knows only earlier xids. *)
Definition client_seq (c : rpcc) : Prop := Forall (fun y => y < c_xid c) (c_xid_rep_window c).

Lemma call_after_client c (s : rpcs W) c' s' nonce :
  client_live c nonce -> client_seq c -> call_after c s c' s' -> c_xid c + 1 < 2 ^ 31 ->
  client_live c' nonce /\ client_seq c'.
Proof.
  intros [Hl Hn Hsv Hx Hw Hf] Hseq [Hac Hw' Hl' Hn' Hsv' _ Hx' _ _ _] Hlt.
  assert (Hhd : hd 0 (c_xid_rep_window c) < c_xid c).
  { unfold client_seq in Hseq. destruct (c_xid_rep_window c) as [|f l]; [by apply rw_nonempty in Hw|].
    by apply Forall_inv in Hseq. }
  assert (Hseq' : client_seq c').
  { apply Forall_forall. intros y Hy. rewrite Hx'. destruct (proj1 (Hac y) (or_intror Hy)) as [[?|Hin]| ->]; [lia| |lia].
    pose proof (proj1 (Forall_forall _ _) Hseq y Hin). cbn in *. lia. }
  split; [|done]. split; rewrite ?Hl', ?Hn', ?Hsv', ?Hx'; try done; [lia|].
  destruct (c_xid_rep_window c') as [|f l] eqn:E; [by apply rw_nonempty in Hw'|].
  unfold client_seq in Hseq'. rewrite E in Hseq'. apply Forall_inv in Hseq'. cbn in *. lia.
Qed.

Lemma call_after_server c (s : rpcs W) c' s' a0 :
  call_after c s c' s' -> server_ready wa wr meth proc s (c_clt_nonce c) (c_xid c) a0 ->
  server_ready wa wr meth proc s' (c_clt_nonce c') (c_xid c') a0.
Proof.
  intros [_ _ _ Hn _ _ Hx Hp _ Hseen] [Hproc (seen & Ho & Hlt)]. split; [by rewrite Hp|].
  exists (c_xid c :: seen). rewrite Hn, Hx. split; [by apply Hseen|].
  intros y [->|Hy]%elem_of_cons; [lia|]. specialize (Hlt y Hy). lia.
Qed.

Lemma session_wp_mono del calls c s (Q Q' : list (Z * R) -> rpcc -> rpcs W -> Prop) :
  (forall l c s, Q l c s -> Q' l c s) -> session_wp del calls c s Q -> session_wp del calls c s Q'.
Proof.
  revert c s Q Q'. induction calls as [|[a r0] calls IH]; intros c s Q Q' HQ; [apply HQ|].
  cbn [session_wp]. apply call_wp_mono; [done|]. intros b r c' s'. apply IH. intros l. apply HQ.
Qed.

(** Calls from a client and a server that are ready. *)
Lemma session_ready calls c s a0 out w' :
  client_ready c (s_nonce s) -> client_seq c ->
  server_ready wa wr meth proc s (c_clt_nonce c) (c_xid c) a0 ->
  proc <> rpc_const.bind -> is_i32 proc -> n <= MAX_PAYLOAD -> dead k = false ->
  c_xid c + lenZ calls < 2 ^ 31 ->
  Forall sendable_arg calls -> run_methods calls (s_app s) = Ret (out, w') -> Forall sendable_result out ->
  session_wp realizes calls c s (fun l c' s' => l = out /\ s_app s' = w').
Proof.
  intros Hc Hseq Hs Hp Hpr Hmax Hd. revert c s out Hc Hseq Hs.
  induction calls as [|[a r0] calls IH]; intros c s out [Hbd Hc] Hseq Hs Hlen Hargs Hrun Hres.
  { by injection Hrun as <- <-. }
  cbn [run_methods] in Hrun. rinv Hrun. destruct a1 as [[b r] w1]. rinv Hrun. destruct a1 as [l w2].
  injection Hrun as <- <-. apply Forall_cons in Hargs as [[Ha Hsz] Hargs].
  apply Forall_cons in Hres as [(Hib & Hb & Hr & Hrs) Hres]. cbn [fst snd] in *. cbn [length] in Hlen.
  cbn [session_wp]. eapply (call_wp_mono wa wr proc n realizes realizes); [done| |].
  2: { apply (rpc_call_wp wa wr meth proc n) with (a0 := a0); try done.
       destruct (Z.eqb_spec proc rpc_const.bind); [done|]. done. }
  intros b' r' c' s' (-> & -> & <- & Haf).
  destruct (call_after_client c s c' s' (s_nonce s) Hc Hseq Haf ltac:(lia)) as [Hc' Hseq'].
  pose proof (af_xid _ _ _ _ Haf) as Hx. eapply session_wp_mono; [|apply (IH c' s' l); try done].
  - intros l0 c0 s0 [-> Hw]. by rewrite Hw.
  - split; [by rewrite (af_bound _ _ _ _ Haf)|]. by rewrite (af_snonce _ _ _ _ Haf).
  - by apply (call_after_server c s).
  - rewrite Hx. lia.
Qed.

End session.

(** ** Binding *)

(** The client after bind's call returned [b] with result [r]. *)
Definition bind_wp {W} (n : Z) (del : list cell -> bytes -> Prop) (cmp : conn -> conn -> Z) (dead : conn -> bool)
    (k : conn) (c : rpcc) (s : rpcs W) (r0 : Z) (Q : Z -> rpcc -> rpcs W -> Prop) : Prop :=
  call_wp wire_int wire_int rpc_const.bind n del cmp dead k c s 0 r0 (fun b r c s => Q b (bind_done b r c) s).

Lemma rpcc_new_live nonce lossy srv :
  u32 nonce <> 0 -> client_live (rpcc_new true nonce lossy) srv /\ client_seq (rpcc_new true nonce lossy).
Proof.
  intros Hn. split; [|repeat constructor].
  split; cbn; try done; try lia; [split; [apply u32_range|done]|split; [done|by left]|].
  split; cbn.
  - done.
  - repeat constructor.
  - repeat (constructor; [lia|]). constructor.
  - intros Hi. apply list_elem_of_singleton in Hi. lia.
Qed.

(** A client that has just bound to [s0], and that server since. *)
Record bound {W} (s0 : rpcs W) (c : rpcc) (s : rpcs W) : Prop := Bound {
  bd_ready : client_ready c (s_nonce s);
  bd_seq : client_seq c;
  bd_srv : c_srv_nonce c = s_nonce s;
  bd_xid : c_xid c = 2;
  bd_nonce : s_nonce s = s_nonce s0;
  bd_procs : s_procs s = s_procs s0;
  bd_app : s_app s = s_app s0;
  bd_window : exists seen, orderly seen (default [] (s_reply_window s !! c_clt_nonce c)) /\
    forall y, y ∈ seen -> y < c_xid c
}.

(** The handler the constructor of rpcs registers. *)
Definition bind_handler {W} (nonce a0 : Z) : handler W :=
  h1 wire_int wire_int a0 (fun _ w => Ret (0, i32 (u32 nonce), w)).

Lemma bind_fresh {W} (n : Z) (cmp : conn -> conn -> Z) (dead : conn -> bool) (k : conn)
    (snonce cnonce lossy ab r0 : Z) (s : rpcs W) :
  s_nonce s = u32 snonce -> s_procs s !! rpc_const.bind = Some (bind_handler snonce ab) ->
  s_reply_window s !! u32 cnonce = None -> u32 cnonce <> 0 -> 4 <= n <= MAX_PAYLOAD -> dead k = false ->
  bind_wp n realizes cmp dead k (rpcc_new true cnonce lossy) s r0 (fun b c s' => b = 0 /\ bound s c s').
Proof.
  intros Hsn Hbind Hw Hcn Hn Hd. set (c0 := rpcc_new true cnonce lossy).
  destruct (rpcc_new_live cnonce lossy (s_nonce s) Hcn) as [Hlive Hseq]. fold c0 in Hlive, Hseq.
  assert (Hnone : forall y : Z, y ∈ ([] : list Z) -> y < c_xid c0) by (intros y Hy; by apply not_elem_of_nil in Hy).
  unfold bind_wp. eapply (call_wp_mono wire_int wire_int rpc_const.bind n realizes realizes); [done| |].
  2: { apply (rpc_call_wp wire_int wire_int (fun _ w => Ret (0, i32 (u32 snonce), w)) rpc_const.bind n)
         with (a0 := ab) (b := 0) (r := i32 (u32 snonce)) (w' := s_app s); try done; try lia.
       - split; [exact Hbind|]. cbn [c_clt_nonce c0 rpcc_new]. rewrite Hw. exists []. split; [by left|done].
       - change (4 <= n). lia.
       - apply i32_range.
       - change (4 <= n). lia. }
  intros b' r' c' s' (-> & -> & Happ & Haf). split; [done|].
  destruct (call_after_client c0 s c' s' (s_nonce s) Hlive Hseq Haf ltac:(cbn; lia)) as [[? ? ? ? ? ?] Hseq'].
  pose proof Haf as [_ _ _ Hcn' _ _ Hx Hp Hsn' Hseen].
  assert (Hsrv : u32 (i32 (u32 snonce)) = s_nonce s') by (rewrite u32_i32, Hsn', Hsn; apply u32_small, u32_range).
  unfold bind_done. cbn [Z.eqb]. rewrite Hsrv. split; cbn [c_srv_nonce c_xid c_clt_nonce set_bound]; try done.
  - split; [done|]. split; try done. cbn. rewrite Hsn', Hsn. split; [apply u32_range|by right].
  - exists [c_xid c0]. rewrite Hcn'. split; [apply Hseen; [cbn [c_clt_nonce c0 rpcc_new]; rewrite Hw; by left|done]|].
    rewrite Hx. intros y Hy. apply list_elem_of_singleton in Hy. lia.
Qed.

Section bound.
Context {W A R : Type} (wa : wire A) (wr : wire R) `{!WireOk wa, !WireOk wr}.
Context (meth : method W A R) (proc : Z).

(** C3: a session is the sequence of its method calls: when a new client
    binds to a new server that has one method registered and then makes any
    number of calls, binding returns 0 and the statuses and results the
    client gets, and the state the service ends in, are those of calling
    the method itself in sequence, whatever unwritten bytes arrive as. *)
Theorem rpc_session (n : Z) (cmp : conn -> conn -> Z) (dead : conn -> bool) (k : conn)
    (count snonce cnonce lossy ab r0 : Z) (a0 : A) (w w' : W) (s0 s : rpcs W)
    (calls : list (A * R)) (out : list (Z * R)) :
  rpcs_new count snonce ab w = Ret s0 -> reg1 proc (h1 wa wr a0 meth) s0 = Ret s ->
  u32 cnonce <> 0 -> is_i32 proc -> 4 <= n <= MAX_PAYLOAD -> dead k = false ->
  2 + lenZ calls < 2 ^ 31 -> Forall (sendable_arg wa n) calls ->
  run_methods meth calls w = Ret (out, w') -> Forall (sendable_result wr n) out ->
  bind_wp n realizes cmp dead k (rpcc_new true cnonce lossy) s r0 (fun b c s =>
    b = 0 /\ session_wp wa wr proc n cmp dead k realizes calls c s (fun l c' s' => l = out /\ s_app s' = w')).
Proof.
  intros E0 E1 Hcn Hpr Hn Hd Hlen Hargs Hrun Hres.
  unfold rpcs_new, reg1, verify in E0. rewrite bool_decide_true in E0 by apply lookup_empty.
  cbn [s_nonce s_reply_window s_conns s_counting s_curr_counts s_counts s_reachable s_procs s_app] in E0.
  injection E0 as <-.
  unfold reg1, verify in E1. rewrite i32_small in E1 by done. cbn [s_procs] in E1.
  case_bool_decide as Hfree; [|discriminate]. injection E1 as <-.
  assert (Hp : proc <> rpc_const.bind).
  { intros ->. change (i32 rpc_const.bind) with rpc_const.bind in Hfree. rewrite lookup_insert_eq in Hfree. done. }
  set (s := Rpcs _ _ _ _ _ _ _ _ _).
  eapply (call_wp_mono wire_int wire_int rpc_const.bind n realizes realizes); [done| |].
  2: { apply (bind_fresh n cmp dead k snonce cnonce lossy ab r0 s); try done.
       cbn. rewrite lookup_insert_ne by done. apply lookup_insert_eq. }
  cbv beta. intros b' r' c' s' [-> [Hc Hseq _ Hx _ Hpr' Happ Hwin]]. split; [done|].
  apply (session_ready wa wr meth proc) with (a0 := a0); try done.
  - split; [rewrite Hpr'; apply lookup_insert_eq|done].
  - apply Hn.
  - rewrite Hx. lia.
  - by rewrite Happ.
Qed.

End bound.

(** The counter of Rpc.v: three additions. *)
Lemma rpc_session_witness :
  exists s0 s, rpcs_new 0 9 0 40 = Ret s0 /\ reg1 0x7001 (h1 wire_int wire_int 0 counter_add) s0 = Ret s /\
  bind_wp 100 realizes (fun _ _ => 0) (fun _ => false) 1%positive (rpcc_new true 77 0) s 0 (fun b c s =>
    b = 0 /\ session_wp wire_int wire_int 0x7001 100 (fun _ _ => 0) (fun _ => false) 1%positive realizes
      [(2, 0); (5, 0); (-3, 0)] c s (fun l c' s' => l = [(0, 42); (0, 47); (0, 44)] /\ s_app s' = 44)).
Proof.
  eexists. eexists. split; [reflexivity|]. split; [reflexivity|].
  eapply (rpc_session wire_int wire_int counter_add 0x7001) with (a0 := 0) (w := 40).
  - reflexivity.
  - reflexivity.
  - discriminate.
  - done.
  - vm_compute. split; discriminate.
  - reflexivity.
  - reflexivity.
  - repeat constructor; vm_compute; discriminate.
  - reflexivity.
  - repeat constructor; vm_compute; discriminate.
Defined.
