(* ===== verification/Directory.v ===== *)
(** * The directory format of yfs_client.cc

    A directory is an extent with one line "name:inum" per entry, written
    with an ostringstream and read with getline and an istringstream.
    This file models those library operations on bytes, [ent_read] and
    [dir_find], and relates them to an abstract list of slots. *)

From Stdlib Require Import ZArith Lia Strings.Byte.
From stdpp Require Import base list gmap.
From S2P Require Import Prelude.

#[local] Open Scope Z_scope.

(** ** ostream << and istream >> on unsigned long long *)

Definition digit (d : Z) : byte := Z_byte (48 + d).

Fixpoint dec_digits (fuel : nat) (n : Z) : bytes :=
  match fuel with
  | O => []
  | S fuel => if n <? 10 then [digit n] else dec_digits fuel (n / 10) ++ [digit (n mod 10)]
  end.

(** Twenty digits are enough for 64 bits. *)
Definition print_ull (n : Z) : bytes := dec_digits 20 n.

Definition is_space (c : byte) : bool :=
  let z := byte_Z c in (z =? 32) || ((9 <=? z) && (z <=? 13)).
Definition is_digit (c : byte) : bool :=
  let z := byte_Z c in (48 <=? z) && (z <=? 57).

Fixpoint skip_ws (s : bytes) : bytes :=
  match s with c :: r => if is_space c then skip_ws r else s | [] => [] end.

Fixpoint digits_of (s : bytes) : bytes :=
  match s with c :: r => if is_digit c then c :: digits_of r else [] | [] => [] end.

Definition value (s : bytes) : Z := fold_left (fun a c => a * 10 + (byte_Z c - 48)) s 0.

(** [ist >> x]: the value stored into [x], if any, and whether it succeeded. *)
Definition read_ull (s : bytes) : option Z * bool :=
  match skip_ws s with
  | [] => (None, false)
  | c :: r =>
      let '(neg, ds) := if byte_Z c =? 45 then (true, r)
                        else if byte_Z c =? 43 then (false, r) else (false, c :: r) in
      match digits_of ds with
      | [] => (Some 0, false)
      | l => if value l <? 2 ^ 64 then (Some (if neg : bool then u64 (- value l) else value l), true)
             else (Some (2 ^ 64 - 1), false)
      end
  end.

(** n2i of an uninitialised [finum] that held [junk], and filename. *)
Definition n2i (junk : Z) (n : bytes) : Z := default junk (read_ull n).1.
Definition filename (inum : Z) : bytes := print_ull inum.

(** ** getline *)

Definition nl : byte := Z_byte 10.
Definition colon : byte := Z_byte 58.

(** The lines getline yields one after the other; whether a newline ended
    the line. *)
Fixpoint lines_from (acc : bytes) (s : bytes) : list (bytes * bool) :=
  match s with
  | [] => match acc with [] => [] | _ => [(acc, false)] end
  | c :: s => if decide (c = nl) then (acc, true) :: lines_from [] s else lines_from (acc ++ [c]) s
  end.
Definition lines (s : bytes) : list (bytes * bool) := lines_from [] s.

(** ** ent_read and dir_find *)

(** [dirline.find(':')] as the split it is used for. *)
Fixpoint find_colon (s : bytes) : option (bytes * bytes) :=
  match s with
  | [] => None
  | c :: s =>
      if decide (c = colon) then Some ([], s)
      else match find_colon s with Some (n, r) => Some (c :: n, r) | None => None end
  end.

(** Success, entname and entry_inum after the call; [inum] is what
    entry_inum held before. *)
Definition ent_read (dirline : bytes) (inum : Z) : bool * bytes * Z :=
  match find_colon dirline with
  | None => (false, [], inum)
  | Some (entname, rest) =>
      let '(v, ok) := read_ull rest in (ok, entname, default inum v)
  end.

(** dir_find over the lines from position [pos] on: the result, findinum,
    and bufoff and buflen when they are stored.  tellg() is the position
    behind the newline, or -1 at end of file. *)
Fixpoint dir_find_lines (ls : list (bytes * bool)) (pos : Z) (name : bytes) (findinum : Z)
  : bool * Z * option (Z * Z) :=
  match ls with
  | [] => (false, findinum, None)
  | (line, ended) :: ls =>
      let pos := pos + lenZ line + (if ended : bool then 1 else 0) in
      let bufloff := u32 (if ended then pos else -1) in
      let linelen := lenZ line in
      if linelen =? 0 then dir_find_lines ls pos name findinum
      else
        let '(ok, curname, findinum) := ent_read line findinum in
        if negb ok then (false, findinum, None)
        else if decide (curname = name) then (true, findinum, Some (u32 (bufloff - linelen - 1), linelen))
        else dir_find_lines ls pos name findinum
  end.

Definition dir_find (dirbuf name : bytes) (findinum : Z) : bool * Z * option (Z * Z) :=
  dir_find_lines (lines dirbuf) 0 name findinum.

(** The line dir_add_entry appends. *)
Definition entry_line (name : bytes) (inum : Z) : bytes := name ++ [colon] ++ print_ull inum.

(** ** The abstract directory: slots in order, empty where removed *)

Abbreviation slot := (option (bytes * Z)).

Definition slot_line (s : slot) : bytes :=
  match s with Some (name, inum) => entry_line name inum | None => [] end.

Fixpoint enc (slots : list slot) : bytes :=
  match slots with [] => [] | s :: slots => slot_line s ++ [nl] ++ enc slots end.

Definition name_ok (name : bytes) : Prop := colon ∉ name /\ nl ∉ name.

Definition slot_ok (s : slot) : Prop :=
  match s with Some (name, inum) => name_ok name /\ is_u64 inum | None => True end.

(** First slot with a name. *)
Fixpoint find_slot (name : bytes) (slots : list slot) : option (nat * Z) :=
  match slots with
  | [] => None
  | Some (n, i) :: slots =>
      if decide (n = name) then Some (O, i)
      else match find_slot name slots with Some (k, i) => Some (S k, i) | None => None end
  | None :: slots => match find_slot name slots with Some (k, i) => Some (S k, i) | None => None end
  end.

(** ** Decimal round trip *)

Lemma byte_digit d : 0 <= d < 10 -> byte_Z (digit d) = 48 + d.
Proof. intros. unfold digit. rewrite byte_Z_of_Z. unfold u8. apply Z.mod_small. lia. Qed.

Lemma is_digit_digit d : 0 <= d < 10 -> is_digit (digit d) = true.
Proof. intros. unfold is_digit. rewrite byte_digit by done. repeat bcase. Qed.

Lemma value_snoc l c : value (l ++ [c]) = value l * 10 + (byte_Z c - 48).
Proof. unfold value. by rewrite fold_left_app. Qed.

Lemma dec_digits_ok fuel n :
  0 <= n < 10 ^ Z.of_nat fuel -> (0 < fuel)%nat ->
  dec_digits fuel n <> [] /\ Forall (fun c => is_digit c = true) (dec_digits fuel n) /\
  value (dec_digits fuel n) = n.
Proof.
  revert n. induction fuel as [|fuel IH]; intros n Hn Hf; [lia|]. cbn [dec_digits].
  destruct (Z.ltb_spec n 10).
  - split; [done|]. split; [constructor; [apply is_digit_digit; lia|constructor]|].
    unfold value. cbn. rewrite byte_digit by lia. lia.
  - assert (Hm : 0 <= n mod 10 < 10) by (apply Z.mod_pos_bound; lia).
    destruct (decide (fuel = 0)%nat) as [->|Hfz]; [change (10 ^ Z.of_nat 1) with 10 in Hn; lia|].
    destruct (IH (n / 10)) as (H1 & H2 & H3); [|lia|].
    { rewrite Nat2Z.inj_succ, Z.pow_succ_r in Hn by lia. split; [apply Z.div_pos; lia|].
      apply Z.div_lt_upper_bound; lia. }
    split; [by destruct (dec_digits fuel (n / 10))|]. split.
    + apply Forall_app. split; [done|]. constructor; [by apply is_digit_digit|constructor].
    + rewrite value_snoc, H3, byte_digit by lia. pose proof (Z.div_mod n 10). lia.
Qed.

Lemma print_ull_ok n : is_u64 n ->
  print_ull n <> [] /\ Forall (fun c => is_digit c = true) (print_ull n) /\ value (print_ull n) = n.
Proof. unfold is_u64. intros H. apply dec_digits_ok; [|lia]. cbn. lia. Qed.

Lemma digits_of_all l : Forall (fun c => is_digit c = true) l -> digits_of l = l.
Proof. induction 1 as [|c l Hc _ IH]; cbn; [done|]. by rewrite Hc, IH. Qed.

Lemma digit_plain c : is_digit c = true -> is_space c = false /\ byte_Z c <> 45 /\ byte_Z c <> 43 /\
  c <> nl /\ c <> colon.
Proof.
  unfold is_digit, is_space. intros H. apply andb_true_iff in H as [H1%Z.leb_le H2%Z.leb_le].
  split; [repeat bcase|]. split; [lia|]. split; [lia|].
  split; intros ->; [change (byte_Z nl) with 10 in *|change (byte_Z colon) with 58 in *]; lia.
Qed.

Lemma read_print n : is_u64 n -> read_ull (print_ull n) = (Some n, true).
Proof.
  intros Hn. destruct (print_ull_ok n Hn) as (H1 & H2 & H3). unfold read_ull.
  destruct (print_ull n) as [|c l] eqn:E; [done|].
  destruct (digit_plain c (Forall_inv H2)) as (Hs & Hm & Hp & _).
  cbn [skip_ws]. rewrite Hs. destruct (Z.eqb_spec (byte_Z c) 45); [done|].
  destruct (Z.eqb_spec (byte_Z c) 43); [done|]. rewrite digits_of_all by done. rewrite H3.
  unfold is_u64 in Hn. bcase. done.
Qed.

(** ** Reading back what was written *)

Lemma lines_from_line acc l s : nl ∉ l -> lines_from acc (l ++ nl :: s) = (acc ++ l, true) :: lines s.
Proof.
  revert acc. induction l as [|c l IH]; intros acc Hn; cbn.
  - by rewrite decide_True, app_nil_r.
  - rewrite not_elem_of_cons in Hn. destruct Hn as [Hc Hn]. rewrite decide_False by done.
    rewrite IH by done. by rewrite <- app_assoc.
Qed.

Lemma digits_no c l : Forall (fun c => is_digit c = true) l -> (c = nl \/ c = colon) -> c ∉ l.
Proof.
  intros Hl Hc Hin. rewrite Forall_forall in Hl. apply Hl in Hin. apply digit_plain in Hin.
  destruct Hc; subst; tauto.
Qed.

Lemma slot_line_nl s : slot_ok s -> nl ∉ slot_line s.
Proof.
  destruct s as [[n i]|]; [|intros _; apply not_elem_of_nil]. intros [[Hc Hn] Hi]. cbn [slot_line]. unfold entry_line.
  destruct (print_ull_ok i Hi) as (_ & Hd & _).
  rewrite !not_elem_of_app, not_elem_of_cons. split; [done|]. split; [split; [done|apply not_elem_of_nil]|].
  apply digits_no; auto.
Qed.

Lemma lines_enc slots : Forall slot_ok slots -> lines (enc slots) = (fun s => (slot_line s, true)) <$> slots.
Proof.
  induction 1 as [|s slots Hs _ IH]; [done|]. cbn [enc]. unfold lines. cbn [app].
  rewrite lines_from_line by (by apply slot_line_nl). cbn. by rewrite IH.
Qed.

Lemma find_colon_name n r : colon ∉ n -> find_colon (n ++ colon :: r) = Some (n, r).
Proof.
  induction n as [|c n IH]; intros Hn; cbn.
  - by rewrite decide_True.
  - rewrite not_elem_of_cons in Hn. destruct Hn as [Hc Hn]. rewrite decide_False by done. by rewrite IH.
Qed.

Lemma ent_read_entry n i j : name_ok n -> is_u64 i -> ent_read (entry_line n i) j = (true, n, i).
Proof.
  intros [Hc _] Hi. unfold ent_read, entry_line. cbn [app]. rewrite find_colon_name by done.
  by rewrite read_print.
Qed.

Lemma lenZ_app {A} (l1 l2 : list A) : lenZ (l1 ++ l2) = lenZ l1 + lenZ l2.
Proof. rewrite length_app. lia. Qed.

Lemma entry_line_length n i : 0 < lenZ (entry_line n i).
Proof. unfold entry_line. rewrite !length_app. cbn. lia. Qed.

Definition slot_lines (slots : list slot) : list (bytes * bool) := (fun s => (slot_line s, true)) <$> slots.

(** dir_find over well formed slots finds the first one with the name. *)
Lemma dir_find_slots slots name pos fi :
  Forall slot_ok slots -> 0 <= pos -> pos + lenZ (enc slots) < 2 ^ 32 ->
  match find_slot name slots with
  | Some (k, i) =>
      dir_find_lines (slot_lines slots) pos name fi =
        (true, i, Some (pos + lenZ (enc (take k slots)), lenZ (entry_line name i))) /\
      slots !! k = Some (Some (name, i))
  | None => exists fi', dir_find_lines (slot_lines slots) pos name fi = (false, fi', None)
  end.
Proof.
  intros Hs. revert pos fi. induction Hs as [|s slots Hs Hss IH]; intros pos fi Hp Hb; [cbn; eauto|].
  cbn [enc] in Hb. rewrite !lenZ_app in Hb. change (lenZ [nl]) with 1 in Hb.
  assert (Hpos : u32 (pos + lenZ (slot_line s) + 1) = pos + lenZ (slot_line s) + 1)
    by (apply u32_small; unfold is_u32; lia).
  specialize (IH (pos + lenZ (slot_line s) + 1)).
  cbn [slot_lines fmap list_fmap dir_find_lines]. fold (slot_lines slots).
  destruct s as [[n i]|]; cbn [slot_line find_slot] in *.
  - pose proof (entry_line_length n i). destruct (Z.eqb_spec (lenZ (entry_line n i)) 0); [lia|].
    destruct Hs as [Hn Hi]. rewrite ent_read_entry by done. cbn [negb].
    destruct (decide (n = name)) as [->|Hne].
    + split; [|done]. cbn [take enc]. rewrite Hpos.
      replace (pos + lenZ (entry_line name i) + 1 - lenZ (entry_line name i) - 1) with pos by lia.
      rewrite u32_small by (unfold is_u32; lia). do 3 f_equal. cbn. lia.
    + specialize (IH i ltac:(lia) ltac:(lia)). destruct (find_slot name slots) as [[k i']|]; [|done].
      destruct IH as [E Hk]. split; [|done]. rewrite E. do 3 f_equal. cbn [take enc slot_line].
      rewrite !lenZ_app. change (lenZ [nl]) with 1. lia.
  - specialize (IH fi ltac:(cbn; lia) ltac:(cbn in *; lia)). cbn [length] in *. cbn [Z.of_nat Z.eqb].
    destruct (find_slot name slots) as [[k i']|]; [|done].
    destruct IH as [E Hk]. split; [|done]. rewrite E. do 3 f_equal. cbn [take enc slot_line].
    rewrite !lenZ_app. change (lenZ [nl]) with 1. cbn. lia.
Qed.

Lemma dir_find_enc slots name fi :
  Forall slot_ok slots -> lenZ (enc slots) < 2 ^ 32 ->
  match find_slot name slots with
  | Some (k, i) =>
      dir_find (enc slots) name fi =
        (true, i, Some (lenZ (enc (take k slots)), lenZ (entry_line name i))) /\
      slots !! k = Some (Some (name, i))
  | None => exists fi', dir_find (enc slots) name fi = (false, fi', None)
  end.
Proof.
  intros Hs Hb. unfold dir_find. rewrite lines_enc by done.
  pose proof (dir_find_slots slots name 0 fi Hs ltac:(lia) ltac:(lia)) as H.
  destruct (find_slot name slots) as [[k i]|]; exact H.
Qed.

Lemma enc_app s1 s2 : enc (s1 ++ s2) = enc s1 ++ enc s2.
Proof. induction s1 as [|s s1 IH]; cbn; [done|]. by rewrite IH, <- app_assoc. Qed.

(** Appending an entry and erasing a line are slot operations. *)
Lemma enc_snoc slots n i : enc slots ++ entry_line n i ++ [nl] = enc (slots ++ [Some (n, i)]).
Proof. by rewrite enc_app. Qed.

Lemma erase_slot slots k n i :
  slots !! k = Some (Some (n, i)) ->
  string_erase (enc slots) (lenZ (enc (take k slots))) (lenZ (entry_line n i)) = Ret (enc (<[k := None]> slots)).
Proof.
  intros Hk. pose proof (take_drop_middle _ _ _ Hk) as Hs. rewrite <- Hs at 1.
  rewrite insert_take_drop by (by eapply lookup_lt_Some).
  rewrite !enc_app. cbn [enc slot_line app].
  unfold string_erase. rewrite length_app. bcase. rewrite !Nat2Z.id.
  rewrite take_app_length. f_equal. f_equal. rewrite drop_app, drop_ge by lia. cbn [app].
  replace (_ + _ - _)%nat with (length (entry_line n i)) by lia. apply drop_app_length.
Qed.

Lemma find_slot_app name s1 s2 :
  find_slot name s1 = None -> find_slot name (s1 ++ s2) =
    match find_slot name s2 with Some (k, i) => Some (length s1 + k, i)%nat | None => None end.
Proof.
  induction s1 as [|[[n i]|] s1 IH]; cbn [find_slot app length]; intros H.
  - destruct (find_slot name s2) as [[k i]|]; done.
  - destruct (decide (n = name)); [done|]. destruct (find_slot name s1) as [[? ?]|]; [done|].
    rewrite IH by done. by destruct (find_slot name s2) as [[? ?]|].
  - destruct (find_slot name s1) as [[? ?]|]; [done|].
    rewrite IH by done. by destruct (find_slot name s2) as [[? ?]|].
Qed.

(** Names occur once: the invariant dir_add_entry keeps. *)
Definition names (slots : list slot) : list bytes := omap (fun s => fst <$> s) slots.

Lemma find_slot_None name slots : find_slot name slots = None <-> name ∉ names slots.
Proof.
  induction slots as [|[[n i]|] slots IH]; cbn.
  - split; [intros _; apply not_elem_of_nil|done].
  - rewrite not_elem_of_cons. destruct (decide (n = name)) as [->|].
    + split; [done|tauto].
    + destruct (find_slot name slots) as [[? ?]|]; rewrite <- IH; split; naive_solver.
  - rewrite <- IH. destruct (find_slot name slots) as [[? ?]|]; done.
Qed.

Lemma find_slot_insert_None name k slots i :
  find_slot name slots = Some (k, i) -> NoDup (names slots) -> find_slot name (<[k := None]> slots) = None.
Proof.
  revert k. induction slots as [|[[n j]|] slots IH]; intros k; cbn; [done| |].
  - rewrite NoDup_cons. destruct (decide (n = name)) as [->|Hne].
    + intros [= <- <-] [Hn Hd]. cbn. destruct (find_slot name slots) as [[? ?]|] eqn:E; [|done].
      exfalso. apply find_slot_None in Hn. congruence.
    + destruct (find_slot name slots) as [[k' i']|]; [|done]. intros [= <- <-] [Hn Hd]. cbn.
      rewrite decide_False by done. by rewrite IH.
  - destruct (find_slot name slots) as [[k' i']|]; [|done]. intros [= <- <-] Hd. cbn. by rewrite IH.
Qed.

Lemma find_slot_insert_other name other k slots i :
  find_slot name slots = Some (k, i) -> other <> name ->
  find_slot other (<[k := None]> slots) = find_slot other slots.
Proof.
  intros H Hne. revert k H. induction slots as [|[[n j]|] slots IH]; intros k; cbn; [done| |].
  - destruct (decide (n = name)) as [->|Hn].
    + intros [= <- <-]. cbn. by rewrite decide_False.
    + destruct (find_slot name slots) as [[k' i']|]; [|done]. intros [= <- <-]. cbn. by rewrite IH.
  - destruct (find_slot name slots) as [[k' i']|]; [|done]. intros [= <- <-]. cbn. by rewrite IH.
Qed.

(** A line whose inum does not parse ends the search: nothing behind it is
    found.  Names with a ':' produce such lines. *)
Lemma dir_find_bad slots bad rest name fi :
  Forall slot_ok slots -> find_slot name slots = None -> nl ∉ bad -> bad <> [] ->
  (forall j, (ent_read bad j).1.1 = false) -> lenZ (enc slots) < 2 ^ 32 ->
  (dir_find (enc slots ++ bad ++ [nl] ++ rest) name fi).1.1 = false.
Proof.
  intros Hs Hf Hn Hne Hbad Hb. unfold dir_find.
  assert (Hl : lines (enc slots ++ bad ++ [nl] ++ rest) = slot_lines slots ++ (bad, true) :: lines rest).
  { clear Hf Hb. induction Hs as [|s slots Hs Hss IH]; cbn [enc app slot_lines fmap list_fmap].
    - unfold lines at 1. by rewrite lines_from_line.
    - unfold lines at 1. rewrite <- !app_assoc. cbn [app]. rewrite lines_from_line by (by apply slot_line_nl).
      cbn. f_equal. exact IH. }
  rewrite Hl. clear Hl Hb. generalize 0 as pos. revert fi. induction Hs as [|s slots Hs Hss IH]; intros fi pos.
  - cbn. destruct (Z.eqb_spec (lenZ bad) 0); [by destruct bad|]. specialize (Hbad fi).
    destruct (ent_read bad fi) as [[ok nm] v]. cbn in Hbad. subst ok. done.
  - cbn [slot_lines fmap list_fmap app dir_find_lines]. fold (slot_lines slots).
    destruct s as [[n i]|]; cbn [slot_line find_slot] in *.
    + destruct (decide (n = name)) as [|Hnn]; [done|].
      pose proof (entry_line_length n i). destruct (Z.eqb_spec (lenZ (entry_line n i)) 0); [lia|].
      destruct Hs as [Hn' Hi]. rewrite ent_read_entry by done. cbn [negb]. rewrite decide_False by done.
      apply IH. by destruct (find_slot name slots) as [[? ?]|].
    + cbn [length Z.of_nat Z.eqb]. apply IH. by destruct (find_slot name slots) as [[? ?]|].
Qed.
