(* ===== verification/RpcUtil.v ===== *)
(** * Times, addresses and the retransmission loop of rpcc::call1 (rpc/rpc.cc)

    The timespec arithmetic at the end of rpc.cc, make_sockaddr, and the
    loop of call1 that sends a request and waits for its reply with
    doubling timeouts until the final deadline. *)

From Stdlib Require Import ZArith Lia Strings.Byte.
From stdpp Require Import base list.
From S2P Require Import Prelude Directory.

#[local] Open Scope Z_scope.

(** ** timespec *)

Record timespec := Timespec { tv_sec : Z; tv_nsec : Z }.

Definition cmp_timespec (a b : timespec) : Z :=
  if tv_sec a >? tv_sec b then 1
  else if tv_sec a <? tv_sec b then -1
  else if tv_nsec a >? tv_nsec b then 1
  else if tv_nsec a <? tv_nsec b then -1
  else 0.

(** The carry loop; the nanoseconds of a 32-bit long hold at most two
    seconds, so three turns are enough. *)
Fixpoint carry (fuel : nat) (sec nsec : Z) : timespec :=
  match fuel with
  | O => Timespec sec nsec
  | S fuel => if nsec >? 1000000000 then carry fuel (sec + 1) (nsec - 1000000000) else Timespec sec nsec
  end.

(** [b] is in milliseconds; / and % truncate. *)
Definition add_timespec (a : timespec) (b : Z) : res timespec :=
  let sec := tv_sec a + Z.quot b 1000 in
  let nsec := tv_nsec a + Z.rem b 1000 * 1000000 in
  verify (0 <=? nsec) (Ret (carry 3 sec nsec)).

Definition diff_timespec (end' start : timespec) : res Z :=
  let diff := if tv_sec end' >? tv_sec start then (tv_sec end' - tv_sec start) * 1000 else 0 in
  verify (negb (diff =? 0) || (tv_sec end' =? tv_sec start))
    (Ret (if tv_nsec end' >? tv_nsec start
          then diff + Z.quot (tv_nsec end' - tv_nsec start) 1000000
          else diff - Z.quot (tv_nsec start - tv_nsec end') 1000000)).

(** ** Addresses *)

Record sockaddr_in := SockaddrIn { s_addr : Z; sin_port : Z }.

(** operator< on sockaddr_in *)
Definition sockaddr_lt (a b : sockaddr_in) : bool :=
  (s_addr a <? s_addr b) || ((s_addr a =? s_addr b) && (sin_port a <? sin_port b)).

(** atoi: undefined when the number does not fit an int. *)
Definition atoi (s : bytes) : res Z :=
  match skip_ws s with
  | [] => Ret 0
  | c :: r =>
      if byte_Z c =? 45 then chk_int (- value (digits_of r))
      else if byte_Z c =? 43 then chk_int (value (digits_of r))
      else chk_int (value (digits_of (c :: r)))
  end.

Definition htons (x : Z) : Z := u16 (Z.lor (Z.shiftl (u8 x) 8) (u8 (Z.shiftr x 8))).

Section resolver.
(** inet_addr ([None] is INADDR_NONE) and gethostbyname. *)
Context (inet_addr gethostbyname : bytes -> option Z).

(** make_sockaddr(host, port, dst); [None] when it exits the process
    because the host is unknown. *)
Definition make_sockaddr2 (host port : bytes) : res (option sockaddr_in) :=
  match (match inet_addr host with Some a => Some a | None => gethostbyname host end) with
  | None => Ret None
  | Some a => p ← atoi port; Ret (Some (SockaddrIn a (htons p)))
  end.

(** make_sockaddr(hostandport, dst): the host part is copied into
    [char host[200]] with no check. *)
Definition make_sockaddr (hostandport : bytes) : res (option sockaddr_in) :=
  match find_colon hostandport with
  | None => make_sockaddr2 (str "127.0.0.1") hostandport
  | Some (host, port) => if 200 <=? lenZ host then Crash Undefined else make_sockaddr2 host port
  end.
End resolver.

(** ** The loop of call1 *)

(** What one turn of the loop meets: the clock before it waits, whether
    get_refconn yields a channel, whether the reply is there before the
    wait and when the wait ends, and whether the channel is dead then. *)
Record turn := Turn { t_now : timespec; t_conn : bool; t_early : bool; t_done : bool; t_dead : bool }.

(** [Spinning]: pthread_cond_timedwait rejects a deadline whose tv_nsec is
    10^9 with EINVAL and without giving up ca.m; the inner while loop
    retries it forever, and got_pdu cannot set [done] because it needs
    ca.m. *)
Inductive outcome := Replied | TimedOut | Spinning | Waiting.

Definition valid_deadline (d : timespec) : bool := (0 <=? tv_nsec d) && (tv_nsec d <? 1000000000).

Definition to_min : Z := 1000.

(** The outcome and how often the request was sent; [Waiting] when the
    turns are used up.  A deadline whose tv_sec is 0 marks the last turn. *)
Fixpoint call1_loop (retrans reachable : bool) (ts : list turn) (curr_to : Z) (final : timespec) (transmit ch : bool)
  : res (outcome * nat) :=
  match ts with
  | [] => Ret (Waiting, 0%nat)
  | t :: ts =>
      let ch := if transmit then ch || t_conn t else ch in
      let sends := if transmit && ch && reachable then 1%nat else 0%nat in
      if tv_sec final =? 0 then Ret (TimedOut, sends)
      else
        next ← add_timespec (t_now t) curr_to;
        let '(next, final) :=
          if cmp_timespec next final >? 0 then (final, Timespec 0 (tv_nsec final)) else (next, final) in
        if t_early t then Ret (Replied, sends)
        else if negb (valid_deadline next) then Ret (Spinning, sends)
        else if t_done t then Ret (Replied, sends)
        else
          let transmit := retrans && (negb ch || t_dead t) in
          curr_to ← chk_int (Z.shiftl curr_to 1);
          '(o, n) ← call1_loop retrans reachable ts curr_to final transmit ch;
          Ret (o, (sends + n)%nat)
  end.

(** call1's loop from the start; [now] is the clock when it begins. *)
Definition call1_wait (retrans reachable : bool) (now : timespec) (to : Z) (ts : list turn) : res (outcome * nat) :=
  final ← add_timespec now to;
  call1_loop retrans reachable ts to_min final true false.

(** *** Arithmetic of deadlines *)

Definition time (a : timespec) : Z := tv_sec a * 1000000000 + tv_nsec a.
Definition clock_ok (a : timespec) : Prop := 0 <= tv_nsec a < 1000000000.

Lemma add_timespec_eq a b :
  clock_ok a -> 0 <= b ->
  exists c, add_timespec a b = Ret c /\ time c = time a + b * 1000000 /\
    0 <= tv_nsec c <= 1000000000 /\
    (tv_nsec c = 1000000000 <-> tv_nsec a + (b mod 1000) * 1000000 = 1000000000) /\
    tv_sec a <= tv_sec c.
Proof.
  unfold clock_ok. intros Ha Hb. unfold add_timespec.
  rewrite Z.quot_div_nonneg, Z.rem_mod_nonneg by lia.
  pose proof (Z.mod_pos_bound b 1000 ltac:(lia)) as Hm. pose proof (Z.div_mod b 1000 ltac:(lia)) as Hd.
  pose proof (Z.div_pos b 1000 Hb ltac:(lia)) as Hp.
  set (q := b / 1000) in *. set (r := b mod 1000) in *. unfold verify.
  destruct (Z.leb_spec 0 (tv_nsec a + r * 1000000)); [|lia].
  eexists. split; [done|]. cbn [carry]. rewrite !Z.gtb_ltb.
  destruct (Z.ltb_spec 1000000000 (tv_nsec a + r * 1000000)); unfold time; cbn.
  - destruct (Z.ltb_spec 1000000000 (tv_nsec a + r * 1000000 - 1000000000)); [lia|]. cbn. lia.
  - lia.
Qed.


(** The clock runs: a turn that ends without a reply has waited until its
    deadline, so the next turn starts then or later. *)
Fixpoint paced (ts : list turn) (curr_to : Z) (final : timespec) : Prop :=
  match ts with
  | [] => True
  | t :: ts =>
      clock_ok (t_now t) /\
      (forall next, add_timespec (t_now t) curr_to = Ret next -> t_early t = false -> t_done t = false ->
         let last := cmp_timespec next final >? 0 in
         (forall t', head ts = Some t' -> time (if last then final else next) <= time (t_now t')) /\
         paced ts (2 * curr_to) (if last then Timespec 0 (tv_nsec final) else final))
  end.


(** Timeouts of whole seconds keep the nanoseconds of the clock. *)
Lemma add_seconds a b c :
  clock_ok a -> 0 <= b -> b mod 1000 = 0 -> add_timespec a b = Ret c -> clock_ok c.
Proof.
  intros Ha Hb Hm E. destruct (add_timespec_eq a b Ha Hb) as (c' & E' & _ & N & F & _).
  rewrite E in E'. injection E' as <-. unfold clock_ok in *. lia.
Qed.

Lemma valid_clock d : clock_ok d -> valid_deadline d = true.
Proof. intros [? ?]. unfold valid_deadline. repeat bcase. Qed.


(** *** A server that is not there *)

(** A turn in which no connection can be made and no reply comes. *)
Definition unanswered (t : turn) : Prop := t_conn t = false /\ t_early t = false /\ t_done t = false.

(** No turn begins more than [d] nanoseconds after the wait before it could
    end. *)
Fixpoint punctual (d : Z) (ts : list turn) (curr_to : Z) (final : timespec) : Prop :=
  match ts with
  | [] => True
  | t :: ts =>
      tv_sec final <> 0 -> forall next, add_timespec (t_now t) curr_to = Ret next ->
        let last := cmp_timespec next final >? 0 in
        (forall t', head ts = Some t' ->
           time (t_now t') <= Z.max (time (if last then final else next)) (time (t_now t)) + d) /\
        punctual d ts (2 * curr_to) (if last then Timespec 0 (tv_nsec final) else final)
  end.

(** The clock when the loop ends without a reply. *)
Fixpoint ends_at (ts : list turn) (curr_to : Z) (final : timespec) : option timespec :=
  match ts with
  | [] => None
  | t :: ts =>
      if tv_sec final =? 0 then Some (t_now t)
      else match add_timespec (t_now t) curr_to with
           | Ret next => ends_at ts (2 * curr_to) (if cmp_timespec next final >? 0 then Timespec 0 (tv_nsec final) else final)
           | Crash _ => None
           end
  end.

Lemma cmp_time_gt a b : clock_ok a -> clock_ok b -> (cmp_timespec a b >? 0) = (time b <? time a).
Proof.
  unfold clock_ok, time, cmp_timespec. intros. rewrite !Z.gtb_ltb.
  destruct (Z.ltb_spec (tv_sec b) (tv_sec a)), (Z.ltb_spec (tv_sec a) (tv_sec b)),
    (Z.ltb_spec (tv_nsec b) (tv_nsec a)), (Z.ltb_spec (tv_nsec a) (tv_nsec b));
    cbn; symmetry; first [apply Z.ltb_lt; lia|apply Z.ltb_ge; lia].
Qed.

(** One turn of an unanswered call. *)
Lemma unanswered_turn d reachable t t1 ts curr_to final :
  tv_sec final <> 0 -> clock_ok final -> unanswered t -> 0 < curr_to <= 2 ^ 20 -> curr_to mod 1000 = 0 ->
  paced (t :: t1 :: ts) curr_to final -> punctual d (t :: t1 :: ts) curr_to final ->
  let last := time final <? time (t_now t) + curr_to * 1000000 in
  let deadline := if last then time final else time (t_now t) + curr_to * 1000000 in
  let final' := if last then Timespec 0 (tv_nsec final) else final in
  deadline <= time (t_now t1) <= Z.max deadline (time (t_now t)) + d /\
  paced (t1 :: ts) (2 * curr_to) final' /\ punctual d (t1 :: ts) (2 * curr_to) final' /\
  ends_at (t :: t1 :: ts) curr_to final = ends_at (t1 :: ts) (2 * curr_to) final' /\
  call1_loop true reachable (t :: t1 :: ts) curr_to final true false =
    call1_loop true reachable (t1 :: ts) (2 * curr_to) final' true false.
Proof.
  intros Hf Hfc (Hcn & He & Hd) Hc Hm [Hclk Hp] Hpu last deadline final'.
  destruct (add_timespec_eq (t_now t) curr_to Hclk ltac:(lia)) as (next & En & Tn & _).
  pose proof (add_seconds (t_now t) curr_to next Hclk ltac:(lia) Hm En) as Hcn'.
  destruct (Hp next En He Hd) as [Hlow Hp']. destruct (Hpu Hf next En) as [Hup Hpu'].
  assert (Hcmp : (cmp_timespec next final >? 0) = last) by (rewrite cmp_time_gt, Tn by done; done).
  rewrite Hcmp in *. specialize (Hlow t1 eq_refl). specialize (Hup t1 eq_refl).
  assert (Hdl : time (if last then final else next) = deadline) by (unfold deadline; destruct last; [done|exact Tn]).
  rewrite Hdl in *. split; [lia|]. split; [exact Hp'|]. split; [exact Hpu'|]. apply Z.eqb_neq in Hf. split.
  { change (ends_at (t :: t1 :: ts) curr_to final) with (if tv_sec final =? 0 then Some (t_now t)
      else match add_timespec (t_now t) curr_to with
           | Ret next => ends_at (t1 :: ts) (2 * curr_to) (if cmp_timespec next final >? 0 then Timespec 0 (tv_nsec final) else final)
           | Crash _ => None
           end). by rewrite Hf, En, Hcmp. }
  remember (t1 :: ts) as l. cbn [call1_loop]. rewrite Hf, En. cbn [mbind res_bind]. rewrite Hcmp, Hcn, He, Hd.
  assert (Hsh : chk_int (Z.shiftl curr_to 1) = Ret (2 * curr_to)).
  { rewrite Z.shiftl_mul_pow2 by lia. change (2 ^ 1) with 2. rewrite Z.mul_comm. apply chk_int_ok. unfold is_i32. lia. }
  assert (Hv : valid_deadline (if last then final else next) = true) by (destruct last; by apply valid_clock).
  unfold final'. destruct last; cbn [orb andb negb]; rewrite Hv, Hsh; cbn [negb andb orb mbind res_bind Nat.add];
    destruct (call1_loop true reachable l (2 * curr_to) _ true false) as [[o n]|]; done.
Qed.

(** A call with a timeout of three seconds that cannot be sent times out,
    and takes little more than that. *)
Lemma call1_times_out d reachable now final t1 t2 t3 t4 ts :
  let all := t1 :: t2 :: t3 :: t4 :: ts in
  clock_ok now -> 0 < tv_sec now -> 0 <= d < 1000000000 -> add_timespec now 3000 = Ret final ->
  time now <= time (t_now t1) <= time now + d ->
  Forall unanswered all -> paced all to_min final -> punctual d all to_min final ->
  call1_wait true reachable now 3000 all = Ret (TimedOut, 0%nat) /\
  exists e, ends_at all to_min final = Some e /\ clock_ok e /\ time e <= time now + 3000000000 + 2 * d.
Proof.
  intros all Hn Hs Hd Ef Ht1 Hu Hp Hpu.
  destruct (add_timespec_eq now 3000 Hn ltac:(lia)) as (f & Ef' & Tf & _ & _ & Sf). rewrite Ef in Ef'. injection Ef' as <-.
  pose proof (add_seconds now 3000 final Hn ltac:(lia) eq_refl Ef) as Hfc.
  apply Forall_cons in Hu as [Hu1 Hu]. apply Forall_cons in Hu as [Hu2 Hu]. apply Forall_cons in Hu as [Hu3 Hu].
  unfold call1_wait. rewrite Ef. cbn [mbind res_bind]. unfold all in *. clear all.
  assert (Hend : forall t ts c n, call1_loop true reachable (t :: ts) c (Timespec 0 n) true false =
    Ret (TimedOut, if t_conn t && reachable then 1%nat else 0%nat)) by done.
  assert (Hclk : forall t ts c n, paced (t :: ts) c n -> clock_ok (t_now t)) by (intros ? ? ? ? [? _]; done).
  destruct (unanswered_turn d reachable t1 t2 (t3 :: t4 :: ts) to_min final) as (R1 & Hp2 & Hpu2 & A1 & L1); try done; [lia|].
  rewrite L1, A1. unfold to_min in *. destruct (Z.ltb_spec (time final) (time (t_now t1) + 1000 * 1000000)); [lia|].
  destruct (unanswered_turn d reachable t2 t3 (t4 :: ts) (2 * 1000) final) as (R2 & Hp3 & Hpu3 & A2 & L2); try done; [lia|].
  rewrite L2, A2. destruct (Z.ltb_spec (time final) (time (t_now t2) + 2 * 1000 * 1000000)).
  { rewrite Hend. destruct Hu3 as (-> & _). cbn [andb]. split; [done|]. exists (t_now t3). split; [done|]. split; [by eapply Hclk|lia]. }
  destruct (unanswered_turn d reachable t3 t4 ts (2 * (2 * 1000)) final) as (R3 & Hp4 & Hpu4 & A3 & L3); try done; [lia|].
  rewrite L3, A3. destruct (Z.ltb_spec (time final) (time (t_now t3) + 2 * (2 * 1000) * 1000000)); [|lia].
  rewrite Hend. apply Forall_cons in Hu as [(-> & _) _]. cbn [andb]. split; [done|].
  exists (t_now t4). split; [done|]. split; [by eapply Hclk|lia].
Qed.




(** A timeout that is not a whole number of seconds can make the final
    deadline one that the wait rejects, and the call never ends. *)
Lemma call1_spins :
  call1_wait true true (Timespec 100 500000000) 1500
    [Turn (Timespec 100 500000000) true false false false;
     Turn (Timespec 101 500000000) true false true false] = Ret (Spinning, 1%nat).
Proof. reflexivity. Qed.

(** Adding a timeout keeps the exact time, but not always a valid
    timespec: the carry loop leaves tv_nsec at 10^9 exactly when the
    nanoseconds add up to one full second. *)
Theorem add_timespec_spec (a : timespec) (b : Z) :
  clock_ok a -> 0 <= b ->
  exists c, add_timespec a b = Ret c /\ time c = time a + b * 1000000 /\ 0 <= tv_nsec c <= 1000000000 /\
    (~ clock_ok c <-> tv_nsec a + (b mod 1000) * 1000000 = 1000000000).
Proof.
  intros Ha Hb. destruct (add_timespec_eq a b Ha Hb) as (c & E & T & N & F & _).
  exists c. split; [done|]. split; [done|]. split; [done|]. rewrite <- F. unfold clock_ok. lia.
Qed.

Lemma add_timespec_spec_witness :
  exists c, add_timespec (Timespec 5 500000000) 1500 = Ret c /\ time c = 7000000000 /\ ~ clock_ok c.
Proof.
  destruct (add_timespec_spec (Timespec 5 500000000) 1500) as (c & H1 & H2 & _ & H3); [split; cbn; lia|lia|].
  exists c. split; [exact H1|]. split; [exact H2|]. apply H3. reflexivity.
Defined.
