(* ===== verification/RpcThreads.v ===== *)
(** * The threads of one rpcc (rpc/rpc.cc)

    Any number of threads inside call1, the poll thread that delivers
    replies, and a thread that cancels the outstanding calls before the
    client is deleted.  The critical sections of RpcClient.v are the steps;
    between its start and its end a call transmits, which can block in
    get_refconn and in ch->send, and waits; cancel waits on its condition
    variable until no call is left. *)

From Stdlib Require Import ZArith Lia.
From stdpp Require Import base list gmap.
From S2P Require Import Prelude Marshall RpcServer RpcClient.

#[local] Open Scope Z_scope.
#[local] Set Warnings "-clear-no-such-hyp".

Module rpc_threads.

(** The cancelling thread: before cancel, in pthread_cond_wait, signalled
    and about to test again, after cancel. *)
Inductive canceller := Before | Asleep | Awake | After.

(** Where a call is in the loop of call1: about to get a connection, inside
    ch->send with these messages to go, or past the transmission. *)
Inductive place := Transmit | Sending (msgs : list (list cell)) | Waiting.

(** A call inside call1: its request, the acknowledgement it carried and
    where it is. *)
Record pending := Pending { p_req : marshall; p_rep : Z; p_at : place }.

Definition at_place (pl : place) (p : pending) : pending := Pending (p_req p) (p_rep p) pl.

(** [answers] are the replies got_pdu has accepted so far, latest first:
    xid, status and body; [results] what the calls that ended returned. *)
Record sys := Sys {
  clt : rpcc;
  inside : gmap Z pending;
  canc : canceller;
  answers : list (Z * (Z * unmarshall));
  results : list (Z * (Z * unmarshall))
}.

(** got_pdu's header and body, when the PDU has a header. *)
Definition answer_of (b : bytes) (sz : Z) : res (list (Z * (Z * unmarshall))) :=
  '(h, rep) ← unpack_reply_header (unmarshall_buf b sz);
  Ret (if u_ok rep then [(rp_xid h, (rp_ret h, (take_in unmarshall_new rep).1))] else []).

(** One test of cancel's loop [while (calls_.size() > 0)]. *)
Definition cancel_test (c : rpcc) : canceller * rpcc :=
  if bool_decide (c_calls c = ∅) then (After, c) else (Asleep, set_destroy_wait true c).

(** Signals destroy_wait_c_ when destroy_wait_ is set. *)
Definition signalled (c : rpcc) (p : canceller) : canceller :=
  match p with Asleep => if c_destroy_wait c then Awake else Asleep | _ => p end.

(** With [stuck] get_refconn, which connects, and send do not return. *)
Inductive step (stuck : bool) : sys -> sys -> Prop :=
| st_start σ proc m xid rep req c :
    call1_start proc m (clt σ) = Ret (Started xid rep req c) -> xid < 2 ^ 31 - 1 ->
    step stuck σ (Sys c (<[xid := Pending req rep Transmit]> (inside σ)) (canc σ) (answers σ) (results σ))
| st_refused σ proc m ret :
    call1_start proc m (clt σ) = Ret (Refused ret) -> step stuck σ σ
| st_no_channel σ xid p :
    inside σ !! xid = Some p -> p_at p = Transmit -> stuck = false ->
    step stuck σ (Sys (clt σ) (<[xid := at_place Waiting p]> (inside σ)) (canc σ) (answers σ) (results σ))
| st_transmit σ xid p sends c :
    inside σ !! xid = Some p -> p_at p = Transmit -> stuck = false -> call1_transmit (p_req p) (clt σ) = (sends, c) ->
    step stuck σ (Sys c (<[xid := at_place (Sending sends) p]> (inside σ)) (canc σ) (answers σ) (results σ))
| st_sent σ xid p s l :
    inside σ !! xid = Some p -> p_at p = Sending (s :: l) -> stuck = false ->
    step stuck σ (Sys (clt σ) (<[xid := at_place (Sending l) p]> (inside σ)) (canc σ) (answers σ) (results σ))
| st_all_sent σ xid p :
    inside σ !! xid = Some p -> p_at p = Sending [] ->
    step stuck σ (Sys (clt σ) (<[xid := at_place Waiting p]> (inside σ)) (canc σ) (answers σ) (results σ))
| st_again σ xid p ca :
    inside σ !! xid = Some p -> p_at p = Waiting -> c_retrans (clt σ) = true ->
    c_calls (clt σ) !! xid = Some ca -> ca_done ca = false ->
    step stuck σ (Sys (clt σ) (<[xid := at_place Transmit p]> (inside σ)) (canc σ) (answers σ) (results σ))
| st_reply σ b sz c l :
    got_pdu b sz (clt σ) = Ret c -> answer_of b sz = Ret l ->
    step stuck σ (Sys c (inside σ) (canc σ) (l ++ answers σ) (results σ))
| st_end σ xid p ca (timeout : bool) ret u c :
    inside σ !! xid = Some p -> p_at p = Waiting -> c_calls (clt σ) !! xid = Some ca -> ca_done ca = true \/ timeout = true ->
    call1_finish xid (p_rep p) (p_req p) (clt σ) = Ret (ret, u, c) ->
    step stuck σ (Sys c (delete xid (inside σ)) (signalled (clt σ) (canc σ)) (answers σ) ((xid, (ret, u)) :: results σ))
| st_bound σ ret r :
    step stuck σ (Sys (bind_done ret r (clt σ)) (inside σ) (canc σ) (answers σ) (results σ))
| st_cancel σ :
    canc σ = Before ->
    step stuck σ (Sys (cancel (clt σ)) (inside σ) (if bool_decide (c_calls (clt σ) = ∅) then After else Asleep)
      (answers σ) (results σ))
| st_wake σ p c :
    canc σ = Asleep \/ canc σ = Awake -> cancel_test (clt σ) = (p, c) ->
    step stuck σ (Sys c (inside σ) p (answers σ) (results σ)).

Definition sys_new (retrans : bool) (nonce lossy : Z) : sys :=
  Sys (rpcc_new retrans nonce lossy) ∅ Before [] [].

Inductive reachable (retrans : bool) (nonce lossy : Z) : sys -> Prop :=
| reach_new : reachable retrans nonce lossy (sys_new retrans nonce lossy)
| reach_step σ σ' : reachable retrans nonce lossy σ -> step false σ σ' -> reachable retrans nonce lossy σ'.

(** The destructor: the connections it closes and what it does to the
    reference counts, or a failed VERIFY. *)
Definition rpcc_delete (chan : option conn) (c : rpcc) : res (list conn * list action) :=
  let out := match chan with Some k => ([k], [Decref k]) | None => ([], []) end in
  verify (bool_decide (c_calls c = ∅)) (Ret out).

(** ** Invariant *)

(** A caller whose call is over: its status and body come from a reply with its
    xid, or it was cancelled. *)
Definition settled (σ : sys) (x : Z) (r : Z * unmarshall) : Prop :=
  (x, r) ∈ answers σ \/ (r.1 = rpc_const.cancel_failure /\ canc σ <> Before).

Record inv (σ : sys) : Prop := Inv {
  i_window : c_xid_rep_window (clt σ) <> [];
  i_xid : 0 < c_xid (clt σ) < 2 ^ 31;
  i_dom : dom (c_calls (clt σ)) = dom (inside σ);
  i_fresh : forall x, is_Some (inside σ !! x) \/ x ∈ (results σ).*1 -> 0 < x < c_xid (clt σ);
  i_once : NoDup (results σ).*1 /\ forall x, is_Some (inside σ !! x) -> x ∉ (results σ).*1;
  i_settled : forall x ca, c_calls (clt σ) !! x = Some ca -> ca_done ca = true -> settled σ x (ca_intret ca, ca_un ca);
  i_open : forall x ca, c_calls (clt σ) !! x = Some ca -> ca_done ca = false -> ca = Caller unmarshall_new 0 false;
  i_results : forall x r, (x, r) ∈ results σ -> settled σ x r \/ r.1 = rpc_const.timeout_failure;
  i_wait : canc σ = Asleep \/ canc σ = Awake ->
    c_destroy_wait (clt σ) = true /\ forall x ca, c_calls (clt σ) !! x = Some ca -> ca_done ca = true;
  i_asleep : canc σ = Asleep -> c_calls (clt σ) <> ∅;
  i_after : canc σ = After -> c_destroy_wait (clt σ) = true -> c_calls (clt σ) = ∅
}.

Lemma compress_nonempty l pre : pre <> [] -> compress pre l <> [].
Proof.
  revert pre. induction l as [|y l IH]; intros pre Hp; [done|]. cbn. apply IH. by destruct (pop_before y pre).
Qed.

Lemma update_xid_rep_total x w : w <> [] -> exists w', update_xid_rep x w = Ret w' /\ w' <> [].
Proof.
  intros Hw. destruct w as [|f l]; [done|]. unfold update_xid_rep. destruct (x <=? f); [by eexists|].
  cbn [insert_xid]. destruct (f >? x); (eexists; split; [done|by apply compress_nonempty]).
Qed.

Lemma update_xid_rep_nonempty x w w' : update_xid_rep x w = Ret w' -> w' <> [].
Proof.
  destruct w as [|f l]; [done|]. intros E. destruct (update_xid_rep_total x (f :: l)) as (v & E' & Hv); [done|].
  rewrite E in E'. by injection E' as ->.
Qed.

(** What the invariant depends on. *)
Record same_calls (c c' : rpcc) : Prop := SameCalls {
  sc_calls : c_calls c' = c_calls c;
  sc_window : c_xid_rep_window c' <> [];
  sc_xid : c_xid c' = c_xid c;
  sc_wait : c_destroy_wait c' = c_destroy_wait c
}.

Lemma inv_same σ c : inv σ -> same_calls (clt σ) c -> inv (Sys c (inside σ) (canc σ) (answers σ) (results σ)).
Proof.
  intros [I1 I2 I3 I4 I5 I6 I7 I8 I9 I10 I11] [S1 S2 S3 S4]. by split; cbn; rewrite ?S1, ?S3, ?S4.
Qed.

(** Where a call is does not matter to it. *)
Lemma inv_place σ xid p p' :
  inv σ -> inside σ !! xid = Some p ->
  inv (Sys (clt σ) (<[xid := p']> (inside σ)) (canc σ) (answers σ) (results σ)).
Proof.
  intros [I1 I2 I3 I4 [I5 I5'] I6 I7 I8 I9 I10 I11] Hp.
  assert (Hin : forall x, is_Some (<[xid := p']> (inside σ) !! x) <-> is_Some (inside σ !! x)).
  { intros x. destruct (decide (x = xid)) as [->|]; [rewrite lookup_insert_eq|by rewrite lookup_insert_ne]. split; eauto. }
  split; cbn; try done.
  - rewrite I3. apply set_eq. intros x. by rewrite !elem_of_dom, Hin.
  - intros x. rewrite Hin. apply I4.
  - split; [done|]. intros x. rewrite Hin. apply I5'.
Qed.

Lemma transmit_same req c sends c' : c_xid_rep_window c <> [] -> call1_transmit req c = (sends, c') ->
  same_calls c c' /\ (length sends <= 2)%nat.
Proof.
  intros Hw E. unfold call1_transmit in E. destruct (c_reachable c); [destruct (_ && _)|]; injection E as <- <-;
    (split; [by split|cbn; lia]).
Qed.

Lemma th_inv_new retrans nonce lossy : inv (sys_new retrans nonce lossy).
Proof.
  split; cbn; try done.
  - intros x [[? H]|H]; [done|by apply not_elem_of_nil in H].
  - split; [constructor|]. by intros x [? H].
  - intros x r H. by apply not_elem_of_nil in H.
  - by intros [|].
Qed.

Lemma started_spec proc m c xid rep req c' : call1_start proc m c = Ret (Started xid rep req c') -> c_xid c < 2 ^ 31 ->
  0 < c_xid c ->
  xid = c_xid c /\ c_destroy_wait c = false /\ c_destroy_wait c' = false /\ c_xid c' = xid + 1 /\
  c_calls c' = <[xid := Caller unmarshall_new 0 false]> (c_calls c) /\ c_xid_rep_window c' = c_xid_rep_window c.
Proof.
  unfold call1_start. intros E Hx Hp. destruct (_ || _); [done|]. destruct (c_destroy_wait c) eqn:Ed; [done|].
  destruct (c_xid_rep_window c) as [|front l] eqn:Ew; [done|].
  rinv E. injection E as <- <- <- <-. cbn. rewrite u32_small, i32_small by (unfold is_u32, is_i32; lia). done.
Qed.

Lemma inv_start σ proc m xid rep req c :
  inv σ -> call1_start proc m (clt σ) = Ret (Started xid rep req c) -> xid < 2 ^ 31 - 1 ->
  inv (Sys c (<[xid := Pending req rep Transmit]> (inside σ)) (canc σ) (answers σ) (results σ)).
Proof.
  intros [I1 I2 I3 I4 I5 I6 I7 I8 I9 I10 I11] E Hx.
  destruct (started_spec _ _ _ _ _ _ _ E) as (-> & Hd & Hd' & Hx' & Hc & Hw); [lia|lia|].
  set (x := c_xid (clt σ)) in *.
  assert (Hn : x ∉ (results σ).*1) by (intros H; specialize (I4 x (or_intror H)); lia).
  split; cbn; rewrite ?Hc, ?Hw, ?Hx'; try done.
  - lia.
  - rewrite !dom_insert_L. by rewrite I3.
  - intros y [H|H]; [|specialize (I4 y (or_intror H)); lia].
    destruct (decide (y = x)) as [->|]; [lia|]. rewrite lookup_insert_ne in H by done. specialize (I4 y (or_introl H)). lia.
  - split; [apply I5|]. intros y H. destruct (decide (y = x)) as [->|]; [done|].
    rewrite lookup_insert_ne in H by done. by apply I5.
  - intros y ca. destruct (decide (y = x)) as [->|]; [rewrite lookup_insert_eq; by intros [= <-]|].
    rewrite lookup_insert_ne by done. apply I6.
  - intros y ca. destruct (decide (y = x)) as [->|]; [rewrite lookup_insert_eq; by intros [= <-]|].
    rewrite lookup_insert_ne by done. apply I7.
  - intros H. destruct (I9 H) as [H' _]. congruence.
  - intros H _. specialize (I9 (or_introl H)). destruct I9. congruence.
  - congruence.
Qed.

(** A reply completes the call with its xid, if there is one that waits. *)
Lemma got_pdu_spec b sz c c' l :
  c_xid_rep_window c <> [] -> got_pdu b sz c = Ret c' -> answer_of b sz = Ret l ->
  same_calls c c' \/
  exists x ret u ca, l = [(x, (ret, u))] /\ c_calls c !! x = Some ca /\ ca_done ca = false /\
    same_calls (set_calls (<[x := Caller u ret true]> (c_calls c)) c) c'.
Proof.
  unfold got_pdu, answer_of. intros Hw E El. rinv E. destruct a as [h rep]. rewrite E0 in El. injection El as <-.
  destruct (u_ok rep); cbn [negb] in E; [|injection E as <-; by left].
  rinv E. pose proof (update_xid_rep_nonempty _ _ _ E1) as Hne. cbn [c_calls set_rep_window] in E.
  destruct (c_calls c !! rp_xid h) as [ca|] eqn:Ec; injection E as <-; [|by left].
  destruct (ca_done ca) eqn:Ed; cbn [negb].
  - left. split; cbn; try done. by apply insert_id.
  - right. eexists _, _, _, ca. split; [done|]. do 2 (split; [done|]). by split.
Qed.

Lemma settled_more σ x r l p : settled σ x r -> (canc σ <> Before -> p <> Before) ->
  forall c m res, settled (Sys c m p (l ++ answers σ) res) x r.
Proof.
  intros [H|[H1 H2]] Hp c m res; [left; cbn; apply elem_of_app; by right|right; cbn; auto].
Qed.

Lemma inv_reply σ b sz c l :
  inv σ -> got_pdu b sz (clt σ) = Ret c -> answer_of b sz = Ret l ->
  inv (Sys c (inside σ) (canc σ) (l ++ answers σ) (results σ)).
Proof.
  intros Hi E El. assert (Hm : forall x r, settled σ x r -> settled (Sys c (inside σ) (canc σ) (l ++ answers σ) (results σ)) x r)
    by (intros x r H; by apply settled_more).
  destruct Hi as [I1 I2 I3 I4 I5 I6 I7 I8 I9 I10 I11].
  assert (Hres : forall x r, (x, r) ∈ results σ ->
    settled (Sys c (inside σ) (canc σ) (l ++ answers σ) (results σ)) x r \/ r.1 = rpc_const.timeout_failure)
    by (intros x r H; destruct (I8 x r H); auto).
  destruct (got_pdu_spec _ _ _ _ _ I1 E El) as [[S1 S2 S3 S4]|(x & ret & u & ca & -> & Ec & Ed & [S1 S2 S3 S4])];
    [split; cbn; rewrite ?S1, ?S3, ?S4; eauto|].
  cbn in S1, S3, S4. split; cbn; rewrite ?S1, ?S3, ?S4; try done.
  - rewrite dom_insert_L, I3. assert (x ∈ dom (inside σ)) by (rewrite <- I3; by apply elem_of_dom_2 in Ec). set_solver.
  - intros y cb. destruct (decide (y = x)) as [->|].
    + rewrite lookup_insert_eq. intros [= <-] _. left. cbn. apply elem_of_cons. by left.
    + rewrite lookup_insert_ne by done. eauto.
  - intros y cb. destruct (decide (y = x)) as [->|]; [rewrite lookup_insert_eq; by intros [= <-]|].
    rewrite lookup_insert_ne by done. apply I7.
  - intros H. destruct (I9 H) as [H1 H2]. split; [done|]. intros y cb.
    destruct (decide (y = x)) as [->|]; [rewrite lookup_insert_eq; by intros [= <-]|]. rewrite lookup_insert_ne by done. apply H2.
  - intros _. apply insert_non_empty.
  - intros H1 H2. rewrite (I11 H1 H2) in Ec. done.
Qed.

Lemma finish_spec xid rep req c ret u c' :
  call1_finish xid rep req c = Ret (ret, u, c') -> 0 < xid < 2 ^ 31 ->
  exists ca, c_calls c !! xid = Some ca /\ u = ca_un ca /\
    ret = (if ca_done ca then ca_intret ca else rpc_const.timeout_failure) /\
    same_calls (set_calls (delete xid (c_calls c)) c) c'.
Proof.
  unfold call1_finish. intros E Hx. rewrite i32_small in E by (unfold is_i32; lia).
  destruct (c_calls c !! xid) as [ca|] eqn:Ec; [|done]. rinv E. injection E as <- <- <-.
  pose proof (update_xid_rep_nonempty _ _ _ E0) as Hne. exists ca. do 3 (split; [done|]).
  match goal with |- context [if ?q then set_dup _ _ _ else _] => destruct q end; by split.
Qed.

Lemma signalled_after c p : p <> Before -> signalled c p <> Before.
Proof. destruct p; cbn; try done. by destruct (c_destroy_wait c). Qed.

Lemma signalled_waits c p : signalled c p = Asleep \/ signalled c p = Awake -> p = Asleep \/ p = Awake.
Proof. destruct p; cbn; auto. Qed.

Lemma signalled_asleep c p : signalled c p = Asleep -> p = Asleep /\ c_destroy_wait c = false.
Proof. destruct p; cbn; try done. by destruct (c_destroy_wait c). Qed.

Lemma signalled_done c p : signalled c p = After -> p = After.
Proof. destruct p; cbn; try done. by destruct (c_destroy_wait c). Qed.

Lemma results_more σ l p c m :
  inv σ -> (canc σ <> Before -> p <> Before) -> forall x r, (x, r) ∈ results σ -> forall res,
  settled (Sys c m p (l ++ answers σ) res) x r \/ r.1 = rpc_const.timeout_failure.
Proof. intros Hi Hp x r H res. destruct (i_results _ Hi x r H); [left; by apply settled_more|by right]. Qed.

Lemma inv_end σ xid p ca ret u c :
  inv σ -> inside σ !! xid = Some p -> c_calls (clt σ) !! xid = Some ca ->
  call1_finish xid (p_rep p) (p_req p) (clt σ) = Ret (ret, u, c) ->
  inv (Sys c (delete xid (inside σ)) (signalled (clt σ) (canc σ)) (answers σ) ((xid, (ret, u)) :: results σ)).
Proof.
  intros Hi Hp Hca E. pose proof Hi as [I1 I2 I3 I4 [I5 I5'] I6 I7 I8 I9 I10 I11].
  pose proof (signalled_after (clt σ) (canc σ)) as Hsig.
  pose proof (I4 xid (or_introl (mk_is_Some _ _ Hp))) as Hx.
  destruct (finish_spec _ _ _ _ _ _ _ E) as (ca' & Ec & -> & -> & [S1 S2 S3 S4]); [lia|].
  rewrite Hca in Ec. injection Ec as <-. cbn in S1, S3, S4.
  assert (Hn : xid ∉ (results σ).*1) by (apply I5'; eauto).
  split; cbn; rewrite ?S1, ?S3, ?S4; try done.
  - by rewrite !dom_delete_L, I3.
  - intros y [[q H]|H]; [|apply elem_of_cons in H as [->|H]; [lia|apply I4; auto]].
    apply lookup_delete_Some in H as [_ H]. apply I4. left. eauto.
  - split; [by constructor|]. intros y [q H]. apply lookup_delete_Some in H as [Hy H].
    rewrite elem_of_cons. intros [?|H']; [congruence|]. by apply (I5' y); [eauto|].
  - intros y cb [_ H]%lookup_delete_Some Hd. by apply (settled_more σ _ _ []); [apply I6|].
  - intros y cb [_ H]%lookup_delete_Some. intros Hd; by apply (I7 y cb).
  - intros y r [[= -> ->]|H]%elem_of_cons.
    + destruct (ca_done ca) eqn:Ed; [|by right]. left. by apply (settled_more σ _ _ []); [apply I6|].
    + by apply (results_more σ []).
  - intros H%signalled_waits. destruct (I9 H) as [H1 H2]. split; [done|]. intros y cb [_ H']%lookup_delete_Some. eauto.
  - intros [H Hd]%signalled_asleep. destruct (I9 (or_introl H)). congruence.
  - intros H%signalled_done Hd. rewrite (I11 H Hd) in Hca. done.
Qed.

Lemma inv_cancel σ : inv σ -> canc σ = Before ->
  inv (Sys (cancel (clt σ)) (inside σ) (if bool_decide (c_calls (clt σ) = ∅) then After else Asleep) (answers σ) (results σ)).
Proof.
  intros Hi Hb. pose proof Hi as [I1 I2 I3 I4 I5 I6 I7 I8 I9 I10 I11]. unfold cancel. cbn [c_calls set_calls].
  set (f := fun ca => Caller (ca_un ca) rpc_const.cancel_failure true).
  assert (Hf : f <$> c_calls (clt σ) = ∅ <-> c_calls (clt σ) = ∅) by apply fmap_empty_iff.
  rewrite (bool_decide_ext _ _ Hf). case_bool_decide as He.
  - split; cbn; rewrite ?He, ?fmap_empty; try done; [by rewrite <- I3, He| |by intros [|]].
    intros x r H. by apply (results_more σ []).
  - split; cbn; try done.
    + by rewrite dom_fmap_L.
    + intros x ca. rewrite lookup_fmap_Some. intros (cb & <- & _) _. by right.
    + intros x ca. rewrite lookup_fmap_Some. by intros (cb & <- & _).
    + intros x r H. by apply (results_more σ []).
    + intros _. split; [done|]. intros x ca. rewrite lookup_fmap_Some. by intros (cb & <- & _).
    + by rewrite Hf.
Qed.

Lemma inv_wake σ p c : inv σ -> canc σ = Asleep \/ canc σ = Awake -> cancel_test (clt σ) = (p, c) ->
  inv (Sys c (inside σ) p (answers σ) (results σ)).
Proof.
  intros Hi Hc E. pose proof Hi as [I1 I2 I3 I4 I5 I6 I7 I8 I9 I10 I11]. destruct (I9 Hc) as [Hd Hdone]. unfold cancel_test in E.
  assert (Hp : p <> Before) by (destruct (bool_decide _); by injection E as <- <-).
  assert (Hs : forall x r, settled σ x r -> settled (Sys c (inside σ) p (answers σ) (results σ)) x r)
    by (intros x r H; by apply (settled_more σ _ _ [])).
  assert (Hres : forall x r, (x, r) ∈ results σ ->
    settled (Sys c (inside σ) p (answers σ) (results σ)) x r \/ r.1 = rpc_const.timeout_failure)
    by (intros x r H; by apply (results_more σ [])).
  case_bool_decide as He; injection E as <- <-; split; cbn; eauto; try done; by intros [|].
Qed.

Lemma th_step_inv stuck σ σ' : inv σ -> step stuck σ σ' -> inv σ'.
Proof.
  intros Hi Hs. destruct Hs as [σ proc m xid rep req c E Hx|σ proc m ret E|σ x p Hp Ha|σ x p sends c Hp Ha _ E
    |σ x p s l Hp Ha|σ x p Hp Ha|σ x p ca Hp Ha _ Hc Hd|σ b sz c l E El|σ xid p ca tmo ret u c Hp Ha Hc Ht E|σ ret r|σ Hb|σ p c Hw E].
  - by eapply inv_start.
  - done.
  - by eapply inv_place.
  - destruct (transmit_same _ _ _ _ (i_window _ Hi) E) as [Hs _].
    pose proof (inv_same _ c (inv_place σ x p (at_place (Sending sends) p) Hi Hp) Hs) as H'. exact H'.
  - by eapply inv_place.
  - by eapply inv_place.
  - by eapply inv_place.
  - by eapply inv_reply.
  - by eapply inv_end.
  - apply inv_same; [done|]. pose proof (i_window _ Hi). unfold bind_done. destruct (ret =? 0); by split.
  - by apply inv_cancel.
  - by eapply inv_wake.
Qed.

Lemma threads_reachable_inv retrans nonce lossy σ : reachable retrans nonce lossy σ -> inv σ.
Proof. induction 1; [apply th_inv_new|by eapply th_step_inv]. Qed.

(** ** Theorems *)

(** C22: every call gets its own answer, once: whatever the interleaving of
    the calling threads, the replies (late, repeated or made up ones
    included), time-outs and cancel, no call returns twice, and a call
    returns the status and body of a reply that carried its xid, or
    timeout_failure, or cancel_failure if cancel was called; and calls_ has
    exactly the calls that have not returned. *)
Theorem own_answers (retrans : bool) (nonce lossy : Z) (σ : sys) :
  reachable retrans nonce lossy σ ->
  NoDup (results σ).*1 /\ dom (c_calls (clt σ)) = dom (inside σ) /\
  (forall x, is_Some (inside σ !! x) -> x ∉ (results σ).*1) /\
  forall x ret u, (x, (ret, u)) ∈ results σ ->
    (x, (ret, u)) ∈ answers σ \/ ret = rpc_const.timeout_failure \/ (ret = rpc_const.cancel_failure /\ canc σ <> Before).
Proof.
  intros Hr. destruct (threads_reachable_inv _ _ _ _ Hr) as [_ _ I3 _ [I5 I5'] _ _ I8 _ _ _].
  do 3 (split; [done|]). intros x ret u H. destruct (I8 x _ H) as [[?|[? ?]]|?]; auto.
Qed.

(** How far cancel is from its end: the steps its calls still have to do,
    and the test it has been woken for. *)
Definition steps_left (p : pending) : Z :=
  match p_at p with Transmit => 6 | Sending l => lenZ l + 3 | Waiting => 2 end.

Definition left (σ : sys) : Z :=
  match canc σ with
  | Before | After => 0
  | Asleep => total steps_left (inside σ)
  | Awake => total steps_left (inside σ) + 1
  end.

(** A call blocked in get_refconn or in send. *)
Definition transmitting (p : pending) : bool :=
  match p_at p with Transmit | Sending (_ :: _) => true | Sending [] | Waiting => false end.

(** At most two messages are sent by one transmission. *)
Definition short (σ : sys) : Prop := forall x p l, inside σ !! x = Some p -> p_at p = Sending l -> lenZ l <= 2.

Lemma finish_total xid rep req c ca : c_calls c !! xid = Some ca -> c_xid_rep_window c <> [] -> 0 < xid < 2 ^ 31 ->
  exists ret u c', call1_finish xid rep req c = Ret (ret, u, c').
Proof.
  intros Hc Hw Hx. destruct (update_xid_rep_total xid _ Hw) as (w & E & _).
  unfold call1_finish. rewrite i32_small by (unfold is_i32; lia). rewrite Hc. cbn [c_xid_rep_window set_calls].
  rstep E. eauto.
Qed.

Lemma step_short stuck σ σ' : inv σ -> short σ -> step stuck σ σ' -> short σ'.
Proof.
  intros Hi Hsh Hs y q l Hq Hl. destruct Hs as [σ proc m xid rep req c E Hx|σ proc m ret E|σ x p Hp Ha|σ x p sends c Hp Ha _ E
    |σ x p s l' Hp Ha|σ x p Hp Ha|σ x p ca Hp Ha _ Hc Hd|σ b sz c l' E El|σ xid p ca tmo ret u c Hp Ha Hc Ht E|σ ret r|σ Hb|σ p c Hw E];
    cbn [inside] in Hq; try (by eapply Hsh);
    try (apply lookup_insert_Some in Hq as [[<- <-]|[_ Hq]]; [|by eapply Hsh]); cbn in Hl; try done.
  - injection Hl as <-. destruct (transmit_same _ _ _ _ (i_window _ Hi) E) as [_ ?]. lia.
  - injection Hl as <-. specialize (Hsh x p _ Hp Ha). cbn in Hsh. lia.
  - apply lookup_delete_Some in Hq as [_ Hq]. by eapply Hsh.
Qed.

Lemma reachable_short retrans nonce lossy σ : reachable retrans nonce lossy σ -> short σ.
Proof.
  induction 1 as [|σ σ' Hr IH Hs]; [by intros x p l|]. eapply step_short; [|done|done]. by eapply threads_reachable_inv.
Qed.

Lemma steps_left_pos p : 2 <= steps_left p.
Proof. unfold steps_left. destruct (p_at p); lia. Qed.

(** A call that goes on brings cancel closer. *)
Lemma left_update σ c x p p' :
  inside σ !! x = Some p -> canc σ = Asleep \/ canc σ = Awake ->
  left (Sys c (<[x := p']> (inside σ)) (canc σ) (answers σ) (results σ)) = left σ - steps_left p + steps_left p'.
Proof.
  intros Hp Hc. unfold left. cbn [canc inside]. rewrite (total_update _ _ _ _ _ Hp). destruct Hc as [-> | ->]; lia.
Qed.

Lemma end_left σ xid p ca ret u c :
  inv σ -> canc σ = Asleep \/ canc σ = Awake -> inside σ !! xid = Some p -> c_calls (clt σ) !! xid = Some ca ->
  call1_finish xid (p_rep p) (p_req p) (clt σ) = Ret (ret, u, c) ->
  left (Sys c (delete xid (inside σ)) (signalled (clt σ) (canc σ)) (answers σ) ((xid, (ret, u)) :: results σ)) < left σ.
Proof.
  intros Hi Hc Hp Hca E. destruct (i_wait _ Hi Hc) as [Hd _]. pose proof (steps_left_pos p).
  unfold left. cbn [canc inside]. rewrite (total_delete steps_left (inside σ) xid p Hp).
  destruct Hc as [-> | ->]; cbn [signalled]; rewrite ?Hd; lia.
Qed.

Lemma transmit_left σ c x p sends : (length sends <= 2)%nat -> inside σ !! x = Some p -> p_at p = Transmit ->
  canc σ = Asleep \/ canc σ = Awake ->
  left (Sys c (<[x := at_place (Sending sends) p]> (inside σ)) (canc σ) (answers σ) (results σ)) < left σ.
Proof. intros Hl Hp Ha Hc. rewrite (left_update σ c x p) by done. unfold steps_left. rewrite Ha. cbn [at_place p_at]. lia. Qed.

Lemma sent_left σ c x p s l : inside σ !! x = Some p -> p_at p = Sending (s :: l) -> canc σ = Asleep \/ canc σ = Awake ->
  left (Sys c (<[x := at_place (Sending l) p]> (inside σ)) (canc σ) (answers σ) (results σ)) < left σ.
Proof.
  intros Hp Ha Hc. rewrite (left_update σ c x p) by done. unfold steps_left. rewrite Ha. cbn [at_place p_at length]. lia.
Qed.

Lemma waiting_left σ c x p : inside σ !! x = Some p -> p_at p <> Waiting -> canc σ = Asleep \/ canc σ = Awake ->
  left (Sys c (<[x := at_place Waiting p]> (inside σ)) (canc σ) (answers σ) (results σ)) < left σ.
Proof.
  intros Hp Ha Hc. rewrite (left_update σ c x p) by done. unfold steps_left. cbn [at_place p_at].
  destruct (p_at p); [lia|lia|done].
Qed.

Lemma step_left stuck σ σ' : inv σ -> canc σ = Asleep \/ canc σ = Awake -> step stuck σ σ' -> left σ' <= left σ.
Proof.
  intros Hi Hc Hs. destruct (i_wait _ Hi Hc) as [Hd Hdone].
  destruct Hs as [σ proc m xid rep req c E Hx|σ proc m ret E|σ x p Hp Ha|σ x p sends c Hp Ha _ E
    |σ x p s l Hp Ha|σ x p Hp Ha|σ x p ca Hp Ha _ Hca Hnd|σ b sz c l E El|σ xid p ca tmo ret u c Hp Ha Hca Ht E|σ ret r|σ Hb|σ p c Hw E].
  - destruct (i_xid _ Hi). destruct (started_spec _ _ _ _ _ _ _ E) as (_ & Hd' & _); [lia|lia|]. congruence.
  - done.
  - apply Z.lt_le_incl, waiting_left; [done|congruence|done].
  - apply Z.lt_le_incl. destruct (transmit_same _ _ _ _ (i_window _ Hi) E). by apply transmit_left.
  - apply Z.lt_le_incl. by eapply sent_left.
  - apply Z.lt_le_incl, waiting_left; [done|congruence|done].
  - specialize (Hdone _ _ Hca). congruence.
  - done.
  - apply Z.lt_le_incl. by eapply end_left.
  - done.
  - destruct Hc; congruence.
  - pose proof (total_pos steps_left (inside σ)) as Hpos. unfold cancel_test in E. unfold left. cbn [canc inside].
    assert (0 <= total steps_left (inside σ)) by (apply Hpos; intros ? q _; pose proof (steps_left_pos q); lia).
    case_bool_decide; injection E as <- <-; destruct Hc as [-> | ->]; lia.
Qed.

(** A call that is past its transmission can end. *)
Lemma waiting_ends stuck σ x p :
  inv σ -> canc σ = Asleep \/ canc σ = Awake -> inside σ !! x = Some p -> p_at p = Waiting ->
  exists σ', step stuck σ σ' /\ left σ' < left σ.
Proof.
  intros Hi Hc Hp Ha. assert (exists ca, c_calls (clt σ) !! x = Some ca) as [ca Hca].
  { apply elem_of_dom. rewrite (i_dom _ Hi). by apply elem_of_dom_2 in Hp. }
  pose proof (i_fresh _ Hi x (or_introl (mk_is_Some _ _ Hp))). pose proof (i_xid _ Hi).
  destruct (finish_total x (p_rep p) (p_req p) (clt σ) ca Hca (i_window _ Hi)) as (ret & u & c & E); [lia|].
  destruct (i_wait _ Hi Hc) as [_ Hdone].
  eexists. split; [eapply (st_end stuck σ x p ca false); eauto|]. eapply end_left; eauto.
Qed.

(** C23: cancel returns unless a call hangs in its transmission.  While
    cancel waits no call can start and every call inside is done; no step
    of any thread takes cancel further from its end, which it has at most
    six steps of each call and one of its own to wait for, and no wake-up
    of its condition variable is lost.  As long as get_refconn and send
    return, some step brings it closer.  And also when they do not
    ([stuck]) some step does, unless cancel sleeps and every call that is
    left is inside get_refconn or send: nothing else can keep cancel
    waiting. *)
Theorem cancel_returns (retrans : bool) (nonce lossy : Z) (σ : sys) :
  reachable retrans nonce lossy σ -> canc σ = Asleep \/ canc σ = Awake ->
  0 <= left σ <= 6 * Z.of_nat (size (inside σ)) + 1 /\
  (forall stuck σ', step stuck σ σ' -> left σ' <= left σ) /\
  (exists σ', step false σ σ' /\ left σ' < left σ) /\
  ((exists σ', step true σ σ' /\ left σ' < left σ) \/
   (canc σ = Asleep /\ forall x p, inside σ !! x = Some p -> transmitting p = true)).
Proof.
  intros Hr Hc. pose proof (threads_reachable_inv _ _ _ _ Hr) as Hi. pose proof (reachable_short _ _ _ _ Hr) as Hsh.
  split; [|split; [intros stuck σ'; by apply step_left|]].
  { assert (0 <= total steps_left (inside σ)) by (apply total_pos; intros ? q _; pose proof (steps_left_pos q); lia).
    assert (total steps_left (inside σ) <= 6 * Z.of_nat (size (inside σ))).
    { apply total_bound. intros x p Hp. unfold steps_left. destruct (p_at p) eqn:Ha; [lia| |lia]. specialize (Hsh _ _ _ Hp Ha). lia. }
    unfold left. destruct Hc as [-> | ->]; lia. }
  assert (Hawake : forall stuck, canc σ = Awake -> exists σ', step stuck σ σ' /\ left σ' < left σ).
  { intros stuck Ha. destruct (cancel_test (clt σ)) as [p c] eqn:E. eexists. split; [eapply st_wake; [by right|exact E]|].
    assert (0 <= total steps_left (inside σ)) by (apply total_pos; intros ? q _; pose proof (steps_left_pos q); lia).
    unfold cancel_test in E. unfold left. cbn [canc inside]. rewrite Ha. case_bool_decide; injection E as <- <-; lia. }
  destruct Hc as [Hc|Hc]; [|split; [by apply Hawake|left; by apply Hawake]]. split.
  - destruct (map_choose _ (i_asleep _ Hi Hc)) as (x & ca & Hca).
    assert (exists p, inside σ !! x = Some p) as [p Hp].
    { apply elem_of_dom. rewrite <- (i_dom _ Hi). by apply elem_of_dom_2 in Hca. }
    destruct (p_at p) as [|[|s l]|] eqn:Ha.
    + eexists. split; [by eapply (st_no_channel false σ x)|]. apply waiting_left; [done|congruence|by left].
    + eexists. split; [by eapply (st_all_sent false σ x)|]. apply waiting_left; [done|congruence|by left].
    + eexists. split; [by eapply (st_sent false σ x)|]. eapply sent_left; eauto.
    + by eapply waiting_ends; [|left| |].
  - destruct (decide (map_Forall (fun _ p => transmitting p = true) (inside σ))) as [Hall|Hsome]; [by right; split|left].
    apply map_not_Forall in Hsome as (x & p & Hp & Hn); [|apply _]. unfold transmitting in Hn.
    destruct (p_at p) as [|[|s l]|] eqn:Ha; [done| |done|].
    + eexists. split; [by eapply (st_all_sent true σ x)|]. apply waiting_left; [done|congruence|by left].
    + by eapply waiting_ends; [|left| |].
Qed.

(** A call whose send does not return keeps cancel waiting. *)
Lemma send_blocks_cancel retrans nonce lossy σ σ' x p :
  reachable retrans nonce lossy σ -> canc σ = Asleep \/ canc σ = Awake -> inside σ !! x = Some p -> transmitting p = true ->
  rtc (step true) σ σ' -> canc σ' = Asleep \/ canc σ' = Awake.
Proof.
  intros Hr Hc Hp Ht Hs. pose proof (threads_reachable_inv _ _ _ _ Hr) as Hi. clear Hr.
  induction Hs as [|σ σ1 σ' Hs _ IH]; [done|]. pose proof (th_step_inv _ _ _ Hi Hs) as Hi1.
  assert (Hnw : p_at p <> Waiting /\ p_at p <> Sending []) by (unfold transmitting in Ht; destruct (p_at p) as [|[|]|]; done).
  assert (Hkeep : inside σ1 !! x = Some p /\ (canc σ1 = Asleep \/ canc σ1 = Awake)); [|destruct Hkeep; by apply IH].
  pose proof (i_dom _ Hi) as Hdom.
  destruct Hs as [σ proc m xid rep req c E Hx|σ proc m ret E|σ y q Hq Ha Hn|σ y q sends c Hq Ha Hn E
    |σ y q s l Hq Ha Hn|σ y q Hq Ha|σ y q ca Hq Ha _ Hca Hnd|σ b sz c l E El|σ xid q ca tmo ret u c Hq Ha Hca Htm E|σ ret r|σ Hb|σ q c Hw E];
    cbn [inside canc]; try done.
  - split; [|done]. destruct (i_xid _ Hi). destruct (started_spec _ _ _ _ _ _ _ E) as (_ & Hd' & _); [lia|lia|].
    destruct (i_wait _ Hi Hc). congruence.
  - split; [|done]. rewrite lookup_insert_ne; [done|]. intros ->. rewrite Hp in Hq. injection Hq as <-. tauto.
  - split; [|done]. destruct (i_wait _ Hi Hc) as [_ Hdone]. specialize (Hdone _ _ Hca). congruence.
  - split; [|by destruct Hc as [-> | ->]; cbn; [destruct (c_destroy_wait (clt σ))|]; auto].
    rewrite lookup_delete_ne; [done|]. intros ->. rewrite Hp in Hq. injection Hq as <-. tauto.
  - destruct Hc; congruence.
  - split; [done|]. unfold cancel_test in E. rewrite bool_decide_false in E; [injection E as <- <-; by left|].
    intros He. apply elem_of_dom_2 in Hp. rewrite <- Hdom, He in Hp. set_solver.
Qed.

(** Deleting a client after cancel had to wait for its calls is safe:
    once cancel has returned the VERIFY of the destructor holds, the channel
    is closed and its reference dropped, and from then on every call is
    refused, so that it stays so. *)
Theorem delete_after_cancel (retrans : bool) (nonce lossy : Z) (σ : sys) (chan : option conn) (proc : Z) (m : marshall) :
  reachable retrans nonce lossy σ -> canc σ = After -> c_destroy_wait (clt σ) = true ->
  rpcc_delete chan (clt σ) = Ret (option_list chan, Decref <$> option_list chan) /\
  exists ret, call1_start proc m (clt σ) = Ret (Refused ret) /\ ret < 0.
Proof.
  intros Hr Hc Hd. pose proof (threads_reachable_inv _ _ _ _ Hr) as Hi. split.
  - unfold rpcc_delete. rewrite bool_decide_true by (by apply (i_after _ Hi)). by destruct chan.
  - unfold call1_start. rewrite Hd. destruct (_ || _); eexists; (split; [reflexivity|done]).
Qed.

(** ** A call that is cancelled *)

Definition demo_bound : rpcc := bind_done 0 9 (rpcc_new true 77 0).

Definition demo_calling : sys :=
  match call1_start 7 marshall_new demo_bound with
  | Ret (Started xid rep req c) => Sys c (<[xid := Pending req rep Transmit]> ∅) Before [] []
  | _ => sys_new true 77 0
  end.

(** Its request is sent, and it is cancelled while it waits. *)
Definition demo_sent : sys :=
  match inside demo_calling !! 1 with
  | Some p => Sys (clt demo_calling) (<[1 := at_place Waiting p]> (inside demo_calling)) (canc demo_calling) (answers demo_calling) (results demo_calling)
  | None => demo_calling
  end.

Definition demo_waiting : sys := Sys (cancel (clt demo_sent)) (inside demo_sent) Asleep [] [].

Definition demo_woken : sys :=
  match inside demo_waiting !! 1 with
  | Some p =>
      match call1_finish 1 (p_rep p) (p_req p) (clt demo_waiting) with
      | Ret (ret, u, c) => Sys c (delete 1 (inside demo_waiting)) Awake [] [(1, (ret, u))]
      | _ => demo_waiting
      end
  | None => demo_waiting
  end.

Definition demo_cancelled : sys := Sys (clt demo_woken) (inside demo_woken) After [] (results demo_woken).

Lemma demo_calling_reachable : reachable true 77 0 demo_calling.
Proof.
  eapply reach_step; [eapply reach_step; [apply reach_new|apply (st_bound _ _ 0 9)]|].
  destruct (call1_start 7 marshall_new demo_bound) as [[ret|xid rep req c]|] eqn:E; try (vm_compute in E; discriminate).
  unfold demo_calling. rewrite E.
  refine (st_start false (Sys demo_bound ∅ Before [] []) 7 marshall_new xid rep req c E _).
  vm_compute in E. by injection E as <- _ _ _.
Qed.

Lemma demo_sent_reachable : reachable true 77 0 demo_sent.
Proof.
  eapply reach_step; [apply demo_calling_reachable|]. unfold demo_sent.
  destruct (inside demo_calling !! 1) as [p|] eqn:Hp; [|vm_compute in Hp; discriminate].
  apply st_no_channel; [exact Hp| |reflexivity]. vm_compute in Hp. by injection Hp as <-.
Qed.

Lemma demo_waiting_reachable : reachable true 77 0 demo_waiting.
Proof. eapply reach_step; [apply demo_sent_reachable|]. exact (st_cancel false demo_sent eq_refl). Qed.

Lemma demo_woken_reachable : reachable true 77 0 demo_woken.
Proof.
  eapply reach_step; [apply demo_waiting_reachable|]. unfold demo_woken.
  destruct (inside demo_waiting !! 1) as [p|] eqn:Hp; [|vm_compute in Hp; discriminate].
  destruct (call1_finish 1 (p_rep p) (p_req p) (clt demo_waiting)) as [[[ret u] c]|] eqn:E.
  - eapply (st_end _ demo_waiting 1 p _ false); [exact Hp| |vm_compute; reflexivity|by left|exact E].
    vm_compute in Hp. by injection Hp as <-.
  - vm_compute in Hp. injection Hp as <-. vm_compute in E. discriminate.
Qed.

Lemma demo_cancelled_reachable : reachable true 77 0 demo_cancelled.
Proof.
  eapply reach_step; [apply demo_woken_reachable|].
  apply (st_wake _ demo_woken After (clt demo_woken)); [right; vm_compute; reflexivity|vm_compute; reflexivity].
Qed.

Lemma own_answers_witness :
  results demo_woken = [(1, (rpc_const.cancel_failure, unmarshall_new))] /\ NoDup (results demo_woken).*1.
Proof.
  split; [vm_compute; reflexivity|]. apply (own_answers true 77 0 demo_woken). apply demo_woken_reachable.
Defined.

Lemma cancel_returns_witness :
  left demo_waiting = 2 /\ exists σ', step false demo_waiting σ' /\ left σ' < left demo_waiting.
Proof.
  split; [vm_compute; reflexivity|]. apply (cancel_returns true 77 0 demo_waiting); [apply demo_waiting_reachable|by left].
Defined.

Lemma delete_after_cancel_witness :
  rpcc_delete (Some 3%positive) (clt demo_cancelled) = Ret ([3%positive], [Decref 3]) /\
  exists ret, call1_start 7 marshall_new (clt demo_cancelled) = Ret (Refused ret) /\ ret < 0.
Proof.
  apply (delete_after_cancel true 77 0 demo_cancelled (Some 3%positive) 7 marshall_new).
  - apply demo_cancelled_reachable.
  - reflexivity.
  - vm_compute; reflexivity.
Defined.

End rpc_threads.
