(* ===== verification/RpcTest.v ===== *)
(** * The RPC tests (rpc/rpctest.cc)

    The handlers of class srv, testmarshall, and the calls of simple_tests,
    the client threads and failure_test as sequences of remote calls; a
    VERIFY of the test is a conjunct that its place in the sequence has to
    establish.  The calls with too few, too many or wrong arguments are
    among them. *)

From Stdlib Require Import ZArith Lia Strings.Byte.
From stdpp Require Import base list gmap.
From S2P Require Import Prelude Marshall ReplyWindow RpcServer RpcClient Rpc RpcSession Directory RpcUtil.

#[local] Open Scope Z_scope.

Module rpctest.

Section rpctest.
Context `{Hlim : !StringLimit}.

(** ** class srv

    A service without state.  Signed overflow is undefined, a string
    longer than max_size() throws. *)






Abbreviation strings := (wire_pair wire_string wire_string).


(** ** testmarshall *)

Definition req_header_eqb (a b : req_header) : bool :=
  (rq_xid a =? rq_xid b) && (rq_proc a =? rq_proc b) && (rq_clt_nonce a =? rq_clt_nonce b) &&
  (rq_srv_nonce a =? rq_srv_nonce b) && (rq_xid_rep a =? rq_xid_rep b).

(** The bytes of a buffer, where [mem] is what its memory held before. *)
Definition in_memory (mem : nat -> byte) (cs : list cell) : bytes := imap (fun i c => default (mem i) c) cs.

Definition testmarshall (mem : nat -> byte) : res unit :=
  let rh := ReqHeader 1 2 3 4 5 in
  m ← pack_req_header rh marshall_new;
  verify (m_ind m =? RPC_HEADER_SZ) (
  let i := 12345 in
  let l := 1223344455 in
  let s := str "hallo...." in
  m ← put_int i m;
  m ← put_ull l m;
  m ← put_string s m;
  let '(b, sz, m) := m_take_buf m in
  verify (sz =? i32 (RPC_HEADER_SZ + 4 + 8 + lenZ s + 4)) (
  let un := unmarshall_buf (in_memory mem (saved_data b sz)) sz in
  '(rh1, un) ← unpack_req_header un;
  verify (req_header_eqb rh rh1) (
  '(i1, un) ← get_int un;
  '(l1, un) ← get_ull un;
  '(s1, un) ← get_string [] un;
  verify (okdone un) (
  verify ((i1 =? i) && (l1 =? l) && bool_decide (s1 = s)) (Ret tt))))).

Lemma in_memory_realizes mem cs : realizes cs (in_memory mem cs).
Proof.
  unfold in_memory. revert mem. induction cs as [|c cs IH]; intros mem; [constructor|].
  cbn. constructor; [destruct c; [by right|by left]|]. apply (IH (fun i => mem (S i))).
Qed.

(** Testmarshall passes whatever the memory of the marshalling buffer
    held: the sizes are right, and the header, the int, the unsigned long
    long and the string come out of the buffer as they went in, with
    nothing left over. *)
Theorem testmarshall_passes (mem : nat -> byte) : 9 <= max_size < 2 ^ 31 -> testmarshall mem = Ret tt.
Proof.
  intros Hm. pose proof sizes. set (rh := ReqHeader 1 2 3 4 5).
  destruct (pack_req_header_holds _ _ _ rh marshall_new_holds) as (m1 & E1 & H1); [cbn; lia|].
  assert (Ri : w_range wire_int 12345) by (split; lia).
  assert (Rl : w_range wire_ull 1223344455) by (split; lia).
  assert (Rs : w_range wire_string (str "hallo....")) by (cbn [w_range wire_string]; change (lenZ (str "hallo....")) with 9; lia).
  destruct (put_ok m1 _ _ 12345 H1 Ri) as (m2 & E2 & H2); [cbn; lia|].
  destruct (put_ok m2 _ _ 1223344455 H2 Rl) as (m3 & E3 & H3); [cbn; lia|].
  destruct (put_ok m3 _ _ (str "hallo....") H3 Rs) as (m4 & E4 & H4); [cbn; lia|].
  pose proof (holds_ind _ _ _ H1) as I1. pose proof (holds_ind _ _ _ H4) as I4.
  set (b := in_memory mem (sent m4)).
  assert (Hb : lenZ b = 49).
  { subst b. unfold in_memory. rewrite length_imap, (holds_sent _ _ _ H4). reflexivity. }
  destruct (delivered_request m4 _ rh _ b H4) as (u & Eu & Ha & Hok & Hz);
    [repeat split; cbn; lia|apply in_memory_realizes|].
  assert (Hz' : u_sz u = 49) by (rewrite Hz; reflexivity).
  cbn [app] in Ha. rewrite <- !app_assoc in Ha.
  pose proof (get_ok (w := wire_int) u _ 0 12345 Ha Hok ltac:(lia) Ri) as G1. apply advance_ahead in Ha.
  set (u1 := advance _ u) in *.
  pose proof (get_ok (w := wire_ull) u1 _ 0 1223344455 Ha Hok ltac:(cbn; lia) Rl) as G2. apply advance_ahead in Ha.
  set (u2 := advance _ u1) in *.
  destruct (get_arguments wire_string u2 [] (str "hallo....") Ha Hok) as (u3 & G3 & Hd); [cbn; lia|exact Rs|].
  unfold testmarshall. fold rh. rstep E1. unfold verify at 1. rewrite I1. cbn [length Z.of_nat Z.add]. rewrite Z.eqb_refl.
  change (put_int 12345 m1) with (w_put wire_int 12345 m1). rstep E2.
  change (put_ull 1223344455 m2) with (w_put wire_ull 1223344455 m2). rstep E3.
  change (put_string (str "hallo....") m3) with (w_put wire_string (str "hallo....") m3). rstep E4.
  assert (Hi : m_ind m4 = 49) by (rewrite I4; reflexivity).
  cbn [m_take_buf]. rewrite Hi. unfold verify at 1. change (49 =? i32 _) with true. cbv beta iota.
  change (saved_data (m_buf m4) 49) with (default [] (take (Z.to_nat 49) <$> m_buf m4)).
  rewrite <- Hi. fold (sent m4). fold b. rewrite Hi, <- Hb. rstep Eu.
  change (verify (req_header_eqb rh rh)) with (fun k : res unit => k). cbv beta.
  change (get_int u) with (w_get wire_int 0 u). rstep G1. change (get_ull u1) with (w_get wire_ull 0 u1). rstep G2.
  change (get_string [] u2) with (w_get wire_string [] u2). rstep G3. rewrite Hd. reflexivity.
Qed.

(** ** The tests as sequences of calls *)

Section calls.
Context (cmp : conn -> conn -> Z) (dead : conn -> bool) (k : conn).




(** Nobody listens at an address: every connection is refused.  [t0], [now]
    and [t1] are the clock before bind, at the start of call1's loop and
    after bind, [final] the deadline; waits end in time, and no step takes
    more than a quarter of a second. *)
Definition slack : Z := 250000000.

Record no_server (t0 now final : timespec) (ts : list turn) (t1 : timespec) : Prop := NoServer {
  ns_clock : clock_ok t0 /\ clock_ok now /\ clock_ok t1 /\ 0 < tv_sec now;
  ns_begin : time t0 <= time now <= time t0 + slack;
  ns_final : add_timespec now 3000 = Ret final;
  ns_first : forall t, head ts = Some t -> time now <= time (t_now t) <= time now + slack;
  ns_turns : (4 <= length ts)%nat /\ Forall unanswered ts /\ paced ts to_min final /\ punctual slack ts to_min final;
  ns_end : forall e, ends_at ts to_min final = Some e -> time t1 <= time e + slack
}.










(** ** What the handlers do with arguments that do not fit *)




(** ** The tests against a running server *)

Context (a0 : Z) (Hlive : dead k = false).



























End calls.

End rpctest.

(** A 1 GB limit on strings. *)
Definition a_limit : StringLimit := 2 ^ 30.

Lemma testmarshall_passes_witness : @testmarshall a_limit (fun i => Z_byte (Z.of_nat i)) = Ret tt.
Proof. apply (@testmarshall_passes a_limit). split; vm_compute; congruence. Defined.

(** Connections refused at once, on an idle machine. *)
Lemma no_server_example :
  no_server (Timespec 100 0) (Timespec 100 5) (Timespec 103 5)
    ((fun t => Turn t false false false false) <$> [Timespec 100 6; Timespec 101 8; Timespec 103 9; Timespec 103 10]) (Timespec 103 20).
Proof.
  split.
  - unfold clock_ok. cbn. lia.
  - vm_compute. split; discriminate.
  - reflexivity.
  - intros t [= <-]. vm_compute. split; discriminate.
  - split; [cbn; lia|]. split; [repeat constructor|]. split.
    + repeat (split; [split; cbn; lia|]; intros next Hn _ _; vm_compute in Hn; injection Hn as <-;
        split; [intros t' Ht'; first [discriminate Ht'|injection Ht' as <-; vm_compute; discriminate]|]). exact I.
    + do 2 (intros _ next Hn; vm_compute in Hn; injection Hn as <-; split; [intros t' [= <-]; vm_compute; discriminate|]).
      intros Hs. vm_compute in Hs. congruence.
  - intros e He. vm_compute in He. injection He as <-. vm_compute. discriminate.
Qed.


End rpctest.
