(* ===== verification/ExtentRpc.v ===== *)
(** * extent_client over the wire (extent_client.cc, extent_smain.cc)

    The registrations of the extent server's main and the stubs of
    extent_client, each one call of rpcc::call, and the theorem that a stub
    returns what the server's handler does. *)

From Stdlib Require Import ZArith Lia.
From stdpp Require Import base list gmap.
From S2P Require Import Prelude Marshall Extent ReplyWindow RpcServer RpcClient Rpc RpcSession.

#[local] Open Scope Z_scope.

Module extent_client.
Import extent_server.

Section stubs.
Context `{!StringLimit}.

(** The extent_server object behind the rpcs, and its clock. *)
Record app := App { e_table : table; e_clock : Z }.

Definition tick (t : table) (w : app) : app := App t (e_clock w + 1).

(** The registered methods.  [junk] is what an [int &r] that the handler
    does not assign holds when it is marshalled. *)
Section methods.
Context (junk : Z).

Definition do_get : method app Z bytes := fun id w =>
  let '(s, b, t) := get id [] (e_clock w) (e_table w) in Ret (s, b, tick t w).
Definition do_getattr : method app Z extent_protocol.attr := fun id w =>
  let '(s, a) := getattr id (e_table w) in Ret (s, a, tick (e_table w) w).
Definition do_put : method app (Z * bytes) Z := fun '(id, b) w =>
  let '(s, t) := put id b (e_clock w) (e_table w) in Ret (s, junk, tick t w).
Definition do_remove : method app Z Z := fun id w =>
  let '(s, t) := remove id (e_table w) in Ret (s, junk, tick t w).
Definition do_resize : method app (Z * Z) Z := fun '(id, n) w =>
  '(s, t) ← resize id n (e_clock w) (e_clock w) (e_table w); Ret (s, junk, tick t w).
Definition do_getbuf : method app (Z * (Z * Z)) bytes := fun '(id, (n, off)) w =>
  '(s, b, t) ← getbuf id n off [] (e_clock w) (e_table w); Ret (s, b, tick t w).
Definition do_putbuf : method app (Z * (Z * bytes)) Z := fun '(id, (off, b)) w =>
  '(s, t) ← putbuf id off b (e_clock w) (e_table w); Ret (s, junk, tick t w).

Abbreviation wire_put := (wire_pair wire_ull wire_string).
Abbreviation wire_resize := (wire_pair wire_ull wire_uint).
Abbreviation wire_getbuf := (wire_pair wire_ull (wire_pair wire_uint wire_uint)).
Abbreviation wire_putbuf := (wire_pair wire_ull (wire_pair wire_uint wire_string)).

(** main of extent_smain.cc, up to its endless sleep: [count] is RPC_COUNT
    or 0, [a0] what uninitialised arguments hold, [now] the clock. *)
Definition extent_smain (count nonce a0 now : Z) : res (rpcs app) :=
  server ← rpcs_new count nonce a0 (App (extent_server_new now) (now + 1));
  server ← reg1 extent_protocol.get (h1 wire_ull wire_string a0 do_get) server;
  server ← reg1 extent_protocol.getattr (h1 wire_ull extent_protocol.wire_attr a0 do_getattr) server;
  server ← reg1 extent_protocol.put (h1 wire_put wire_int (a0, []) do_put) server;
  server ← reg1 extent_protocol.remove (h1 wire_ull wire_int a0 do_remove) server;
  server ← reg1 extent_protocol.resize (h1 wire_resize wire_int (a0, a0) do_resize) server;
  server ← reg1 extent_protocol.getbuf (h1 wire_getbuf wire_string (a0, (a0, a0)) do_getbuf) server;
  reg1 extent_protocol.putbuf (h1 wire_putbuf wire_int (a0, (a0, [])) do_putbuf) server.

(** What it has registered, besides the bind handler of rpcs. *)
Definition extent_procs (a0 : Z) : gmap Z (handler app) :=
  <[extent_protocol.putbuf := h1 wire_putbuf wire_int (a0, (a0, [])) do_putbuf]>
  (<[extent_protocol.getbuf := h1 wire_getbuf wire_string (a0, (a0, a0)) do_getbuf]>
  (<[extent_protocol.resize := h1 wire_resize wire_int (a0, a0) do_resize]>
  (<[extent_protocol.remove := h1 wire_ull wire_int a0 do_remove]>
  (<[extent_protocol.put := h1 wire_put wire_int (a0, []) do_put]>
  (<[extent_protocol.getattr := h1 wire_ull extent_protocol.wire_attr a0 do_getattr]>
  {[extent_protocol.get := h1 wire_ull wire_string a0 do_get]}))))).

#[local] Ltac registers proc h s s' E N W A P :=
  destruct (reg1_ok proc h s) as (s' & E & N & W & A & P);
    [done|repeat match goal with H : forall p, s_procs _ !! p = _ |- _ => rewrite H; clear H end; done|].

Lemma extent_smain_ok count nonce a0 now :
  exists s, extent_smain count nonce a0 now = Ret s /\ s_nonce s = u32 nonce /\
    s_procs s !! rpc_const.bind = Some (bind_handler nonce a0) /\
    (forall proc h, extent_procs a0 !! proc = Some h -> s_procs s !! proc = Some h) /\
    s_reply_window s = ∅ /\ s_app s = App (extent_server_new now) (now + 1).
Proof.
  set (w := App (extent_server_new now) (now + 1)).
  destruct (reg1_ok rpc_const.bind (bind_handler nonce a0) (Rpcs (u32 nonce) ∅ ∅ count count ∅ true ∅ w))
    as (s0 & E0 & N0 & W0 & A0 & P0); [done|done|]. cbn [s_nonce s_reply_window s_app] in N0, W0, A0.
  registers extent_protocol.get (h1 wire_ull wire_string a0 do_get) s0 s1 E1 N1 W1 A1 P1.
  registers extent_protocol.getattr (h1 wire_ull extent_protocol.wire_attr a0 do_getattr) s1 s2 E2 N2 W2 A2 P2.
  registers extent_protocol.put (h1 wire_put wire_int (a0, []) do_put) s2 s3 E3 N3 W3 A3 P3.
  registers extent_protocol.remove (h1 wire_ull wire_int a0 do_remove) s3 s4 E4 N4 W4 A4 P4.
  registers extent_protocol.resize (h1 wire_resize wire_int (a0, a0) do_resize) s4 s5 E5 N5 W5 A5 P5.
  registers extent_protocol.getbuf (h1 wire_getbuf wire_string (a0, (a0, a0)) do_getbuf) s5 s6 E6 N6 W6 A6 P6.
  registers extent_protocol.putbuf (h1 wire_putbuf wire_int (a0, (a0, [])) do_putbuf) s6 s7 E7 N7 W7 A7 P7.
  exists s7. split.
  { unfold extent_smain. fold w. assert (Er : rpcs_new count nonce a0 w = Ret s0) by (rewrite <- E0; done).
    rstep Er. rstep E1. rstep E2. rstep E3. rstep E4. rstep E5. rstep E6. done. }
  split; [congruence|]. split; [by rewrite P7, P6, P5, P4, P3, P2, P1, P0|]. split; [|split; congruence].
  intros proc h Hh. rewrite P7, P6, P5, P4, P3, P2, P1. unfold extent_procs in Hh.
  do 6 (apply lookup_insert_Some in Hh as [[<- <-]|[_ Hh]]; [reflexivity|]).
  apply lookup_singleton_Some in Hh as [<- <-]. reflexivity.
Qed.

(** ** The stubs

    [x_stub ... ret w']: the call of the stub on client [c], answered by
    server [s] over connection [k], returns [ret] and leaves the server's
    state [w']. *)
Section calls.
Context (cmp : conn -> conn -> Z) (dead : conn -> bool) (k : conn) (c : rpcc) (s : rpcs app).

Definition get_stub (eid : Z) (buf : bytes) (ret : Z) (buf' : bytes) (w' : app) : Prop :=
  call_ends wire_ull wire_string extent_protocol.get cmp dead k c s eid buf ret buf' w'.
Definition resize_stub (eid new_size r ret : Z) (w' : app) : Prop :=
  exists r', call_ends wire_resize wire_int extent_protocol.resize cmp dead k c s (eid, new_size) r ret r' w'.
Definition getbuf_stub (eid ask_size off : Z) (buf : bytes) (ret : Z) (buf' : bytes) (w' : app) : Prop :=
  call_ends wire_getbuf wire_string extent_protocol.getbuf cmp dead k c s (eid, (ask_size, off)) buf ret buf' w'.
Definition putbuf_stub (eid off : Z) (buf : bytes) (r ret : Z) (w' : app) : Prop :=
  exists r', call_ends wire_putbuf wire_int extent_protocol.putbuf cmp dead k c s (eid, (off, buf)) r ret r' w'.
Definition getattr_stub (eid : Z) (attr : extent_protocol.attr) (ret : Z) (attr' : extent_protocol.attr)
    (w' : app) : Prop :=
  call_ends wire_ull extent_protocol.wire_attr extent_protocol.getattr cmp dead k c s eid attr ret attr' w'.
Definition put_stub (eid : Z) (buf : bytes) (r ret : Z) (w' : app) : Prop :=
  exists r', call_ends wire_put wire_int extent_protocol.put cmp dead k c s (eid, buf) r ret r' w'.
Definition remove_stub (eid r ret : Z) (w' : app) : Prop :=
  exists r', call_ends wire_ull wire_int extent_protocol.remove cmp dead k c s eid r ret r' w'.

(** What the stub of a request does, given the handler's answer. *)
Definition stub (req : request) (buf : bytes) (attr : extent_protocol.attr) (r ret : Z) (p : payload) (w' : app)
  : Prop :=
  match req, p with
  | Get id _, PData b => get_stub id buf ret b w'
  | Getattr id, PAttr a => getattr_stub id attr ret a w'
  | Put id b _, PUnit => put_stub id b r ret w'
  | Remove id, PUnit => remove_stub id r ret w'
  | Resize id n _ _, PUnit => resize_stub id n r ret w'
  | Getbuf id n off _, PData b => getbuf_stub id n off buf ret b w'
  | Putbuf id off b _, PUnit => putbuf_stub id off b r ret w'
  | _, _ => False
  end.
End calls.

(** The request's clock readings are the server's. *)
Definition at_clock (now : Z) (req : request) : Prop :=
  match req with
  | Put _ _ t | Get _ t | Getbuf _ _ _ t | Putbuf _ _ _ t => t = now
  | Resize _ _ t1 t2 => t1 = now /\ t2 = now
  | _ => True
  end.

(** Arguments and results fit their types and one message. *)
Definition fits (b : bytes) : Prop := lenZ b <= max_size /\ lenZ b + 64 <= MAX_PAYLOAD.

Definition request_fits (req : request) : Prop :=
  match req with
  | Put id b _ => is_u64 id /\ fits b
  | Get id _ | Getattr id | Remove id => is_u64 id
  | Resize id n _ _ => is_u64 id /\ is_u32 n
  | Getbuf id n off _ => is_u64 id /\ is_u32 n /\ is_u32 off
  | Putbuf id off b _ => is_u64 id /\ is_u32 off /\ fits b
  end.

Definition payload_fits (p : payload) : Prop :=
  match p with PUnit => True | PData b => fits b | PAttr a => w_range extent_protocol.wire_attr a end.

#[local] Ltac by_status := unfold extent_protocol.OK, extent_protocol.NOENT, extent_protocol.IOERR in *; lia.

Lemma serve_status req t st p t' : serve req t = Ret (st, p, t') -> st = 0 \/ st = 2 \/ st = 3.
Proof.
  destruct req; cbn; intros E.
  - simplify_eq. by_status.
  - unfold get in E. destruct (t !! key id); simplify_eq; by_status.
  - unfold getattr in E. destruct (t !! key id); simplify_eq; by_status.
  - unfold remove in E. destruct (t !! key id); simplify_eq; by_status.
  - rinv E. destruct a0 as [s1 t1]. simplify_eq. unfold resize in E0. destruct (t !! key id).
    + rinv E0. simplify_eq. by_status.
    + simplify_eq. by_status.
  - rinv E. destruct a0 as [[s1 b1] t1]. simplify_eq. unfold getbuf in E0. destruct (t !! key id).
    + destruct (off <? _); [|simplify_eq; by_status]. rinv E0. simplify_eq. by_status.
    + simplify_eq. by_status.
  - rinv E. destruct a0 as [s1 t1]. simplify_eq. unfold putbuf in E0. destruct (t !! key id).
    + rinv E0. rinv E0. simplify_eq. by_status.
    + simplify_eq. by_status.
Qed.

(** A bound client and a running extent server, with the handlers main
    registered, that has seen of this client only its earlier calls. *)
Record bound (c : rpcc) (s : rpcs app) (t : table) (now : Z) : Prop := Bound {
  b_client : client_ready c (s_nonce s);
  b_procs : exists count nonce a0 start s0, extent_smain count nonce a0 start = Ret s0 /\ s_procs s = s_procs s0;
  b_app : s_app s = App t now;
  b_window : exists seen, orderly seen (default [] (s_reply_window s !! c_clt_nonce c)) /\
    forall y, y ∈ seen -> y < c_xid c
}.

#[local] Existing Instance extent_protocol.wire_attr_ok.

(** A registered method behind rpcc::call. *)
Lemma call_registered {A R} (wa : wire A) (wr : wire R) `{!WireOk wa, !WireOk wr} (meth : method app A R)
    proc (arg : Z -> A) cmp dead k c s t now a r0 b r w' :
  bound c s t now -> (forall a0, extent_procs a0 !! proc = Some (h1 wa wr (arg a0) meth)) ->
  proc <> rpc_const.bind -> is_i32 proc ->
  meth a (App t now) = Ret (b, r, w') -> (b = 0 \/ b = 2 \/ b = 3) ->
  w_range wa a -> lenZ (w_image wa a) <= MAX_PAYLOAD ->
  w_range wr r -> lenZ (w_image wr r) <= MAX_PAYLOAD -> dead k = false ->
  call_ends wa wr proc cmp dead k c s a r0 b r w'.
Proof.
  intros [Hc (count & nonce & a0 & start & s0 & E0 & Hp) Ha Hw] Hproc Hb Hi Hm Hst ? ? ? ? ?.
  destruct (extent_smain_ok count nonce a0 start) as (s1 & E1 & _ & _ & Hs & _). rewrite E0 in E1. injection E1 as <-.
  apply (rpc_call_ok wa wr meth proc) with (arg a0); try done; unfold is_i32; try lia.
  - split; [rewrite Hp; by apply Hs|done].
  - by rewrite Ha.
Qed.

Lemma string_image b : lenZ (w_image wire_string b) = 4 + lenZ b.
Proof. cbn [w_image wire_string]. rewrite length_app, Nat2Z.inj_add, length_be4. done. Qed.

#[local] Ltac image_size :=
  pose proof sizes; cbn [payload_fits] in *; unfold fits in *;
  cbn [w_image wire_pair wire_ull wire_uint wire_int extent_protocol.wire_attr fst snd];
  rewrite ?string_image, ?length_app, ?Nat2Z.inj_add, ?string_image, ?length_be4; lia.

#[local] Ltac arg_range :=
  cbn [payload_fits] in *; unfold fits in *;
  cbn [w_range wire_pair wire_ull wire_uint wire_int wire_string fst snd]; tauto.

(** Apply the call lemma for method [d]; the step left is that the method
    does what the handler does. *)
#[local] Ltac registered d x :=
  match goal with |- call_ends ?wa ?wr _ _ _ _ _ _ _ _ _ _ _ => eapply (call_registered wa wr d _ x) end; [eassumption|intros ?; reflexivity|done|done| |eassumption
    |arg_range|image_size|arg_range|image_size|assumption].

(** C25: the stub of extent_client for a request returns the status and the
    data of the server's handler for it, and the server's table afterwards
    is the handler's.  The server is one that main of extent_smain.cc has
    started and that has answered this client's earlier calls in order, its
    bind included; the client is bound to it; arguments and results are of
    their types' ranges and fit a message; the handler returns; and the
    connection is alive and delivers what is sent. *)
Theorem extent_stubs cmp dead k c s t now req st p t' buf attr r :
  bound c s t now -> at_clock now req -> request_fits req ->
  serve req t = Ret (st, p, t') -> payload_fits p ->
  is_i32 junk -> max_size < 2 ^ 31 -> dead k = false ->
  stub cmp dead k c s req buf attr r st p (App t' (now + 1)).
Proof.
  intros Hb Hc Hf E Hp Hj Hm Hd. pose proof (serve_status _ _ _ _ _ E) as Hst.
  destruct req; cbn [serve at_clock request_fits] in E, Hc, Hf; subst.
  - injection E as <- <- <-. exists junk. registered do_put (fun a0 : Z => (a0, @nil Byte.byte)). reflexivity.
  - destruct (get id [] now t) as [[s1 b1] t1] eqn:Eg. simplify_eq.
    unfold stub, get_stub. registered do_get (fun a0 : Z => a0).
    unfold do_get. cbn. by rewrite Eg.
  - destruct (getattr id t) as [s1 a1] eqn:Eg. simplify_eq.
    unfold stub, getattr_stub. registered do_getattr (fun a0 : Z => a0).
    unfold do_getattr. cbn. by rewrite Eg.
  - destruct (remove id t) as [s1 t1] eqn:Eg. simplify_eq. exists junk. registered do_remove (fun a0 : Z => a0).
    unfold do_remove. cbn. by rewrite Eg.
  - destruct Hc as [-> ->]. rinv E. destruct a0 as [s1 t1]. simplify_eq. exists junk.
    registered do_resize (fun a0 : Z => (a0, a0)). unfold do_resize. cbn. by rewrite E0.
  - rinv E. destruct a0 as [[s1 b1] t1]. simplify_eq.
    unfold stub, getbuf_stub. registered do_getbuf (fun a0 : Z => (a0, (a0, a0))).
    unfold do_getbuf. cbn. by rewrite E0.
  - rinv E. destruct a0 as [s1 t1]. simplify_eq. exists junk. registered do_putbuf (fun a0 : Z => (a0, (a0, @nil Byte.byte))).
    unfold do_putbuf. cbn. by rewrite E0.
Qed.

End methods.
End stubs.
(** An extent server with one file, a bound client, and the client's write
    to the file. *)
Section demo.
#[local] Existing Instance demo_limit.

Definition served_table : table := (put 5 (str "data") 3 ∅).2.
Definition demo_procs : gmap Z (handler app) :=
  match extent_smain 0 0 9 5 2 with Ret s => s_procs s | Crash _ => ∅ end.
Definition demo_server : rpcs app := Rpcs 9 ∅ ∅ 0 0 ∅ true demo_procs (App served_table 7).
Definition demo_write : request := Putbuf 5 2 (str "XY!") 7.

Lemma extent_stubs_witness :
  putbuf_stub (fun _ _ => 0) (fun _ => false) 1%positive counter_client demo_server 5 2 (str "XY!") 0 0
    (App (<[5 := Store (str "daXY!") (extent_protocol.Attr 3 7 3 5)]> served_table) 8).
Proof.
  apply (extent_stubs 0 (fun _ _ => 0) (fun _ => false) 1%positive counter_client demo_server served_table 7
    demo_write 0 PUnit (<[5 := Store (str "daXY!") (extent_protocol.Attr 3 7 3 5)]> served_table)
    [] (extent_protocol.Attr 0 0 0 0) 0).
  - split.
    + apply counter_client_ready.
    + destruct (extent_smain_ok 0 0 9 5 2) as (s0 & E & _). exists 0, 9, 5, 2, s0. split; [exact E|].
      unfold demo_server, demo_procs. by rewrite E.
    + reflexivity.
    + exists []. split; [by left|intros y Hy; by apply not_elem_of_nil in Hy].
  - reflexivity.
  - vm_compute. repeat split; discriminate.
  - reflexivity.
  - exact I.
  - done.
  - done.
  - reflexivity.
Defined.
End demo.
End extent_client.
