(* ===== verification/Fifo.v ===== *)
(** * The bounded queue (rpc/fifo.h)

    [enq] and [deq] each run under the queue's mutex, given up only inside
    pthread_cond_wait; the definitions are the stretches between, and a
    labelled step relation interleaves any number of threads.  A thread
    that waits on a condition variable is asleep until it is signalled, or
    wakes by itself as pthreads permits, and then tests again. *)

From Stdlib Require Import ZArith Lia.
From stdpp Require Import base list sets.
From S2P Require Import Prelude.

#[local] Open Scope Z_scope.

Module fifo.

Abbreviation tid := positive.

Section fifo.
Context {T : Type}.

Record fifo := Fifo { q_ : list T; max_ : Z }.

(** The constructor: [max_] is unsigned; 0 means no limit. *)
Definition fifo_new (limit : Z) : fifo := Fifo [] (u32 limit).

(** size(): its result type is bool. *)
Definition size (f : fifo) : bool := negb (lenZ (q_ f) =? 0).

Definition has_room (f : fifo) : bool := (max_ f =? 0) || (lenZ (q_ f) <? max_ f).

(** One turn of enq's loop. *)
Inductive enq_result := Entered | EnqWait | Refused.

Definition enq (e : T) (blocking : bool) (f : fifo) : enq_result * fifo :=
  if has_room f then (Entered, Fifo (q_ f ++ [e]) (max_ f))
  else if blocking then (EnqWait, f) else (Refused, f).

(** One turn of deq's loop: the element and whether has_space_c_ is
    signalled; [None] when the thread has to wait. *)
Definition deq (f : fifo) : option (T * bool * fifo) :=
  match q_ f with
  | [] => None
  | e :: q => Some (e, negb (max_ f =? 0) && (lenZ q <? max_ f), Fifo q (max_ f))
  end.

(** ** Threads *)

Record sys := Sys {
  queue : fifo;
  enq_asleep : list (tid * T);  (* on has_space_c_ *)
  enq_woken : list (tid * T);
  deq_asleep : list tid;        (* on non_empty_c_ *)
  deq_woken : list tid
}.

Definition sys_new (limit : Z) : sys := Sys (fifo_new limit) [] [] [] [].

(** The threads inside enq or deq. *)
Definition inside (σ : sys) : list tid :=
  (enq_asleep σ).*1 ++ (enq_woken σ).*1 ++ deq_asleep σ ++ deq_woken σ.

(** pthread_cond_signal: one sleeper, if there is one, wakes. *)
Inductive signal {A} : list A * list A -> list A * list A -> Prop :=
| signal_none w : signal ([], w) ([], w)
| signal_one l1 t l2 w : signal (l1 ++ t :: l2, w) (l1 ++ l2, t :: w).

(** What a step shows to the users of the queue. *)
Inductive event :=
| EEnter (t : tid) (e : T)
| ERefuse (t : tid) (e : T)
| ELeave (t : tid) (e : T)
| EWait (t : tid)
| EWake (t : tid).

(** enq by thread [t], from its start or after a wait; [ew] are the woken
    producers that are left. *)
Inductive enq_step (t : tid) (e : T) (blocking : bool) (ew : list (tid * T)) (σ : sys) : event -> sys -> Prop :=
| enq_entered f das dw :
    enq e blocking (queue σ) = (Entered, f) ->
    signal (deq_asleep σ, deq_woken σ) (das, dw) ->
    enq_step t e blocking ew σ (EEnter t e) (Sys f (enq_asleep σ) ew das dw)
| enq_waits f :
    enq e blocking (queue σ) = (EnqWait, f) ->
    enq_step t e blocking ew σ (EWait t) (Sys f ((t, e) :: enq_asleep σ) ew (deq_asleep σ) (deq_woken σ))
| enq_refused f :
    enq e blocking (queue σ) = (Refused, f) ->
    enq_step t e blocking ew σ (ERefuse t e) (Sys f (enq_asleep σ) ew (deq_asleep σ) (deq_woken σ)).

(** deq likewise. *)
Inductive deq_step (t : tid) (dw : list tid) (σ : sys) : event -> sys -> Prop :=
| deq_left e sig f eas ew :
    deq (queue σ) = Some (e, sig, f) ->
    (if sig : bool then signal (enq_asleep σ, enq_woken σ) (eas, ew)
     else eas = enq_asleep σ /\ ew = enq_woken σ) ->
    deq_step t dw σ (ELeave t e) (Sys f eas ew (deq_asleep σ) dw)
| deq_waits :
    deq (queue σ) = None ->
    deq_step t dw σ (EWait t) (Sys (queue σ) (enq_asleep σ) (enq_woken σ) (t :: deq_asleep σ) dw).

Inductive step (σ : sys) : event -> sys -> Prop :=
| step_enq t e blocking ev σ' :
    t ∉ inside σ -> enq_step t e blocking (enq_woken σ) σ ev σ' -> step σ ev σ'
| step_enq_again t e ew1 ew2 ev σ' :
    enq_woken σ = ew1 ++ (t, e) :: ew2 -> enq_step t e true (ew1 ++ ew2) σ ev σ' -> step σ ev σ'
| step_deq t ev σ' :
    t ∉ inside σ -> deq_step t (deq_woken σ) σ ev σ' -> step σ ev σ'
| step_deq_again t dw1 dw2 ev σ' :
    deq_woken σ = dw1 ++ t :: dw2 -> deq_step t (dw1 ++ dw2) σ ev σ' -> step σ ev σ'
| step_enq_spurious t e l1 l2 :
    enq_asleep σ = l1 ++ (t, e) :: l2 ->
    step σ (EWake t) (Sys (queue σ) (l1 ++ l2) ((t, e) :: enq_woken σ) (deq_asleep σ) (deq_woken σ))
| step_deq_spurious t l1 l2 :
    deq_asleep σ = l1 ++ t :: l2 ->
    step σ (EWake t) (Sys (queue σ) (enq_asleep σ) (enq_woken σ) (l1 ++ l2) (t :: deq_woken σ)).

Inductive run (limit : Z) : list event -> sys -> Prop :=
| run_nil : run limit [] (sys_new limit)
| run_snoc evs σ ev σ' : run limit evs σ -> step σ ev σ' -> run limit (evs ++ [ev]) σ'.

(** The elements that went in and that came out, in order. *)
Definition entered (evs : list event) : list T :=
  omap (fun ev => match ev with EEnter _ e => Some e | _ => None end) evs.
Definition left_ (evs : list event) : list T :=
  omap (fun ev => match ev with ELeave _ e => Some e | _ => None end) evs.

(** ** Invariant *)

(** The queue respects its limit, and whoever sleeps although it could go
    on is outnumbered by threads already woken for the same reason. *)
Record inv (limit : Z) (σ : sys) : Prop := Inv {
  inv_max : max_ (queue σ) = u32 limit;
  inv_cap : max_ (queue σ) = 0 \/ lenZ (q_ (queue σ)) <= max_ (queue σ);
  inv_deq : deq_asleep σ = [] \/ lenZ (q_ (queue σ)) <= lenZ (deq_woken σ);
  inv_enq : enq_asleep σ = [] \/
    (0 < max_ (queue σ) /\ max_ (queue σ) - lenZ (q_ (queue σ)) <= lenZ (enq_woken σ))
}.

Lemma signal_spec {A} (s w s' w' : list A) :
  signal (s, w) (s', w') ->
  (s = [] /\ s' = [] /\ w' = w) \/ (lenZ w' = lenZ w + 1 /\ s <> []).
Proof.
  intros H. inversion H; subst; [by left|]. right. split; [cbn; lia|]. by destruct l1.
Qed.

Lemma has_room_spec f : 0 <= max_ f ->
  if has_room f then max_ f = 0 \/ lenZ (q_ f) < max_ f else 0 < max_ f <= lenZ (q_ f).
Proof. intros. unfold has_room. do 2 (bcase); auto; lia. Qed.

(** The woken producers [ew] may count the caller, who is about to test. *)
Lemma enq_step_inv limit t e blocking ew σ ev σ' :
  inv limit σ -> enq_step t e blocking ew σ ev σ' ->
  lenZ (enq_woken σ) - 1 <= lenZ ew ->
  (lenZ ew < lenZ (enq_woken σ) -> blocking = true) -> inv limit σ'.
Proof.
  intros [Hm Hc Hd He] Hs Hew Hb.
  assert (H0 : 0 <= max_ (queue σ)) by (rewrite Hm; apply u32_range).
  pose proof (has_room_spec _ H0) as Hr.
  destruct Hs as [f das dw E Hsig|f E|f E]; unfold enq in E; destruct (has_room (queue σ));
    try (destruct blocking); simplify_eq; split; cbn in *; try done; try lia.
  all: rewrite ?length_app; cbn; try lia.
  all: try (destruct (signal_spec _ _ _ _ Hsig) as [(Es & -> & ->)|[Hw Hne]];
    [by left|right; destruct Hd as [|Hd]; [done|lia]]).
  all: try (destruct He as [->|He]; [left; done|right; lia]).
Qed.

Lemma deq_step_inv limit t dw σ ev σ' :
  inv limit σ -> deq_step t dw σ ev σ' -> lenZ (deq_woken σ) - 1 <= lenZ dw -> inv limit σ'.
Proof.
  intros [Hm Hc Hd He] Hs Hdw.
  assert (H0 : 0 <= max_ (queue σ)) by (rewrite Hm; apply u32_range).
  destruct Hs as [e sig f eas ew E Hsig|E]; unfold deq in E; destruct (q_ (queue σ)) as [|x q] eqn:Eq;
    simplify_eq; split; cbn in *; rewrite ?Eq; cbn; try done; try lia.
  - destruct Hd as [->|Hd]; [by left|right; lia].
  - revert Hsig. destruct (Z.eqb_spec (max_ (queue σ)) 0); cbn.
    + intros [-> ->]. destruct He as [->|He]; [by left|lia].
    + destruct (Z.ltb_spec (lenZ q) (max_ (queue σ))); [|lia]. intros Hsig.
      destruct (signal_spec _ _ _ _ Hsig) as [(Es & -> & ->)|[Hw Hne]]; [by left|right].
      destruct He as [|He]; [done|lia].
Qed.

Lemma step_inv limit σ ev σ' : inv limit σ -> step σ ev σ' -> inv limit σ'.
Proof.
  intros Hi Hs. destruct Hs as [t e b ev σ' _ H|t e l1 l2 ev σ' E H|t ev σ' _ H|t l1 l2 ev σ' E H
    |t e l1 l2 E|t l1 l2 E].
  - eapply enq_step_inv; [done|exact H|lia|lia].
  - eapply enq_step_inv; [done|exact H|rewrite E, !length_app; cbn; lia|done].
  - eapply deq_step_inv; [done|exact H|lia].
  - eapply deq_step_inv; [done|exact H|rewrite E, !length_app; cbn; lia].
  - destruct Hi as [? ? ? He]. split; cbn; try done. destruct He as [He|He]; [by rewrite E in He; destruct l1|].
    right. lia.
  - destruct Hi as [? ? Hd ?]. split; cbn; try done. destruct Hd as [Hd|Hd]; [by rewrite E in Hd; destruct l1|].
    right. lia.
Qed.

Lemma run_inv limit evs σ : run limit evs σ -> inv limit σ.
Proof.
  induction 1 as [|evs σ ev σ' _ IH Hs]; [|by eapply step_inv].
  split; cbn; try (by left); [done|]. pose proof (u32_range limit) as [? ?]. destruct (decide (u32 limit = 0)); [by left|right; lia].
Qed.

(** ** First in, first out *)

(** What one step does to the contents. *)
Definition effect (ev : event) (q q' : list T) : Prop :=
  match ev with
  | EEnter _ e => q' = q ++ [e]
  | ELeave _ e => q = e :: q'
  | _ => q' = q
  end.

Lemma enq_step_effect t e b ew σ ev σ' :
  enq_step t e b ew σ ev σ' -> effect ev (q_ (queue σ)) (q_ (queue σ')).
Proof.
  intros H. destruct H as [f das dw E _|f E|f E]; unfold enq in E;
    destruct (has_room (queue σ)); try destruct b; simplify_eq; done.
Qed.

Lemma deq_step_effect t dw σ ev σ' : deq_step t dw σ ev σ' -> effect ev (q_ (queue σ)) (q_ (queue σ')).
Proof.
  intros H. destruct H as [e sig f eas ew E _|E]; [|done].
  unfold deq in E. destruct (q_ (queue σ)) eqn:Eq; simplify_eq. done.
Qed.

Lemma step_effect σ ev σ' : step σ ev σ' -> effect ev (q_ (queue σ)) (q_ (queue σ')).
Proof. destruct 1; eauto using enq_step_effect, deq_step_effect; done. Qed.

Lemma run_order limit evs σ : run limit evs σ -> entered evs = left_ evs ++ q_ (queue σ).
Proof.
  induction 1 as [|evs σ ev σ' _ IH Hs]; [done|]. apply step_effect in Hs.
  unfold entered, left_ in *. rewrite !omap_app, IH.
  destruct ev; cbn in *; rewrite ?app_nil_r, ?Hs, ?app_assoc, <- ?app_assoc; done.
Qed.

(** However threads interleave, the elements come out of the queue in
    the order in which they went in, none lost and none twice, and the
    queue never exceeds its limit. *)
Theorem fifo_order (limit : Z) (evs : list event) (σ : sys) :
  run limit evs σ ->
  entered evs = left_ evs ++ q_ (queue σ) /\
  (u32 limit <> 0 -> lenZ (q_ (queue σ)) <= u32 limit).
Proof.
  intros H. split; [by eapply run_order|]. destruct (run_inv _ _ _ H) as [Hm Hc _ _].
  rewrite Hm in Hc. tauto.
Qed.

(** C28: no wake-up is lost: when the queue has elements and a consumer
    sleeps, another consumer has been woken and not yet run, and as many
    as there are elements; likewise for producers and free places. *)
Theorem fifo_no_lost_wakeup (limit : Z) (evs : list event) (σ : sys) :
  run limit evs σ ->
  (deq_asleep σ <> [] -> lenZ (q_ (queue σ)) <= lenZ (deq_woken σ)) /\
  (enq_asleep σ <> [] -> u32 limit - lenZ (q_ (queue σ)) <= lenZ (enq_woken σ)).
Proof.
  intros H. destruct (run_inv _ _ _ H) as [Hm _ Hd He]. rewrite Hm in He. tauto.
Qed.

End fifo.

(** Two consumers wait, a producer enters one element and wakes the
    first. *)
Module demo.

Definition evs : list (event (T := nat)) := [EWait 1%positive; EWait 2%positive; EEnter 3%positive 7%nat].

Definition σ : sys := Sys (Fifo [7%nat] 2) [] [] [2%positive] [1%positive].

Lemma demo_run : run 2 evs σ.
Proof.
  apply (run_snoc 2 [EWait 1%positive; EWait 2%positive] (Sys (Fifo [] 2) [] [] [2%positive; 1%positive] [])).
  - apply (run_snoc 2 [EWait 1%positive] (Sys (Fifo [] 2) [] [] [1%positive] [])).
    + apply (run_snoc 2 [] (sys_new 2)); [constructor|].
      apply (step_deq _ 1%positive); [cbn; apply not_elem_of_nil|]. by constructor.
    + apply (step_deq _ 2%positive); [cbn; set_solver|]. by constructor.
  - apply (step_enq _ 3%positive 7%nat false); [cbn; set_solver|].
    econstructor; [reflexivity|]. apply (signal_one [2%positive] 1%positive []).
Qed.

Lemma fifo_order_witness : entered evs = left_ evs ++ [7%nat] /\ (u32 2 <> 0 -> 1 <= u32 2).
Proof. exact (fifo_order 2 evs σ demo_run). Defined.

Lemma fifo_no_lost_wakeup_witness : deq_asleep σ = [2%positive] /\ 1 <= lenZ (deq_woken σ).
Proof. split; [reflexivity|]. apply (fifo_no_lost_wakeup 2 evs σ demo_run). discriminate. Defined.

End demo.
End fifo.
