(* ===== verification/ThrPool.v ===== *)
(** * The thread pool (rpc/thr_pool.cc, rpc/thr_pool.h)

    A pool is a bounded queue of jobs and worker threads that take and run
    them; a job without a function is the poison pill that ends a worker.
    The steps are those of the queue (Fifo.v), made by workers, by callers
    of addJob and by the destructor. *)

From Stdlib Require Import ZArith Lia.
From stdpp Require Import base list sets.
From S2P Require Import Prelude Fifo.

#[local] Open Scope Z_scope.
#[local] Set Warnings "-clear-no-such-hyp".

Module thr_pool.
Import fifo.

Section pool.
Context {J : Type}.  (* a function and its argument *)

(** struct job_t; [None] is [f == NULL]. *)
Abbreviation job_t := (option J).

(** do_worker: what a worker is doing. *)
Inductive wstate :=
| Taking            (* in takeJob *)
| Running (j : J)
| Exited.
#[export] Instance wstate_inhabited : Inhabited wstate := populate Taking.

(** takeJob returned [j]: run it, or leave the loop when [j.f] is NULL. *)
Definition after_take (j : job_t) : wstate :=
  match j with Some j => Running j | None => Exited end.

Record pool := Pool {
  jobq_ : sys (T := job_t);
  workers : list wstate;  (* th_ *)
  closing : bool;         (* the destructor has been called *)
  pills : nat             (* enq calls the destructor has made *)
}.

Abbreviation queue_of σ := (queue (jobq_ σ)).

(** The constructor: [sz] workers, a queue of 100*sz jobs. *)
Definition ThrPool_new (sz : nat) : pool := Pool (sys_new (100 * Z.of_nat sz)) (replicate sz Taking) false 0.

(** The thread of worker [i]; every other thread is outside the pool. *)
Definition wid (i : nat) : tid := Pos.of_succ_nat i.
Definition outside (σ : pool) (t : tid) : Prop := (length (workers σ) < Pos.to_nat t)%nat.

Definition with_queue (q : sys) (σ : pool) : pool := Pool q (workers σ) (closing σ) (pills σ).

(** A worker's deq step, and what it does next. *)
Definition worker_step (i : nat) (ev : event) (q : sys) (σ : pool) : pool :=
  Pool q (match ev with ELeave _ j => <[i := after_take j]> (workers σ) | _ => workers σ end)
    (closing σ) (pills σ).

Inductive pevent :=
| PQueue (ev : event (T := job_t))
| PFinish (j : J)
| PClose.

Section steps.
Context (blockadd_ : bool).

(** addJob enqueues a job as [blockadd_] says, the destructor enqueues one
    pill per worker and waits for room; it may be called only when no
    caller is inside addJob. *)
Inductive pstep (σ : pool) : pevent -> pool -> Prop :=
| p_add t j ev q :
    closing σ = false -> outside σ t -> t ∉ inside (jobq_ σ) ->
    enq_step t (Some j) blockadd_ (enq_woken (jobq_ σ)) (jobq_ σ) ev q ->
    pstep σ (PQueue ev) (with_queue q σ)
| p_enq_again t e l1 l2 ev q :
    enq_woken (jobq_ σ) = l1 ++ (t, e) :: l2 ->
    enq_step t e true (l1 ++ l2) (jobq_ σ) ev q ->
    pstep σ (PQueue ev) (with_queue q σ)
| p_close :
    closing σ = false -> enq_asleep (jobq_ σ) = [] -> enq_woken (jobq_ σ) = [] ->
    pstep σ PClose (Pool (jobq_ σ) (workers σ) true (pills σ))
| p_pill t ev q :
    closing σ = true -> (pills σ < length (workers σ))%nat -> outside σ t ->
    enq_asleep (jobq_ σ) = [] -> enq_woken (jobq_ σ) = [] ->
    enq_step t None true [] (jobq_ σ) ev q ->
    pstep σ (PQueue ev) (Pool q (workers σ) true (S (pills σ)))
| p_take i ev q :
    workers σ !! i = Some Taking -> wid i ∉ inside (jobq_ σ) ->
    deq_step (wid i) (deq_woken (jobq_ σ)) (jobq_ σ) ev q ->
    pstep σ (PQueue ev) (worker_step i ev q σ)
| p_take_again i l1 l2 ev q :
    workers σ !! i = Some Taking -> deq_woken (jobq_ σ) = l1 ++ wid i :: l2 ->
    deq_step (wid i) (l1 ++ l2) (jobq_ σ) ev q ->
    pstep σ (PQueue ev) (worker_step i ev q σ)
| p_finish i j :
    workers σ !! i = Some (Running j) ->
    pstep σ (PFinish j) (Pool (jobq_ σ) (<[i := Taking]> (workers σ)) (closing σ) (pills σ)).

(** Waits may also end by themselves. *)
Inductive spurious (σ : pool) : pool -> Prop :=
| p_spurious t q : step (jobq_ σ) (EWake t) q -> spurious σ (with_queue q σ).

Inductive prun (sz : nat) : list pevent -> pool -> Prop :=
| prun_nil : prun sz [] (ThrPool_new sz)
| prun_step evs σ ev σ' : prun sz evs σ -> pstep σ ev σ' -> prun sz (evs ++ [ev]) σ'
| prun_spurious evs σ σ' : prun sz evs σ -> spurious σ σ' -> prun sz evs σ'.

End steps.

(** Jobs addJob accepted, jobs a worker started and jobs that returned. *)
Definition accepted (evs : list pevent) : list J :=
  omap (fun ev => match ev with PQueue (EEnter _ (Some j)) => Some j | _ => None end) evs.
Definition started (evs : list pevent) : list J :=
  omap (fun ev => match ev with PQueue (ELeave _ (Some j)) => Some j | _ => None end) evs.
Definition finished (evs : list pevent) : list J :=
  omap (fun ev => match ev with PFinish j => Some j | _ => None end) evs.

Definition running (ws : list wstate) : list J :=
  omap (fun w => match w with Running j => Some j | _ => None end) ws.

(** ** Invariant *)

Definition is_none (j : job_t) : nat := match j with None => 1 | Some _ => 0 end.
Definition nones (l : list job_t) : nat := sum_list_with is_none l.
Definition exited (ws : list wstate) : nat :=
  sum_list_with (fun w => match w with Exited => 1 | _ => 0 end)%nat ws.

(** Producers and consumers inside the queue's operations. *)
Abbreviation waiting q := (enq_asleep q ++ enq_woken q).
Abbreviation consumers q := (deq_asleep q ++ deq_woken q).

(** Pills are behind all jobs; [n] workers have exited. *)
Definition jobs_first (n : nat) (q : list job_t) : Prop :=
  exists js k, q = (Some <$> js) ++ replicate k None /\ ((0 < n)%nat -> js = []).

Record pinv (sz : nat) (σ : pool) : Prop := Pinv {
  pi_fifo : inv (100 * Z.of_nat sz) (jobq_ σ);
  pi_len : length (workers σ) = sz;
  pi_jobs_first : jobs_first (exited (workers σ)) (q_ (queue_of σ));
  pi_pills : (exited (workers σ) + nones (q_ (queue_of σ)) + nones (waiting (jobq_ σ)).*2 = pills σ)%nat;
  pi_closed : if closing σ then Forall (fun p => p.2 = None) (waiting (jobq_ σ)) /\ (pills σ <= sz)%nat
    else pills σ = 0%nat;
  pi_nodup : NoDup (consumers (jobq_ σ));
  pi_outside : Forall (fun p => (sz < Pos.to_nat p.1)%nat) (waiting (jobq_ σ));
  pi_taking : Forall (fun t => exists i, t = wid i /\ workers σ !! i = Some Taking) (consumers (jobq_ σ))
}.

Lemma nones_app l1 l2 : nones (l1 ++ l2) = (nones l1 + nones l2)%nat.
Proof. apply sum_list_with_app. Qed.

Lemma nones_cons j l : nones (j :: l) = (is_none j + nones l)%nat.
Proof. done. Qed.

Lemma nones_jobs js k : nones ((Some <$> js) ++ replicate k None) = k.
Proof.
  rewrite nones_app. assert (nones (Some <$> js) = 0%nat) as -> by (by induction js).
  unfold nones. induction k as [|k IH]; cbn in *; [done|]. by rewrite IH.
Qed.

Lemma jobs_first_snoc n q e :
  jobs_first n q -> (e <> None -> nones q = 0 /\ n = 0)%nat -> jobs_first n (q ++ [e]).
Proof.
  intros (js & k & -> & Hn) He. rewrite nones_jobs in He. destruct e as [j|].
  - destruct He as [-> ->]; [done|]. exists (js ++ [j]), 0%nat. rewrite fmap_app, !app_nil_r. split; [done|lia].
  - exists js, (k + 1)%nat. by rewrite replicate_add, <- app_assoc.
Qed.

Lemma jobs_first_tail n e q : jobs_first n (e :: q) -> jobs_first (n + is_none e) q.
Proof.
  intros ([|j js] & k & E & Hn); cbn in E.
  - destruct k as [|k]; [done|]. injection E as -> ->. exists [], k. done.
  - injection E as -> ->. exists js, k. split; [done|]. cbn. intros H0. specialize (Hn ltac:(lia)). done.
Qed.

Lemma nones_perm l1 l2 : l1 ≡ₚ l2 -> nones l1 = nones l2.
Proof. induction 1; unfold nones in *; cbn; lia. Qed.

Lemma signal_perm {A} (s w s' w' : list A) : signal (s, w) (s', w') -> s' ++ w' ≡ₚ s ++ w.
Proof. intros H. inversion H; subst; [done|]. solve_Permutation. Qed.

Lemma sum_insert {A} (f : A -> nat) l i x y :
  l !! i = Some y -> (sum_list_with f (<[i := x]> l) + f y = sum_list_with f l + f x)%nat.
Proof. revert i. induction l as [|a l IH]; intros [|i] E; simplify_eq/=; [lia|]. specialize (IH _ E). lia. Qed.

(** A producer's step; [c] tells whether the woken producers lost a pill. *)
Lemma enq_pinv sz σ t e b ew ev q (cl : bool) (pl c : nat) :
  pinv sz σ -> enq_step t e b ew (jobq_ σ) ev q -> inv (100 * Z.of_nat sz) q ->
  (nones ew.*2 + c = nones (enq_woken (jobq_ σ)).*2)%nat -> (pl + c = pills σ + is_none e)%nat ->
  (b = false -> e <> None) -> (e <> None -> pills σ = 0%nat) ->
  (sz < Pos.to_nat t)%nat -> (forall p, p ∈ ew -> p ∈ enq_woken (jobq_ σ)) ->
  (if cl then e = None /\ (pl <= sz)%nat /\ Forall (fun p => p.2 = None) (enq_asleep (jobq_ σ) ++ ew) else pl = 0%nat) ->
  pinv sz (Pool q (workers σ) cl pl).
Proof.
  intros [Hi Hl Hj Hp Hcl Hnd Hout Ht] Hs Hq Hew Hpl Hb Hnn Hto Hsub He.
  rewrite fmap_app, nones_app in Hp. rewrite Forall_forall in Hout.
  assert (Hout' : Forall (fun p => (sz < Pos.to_nat p.1)%nat) (enq_asleep (jobq_ σ) ++ ew)).
  { rewrite Forall_forall. intros p Hp'. apply Hout. set_solver. }
  destruct Hs as [f das dw E Hsig|f E|f E]; unfold enq in E; destruct (has_room _); try (destruct b);
    inversion E; subst f; clear E;
    split; cbn [jobq_ workers closing pills queue q_ enq_asleep enq_woken deq_asleep deq_woken]; try done;
    rewrite ?fmap_app, ?nones_app.
  all: try (rewrite (signal_perm _ _ _ _ Hsig); done).
  all: try (apply jobs_first_snoc; [done|]; intros Hne; specialize (Hnn Hne); lia).
  all: rewrite ?fmap_cons, ?nones_cons; cbn [snd]; change (nones []) with 0%nat; try lia.
  all: try (destruct cl; [destruct He as (-> & ? & ?)|done]; cbn; split; [|done]; by try constructor).
  all: try (by constructor).
  destruct e as [j|]; [cbn in *; lia|by specialize (Hb eq_refl)].
Qed.

Lemma exited_take ws i (x : wstate) :
  ws !! i = Some Taking -> exited (<[i := x]> ws) = (exited ws + match x with Exited => 1 | _ => 0 end)%nat.
Proof.
  intros E. unfold exited. pose proof (sum_insert (fun w => match w with Exited => 1 | _ => 0 end)%nat _ i x _ E) as H.
  destruct x; lia.
Qed.

Lemma wid_inj i k : wid i = wid k -> i = k.
Proof. apply SuccNat2Pos.inj. Qed.

(** A consumer's step; [dw] are the woken consumers without worker [i]. *)
Lemma deq_pinv sz σ i dw ev q :
  pinv sz σ -> deq_step (wid i) dw (jobq_ σ) ev q -> inv (100 * Z.of_nat sz) q ->
  workers σ !! i = Some Taking -> NoDup (deq_asleep (jobq_ σ) ++ dw) ->
  (forall t, t ∈ deq_asleep (jobq_ σ) ++ dw -> t <> wid i /\ t ∈ consumers (jobq_ σ)) ->
  pinv sz (worker_step i ev q σ).
Proof.
  intros [Hi Hl Hj Hp Hcl Hnd Hout Ht] Hs Hq Hw Hdn Hd. unfold worker_step.
  rewrite Forall_forall in Ht.
  destruct Hs as [e sig f eas ew E Hsig|E].
  - unfold deq in E. destruct (q_ (queue_of σ)) as [|x q0] eqn:Eq; [done|]. injection E as -> <- <-.
    assert (Hperm : eas ++ ew ≡ₚ waiting (jobq_ σ)).
    { destruct (negb _ && _); [by eapply signal_perm|]. by destruct Hsig as [-> ->]. }
    assert (Hex : exited (<[i := after_take e]> (workers σ)) = (exited (workers σ) + is_none e)%nat)
      by (rewrite (exited_take _ _ _ Hw); by destruct e).
    split; cbn [jobq_ workers closing pills queue q_ enq_asleep enq_woken deq_asleep deq_woken]; try done.
    + by rewrite length_insert.
    + rewrite Hex. by apply jobs_first_tail.
    + rewrite Hex, (nones_perm _ _ (fmap_Permutation snd _ _ Hperm)). rewrite nones_cons in Hp. lia.
    + destruct (closing σ); [by rewrite Hperm|done].
    + by rewrite Hperm.
    + rewrite Forall_forall. intros t Hin. destruct (Hd t Hin) as [Hne Hc]. destruct (Ht t Hc) as (k & -> & Hk).
      exists k. split; [done|]. rewrite list_lookup_insert_ne; [done|]. intros ->. by apply Hne.
  - split; cbn [jobq_ workers closing pills queue q_ enq_asleep enq_woken deq_asleep deq_woken]; try done.
    + constructor; [|done]. intros Hin. by destruct (Hd _ Hin).
    + rewrite Forall_forall. intros t [->|Hin]%elem_of_cons; [eauto|]. apply Ht. by apply Hd.
Qed.

Lemma pinv_spurious sz σ σ' : pinv sz σ -> spurious σ σ' -> pinv sz σ'.
Proof.
  intros [Hi Hl Hj Hp Hcl Hnd Hout Ht] Hs. destruct Hs as [t q Hst].
  pose proof (step_inv _ _ _ _ Hi Hst) as Hq.
  assert (Hq' : q_ (queue q) = q_ (queue_of σ) /\ waiting q ≡ₚ waiting (jobq_ σ) /\ consumers q ≡ₚ consumers (jobq_ σ)).
  { inversion Hst as [? ? ? ? ? _ H|? ? ? ? ? ? _ H|? ? ? _ H|? ? ? ? ? _ H|? ? l1 l2 E|? l1 l2 E]; subst;
      try (by inversion H); cbn; rewrite E; (split; [done|]); split; solve_Permutation. }
  destruct Hq' as (E1 & E2 & E3). split; cbn [jobq_ workers closing pills with_queue]; rewrite ?E1; try done.
  - by rewrite (nones_perm _ _ (fmap_Permutation snd _ _ E2)).
  - destruct (closing σ); [by rewrite E2|done].
  - by rewrite E3.
  - by rewrite E2.
  - by rewrite E3.
Qed.

Lemma pinv_step b sz σ ev σ' : pinv sz σ -> pstep b σ ev σ' -> pinv sz σ'.
Proof.
  intros Hi Hs. pose proof Hi as [Hf Hl Hj Hp Hcl Hnd Hout Ht]. rewrite Forall_forall in Ht.
  destruct Hs as [t j ev q Hc Ho Hn H|t e l1 l2 ev q E H|Hc E1 E2|t ev q Hc Hlt Ho E1 E2 H|i ev q Hw Hn H
    |i l1 l2 ev q Hw E H|i j Hw].
  - rewrite Hc in Hcl. unfold with_queue. rewrite Hc.
    eapply (enq_pinv _ _ _ _ _ _ _ _ _ _ 0); [done|exact H|..]; cbn; try lia; try done.
    + eapply enq_step_inv; [done|exact H|lia|lia].
    + unfold outside in Ho. lia.
  - assert (Hw : waiting (jobq_ σ) ≡ₚ (t, e) :: enq_asleep (jobq_ σ) ++ l1 ++ l2) by (rewrite E; solve_Permutation).
    eapply (enq_pinv _ _ _ _ _ _ _ _ _ _ (is_none e)); [done|exact H|..]; try done.
    + eapply enq_step_inv; [done|exact H|rewrite E, !length_app; cbn; lia|done].
    + rewrite E, !fmap_app, fmap_cons, !nones_app, nones_cons. cbn. lia.
    + intros He. destruct (closing σ); [|done]. destruct Hcl as [Hall _]. rewrite Hw, Forall_cons in Hall. by destruct Hall.
    + rewrite Hw, Forall_cons in Hout. by destruct Hout.
    + rewrite E. set_solver.
    + destruct (closing σ); [|done]. destruct Hcl as [Hall ?]. rewrite Hw, Forall_cons in Hall. tauto.
  - split; cbn [jobq_ workers closing pills]; try done; [|by rewrite Forall_forall].
    rewrite E1, E2. rewrite Hc in Hcl. split; [constructor|lia].
  - rewrite Hc in Hcl. eapply (enq_pinv _ _ _ _ _ _ _ _ _ _ 0); [done|exact H|..]; cbn; rewrite ?E1, ?E2; try lia; try done.
    + eapply enq_step_inv; [done|exact H|rewrite E2; cbn; lia|done].
    + unfold outside in Ho. lia.
    + split; [done|]. split; [lia|done].
  - eapply deq_pinv; try done; [eapply deq_step_inv; [done|exact H|lia]|].
    intros t Hin. split; [|done]. intros ->. apply Hn. unfold inside. set_solver.
  - assert (Hperm : consumers (jobq_ σ) ≡ₚ wid i :: deq_asleep (jobq_ σ) ++ l1 ++ l2) by (rewrite E; solve_Permutation).
    rewrite Hperm in Hnd. apply NoDup_cons in Hnd as [Hni Hnd]. eapply deq_pinv; try done.
    + eapply deq_step_inv; [done|exact H|rewrite E, !length_app; cbn; lia].
    + intros t Hin. split; [by intros ->|]. rewrite Hperm. by right.
  - assert (Hex : exited (<[i := Taking]> (workers σ)) = exited (workers σ)).
    { unfold exited. pose proof (sum_insert (fun w => match w with Exited => 1 | _ => 0 end)%nat _ i Taking _ Hw). lia. }
    split; cbn [jobq_ workers closing pills]; rewrite ?Hex, ?length_insert; try done.
    rewrite Forall_forall. intros t Hin. destruct (Ht t Hin) as (k & -> & Hk). exists k. split; [done|].
    rewrite list_lookup_insert_ne; [done|]. intros ->. congruence.
Qed.

Lemma pinv_run b sz evs σ : prun b sz evs σ -> pinv sz σ.
Proof.
  induction 1 as [|evs σ ev σ' _ IH Hs|evs σ σ' _ IH Hs]; [|by eapply pinv_step|by eapply pinv_spurious].
  assert (exited (replicate sz Taking) = 0%nat) as He by (unfold exited; by induction sz).
  split; cbn; rewrite ?He; try done.
  - eapply run_inv. constructor.
  - by rewrite length_replicate.
  - exists [], 0%nat. done.
  - unfold exited in He. lia.
  - constructor.
Qed.

(** ** Jobs and the queue *)

(** The jobs among queue elements. *)
Abbreviation jobs_of l := (omap id l).

Definition queue_effect (ev : pevent) (q q' : list job_t) : Prop :=
  match ev with PQueue e => effect e q q' | _ => q' = q end.

Lemma pstep_effect b σ ev σ' : pstep b σ ev σ' -> queue_effect ev (q_ (queue_of σ)) (q_ (queue_of σ')).
Proof. destruct 1; cbn; eauto using enq_step_effect, deq_step_effect. Qed.

Lemma spurious_effect σ σ' : spurious σ σ' -> q_ (queue_of σ') = q_ (queue_of σ) /\ workers σ' = workers σ /\
  closing σ' = closing σ.
Proof. destruct 1 as [t q H]. apply step_effect in H. done. Qed.

Lemma jobs_order b sz evs σ : prun b sz evs σ -> accepted evs = started evs ++ jobs_of (q_ (queue_of σ)).
Proof.
  induction 1 as [|evs σ ev σ' _ IH Hs|evs σ σ' _ IH Hs]; [done| |].
  - apply pstep_effect in Hs. unfold accepted, started in *. rewrite !omap_app, IH.
    destruct ev as [[t e|t e|t e|t|t]|j|]; cbn in *; rewrite ?Hs, ?app_nil_r, ?omap_app; try done.
    + destruct e; cbn; by rewrite ?app_nil_r, <- ?app_assoc.
    + destruct e; cbn; by rewrite ?app_nil_r, <- ?app_assoc.
  - apply spurious_effect in Hs as (-> & _). done.
Qed.

Lemma running_insert ws i x y : ws !! i = Some y ->
  match y with Running j => j :: running (<[i := x]> ws) | _ => running (<[i := x]> ws) end ≡ₚ
  match x with Running j => j :: running ws | _ => running ws end.
Proof.
  revert i. induction ws as [|w ws IH]; intros [|i] E; simplify_eq/=.
  - destruct y, x; cbn; try done. constructor.
  - specialize (IH _ E). destruct w; cbn; [done| |done].
    destruct x, y; rewrite ?(Permutation_swap j), ?IH in *; try done; try (rewrite <- IH; solve_Permutation); solve_Permutation.
Qed.

(** A consumer's step and the running jobs. *)
Lemma take_running σ i dw ev q fin :
  workers σ !! i = Some Taking -> deq_step (wid i) dw (jobq_ σ) ev q ->
  (fin ++ []) ++ running (workers (worker_step i ev q σ)) ≡ₚ
  (fin ++ running (workers σ)) ++ started [PQueue ev].
Proof.
  intros Hw H. destruct H as [e sig f eas ew _ _|_]; cbn; rewrite !app_nil_r; [|done].
  pose proof (running_insert _ i (after_take e) _ Hw) as Hr. cbn in Hr.
  rewrite Hr. destruct e; cbn; [solve_Permutation|by rewrite app_nil_r].
Qed.

Lemma started_finished b sz evs σ : prun b sz evs σ -> finished evs ++ running (workers σ) ≡ₚ started evs.
Proof.
  induction 1 as [|evs σ ev σ' _ IH Hs|evs σ σ' _ IH Hs].
  - cbn. by induction sz.
  - unfold finished, started in *. rewrite !omap_app, <- IH. clear IH.
    assert (Henq : forall t e bl ew q ev', enq_step t e bl ew (jobq_ σ) ev' q ->
      match ev' with ELeave _ _ => False | _ => True end) by (destruct 1; done).
    destruct Hs as [t j ev q Hc Ho Hn H|t e l1 l2 ev q E H|Hc E1 E2|t ev q Hc Hlt Ho E1 E2 H|i ev q Hw Hn H
      |i l1 l2 ev q Hw E H|i j Hw]; cbn.
    1,2,4: apply Henq in H; destruct ev; done || by rewrite !app_nil_r.
    + by rewrite !app_nil_r.
    + exact (take_running σ i _ ev q _ Hw H).
    + exact (take_running σ i _ ev q _ Hw H).
    + pose proof (running_insert _ i Taking _ Hw) as Hr. cbn in Hr. rewrite <- Hr. solve_Permutation.
  - apply spurious_effect in Hs as (_ & -> & _). done.
Qed.

(** C13: the pool runs every job once: the jobs addJob accepted are exactly
    those a worker has started, in the order of their acceptance, followed
    by those still in the queue, and the started ones are those that have
    returned and those that are running. *)
Theorem pool_exactly_once (blockadd_ : bool) (sz : nat) (evs : list pevent) (σ : pool) :
  prun blockadd_ sz evs σ ->
  accepted evs = started evs ++ jobs_of (q_ (queue_of σ)) /\
  finished evs ++ running (workers σ) ≡ₚ started evs.
Proof. intros H. split; [by eapply jobs_order|by eapply started_finished]. Qed.

(** The destructor loses no job: when every worker has been joined,
    every accepted job has been run to its end. *)
Theorem pool_shutdown_complete (blockadd_ : bool) (sz : nat) (evs : list pevent) (σ : pool) :
  prun blockadd_ sz evs σ -> (0 < sz)%nat -> Forall (fun w => w = Exited) (workers σ) ->
  finished evs ≡ₚ accepted evs.
Proof.
  intros H Hsz Hw. destruct (pinv_run _ _ _ _ H) as [_ Hl (js & k & Eq & Hjs) _ _ _ _ _].
  rewrite (jobs_order _ _ _ _ H), <- (started_finished _ _ _ _ H), Eq.
  assert (Hr : running (workers σ) = [] /\ exited (workers σ) = length (workers σ)).
  { clear -Hw. unfold exited, running. induction Hw as [|w ws -> _ [IH1 IH2]]; cbn; [done|]. split; [exact IH1|f_equal; exact IH2]. }
  destruct Hr as [-> Hr]. rewrite Hjs by lia. cbn.
  assert (jobs_of (replicate k (None : job_t)) = []) as -> by (clear; by induction k). by rewrite !app_nil_r.
Qed.

(** ** The destructor terminates *)

(** A worker's weight: a running one will take again, a taking one will at
    least test the queue. *)
Definition weight (w : wstate) : nat := match w with Running _ => 2 | Taking => 1 | Exited => 0 end.

(** What is left to do after the destructor was called: pills to hand out,
    elements to take, producers and consumers that will test again. *)
Definition left_to_do (σ : pool) : Z :=
  6 * (lenZ (workers σ) - Z.of_nat (pills σ)) + 4 * lenZ (q_ (queue_of σ))
  + Z.of_nat (sum_list_with weight (workers σ)) - lenZ (deq_asleep (jobq_ σ))
  + 6 * lenZ (enq_woken (jobq_ σ)) + 4 * lenZ (enq_asleep (jobq_ σ)).

Lemma signal_length {A} (s w s' w' : list A) : signal (s, w) (s', w') ->
  (lenZ s' = lenZ s /\ lenZ w' = lenZ w) \/ (lenZ s' = lenZ s - 1 /\ lenZ w' = lenZ w + 1).
Proof. intros H. inversion H; subst; [by left|right]. rewrite !length_app. cbn. lia. Qed.

Lemma enq_step_decreases σ t e ew ev q cl pl :
  enq_step t e true ew (jobq_ σ) ev q ->
  (lenZ ew = lenZ (enq_woken (jobq_ σ)) - 1 /\ pl = pills σ) \/
  (lenZ ew = lenZ (enq_woken (jobq_ σ)) /\ pl = S (pills σ)) ->
  left_to_do (Pool q (workers σ) cl pl) < left_to_do σ.
Proof.
  intros H Hc. unfold left_to_do. cbn [workers pills jobq_].
  destruct H as [f das dw E Hsig|f E|f E]; unfold enq in E; destruct (has_room _); inversion E; subst f; cbn.
  - rewrite length_app. cbn. destruct (signal_length _ _ _ _ Hsig) as [[? ?]|[? ?]]; lia.
  - lia.
Qed.

Lemma deq_step_decreases σ i dw ev q :
  workers σ !! i = Some Taking -> deq_step (wid i) dw (jobq_ σ) ev q ->
  left_to_do (worker_step i ev q σ) < left_to_do σ.
Proof.
  intros Hw H. unfold left_to_do, worker_step. cbn [workers pills jobq_].
  destruct H as [e sig f eas ew E Hsig|E]; cbn.
  - unfold deq in E. destruct (q_ (queue_of σ)) as [|x q0] eqn:Eq; [done|]. injection E as -> <- <-.
    rewrite length_insert. pose proof (sum_insert weight _ i (after_take e) _ Hw) as Hs.
    assert (Hx : (weight (after_take e) <= 2)%nat) by (destruct e; cbn; lia). cbn [weight] in Hs. cbn.
    assert (Hsl : (lenZ eas = lenZ (enq_asleep (jobq_ σ)) /\ lenZ ew = lenZ (enq_woken (jobq_ σ))) \/
      (lenZ eas = lenZ (enq_asleep (jobq_ σ)) - 1 /\ lenZ ew = lenZ (enq_woken (jobq_ σ)) + 1)).
    { destruct (negb _ && _); [by apply signal_length|]. destruct Hsig as [-> ->]. by left. }
    lia.
  - lia.
Qed.

Lemma pstep_decreases b σ ev σ' :
  closing σ = true -> pstep b σ ev σ' -> left_to_do σ' < left_to_do σ /\ closing σ' = true.
Proof.
  intros Hc H. destruct H as [t j ev q Hc' _ _ _|t e l1 l2 ev q E H|Hc' _ _|t ev q _ Hlt Ho E1 E2 H|i ev q Hw Hn H
    |i l1 l2 ev q Hw E H|i j Hw]; try congruence.
  - split; [|done]. eapply enq_step_decreases; [exact H|]. left. rewrite E, !length_app. cbn. lia.
  - split; [|done]. eapply enq_step_decreases; [exact H|]. right. by rewrite E2.
  - split; [|by destruct ev]. by eapply deq_step_decreases.
  - split; [|by destruct ev]. by eapply deq_step_decreases.
  - split; [|done]. unfold left_to_do. cbn. rewrite length_insert.
    pose proof (sum_insert weight _ i Taking _ Hw) as Hs. cbn in Hs. lia.
Qed.

Lemma taking_weight l ws :
  NoDup l -> Forall (fun t => exists i, t = wid i /\ ws !! i = Some Taking) l ->
  (length l <= sum_list_with weight ws)%nat.
Proof.
  revert ws. induction l as [|t l IH]; intros ws Hnd Hl; [cbn; lia|].
  apply NoDup_cons in Hnd as [Hni Hnd]. apply Forall_cons in Hl as [(i & -> & Hi) Hl].
  specialize (IH (<[i := Exited]> ws) Hnd). cbn.
  pose proof (sum_insert weight _ i Exited _ Hi) as Hs. cbn in Hs.
  enough (length l <= sum_list_with weight (<[i := Exited]> ws))%nat by lia.
  apply IH. rewrite Forall_forall in Hl |- *. intros t Ht. destruct (Hl t Ht) as (k & -> & Hk).
  exists k. split; [done|]. rewrite list_lookup_insert_ne; [done|]. by intros ->.
Qed.

Lemma left_to_do_nonneg sz σ : pinv sz σ -> closing σ = true -> 0 <= left_to_do σ.
Proof.
  intros [_ Hl _ _ Hcl Hnd _ Ht] Hc. rewrite Hc in Hcl. destruct Hcl as [_ Hp].
  apply NoDup_app in Hnd as (Hnd & _ & _). apply Forall_app in Ht as [Ht _].
  pose proof (taking_weight _ _ Hnd Ht). unfold left_to_do. lia.
Qed.

Lemma deq_step_total t dw (q : sys (T := job_t)) : exists ev q', deq_step t dw q ev q'.
Proof.
  destruct (deq (queue q)) as [[[e sig] f]|] eqn:E; [|by eexists _, _; apply deq_waits].
  destruct sig; [|by eexists _, _; eapply deq_left; [exact E|split; reflexivity]].
  destruct (enq_asleep q) as [|p l] eqn:Ep.
  - eexists _, _. eapply deq_left; [exact E|]. rewrite Ep. constructor.
  - eexists _, _. eapply deq_left; [exact E|]. rewrite Ep. apply (signal_one []).
Qed.

Lemma enq_step_total t e ew (q : sys (T := job_t)) : exists ev q', enq_step t e true ew q ev q'.
Proof.
  destruct (enq e true (queue q)) as [[] f] eqn:E.
  - destruct (deq_asleep q) as [|p l] eqn:Ep; eexists _, _; (eapply enq_entered; [exact E|]); rewrite Ep;
      [constructor|apply (signal_one [])].
  - by eexists _, _; eapply enq_waits.
  - by eexists _, _; eapply enq_refused.
Qed.

Lemma all_exited ws : exited ws = length ws -> Forall (fun w => w = Exited) ws.
Proof.
  unfold exited. assert (Hle : forall l, (sum_list_with (fun w => match w with Exited => 1 | _ => 0 end) l <= length l)%nat)
    by (intros l; induction l as [|[] l IH]; cbn; lia).
  induction ws as [|w ws IH]; cbn; [constructor|]. specialize (Hle ws). intros E.
  destruct w; try lia. constructor; [done|]. apply IH. lia.
Qed.

Lemma not_all_exited ws : Forall (fun w => w = Exited) ws \/
  (exists i j, ws !! i = Some (Running j)) \/ exists i, ws !! i = Some Taking.
Proof.
  induction ws as [|w ws IH]; [left; constructor|]. destruct w as [|j|].
  - right; right. by exists 0%nat.
  - right; left. by exists 0%nat, j.
  - destruct IH as [IH|[(i & j & E)|(i & E)]]; [left; by constructor|right; left; by exists (S i), j|right; right; by exists (S i)].
Qed.

(** Nobody is blocked for ever: after the destructor was called, a worker
    that has not exited implies that some thread can take a step. *)
Lemma pool_progress b sz σ :
  pinv sz σ -> closing σ = true -> Forall (fun w => w = Exited) (workers σ) \/ exists ev σ', pstep b σ ev σ'.
Proof.
  intros [Hf Hl Hj Hp Hcl Hnd Hout Ht] Hc. rewrite Hc in Hcl. destruct Hcl as [Hall Hps].
  destruct (not_all_exited (workers σ)) as [He|[(i & j & E)|(i & E)]]; [by left| |].
  { right. eexists _, _. by eapply p_finish. }
  destruct Hf as [_ _ Hd Hen].
  destruct (deq_woken (jobq_ σ)) as [|t dw] eqn:Edw.
  2: { apply Forall_app in Ht as [_ Ht]. apply Forall_cons in Ht as [(k & -> & Hk) _].
    destruct (deq_step_total (wid k) dw (jobq_ σ)) as (ev & q & H). right. eexists _, _.
    apply (p_take_again _ _ k [] dw ev q); done. }
  destruct (enq_woken (jobq_ σ)) as [|[t e] ew] eqn:Eew.
  2: { destruct (enq_step_total t e ew (jobq_ σ)) as (ev & q & H). right. eexists _, _.
    apply (p_enq_again _ _ t e [] ew ev q); done. }
  destruct (decide (wid i ∈ inside (jobq_ σ))) as [Hin|Hni].
  2: { destruct (deq_step_total (wid i) (deq_woken (jobq_ σ)) (jobq_ σ)) as (ev & q & H). right. eexists _, _.
    by eapply p_take. }
  assert (Hi : wid i ∈ deq_asleep (jobq_ σ)).
  { unfold inside in Hin. rewrite Eew, Edw in Hin. cbn in Hin. rewrite app_nil_r in Hin.
    apply elem_of_app in Hin as [Hin|Hin]; [|done]. apply list_elem_of_fmap in Hin as (p & Hp' & Hin).
    apply Forall_app in Hout as [Hout _]. rewrite Forall_forall in Hout. specialize (Hout _ Hin).
    rewrite <- Hp' in Hout. apply lookup_lt_Some in E. unfold wid in Hout. lia. }
  destruct Hd as [Hd|Hd]; [by rewrite Hd in Hi; apply not_elem_of_nil in Hi|]. cbn in Hd.
  destruct (q_ (queue_of σ)) as [|x q0] eqn:Eq; [|cbn in Hd; lia].
  destruct Hen as [Hen|[? Hen]]; [|cbn in Hen; lia].
  destruct (decide (pills σ < sz)%nat) as [Hlt|Hge].
  - destruct (enq_step_total (Pos.of_succ_nat (length (workers σ))) None [] (jobq_ σ)) as (ev & q & H). right.
    eexists _, _. eapply (p_pill _ _ (Pos.of_succ_nat (length (workers σ)))); try done; [lia|].
    unfold outside. lia.
  - left. apply all_exited. rewrite Hen in Hp. cbn in Hp. lia.
Qed.

(** [psteps n σ σ']: [n] steps of the pool, no wait ending by itself. *)
Inductive psteps (b : bool) (σ : pool) : nat -> pool -> Prop :=
| psteps_nil : psteps b σ 0 σ
| psteps_snoc n σ1 ev σ2 : psteps b σ n σ1 -> pstep b σ1 ev σ2 -> psteps b σ (S n) σ2.

Lemma psteps_inv b sz σ n σ' :
  psteps b σ n σ' -> pinv sz σ -> closing σ = true ->
  pinv sz σ' /\ closing σ' = true /\ left_to_do σ' + Z.of_nat n <= left_to_do σ.
Proof.
  induction 1 as [|n σ1 ev σ2 _ IH Hs]; intros Hi Hc; [split; [done|]; split; [done|lia]|].
  destruct (IH Hi Hc) as (Hi1 & Hc1 & Hle). destruct (pstep_decreases _ _ _ _ Hc1 Hs) as [Hlt Hc2].
  split; [by eapply pinv_step|]. split; [done|]. lia.
Qed.

(** C31: the destructor of the pool terminates: from the state in which it
    was called every schedule is bounded, and no schedule gets stuck before
    every worker has exited.  Jobs are taken to return, and wake-ups without
    a signal are not steps. *)
Theorem pool_shutdown_terminates (blockadd_ : bool) (sz : nat) (evs : list pevent) (σ : pool) :
  prun blockadd_ sz evs σ -> closing σ = true ->
  forall n σ', psteps blockadd_ σ n σ' ->
    Z.of_nat n <= left_to_do σ /\
    (Forall (fun w => w = Exited) (workers σ') \/ exists ev σ'', pstep blockadd_ σ' ev σ'').
Proof.
  intros H Hc n σ' Hs. pose proof (pinv_run _ _ _ _ H) as Hi.
  destruct (psteps_inv _ _ _ _ _ Hs Hi Hc) as (Hi' & Hc' & Hle).
  split; [|by eapply pool_progress]. pose proof (left_to_do_nonneg _ _ Hi' Hc'). lia.
Qed.

End pool.

(** One worker runs one job and is then shut down. *)
Module demo.

Definition st (q : list (option nat)) (w : wstate) (cl : bool) (pl : nat) : pool :=
  Pool (Sys (Fifo q 100) [] [] [] []) [w] cl pl.

Definition evs1 : list (pevent (J := nat)) :=
  [PQueue (EEnter 2%positive (Some 5%nat)); PQueue (ELeave 1%positive (Some 5%nat)); PFinish 5%nat; PClose].
Definition evs2 : list (pevent (J := nat)) :=
  evs1 ++ [PQueue (EEnter 2%positive None)] ++ [PQueue (ELeave 1%positive None)].

Lemma demo_closed : prun false 1 evs1 (st [] Taking true 0).
Proof.
  apply (prun_step false 1 (take 3 evs1) (st [] Taking false 0)); [|by apply (p_close false (st [] Taking false 0))].
  apply (prun_step false 1 (take 2 evs1) (st [] (Running 5%nat) false 0)); [|by apply (p_finish false (st [] (Running 5%nat) false 0) 0 5%nat)].
  apply (prun_step false 1 (take 1 evs1) (st [Some 5%nat] Taking false 0)).
  - apply (prun_step false 1 [] (ThrPool_new 1)); [constructor|].
    apply (p_add false (ThrPool_new 1) 2%positive 5%nat _ (Sys (Fifo [Some 5%nat] 100) [] [] [] [])); try done.
    + unfold outside. cbn. lia.
    + apply not_elem_of_nil.
    + econstructor; [reflexivity|constructor].
  - apply (p_take false (st [Some 5%nat] Taking false 0) 0 (ELeave 1%positive (Some 5%nat)) (Sys (Fifo [] 100) [] [] [] [])); try done.
    + apply not_elem_of_nil.
    + econstructor; [reflexivity|constructor].
Qed.

Lemma demo_shut : prun false 1 evs2 (st [] Exited true 1).
Proof.
  unfold evs2. rewrite app_assoc. apply (prun_step false 1 _ (st [None] Taking true 1)).
  - apply (prun_step false 1 _ _ _ _ demo_closed).
    apply (p_pill false (st [] Taking true 0) 2%positive (EEnter 2%positive None) (Sys (Fifo [None] 100) [] [] [] [])); try done.
    + cbn. lia.
    + unfold outside. cbn. lia.
    + econstructor; [reflexivity|constructor].
  - apply (p_take false (st [None] Taking true 1) 0 (ELeave 1%positive None) (Sys (Fifo [] 100) [] [] [] [])); try done.
    + apply not_elem_of_nil.
    + econstructor; [reflexivity|constructor].
Qed.

Lemma pool_exactly_once_witness : accepted evs1 = [5%nat] /\ finished evs1 ++ [] ≡ₚ [5%nat].
Proof. exact (pool_exactly_once false 1 evs1 _ demo_closed). Defined.

Lemma pool_shutdown_complete_witness : finished evs2 ≡ₚ [5%nat].
Proof.
  apply (pool_shutdown_complete false 1 evs2 _ demo_shut); [lia|]. repeat constructor.
Defined.

Lemma pool_shutdown_terminates_witness :
  left_to_do (st [] Taking true 0) = 7 /\
  forall n σ', psteps false (st [] Taking true 0) n σ' -> Z.of_nat n <= 7.
Proof.
  split; [reflexivity|]. intros n σ' H. exact (proj1 (pool_shutdown_terminates false 1 evs1 _ demo_closed eq_refl n σ' H)).
Defined.

End demo.
End thr_pool.
