(* ===== verification/MethodThread.v ===== *)
(** * Calls handed to other threads (rpc/method_thread.h, ThrPool::addObjJob)

    A member function to be run by another thread travels as a wrapper
    object on the heap, which the thread unpacks and deletes.  The four
    overloads of method_thread differ in the number of arguments only; here
    a wrapper holds a call: object, member function and arguments. *)

From Stdlib Require Import ZArith Lia.
From stdpp Require Import base list gmap sets.
From S2P Require Import Prelude.

#[local] Open Scope Z_scope.

Module method_thread.

Section calls.
Context {X : Type}.

(** The wrappers on the heap; the threads that have been created and not
    yet run, the jobs in the pool and those whose function is running, each
    by the address of its wrapper. *)
Record state := State {
  heap : gmap positive X;
  created : list positive;
  queued : list positive;
  running : list positive
}.

Definition state_new : state := State ∅ [] [] [].

(** [new XXX] with its fields set: the allocator gives a free address. *)
Definition alloc (p : positive) (x : X) (s : state) : state :=
  State (<[p := x]> (heap s)) (created s) (queued s) (running s).

(** [delete x]; [Undefined] when it is not allocated. *)
Definition free (p : positive) (s : state) : res state :=
  match heap s !! p with
  | Some _ => Ret (State (delete p (heap s)) (created s) (queued s) (running s))
  | None => Crash Undefined
  end.

Definition fetch (p : positive) (s : state) : res X :=
  match heap s !! p with Some x => Ret x | None => Crash Undefined end.

(** [err] and [derr] are what pthread_create and pthread_detach return;
    [None]: the process exits with status 1. *)
Definition method_thread_parent (err derr : Z) (detach : bool) (p : positive) (s : state) : res (option state) :=
  if negb (err =? 0) then Ret None
  else
    let s := State (heap s) (created s ++ [p]) (queued s) (running s) in
    if detach then verify (derr =? 0) (Ret (Some s)) else Ret (Some s).

Definition method_thread (err derr : Z) (detach : bool) (p : positive) (x : X) (s : state) : res (option state) :=
  method_thread_parent err derr detach p (alloc p x s).

Definition method_thread_child {A} (e1 e2 : Z) (k : res A) : res A := verify (e1 =? 0) (verify (e2 =? 0) k).

(** The thread's start routine up to the call it makes. *)
Definition yyy (e1 e2 : Z) (p : positive) (s : state) : res (X * state) :=
  x ← fetch p s;
  s ← free p s;
  method_thread_child e1 e2 (Ret (x, s)).

(** addObjJob: [added] is what addJob returns. *)
Definition addObjJob (added : bool) (p : positive) (x : X) (s : state) : bool * state :=
  let s := alloc p x s in
  (added, if added then State (heap s) (created s) (queued s ++ [p]) (running s) else s).

(** The job's function up to the call, and after it. *)
Definition func_call (p : positive) (s : state) : res X := fetch p s.
Definition func_end (p : positive) (s : state) : res state := free p s.

(** ** Runs *)

(** Calls handed over, calls made, and calls a full pool refused. *)
Record log := Log { asked : list X; made : list X; refused : list X }.
Definition log_new : log := Log [] [] [].

Inductive step : state * log -> state * log -> Prop :=
| s_thread s l p x err derr detach s' :
    heap s !! p = None -> method_thread err derr detach p x s = Ret (Some s') ->
    step (s, l) (s', Log (asked l ++ [x]) (made l) (refused l))
| s_start s l e1 e2 p r1 r2 x s' :
    created s = r1 ++ p :: r2 -> yyy e1 e2 p (State (heap s) (r1 ++ r2) (queued s) (running s)) = Ret (x, s') ->
    step (s, l) (s', Log (asked l) (made l ++ [x]) (refused l))
| s_add s l p x s' :
    heap s !! p = None -> addObjJob true p x s = (true, s') ->
    step (s, l) (s', Log (asked l ++ [x]) (made l) (refused l))
| s_refuse s l p x s' :
    heap s !! p = None -> addObjJob false p x s = (false, s') ->
    step (s, l) (s', Log (asked l) (made l) (refused l ++ [x]))
| s_call s l p r1 r2 x :
    queued s = r1 ++ p :: r2 -> func_call p s = Ret x ->
    step (s, l) (State (heap s) (created s) (r1 ++ r2) (p :: running s), Log (asked l) (made l ++ [x]) (refused l))
| s_end s l p r1 r2 s' :
    running s = r1 ++ p :: r2 -> func_end p (State (heap s) (created s) (queued s) (r1 ++ r2)) = Ret s' ->
    step (s, l) (s', l).

Inductive reachable : state * log -> Prop :=
| reach_init : reachable (state_new, log_new)
| reach_step x y : reachable x -> step x y -> reachable y.

(** ** Invariant *)

(** The calls still to be made. *)
Definition pending (s : state) : list X := omap (fun p => heap s !! p) (created s ++ queued s).

(** [lost]: the wrappers of refused jobs, which nobody deletes. *)
Record inv (lost : list positive) (s : state) (l : log) : Prop := Inv {
  i_nodup : NoDup (created s ++ queued s ++ running s ++ lost);
  i_heap : forall p, p ∈ created s ++ queued s ++ running s ++ lost <-> is_Some (heap s !! p);
  i_once : asked l ≡ₚ made l ++ pending s;
  i_lost : length lost = length (refused l)
}.

Lemma pending_insert (s : state) (p : positive) (x : X) (ps : list positive) : heap s !! p = None -> (forall q, q ∈ ps -> is_Some (heap s !! q)) ->
  omap (fun q => <[p := x]> (heap s) !! q) ps = omap (fun q => heap s !! q) ps.
Proof.
  intros Hp Hps. induction ps as [|q ps IH]; [done|]. cbn. destruct (Hps q ltac:(by left)) as [y Hy].
  rewrite lookup_insert_ne by congruence. rewrite Hy. f_equal. apply IH. intros q' Hq'. apply Hps. by right.
Qed.

Lemma pending_delete (s : state) (p : positive) (ps : list positive) : p ∉ ps -> omap (fun q => delete p (heap s) !! q) ps = omap (fun q => heap s !! q) ps.
Proof.
  induction ps as [|q ps IH]; [done|]. rewrite not_elem_of_cons. intros [Hq Hps]. cbn.
  rewrite lookup_delete_ne by congruence. by rewrite IH.
Qed.

(** The places where a wrapper is known, permuted. *)
Lemma inv_perm lost s l c q r :
  inv lost s l -> c ≡ₚ created s -> q ≡ₚ queued s -> r ≡ₚ running s -> inv lost (State (heap s) c q r) l.
Proof.
  intros [H1 H2 H3 H4] Hc Hq Hr. split; cbn; [by rewrite Hc, Hq, Hr| |by unfold pending; cbn; rewrite Hc, Hq|done].
  intros p. by rewrite Hc, Hq, Hr.
Qed.

Lemma alloc_inv lost s l p x :
  inv lost s l -> heap s !! p = None ->
  inv (p :: lost) (alloc p x s) (Log (asked l) (made l) (refused l ++ [x])) /\
  inv lost (State (<[p := x]> (heap s)) (p :: created s) (queued s) (running s)) (Log (asked l ++ [x]) (made l) (refused l)) /\
  inv lost (State (<[p := x]> (heap s)) (created s) (p :: queued s) (running s)) (Log (asked l ++ [x]) (made l) (refused l)).
Proof.
  intros [H1 H2 H3 H4] Hp. set (all := created s ++ queued s ++ running s ++ lost) in *.
  assert (Hnew : p ∉ all) by (rewrite H2, Hp; by intros []).
  assert (Hnd : NoDup (p :: all)) by (by apply NoDup_cons).
  assert (Hin : forall q, q ∈ p :: all <-> is_Some (<[p := x]> (heap s) !! q)).
  { intros q. rewrite elem_of_cons, H2, lookup_insert_is_Some. destruct (decide (p = q)); naive_solver. }
  assert (Hpend : omap (fun q => <[p := x]> (heap s) !! q) (created s ++ queued s) = pending s).
  { apply pending_insert; [done|]. intros q Hq. apply H2. unfold all. rewrite app_assoc. apply elem_of_app. by left. }
  assert (P1 : created s ++ queued s ++ running s ++ p :: lost ≡ₚ p :: all) by (unfold all; solve_Permutation).
  assert (P2 : created s ++ (p :: queued s) ++ running s ++ lost ≡ₚ p :: all) by (unfold all; solve_Permutation).
  split_and!; split; cbn; unfold pending; cbn; rewrite ?P1, ?P2; try done; try (intros q; rewrite ?P1, ?P2; apply Hin).
  - by rewrite Hpend.
  - rewrite length_app. cbn. lia.
  - rewrite lookup_insert_eq, Hpend, H3. solve_Permutation.
  - assert (E : created s ++ p :: queued s ≡ₚ p :: created s ++ queued s) by solve_Permutation. rewrite E. cbn.
    rewrite lookup_insert_eq, Hpend, H3. solve_Permutation.
Qed.

(** A thread unpacks its wrapper. *)
Lemma start_inv lost (s : state) (l : log) (p : positive) (c : list positive) :
  inv lost s l -> created s ≡ₚ p :: c ->
  exists x, heap s !! p = Some x /\
    inv lost (State (delete p (heap s)) c (queued s) (running s)) (Log (asked l) (made l ++ [x]) (refused l)).
Proof.
  intros [H1 H2 H3 H4] Hc. rewrite Hc in H1. cbn in H1. apply NoDup_cons in H1 as [Hp Hnd].
  destruct (proj1 (H2 p)) as [x Hx]; [rewrite Hc; by left|]. exists x. split; [done|]. split; cbn; [done| | |done].
  - intros q. rewrite lookup_delete_is_Some, <- H2, Hc. cbn. rewrite elem_of_cons. set_solver.
  - unfold pending in *. cbn. rewrite pending_delete by (intros Hin; apply Hp; set_solver).
    rewrite Hc in H3. cbn in H3. rewrite Hx in H3. rewrite H3. solve_Permutation.
Qed.

(** A worker calls a job's function. *)
Lemma call_inv lost (s : state) (l : log) (p : positive) (q : list positive) :
  inv lost s l -> queued s ≡ₚ p :: q ->
  exists x, heap s !! p = Some x /\
    inv lost (State (heap s) (created s) q (p :: running s)) (Log (asked l) (made l ++ [x]) (refused l)).
Proof.
  intros [H1 H2 H3 H4] Hq. destruct (proj1 (H2 p)) as [x Hx]; [rewrite Hq; set_solver|].
  assert (P : created s ++ q ++ (p :: running s) ++ lost ≡ₚ created s ++ queued s ++ running s ++ lost)
    by (rewrite Hq; solve_Permutation).
  exists x. split; [done|]. split; cbn; [by cbn in P; rewrite P|by intros z; cbn in P; rewrite P| |done].
  unfold pending in *. cbn. assert (E : created s ++ queued s ≡ₚ p :: created s ++ q) by (rewrite Hq; solve_Permutation).
  rewrite E in H3. cbn in H3. rewrite Hx in H3. rewrite H3. solve_Permutation.
Qed.

(** The function has returned. *)
Lemma end_inv lost (s : state) (l : log) (p : positive) (r : list positive) :
  inv lost s l -> running s ≡ₚ p :: r ->
  is_Some (heap s !! p) /\ inv lost (State (delete p (heap s)) (created s) (queued s) r) l.
Proof.
  intros [H1 H2 H3 H4] Hr.
  assert (P : created s ++ queued s ++ running s ++ lost ≡ₚ p :: created s ++ queued s ++ r ++ lost)
    by (rewrite Hr; solve_Permutation).
  rewrite P in H1. apply NoDup_cons in H1 as [Hp Hnd]. split; [apply H2; rewrite P; by left|]. split; cbn; [done| | |done].
  - intros q. rewrite lookup_delete_is_Some, <- H2, P, elem_of_cons. set_solver.
  - unfold pending in *. cbn. rewrite pending_delete; [done|]. intros Hin. apply Hp. set_solver.
Qed.

Lemma mt_step_inv lost x y : inv lost x.1 x.2 -> step x y -> exists lost', inv lost' y.1 y.2.
Proof.
  intros Hi Hs. destruct Hs as [s l p x err derr detach s' Hp E|s l e1 e2 p r1 r2 x s' Hc E|s l p x s' Hp E|s l p x s' Hp E
    |s l p r1 r2 x Hq E|s l p r1 r2 s' Hr E]; cbn [fst snd] in *.
  - exists lost. destruct (alloc_inv _ _ _ p x Hi Hp) as (_ & Ha & _). unfold method_thread, method_thread_parent in E.
    destruct (negb (err =? 0)); [done|].
    assert (s' = State (<[p := x]> (heap s)) (created s ++ [p]) (queued s) (running s)) as ->.
    { destruct detach; [destruct (derr =? 0); [|done]|]; by injection E as <-. }
    apply (inv_perm _ _ _ (created s ++ [p]) (queued s) (running s)) in Ha; [done|cbn; solve_Permutation|done|done].
  - exists lost. destruct (start_inv lost s l p (r1 ++ r2) Hi) as (z & Hz & Hi'); [rewrite Hc; solve_Permutation|].
    unfold yyy, fetch, free in E. cbn in E. rewrite Hz in E. cbn in E. unfold method_thread_child, verify in E.
    destruct (e1 =? 0); [|done]. destruct (e2 =? 0); [|done]. by injection E as <- <-.
  - exists lost. destruct (alloc_inv _ _ _ p x Hi Hp) as (_ & _ & Ha). injection E as <-.
    apply (inv_perm _ _ _ (created s) (queued s ++ [p]) (running s)) in Ha; [done|done|cbn; solve_Permutation|done].
  - exists (p :: lost). destruct (alloc_inv _ _ _ p x Hi Hp) as (Ha & _). by injection E as <-.
  - exists lost. destruct (call_inv lost s l p (r1 ++ r2) Hi) as (z & Hz & Hi'); [rewrite Hq; solve_Permutation|].
    unfold func_call, fetch in E. rewrite Hz in E. by injection E as <-.
  - exists lost. destruct (end_inv lost s l p (r1 ++ r2) Hi) as ([z Hz] & Hi'); [rewrite Hr; solve_Permutation|].
    unfold func_end, free in E. cbn in E. rewrite Hz in E. by injection E as <-.
Qed.

Lemma mt_reachable_inv x : reachable x -> exists lost, inv lost x.1 x.2.
Proof.
  induction 1 as [|x y _ [lost IH] Hs]; [|by eapply mt_step_inv]. exists []. split; cbn; try done; [constructor|].
  intros p. rewrite lookup_empty. split; [by intros ?%elem_of_nil|by intros []].
Qed.

Lemma inv_size lost (s : state) (l : log) :
  inv lost s l -> size (heap s) = (length (created s) + length (queued s) + length (running s) + length (refused l))%nat.
Proof.
  intros [H1 H2 _ H4]. assert (E : dom (heap s) = list_to_set (created s ++ queued s ++ running s ++ lost)).
  { apply set_eq. intros p. by rewrite elem_of_dom, elem_of_list_to_set, H2. }
  rewrite <- size_dom, E, size_list_to_set by done. rewrite !length_app. lia.
Qed.

Lemma inv_pending lost (s : state) (l : log) :
  inv lost s l -> length (pending s) = (length (created s) + length (queued s))%nat.
Proof.
  intros [_ H2 _ _]. unfold pending. rewrite <- length_app.
  assert (Hall : Forall (fun p => is_Some (heap s !! p)) (created s ++ queued s)).
  { apply Forall_forall. intros p Hp. apply H2. rewrite app_assoc. apply elem_of_app. by left. }
  induction Hall as [|p ps [x Hx] _ IH]; [done|]. cbn. rewrite Hx. cbn. by rewrite IH.
Qed.

(** C32: every call handed to a thread or accepted by a pool is made exactly
    once: those made and those still to be made are the ones handed over.
    A created thread, a queued job and a running job always find their
    wrapper allocated, and the only wrappers that are never deleted are
    those of the jobs a pool refused. *)
Theorem calls_exactly_once (s : state) (l : log) :
  reachable (s, l) ->
  asked l ≡ₚ made l ++ pending s /\ length (pending s) = (length (created s) + length (queued s))%nat /\
  (forall p, p ∈ created s -> returns (yyy 0 0 p s)) /\ (forall p, p ∈ queued s -> returns (func_call p s)) /\
  (forall p, p ∈ running s -> returns (func_end p s)) /\
  size (heap s) = (length (created s) + length (queued s) + length (running s) + length (refused l))%nat.
Proof.
  intros [lost Hi]%mt_reachable_inv. cbn [fst snd] in Hi.
  assert (Hknown : forall p, p ∈ created s ++ queued s ++ running s -> exists x, heap s !! p = Some x).
  { intros p Hp. apply (i_heap _ _ _ Hi). rewrite !app_assoc. apply elem_of_app. left. by rewrite <- app_assoc. }
  split_and!; [apply Hi|by eapply inv_pending| | | |by eapply inv_size]; intros p Hp;
    (destruct (Hknown p) as [x Hx]; [set_solver|]); unfold yyy, func_call, func_end, fetch, free, returns; rewrite Hx; cbn; eauto.
Qed.

End calls.

(** A thread has been started, a job is queued behind a refused one. *)
Lemma handed_over :
  exists s l, reachable (s, l) /\ asked l = [7; 9] /\ made l = [7] /\ refused l = [8] /\ pending s = [9].
Proof.
  pose proof (reach_init (X := Z)) as H.
  eapply reach_step in H; [|eapply (s_thread _ _ 1 7 0 0 true); reflexivity].
  eapply reach_step in H; [|eapply (s_refuse _ _ 2 8); reflexivity].
  eapply reach_step in H; [|eapply (s_add _ _ 3 9); reflexivity].
  eapply reach_step in H; [|eapply (s_start _ _ 0 0 1 [] []); reflexivity].
  eexists _, _. split; [exact H|]. repeat split.
Qed.

Lemma calls_exactly_once_witness :
  exists (s : state (X := Z)) l, reachable (s, l) /\ pending s = [9] /\ size (heap s) = (length (created s) + length (queued s) + length (running s) + 1)%nat.
Proof.
  destruct handed_over as (s & l & H & _ & _ & Hr & Hp). exists s, l. split; [exact H|]. split; [exact Hp|].
  destruct (calls_exactly_once s l H) as (_ & _ & _ & _ & _ & Hs). rewrite Hs, Hr. reflexivity.
Defined.

End method_thread.
