(* ===== verification/PollMgr.v ===== *)
(** * The poll manager (rpc/pollmgr.cc, rpc/pollmgr.h)

    aio_mgr is an interface with two implementations, SelectAIO and
    EPollAIO; PollMgr keeps one callback per descriptor and a thread that
    waits for ready descriptors and calls them. *)

From Stdlib Require Import ZArith Lia.
From stdpp Require Import base list gmap sets.
From S2P Require Import Prelude.

#[local] Open Scope Z_scope.
#[local] Set Warnings "-clear-no-such-hyp".

Definition MAX_POLL_FDS : Z := 128.

Inductive poll_flag := CB_NONE | CB_RDONLY | CB_WRONLY | CB_RDWR | CB_MASK.
#[export] Instance poll_flag_eq_dec : EqDecision poll_flag.
Proof. solve_decision. Defined.

Definition flag_int (f : poll_flag) : Z :=
  match f with CB_NONE => 0 | CB_RDONLY => 0x1 | CB_WRONLY => 0x10 | CB_RDWR => 0x11 | CB_MASK => Z.lnot 0x11 end.

(** The abstract class aio_mgr: the registry part of it. *)
Class AioMgr (M : Type) := {
  watch_fd : Z -> poll_flag -> M -> res M;
  unwatch_fd : Z -> poll_flag -> M -> res (bool * M);
  is_watched : Z -> poll_flag -> M -> res bool
}.

(** ** SelectAIO *)

Record SelectAIO := mkSelectAIO {
  rfds_ : gset Z;
  wfds_ : gset Z;
  highfds_ : Z;
  pipe_rd : Z;     (* pipefd_[0] *)
  pipe_bytes : Z   (* written to pipefd_[1] and not yet read *)
}.

Module select_aio.

(** The constructor, [p] the descriptor pipe() returned. *)
Definition SelectAIO_new (p : Z) : SelectAIO := mkSelectAIO {[ p ]} ∅ p p 0.

(** FD_SET, FD_CLR and FD_ISSET index an array of FD_SETSIZE bits. *)
Definition in_fd_set (fd : Z) : bool := (0 <=? fd) && (fd <? 1024).

Definition watch_fd (fd : Z) (flag : poll_flag) (s : SelectAIO) : res SelectAIO :=
  let high := if highfds_ s <=? fd then fd else highfds_ s in
  if negb (in_fd_set fd) then Crash Undefined
  else
    let '(r, w) :=
      match flag with
      | CB_RDONLY => ({[ fd ]} ∪ rfds_ s, wfds_ s)
      | CB_WRONLY => (rfds_ s, {[ fd ]} ∪ wfds_ s)
      | _ => ({[ fd ]} ∪ rfds_ s, {[ fd ]} ∪ wfds_ s)
      end in
    Ret (mkSelectAIO r w high (pipe_rd s) (pipe_bytes s + 1)).

Definition is_watched (fd : Z) (flag : poll_flag) (s : SelectAIO) : res bool :=
  if negb (in_fd_set fd) then Crash Undefined
  else Ret (match flag with
            | CB_RDONLY => bool_decide (fd ∈ rfds_ s)
            | CB_WRONLY => bool_decide (fd ∈ wfds_ s)
            | _ => bool_decide (fd ∈ rfds_ s) && bool_decide (fd ∈ wfds_ s)
            end).

(** [for (i = 0; i <= highfds_; i++)]: the last watched descriptor. *)
Definition rescan (r w : gset Z) (high newh : Z) : Z :=
  fold_left (fun h i => if bool_decide (i ∈ r) then i else if bool_decide (i ∈ w) then i else h)
    (seqZ 0 (high + 1)) newh.

Definition unwatch_fd (fd : Z) (flag : poll_flag) (s : SelectAIO) : res (bool * SelectAIO) :=
  if negb (in_fd_set fd) then Crash Undefined
  else
    '(r, w) ←
      match flag with
      | CB_RDONLY => Ret (rfds_ s ∖ {[ fd ]}, wfds_ s)
      | CB_WRONLY => Ret (rfds_ s, wfds_ s ∖ {[ fd ]})
      | CB_RDWR => Ret (rfds_ s ∖ {[ fd ]}, wfds_ s ∖ {[ fd ]})
      | _ => Crash AssertFailed
      end;
    let clear := bool_decide (fd ∉ r) && bool_decide (fd ∉ w) in
    let high := if clear && (fd =? highfds_ s) then rescan r w (highfds_ s) (pipe_rd s) else highfds_ s in
    let bytes := if decide (flag = CB_RDWR) then pipe_bytes s + 1 else pipe_bytes s in
    Ret (clear, mkSelectAIO r w high (pipe_rd s) bytes).

(** wait_ready after select: [tr] and [tw] are the sets it left.  The
    result lists readable and writable descriptors; a byte is taken from
    the pipe when the pipe is ready. *)
Definition collect (tr tw : gset Z) (high pipe : Z) : list Z * list Z :=
  fold_left (fun rw fd =>
    if (fd =? pipe) && bool_decide (fd ∈ tr) then rw
    else (if bool_decide (fd ∈ tr) then rw.1 ++ [fd] else rw.1,
          if bool_decide (fd ∈ tw) then rw.2 ++ [fd] else rw.2))
    (seqZ 0 (high + 1)) ([], []).

(** select on the sets [r] and [w] up to [high]: those ready, when there
    is one; [rr] and [wr] tell which descriptors are. *)
Definition select (r w : gset Z) (high : Z) (rr wr : Z -> bool) : option (gset Z * gset Z) :=
  let tr := filter (fun fd => fd <= high /\ rr fd = true) r in
  let tw := filter (fun fd => fd <= high /\ wr fd = true) w in
  if decide (tr = ∅ /\ tw = ∅) then None else Some (tr, tw).

(** The pipe is readable when it holds a byte. *)
Definition readable_now (s : SelectAIO) (rr : Z -> bool) (fd : Z) : bool :=
  if fd =? pipe_rd s then 0 <? pipe_bytes s else rr fd.

(** wait_ready: [None] while select blocks. *)
Definition wait_ready (rr wr : Z -> bool) (s : SelectAIO) : option (list Z * list Z * SelectAIO) :=
  '(tr, tw) ← select (rfds_ s) (wfds_ s) (highfds_ s) (readable_now s rr) wr;
  let '(readable, writable) := collect tr tw (highfds_ s) (pipe_rd s) in
  let bytes := if bool_decide (pipe_rd s ∈ tr) then pipe_bytes s - 1 else pipe_bytes s in
  Some (readable, writable, mkSelectAIO (rfds_ s) (wfds_ s) (highfds_ s) (pipe_rd s) bytes).

End select_aio.

#[export] Instance select_mgr : AioMgr SelectAIO :=
  {| watch_fd := select_aio.watch_fd; unwatch_fd := select_aio.unwatch_fd; is_watched := select_aio.is_watched |}.

(** ** EPollAIO *)

(** [fdstatus_] and the kernel's interest list behind [pollfd_]. *)
Record EPollAIO := mkEPollAIO { fdstatus_ : gmap Z Z; interest : gmap Z Z }.

Module epoll_aio.

Definition EPOLLIN : Z := 0x1.
Definition EPOLLOUT : Z := 0x4.
Definition EPOLLET : Z := 2 ^ 31.

Definition EPollAIO_new : EPollAIO := mkEPollAIO ∅ ∅.

Definition status (fd : Z) (s : EPollAIO) : Z := default 0 (fdstatus_ s !! fd).

Definition poll_flag_to_event (flag : poll_flag) : Z :=
  match flag with CB_RDONLY => EPOLLIN | CB_WRONLY => EPOLLOUT | _ => Z.lor EPOLLIN EPOLLOUT end.

(** ev.events for a status. *)
Definition events (st : Z) : Z :=
  let e := EPOLLET in
  let e := if negb (Z.land st (flag_int CB_RDONLY) =? 0) then Z.lor e EPOLLIN else e in
  if negb (Z.land st (flag_int CB_WRONLY) =? 0) then Z.lor e EPOLLOUT else e.

Inductive epoll_op := EPOLL_CTL_ADD | EPOLL_CTL_MOD | EPOLL_CTL_DEL.
#[export] Instance epoll_op_eq_dec : EqDecision epoll_op.
Proof. solve_decision. Defined.

(** epoll_ctl: [None] is an error; ADD of a present and MOD or DEL of an
    absent descriptor fail. *)
Definition epoll_ctl (op : epoll_op) (fd ev : Z) (l : gmap Z Z) : option (gmap Z Z) :=
  match op, l !! fd with
  | EPOLL_CTL_ADD, None => Some (<[fd := ev]> l)
  | EPOLL_CTL_MOD, Some _ => Some (<[fd := ev]> l)
  | EPOLL_CTL_DEL, Some _ => Some (delete fd l)
  | _, _ => None
  end.

(** [VERIFY(epoll_ctl(...) == 0)]. *)
Definition ctl (op : epoll_op) (fd st : Z) (s : EPollAIO) : res EPollAIO :=
  match epoll_ctl op fd (events st) (interest s) with
  | None => Crash AssertFailed
  | Some l => Ret (mkEPollAIO (<[fd := st]> (fdstatus_ s)) l)
  end.

(** [fdstatus_[fd]] with fd outside the array is undefined. *)
Definition in_array (fd : Z) : bool := 0 <=? fd.

Definition watch_fd (fd : Z) (flag : poll_flag) (s : EPollAIO) : res EPollAIO :=
  verify (fd <? MAX_POLL_FDS) (
  if negb (in_array fd) then Crash Undefined else
  let op := if negb (status fd s =? 0) then EPOLL_CTL_MOD else EPOLL_CTL_ADD in
  let st := Z.lor (status fd s) (flag_int flag) in
  verify (negb (bool_decide (flag = CB_RDWR)) || (events st =? Z.lor EPOLLET (Z.lor EPOLLIN EPOLLOUT))) (
  ctl op fd st s)).

Definition unwatch_fd (fd : Z) (flag : poll_flag) (s : EPollAIO) : res (bool * EPollAIO) :=
  verify (fd <? MAX_POLL_FDS) (
  if negb (in_array fd) then Crash Undefined else
  let st := Z.land (status fd s) (Z.lnot (flag_int flag)) in
  let op := if negb (st =? 0) then EPOLL_CTL_MOD else EPOLL_CTL_DEL in
  verify (negb (bool_decide (flag = CB_RDWR)) || bool_decide (op = EPOLL_CTL_DEL)) (
  s ← ctl op fd st s;
  Ret (bool_decide (op = EPOLL_CTL_DEL), s))).

Definition is_watched (fd : Z) (flag : poll_flag) (s : EPollAIO) : res bool :=
  verify (fd <? MAX_POLL_FDS) (
  if negb (in_array fd) then Crash Undefined
  else Ret (Z.land (status fd s) (flag_int CB_MASK) =? flag_int flag)).

(** wait_ready, from the events epoll_wait reported. *)
Definition wait_ready (ready : list (Z * Z)) : list Z * list Z :=
  (omap (fun '(fd, ev) => if negb (Z.land ev EPOLLIN =? 0) then Some fd else None) ready,
   omap (fun '(fd, ev) => if negb (Z.land ev EPOLLOUT =? 0) then Some fd else None) ready).

End epoll_aio.

#[export] Instance epoll_mgr : AioMgr EPollAIO :=
  {| watch_fd := epoll_aio.watch_fd; unwatch_fd := epoll_aio.unwatch_fd; is_watched := epoll_aio.is_watched |}.

(** ** SelectAIO reports exactly what is ready *)

Section select_facts.
Import select_aio.
Implicit Types (s : SelectAIO) (r w tr tw : gset Z).

(** Everything watched lies between 0 and [highfds_], which is watched; the
    pipe is watched for reading. *)
Record select_ok (p : Z) s : Prop := SelectOk {
  so_pipe : pipe_rd s = p;
  so_in : p ∈ rfds_ s;
  so_out : p ∉ wfds_ s;
  so_low : forall fd, fd ∈ rfds_ s ∪ wfds_ s -> 0 <= fd;
  so_high : forall fd, fd ∈ rfds_ s ∪ wfds_ s -> fd <= highfds_ s;
  so_top : highfds_ s ∈ rfds_ s ∪ wfds_ s;
  so_bytes : 0 <= pipe_bytes s
}.

Lemma rescan_spec (r w : gset Z) (n : nat) newh :
  let h := fold_left (fun h i => if bool_decide (i ∈ r) then i else if bool_decide (i ∈ w) then i else h)
    (seqZ 0 (Z.of_nat n)) newh in
  (h = newh \/ h ∈ r ∪ w) /\ forall fd, fd ∈ r ∪ w -> 0 <= fd < Z.of_nat n -> fd <= h /\ h ∈ r ∪ w.
Proof.
  induction n as [|n IH]; cbn zeta in *.
  { split; [by left|]. intros fd _ ?. lia. }
  rewrite seqZ_S, fold_left_app, Z.add_0_l. cbn [fold_left].
  set (h := fold_left _ _ _) in *. destruct IH as [IH1 IH2].
  destruct (decide (Z.of_nat n ∈ r)) as [Hr|Hr]; [rewrite bool_decide_true by done|rewrite bool_decide_false by done].
  { split; [right; set_solver|]. intros fd _ ?. split; [lia|set_solver]. }
  destruct (decide (Z.of_nat n ∈ w)) as [Hw|Hw]; [rewrite bool_decide_true by done|rewrite bool_decide_false by done].
  { split; [right; set_solver|]. intros fd _ ?. split; [lia|set_solver]. }
  split; [done|]. intros fd Hfd ?. destruct (decide (fd = Z.of_nat n)) as [->|]; [set_solver|]. apply IH2; [done|lia].
Qed.

Lemma rescan_high r w high p :
  p ∈ r -> 0 <= p <= high -> (forall fd, fd ∈ r ∪ w -> 0 <= fd <= high) ->
  rescan r w high p ∈ r ∪ w /\ forall fd, fd ∈ r ∪ w -> fd <= rescan r w high p.
Proof.
  intros Hp Hpr Hall. unfold rescan. replace (high + 1) with (Z.of_nat (Z.to_nat (high + 1))) by lia.
  destruct (rescan_spec r w (Z.to_nat (high + 1)) p) as [_ H]. cbn zeta in H.
  split; [apply (H p); [set_solver|lia]|]. intros fd Hfd. apply H; [done|]. specialize (Hall _ Hfd). lia.
Qed.

Lemma in_fd_set_spec fd : in_fd_set fd = true -> 0 <= fd < 1024.
Proof. unfold in_fd_set. intros [H1%Z.leb_le H2%Z.ltb_lt]%andb_prop. lia. Qed.

Lemma select_ok_grow p s fd r w :
  select_ok p s -> 0 <= fd -> p ∈ r -> p ∉ w ->
  (forall k, k ∈ r ∪ w <-> k = fd \/ k ∈ rfds_ s ∪ wfds_ s) ->
  select_ok p (mkSelectAIO r w (if highfds_ s <=? fd then fd else highfds_ s) (pipe_rd s) (pipe_bytes s + 1)).
Proof.
  intros [Hp Hi Ho Hl Hh Ht Hb] H0 Hpr Hpw Hk. split; cbn; try done; try lia.
  - intros k [->|Hk']%Hk; [done|]. by apply Hl.
  - intros k [->|Hk']%Hk; [bcase; lia|]. specialize (Hh k Hk'). bcase; lia.
  - apply Hk. bcase. by right.
Qed.

Lemma watch_ok p fd flag s s' :
  select_ok p s -> fd <> p -> watch_fd fd flag s = Ret s' -> select_ok p s'.
Proof.
  intros Hs Hne E. unfold watch_fd in E. destruct (in_fd_set fd) eqn:Ef; [|done].
  apply in_fd_set_spec in Ef. cbn [negb] in E. pose proof (so_in _ _ Hs). pose proof (so_out _ _ Hs).
  destruct flag; injection E as <-; (apply select_ok_grow; [done|lia|set_solver|set_solver|]);
    intros k; rewrite !elem_of_union, elem_of_singleton; tauto.
Qed.

Lemma select_ok_shrink p s fd r w b :
  select_ok p s -> fd <> p -> p ∈ r -> p ∉ w -> 0 <= b ->
  (forall k, k ∈ r ∪ w -> k ∈ rfds_ s ∪ wfds_ s) ->
  (forall k, k ∈ rfds_ s ∪ wfds_ s -> k <> fd -> k ∈ r ∪ w) ->
  let clear := bool_decide (fd ∉ r) && bool_decide (fd ∉ w) in
  select_ok p (mkSelectAIO r w
    (if clear && (fd =? highfds_ s) then rescan r w (highfds_ s) (pipe_rd s) else highfds_ s) (pipe_rd s) b).
Proof.
  intros [Hp Hi Ho Hl Hh Ht Hb] Hne Hpr Hpw H0 Hsub Hrest clear.
  assert (Hre : rescan r w (highfds_ s) p ∈ r ∪ w /\ forall fd, fd ∈ r ∪ w -> fd <= rescan r w (highfds_ s) p).
  { apply rescan_high; [done| |].
    - split; [apply Hl|apply Hh]; by apply elem_of_union_l.
    - intros k Hk. split; [apply Hl|apply Hh]; by apply Hsub. }
  destruct Hre as [Hre1 Hre2].
  split; cbn; try done; rewrite ?Hp.
  - intros k Hk. by apply Hl, Hsub.
  - intros k Hk. destruct (clear && _); [by apply Hre2|]. by apply Hh, Hsub.
  - destruct (clear && _) eqn:Ec; [done|].
    destruct (decide (highfds_ s = fd)) as [He|He]; [|by apply Hrest].
    apply andb_false_iff in Ec as [Ec|Ec]; [|apply Z.eqb_neq in Ec; lia]. unfold clear in Ec.
    rewrite He. apply elem_of_union. apply andb_false_iff in Ec as [Ec|Ec]; apply bool_decide_eq_false in Ec;
      [left|right]; by apply dec_stable.
Qed.

Lemma unwatch_ok p fd flag s b s' :
  select_ok p s -> fd <> p -> unwatch_fd fd flag s = Ret (b, s') -> select_ok p s'.
Proof.
  intros Hs Hne E. unfold unwatch_fd in E. destruct (in_fd_set fd) eqn:Ef; [|done].
  cbn [negb] in E. pose proof (so_in _ _ Hs). pose proof (so_out _ _ Hs). pose proof (so_bytes _ _ Hs).
  destruct flag; try done; injection E as _ <-;
    (apply select_ok_shrink; [done|done|set_solver|set_solver|cbn; lia|set_solver|]);
    intros k; rewrite !elem_of_union, ?elem_of_difference, ?elem_of_singleton; tauto.
Qed.

Lemma collect_fold tr tw pipe l a b :
  fold_left (fun rw fd =>
    if (fd =? pipe) && bool_decide (fd ∈ tr) then rw
    else (if bool_decide (fd ∈ tr) then rw.1 ++ [fd] else rw.1,
          if bool_decide (fd ∈ tw) then rw.2 ++ [fd] else rw.2)) l (a, b) =
  (a ++ filter (fun fd => fd ∈ tr /\ fd <> pipe) l, b ++ filter (fun fd => fd ∈ tw /\ ~ (fd = pipe /\ fd ∈ tr)) l).
Proof.
  revert a b. induction l as [|x l IH]; intros a b; [cbn; by rewrite !app_nil_r|]. cbn [fold_left]. rewrite !filter_cons.
  repeat case_bool_decide; repeat case_decide; destruct (Z.eqb_spec x pipe); cbn; try tauto;
    rewrite IH, <- ?app_assoc; done.
Qed.

Lemma collect_spec tr tw high pipe :
  collect tr tw high pipe =
    (filter (fun fd => fd ∈ tr /\ fd <> pipe) (seqZ 0 (high + 1)),
     filter (fun fd => fd ∈ tw /\ ~ (fd = pipe /\ fd ∈ tr)) (seqZ 0 (high + 1))).
Proof. apply collect_fold. Qed.

Lemma select_wait_ok (p : Z) s (rr wr : Z -> bool) :
  select_ok p s ->
  match wait_ready rr wr s with
  | None => pipe_bytes s = 0 /\ (forall fd, fd ∈ rfds_ s -> fd <> p -> rr fd = false) /\
      (forall fd, fd ∈ wfds_ s -> wr fd = false)
  | Some (readable, writable, s') =>
      NoDup readable /\ NoDup writable /\
      (forall fd, fd ∈ readable <-> fd ∈ rfds_ s /\ fd <> p /\ rr fd = true) /\
      (forall fd, fd ∈ writable <-> fd ∈ wfds_ s /\ wr fd = true) /\
      select_ok p s' /\ (0 < pipe_bytes s -> pipe_bytes s' = pipe_bytes s - 1)
  end.
Proof.
  intros Hs. pose proof Hs as [Hp Hi Ho Hl Hh Ht Hb]. unfold wait_ready, select.
  assert (Hr : forall fd, readable_now s rr fd = true <-> if decide (fd = p) then 0 < pipe_bytes s else rr fd = true).
  { intros fd. unfold readable_now. rewrite Hp. destruct (Z.eqb_spec fd p), (decide (fd = p)); try done. by rewrite Z.ltb_lt. }
  set (tr := filter (fun fd => fd <= highfds_ s /\ readable_now s rr fd = true) (rfds_ s)).
  set (tw := filter (fun fd => fd <= highfds_ s /\ wr fd = true) (wfds_ s)).
  assert (Htr : forall fd, fd ∈ tr <-> fd ∈ rfds_ s /\ if decide (fd = p) then 0 < pipe_bytes s else rr fd = true).
  { intros fd. unfold tr. rewrite elem_of_filter, Hr. specialize (Hh fd). set_solver. }
  assert (Htw : forall fd, fd ∈ tw <-> fd ∈ wfds_ s /\ wr fd = true).
  { intros fd. unfold tw. rewrite elem_of_filter. specialize (Hh fd). set_solver. }
  clearbody tr tw. case_decide as Hnone.
  - cbn. destruct Hnone as [-> ->]. split; [|split].
    + destruct (Z.lt_ge_cases 0 (pipe_bytes s)); [|lia]. exfalso. apply (not_elem_of_empty (C := gset Z) p), Htr.
      by rewrite decide_True.
    + intros fd Hfd Hne. apply not_true_iff_false. intros Hrr. apply (not_elem_of_empty (C := gset Z) fd), Htr.
      by rewrite decide_False.
    + intros fd Hfd. apply not_true_iff_false. intros Hw. by apply (not_elem_of_empty (C := gset Z) fd), Htw.
  - cbn [mbind option_bind]. rewrite collect_spec.
    assert (Hseq : forall fd, fd ∈ rfds_ s ∪ wfds_ s -> fd ∈ seqZ 0 (highfds_ s + 1)).
    { intros fd Hfd. apply elem_of_seqZ. specialize (Hl fd Hfd). specialize (Hh fd Hfd). lia. }
    split; [apply NoDup_filter, NoDup_seqZ|]. split; [apply NoDup_filter, NoDup_seqZ|].
    split; [|split; [|split]].
    + intros fd. rewrite list_elem_of_filter, Htr, Hp. specialize (Hseq fd).
      destruct (decide (fd = p)); set_solver.
    + intros fd. rewrite list_elem_of_filter, Htw, Hp. specialize (Hseq fd).
      destruct (decide (fd = p)) as [->|]; set_solver.
    + split; cbn; try done. case_bool_decide as Hin; [|done]. rewrite Hp in Hin. apply Htr in Hin as [_ Hin].
      rewrite decide_True in Hin by done. lia.
    + intros H0. cbn. rewrite bool_decide_true; [done|]. rewrite Hp. apply Htr. by rewrite decide_True.
Qed.

End select_facts.

(** ** The two pollers *)

Inductive aio_op := Watch (fd : Z) (flag : poll_flag) | Unwatch (fd : Z) (flag : poll_flag).

(** A sequence of calls on any aio_mgr, with what unwatch_fd returned. *)
Fixpoint aio_run `{AioMgr M} (ops : list aio_op) (s : M) : res (list bool * M) :=
  match ops with
  | [] => Ret ([], s)
  | Watch fd flag :: ops => s ← watch_fd fd flag s; aio_run ops s
  | Unwatch fd flag :: ops =>
      '(b, s) ← unwatch_fd fd flag s;
      '(out, s) ← aio_run ops s;
      Ret (b :: out, s)
  end.

Definition op_fd (o : aio_op) : Z := match o with Watch fd _ | Unwatch fd _ => fd end.
Definition op_flag (o : aio_op) : poll_flag := match o with Watch _ f | Unwatch _ f => f end.

Definition real_flag (f : poll_flag) : Prop := f = CB_RDONLY \/ f = CB_WRONLY \/ f = CB_RDWR.

Lemma select_run_ok p ops s out s' :
  select_ok p s -> Forall (fun o => op_fd o <> p) ops -> aio_run ops s = Ret (out, s') -> select_ok p s'.
Proof.
  intros Hs Hf. revert s out Hs. induction Hf as [|o ops Ho _ IH]; intros s out Hs E; [by injection E as <- <-|].
  destruct o as [fd flag|fd flag]; cbn in E; rinv E.
  - eapply IH; [|exact E]. by eapply watch_ok.
  - destruct a as [b s1]. rinv E. destruct a as [o2 s2]. injection E as <- <-.
    eapply IH; [|exact E1]. by eapply unwatch_ok.
Qed.

Lemma select_new_ok p : 0 <= p -> select_ok p (select_aio.SelectAIO_new p).
Proof. intros. split; cbn; try done; set_solver by lia. Qed.

(** The select-based poller is exact, after any sequence of watch and
    unwatch calls: wait_ready returns as soon as something watched is ready
    or a change is pending, and then lists exactly the watched descriptors
    that are ready for reading and for writing, each once. *)
Theorem select_wait_exact (p : Z) (ops : list aio_op) (out : list bool) (s : SelectAIO) (rr wr : Z -> bool) :
  0 <= p -> Forall (fun o => op_fd o <> p) ops ->
  aio_run ops (select_aio.SelectAIO_new p) = Ret (out, s) ->
  match select_aio.wait_ready rr wr s with
  | None => pipe_bytes s = 0 /\ (forall fd, fd ∈ rfds_ s -> fd <> p -> rr fd = false) /\
      (forall fd, fd ∈ wfds_ s -> wr fd = false)
  | Some (readable, writable, s') =>
      NoDup readable /\ NoDup writable /\
      (forall fd, fd ∈ readable <-> fd ∈ rfds_ s /\ fd <> p /\ rr fd = true) /\
      (forall fd, fd ∈ writable <-> fd ∈ wfds_ s /\ wr fd = true) /\
      select_ok p s' /\ (0 < pipe_bytes s -> pipe_bytes s' = pipe_bytes s - 1)
  end.
Proof.
  intros Hp Hf E. apply select_wait_ok. eapply select_run_ok; [by apply select_new_ok|done|exact E].
Qed.

Definition demo_ops : list aio_op := [Watch 7 CB_RDONLY; Watch 9 CB_RDWR; Unwatch 9 CB_RDONLY].
Definition demo_select : SelectAIO := mkSelectAIO {[ 7; 3 ]} {[ 9 ]} 9 3 2.

Lemma select_wait_exact_witness :
  match select_aio.wait_ready (fun fd => fd =? 7) (fun fd => fd =? 9) demo_select with
  | None => False
  | Some (readable, writable, _) => 7 ∈ readable /\ 9 ∈ writable /\ NoDup readable
  end.
Proof.
  pose proof (select_wait_exact 3 demo_ops [false] demo_select (fun fd => fd =? 7) (fun fd => fd =? 9) ltac:(lia)
    ltac:(repeat (constructor; [done|]); constructor) ltac:(vm_compute; reflexivity)) as H.
  destruct (select_aio.wait_ready _ _ demo_select) as [[[r w] s']|].
  - destruct H as (Hn & _ & Hr & Hw & _). split; [apply Hr; set_solver|]. split; [apply Hw; set_solver|done].
  - destruct H as [H _]. discriminate H.
Defined.

(** The statuses fdstatus_ can hold, by the sets a descriptor is in. *)
Definition status_bits (r w : bool) : Z := (if r then 0x1 else 0) + (if w then 0x10 else 0).

(** The events of epoll_event, as the kernel numbers them: bit 0 is
    EPOLLIN, bit 2 EPOLLOUT, bit 31 EPOLLET. *)
Definition kernel_mask (r w : bool) : Z := 2 ^ 31 + (if r then 2 ^ 0 else 0) + (if w then 2 ^ 2 else 0).

(** The two pollers watch the same descriptors; the kernel's list has
    exactly those with a status, each for reading when select has it in its
    read set and for writing when it is in the write set. *)
Record agree (p : Z) (e : EPollAIO) (s : SelectAIO) : Prop := Agree {
  ag_status : forall fd, fd <> p -> epoll_aio.status fd e =
    status_bits (bool_decide (fd ∈ rfds_ s)) (bool_decide (fd ∈ wfds_ s));
  ag_kernel : forall fd, is_Some (interest e !! fd) <-> epoll_aio.status fd e <> 0;
  ag_mask : forall fd mask, fd <> p -> interest e !! fd = Some mask ->
    mask = kernel_mask (bool_decide (fd ∈ rfds_ s)) (bool_decide (fd ∈ wfds_ s))
}.

Lemma lor_bits r w f : real_flag f ->
  Z.lor (status_bits r w) (flag_int f) =
    status_bits (r || negb (bool_decide (f = CB_WRONLY))) (w || negb (bool_decide (f = CB_RDONLY))).
Proof. intros [->|[->| ->]]; by destruct r, w. Qed.

Lemma andnot_bits r w f : real_flag f ->
  Z.land (status_bits r w) (Z.lnot (flag_int f)) =
    status_bits (r && bool_decide (f = CB_WRONLY)) (w && bool_decide (f = CB_RDONLY)).
Proof. intros [->|[->| ->]]; by destruct r, w. Qed.

Lemma status_insert fd fd' st l e :
  epoll_aio.status fd' (mkEPollAIO (<[fd := st]> (fdstatus_ e)) l) =
    if decide (fd = fd') then st else epoll_aio.status fd' e.
Proof.
  unfold epoll_aio.status. cbn. case_decide; subst; [by rewrite lookup_insert_eq|by rewrite lookup_insert_ne].
Qed.

(** A successful epoll_ctl with the operation the code chooses keeps the
    kernel's list in step with the new status. *)
Lemma ctl_agree (op : epoll_aio.epoll_op) fd st e e' :
  (forall k, is_Some (interest e !! k) <-> epoll_aio.status k e <> 0) ->
  (op = epoll_aio.EPOLL_CTL_DEL <-> st = 0) ->
  epoll_aio.ctl op fd st e = Ret e' ->
  (forall k, is_Some (interest e' !! k) <-> epoll_aio.status k e' <> 0) /\
  (forall k, epoll_aio.status k e' = if decide (fd = k) then st else epoll_aio.status k e) /\
  (forall k mask, interest e' !! k = Some mask ->
     if decide (fd = k) then mask = epoll_aio.events st else interest e !! k = Some mask).
Proof.
  intros Hk Hop E. unfold epoll_aio.ctl in E.
  destruct (epoll_aio.epoll_ctl _ _ _ _) as [l|] eqn:El; [|done]. injection E as <-.
  assert (Hl : forall k, k <> fd -> l !! k = interest e !! k).
  { intros k' Hne. unfold epoll_aio.epoll_ctl in El. destruct op, (interest e !! fd); simplify_eq;
      by rewrite ?lookup_insert_ne, ?lookup_delete_ne. }
  split; [|split; [intros k; apply status_insert|]].
  2: { intros k mask. cbn [interest]. case_decide as Hd; [subst k|by rewrite Hl].
       unfold epoll_aio.epoll_ctl in El. destruct op, (interest e !! fd); simplify_eq;
         rewrite ?lookup_insert_eq, ?lookup_delete_eq; [by intros [= <-]..|done]. }
  intros k. rewrite status_insert. cbn [interest].
  case_decide as Hd; [subst k|by rewrite Hl by done].
  unfold epoll_aio.epoll_ctl in El. destruct op, (interest e !! fd); simplify_eq;
    rewrite ?lookup_insert_eq, ?lookup_delete_eq.
  - split; [|by eauto]. intros _ H0. by apply Hop in H0.
  - split; [|by eauto]. intros _ H0. by apply Hop in H0.
  - split; [by intros [? ?]|]. intros H0. by destruct H0; apply Hop.
Qed.

Lemma status_bits_zero r w : status_bits r w = 0 <-> r = false /\ w = false.
Proof. destruct r, w; cbn; split; try done; by intros []. Qed.

Lemma events_mask r w : epoll_aio.events (status_bits r w) = kernel_mask r w.
Proof. by destruct r, w. Qed.

Lemma epoll_fd fd {A} (k : res A) a :
  verify (fd <? MAX_POLL_FDS) (if negb (epoll_aio.in_array fd) then Crash Undefined else k) = Ret a ->
  k = Ret a /\ select_aio.in_fd_set fd = true.
Proof.
  unfold verify, epoll_aio.in_array, select_aio.in_fd_set, MAX_POLL_FDS.
  destruct (Z.ltb_spec fd 128), (Z.leb_spec 0 fd), (Z.ltb_spec fd 1024); cbn; try done; lia.
Qed.

(** Sets changed at one descriptor only, to the given membership. *)
Lemma agree_update p e s e' s' fd r w :
  agree p e s ->
  (forall k, is_Some (interest e' !! k) <-> epoll_aio.status k e' <> 0) ->
  (forall k, epoll_aio.status k e' = if decide (fd = k) then status_bits r w else epoll_aio.status k e) ->
  (forall k mask, interest e' !! k = Some mask ->
     if decide (fd = k) then mask = epoll_aio.events (status_bits r w) else interest e !! k = Some mask) ->
  bool_decide (fd ∈ rfds_ s') = r -> bool_decide (fd ∈ wfds_ s') = w ->
  (forall k, k <> fd -> (k ∈ rfds_ s' <-> k ∈ rfds_ s) /\ (k ∈ wfds_ s' <-> k ∈ wfds_ s)) ->
  agree p e' s'.
Proof.
  intros [Hst _ Hm] Hk Hs Hm' <- <- Hrest. split; [|done|].
  - intros k Hkp. rewrite Hs. destruct (decide (fd = k)) as [<-|Hd]; [done|].
    rewrite Hst by done. destruct (Hrest k) as [H1 H2]; [done|]. f_equal; by apply bool_decide_ext.
  - intros k mask Hkp Hk'. apply Hm' in Hk'. destruct (decide (fd = k)) as [<-|Hd]; [by rewrite <- events_mask|].
    rewrite (Hm k mask) by done. destruct (Hrest k) as [H1 H2]; [done|]. f_equal; by apply bool_decide_ext.
Qed.

#[local] Ltac member :=
  rewrite ?orb_true_r, ?orb_false_r, ?andb_true_r, ?andb_false_r;
  first [done|apply bool_decide_true; set_solver|apply bool_decide_false; set_solver].

Lemma watch_agree p e s fd flag e' :
  agree p e s -> fd <> p -> real_flag flag -> epoll_aio.watch_fd fd flag e = Ret e' ->
  exists s', select_aio.watch_fd fd flag s = Ret s' /\ agree p e' s'.
Proof.
  intros Ha Hne Hf E. apply epoll_fd in E as [E Hfd]. unfold select_aio.watch_fd. rewrite Hfd. cbn [negb].
  pose proof (ag_status _ _ _ Ha fd Hne) as Hst. unfold verify in E. destruct (_ || _); [|done].
  rewrite Hst, lor_bits in E by done.
  apply ctl_agree in E as (Hk & Hs & Hm).
  - destruct Hf as [->|[->| ->]]; (eexists; split; [reflexivity|]);
      (eapply agree_update; [exact Ha|exact Hk|exact Hs|exact Hm|..]); cbn;
      first [member|set_solver].
  - intros k. apply (ag_kernel _ _ _ Ha).
  - split; [by destruct (negb _)|]. intros H0%status_bits_zero.
    destruct Hf as [->|[->| ->]]; cbn in H0; rewrite ?orb_true_r in H0; by destruct H0.
Qed.

Lemma unwatch_agree p e s fd flag b e' :
  agree p e s -> fd <> p -> real_flag flag -> epoll_aio.unwatch_fd fd flag e = Ret (b, e') ->
  exists s', select_aio.unwatch_fd fd flag s = Ret (b, s') /\ agree p e' s'.
Proof.
  intros Ha Hne Hf E. apply epoll_fd in E as [E Hfd]. unfold select_aio.unwatch_fd. rewrite Hfd. cbn [negb].
  pose proof (ag_status _ _ _ Ha fd Hne) as Hst. unfold verify in E. destruct (_ || _); [|done].
  rewrite Hst, andnot_bits in E by done. rinv E. injection E as <- <-.
  apply ctl_agree in E0 as (Hk & Hs & Hm).
  - destruct Hf as [->|[->| ->]]; eexists;
      (split; [cbn; f_equal; f_equal|eapply agree_update; [exact Ha|exact Hk|exact Hs|exact Hm|..]; cbn; first [member|set_solver]]).
    all: repeat case_bool_decide; cbn in *; try done; exfalso; set_solver.
  - intros k. apply (ag_kernel _ _ _ Ha).
  - rewrite <- (Z.eqb_eq (status_bits _ _) 0). destruct (status_bits _ _ =? 0); done.
Qed.

(** C33: the two pollers are interchangeable: any sequence of watch and
    unwatch calls with the flags CB_RDONLY, CB_WRONLY and CB_RDWR, on
    descriptors other than the pipe SelectAIO keeps for itself, that
    EPollAIO survives returns the same results with SelectAIO, and both then
    watch the same descriptors for the same events: the kernel was told
    EPOLLIN for those select has in its read set, EPOLLOUT for those in its
    write set, and of no others.  (is_watched and wait_ready are not part of
    the statement: EPollAIO::is_watched answers wrongly, and epoll is told
    to report changes only.) *)
Theorem aio_equivalence (p : Z) (ops : list aio_op) (out : list bool) (e : EPollAIO) :
  Forall (fun o => op_fd o <> p /\ real_flag (op_flag o)) ops ->
  aio_run ops epoll_aio.EPollAIO_new = Ret (out, e) ->
  exists s, aio_run ops (select_aio.SelectAIO_new p) = Ret (out, s) /\ agree p e s.
Proof.
  assert (H0 : agree p epoll_aio.EPollAIO_new (select_aio.SelectAIO_new p)).
  { split; [intros fd Hne|intros fd|intros fd mask _]; cbn.
    - rewrite !bool_decide_false by set_solver. done.
    - rewrite lookup_empty. split; [by intros [? ?]|done].
    - by rewrite lookup_empty. }
  revert H0. generalize epoll_aio.EPollAIO_new (select_aio.SelectAIO_new p). intros e0 s0 H0 Hf.
  revert e0 s0 out H0. induction Hf as [|o ops [Ho Hr] _ IH]; intros e0 s0 out H0 E.
  { injection E as <- <-. by exists s0. }
  destruct o as [fd flag|fd flag]; cbn in *; rinv E.
  - destruct (watch_agree _ _ _ _ _ _ H0 Ho Hr E0) as (s1 & -> & H1). cbn [mbind res_bind]. by eapply IH.
  - destruct a as [b e1]. rinv E. destruct a as [out1 e2]. injection E as <- <-.
    destruct (unwatch_agree _ _ _ _ _ _ _ H0 Ho Hr E0) as (s1 & -> & H1). cbn [mbind res_bind].
    destruct (IH _ _ _ H1 E1) as (s2 & -> & H2). by exists s2.
Qed.

Lemma aio_equivalence_witness :
  exists s, aio_run demo_ops (select_aio.SelectAIO_new 3) = Ret ([false], s) /\
    agree 3 (mkEPollAIO {[ 7 := 0x1; 9 := 0x10 ]} {[ 7 := 2 ^ 31 + 1; 9 := 2 ^ 31 + 4 ]}) s.
Proof.
  apply (aio_equivalence 3 demo_ops [false]); [|vm_compute; reflexivity].
  repeat (constructor; [split; [done|unfold real_flag; auto]|]). constructor.
Defined.

(** is_watched differs: CB_MASK is the complement of the flags, so
    EPollAIO::is_watched answers no for every descriptor it watches. *)
Lemma epoll_is_watched_no p e s fd flag b :
  agree p e s -> fd <> p -> real_flag flag -> is_watched fd flag e = Ret b -> b = false.
Proof.
  intros Ha Hne Hf E. apply epoll_fd in E as [E _]. injection E as <-.
  rewrite (ag_status _ _ _ Ha fd Hne). destruct Hf as [->|[->| ->]]; by repeat case_bool_decide.
Qed.
