(* ===== verification/PollLoop.v ===== *)
(** * The callback table and the wait loop (rpc/pollmgr.cc, class PollMgr)

    add_callback, del_callback and block_remove_fd are called by any
    thread; wait_loop is one thread that waits for ready descriptors and
    calls their callbacks without holding the mutex.  block_remove_fd
    waits until the loop has come round. *)

From Stdlib Require Import ZArith Lia.
From stdpp Require Import base list gmap sets.
From S2P Require Import Prelude PollMgr.

#[local] Open Scope Z_scope.
#[local] Set Warnings "-clear-no-such-hyp".

Module poll_mgr.

Abbreviation aio_callback := positive.

Record PollMgr := mkPollMgr {
  callbacks_ : gmap Z aio_callback;
  aio_ : SelectAIO;
  pending_change_ : bool
}.

Definition PollMgr_new (pipe : Z) : PollMgr := mkPollMgr ∅ (select_aio.SelectAIO_new pipe) false.

Definition add_callback (fd : Z) (flag : poll_flag) (ch : aio_callback) (m : PollMgr) : res PollMgr :=
  verify (fd <? MAX_POLL_FDS) (
  aio ← watch_fd fd flag (aio_ m);
  verify (bool_decide (callbacks_ m !! fd = None) || bool_decide (callbacks_ m !! fd = Some ch))
    (Ret (mkPollMgr (<[fd := ch]> (callbacks_ m)) aio (pending_change_ m)))).

(** block_remove_fd up to its wait, and after it. *)
Definition block_remove_begin (fd : Z) (m : PollMgr) : res PollMgr :=
  '(_, aio) ← unwatch_fd fd CB_RDWR (aio_ m);
  Ret (mkPollMgr (callbacks_ m) aio true).
Definition block_remove_end (fd : Z) (m : PollMgr) : PollMgr :=
  mkPollMgr (delete fd (callbacks_ m)) (aio_ m) (pending_change_ m).

Definition del_callback (fd : Z) (flag : poll_flag) (m : PollMgr) : res PollMgr :=
  '(none, aio) ← unwatch_fd fd flag (aio_ m);
  Ret (mkPollMgr (if none : bool then delete fd (callbacks_ m) else callbacks_ m) aio (pending_change_ m)).

Definition has_callback (fd : Z) (flag : poll_flag) (c : aio_callback) (m : PollMgr) : res bool :=
  if bool_decide (callbacks_ m !! fd <> Some c) then Ret false else is_watched fd flag (aio_ m).

(** The head of the loop: whether it broadcasts changedone_c_. *)
Definition loop_top (m : PollMgr) : bool * PollMgr :=
  if pending_change_ m then (true, mkPollMgr (callbacks_ m) (aio_ m) false) else (false, m).

(** ** Threads *)

Inductive phase :=
| AtTop
| BeforeWait
| InSelect (r w : gset Z) (high : Z)
| Dispatch (readable writable : list Z)
| InCall (fd : Z) (ch : aio_callback) (readable writable : list Z).

(** A thread in block_remove_fd; [readded] tells whether a callback for
    the descriptor has been added since. *)
Record remover := Remover { r_fd : Z; released : bool; readded : bool }.

Record sys := Sys {
  mgr : PollMgr;
  loop : phase;
  removers : list remover;
  quiet : gset Z  (* removed for good: block_remove_fd returned, nothing added since *)
}.

Definition sys_new (pipe : Z) : sys := Sys (PollMgr_new pipe) AtTop [] ∅.

Definition release (r : remover) : remover := Remover (r_fd r) true (readded r).
Definition note_added (fd : Z) (r : remover) : remover :=
  if r_fd r =? fd then Remover (r_fd r) (released r) true else r.

(** Take a byte from the pipe when select reported it. *)
Definition drain (tr : gset Z) (m : PollMgr) : PollMgr :=
  let a := aio_ m in
  mkPollMgr (callbacks_ m)
    (mkSelectAIO (rfds_ a) (wfds_ a) (highfds_ a) (pipe_rd a)
       (if bool_decide (pipe_rd a ∈ tr) then pipe_bytes a - 1 else pipe_bytes a))
    (pending_change_ m).

(** [spurious] admits waits that end without a broadcast. *)
Inductive step (spurious : bool) (pipe : Z) (σ : sys) : sys -> Prop :=
| s_add fd flag ch m :
    fd <> pipe -> add_callback fd flag ch (mgr σ) = Ret m ->
    step spurious pipe σ (Sys m (loop σ) (note_added fd <$> removers σ) (quiet σ ∖ {[ fd ]}))
| s_del fd flag m :
    fd <> pipe -> del_callback fd flag (mgr σ) = Ret m ->
    step spurious pipe σ (Sys m (loop σ) (removers σ) (quiet σ))
| s_remove fd m :
    fd <> pipe -> block_remove_begin fd (mgr σ) = Ret m ->
    step spurious pipe σ (Sys m (loop σ) (Remover fd false false :: removers σ) (quiet σ))
| s_removed r l1 l2 :
    removers σ = l1 ++ r :: l2 -> released r = true ->
    step spurious pipe σ (Sys (block_remove_end (r_fd r) (mgr σ)) (loop σ) (l1 ++ l2)
      (if readded r then quiet σ else {[ r_fd r ]} ∪ quiet σ))
| s_spurious r l1 l2 :
    spurious = true -> removers σ = l1 ++ r :: l2 ->
    step spurious pipe σ (Sys (mgr σ) (loop σ) (l1 ++ release r :: l2) (quiet σ))
| l_top b m :
    loop σ = AtTop -> loop_top (mgr σ) = (b, m) ->
    step spurious pipe σ (Sys m BeforeWait (if b : bool then release <$> removers σ else removers σ) (quiet σ))
| l_wait :
    loop σ = BeforeWait ->
    step spurious pipe σ (Sys (mgr σ)
      (InSelect (rfds_ (aio_ (mgr σ))) (wfds_ (aio_ (mgr σ))) (highfds_ (aio_ (mgr σ)))) (removers σ) (quiet σ))
| l_interrupted r w h :
    loop σ = InSelect r w h -> step spurious pipe σ (Sys (mgr σ) AtTop (removers σ) (quiet σ))
| l_ready r w h tr tw :
    loop σ = InSelect r w h -> tr ⊆ r -> tw ⊆ w ->
    (pipe ∈ tr <-> 0 < pipe_bytes (aio_ (mgr σ))) ->
    let rw := select_aio.collect tr tw h pipe in
    step spurious pipe σ (Sys (drain tr (mgr σ)) (Dispatch rw.1 rw.2) (removers σ) (quiet σ))
| l_read fd r w :
    loop σ = Dispatch (fd :: r) w ->
    step spurious pipe σ (Sys (mgr σ)
      (match callbacks_ (mgr σ) !! fd with Some ch => InCall fd ch r w | None => Dispatch r w end) (removers σ) (quiet σ))
| l_write fd w :
    loop σ = Dispatch [] (fd :: w) ->
    step spurious pipe σ (Sys (mgr σ)
      (match callbacks_ (mgr σ) !! fd with Some ch => InCall fd ch [] w | None => Dispatch [] w end) (removers σ) (quiet σ))
| l_return fd ch r w :
    loop σ = InCall fd ch r w -> step spurious pipe σ (Sys (mgr σ) (Dispatch r w) (removers σ) (quiet σ))
| l_again :
    loop σ = Dispatch [] [] -> step spurious pipe σ (Sys (mgr σ) AtTop (removers σ) (quiet σ)).

Inductive reachable (spurious : bool) (pipe : Z) : sys -> Prop :=
| reach_init : reachable spurious pipe (sys_new pipe)
| reach_step σ σ' : reachable spurious pipe σ -> step spurious pipe σ σ' -> reachable spurious pipe σ'.

(** ** Invariant *)

(** The loop may still call a callback of [fd] before it comes round. *)
Definition mentions (fd : Z) (l : phase) : Prop :=
  match l with
  | AtTop | BeforeWait => False
  | InSelect r w _ => fd ∈ r \/ fd ∈ w
  | Dispatch r w => fd ∈ r \/ fd ∈ w
  | InCall fd' _ r w => fd = fd' \/ fd ∈ r \/ fd ∈ w
  end.

Definition unwatched (fd : Z) (σ : sys) : Prop :=
  fd ∉ rfds_ (aio_ (mgr σ)) /\ fd ∉ wfds_ (aio_ (mgr σ)).

Record inv (pipe : Z) (σ : sys) : Prop := Inv {
  inv_quiet : forall fd, fd ∈ quiet σ -> unwatched fd σ /\ ~ mentions fd (loop σ);
  inv_released : forall r, r ∈ removers σ -> readded r = false -> unwatched (r_fd r) σ /\
    (released r = true -> ~ mentions (r_fd r) (loop σ));
  inv_pending : forall r, r ∈ removers σ -> released r = false -> pending_change_ (mgr σ) = true;
  inv_wake : pending_change_ (mgr σ) = true ->
    match loop σ with BeforeWait | InSelect _ _ _ => 0 < pipe_bytes (aio_ (mgr σ)) | _ => True end;
  inv_aio : select_ok pipe (aio_ (mgr σ))
}.

Lemma unwatch_effect fd flag a b a' :
  select_aio.unwatch_fd fd flag a = Ret (b, a') ->
  (forall k, k ∈ rfds_ a' -> k ∈ rfds_ a) /\ (forall k, k ∈ wfds_ a' -> k ∈ wfds_ a) /\
  pipe_bytes a <= pipe_bytes a' /\
  (flag = CB_RDWR -> fd ∉ rfds_ a' /\ fd ∉ wfds_ a' /\ pipe_bytes a' = pipe_bytes a + 1).
Proof.
  unfold select_aio.unwatch_fd. destruct (select_aio.in_fd_set fd); [|done].
  destruct flag; cbn; try done; intros [= <- <-]; cbn; (split; [set_solver|]); (split; [set_solver|]);
    (split; [lia|]); try done. intros _. split; [set_solver|]. split; [set_solver|done].
Qed.

Lemma watch_effect fd flag a a' :
  select_aio.watch_fd fd flag a = Ret a' ->
  (forall k, k <> fd -> (k ∈ rfds_ a' -> k ∈ rfds_ a) /\ (k ∈ wfds_ a' -> k ∈ wfds_ a)) /\
  pipe_bytes a <= pipe_bytes a'.
Proof.
  unfold select_aio.watch_fd. destruct (select_aio.in_fd_set fd); [|done].
  destruct flag; cbn; intros [= <-]; cbn; (split; [set_solver|lia]).
Qed.

(** Fewer watched descriptors and at least as many bytes keep the
    invariant. *)
Lemma inv_shrink pipe σ m :
  inv pipe σ -> select_ok pipe (aio_ m) ->
  (forall k, k ∈ rfds_ (aio_ m) -> k ∈ rfds_ (aio_ (mgr σ))) ->
  (forall k, k ∈ wfds_ (aio_ m) -> k ∈ wfds_ (aio_ (mgr σ))) ->
  pipe_bytes (aio_ (mgr σ)) <= pipe_bytes (aio_ m) -> pending_change_ m = pending_change_ (mgr σ) ->
  inv pipe (Sys m (loop σ) (removers σ) (quiet σ)).
Proof.
  intros [Hq Hr Hp Hw Ha] Hok H1 H2 Hb Hpc. split; cbn [mgr loop removers quiet]; rewrite ?Hpc; try done.
  - intros fd Hfd. destruct (Hq fd Hfd) as [[? ?] ?]. split; [|done]. split; cbn; auto.
  - intros r Hin Hre. destruct (Hr r Hin Hre) as [[? ?] ?]. split; [|done]. split; cbn; auto.
  - intros Hpt. specialize (Hw Hpt). destruct (loop σ); try done; lia.
Qed.

(** The loop moves on to a phase that mentions nothing new. *)
Lemma inv_loop pipe σ l :
  inv pipe σ -> (forall fd, mentions fd l -> mentions fd (loop σ)) ->
  (match l with BeforeWait | InSelect _ _ _ => match loop σ with BeforeWait | InSelect _ _ _ => True | _ => False end | _ => True end) ->
  inv pipe (Sys (mgr σ) l (removers σ) (quiet σ)).
Proof.
  intros [Hq Hr Hp Hw Ha] Hm Hl. split; cbn [mgr loop removers quiet]; try done.
  - intros fd Hfd. destruct (Hq fd Hfd) as [? Hn]. split; [done|]. auto.
  - intros r Hin Hre. destruct (Hr r Hin Hre) as [? Hn]. split; [done|]. intros Hrel Hl'. by apply Hn, Hm.
  - intros Hpt. specialize (Hw Hpt). destruct l, (loop σ); done.
Qed.

Lemma collect_mentions tr tw h pipe fd :
  let rw := select_aio.collect tr tw h pipe in fd ∈ rw.1 \/ fd ∈ rw.2 -> fd ∈ tr \/ fd ∈ tw.
Proof.
  cbn zeta. rewrite collect_spec. cbn. rewrite !list_elem_of_filter. tauto.
Qed.

Lemma inv_add pipe σ fd flag ch m :
  inv pipe σ -> fd <> pipe -> add_callback fd flag ch (mgr σ) = Ret m ->
  inv pipe (Sys m (loop σ) (note_added fd <$> removers σ) (quiet σ ∖ {[ fd ]})).
Proof.
  intros [Hq Hr Hp Hw Ha] Hne E. unfold add_callback, verify in E. destruct (fd <? MAX_POLL_FDS); [|done]. rinv E.
  destruct (_ || _); [|done]. injection E as <-. pose proof (watch_ok _ _ _ _ _ Ha Hne E0) as Hok.
  apply watch_effect in E0 as [Hk Hb]. split; cbn [mgr loop removers quiet aio_ pending_change_]; try done.
  - intros k Hin. assert (k ∈ quiet σ /\ k <> fd) as [Hkq Hkn] by set_solver.
    destruct (Hq k Hkq) as [[? ?] ?]. split; [|done]. destruct (Hk k Hkn). split; cbn; auto.
  - intros r Hin Hre. apply list_elem_of_fmap in Hin as (r0 & -> & Hin). unfold note_added in *.
    destruct (Z.eqb_spec (r_fd r0) fd) as [|Hn]; [done|]. destruct (Hr r0 Hin Hre) as [[? ?] ?]. split; [|done].
    destruct (Hk _ Hn). split; cbn; auto.
  - intros r Hin Hre. apply list_elem_of_fmap in Hin as (r0 & -> & Hin). apply (Hp r0 Hin). unfold note_added in Hre.
    by destruct (r_fd r0 =? fd).
  - intros Hpt. specialize (Hw Hpt). destruct (loop σ); try done; lia.
Qed.

Lemma inv_remove pipe σ fd m :
  inv pipe σ -> fd <> pipe -> block_remove_begin fd (mgr σ) = Ret m ->
  inv pipe (Sys m (loop σ) (Remover fd false false :: removers σ) (quiet σ)).
Proof.
  intros [Hq Hr Hp Hw Ha] Hne E. unfold block_remove_begin in E. rinv E. destruct a as [b a']. injection E as <-.
  pose proof (unwatch_ok _ _ _ _ _ _ Ha Hne E0) as Hok. apply unwatch_effect in E0 as (Hs1 & Hs2 & _ & Hrw).
  destruct (Hrw eq_refl) as (Hn1 & Hn2 & Hb). pose proof (so_bytes _ _ Ha).
  split; cbn [mgr loop removers quiet aio_ pending_change_]; try done.
  - intros k Hk. destruct (Hq k Hk) as [[? ?] ?]. split; [|done]. split; cbn; auto.
  - intros r [->|Hin]%elem_of_cons Hre; [split; [by split|done]|].
    destruct (Hr r Hin Hre) as [[? ?] ?]. split; [|done]. split; cbn; auto.
  - intros _. destruct (loop σ); try done; lia.
Qed.

Lemma inv_removed pipe σ r l1 l2 :
  inv pipe σ -> removers σ = l1 ++ r :: l2 -> released r = true ->
  inv pipe (Sys (block_remove_end (r_fd r) (mgr σ)) (loop σ) (l1 ++ l2)
    (if readded r then quiet σ else {[ r_fd r ]} ∪ quiet σ)).
Proof.
  intros [Hq Hr Hp Hw Ha] E Hrel. split; cbn [mgr loop removers quiet]; try done.
  - intros k Hk. destruct (readded r) eqn:Hre; [by apply Hq|].
    destruct (Hr r) as [? Hm]; [rewrite E; set_solver|done|].
    apply elem_of_union in Hk as [->%elem_of_singleton|Hk]; [auto|]. by apply Hq.
  - intros k Hk. apply Hr. rewrite E. set_solver.
  - intros k Hk. apply Hp. rewrite E. set_solver.
Qed.

(** The loop comes round: whoever waits is released, and nothing is
    mentioned any more. *)
Lemma inv_top pipe σ b m :
  inv pipe σ -> loop_top (mgr σ) = (b, m) ->
  inv pipe (Sys m BeforeWait (if b : bool then release <$> removers σ else removers σ) (quiet σ)).
Proof.
  intros [Hq Hr Hp Hw Ha] E. unfold loop_top in E. destruct (pending_change_ (mgr σ)) eqn:Ep; injection E as <- <-;
    (split; cbn [mgr loop removers quiet aio_ pending_change_]; try done).
  - intros k Hk. destruct (Hq k Hk) as [? _]. split; [done|by intros []].
  - intros r Hin Hre. apply list_elem_of_fmap in Hin as (r0 & -> & Hin). destruct (Hr r0 Hin Hre) as [? _].
    split; [done|by intros _ []].
  - intros r Hin Hre. apply list_elem_of_fmap in Hin as (r0 & -> & _). done.
  - intros k Hk. destruct (Hq k Hk) as [? _]. split; [done|by intros []].
  - intros r Hin Hre. destruct (Hr r Hin Hre) as [? _]. split; [done|by intros _ []].
  - intros r Hin Hre. specialize (Hp r Hin Hre). congruence.
  - rewrite Ep. done.
Qed.

Lemma inv_ready pipe σ r w h tr tw :
  inv pipe σ -> loop σ = InSelect r w h -> tr ⊆ r -> tw ⊆ w ->
  (pipe ∈ tr <-> 0 < pipe_bytes (aio_ (mgr σ))) ->
  let rw := select_aio.collect tr tw h pipe in
  inv pipe (Sys (drain tr (mgr σ)) (Dispatch rw.1 rw.2) (removers σ) (quiet σ)).
Proof.
  intros Hi El H1 H2 Hpipe rw. pose proof (inv_aio _ _ Hi) as Ha.
  assert (Hl : inv pipe (Sys (mgr σ) (Dispatch rw.1 rw.2) (removers σ) (quiet σ))).
  { apply inv_loop; [done| |done]. intros fd Hfd%collect_mentions. rewrite El. cbn. set_solver. }
  destruct Hl as [Hq' Hr' Hp' _ _]. split; cbn [mgr loop removers quiet drain aio_ pending_change_]; try done.
  destruct Ha as [Hpr ? ? ? ? ? ?]. split; cbn; try done. rewrite Hpr. case_bool_decide as Hin; [|done].
  apply Hpipe in Hin. lia.
Qed.

Lemma inv_step pipe σ σ' : inv pipe σ -> step false pipe σ σ' -> inv pipe σ'.
Proof.
  intros Hi Hs. destruct Hs as [fd flag ch m Hne E|fd flag m Hne E|fd m Hne E|r l1 l2 E Hrel|r l1 l2 Hf _|b m El E|El
    |r w h El|r w h tr tw El H1 H2 Hpipe|fd r w El|fd w El|fd ch r w El|El].
  - by eapply inv_add.
  - unfold del_callback in E. rinv E. destruct a as [b a']. injection E as <-.
    pose proof (unwatch_ok _ _ _ _ _ _ (inv_aio _ _ Hi) Hne E0) as Hok.
    apply unwatch_effect in E0 as (? & ? & ? & _). by apply inv_shrink.
  - by eapply inv_remove.
  - by apply inv_removed.
  - done.
  - by eapply inv_top.
  - destruct Hi as [Hq Hr Hp Hw Ha]. split; cbn [mgr loop removers quiet]; try done.
    + intros k Hk. destruct (Hq k Hk) as [[? ?] _]. split; [done|]. cbn. tauto.
    + intros r Hin Hre. destruct (Hr r Hin Hre) as [[? ?] _]. split; [done|]. cbn. tauto.
    + intros Hpt. specialize (Hw Hpt). by rewrite El in Hw.
  - by apply inv_loop.
  - by eapply inv_ready.
  - apply inv_loop; [done| |by destruct (callbacks_ _ !! fd)]. intros k. rewrite El. destruct (callbacks_ _ !! fd); cbn; set_solver.
  - apply inv_loop; [done| |by destruct (callbacks_ _ !! fd)]. intros k. rewrite El. destruct (callbacks_ _ !! fd); cbn; set_solver.
  - apply inv_loop; [done| |done]. intros k. rewrite El. cbn. tauto.
  - by apply inv_loop.
Qed.

Lemma reachable_inv pipe σ : 0 <= pipe -> reachable false pipe σ -> inv pipe σ.
Proof.
  intros H0. induction 1 as [|σ σ' _ IH Hs]; [|by eapply inv_step].
  split; cbn; try done; [set_solver|intros r Hr; by apply not_elem_of_nil in Hr..|by apply select_new_ok].
Qed.

(** The callback the loop is in, if any. *)
Definition calling (l : phase) : option (Z * aio_callback) :=
  match l with InCall fd ch _ _ => Some (fd, ch) | _ => None end.

(** C27: block_remove_fd keeps its promise as long as no wait on
    changedone_c_ wakes spuriously (steps with [false]): once it has
    returned, and until a callback for the descriptor is added again, the
    poll thread is not in a callback of that descriptor and does not start
    one.  The wait has no predicate; [block_remove_spurious] has a run with
    a spurious wake-up that breaks the promise. *)
Theorem block_remove_quiet (pipe : Z) (σ : sys) (fd : Z) :
  0 <= pipe -> reachable false pipe σ -> fd ∈ quiet σ ->
  (forall ch, calling (loop σ) <> Some (fd, ch)) /\
  (forall σ' ch, step false pipe σ σ' -> calling (loop σ') <> Some (fd, ch)).
Proof.
  intros H0 Hr Hq. pose proof (reachable_inv _ _ H0 Hr) as Hi. destruct (inv_quiet _ _ Hi fd Hq) as [_ Hm].
  assert (Hin : forall ch l, calling l = Some (fd, ch) -> mentions fd l) by (intros ch []; cbn; naive_solver).
  split; [intros ch Hc; eauto|]. intros σ' ch Hs Hc. apply Hin in Hc.
  assert (Hor : fd ∈ quiet σ' \/ loop σ' = loop σ) by (destruct Hs; cbn; first [by left|by right|left; destruct (readded r); set_solver]).
  destruct Hor as [Hq'|El]; [|by rewrite El in Hc]. by apply (inv_quiet _ _ (inv_step _ _ _ Hi Hs) fd Hq').
Qed.

(** [block_remove_fd] is never forgotten: while a thread waits in it,
    the change it asked for is pending, and a loop that is about to wait, or
    waits, in select finds a byte in the wake-up pipe, so it comes round. *)
Theorem block_remove_wakes (pipe : Z) (σ : sys) (r : remover) :
  0 <= pipe -> reachable false pipe σ -> r ∈ removers σ -> released r = false ->
  pending_change_ (mgr σ) = true /\
  match loop σ with
  | BeforeWait | InSelect _ _ _ =>
      pipe ∈ rfds_ (aio_ (mgr σ)) /\ forall rr wr, select_aio.wait_ready rr wr (aio_ (mgr σ)) <> None
  | _ => True
  end.
Proof.
  intros H0 Hr Hin Hrel. destruct (reachable_inv _ _ H0 Hr) as [_ _ Hp Hw Ha].
  specialize (Hp r Hin Hrel). split; [done|]. specialize (Hw Hp).
  assert (Hgo : 0 < pipe_bytes (aio_ (mgr σ)) -> pipe ∈ rfds_ (aio_ (mgr σ)) /\
    forall rr wr, select_aio.wait_ready rr wr (aio_ (mgr σ)) <> None).
  { intros Hb. split; [apply Ha|]. intros rr wr E. pose proof (select_wait_ok _ _ rr wr Ha) as H.
    rewrite E in H. lia. }
  destruct (loop σ); auto.
Qed.

(** ** Runs *)

(** Descriptor 7 is added, reported readable, and its callback runs. *)
Definition demo_select : SelectAIO := mkSelectAIO {[ 7; 3 ]} ∅ 7 3 1.
Definition demo_mgr : PollMgr := mkPollMgr {[ 7 := 1%positive ]} demo_select false.
Definition drained : PollMgr := mkPollMgr {[ 7 := 1%positive ]} (mkSelectAIO {[ 7; 3 ]} ∅ 7 3 0) false.
Definition removing : PollMgr := mkPollMgr {[ 7 := 1%positive ]} (mkSelectAIO {[ 3 ]} ∅ 3 3 1) true.
Definition demo_call : sys := Sys drained (InCall 7 1%positive [] []) [] ∅.

Definition demo_wait : sys := Sys demo_mgr (InSelect {[ 7; 3 ]} ∅ 7) [] ∅.

Lemma demo_waits b : reachable b 3 demo_wait.
Proof.
  apply (reach_step b 3 (Sys demo_mgr BeforeWait [] ∅)).
  - apply (reach_step b 3 (Sys demo_mgr AtTop [] ∅)).
    + apply (reach_step b 3 (sys_new 3)); [constructor|].
      apply (s_add b 3 (sys_new 3) 7 CB_RDONLY 1%positive); [done|]. vm_compute. reflexivity.
    + by apply (l_top b 3 (Sys demo_mgr AtTop [] ∅) false).
  - by apply (l_wait b 3 (Sys demo_mgr BeforeWait [] ∅)).
Qed.

(** Descriptor 7 is removed while the loop waits. *)
Definition removing2 : PollMgr := mkPollMgr {[ 7 := 1%positive ]} (mkSelectAIO {[ 3 ]} ∅ 3 3 2) true.
Definition demo_removing : sys := Sys removing2 (InSelect {[ 7; 3 ]} ∅ 7) [Remover 7 false false] ∅.

Lemma demo_removing_reachable : reachable false 3 demo_removing.
Proof.
  apply (reach_step false 3 _ _ (demo_waits false)). apply (s_remove false 3 demo_wait 7); [done|]. vm_compute. reflexivity.
Qed.

Definition settled (pending : bool) : PollMgr :=
  mkPollMgr {[ 7 := 1%positive ]} (mkSelectAIO {[ 3 ]} ∅ 3 3 1) pending.
Definition demo_removed : sys := Sys (block_remove_end 7 (settled false)) BeforeWait [] {[ 7 ]}.

Lemma demo_removed_reachable : reachable false 3 demo_removed.
Proof.
  apply (reach_step false 3 (Sys (settled false) BeforeWait [Remover 7 true false] ∅)).
  - apply (reach_step false 3 (Sys (settled true) AtTop [Remover 7 false false] ∅)).
    + apply (reach_step false 3 (Sys (settled true) (Dispatch [] []) [Remover 7 false false] ∅)).
      * apply (reach_step false 3 _ _ demo_removing_reachable).
        replace (Sys (settled true) (Dispatch [] []) [Remover 7 false false] ∅) with
          (let rw := select_aio.collect {[ 3 ]} ∅ 7 3 in
           Sys (drain {[ 3 ]} removing2) (Dispatch rw.1 rw.2) [Remover 7 false false] ∅) by (vm_compute; reflexivity).
        apply (l_ready false 3 demo_removing {[ 7; 3 ]} ∅ 7 {[ 3 ]} ∅); done || set_solver.
      * by apply (l_again false 3 (Sys (settled true) (Dispatch [] []) [Remover 7 false false] ∅)).
    + by apply (l_top false 3 (Sys (settled true) AtTop [Remover 7 false false] ∅) true).
  - exact (s_removed false 3 (Sys (settled false) BeforeWait [Remover 7 true false] ∅) (Remover 7 true false) [] [] eq_refl eq_refl).
Qed.

Lemma block_remove_quiet_witness :
  (forall ch, calling (loop demo_removed) <> Some (7, ch)) /\
  (forall σ' ch, step false 3 demo_removed σ' -> calling (loop σ') <> Some (7, ch)).
Proof. apply (block_remove_quiet 3 demo_removed 7); [done|apply demo_removed_reachable|set_solver]. Defined.

Lemma block_remove_wakes_witness :
  forall rr wr, select_aio.wait_ready rr wr (aio_ (mgr demo_removing)) <> None.
Proof.
  apply (block_remove_wakes 3 demo_removing (Remover 7 false false)); [done|apply demo_removing_reachable|by left|done].
Defined.

Lemma demo_called b : reachable b 3 demo_call.
Proof.
  apply (reach_step b 3 (Sys drained (Dispatch [7] []) [] ∅)).
  - apply (reach_step b 3 _ _ (demo_waits b)).
    replace (Sys drained (Dispatch [7] []) [] ∅) with
      (let rw := select_aio.collect {[ 7; 3 ]} ∅ 7 3 in Sys (drain {[ 7; 3 ]} demo_mgr) (Dispatch rw.1 rw.2) [] ∅)
      by (vm_compute; reflexivity).
    by apply (l_ready b 3 demo_wait {[ 7; 3 ]} ∅ 7 {[ 7; 3 ]} ∅).
  - by apply (l_read b 3 (Sys drained (Dispatch [7] []) [] ∅) 7 [] []).
Qed.

(** block_remove_fd waits on a condition variable without testing a
    predicate: a wait that ends by itself, as pthreads permits, lets it
    return while the callback it promised to exclude is still running. *)
Theorem block_remove_spurious : exists σ ch,
  reachable true 3 σ /\ 7 ∈ quiet σ /\ calling (loop σ) = Some (7, ch).
Proof.
  exists (Sys (block_remove_end 7 removing) (InCall 7 1%positive [] []) [] {[ 7 ]}), 1%positive.
  split; [|split; [set_solver|done]].
  apply (reach_step true 3 (Sys removing (InCall 7 1%positive [] []) [Remover 7 true false] ∅)).
  - apply (reach_step true 3 (Sys removing (InCall 7 1%positive [] []) [Remover 7 false false] ∅)).
    + apply (reach_step true 3 _ _ (demo_called true)).
      apply (s_remove true 3 demo_call 7); [done|]. vm_compute. reflexivity.
    + by apply (s_spurious true 3 (Sys removing (InCall 7 1%positive [] []) [Remover 7 false false] ∅) (Remover 7 false false) [] []).
  - exact (s_removed true 3 (Sys removing (InCall 7 1%positive [] []) [Remover 7 true false] ∅)
      (Remover 7 true false) [] [] eq_refl eq_refl).
Qed.

End poll_mgr.
