(* ===== verification/Connection.v ===== *)
(** * Connections (rpc/connection.cc, rpc/connection.h)

    A connection carries PDUs over a stream socket: four bytes of size in
    network order, the size counting itself, then the rest.  The results of
    read, write, malloc and of the manager's got_pdu are arguments; what a
    member function does to the poll manager, to the threads waiting in
    send and to the manager is a list of effects in program order. *)

From Stdlib Require Import ZArith Lia.
From stdpp Require Import base list gmap.
From S2P Require Import Prelude Marshall PollMgr.

#[local] Open Scope Z_scope.

Module connection.

Definition MAX_PDU : Z := Z.shiftl 10 20.

Record charbuf := Charbuf {
  buf : option (list cell);  (* None is NULL *)
  sz : Z;
  solong : Z
}.
Definition charbuf_new : charbuf := Charbuf None 0 0.

Record timeval := Timeval { tv_sec : Z; tv_usec : Z }.

Record connection := Connection {
  fd_ : Z;
  dead_ : bool;
  wpdu_ : charbuf;
  rpdu_ : charbuf;
  create_time_ : timeval;
  waiters_ : Z;
  refno_ : Z;
  lossy_ : Z
}.

Inductive effect :=
| AddCallback (f : poll_flag)
| DelCallback (f : poll_flag)
| BlockRemove
| Shutdown
| SignalComplete
| BroadcastWait
| GotPdu (b : list cell) (sz : Z).

Definition set_dead (b : bool) (c : connection) : connection :=
  Connection (fd_ c) b (wpdu_ c) (rpdu_ c) (create_time_ c) (waiters_ c) (refno_ c) (lossy_ c).
Definition set_wpdu (w : charbuf) (c : connection) : connection :=
  Connection (fd_ c) (dead_ c) w (rpdu_ c) (create_time_ c) (waiters_ c) (refno_ c) (lossy_ c).
Definition set_rpdu (r : charbuf) (c : connection) : connection :=
  Connection (fd_ c) (dead_ c) (wpdu_ c) r (create_time_ c) (waiters_ c) (refno_ c) (lossy_ c).
Definition set_waiters (n : Z) (c : connection) : connection :=
  Connection (fd_ c) (dead_ c) (wpdu_ c) (rpdu_ c) (create_time_ c) n (refno_ c) (lossy_ c).
Definition set_refno (n : Z) (c : connection) : connection :=
  Connection (fd_ c) (dead_ c) (wpdu_ c) (rpdu_ c) (create_time_ c) (waiters_ c) n (lossy_ c).

(** The constructor, at time [now]. *)
Definition connection_new (fd lossy : Z) (now : timeval) : list effect * connection :=
  ([AddCallback CB_RDONLY], Connection fd false charbuf_new charbuf_new now 0 1 lossy).

(** ** References and death *)

Definition incref (c : connection) : res connection :=
  n ← chk_int (refno_ c + 1); Ret (set_refno n c).

Definition isdead (c : connection) : bool := dead_ c.
Definition ref (c : connection) : Z := refno_ c.

(** The destructor's checks. *)
Definition destroy (c : connection) : res unit :=
  verify (dead_ c) (verify (bool_decide (buf (wpdu_ c) = None)) (Ret tt)).

(** decref: [None] when the object has been deleted. *)
Definition decref (c : connection) : res (option connection) :=
  n ← chk_int (refno_ c - 1);
  let c := set_refno n c in
  verify (0 <=? refno_ c)
    (if refno_ c =? 0 then
       if dead_ c then _ ← destroy c; Ret None else Ret (Some c)
     else Ret (Some c)).

Definition closeconn (c : connection) : list effect * connection :=
  if negb (dead_ c) then ([Shutdown; BlockRemove], set_dead true c) else ([], c).

Definition compare (c another : connection) : Z :=
  if tv_sec (create_time_ c) >? tv_sec (create_time_ another) then 1
  else if tv_sec (create_time_ c) <? tv_sec (create_time_ another) then -1
  else if tv_usec (create_time_ c) >? tv_usec (create_time_ another) then 1
  else if tv_usec (create_time_ c) <? tv_usec (create_time_ another) then -1
  else 0.

(** ** Writing *)

Inductive wres :=
| Wrote (n : Z)
| WAgain  (* -1, errno is EAGAIN *)
| WErr.   (* -1, any other errno *)

(** Copy [cs] over the start of [b]; the memory has to hold it. *)
Definition bcopy (cs b : list cell) : res (list cell) :=
  if lenZ cs <=? lenZ b then Ret (cs ++ drop (length cs) b) else Crash Undefined.

(** writepdu: its result, what went out on the socket, and wpdu_ after. *)
Definition writepdu (w : wres) (p : charbuf) : res (bool * list cell * charbuf) :=
  verify (0 <=? solong p)
  (if solong p =? sz p then Ret (true, [], p)
   else match buf p with
        | None => Crash Undefined
        | Some b =>
            b ← (if solong p =? 0 then bcopy (Some <$> be4 (sz p)) b else Ret b);
            match w with
            | WErr => Ret (false, [], Charbuf (Some b) 0 (-1))
            | WAgain => Ret (true, [], Charbuf (Some b) (sz p) (solong p))
            | Wrote n =>
                if solong p + n <=? lenZ b
                then Ret (true, take (Z.to_nat n) (drop (Z.to_nat (solong p)) b),
                          Charbuf (Some b) (sz p) (solong p + n))
                else Crash Undefined
            end
        end).

(** write_cb(s). *)
Definition write_cb (s : Z) (w : wres) (c : connection) : res (list effect * list cell * connection) :=
  verify (negb (dead_ c)) (verify (fd_ c =? s)
  (if sz (wpdu_ c) =? 0 then Ret ([DelCallback CB_WRONLY], [], c)
   else
     '(ok, out, p) ← writepdu w (wpdu_ c);
     let c := set_wpdu p c in
     if negb ok then Ret ([DelCallback CB_RDWR; SignalComplete], out, set_dead true c)
     else verify (0 <=? solong p)
       (if solong p <? sz p then Ret ([], out, c) else Ret ([SignalComplete], out, c)))).

(** ** send, cut where it waits or drops the mutex *)

Inductive send_state :=
| SendWait            (* on send_wait_ *)
| SendComplete        (* on send_complete_ *)
| SendRemove          (* in block_remove_fd, without the mutex *)
| SendReturn (ret : bool).

(** The end of send. *)
Definition send_finish (c : connection) : send_state * list effect * connection :=
  let ret := negb (dead_ c) && (solong (wpdu_ c) =? sz (wpdu_ c)) in
  let c := set_wpdu (Charbuf None 0 0) c in
  (SendReturn ret, if waiters_ c >? 0 then [BroadcastWait] else [], c).

(** The loop on send_complete_, entered or woken. *)
Definition send_complete (c : connection) : send_state * list effect * connection :=
  if negb (dead_ c) && (0 <=? solong (wpdu_ c)) && (solong (wpdu_ c) <? sz (wpdu_ c))
  then (SendComplete, [], c) else send_finish c.

(** From the loop on send_wait_ onwards; [draw] is what random() returned. *)
Definition send_wait (b : list cell) (n : Z) (draw : Z) (w : wres) (c : connection)
  : res (send_state * list effect * list cell * connection) :=
  if negb (dead_ c) && bool_decide (is_Some (buf (wpdu_ c))) then Ret (SendWait, [], [], c)
  else
    let c := set_waiters (waiters_ c - 1) c in
    if dead_ c then Ret (SendReturn false, [], [], c)
    else
      let c := set_wpdu (Charbuf (Some b) n 0) c in
      let fx := if negb (lossy_ c =? 0) && (Z.rem draw 100 <? lossy_ c) then [Shutdown] else [] in
      '(ok, out, p) ← writepdu w (wpdu_ c);
      let c := set_wpdu p c in
      if negb ok then Ret (SendRemove, fx ++ [BlockRemove], out, set_dead true c)
      else if solong p =? sz p then
        let '(st, fx', c) := send_finish c in Ret (st, fx ++ fx', out, c)
      else
        let '(st, fx', c) := send_complete c in Ret (st, fx ++ AddCallback CB_WRONLY :: fx', out, c).

Definition send (b : list cell) (n : Z) (draw : Z) (w : wres) (c : connection)
  : res (send_state * list effect * list cell * connection) :=
  k ← chk_int (waiters_ c + 1);
  send_wait b n draw w (set_waiters k c).

(** ** Reading *)

Inductive rres :=
| RData (bs : bytes)  (* a positive count *)
| REof                (* 0 *)
| RAgain              (* -1, errno is EAGAIN *)
| RErr.               (* -1, any other errno *)

(** The 32-bit value of four bytes in network order. *)
Definition ntohl (h : bytes) : Z :=
  i32 (fold_left (fun acc b => Z.lor (Z.shiftl acc 8) (byte_Z b)) h 0).

(** What one readpdu meets: the two reads, whether malloc succeeds, and
    whether errno is EAGAIN after a second read that returned 0, which
    does not set errno. *)
Record read_env := ReadEnv {
  header_read : rres;
  body_read : Z -> rres;  (* the second read, by the count it asks for *)
  malloc_ok : bool;
  stale_eagain : bool
}.

(** The first half: the size arrives and the buffer is allocated.  [None]
    when readpdu returns false. *)
Definition read_size (e : read_env) (p : charbuf) : res (option charbuf) :=
  match header_read e with
  | REof => Ret None
  | RAgain => Crash AssertFailed
  | RErr => Ret None
  | RData h =>
      if negb (lenZ h =? 4) then Ret None
      else
        let n := ntohl h in
        if n >? MAX_PDU then Ret None
        else
          verify (bool_decide (buf p = None)) (verify (malloc_ok e) (
          b ← bcopy (Some <$> h) (replicate (Z.to_nat (u32 (n + 4))) None);
          Ret (Some (Charbuf (Some b) n 4))))
  end.

(** The second half. *)
Definition read_body (e : read_env) (p : charbuf) : res (bool * charbuf) :=
  match buf p with
  | None => Crash Undefined
  | Some b =>
      count ← chk_int (sz p - solong p);
      match body_read e (u32 count) with
      | RData d =>
          if (0 <=? solong p) && (solong p + lenZ d <=? lenZ b)
          then Ret (true, Charbuf (Some (take (Z.to_nat (solong p)) b ++ (Some <$> d) ++
                                         drop (Z.to_nat (solong p) + length d) b))
                                  (sz p) (solong p + lenZ d))
          else Crash Undefined
      | REof => if stale_eagain e then Ret (true, p) else Ret (false, charbuf_new)
      | RAgain => Ret (true, p)
      | RErr => Ret (false, charbuf_new)
      end
  end.

Definition readpdu (e : read_env) (p : charbuf) : res (bool * charbuf) :=
  if sz p =? 0 then
    r ← read_size e p;
    match r with
    | None => Ret (false, p)
    | Some p => read_body e p
    end
  else read_body e p.

(** read_cb(s); [accepted] is what got_pdu returns when it is called. *)
Definition read_cb (s : Z) (e : read_env) (accepted : bool) (c : connection)
  : res (list effect * connection) :=
  verify (fd_ c =? s)
  (if dead_ c then Ret ([], c)
   else
     '(succ, p) ← (if bool_decide (buf (rpdu_ c) = None) || (solong (rpdu_ c) <? sz (rpdu_ c))
                   then readpdu e (rpdu_ c) else Ret (true, rpdu_ c));
     let c := set_rpdu p c in
     let fx := if negb succ then [DelCallback CB_RDWR; SignalComplete] else [] in
     let c := if negb succ then set_dead true c else c in
     match buf p with
     | Some b =>
         if sz p =? solong p
         then Ret (fx ++ [GotPdu b (sz p)], if accepted then set_rpdu charbuf_new c else c)
         else Ret (fx, c)
     | None => Ret (fx, c)
     end).

(** ** The receiving end of a stream

    Bytes the peer wrote are in flight until they have arrived in the
    socket's receive buffer.  A read takes what has arrived, up to its
    count; with nothing there it fails with EAGAIN. *)

Record rx := Rx {
  conn : connection;
  arrived : bytes;
  in_flight : bytes;
  got : list (list cell)  (* the PDUs got_pdu consumed *)
}.

Definition os_read (n : Z) (q : bytes) : rres :=
  if n =? 0 then REof
  else match take (Z.to_nat n) q with [] => RAgain | d => RData d end.

Definition rx_env (stale : bool) (σ : rx) : read_env :=
  let q := arrived σ in
  ReadEnv (os_read 4 q)
    (fun n => os_read n (if sz (rpdu_ (conn σ)) =? 0 then drop 4 q else q)) true stale.

Definition taken (c : connection) (fx : list effect) (c' : connection) : Z :=
  match last fx with
  | Some (GotPdu _ n) => n - solong (rpdu_ c)
  | _ => solong (rpdu_ c') - solong (rpdu_ c)
  end.

Definition consumed (accepted : bool) (fx : list effect) : list (list cell) :=
  match last fx with
  | Some (GotPdu b n) => if accepted then [take (Z.to_nat n) b] else []
  | _ => []
  end.

Inductive rx_event :=
| Arrive (n : nat)
| Readable (accepted stale : bool).

Definition rx_step (ev : rx_event) (σ : rx) : res rx :=
  match ev with
  | Arrive n => Ret (Rx (conn σ) (arrived σ ++ take n (in_flight σ)) (drop n (in_flight σ)) (got σ))
  | Readable accepted stale =>
      '(fx, c) ← read_cb (fd_ (conn σ)) (rx_env stale σ) accepted (conn σ);
      Ret (Rx c (drop (Z.to_nat (taken (conn σ) fx c)) (arrived σ)) (in_flight σ)
             (got σ ++ consumed accepted fx))
  end.

Fixpoint rx_run (evs : list rx_event) (σ : rx) : res rx :=
  match evs with
  | [] => Ret σ
  | ev :: evs => σ ← rx_step ev σ; rx_run evs σ
  end.

(** No read of a size finds only part of it. *)
Definition unsplit (ev : rx_event) (σ : rx) : Prop :=
  match ev with
  | Readable _ _ => buf (rpdu_ (conn σ)) = None -> 4 <= lenZ (arrived σ)
  | Arrive _ => True
  end.

Fixpoint unsplit_run (evs : list rx_event) (σ : rx) : Prop :=
  match evs with
  | [] => True
  | ev :: evs => unsplit ev σ /\ match rx_step ev σ with Ret σ => unsplit_run evs σ | Crash _ => True end
  end.

(** ** Frames *)

Definition frame_ok (f : bytes) : Prop := 4 < lenZ f <= MAX_PDU /\ take 4 f = be4 (lenZ f).

(** What writepdu makes of a buffer of [n] bytes. *)
Definition frame (b : list cell) (n : Z) : list cell :=
  (Some <$> be4 n) ++ drop 4 (take (Z.to_nat n) b).

Lemma MAX_PDU_eq : MAX_PDU = 10485760.
Proof. reflexivity. Qed.

Lemma ntohl_be4 n : is_i32 n -> ntohl (be4 n) = n.
Proof.
  intros Hn. unfold ntohl, be4. cbn [fold_left]. rewrite !byte_Z_of_Z.
  assert (B : forall a k, 0 <= u8 (Z.shiftr a k) < 2 ^ 8) by (intros; apply Z.mod_pos_bound; lia).
  rewrite !lor_add_low; try lia; try apply B; [|apply Z.mod_pos_bound; lia].
  rewrite !Z.shiftr_div_pow2 by lia. unfold u8.
  transitivity (i32 n); [|by apply i32_small]. unfold i32. f_equal.
  unfold is_i32 in Hn. Z.div_mod_to_equations. lia.
Qed.

(** The buffer holds the first [k] bytes of [f] and has room for the rest. *)
Record holding (f : bytes) (k : nat) (p : charbuf) : Prop := Holding {
  ho_range : (4 <= k <= length f)%nat;
  ho_pdu : exists b, p = Charbuf (Some b) (lenZ f) (Z.of_nat k) /\
    lenZ b = lenZ f + 4 /\ take k b = Some <$> take k f
}.

Lemma store_prefix (f d s : bytes) (b : list cell) k :
  take k b = Some <$> take k f -> drop k f = d ++ s -> (k <= length f <= length b)%nat ->
  let b' := take k b ++ (Some <$> d) ++ drop (k + length d) b in
  length b' = length b /\ take (k + length d) b' = Some <$> take (k + length d) f.
Proof.
  intros Hk Hd Hl b'. assert (length d <= length f - k)%nat
    by (rewrite <- length_drop, Hd, length_app; lia).
  assert (Ef : f = take k f ++ d ++ s) by (rewrite <- Hd, take_drop; done).
  split.
  - subst b'. rewrite !length_app, length_fmap, length_take, length_drop. lia.
  - subst b'. rewrite app_assoc. rewrite take_app_length' by (rewrite length_app, length_fmap, length_take; lia).
    rewrite Hk. rewrite Ef at 2. rewrite app_assoc, take_app_length' by (rewrite length_app, length_take; lia).
    by rewrite fmap_app.
Qed.

Lemma os_read_spec n q :
  0 < n -> q <> [] -> os_read n q = RData (take (Z.to_nat n) q).
Proof.
  intros Hn Hq. unfold os_read. bcase. destruct q as [|x q]; [done|].
  destruct (Z.to_nat n) eqn:E; [lia|]. done.
Qed.

Lemma os_read_nil n : 0 < n -> os_read n [] = RAgain.
Proof. intros. unfold os_read. bcase. by rewrite take_nil. Qed.

Lemma os_read_count n q d : os_read n q = RData d -> lenZ d <= n.
Proof.
  unfold os_read. destruct (Z.eqb_spec n 0); [done|].
  destruct (take (Z.to_nat n) q) eqn:E; [done|]. intros [= <-].
  assert (0 < n) by (destruct (Z.lt_ge_cases 0 n); [done|];
    rewrite Z2Nat.nonpos in E by lia; by rewrite take_0 in E).
  rewrite <- E, length_take. lia.
Qed.

(** One read of the body takes what has arrived of the PDU. *)
Lemma read_body_held e f k p a rest :
  holding f k p -> (k < length f)%nat -> lenZ f <= MAX_PDU ->
  (forall n, body_read e n = os_read n a) -> (exists l, a ++ l = drop k f ++ rest) ->
  let k' := (k + min (length f - k) (length a))%nat in
  exists p', read_body e p = Ret (true, p') /\ holding f k' p'.
Proof.
  intros [Hk (b & -> & Hb & Ht)] Hlt Hmax He (l & Hl) k'. unfold read_body. cbn [buf sz solong].
  rewrite MAX_PDU_eq in Hmax.
  rewrite chk_int_ok by (unfold is_i32; lia). cbn [mbind res_bind].
  rewrite He, u32_small by (unfold is_u32; lia).
  destruct a as [|x a].
  { rewrite os_read_nil by lia. eexists; split; [done|]. subst k'. cbn [length].
    rewrite Nat.min_0_r, Nat.add_0_r. split; [lia|]. eauto. }
  rewrite os_read_spec by (done || lia). set (q := x :: a) in *.
  replace (Z.to_nat (lenZ f - Z.of_nat k)) with (length f - k)%nat by lia.
  set (d := take (length f - k) q).
  assert (Hd : length d = min (length f - k) (length q)) by apply length_take.
  assert (exists s, drop k f = d ++ s) as (s & Hs).
  { exists (drop (length d) (drop k f)). rewrite <- (take_drop (length d) (drop k f)) at 1. f_equal.
    transitivity (take (length d) (drop k f ++ rest)); [rewrite take_app_le; [done|rewrite length_drop; lia]|].
    rewrite <- Hl, take_app_le by lia. rewrite Hd. subst d.
    destruct (Nat.min_spec (length f - k) (length q)) as [[? ->]|[? ->]]; [done|].
    rewrite !take_ge by lia. done. }
  destruct (store_prefix f d s b k Ht Hs) as [Hlen Hpre]; [lia|].
  rewrite Nat2Z.id in *. bcase. bcase. eexists; split; [done|]. rewrite Hd in *. subst k'. split; [lia|].
  eexists. rewrite Nat2Z.inj_add. split; [done|]. split; [rewrite Hlen; lia|done].
Qed.

Lemma read_size_ok e f a l rest :
  header_read e = os_read 4 a -> malloc_ok e = true -> frame_ok f ->
  (4 <= length a)%nat -> a ++ l = f ++ rest ->
  exists p, read_size e charbuf_new = Ret (Some p) /\ holding f 4 p.
Proof.
  intros He Hm [Hf H4] Ha Hl. rewrite MAX_PDU_eq in Hf. unfold read_size.
  assert (take 4 a = be4 (lenZ f)) as E4.
  { rewrite <- H4. transitivity (take 4 (a ++ l)); [by rewrite take_app_le|].
    rewrite Hl. by rewrite take_app_le by lia. }
  rewrite He, os_read_spec by (lia || (intros ->; cbn in Ha; lia)).
  replace (Z.to_nat 4) with 4%nat by lia. rewrite E4, length_be4. cbn [negb Z.eqb Pos.eqb].
  rewrite ntohl_be4 by (unfold is_i32; lia). rewrite Z.gtb_ltb, MAX_PDU_eq. bcase.
  unfold verify. rewrite Hm. cbn [buf charbuf_new]. rewrite bool_decide_true by done.
  unfold bcopy. rewrite u32_small by (unfold is_u32; lia). rewrite length_replicate, length_fmap.
  rewrite length_be4. bcase. cbn [mbind res_bind]. eexists; split; [done|]. split; [lia|].
  eexists; split; [done|]. split.
  - rewrite length_app, length_drop, length_replicate, length_fmap. change (length (be4 _)) with 4%nat. lia.
  - rewrite take_app_length' by done. by rewrite H4.
Qed.

(** Where the reader is in the PDU [f]: at its start, or [k] bytes in. *)
Definition at_byte (f : bytes) (k : nat) (p : charbuf) : Prop :=
  (k = 0%nat /\ p = charbuf_new) \/ holding f k p.

Lemma holding_sz f k p : holding f k p -> sz p = lenZ f /\ solong p = Z.of_nat k /\ buf p <> None.
Proof. intros [_ (b & -> & _)]. done. Qed.

Lemma at_byte_solong f k p : at_byte f k p -> solong p = Z.of_nat k.
Proof. intros [[-> ->]|H]; [done|]. by apply holding_sz in H as (_ & ? & _). Qed.

Lemma readpdu_held stale f k p a l rest :
  at_byte f k p -> (k < length f)%nat -> (k = 0 -> 4 <= length a)%nat -> frame_ok f ->
  a ++ l = drop k f ++ rest ->
  exists p', readpdu (ReadEnv (os_read 4 a) (fun n => os_read n (if sz p =? 0 then drop 4 a else a)) true stale) p
    = Ret (true, p') /\ holding f (k + min (length f - k) (length a)) p'.
Proof.
  intros [[-> ->]|Hh] Hk H4 Hf Hl; unfold readpdu.
  - specialize (H4 eq_refl). set (e := ReadEnv _ _ _ _).
    destruct (read_size_ok e f a l rest) as (p & E & Hp); try done.
    cbn [sz charbuf_new Z.eqb]. rstep E. destruct Hf as [Hf _].
    destruct (read_body_held e f 4 p (drop 4 a) rest) as (p' & E' & Hp'); try done; try lia.
    { exists l. transitivity (drop 4 (a ++ l)); [by rewrite drop_app_le|].
      rewrite Hl, drop_0. by rewrite drop_app_le by lia. }
    exists p'. split; [done|]. rewrite length_drop in Hp'.
    replace (0 + _)%nat with (4 + min (length f - 4) (length a - 4))%nat by lia. done.
  - destruct (holding_sz _ _ _ Hh) as (Es & _). rewrite Es. destruct Hf as [Hf _].
    destruct (Z.eqb_spec (lenZ f) 0); [lia|].
    apply (read_body_held _ f k p a rest); try done; [lia|by exists l].
Qed.

(** One read callback on an open connection. *)
Lemma read_cb_held accepted stale σ f k rest :
  dead_ (conn σ) = false -> at_byte f k (rpdu_ (conn σ)) -> frame_ok f ->
  unsplit (Readable accepted stale) σ ->
  arrived σ ++ in_flight σ = drop k f ++ rest ->
  let k' := (k + min (length f - k) (length (arrived σ)))%nat in
  exists c' gs, rx_step (Readable accepted stale) σ
      = Ret (Rx c' (drop (k' - k) (arrived σ)) (in_flight σ) (got σ ++ gs)) /\
    dead_ c' = false /\
    if decide (k' = length f /\ accepted = true)
    then gs = [Some <$> f] /\ rpdu_ c' = charbuf_new
    else gs = [] /\ holding f k' (rpdu_ c').
Proof.
  intros Hd Hat Hf Hu Hs k'. pose proof Hf as [Hf' _].
  assert (Hkf : (k <= length f)%nat) by (destruct Hat as [[-> _]|[[? ?] _]]; lia).
  assert (exists p', (if bool_decide (buf (rpdu_ (conn σ)) = None) || (solong (rpdu_ (conn σ)) <? sz (rpdu_ (conn σ)))
    then readpdu (rx_env stale σ) (rpdu_ (conn σ)) else Ret (true, rpdu_ (conn σ))) = Ret (true, p') /\
    holding f k' p') as (p' & Er & Hp').
  { destruct (decide (k = length f)) as [->|].
    - destruct Hat as [[? _]|Hh]; [lia|]. destruct (holding_sz _ _ _ Hh) as (-> & -> & ?).
      rewrite bool_decide_false by done. rewrite Z.ltb_irrefl. cbn [orb].
      eexists; split; [done|]. subst k'. replace (_ + _)%nat with (length f) by lia. done.
    - destruct (readpdu_held stale f k (rpdu_ (conn σ)) (arrived σ) (in_flight σ) rest) as (p' & E & Hp');
        try done; [lia| |].
      { intros ->. destruct Hat as [[_ E]|[? _]]; [|lia]. cbn in Hu. rewrite E in Hu. specialize (Hu eq_refl). lia. }
      exists p'. split; [|done]. replace (_ || _) with true; [done|]. symmetry.
      destruct Hat as [[_ ->]|Hh]; [done|]. destruct (holding_sz _ _ _ Hh) as (-> & -> & _).
      apply orb_true_iff. right. lia. }
  pose proof (at_byte_solong _ _ _ Hat) as Hso.
  destruct Hp' as [Hr' (b & Ep & Hb & Ht)]. unfold rx_step, read_cb. rewrite Z.eqb_refl. unfold verify.
  rewrite Hd. rstep Er. subst p'. cbn [negb buf sz solong].
  assert (Hk' : Z.to_nat (Z.of_nat k' - Z.of_nat k) = (k' - k)%nat) by lia.
  destruct (decide (k' = length f)) as [E|E].
  - rewrite E, Z.eqb_refl. cbn [app mbind res_bind]. unfold taken, consumed. cbn [last].
    rewrite E in Hk'. rewrite Hso, Hk', Nat2Z.id. rewrite E in Ht. rewrite Ht, take_ge by lia.
    destruct accepted.
    + eexists _, _. split; [done|]. split; [done|]. rewrite decide_True by done. done.
    + eexists _, _. split; [done|]. split; [done|]. rewrite decide_False by naive_solver. split; [done|].
      rewrite E in Hr'. split; [lia|]. eexists; split; [done|]. split; [done|]. by rewrite Ht, take_ge by lia.
  - destruct (Z.eqb_spec (lenZ f) (Z.of_nat k')); [lia|]. cbn [mbind res_bind].
    unfold taken, consumed. cbn [last rpdu_ set_rpdu solong]. rewrite Hso, Hk'.
    eexists _, _. split; [done|]. split; [done|]. rewrite decide_False by naive_solver. split; [done|].
    split; [lia|]. by exists b.
Qed.

Definition written (f : bytes) : list cell := Some <$> f.

(** Some PDUs were delivered, one may be half read, the rest is to come. *)
Record rx_inv (frames : list bytes) (done rest : list bytes) (k : nat) (σ : rx) : Prop := RxInv {
  ri_split : frames = done ++ rest;
  ri_got : got σ = written <$> done;
  ri_dead : dead_ (conn σ) = false;
  ri_here : match rest with
            | [] => rpdu_ (conn σ) = charbuf_new /\ arrived σ ++ in_flight σ = []
            | f :: rest => at_byte f k (rpdu_ (conn σ)) /\
                arrived σ ++ in_flight σ = drop k f ++ concat rest
            end
}.

Definition rx_new (fd lossy : Z) (now : timeval) (stream : bytes) : rx :=
  Rx (connection_new fd lossy now).2 [] stream [].

Lemma rx_inv_new frames fd lossy now : rx_inv frames [] frames 0 (rx_new fd lossy now (concat frames)).
Proof.
  split; try done. destruct frames as [|f frames]; cbn; [done|]. split; [by left|]. by rewrite drop_0.
Qed.

Lemma at_byte_start f : at_byte f 0 charbuf_new.
Proof. by left. Qed.

(** One callback on a PDU that has begun to arrive. *)
Lemma rx_inv_readable frames done f rest k σ accepted stale :
  Forall frame_ok frames -> rx_inv frames done (f :: rest) k σ -> unsplit (Readable accepted stale) σ ->
  let k' := (k + min (length f - k) (length (arrived σ)))%nat in
  exists σ', rx_step (Readable accepted stale) σ = Ret σ' /\
    arrived σ' = drop (k' - k) (arrived σ) /\ in_flight σ' = in_flight σ /\
    if decide (k' = length f /\ accepted = true)
    then rx_inv frames (done ++ [f]) rest 0 σ'
    else rx_inv frames done (f :: rest) k' σ' /\ (4 <= k')%nat.
Proof.
  intros Hf [Hsp Hg Hd [Hat Hs]] Hu k'.
  assert (frame_ok f) as Hff by (subst frames; apply Forall_app in Hf as [_ Hf]; by apply Forall_inv in Hf).
  destruct (read_cb_held accepted stale σ f k (concat rest)) as (c' & gs & E & Hd' & Hcase); try done.
  fold k' in E, Hcase. eexists; split; [done|]. cbn [arrived in_flight]. do 2 (split; [done|]).
  assert (Hrest : drop (k' - k) (arrived σ) ++ in_flight σ = drop k' f ++ concat rest).
  { transitivity (drop (k' - k) (arrived σ ++ in_flight σ)); [rewrite drop_app_le by lia; done|].
    assert (k <= length f)%nat by (destruct Hat as [[-> _]|[[? ?] _]]; lia).
    rewrite Hs, drop_app_le by (rewrite length_drop; lia). rewrite drop_drop. f_equal. f_equal. lia. }
  destruct (decide (k' = length f /\ accepted = true)) as [[Ek _]|_]; destruct Hcase as [-> Hr].
  - split; cbn; [by rewrite Hsp, <- app_assoc|by rewrite Hg, fmap_app|done|].
    rewrite Ek, drop_all in Hrest. cbn in Hrest.
    destruct rest as [|f' rest]; cbn; [rewrite Hr; split; [done|]; by rewrite Ek|].
    rewrite Hr. split; [apply at_byte_start|]. rewrite Ek, Hrest, drop_0. done.
  - pose proof (ho_range _ _ _ Hr). split; [|lia].
    split; cbn; [done|by rewrite app_nil_r|done|]. split; [by right|done].
Qed.

Lemma rx_inv_arrive frames done rest k σ n :
  rx_inv frames done rest k σ -> exists σ', rx_step (Arrive n) σ = Ret σ' /\ rx_inv frames done rest k σ'.
Proof.
  intros [Hsp Hg Hd Hh]. eexists; split; [done|]. split; cbn; try done.
  rewrite <- app_assoc, take_drop. done.
Qed.

Lemma rx_inv_run frames evs σ done rest k :
  Forall frame_ok frames -> rx_inv frames done rest k σ -> unsplit_run evs σ ->
  exists σ' done' rest' k', rx_run evs σ = Ret σ' /\ rx_inv frames done' rest' k' σ'.
Proof.
  intros Hf. revert σ done rest k. induction evs as [|ev evs IH]; intros σ done rest k Hi Hu.
  { exists σ, done, rest, k. done. }
  cbn in Hu. destruct Hu as [Hu Hrun]. destruct ev as [n|accepted stale].
  - destruct (rx_inv_arrive frames done rest k σ n Hi) as (σ' & E & Hi').
    cbn [rx_run]. rstep E. rewrite E in Hrun. by apply (IH _ _ _ _ Hi').
  - destruct rest as [|f rest].
    { destruct Hi as [_ _ _ [Hr Ha]]. cbn in Hu. rewrite Hr in Hu. specialize (Hu eq_refl).
      apply app_eq_nil in Ha as [Ha _]. rewrite Ha in Hu. cbn in Hu. lia. }
    destruct (rx_inv_readable frames done f rest k σ accepted stale Hf Hi Hu) as (σ' & E & _ & _ & Hc).
    cbn [rx_run]. rstep E. rewrite E in Hrun. case_decide; [|destruct Hc as [Hc _]]; by apply (IH _ _ _ _ Hc).
Qed.

(** With nothing left to read, the PDUs are all delivered, or the last one
    is waiting for got_pdu to accept it. *)
Lemma rx_inv_end frames done rest k σ :
  Forall frame_ok frames -> rx_inv frames done rest k σ -> arrived σ = [] -> in_flight σ = [] ->
  (rest = [] /\ done = frames) \/ (exists f, rest = [f] /\ k = length f /\ buf (rpdu_ (conn σ)) <> None).
Proof.
  intros Hf [Hsp Hg Hd Hh] Ha Hfl. rewrite Ha, Hfl in Hh. destruct rest as [|f rest].
  { left. split; [done|]. by rewrite Hsp, app_nil_r. }
  right. destruct Hh as [Hat Hs]. symmetry in Hs. apply app_eq_nil in Hs as [Hs Hr].
  assert (Hf' : Forall frame_ok (f :: rest)) by (rewrite Hsp in Hf; by apply Forall_app in Hf as [_ ?]).
  apply Forall_cons in Hf' as [Hf1 Hf2]. destruct Hf1 as [Hf1 _].
  assert (length f <= k)%nat by (apply (f_equal length) in Hs; rewrite length_drop in Hs; cbn in Hs; lia).
  assert (rest = []) as ->.
  { destruct rest as [|f' rest]; [done|]. apply Forall_inv in Hf2 as [? _].
    apply (f_equal length) in Hr. cbn in Hr. rewrite length_app in Hr. lia. }
  exists f. split; [done|]. destruct Hat as [[-> _]|Hh]; [lia|].
  pose proof (ho_range _ _ _ Hh). split; [lia|]. by apply holding_sz in Hh as (_ & _ & ?).
Qed.

(** The poll loop's part: callbacks as long as there is data to read. *)
Fixpoint drain (n : nat) (σ : rx) : res rx :=
  match n with
  | O => Ret σ
  | S n => match arrived σ with
           | [] => Ret σ
           | _ => σ ← rx_step (Readable true false) σ; drain n σ
           end
  end.

Lemma concat_long f rest : frame_ok f -> 4 <= lenZ (f ++ concat rest).
Proof. intros [? _]. rewrite length_app. lia. Qed.

Lemma rx_inv_drain frames n σ done rest k :
  Forall frame_ok frames -> rx_inv frames done rest k σ -> in_flight σ = [] ->
  (length (arrived σ) + (if decide (hd_error rest = None \/ k <> length (hd [] rest)) then 0 else 1) <= n)%nat ->
  (arrived σ = [] -> buf (rpdu_ (conn σ)) = None) ->
  exists σ' k', drain n σ = Ret σ' /\ rx_inv frames frames [] k' σ'.
Proof.
  intros Hf. revert σ done rest k. induction n as [|n IH]; intros σ done rest k Hi Hfl Hn Hb; cbn [drain].
  - destruct (arrived σ) eqn:Ea; [|cbn in Hn; lia].
    destruct (rx_inv_end _ _ _ _ _ Hf Hi Ea Hfl) as [[-> ->]|(f & _ & _ & Hbf)]; [eauto|]. by destruct (Hbf (Hb eq_refl)).
  - destruct (arrived σ) eqn:Ea.
    { destruct (rx_inv_end _ _ _ _ _ Hf Hi Ea Hfl) as [[-> ->]|(f & _ & _ & Hbf)]; [eauto|]. by destruct (Hbf (Hb eq_refl)). }
    destruct rest as [|f rest].
    { destruct (ri_here _ _ _ _ _ Hi) as [_ Hs]. rewrite Ea in Hs. done. }
    destruct (rx_inv_readable frames done f rest k σ true false Hf Hi) as (σ' & E & Ha' & Hfl' & Hc).
    { intros Hnone. destruct (ri_here _ _ _ _ _ Hi) as [[[-> _]|Hh] Hs].
      - rewrite Hfl, app_nil_r, drop_0 in Hs. rewrite Hs. apply concat_long.
        pose proof (ri_split _ _ _ _ _ Hi) as ->. apply Forall_app in Hf as [_ Hf]. by apply Forall_inv in Hf.
      - by apply holding_sz in Hh as (_ & _ & ?). }
    rstep E. set (k' := (k + _)%nat) in *.
    assert (Hk : (k <= length f)%nat)
      by (destruct (ri_here _ _ _ _ _ Hi) as [[[-> _]|[? _]] _]; lia).
    assert (Hlen : length (arrived σ') = (length (arrived σ) - (k' - k))%nat) by (rewrite Ha', length_drop; done).
    rewrite Ea in Hlen. cbn [length] in Hlen, Hn. cbn [hd_error hd] in Hn.
    assert (k' = (k + min (length f - k) (S (length l)))%nat) as Hk' by (subst k'; rewrite Ea; done).
    destruct (decide (k' = length f /\ true = true)) as [[Ek _]|Ek].
    + apply (IH _ _ _ _ Hc); [by rewrite Hfl'| |].
      * assert (Hnf : hd_error rest = None \/ 0%nat <> length (hd [] rest)).
        { destruct rest as [|f' rest]; [by left|right]. cbn.
          pose proof (ri_split _ _ _ _ _ Hi) as Hs. rewrite Hs in Hf. apply Forall_app in Hf as [_ Hf].
          apply Forall_inv_tail, Forall_inv in Hf as [? _]. lia. }
        rewrite decide_True by done. case_decide; cbn in *; try lia.
        destruct (decide (k = length f)); [|lia]. naive_solver.
      * intros Ha0. destruct (rx_inv_end _ _ _ _ _ Hf Hc Ha0 ltac:(by rewrite Hfl')) as [[-> _]|(f' & -> & Hkf & _)].
        { by destruct (ri_here _ _ _ _ _ Hc) as [-> _]. }
        destruct (ri_here _ _ _ _ _ Hc) as [[[_ ->]|Hh] _]; [done|]. pose proof (ho_range _ _ _ Hh). lia.
    + destruct Hc as [Hc Hk4]. assert (Hne : k' <> length f) by naive_solver.
      apply (IH _ _ _ _ Hc); [by rewrite Hfl'| |].
      * cbn [hd_error hd]. rewrite decide_True by (right; done). case_decide; lia.
      * intros Ha0. destruct (rx_inv_end _ _ _ _ _ Hf Hc Ha0 ltac:(by rewrite Hfl')) as [[? _]|(f' & [= <- ->] & Hkf & _)]; done.
Qed.

(** ** Theorems on reading *)

(** C26: in runs in which no size field is met half arrived, and no read of
    one finds nothing there ([unsplit_run]: the code closes the connection
    in the first case and ends the process in the second), with PDUs longer
    than their size field and at most MAX_PDU: whatever way the stream of a
    peer is otherwise cut into arrivals and however often got_pdu refuses, a
    connection does not fail a VERIFY, does not store out of bounds and
    stays open, and what got_pdu has consumed is always an initial part of
    the PDUs sent, whole and in order: all of them when the stream has been
    read and no refused PDU is left. *)
Theorem connection_delivers (frames : list bytes) (evs : list rx_event) (fd lossy : Z) (now : timeval) :
  Forall frame_ok frames ->
  unsplit_run evs (rx_new fd lossy now (concat frames)) ->
  exists σ, rx_run evs (rx_new fd lossy now (concat frames)) = Ret σ /\ dead_ (conn σ) = false /\
    got σ `prefix_of` (written <$> frames) /\
    (arrived σ = [] -> in_flight σ = [] -> buf (rpdu_ (conn σ)) = None -> got σ = written <$> frames).
Proof.
  intros Hf Hu. destruct (rx_inv_run frames evs _ _ _ _ Hf (rx_inv_new frames fd lossy now) Hu)
    as (σ & done & rest & k & E & Hi).
  exists σ. split; [done|]. split; [apply Hi|]. split.
  - rewrite (ri_got _ _ _ _ _ Hi), (ri_split _ _ _ _ _ Hi), fmap_app. by eexists.
  - intros Ha Hfl Hb. destruct (rx_inv_end _ _ _ _ _ Hf Hi Ha Hfl) as [[_ <-]|(f & _ & _ & ?)]; [apply Hi|done].
Qed.

(** Reading makes progress: once the rest of the stream has arrived,
    at most one callback more than there are bytes delivers every PDU that
    is left, if got_pdu now accepts and a callback still comes. *)
Theorem connection_drains (frames : list bytes) (evs : list rx_event) (fd lossy : Z) (now : timeval) (σ : rx) :
  Forall frame_ok frames ->
  unsplit_run evs (rx_new fd lossy now (concat frames)) ->
  rx_run evs (rx_new fd lossy now (concat frames)) = Ret σ ->
  in_flight σ = [] -> (arrived σ = [] -> buf (rpdu_ (conn σ)) = None) ->
  exists σ', drain (S (length (arrived σ))) σ = Ret σ' /\ got σ' = written <$> frames /\
    arrived σ' = [] /\ dead_ (conn σ') = false.
Proof.
  intros Hf Hu Hr Hfl Hb. destruct (rx_inv_run frames evs _ _ _ _ Hf (rx_inv_new frames fd lossy now) Hu)
    as (σ0 & done & rest & k & E & Hi). rewrite Hr in E. injection E as <-.
  destruct (rx_inv_drain frames (S (length (arrived σ))) σ done rest k) as (σ' & k' & E & Hi'); try done.
  { case_decide; lia. }
  exists σ'. split; [done|]. split; [apply Hi'|]. destruct (ri_here _ _ _ _ _ Hi') as [_ Ha].
  apply app_eq_nil in Ha as [? _]. split; [done|apply Hi'].
Qed.

(** Three PDUs; the second arrives in two parts and is refused once. *)
Definition ping : bytes := be4 6 ++ str "hi".
Definition pong : bytes := be4 9 ++ str "there".
Definition three_pdus : list rx_event :=
  [Arrive 4; Readable true false; Arrive 6; Readable true true; Readable true false; Arrive 11; Readable false false].

Lemma connection_delivers_witness :
  exists σ, rx_run (take 6 three_pdus) (rx_new 5 0 (Timeval 0 0) (concat [ping; pong; ping])) = Ret σ /\
    dead_ (conn σ) = false /\ got σ `prefix_of` (written <$> [ping; pong; ping]) /\
    (arrived σ = [] -> in_flight σ = [] -> buf (rpdu_ (conn σ)) = None ->
     got σ = written <$> [ping; pong; ping]).
Proof.
  apply (connection_delivers [ping; pong; ping] (take 6 three_pdus) 5 0 (Timeval 0 0)).
  - repeat constructor; vm_compute; discriminate.
  - vm_compute. repeat split; intros; discriminate.
Defined.

Lemma connection_drains_witness :
  exists σ, rx_run three_pdus (rx_new 5 0 (Timeval 0 0) (concat [ping; pong; ping])) = Ret σ /\
  exists σ', drain (S (length (arrived σ))) σ = Ret σ' /\ got σ' = written <$> [ping; pong; ping] /\
    arrived σ' = [] /\ dead_ (conn σ') = false.
Proof.
  eexists. split; [vm_compute; reflexivity|].
  apply (connection_drains [ping; pong; ping] three_pdus 5 0 (Timeval 0 0)).
  - repeat constructor; vm_compute; discriminate.
  - vm_compute. repeat split; intros; discriminate.
  - vm_compute. reflexivity.
  - vm_compute. reflexivity.
  - vm_compute. discriminate.
Defined.

(** C37: the sizes a peer can send that make readpdu leave the memory it
    allocated (or overflow an int): below 4, where the count of the second
    read wraps around, and the four smallest ones.  No other size does,
    however much data the peer sends. *)
Theorem readpdu_undefined (e : read_env) (h : bytes) :
  header_read e = RData h -> lenZ h = 4 -> malloc_ok e = true ->
  (forall n d, body_read e n = RData d -> lenZ d <= n) ->
  readpdu e charbuf_new = Crash Undefined <->
    ntohl h < - 2 ^ 31 + 4 \/ -4 <= ntohl h < 0 \/
    (0 <= ntohl h < 4 /\ exists d, body_read e (u32 (ntohl h - 4)) = RData d /\ ntohl h < lenZ d).
Proof.
  intros He Hh Hm Hread. assert (Hi : is_i32 (ntohl h)) by apply i32_range. unfold is_i32 in Hi.
  unfold readpdu, read_size. cbn [sz charbuf_new Z.eqb]. rewrite He, Hh, Hm. cbn [Z.eqb Pos.eqb negb].
  set (n := ntohl h) in *. rewrite Z.gtb_ltb, MAX_PDU_eq. bcase.
  { cbn. split; [discriminate|lia]. }
  unfold verify. cbn [buf]. rewrite bool_decide_true by done. unfold bcopy.
  rewrite length_fmap, length_replicate, Hh, Z2Nat.id by apply u32_range.
  assert (Hcap : u32 (n + 4) = if n <? -4 then n + 4 + 2 ^ 32 else n + 4)
    by (unfold u32; bcase; Z.div_mod_to_equations; lia).
  assert (Hcnt : u32 (n - 4) = if n <? 4 then n - 4 + 2 ^ 32 else n - 4)
    by (unfold u32; bcase; Z.div_mod_to_equations; lia).
  bcase; cbn [mbind res_bind]; [|split; [intros _; right; left; revert Hcap; bcase|done]].
  unfold read_body. cbn [buf sz solong]. unfold chk_int.
  destruct (Z.leb_spec (- 2 ^ 31) (n - 4)); cbn [andb]; [|split; [lia|done]].
  destruct (Z.ltb_spec (n - 4) (2 ^ 31)); [|lia]. cbn [mbind res_bind].
  destruct (body_read e (u32 (n - 4))) as [d| | |] eqn:Eb;
    try (split; [try destruct (stale_eagain e); discriminate|intros [?|[?|(_ & d & [=] & _)]];
         [lia|revert Hcap; bcase]]).
  apply Hread in Eb. rewrite length_app, length_fmap, length_drop, length_replicate.
  assert (Hroom : (length h + (Z.to_nat (u32 (n + 4)) - length h))%nat = Z.to_nat (u32 (n + 4))) by lia.
  rewrite Hroom, Z2Nat.id by apply u32_range. cbn [Z.leb Z.compare andb].
  destruct (Z.leb_spec (4 + lenZ d) (u32 (n + 4))); (split; [try discriminate|try done]).
  - intros [?|[?|(? & d' & [= <-] & ?)]]; [lia|revert Hcap; bcase|revert Hcap; bcase].
  - intros _. destruct (Z.ltb_spec n (-4)), (Z.ltb_spec n 4); [lia|lia| |lia].
    right; right. split; [lia|]. exists d. split; [done|lia].
Qed.

(** A size of 2 followed by three bytes. *)
Lemma readpdu_undefined_witness :
  readpdu (ReadEnv (RData (be4 2)) (fun n => os_read n (str "abc")) true false) charbuf_new = Crash Undefined.
Proof.
  apply (readpdu_undefined _ (be4 2)); [done|done|done| |].
  - intros n d. apply os_read_count.
  - right. right. split; [vm_compute; split; [discriminate|reflexivity]|].
    exists (str "abc"). split; reflexivity.
Defined.

(** ** The listening side, class tcpsconn *)

(** std::map<int, connection *>, in the order of its keys. *)
Record tcpsconn := Tcpsconn { conns_ : list (Z * connection) }.

Fixpoint map_set (k : Z) (c : connection) (m : list (Z * connection)) : list (Z * connection) :=
  match m with
  | [] => [(k, c)]
  | (k', c') :: m =>
      if k <? k' then (k, c) :: (k', c') :: m
      else if k =? k' then (k, c) :: m else (k', c') :: map_set k c m
  end.

(** The garbage collector of process_accept: the connection it finds dead
    and otherwise unreferenced is deleted and erased from the map, and then
    the erased iterator is incremented. *)
Definition collectable (c : connection) : bool := isdead c && (ref c =? 1).

Fixpoint gc (conns : list (Z * connection)) : res unit :=
  match conns with
  | [] => Ret tt
  | (_, c) :: conns =>
      if collectable c then _ ← decref c; Crash Undefined else gc conns
  end.

(** process_accept after accept returned [s1]; a negative [s1] ends the
    thread. *)
Definition process_accept (s1 lossy : Z) (now : timeval) (l : tcpsconn)
  : res (option (list effect * tcpsconn)) :=
  if s1 <? 0 then Ret None
  else
    let '(fx, ch) := connection_new s1 lossy now in
    _ ← gc (conns_ l);
    Ret (Some (fx, Tcpsconn (map_set (fd_ ch) ch (conns_ l)))).

(** One turn of accept_conn: [ret] is the result of select, [eintr]
    whether it was interrupted, the flags the two FD_ISSET tests. *)
Inductive accepting :=
| Again (fx : list effect) (l : tcpsconn)
| Closed
| ThreadExit.

Definition accept_conn (ret : Z) (eintr pipe_set tcp_set : bool) (s1 lossy : Z) (now : timeval)
    (l : tcpsconn) : res accepting :=
  if ret <? 0 then (if eintr then Ret (Again [] l) else Crash AssertFailed)
  else if pipe_set then Ret Closed
  else if tcp_set then
    r ← process_accept s1 lossy now l;
    Ret (match r with Some (fx, l) => Again fx l | None => ThreadExit end)
  else Crash AssertFailed.

(** The destructor closes and releases every connection. *)
Definition tcpsconn_destroy (l : tcpsconn) : res (list (list effect)) :=
  let fix go (cs : list (Z * connection)) :=
    match cs with
    | [] => Ret []
    | (_, c) :: cs =>
        let '(fx, c) := closeconn c in
        _ ← decref c; rest ← go cs; Ret (fx :: rest)
    end in
  go (conns_ l).

(** connect_to_dst: [s] is the socket, [ok] whether connect succeeded. *)
Definition connect_to_dst (s : Z) (ok : bool) (lossy : Z) (now : timeval)
  : option (list effect * connection) :=
  if ok then Some (connection_new s lossy now) else None.

(** tcpsconn::process_accept adds the accepted connection under its
    descriptor and keeps the others, as long as there is nothing to
    collect; the first time a connection is dead and only the map refers to
    it, the process does not survive the collection. *)
Theorem process_accept_collects (s1 lossy : Z) (now : timeval) (l : tcpsconn) :
  0 <= s1 ->
  if existsb (fun kc => collectable kc.2) (conns_ l)
  then exists f, process_accept s1 lossy now l = Crash f
  else process_accept s1 lossy now l =
    Ret (Some ([AddCallback CB_RDONLY],
               Tcpsconn (map_set s1 (Connection s1 false charbuf_new charbuf_new now 0 1 lossy) (conns_ l)))).
Proof.
  intros Hs. unfold process_accept. bcase. cbn [connection_new]. destruct (existsb _ _) eqn:E.
  - assert (exists f, gc (conns_ l) = Crash f) as (f & ->); [|by exists f].
    induction (conns_ l) as [|[k c] cs IH]; [done|]. cbn in *. destruct (collectable c); [|by apply IH].
    destruct (decref c); cbn; eauto.
  - assert (gc (conns_ l) = Ret tt) as ->; [|done].
    induction (conns_ l) as [|[k c] cs IH]; [done|]. cbn in *. destruct (collectable c); [done|]. by apply IH.
Qed.

Definition dead_conn : connection := Connection 7 true charbuf_new charbuf_new (Timeval 1 0) 0 1 0.

Lemma process_accept_collects_witness :
  exists f, process_accept 8 0 (Timeval 2 0) (Tcpsconn [(7, dead_conn)]) = Crash f.
Proof. apply (process_accept_collects 8 0 (Timeval 2 0) (Tcpsconn [(7, dead_conn)])). lia. Defined.

End connection.
