(* ===== verification/ConnSend.v ===== *)
(** * The threads of one connection (rpc/connection.cc)

    Any number of threads are in send, the poll thread runs write_cb and
    read_cb, and any thread may call closeconn; each runs under m_, given
    up only in a wait or in block_remove_fd.  The relation [step]
    interleaves the stretches of Connection.v.  Callbacks may come at any
    time, whether or not the poll manager watches the descriptor. *)

From Stdlib Require Import ZArith Lia.
From stdpp Require Import base list sets relations.
From S2P Require Import Prelude Marshall PollMgr Connection.

#[local] Open Scope Z_scope.

Module conn_send.
Import connection.

(** A thread that is inside send: where it waits, and whether its
    condition variable has been signalled since it began to wait. *)
Record sender := Sender { s_buf : list cell; s_sz : Z; s_at : send_state; s_woken : bool }.

Record sys := Sys {
  conn : connection;
  senders : list sender;
  out : list cell;                     (* everything written to the socket *)
  returned : list (list cell * Z * bool);  (* the sends that returned, in order *)
  watched : bool;                      (* fd_ is watched for writing *)
  closed : bool                        (* closeconn has marked it dead *)
}.

Definition wake (at_ : send_state -> bool) (s : sender) : sender :=
  if at_ (s_at s) then Sender (s_buf s) (s_sz s) (s_at s) true else s.
Definition on_wait (st : send_state) : bool := match st with SendWait => true | _ => false end.
Definition on_complete (st : send_state) : bool := match st with SendComplete => true | _ => false end.

(** The effect of an effect on the threads and the write watch.  Only one
    thread ever waits on send_complete_, so a signal wakes it. *)
Definition effect_senders (ss : list sender) (x : effect) : list sender :=
  match x with
  | SignalComplete => wake on_complete <$> ss
  | BroadcastWait => wake on_wait <$> ss
  | _ => ss
  end.
Definition effect_watched (b : bool) (x : effect) : bool :=
  match x with
  | AddCallback CB_WRONLY | AddCallback CB_RDWR => true
  | DelCallback CB_WRONLY | DelCallback CB_RDWR | BlockRemove => false
  | _ => b
  end.

Definition apply (fx : list effect) (c : connection) (ss : list sender) (o : list cell) (σ : sys) : sys :=
  Sys c (fold_left effect_senders fx ss) (out σ ++ o) (returned σ)
    (fold_left effect_watched fx (watched σ)) (closed σ).

(** The thread that ran: it waits again, or its send returns. *)
Definition settle (b : list cell) (n : Z) (st : send_state) (σ : sys) : sys :=
  match st with
  | SendReturn r => Sys (conn σ) (senders σ) (out σ) (returned σ ++ [(b, n, r)]) (watched σ) (closed σ)
  | _ => Sys (conn σ) (Sender b n st false :: senders σ) (out σ) (returned σ) (watched σ) (closed σ)
  end.

(** write takes at most what it was given. *)
Definition write_ok (w : wres) (p : charbuf) : Prop :=
  match w with Wrote n => 0 <= n <= sz p - solong p | _ => True end.

(** A buffer to send: its size field and [n] bytes in all. *)
Definition sendable (b : list cell) (n : Z) : Prop := 4 <= n <= lenZ b /\ n < 2 ^ 31.

(** [spurious] admits waits that end without a signal. *)
Inductive step (spurious : bool) (σ : sys) : sys -> Prop :=
| s_send b n draw w st fx o c :
    sendable b n -> write_ok w (Charbuf (Some b) n 0) ->
    send b n draw w (conn σ) = Ret (st, fx, o, c) ->
    step spurious σ (settle b n st (apply fx c (senders σ) o σ))
| s_wait l1 s l2 draw w st fx o c :
    senders σ = l1 ++ s :: l2 -> s_at s = SendWait -> spurious || s_woken s = true ->
    write_ok w (Charbuf (Some (s_buf s)) (s_sz s) 0) ->
    send_wait (s_buf s) (s_sz s) draw w (conn σ) = Ret (st, fx, o, c) ->
    step spurious σ (settle (s_buf s) (s_sz s) st (apply fx c (l1 ++ l2) o σ))
| s_complete l1 s l2 st fx c :
    senders σ = l1 ++ s :: l2 -> s_at s = SendComplete -> spurious || s_woken s = true ->
    send_complete (conn σ) = (st, fx, c) ->
    step spurious σ (settle (s_buf s) (s_sz s) st (apply fx c (l1 ++ l2) [] σ))
| s_removed l1 s l2 st fx c :
    senders σ = l1 ++ s :: l2 -> s_at s = SendRemove ->
    send_finish (conn σ) = (st, fx, c) ->
    step spurious σ (settle (s_buf s) (s_sz s) st (apply fx c (l1 ++ l2) [] σ))
| s_write_cb w fx o c :
    write_ok w (wpdu_ (conn σ)) -> write_cb (fd_ (conn σ)) w (conn σ) = Ret (fx, o, c) ->
    step spurious σ (apply fx c (senders σ) o σ)
| s_read_cb e accepted fx c :
    read_cb (fd_ (conn σ)) e accepted (conn σ) = Ret (fx, c) ->
    step spurious σ (apply fx c (senders σ) [] σ)
| s_close fx c :
    closeconn (conn σ) = (fx, c) ->
    let σ' := apply fx c (senders σ) [] σ in
    step spurious σ (Sys (conn σ') (senders σ') (out σ') (returned σ') (watched σ')
      (closed σ' || negb (dead_ (conn σ)))).

Definition sys_new (fd lossy : Z) (now : timeval) : sys :=
  Sys (connection_new fd lossy now).2 [] [] [] false false.

Inductive reachable (spurious : bool) : sys -> Prop :=
| reach_init fd lossy now : reachable spurious (sys_new fd lossy now)
| reach_step σ σ' : reachable spurious σ -> step spurious σ σ' -> reachable spurious σ'.

(** The frames of the sends that returned true. *)
Definition sent_frames (l : list (list cell * Z * bool)) : list (list cell) :=
  omap (fun x => if x.2 : bool then Some (frame x.1.1 x.1.2) else None) l.

(** ** One PDU on its way out *)

(** The first [k] bytes of the PDU have been written. *)
Record writing (b : list cell) (n k : Z) (p : charbuf) : Prop := Writing {
  wr_range : 0 <= k <= n;
  wr_pdu : exists b', p = Charbuf (Some b') n k /\ length b' = length b /\ drop 4 b' = drop 4 b /\
    (0 < k -> take 4 b' = Some <$> be4 n)
}.

Lemma writing_start b n : sendable b n -> writing b n 0 (Charbuf (Some b) n 0).
Proof. intros [? _]. split; [lia|]. exists b. repeat split; done || lia. Qed.

Lemma take_frame b b' n :
  sendable b n -> length b' = length b -> drop 4 b' = drop 4 b -> take 4 b' = Some <$> be4 n ->
  take (Z.to_nat n) b' = frame b n.
Proof.
  intros [[H4 Hn] _] Hl Hd Ht. unfold frame. rewrite <- (take_drop 4 b'), Ht, Hd.
  replace (Z.to_nat n) with (4 + (Z.to_nat n - 4))%nat by lia.
  rewrite <- take_drop_commute, take_app_ge by (rewrite length_fmap; cbn; lia). f_equal.
  rewrite length_fmap. f_equal. cbn; lia.
Qed.

Lemma length_frame b n : sendable b n -> lenZ (frame b n) = n.
Proof.
  intros [[H4 Hn] _]. unfold frame. rewrite length_app, length_drop, length_take, length_fmap.
  change (length (be4 n)) with 4%nat. lia.
Qed.

Lemma writepdu_writing w b n k p ok o p' :
  sendable b n -> writing b n k p -> write_ok w p -> writepdu w p = Ret (ok, o, p') ->
  (ok = true /\ exists k', k <= k' /\ writing b n k' p' /\
     take (Z.to_nat k) (frame b n) ++ o = take (Z.to_nat k') (frame b n)) \/
  (ok = false /\ o = [] /\ exists b', p' = Charbuf (Some b') 0 (-1)).
Proof.
  intros Hs [Hk (b' & -> & Hl & Hd & Ht)] Hw. unfold writepdu, verify. cbn [solong sz buf].
  destruct (Z.leb_spec 0 k); [|lia]. destruct (Z.eqb_spec k n) as [->|Hkn].
  { intros [= <- <- <-]. left. split; [done|]. exists n. split; [lia|]. split; [|apply app_nil_r].
    split; [lia|]. by exists b'. }
  assert (exists b1, (if k =? 0 then bcopy (Some <$> be4 n) b' else Ret b') = Ret b1 /\
    length b1 = length b /\ drop 4 b1 = drop 4 b /\ take 4 b1 = Some <$> be4 n) as (b1 & E & Hl1 & Hd1 & Ht1).
  { destruct Hs as [Hs _]. destruct (Z.eqb_spec k 0); [|exists b'; split; [done|]; repeat split; try done; apply Ht; lia].
    unfold bcopy. rewrite length_fmap, length_be4. destruct (Z.leb_spec 4 (lenZ b')); [|lia].
    eexists; split; [done|]. rewrite length_app, length_drop, length_fmap. change (length (be4 n)) with 4%nat.
    split; [lia|]. by split. }
  rstep E. pose proof (take_frame b b1 n Hs Hl1 Hd1 Ht1) as Hfr.
  destruct w as [m| |]; cbn in Hw.
  - destruct (Z.leb_spec (k + m) (lenZ b1)); [|discriminate]. intros [= <- <- <-]. left. split; [done|].
    exists (k + m). split; [lia|]. split; [split; [lia|by exists b1]|].
    rewrite <- Hfr. rewrite !take_take. rewrite !Nat.min_l by lia.
    rewrite take_take_drop. f_equal. lia.
  - intros [= <- <- <-]. left. split; [done|]. exists k. split; [lia|]. split; [|apply app_nil_r].
    split; [lia|]. by exists b1.
  - intros [= <- <- <-]. right. eauto.
Qed.

Lemma frame_all b n : sendable b n -> take (Z.to_nat n) (frame b n) = frame b n.
Proof. intros Hs. apply take_ge. pose proof (length_frame b n Hs). lia. Qed.

(** One write that takes everything. *)
Lemma writepdu_all b :
  sendable b (lenZ b) ->
  writepdu (Wrote (lenZ b)) (Charbuf (Some b) (lenZ b) 0) =
    Ret (true, frame b (lenZ b), Charbuf (Some (frame b (lenZ b))) (lenZ b) (lenZ b)).
Proof.
  intros Hs. pose proof Hs as [H4 _]. unfold writepdu, verify. cbn [solong sz buf].
  rewrite Z.leb_refl, Z.eqb_refl. destruct (Z.eqb_spec 0 (lenZ b)); [lia|]. unfold bcopy. rewrite length_fmap, length_be4.
  destruct (Z.leb_spec 4 (lenZ b)); [|lia]. cbn [mbind res_bind].
  assert (Ef : (Some <$> be4 (lenZ b)) ++ drop (length (be4 (lenZ b))) b = frame b (lenZ b)).
  { unfold frame. by rewrite Nat2Z.id, firstn_all. }
  rewrite Ef, length_frame, Z.add_0_l, Z.leb_refl by done.
  rewrite drop_0, frame_all by done. done.
Qed.

(** ** Invariant *)

Definition waiting (ss : list sender) : list sender := filter (fun s => on_wait (s_at s) = true) ss.
(** The threads past the wait on send_wait_: at most one, it owns wpdu_. *)
Definition owners (ss : list sender) : list sender := filter (fun s => on_wait (s_at s) = false) ss.

Definition fits (s : sender) : Prop := sendable (s_buf s) (s_sz s).

(** Cells written after the last whole PDU come from a send that failed. *)
Definition broken_off (σ : sys) (p : list cell) : Prop :=
  p = [] \/ (dead_ (conn σ) = true /\ exists b n, (b, n, false) ∈ returned σ /\ p `prefix_of` frame b n).

Inductive wstate (σ : sys) : Prop :=
| w_idle p :
    owners (senders σ) = [] -> wpdu_ (conn σ) = charbuf_new ->
    out σ = concat (sent_frames (returned σ)) ++ p -> broken_off σ p -> wstate σ
| w_busy s k :
    owners (senders σ) = [s] -> s_at s = SendComplete -> fits s ->
    writing (s_buf s) (s_sz s) k (wpdu_ (conn σ)) ->
    out σ = concat (sent_frames (returned σ)) ++ take (Z.to_nat k) (frame (s_buf s) (s_sz s)) ->
    (dead_ (conn σ) = false -> watched σ = true) ->
    (s_woken s = false -> closed σ = true \/ (dead_ (conn σ) = false /\ k < s_sz s)) -> wstate σ
| w_failed s p b :
    owners (senders σ) = [s] -> s_at s = SendRemove \/ (s_at s = SendComplete /\ s_woken s = true) ->
    dead_ (conn σ) = true -> wpdu_ (conn σ) = Charbuf (Some b) 0 (-1) ->
    out σ = concat (sent_frames (returned σ)) ++ p -> p `prefix_of` frame (s_buf s) (s_sz s) -> wstate σ.

(** [d] is 1 while a thread that has raised waiters_ runs. *)
Record inv (d : Z) (σ : sys) : Prop := Inv {
  iv_state : wstate σ;
  iv_count : waiters_ (conn σ) = lenZ (waiting (senders σ)) + d;
  iv_fits : Forall fits (senders σ);
  iv_woken : forall s, s ∈ waiting (senders σ) -> s_woken s = false -> owners (senders σ) <> []
}.

Lemma wake_at f s : s_at (wake f s) = s_at s /\ s_buf (wake f s) = s_buf s /\ s_sz (wake f s) = s_sz s.
Proof. unfold wake. by destruct (f (s_at s)). Qed.

Lemma filter_wake f (t : bool) (ss : list sender) :
  filter (fun s => on_wait (s_at s) = t) (wake f <$> ss) = wake f <$> filter (fun s => on_wait (s_at s) = t) ss.
Proof.
  induction ss as [|s ss IH]; [done|]. rewrite fmap_cons, !filter_cons, IH.
  destruct (wake_at f s) as [E _]. rewrite E. by destruct (decide (on_wait (s_at s) = t)).
Qed.

Lemma owners_wake f ss : owners (wake f <$> ss) = wake f <$> owners ss.
Proof. apply filter_wake. Qed.
Lemma waiting_wake f ss : waiting (wake f <$> ss) = wake f <$> waiting ss.
Proof. apply filter_wake. Qed.

Lemma fits_wake f ss : Forall fits ss -> Forall fits (wake f <$> ss).
Proof.
  intros H. apply Forall_fmap. eapply Forall_impl; [exact H|]. intros s Hs. unfold compose, fits in *.
  by destruct (wake_at f s) as (_ & -> & ->).
Qed.

Lemma owners_cons s ss : owners (s :: ss) = if on_wait (s_at s) then owners ss else s :: owners ss.
Proof. unfold owners. rewrite filter_cons. by destruct (on_wait (s_at s)). Qed.
Lemma waiting_cons s ss : waiting (s :: ss) = if on_wait (s_at s) then s :: waiting ss else waiting ss.
Proof. unfold waiting. rewrite filter_cons. by destruct (on_wait (s_at s)). Qed.
Lemma owners_app l1 l2 : owners (l1 ++ l2) = owners l1 ++ owners l2.
Proof. apply filter_app. Qed.
Lemma waiting_app l1 l2 : waiting (l1 ++ l2) = waiting l1 ++ waiting l2.
Proof. apply filter_app. Qed.

Lemma not_waiting s ss : owners ss = [] -> s ∈ ss -> s_at s = SendWait.
Proof.
  intros Ho Hs. destruct (on_wait (s_at s)) eqn:E; [by destruct (s_at s)|].
  assert (s ∈ owners ss) as Hin by (apply list_elem_of_filter; done).
  rewrite Ho in Hin. by apply not_elem_of_nil in Hin.
Qed.

(** A broadcast wakes every thread of send_wait_. *)
Lemma all_woken ss s : s ∈ waiting (wake on_wait <$> ss) -> s_woken s = true.
Proof.
  rewrite waiting_wake. intros (s0 & -> & Hs)%list_elem_of_fmap.
  apply list_elem_of_filter in Hs as [Hs _]. unfold wake. by rewrite Hs.
Qed.

(** A signal wakes the thread that waits for its PDU. *)
Lemma signal_owner ss s :
  owners ss = [s] -> s_at s = SendComplete ->
  owners (wake on_complete <$> ss) = [Sender (s_buf s) (s_sz s) SendComplete true].
Proof. intros H E. rewrite owners_wake, H. cbn. unfold wake. by rewrite E. Qed.

Lemma inv_new fd lossy now : inv 0 (sys_new fd lossy now).
Proof.
  split; try done.
  - apply (w_idle _ []); try done. by left.
  - intros s Hs. by apply not_elem_of_nil in Hs.
Qed.

Lemma sent_frames_app l x : sent_frames (l ++ [x]) =
  sent_frames l ++ (if x.2 : bool then [frame x.1.1 x.1.2] else []).
Proof. unfold sent_frames. rewrite omap_app. cbn. by destruct x.2. Qed.

Lemma sent_frames_false l b n : sent_frames (l ++ [(b, n, false)]) = sent_frames l.
Proof. rewrite sent_frames_app. apply app_nil_r. Qed.

Lemma sent_frames_true l b n : concat (sent_frames (l ++ [(b, n, true)])) = concat (sent_frames l) ++ frame b n.
Proof. rewrite sent_frames_app, concat_app. cbn. by rewrite app_nil_r. Qed.

Lemma broken_off_weaken c ss o r wd cl b n (ret : bool) σ p :
  broken_off σ p -> dead_ c = dead_ (conn σ) -> r = returned σ ++ [(b, n, ret)] ->
  broken_off (Sys c ss o r wd cl) p.
Proof.
  intros [->|(Hd & b0 & n0 & Hin & Hp)] Hc ->; [by left|]. right. cbn. rewrite Hc. split; [done|].
  exists b0, n0. split; [|done]. apply elem_of_app. by left.
Qed.

(** The lossy test's shutdown is invisible to the threads. *)
Definition silent (fx : list effect) : Prop := Forall (fun x => x = Shutdown) fx.

Lemma silent_senders fx fx' ss : silent fx -> fold_left effect_senders (fx ++ fx') ss = fold_left effect_senders fx' ss.
Proof. intros H. rewrite fold_left_app. f_equal. induction H; [done|]. by subst. Qed.
Lemma silent_watched fx fx' b : silent fx -> fold_left effect_watched (fx ++ fx') b = fold_left effect_watched fx' b.
Proof. intros H. rewrite fold_left_app. f_equal. induction H; [done|]. by subst. Qed.

(** send_wait on a live, free connection. *)
Lemma send_wait_free b n draw w c st fx o c' :
  sendable b n -> write_ok w (Charbuf (Some b) n 0) -> dead_ c = false -> buf (wpdu_ c) = None ->
  send_wait b n draw w c = Ret (st, fx, o, c') ->
  waiters_ c' = waiters_ c - 1 /\ exists pre, silent pre /\
  ((st = SendRemove /\ fx = pre ++ [BlockRemove] /\ o = [] /\ dead_ c' = true /\
      exists b', wpdu_ c' = Charbuf (Some b') 0 (-1)) \/
   (st = SendReturn true /\ o = frame b n /\ dead_ c' = false /\ wpdu_ c' = charbuf_new /\
      fx = pre ++ if waiters_ c' >? 0 then [BroadcastWait] else []) \/
   (st = SendComplete /\ fx = pre ++ [AddCallback CB_WRONLY] /\ dead_ c' = false /\
      exists k, k < n /\ writing b n k (wpdu_ c') /\ o = take (Z.to_nat k) (frame b n))).
Proof.
  intros Hs Hw Hd Hb. unfold send_wait. rewrite Hd, Hb. cbn [negb andb dead_ set_waiters].
  rewrite bool_decide_false by (intros [? [=]]). rewrite Hd. intros H. rinv H. destruct a as [[ok o'] p'].
  cbn [wpdu_ set_wpdu] in E. 
  match type of H with context [if ?q then [Shutdown] else []] => set (pre := if q then [Shutdown] else []) in H end.
  assert (Hpre : silent pre) by (subst pre; destruct (_ && _); [by apply Forall_singleton|constructor]).
  destruct (writepdu_writing w b n 0 _ ok o' p' Hs (writing_start b n Hs) Hw E)
    as [[-> (k & _ & Hp & Ho)]|[-> [-> (b' & ->)]]]; cbn [negb] in H.
  - rewrite app_nil_l in Ho. pose proof Hp as [Hk (b' & Ep & _)]. rewrite Ep in H. cbn [solong sz] in H.
    destruct (Z.eqb_spec k n) as [->|Hkn].
    + unfold send_finish in H. cbn [dead_ set_wpdu set_waiters wpdu_ solong sz waiters_] in H.
      rewrite Hd, Z.eqb_refl in H. injection H as <- <- <- <-. split; [done|]. exists pre. split; [done|].
      right; left. rewrite Ho, frame_all by done. done.
    + unfold send_complete in H. cbn [dead_ set_wpdu set_waiters wpdu_ solong sz waiters_] in H.
      rewrite Hd in H. destruct (Z.leb_spec 0 k); [|lia]. destruct (Z.ltb_spec k n); [|lia].
      injection H as <- <- <- <-. split; [done|]. exists pre. split; [done|]. right; right.
      do 3 (split; [done|]). exists k. cbn. rewrite <- Ep. done.
  - injection H as <- <- <- <-. split; [done|]. exists pre. split; [done|]. left. cbn. eauto 10.
Qed.

Ltac fields := cbn [conn senders out returned watched closed waiters_ set_waiters set_wpdu set_dead set_rpdu
  dead_ wpdu_ s_at s_buf s_sz s_woken on_wait on_complete length].

Lemma inv_send_wait σ b n draw w st fx o c :
  inv 1 σ -> sendable b n -> write_ok w (Charbuf (Some b) n 0) ->
  send_wait b n draw w (conn σ) = Ret (st, fx, o, c) ->
  inv 0 (settle b n st (apply fx c (senders σ) o σ)).
Proof.
  intros [Hst Hc Hf Hw] Hs Hwr H.
  destruct (dead_ (conn σ)) eqn:Hd.
  { unfold send_wait in H. rewrite Hd in H. cbn in H. rewrite Hd in H. injection H as <- <- <- <-.
    unfold settle, apply. cbn [fold_left conn senders out returned watched closed]. rewrite app_nil_r.
    split; fields; [|lia|done|done].
    inversion Hst as [p Ho Hp Hout Hbr|s k Ho Hat Hfs Hp Hout Hwd Hwk|s p b0 Ho Hat Hdd Hp Hout Hpre].
    - apply (w_idle _ p); fields; try done; [by rewrite sent_frames_false|].
      by apply (broken_off_weaken _ _ _ _ _ _ b n false σ).
    - apply (w_busy _ s k); fields; try done. by rewrite sent_frames_false.
    - apply (w_failed _ s p b0); fields; try done. by rewrite sent_frames_false. }
  inversion Hst as [p Ho Hp Hout Hbr|s k Ho Hat Hfs Hp Hout Hwd Hwk|s p b0 Ho Hat Hdd Hp Hout Hpre]; [| |congruence].
  - destruct Hbr as [->|[? _]]; [|congruence]. rewrite app_nil_r in Hout.
    destruct (send_wait_free b n draw w (conn σ) st fx o c) as [Hwt (pre & Hsil & Hcase)]; try done.
    { by rewrite Hp. }
    destruct Hcase as [(-> & -> & -> & Hd' & b' & Hp')|[(-> & -> & Hd' & Hp' & ->)|(-> & -> & Hd' & k & Hk & Hp' & ->)]];
      unfold settle, apply; rewrite ?silent_senders, ?silent_watched by done;
      cbn [fold_left conn senders out returned watched closed effect_senders effect_watched].
    + split; fields; rewrite ?owners_cons, ?waiting_cons; fields; [|lia|by constructor|done].
      apply (w_failed _ (Sender b n SendRemove false) [] b'); fields; rewrite ?owners_cons; cbn;
        [by rewrite Ho|by left|done|done|by rewrite Hout|apply prefix_nil].
    + destruct (Z.gtb_spec (waiters_ c) 0) as [Hpos|Hnone]; cbn [fold_left effect_senders effect_watched].
      * split; fields; [|by rewrite waiting_wake, length_fmap; lia|by apply fits_wake|].
        -- apply (w_idle _ []); fields; rewrite ?owners_wake, ?Ho; try done; [|by left].
           by rewrite sent_frames_true, Hout, app_nil_r.
        -- intros s Hsin Hsw. apply all_woken in Hsin. congruence.
      * assert (waiting (senders σ) = []) as Hnw by (destruct (waiting (senders σ)); cbn in *; [done|lia]).
        split; fields; [|lia|done|rewrite Hnw; intros s Hsin; by apply not_elem_of_nil in Hsin].
        apply (w_idle _ []); fields; try done; [|by left]. by rewrite sent_frames_true, Hout, app_nil_r.
    + split; fields; rewrite ?owners_cons, ?waiting_cons; fields; [|lia|by constructor|done].
      apply (w_busy _ (Sender b n SendComplete false) k); fields; rewrite ?owners_cons; cbn;
        [by rewrite Ho|done|done|done|by rewrite Hout|done|by right].
  - unfold send_wait in H. destruct Hp as [Hk (b' & Ep & Hp')]. rewrite Hd, Ep in H. cbn [negb andb buf] in H.
    rewrite bool_decide_true in H by (by eexists). injection H as <- <- <- <-.
    unfold settle, apply. cbn [fold_left conn senders out returned watched closed]. rewrite app_nil_r.
    split; fields; rewrite ?owners_cons, ?waiting_cons; fields; [|lia|by constructor|by rewrite Ho].
    apply (w_busy _ s k); fields; rewrite ?owners_cons; fields; try done. split; [done|]. by exists b'.
Qed.

(** Taking a thread out of the list. *)
Lemma take_owner l1 s l2 s0 :
  owners (l1 ++ s :: l2) = [s0] -> on_wait (s_at s) = false -> s0 = s /\ owners (l1 ++ l2) = [] /\
  waiting (l1 ++ l2) = waiting (l1 ++ s :: l2).
Proof.
  rewrite !owners_app, !waiting_app, owners_cons, waiting_cons. intros H Hs. rewrite Hs in *.
  destruct (owners l1) as [|x l]; cbn in *.
  - by injection H as -> ->.
  - destruct l; discriminate.
Qed.

Lemma take_waiting l1 s l2 :
  on_wait (s_at s) = true -> owners (l1 ++ s :: l2) = owners (l1 ++ l2) /\
  length (waiting (l1 ++ s :: l2)) = S (length (waiting (l1 ++ l2))) /\
  (forall x, x ∈ waiting (l1 ++ l2) -> x ∈ waiting (l1 ++ s :: l2)).
Proof.
  rewrite !owners_app, !waiting_app, owners_cons, waiting_cons. intros ->.
  split; [done|]. split; [rewrite !length_app; cbn; lia|]. set_solver.
Qed.

Lemma wstate_senders ss σ :
  owners ss = owners (senders σ) -> wstate σ ->
  wstate (Sys (conn σ) ss (out σ) (returned σ) (watched σ) (closed σ)).
Proof.
  intros E [p|s k|s p b]; rewrite <- E in *.
  - by apply (w_idle _ p).
  - by apply (w_busy _ s k).
  - by apply (w_failed _ s p b).
Qed.

(** The owner's send ends. *)
Lemma inv_finish σ l1 s l2 st fx c :
  inv 0 σ -> senders σ = l1 ++ s :: l2 -> on_wait (s_at s) = false ->
  (dead_ (conn σ) = true \/ sz (wpdu_ (conn σ)) <= solong (wpdu_ (conn σ))) ->
  send_finish (conn σ) = (st, fx, c) ->
  inv 0 (settle (s_buf s) (s_sz s) st (apply fx c (l1 ++ l2) [] σ)).
Proof.
  intros [Hst Hc Hf Hw] El Hon Hend H. unfold send_finish in H. injection H as <- <- <-.
  assert (Hfl : Forall fits (l1 ++ l2)) by (rewrite El in Hf; rewrite !Forall_app, Forall_cons in *; tauto).
  set (r := negb (dead_ (conn σ)) && (solong (wpdu_ (conn σ)) =? sz (wpdu_ (conn σ)))).
  assert (exists p, owners (l1 ++ l2) = [] /\ waiting (l1 ++ l2) = waiting (senders σ) /\
    out σ = concat (sent_frames (returned σ ++ [(s_buf s, s_sz s, r)])) ++ p /\
    (p = [] \/ dead_ (conn σ) = true /\ r = false /\ p `prefix_of` frame (s_buf s) (s_sz s)))
    as (p & Ho' & Hwt & Hout' & Hp').
  { destruct Hst as [p Ho Hp Hout Hbr|s0 k Ho Hat Hfs Hp Hout Hwd Hwk|s0 p b0 Ho Hat Hdd Hp Hout Hpre].
    - assert (s_at s = SendWait) as Es
        by (apply (not_waiting s (senders σ)); [done|]; rewrite El; set_solver).
      by rewrite Es in Hon.
    - rewrite El in Ho. destruct (take_owner _ _ _ _ Ho Hon) as (-> & Ho' & Hwt). rewrite <- El in Hwt.
      pose proof Hp as [Hk (b' & Ep & _)]. subst r. rewrite Ep in *. cbn [solong sz] in *.
      destruct (dead_ (conn σ)) eqn:Hd; cbn [negb andb].
      + exists (take (Z.to_nat k) (frame (s_buf s) (s_sz s))). rewrite sent_frames_false.
        do 3 (split; [done|]). right. do 2 (split; [done|]). apply prefix_take.
      + destruct Hend as [|Hend]; [done|]. assert (k = s_sz s) as -> by lia. rewrite Z.eqb_refl.
        exists []. rewrite sent_frames_true, app_nil_r. do 2 (split; [done|]). rewrite frame_all in Hout by done.
        split; [done|by left].
    - rewrite El in Ho. destruct (take_owner _ _ _ _ Ho Hon) as (-> & Ho' & Hwt). rewrite <- El in Hwt.
      subst r. rewrite Hdd. cbn [negb andb]. exists p. rewrite sent_frames_false. do 3 (split; [done|]). by right. }
  unfold settle, apply. cbn [conn senders out returned watched closed]. rewrite app_nil_r.
  assert (Hbroken : forall c ss o wd cl, dead_ c = dead_ (conn σ) ->
    broken_off (Sys c ss o (returned σ ++ [(s_buf s, s_sz s, r)]) wd cl) p).
  { intros c ss o wd cl Hd. destruct Hp' as [->|(Hdead & -> & Hpre)]; [by left|]. right. cbn.
    split; [congruence|]. exists (s_buf s), (s_sz s). split; [set_solver|done]. }
  fold (charbuf_new). cbn [waiters_ set_wpdu].
  destruct (Z.gtb_spec (waiters_ (conn σ)) 0) as [Hpos|Hnone]; cbn [fold_left effect_senders effect_watched].
  - split; fields; [|by rewrite waiting_wake, length_fmap, Hwt|by apply fits_wake|].
    + apply (w_idle _ p); fields; rewrite ?owners_wake, ?Ho'; try done. by apply Hbroken.
    + intros x Hx Hxw. apply all_woken in Hx. congruence.
  - split; fields; [|by rewrite Hwt|done|].
    + apply (w_idle _ p); fields; try done. by apply Hbroken.
    + rewrite Hwt. assert (waiting (senders σ) = []) as -> by (destruct (waiting (senders σ)); cbn in *; [done|lia]).
      intros x Hx. by apply not_elem_of_nil in Hx.
Qed.

Lemma inv_write_cb σ w fx o c :
  inv 0 σ -> write_ok w (wpdu_ (conn σ)) -> write_cb (fd_ (conn σ)) w (conn σ) = Ret (fx, o, c) ->
  inv 0 (apply fx c (senders σ) o σ).
Proof.
  intros [Hst Hc Hf Hw] Hwr. unfold write_cb, verify. destruct (dead_ (conn σ)) eqn:Hd; [discriminate|]. cbn [negb].
  rewrite Z.eqb_refl.
  destruct Hst as [p Ho Hp Hout Hbr|s k Ho Hat Hfs Hp Hout Hwd Hwk|s p b0 Ho Hat Hdd Hp Hout Hpre]; [| |congruence].
  - rewrite Hp. cbn [sz charbuf_new Z.eqb]. intros [= <- <- <-]. unfold apply. cbn [fold_left effect_senders effect_watched].
    rewrite app_nil_r. split; fields; try done. by apply (w_idle _ p).
  - pose proof Hp as [Hk (b' & Ep & _)]. rewrite Ep at 1. cbn [sz]. pose proof Hfs as [Hfs' _].
    destruct (Z.eqb_spec (s_sz s) 0); [lia|]. intros H. rinv H. destruct a as [[ok o'] p'].
    destruct (writepdu_writing w _ _ k _ ok o' p' Hfs Hp Hwr E)
      as [[-> (k' & Hk' & Hp' & Ho')]|[-> [-> (b1 & ->)]]]; cbn [negb] in H.
    + pose proof Hp' as [Hkr (b1 & Ep' & _)]. rewrite Ep' in H. cbn [solong sz] in H.
      destruct (Z.leb_spec 0 k'); [|lia]. destruct (Z.ltb_spec k' (s_sz s)); injection H as <- <- <-;
        unfold apply; cbn [fold_left effect_senders effect_watched].
      * split; fields; try done. rewrite <- Ep'. apply (w_busy _ s k'); fields; try done.
        -- by rewrite Hout, <- app_assoc, Ho'.
        -- by right.
      * split; fields; [|by rewrite waiting_wake, length_fmap|by apply fits_wake|].
        -- rewrite <- Ep'. apply (w_busy _ (Sender (s_buf s) (s_sz s) SendComplete true) k'); fields; try done.
           ++ by apply signal_owner.
           ++ by rewrite Hout, <- app_assoc, Ho'.
        -- rewrite owners_wake, Ho. done.
    + injection H as <- <- <-. unfold apply. cbn [fold_left effect_senders effect_watched].
      rewrite app_nil_r. split; fields; [|by rewrite waiting_wake, length_fmap|by apply fits_wake|].
      * eapply (w_failed _ (Sender (s_buf s) (s_sz s) SendComplete true) _ b1); fields; try done.
        -- by apply signal_owner.
        -- by right.
        -- apply prefix_take.
      * rewrite owners_wake, Ho. done.
Qed.

(** The connection dies and the owner of the buffer, if it waits, is woken. *)
Lemma inv_dies σ c :
  inv 0 σ -> dead_ (conn σ) = false -> dead_ c = true -> wpdu_ c = wpdu_ (conn σ) -> waiters_ c = waiters_ (conn σ) ->
  inv 0 (Sys c (wake on_complete <$> senders σ) (out σ) (returned σ) false (closed σ)).
Proof.
  intros [Hst Hc Hf Hw] Hd Hd' Hp' Hwt. split; fields;
    [|by rewrite waiting_wake, length_fmap, Hwt|by apply fits_wake|].
  - destruct Hst as [p Ho Hp Hout Hbr|s k Ho Hat Hfs Hp Hout Hwd Hwk|s p b0 Ho Hat Hdd Hp Hout Hpre]; [| |congruence].
    + apply (w_idle _ p); fields; try congruence; [by rewrite owners_wake, Ho|].
      destruct Hbr as [->|[? _]]; [by left|congruence].
    + apply (w_busy _ (Sender (s_buf s) (s_sz s) SendComplete true) k); fields; rewrite ?Hp'; try done.
      * by apply signal_owner.
      * by rewrite Hd'.
  - intros s. rewrite waiting_wake, owners_wake. intros (s0 & -> & Hs)%list_elem_of_fmap Hsw E.
    apply fmap_nil_inv in E. apply (Hw s0 Hs); [|done].
    apply list_elem_of_filter in Hs as [Hs _]. unfold wake in Hsw. by destruct (s_at s0).
Qed.

Lemma read_cb_effects e accepted c fx c' :
  read_cb (fd_ c) e accepted c = Ret (fx, c') ->
  wpdu_ c' = wpdu_ c /\ waiters_ c' = waiters_ c /\ exists tl, (tl = [] \/ exists b n, tl = [GotPdu b n]) /\
  ((fx = tl /\ dead_ c' = dead_ c) \/
   (dead_ c = false /\ dead_ c' = true /\ fx = [DelCallback CB_RDWR; SignalComplete] ++ tl)).
Proof.
  unfold read_cb, verify. rewrite Z.eqb_refl. destruct (dead_ c) eqn:Hd.
  { intros [= <- <-]. do 2 (split; [done|]). exists []. split; [by left|]. by left. }
  intros H. rinv H. destruct a as [succ p].
  destruct succ; cbn [negb] in H; destruct (buf p) as [b|];
    try (destruct (sz p =? solong p)); try destruct accepted; injection H as <- <-;
    (do 2 (split; [done|]));
    first [exists [GotPdu b (sz p)]; split; [right; by eexists _, _|]; first [by left|by right]
          |exists []; split; [by left|]; first [by left|by right]].
Qed.

(** The owner woke up; it waits on or its send ends. *)
Lemma inv_complete σ l1 s l2 st fx c :
  inv 0 σ -> senders σ = l1 ++ s :: l2 -> s_at s = SendComplete -> send_complete (conn σ) = (st, fx, c) ->
  inv 0 (settle (s_buf s) (s_sz s) st (apply fx c (l1 ++ l2) [] σ)).
Proof.
  intros Hi El Hat E. unfold send_complete in E. assert (Hon : on_wait (s_at s) = false) by (by rewrite Hat).
  destruct (negb (dead_ (conn σ)) && (0 <=? solong (wpdu_ (conn σ))) && (solong (wpdu_ (conn σ)) <? sz (wpdu_ (conn σ)))) eqn:Eb.
  - injection E as <- <- <-. apply andb_prop in Eb as [Eb E3]. apply andb_prop in Eb as [E1 E2].
    apply negb_true_iff in E1. destruct Hi as [Hst Hc Hf Hwk].
    unfold settle, apply. cbn [fold_left conn senders out returned watched closed]. rewrite app_nil_r.
    destruct Hst as [p Ho Hp Hout Hbr|s0 k Ho _ Hfs Hp Hout Hwd Hwk'|s0 p b0 Ho _ Hdd Hp Hout Hpre]; [| |congruence].
    { rewrite Hp in E3. done. }
    rewrite El in Ho. destruct (take_owner _ _ _ _ Ho Hon) as (-> & Ho' & Hwt). rewrite <- El in Hwt.
    split; fields; rewrite ?owners_cons, ?waiting_cons; fields; [|by rewrite Hwt| |done].
    + apply (w_busy _ (Sender (s_buf s) (s_sz s) SendComplete false) k); fields; rewrite ?owners_cons; fields;
        try done; [by rewrite Ho'|].
      intros _. right. split; [done|]. destruct Hp as [_ (b' & Ep & _)]. rewrite Ep in E3. cbn in E3. lia.
    + constructor; [done|]. rewrite El in Hf. rewrite !Forall_app, Forall_cons in *. tauto.
  - apply (inv_finish _ _ _ _ _ _ _ Hi El Hon); [|done].
    destruct (dead_ (conn σ)) eqn:Hd; [by left|right]. cbn [negb andb] in Eb.
    destruct (iv_state _ _ Hi) as [p Ho Hp _ _|s0 k _ _ _ [Hk (b' & Ep & _)] _ _ _|]; [by rewrite Hp| |congruence].
    rewrite Ep in *. cbn [solong sz] in *. lia.
Qed.

(** The poll thread closes nothing but may find the connection broken. *)
Lemma inv_read_cb σ e accepted fx c :
  inv 0 σ -> read_cb (fd_ (conn σ)) e accepted (conn σ) = Ret (fx, c) -> inv 0 (apply fx c (senders σ) [] σ).
Proof.
  intros Hi H. apply read_cb_effects in H as (Hp & Hwt & tl & Htl & Hc).
  assert (Hno : forall ss b, fold_left effect_senders tl ss = ss /\ fold_left effect_watched tl b = b)
    by (intros; destruct Htl as [->|(b0 & n & ->)]; done).
  unfold apply. rewrite app_nil_r. destruct Hc as [[-> Hd]|(Hd & Hd' & ->)].
  - destruct (Hno (senders σ) (watched σ)) as [-> ->]. destruct Hi as [Hst Hcn Hf Hwk].
    split; fields; try done; [|by rewrite Hwt].
    destruct Hst as [p Ho Hp0 Hout Hbr|s k|s p b0 ? ? ? ?].
    + apply (w_idle _ p); fields; try congruence. destruct Hbr as [->|[? ?]]; [by left|right]. fields. by rewrite Hd.
    + apply (w_busy _ s k); fields; rewrite ?Hp, ?Hd; done.
    + apply (w_failed _ s p b0); fields; congruence.
  - cbn [app fold_left effect_senders effect_watched].
    destruct (Hno (wake on_complete <$> senders σ) false) as [-> ->]. by apply inv_dies.
Qed.

Lemma inv_close σ fx c :
  inv 0 σ -> closeconn (conn σ) = (fx, c) ->
  let σ' := apply fx c (senders σ) [] σ in
  inv 0 (Sys (conn σ') (senders σ') (out σ') (returned σ') (watched σ') (closed σ' || negb (dead_ (conn σ)))).
Proof.
  intros Hi H σ1. subst σ1. unfold closeconn in H. destruct (dead_ (conn σ)) eqn:Hd; injection H as <- <-;
    unfold apply; cbn [negb fold_left effect_senders effect_watched conn senders out returned watched closed];
    rewrite app_nil_r, ?orb_false_r.
  - by destruct σ.
  - destruct Hi as [Hst Hcn Hf Hwk]. split; fields; try done.
    destruct Hst as [p Ho Hp0 Hout Hbr|s k|s p b0 ? ? ? ?]; [| |congruence].
    + apply (w_idle _ p); fields; try congruence. destruct Hbr as [->|[? ?]]; [by left|congruence].
    + apply (w_busy _ s k); fields; try done. intros _. left. by rewrite orb_true_r.
Qed.

Lemma inv_send_step spurious σ σ' : inv 0 σ -> step spurious σ σ' -> inv 0 σ'.
Proof.
  intros Hi Hst. destruct Hst as [b n draw w st fx o c Hs Hw H|l1 s l2 draw w st fx o c El Hat _ Hw H
    |l1 s l2 st fx c El Hat _ H|l1 s l2 st fx c El Hat H|w fx o c Hw H|e accepted fx c H|fx c H σ1].
  - unfold send in H. rinv H. unfold chk_int in E. destruct (_ && _); [|discriminate]. injection E as <-.
    destruct Hi as [Hst Hc Hf Hwk].
    apply (inv_send_wait (Sys (set_waiters (waiters_ (conn σ) + 1) (conn σ)) (senders σ) (out σ) (returned σ)
      (watched σ) (closed σ)) b n draw w); try done.
    split; fields; try done; [|lia].
    destruct Hst as [p|s k|s p b0]; [by apply (w_idle _ p)|by apply (w_busy _ s k)|by apply (w_failed _ s p b0)].
  - destruct Hi as [Hst Hc Hf Hwk]. destruct (take_waiting l1 s l2) as (Ho & Hl & Hin); [by rewrite Hat|].
    rewrite <- El in *. assert (Hff : Forall fits (l1 ++ s :: l2)) by (by rewrite <- El).
    rewrite Forall_app, Forall_cons in Hff. destruct Hff as (Hf1 & Hf2 & Hf3).
    apply (inv_send_wait (Sys (conn σ) (l1 ++ l2) (out σ) (returned σ) (watched σ) (closed σ)) _ _ draw w); try done.
    split; fields; [by apply wstate_senders|lia|by apply Forall_app|].
    intros x Hx Hxw. rewrite <- Ho. by apply (Hwk x); [apply Hin|].
  - by apply (inv_complete _ _ _ _ _ _ _ Hi El).
  - apply (inv_finish _ _ _ _ _ _ _ Hi El); [by rewrite Hat| |done].
    destruct (iv_state _ _ Hi) as [p Ho Hp _ _|s0 k Ho Hat0 _ _ _ _ _|s0 p b0 _ _ Hdd _ _ _]; [by rewrite Hp; right| |by left].
    rewrite El in Ho. destruct (take_owner _ _ _ _ Ho) as (-> & _); [by rewrite Hat|congruence].
  - by apply (inv_write_cb _ w).
  - by apply (inv_read_cb _ e accepted).
  - by apply inv_close.
Qed.

Lemma inv_reachable spurious σ : reachable spurious σ -> inv 0 σ.
Proof. induction 1; [apply inv_new|by eapply inv_send_step]. Qed.

(** Every buffer a send returned for was a proper one. *)
Lemma returned_fits spurious σ :
  reachable spurious σ -> Forall (fun x => sendable x.1.1 x.1.2) (returned σ).
Proof.
  induction 1 as [|σ σ' Hr IH Hst]; [constructor|].
  pose proof (iv_fits _ _ (inv_reachable _ _ Hr)) as Hf.
  assert (Hset : forall b n st fx c ss o, sendable b n ->
    Forall (fun x => sendable x.1.1 x.1.2) (returned (settle b n st (apply fx c ss o σ)))).
  { intros b n st fx c ss o Hs. destruct st; cbn; try done. apply Forall_app. split; [done|]. by constructor. }
  assert (Hin : forall l1 s l2, senders σ = l1 ++ s :: l2 -> fits s)
    by (intros l1 s l2 El; rewrite El in Hf; by apply Forall_app in Hf as [_ [? _]%Forall_cons]).
  destruct Hst; try done; apply Hset; try done; by eapply Hin.
Qed.

(** ** Theorems *)

(** C12: PDUs never mix on the socket: however sends, callbacks and closes
    interleave, what has been written is the whole PDUs of the sends that
    returned true, in the order they returned, then at most a part of one
    more: of the single thread that owns the buffer, or of a send that
    returned false because the connection is dead. *)
Theorem sends_whole (spurious : bool) (σ : sys) :
  reachable spurious σ ->
  (length (owners (senders σ)) <= 1)%nat /\
  exists p, out σ = concat (sent_frames (returned σ)) ++ p /\
    (p = [] \/ exists b n, p `prefix_of` frame b n /\
       ((exists s, owners (senders σ) = [s] /\ s_buf s = b /\ s_sz s = n) \/
        ((b, n, false) ∈ returned σ /\ dead_ (conn σ) = true))).
Proof.
  intros Hr. destruct (iv_state _ _ (inv_reachable _ _ Hr))
    as [p Ho Hp Hout Hbr|s k Ho Hat Hfs Hp Hout Hwd Hwk|s p b0 Ho Hat Hdd Hp Hout Hpre]; rewrite Ho;
    (split; [cbn; lia|]); (eexists; split; [exact Hout|]).
  - destruct Hbr as [->|(Hd & b & n & Hin & Hpre)]; [by left|]. right. exists b, n. eauto.
  - right. exists (s_buf s), (s_sz s). split; [apply prefix_take|]. left. by exists s.
  - right. exists (s_buf s), (s_sz s). split; [done|]. left. by exists s.
Qed.

(** No wake-up is lost inside send, closeconn apart: a thread asleep on
    send_wait_ has another thread ahead of it that owns the buffer, and the
    thread asleep on send_complete_ has bytes left to write on a live
    connection that is watched for writing, or closeconn was called. *)
Theorem send_wakeups (spurious : bool) (σ : sys) (s : sender) :
  reachable spurious σ -> s ∈ senders σ -> s_woken s = false ->
  match s_at s with
  | SendWait => exists o, owners (senders σ) = [o]
  | SendComplete => closed σ = true \/
      (dead_ (conn σ) = false /\ solong (wpdu_ (conn σ)) < sz (wpdu_ (conn σ)) /\ watched σ = true)
  | SendRemove => dead_ (conn σ) = true
  | SendReturn _ => False
  end.
Proof.
  intros Hr Hs Hwk. pose proof (inv_reachable _ _ Hr) as Hi.
  destruct (on_wait (s_at s)) eqn:Hon.
  - assert (s_at s = SendWait) as -> by (by destruct (s_at s)).
    assert (Hne : owners (senders σ) <> []) by (apply (iv_woken _ _ Hi s); [by apply list_elem_of_filter|done]).
    destruct (iv_state _ _ Hi); [done|eauto..].
  - assert (s ∈ owners (senders σ)) as Hin by (by apply list_elem_of_filter).
    destruct (iv_state _ _ Hi) as [p Ho Hp Hout Hbr|s0 k Ho Hat Hfs Hp Hout Hwd Hw0|s0 p b0 Ho Hat Hdd Hp Hout Hpre];
      rewrite Ho in Hin; [by apply not_elem_of_nil in Hin| |]; apply list_elem_of_singleton in Hin as ->.
    + rewrite Hat. destruct (Hw0 Hwk) as [?|[Hd Hk]]; [by left|right].
      destruct Hp as [_ (b' & -> & _)]. cbn. auto.
    + destruct Hat as [->|[_ ?]]; [done|congruence].
Qed.

(** Six cells to send, of which the first write takes three. *)
Definition hello : list cell := Some <$> str "....hi".

Definition conn1 : connection := (connection_new 5 0 (Timeval 0 0)).2.

Definition hello_partial : charbuf := Charbuf (Some ((Some <$> be4 6) ++ (Some <$> str "hi"))) 6 3.

(** A send has written three bytes and waits. *)
Definition half_sent : sys :=
  Sys (set_wpdu hello_partial conn1) [Sender hello 6 SendComplete false] (take 3 (Some <$> be4 6)) [] true false.

Lemma half_sent_reachable spurious : reachable spurious half_sent.
Proof.
  apply (reach_step _ (sys_new 5 0 (Timeval 0 0))); [apply reach_init|].
  change half_sent with (settle hello 6 SendComplete
    (apply [AddCallback CB_WRONLY] (set_wpdu hello_partial conn1) (senders (sys_new 5 0 (Timeval 0 0)))
      (take 3 (Some <$> be4 6)) (sys_new 5 0 (Timeval 0 0)))).
  apply (s_send _ _ hello 6 0 (Wrote 3)).
  - split; [vm_compute; split; discriminate|lia].
  - cbn. lia.
  - reflexivity.
Qed.

Lemma sends_whole_witness :
  (length (owners (senders half_sent)) <= 1)%nat /\
  exists p, out half_sent = concat (sent_frames (returned half_sent)) ++ p /\
    (p = [] \/ exists b n, p `prefix_of` frame b n /\
       ((exists s, owners (senders half_sent) = [s] /\ s_buf s = b /\ s_sz s = n) \/
        ((b, n, false) ∈ returned half_sent /\ dead_ (conn half_sent) = true))).
Proof. apply (sends_whole true half_sent). apply half_sent_reachable. Defined.

Lemma send_wakeups_witness :
  closed half_sent = true \/
    (dead_ (conn half_sent) = false /\ solong (wpdu_ (conn half_sent)) < sz (wpdu_ (conn half_sent)) /\ watched half_sent = true).
Proof.
  apply (send_wakeups false half_sent (Sender hello 6 SendComplete false)).
  - apply half_sent_reachable.
  - constructor.
  - reflexivity.
Defined.

(** Nobody inside send will be woken any more. *)
Definition stranded (σ : sys) : Prop :=
  dead_ (conn σ) = true /\ Forall (fun s => s_woken s = false /\ s_at s <> SendRemove) (senders σ).

Lemma stranded_step σ σ' : stranded σ -> step false σ σ' -> stranded σ' /\ senders σ' = senders σ.
Proof.
  intros [Hd Hs] Hst. destruct Hst as [b n draw w st fx o c _ _ H|l1 s l2 draw w st fx o c El _ Hw _ _
    |l1 s l2 st fx c El _ Hw _|l1 s l2 st fx c El Hat _|w fx o c _ H|e accepted fx c H|fx c H σ1].
  - unfold send, send_wait in H. rinv H. cbn in H. rewrite Hd in H. cbn in H. injection H as <- <- <- <-. done.
  - rewrite El in Hs. apply Forall_app in Hs as [_ [Hs _]%Forall_cons]. destruct Hs as [Hs _]. by rewrite Hs in Hw.
  - rewrite El in Hs. apply Forall_app in Hs as [_ [Hs _]%Forall_cons]. destruct Hs as [Hs _]. by rewrite Hs in Hw.
  - rewrite El in Hs. apply Forall_app in Hs as [_ [Hs _]%Forall_cons]. by destruct Hs.
  - unfold write_cb in H. by rewrite Hd in H.
  - unfold read_cb, verify in H. rewrite Z.eqb_refl, Hd in H. by injection H as <- <-.
  - subst σ1. unfold closeconn in H. rewrite Hd in H. injection H as <- <-. done.
Qed.

(** Closeconn strands a sender: a send that waits for the rest of its
    PDU to be written when another thread calls closeconn is never woken;
    whatever happens afterwards, unless the wait ends by itself, it stays
    in send. *)
Theorem closeconn_strands_sender :
  exists σ s, reachable false σ /\ s ∈ senders σ /\ s_at s = SendComplete /\ closed σ = true /\
    forall σ', rtc (step false) σ σ' -> s ∈ senders σ'.
Proof.
  set (σ := Sys (set_dead true (conn half_sent)) (senders half_sent) (out half_sent) [] false true).
  exists σ, (Sender hello 6 SendComplete false). split.
  { apply (reach_step _ half_sent); [apply half_sent_reachable|].
    apply (s_close _ half_sent [Shutdown; BlockRemove]). reflexivity. }
  split; [constructor|]. split; [done|]. split; [done|]. intros σ' Hst.
  assert (stranded σ' /\ senders σ' = senders σ) as [_ ->]; [|constructor].
  assert (H0 : stranded σ) by (split; [done|]; repeat constructor; done).
  clearbody σ. induction Hst as [|x y z Hxy _ IH]; [done|].
  destruct (stranded_step x y H0 Hxy) as [Hy Ey]. rewrite <- Ey. by apply IH.
Qed.

End conn_send.
