(* ===== verification/Tcp.v ===== *)
(** * From send on one host to got_pdu on the other

    The sending half of a connection (ConnSend.v), the byte stream TCP
    makes of it, the receiving half of the peer's connection
    (Connection.v), and remote calls over two such streams. *)

From Stdlib Require Import ZArith Lia Strings.Byte.
From stdpp Require Import base list gmap relations.
From S2P Require Import Prelude Marshall PollMgr Connection ConnSend ReplyWindow RpcServer RpcClient Rpc.

#[local] Open Scope Z_scope.

Module tcp.
Abbreviation MAX_PDU := connection.MAX_PDU.
Abbreviation written := connection.written.

Lemma realizes_concat cs x :
  realizes (concat cs) x -> exists fs, x = concat fs /\ Forall2 realizes cs fs.
Proof.
  revert x. induction cs as [|c cs IH]; intros x H; cbn in H.
  - apply Forall2_nil_inv_l in H as ->. by exists [].
  - apply realizes_app in H as (x1 & x2 & -> & H1 & H2). destruct (IH _ H2) as (fs & -> & Hfs).
    exists (x1 :: fs). split; [done|]. by constructor.
Qed.

Lemma frame_realized b n x :
  conn_send.sendable b n -> 4 < n <= MAX_PDU -> realizes (connection.frame b n) x -> connection.frame_ok x.
Proof.
  intros Hs Hn Hx. assert (lenZ x = n) as Hl.
  { rewrite <- (conn_send.length_frame b n Hs). by rewrite (Forall2_length _ _ _ Hx). }
  split; [lia|]. apply realizes_app in Hx as (x1 & x2 & -> & H1 & _).
  apply realizes_written in H1 as ->. by rewrite Hl.
Qed.


(** The frames of the sends that returned true, as they arrive. *)
Lemma frames_realized spurious σ x :
  conn_send.reachable spurious σ ->
  (forall b n, (b, n, true) ∈ conn_send.returned σ -> 4 < n <= MAX_PDU) ->
  realizes (concat (conn_send.sent_frames (conn_send.returned σ))) x ->
  exists fs, x = concat fs /\ Forall connection.frame_ok fs /\
    Forall2 realizes (conn_send.sent_frames (conn_send.returned σ)) fs.
Proof.
  intros Hr Hn Hx. apply realizes_concat in Hx as (fs & -> & Hfs). exists fs. split; [done|]. split; [|done].
  pose proof (conn_send.returned_fits _ _ Hr) as Hf.
  revert fs Hfs. induction (conn_send.returned σ) as [|[[b n] r] l IH]; intros fs Hfs; cbn in Hfs.
  - apply Forall2_nil_inv_l in Hfs as ->. constructor.
  - apply Forall_cons in Hf as [Hf1 Hf2].
    assert (Hn' : forall b n, (b, n, true) ∈ l -> 4 < n <= MAX_PDU) by (intros; eapply Hn; by right).
    destruct r; [|by apply IH].
    apply Forall2_cons_inv_l in Hfs as (x & fs' & Hx & Hfs & ->). constructor; [|by apply IH].
    apply (frame_realized b n); [done| |done]. eapply Hn. left.
Qed.

Lemma crossing (spurious : bool) (σ : conn_send.sys) (stream : bytes) (evs : list connection.rx_event)
    (fd lossy : Z) (now : connection.timeval) :
  conn_send.reachable spurious σ ->
  conn_send.owners (conn_send.senders σ) = [] -> connection.dead_ (conn_send.conn σ) = false ->
  (forall b n, (b, n, true) ∈ conn_send.returned σ -> 4 < n <= MAX_PDU) ->
  realizes (conn_send.out σ) stream ->
  connection.unsplit_run evs (connection.rx_new fd lossy now stream) ->
  exists σ' fs, connection.rx_run evs (connection.rx_new fd lossy now stream) = Ret σ' /\
    Forall2 realizes (conn_send.sent_frames (conn_send.returned σ)) fs /\
    connection.got σ' `prefix_of` (written <$> fs) /\
    (connection.arrived σ' = [] -> connection.in_flight σ' = [] ->
     connection.buf (connection.rpdu_ (connection.conn σ')) = None -> connection.got σ' = written <$> fs).
Proof.
  intros Hr Ho Hd Hn Hx Hu.
  assert (Hout : conn_send.out σ = concat (conn_send.sent_frames (conn_send.returned σ))).
  { destruct (conn_send.iv_state _ _ (conn_send.inv_reachable _ _ Hr))
      as [p _ _ -> [->|[? _]]|s k Ho' _ _ _ _ _ _|s p b Ho' _ _ _ _ _]; [by rewrite app_nil_r|congruence..]. }
  rewrite Hout in Hx. destruct (frames_realized spurious σ stream Hr Hn Hx) as (fs & -> & Hok & Hfs).
  destruct (connection.rx_inv_run fs evs _ _ _ _ Hok (connection.rx_inv_new fs fd lossy now) Hu)
    as (σ' & done & rest & k & E & Hi).
  exists σ', fs. do 2 (split; [done|]). split.
  - rewrite (connection.ri_got _ _ _ _ _ Hi), (connection.ri_split _ _ _ _ _ Hi), fmap_app. by eexists.
  - intros Ha Hfl Hb. destruct (connection.rx_inv_end _ _ _ _ _ Hok Hi Ha Hfl) as [[_ <-]|(f & _ & _ & ?)]; [apply Hi|done].
Qed.

(** C11: what the threads of one host send on a connection, however they
    interleave, the other host's got_pdu receives: the PDUs of the sends
    that returned true, whole, unmixed and in order, byte for byte as far
    as the senders wrote them.  It is said of a connection that is alive and
    has no send in the middle of a PDU, of PDUs longer than their size field
    and at most MAX_PDU, and of arrivals in which the receiver meets no size
    field in parts ([unsplit_run]; such a one closes the connection). *)
Theorem pdus_cross (spurious : bool) (σ : conn_send.sys) (stream : bytes) (evs : list connection.rx_event)
    (fd lossy : Z) (now : connection.timeval) :
  conn_send.reachable spurious σ ->
  conn_send.owners (conn_send.senders σ) = [] -> connection.dead_ (conn_send.conn σ) = false ->
  (forall b n, (b, n, true) ∈ conn_send.returned σ -> 4 < n <= MAX_PDU) ->
  realizes (conn_send.out σ) stream ->
  connection.unsplit_run evs (connection.rx_new fd lossy now stream) ->
  exists σ' fs, connection.rx_run evs (connection.rx_new fd lossy now stream) = Ret σ' /\
    Forall2 realizes (conn_send.sent_frames (conn_send.returned σ)) fs /\
    connection.got σ' `prefix_of` (written <$> fs) /\
    (connection.arrived σ' = [] -> connection.in_flight σ' = [] ->
     connection.buf (connection.rpdu_ (connection.conn σ')) = None -> connection.got σ' = written <$> fs).
Proof. apply crossing. Qed.




Definition fill_in (c : cell) : byte := default "000"%byte c.

Lemma fill_in_realizes cs : realizes cs (fill_in <$> cs).
Proof. induction cs as [|[c|] cs IH]; constructor; auto. Qed.

(** A connection on which [cs] was sent in one write. *)
Definition sent_once (cs : list cell) : conn_send.sys :=
  conn_send.Sys (connection.connection_new 5 0 (connection.Timeval 0 0)).2 []
    (connection.frame cs (lenZ cs)) [(cs, lenZ cs, true)] false false.

Lemma sent_once_reachable cs :
  4 < lenZ cs <= MAX_PDU -> conn_send.reachable false (sent_once cs).
Proof.
  intros Hn. assert (Hs : conn_send.sendable cs (lenZ cs))
    by (split; [lia|]; change MAX_PDU with 10485760 in Hn; lia).
  set (σ0 := conn_send.sys_new 5 0 (connection.Timeval 0 0)).
  apply (conn_send.reach_step _ σ0); [apply conn_send.reach_init|].
  change (sent_once cs) with (conn_send.settle cs (lenZ cs) (connection.SendReturn true)
    (conn_send.apply [] (conn_send.conn σ0) (conn_send.senders σ0) (connection.frame cs (lenZ cs)) σ0)).
  apply (conn_send.s_send _ _ cs (lenZ cs) 0 (connection.Wrote (lenZ cs))); [done|cbn; lia|].
  unfold connection.send. change (chk_int _) with (Ret 1). cbn [mbind res_bind].
  unfold connection.send_wait. change (connection.dead_ (connection.set_waiters _ _)) with false.
  change (bool_decide _) with false. cbn [negb andb].
  assert (connection.writepdu (connection.Wrote (lenZ cs)) (connection.Charbuf (Some cs) (lenZ cs) 0) =
    Ret (true, connection.frame cs (lenZ cs),
         connection.Charbuf (Some (connection.frame cs (lenZ cs))) (lenZ cs) (lenZ cs))) as E.
  { by apply conn_send.writepdu_all. }
  cbn [connection.wpdu_ connection.set_wpdu]. rstep E.
  cbn [negb connection.solong connection.sz]. rewrite Z.eqb_refl.
  unfold connection.send_finish. cbn [connection.wpdu_ connection.set_wpdu connection.solong connection.sz
    connection.dead_ connection.set_waiters connection.waiters_ negb andb]. rewrite Z.eqb_refl.
  reflexivity.
Qed.


(** "....hi" crosses in two arrivals. *)
Lemma pdus_cross_witness :
  let σ := sent_once conn_send.hello in
  exists σ' fs, connection.rx_run [connection.Arrive 5; connection.Readable true false;
      connection.Arrive 1; connection.Readable true true]
      (connection.rx_new 6 0 (connection.Timeval 0 0) (be4 6 ++ str "hi")) = Ret σ' /\
    Forall2 realizes (conn_send.sent_frames (conn_send.returned σ)) fs /\
    connection.got σ' `prefix_of` (written <$> fs) /\
    (connection.arrived σ' = [] -> connection.in_flight σ' = [] ->
     connection.buf (connection.rpdu_ (connection.conn σ')) = None -> connection.got σ' = written <$> fs).
Proof.
  apply (pdus_cross false (sent_once conn_send.hello)).
  - apply sent_once_reachable. vm_compute. split; [reflexivity|discriminate].
  - reflexivity.
  - reflexivity.
  - intros b n Hin. apply list_elem_of_singleton in Hin. injection Hin as -> ->.
    vm_compute. split; [reflexivity|discriminate].
  - change (be4 6 ++ str "hi") with (fill_in <$> conn_send.out (sent_once conn_send.hello)). apply fill_in_realizes.
  - vm_compute. repeat split; intros; discriminate.
Defined.

(** ** Remote calls over connections *)

Section call.
Context {W A R : Type} (wa : wire A) (wr : wire R) `{!WireOk wa, !WireOk wr}.
Context (meth : method W A R) (proc : Z).


End call.


(** ** The server's table of connections *)

(** compare orders connections by their time of creation. *)
Lemma compare_trans a b c :
  connection.compare b a <= 0 -> connection.compare c b <= 0 -> connection.compare c a <= 0.
Proof. unfold connection.compare. rewrite !Z.gtb_ltb. intros H1 H2. repeat bcase. Qed.

Lemma compare_antisym a b : connection.compare a b = - connection.compare b a.
Proof. unfold connection.compare. rewrite !Z.gtb_ltb. repeat bcase. Qed.

Section table.
Context (heap : conn -> connection.connection).

Definition cmp_conns (a b : conn) : Z := connection.compare (heap a) (heap b).

(** Requests of client [n] come in on the connections [cs]. *)
Fixpoint remember_all (n : Z) (cs : list conn) (conns : gmap Z conn) : list action * gmap Z conn :=
  match cs with
  | [] => ([], conns)
  | c :: cs =>
      let '(acts, conns) := remember cmp_conns n c conns in
      let '(acts', conns) := remember_all n cs conns in
      (acts ++ acts', conns)
  end.

Lemma remember_all_newest n cs conns acts conns' :
  remember_all n cs conns = (acts, conns') ->
  (forall k, net k acts = held n k conns' - held n k conns) /\
  forall o, conns !! n = Some o \/ (conns !! n = None /\ exists cs', cs = o :: cs') ->
  exists c, conns' !! n = Some c /\ c ∈ o :: cs /\
    forall c', c' ∈ o :: cs -> connection.compare (heap c') (heap c) <= 0.
Proof.
  revert conns acts conns'.
  induction cs as [|c cs IH]; intros conns acts conns' E; cbn in E.
  - injection E as <- <-. split; [intros; cbn; lia|]. intros o [Ho|[_ [cs' [=]]]]. exists o.
    split; [done|]. split; [set_solver|]. intros c' ->%list_elem_of_singleton.
    pose proof (compare_antisym (heap o) (heap o)). lia.
  - destruct (remember cmp_conns n c conns) as [a1 conns1] eqn:E1.
    destruct (remember_all n cs conns1) as [a2 conns2] eqn:E2. injection E as <- <-.
    destruct (IH _ _ _ E2) as [Hnet Hc]. split.
    { intros k. rewrite net_app, Hnet, (remember_net _ _ _ _ _ _ E1 k). lia. }
    intros o Ho. unfold remember in E1.
    assert (exists x, conns1 !! n = Some x /\ (x = c \/ x = o) /\
      connection.compare (heap c) (heap x) <= 0 /\ connection.compare (heap o) (heap x) <= 0) as (x & Hx & Hxin & H1 & H2).
    { pose proof (compare_antisym (heap c) (heap c)). pose proof (compare_antisym (heap o) (heap c)).
      pose proof (compare_antisym (heap o) (heap o)).
      destruct Ho as [Ho|[Ho [cs' [= -> ->]]]]; rewrite Ho in E1.
      - destruct (cmp_conns o c <? 0) eqn:El; injection E1 as <- <-; unfold cmp_conns in El.
        + exists c. rewrite lookup_insert_eq. repeat split; auto; lia.
        + exists o. repeat split; auto; lia.
      - injection E1 as <- <-. exists o. rewrite lookup_insert_eq. repeat split; auto; lia. }
    destruct (Hc x (or_introl Hx)) as (y & Hy & Hyin & Hle). exists y. split; [done|]. split; [set_solver|].
    assert (Hxy : connection.compare (heap x) (heap y) <= 0) by (apply Hle; set_solver).
    intros c' Hc'. apply elem_of_cons in Hc' as [->|Hc']; [by apply (compare_trans _ (heap x))|].
    apply elem_of_cons in Hc' as [->|Hc']; [by apply (compare_trans _ (heap x))|].
    apply Hle. set_solver.
Qed.

(** Dispatch keeps the newest connection of a client for late replies:
    after requests on any connections in any order the table's entry is one
    of them, none was created after it, and the table holds exactly one
    reference, to that one. *)
Theorem latest_connection (n : Z) (cs : list conn) :
  cs <> [] ->
  let '(acts, conns) := remember_all n cs ∅ in
  exists c, conns !! n = Some c /\ c ∈ cs /\
    (forall c', c' ∈ cs -> connection.compare (heap c') (heap c) <= 0) /\
    forall k, net k acts = if decide (k = c) then 1 else 0.
Proof.
  intros Hne. destruct (remember_all n cs ∅) as [acts conns] eqn:E.
  destruct (remember_all_newest n cs ∅ acts conns E) as [Hnet Hc]. destruct cs as [|c0 cs0]; [done|].
  destruct (Hc c0) as (c & Hl & Hin & Hle); [right; split; [apply lookup_empty|by eexists]|].
  exists c. split; [done|]. split; [set_solver|]. split; [intros c' Hc'; apply Hle; set_solver|].
  intros k. rewrite Hnet. unfold held. rewrite Hl, lookup_empty. repeat case_decide; simplify_eq; lia.
Qed.

End table.

Definition three_conns (c : conn) : connection.connection :=
  (connection.connection_new (Zpos c) 0 (connection.Timeval (Z.rem (Zpos c) 3) 0)).2.

Lemma latest_connection_witness :
  let '(acts, conns) := remember_all three_conns 7 [1; 2; 3]%positive ∅ in
  exists c, conns !! 7 = Some c /\ c ∈ [1; 2; 3]%positive /\
    (forall c', c' ∈ [1; 2; 3]%positive -> connection.compare (three_conns c') (three_conns c) <= 0) /\
    forall k, net k acts = if decide (k = c) then 1 else 0.
Proof. apply (latest_connection three_conns 7 [1; 2; 3]%positive). discriminate. Defined.

End tcp.
