(* ===== verification/LockServer.v ===== *)
(** * The lock protocol, lock_server and lock_client

    lock_protocol.h, lock_server.cc/.h and the uncached stubs of
    lock_client.cc.  The server's handlers run on many threads; their
    accesses to the lock table are interleaved by a step relation in which
    the mutex, the condition variable and the unprotected accesses of
    [release] are explicit. *)

From Stdlib Require Import ZArith Lia.
From stdpp Require Import base list gmap.
From S2P Require Import Prelude.

#[local] Open Scope Z_scope.

Module lock_protocol.
Definition OK : Z := 0.
Definition RETRY : Z := 1.
Definition RPCERR : Z := 2.
Definition NOENT : Z := 3.
Definition IOERR : Z := 4.
Definition acquire : Z := 0x7001.
Definition release : Z := 0x7002.
Definition stat : Z := 0x7003.
End lock_protocol.

Module rlock_protocol.
Definition OK : Z := 0.
Definition RPCERR : Z := 1.
Definition revoke : Z := 0x8001.
Definition retry : Z := 0x8002.
End rlock_protocol.

Abbreviation lockid := Z.

(** ** lock_server *)
Module lock_server.

Inductive lockstate_t := FREE | LOCKED.
#[export] Instance lockstate_eq_dec : EqDecision lockstate_t.
Proof. solve_decision. Defined.

Record lock_server := LockServer {
  nacquire : Z;
  lockstate_table : gmap lockid lockstate_t
}.

Definition lock_server_new : lock_server := LockServer 0 ∅.

Definition set_table (t : gmap lockid lockstate_t) (s : lock_server) : lock_server :=
  LockServer (nacquire s) t.

(** stat reports nacquire, which no operation ever changes. *)
Definition stat (clt : Z) (lid : lockid) (s : lock_server) : Z * Z * lock_server :=
  (lock_protocol.OK, nacquire s, s).

(** [lockstate_table[lid]]: a missing key reads as 0, which is FREE. *)
Definition state_of (lid : lockid) (s : lock_server) : lockstate_t :=
  default FREE (lockstate_table s !! lid).

(** acquire up to its loop: create the entry of an unknown lock. *)
Definition acquire_enter (lid : lockid) (s : lock_server) : lock_server :=
  match lockstate_table s !! lid with
  | None => set_table (<[lid := FREE]> (lockstate_table s)) s
  | Some _ => s
  end.

(** One evaluation of acquire's loop condition: take a free lock, or
    [None] when the thread has to wait. *)
Definition acquire_test (lid : lockid) (s : lock_server) : option lock_server :=
  match state_of lid s with
  | FREE => Some (set_table (<[lid := LOCKED]> (lockstate_table s)) s)
  | LOCKED => None
  end.

(** release up to the signal; whether it signals.  The code looks up and
    stores without the mutex, a data race on the std::map that C++ leaves
    undefined; here the two are one step, as on a map whose accesses are
    atomic. *)
Definition release_store (lid : lockid) (s : lock_server) : bool * lock_server :=
  match lockstate_table s !! lid with
  | Some _ => (true, set_table (<[lid := FREE]> (lockstate_table s)) s)
  | None => (false, s)
  end.

(** *** Interleaved handlers

    A session is one client's acquire followed by its release of the same
    lock; clients have any number of sessions. *)

Inductive pc :=
| Idle
| Acquiring (lid : lockid)  (* acquire called, mutex not yet taken *)
| Testing (lid : lockid)    (* mutex held, at the loop condition *)
| Sleeping (lid : lockid)   (* mutex held, lock was busy, at pthread_cond_wait *)
| Waiting (lid : lockid)    (* on lock_cond_table[lid], mutex dropped *)
| Woken (lid : lockid)      (* signalled, wants the mutex back *)
| Granted (lid : lockid)    (* acquire returned OK *)
| Releasing (lid : lockid)  (* release called *)
| Signalling (lid : lockid) (* lock freed, at pthread_cond_signal *).
#[export] Instance pc_eq_dec : EqDecision pc.
Proof. solve_decision. Defined.

Record sys := Sys {
  server : lock_server;
  mutex : option positive;
  pcs : gmap positive pc
}.

Definition at_pc (σ : sys) (t : positive) : pc := default Idle (pcs σ !! t).

Definition goto (t : positive) (p : pc) (σ : sys) : sys :=
  Sys (server σ) (mutex σ) (<[t := p]> (pcs σ)).
Definition with_mutex (m : option positive) (σ : sys) : sys := Sys (server σ) m (pcs σ).
Definition with_server (s : lock_server) (σ : sys) : sys := Sys s (mutex σ) (pcs σ).

Inductive label := Call | Internal | Spurious.

Inductive step : label -> sys -> sys -> Prop :=
| step_acquire σ t lid :
    at_pc σ t = Idle -> step Call σ (goto t (Acquiring lid) σ)
| step_lock σ t lid :
    at_pc σ t = Acquiring lid -> mutex σ = None ->
    step Internal σ (goto t (Testing lid)
      (with_mutex (Some t) (with_server (acquire_enter lid (server σ)) σ)))
| step_take σ t lid s :
    at_pc σ t = Testing lid -> acquire_test lid (server σ) = Some s ->
    step Internal σ (goto t (Granted lid) (with_mutex None (with_server s σ)))
| step_busy σ t lid :
    at_pc σ t = Testing lid -> acquire_test lid (server σ) = None ->
    step Internal σ (goto t (Sleeping lid) σ)
| step_wait σ t lid :
    at_pc σ t = Sleeping lid -> step Internal σ (goto t (Waiting lid) (with_mutex None σ))
| step_relock σ t lid :
    at_pc σ t = Woken lid -> mutex σ = None ->
    step Internal σ (goto t (Testing lid) (with_mutex (Some t) σ))
| step_spurious σ t lid :
    at_pc σ t = Waiting lid -> step Spurious σ (goto t (Woken lid) σ)
| step_release σ t lid :
    at_pc σ t = Granted lid -> step Call σ (goto t (Releasing lid) σ)
| step_free σ t lid sig s :
    at_pc σ t = Releasing lid -> release_store lid (server σ) = (sig, s) ->
    step Internal σ (goto t (if sig : bool then Signalling lid else Idle) (with_server s σ))
| step_signal σ t u lid :
    at_pc σ t = Signalling lid -> at_pc σ u = Waiting lid ->
    step Internal σ (goto t Idle (goto u (Woken lid) σ))
| step_signal_nobody σ t lid :
    at_pc σ t = Signalling lid -> (forall u, at_pc σ u <> Waiting lid) ->
    step Internal σ (goto t Idle σ).

Definition sys_new : sys := Sys lock_server_new None ∅.

Inductive reachable : sys -> Prop :=
| reach_init : reachable sys_new
| reach_step l σ σ' : reachable σ -> step l σ σ' -> reachable σ'.

(** The session owns the lock from the reply of acquire until release has
    marked it free. *)
Definition owns (σ : sys) (t : positive) (lid : lockid) : Prop :=
  at_pc σ t = Granted lid \/ at_pc σ t = Releasing lid.

Record inv (σ : sys) : Prop := Inv {
  inv_locked : forall t lid, owns σ t lid -> lockstate_table (server σ) !! lid = Some LOCKED;
  inv_unique : forall t u lid, owns σ t lid -> owns σ u lid -> t = u
}.

Lemma at_goto t u p σ : at_pc (goto t p σ) u = if decide (t = u) then p else at_pc σ u.
Proof. unfold at_pc, goto. cbn. case_decide; subst; [by rewrite lookup_insert_eq|by rewrite lookup_insert_ne]. Qed.

(** A step that moves [t] to a point where it owns nothing, and leaves the
    locked entries of the other sessions' locks alone, keeps [inv]. *)
Lemma inv_move σ σ' :
  inv σ ->
  (forall u lid, owns σ' u lid -> owns σ u lid) ->
  (forall u lid, owns σ' u lid -> lockstate_table (server σ) !! lid = Some LOCKED ->
     lockstate_table (server σ') !! lid = Some LOCKED) ->
  inv σ'.
Proof.
  intros [Hl Hu] H1 H2. split.
  - intros t lid Ho. eapply H2; [done|]. eauto.
  - intros t u lid Ht Hu'. eauto.
Qed.

Lemma inv_take σ t lid s :
  inv σ -> acquire_test lid (server σ) = Some s ->
  inv (goto t (Granted lid) (with_mutex None (with_server s σ))).
Proof.
  intros [Hl Hu] Ha. unfold acquire_test, state_of in Ha. destruct (default FREE _) eqn:Hf in Ha; [|done].
  injection Ha as <-.
  assert (Hno : forall u, ~ owns σ u lid).
  { intros u Ho. rewrite (Hl _ _ Ho) in Hf. done. }
  split.
  - intros u k [H|H]; cbn; (destruct (decide (k = lid)) as [->|Hk]; [by rewrite lookup_insert_eq|]);
      rewrite lookup_insert_ne by done; rewrite at_goto in H; case_decide; try congruence;
      apply (Hl u); [by left|by right].
  - intros u v k H1 H2.
    assert (Hc : forall w, owns (goto t (Granted lid) (with_mutex None
        (with_server (set_table (<[lid:=LOCKED]> (lockstate_table (server σ))) (server σ)) σ))) w k ->
      (w = t /\ k = lid) \/ (w <> t /\ owns σ w k)).
    { intros w [H|H]; rewrite at_goto in H; case_decide; subst; try (left; split; congruence);
        try congruence; right; (split; [done|]); [by left|by right]. }
    destruct (Hc u H1) as [[-> ->]|[? H1']], (Hc v H2) as [[-> E]|[? H2']]; subst; auto.
    + by destruct (Hno v).
    + by destruct (Hno u).
    + eauto.
Qed.

Lemma inv_release σ t lid sig s :
  inv σ -> owns σ t lid -> release_store lid (server σ) = (sig, s) ->
  inv (goto t (if sig : bool then Signalling lid else Idle) (with_server s σ)).
Proof.
  intros [Hl Hu] Ht' Hr. unfold release_store in Hr. rewrite (Hl _ _ Ht') in Hr. injection Hr as <- <-.
  assert (Hc : forall w k, owns (goto t (Signalling lid)
      (with_server (set_table (<[lid:=FREE]> (lockstate_table (server σ))) (server σ)) σ)) w k ->
    w <> t /\ owns σ w k).
  { intros w k [H|H]; rewrite at_goto in H; case_decide; try congruence;
      (split; [done|]); [by left|by right]. }
  split.
  - intros w k Hw. apply Hc in Hw as [Hne Hw]. cbn. rewrite lookup_insert_ne; [eauto|].
    intros ->. apply Hne. eauto.
  - intros w v k Hw Hv. apply Hc in Hw as [_ Hw]. apply Hc in Hv as [_ Hv]. eauto.
Qed.

Lemma ls_step_inv l σ σ' : inv σ -> step l σ σ' -> inv σ'.
Proof.
  intros Hi Hs. pose proof Hi as [Hl Hu].
  destruct Hs as [σ t lid Ht|σ t lid Ht Hm|σ t lid s Ht Ha|σ t lid Ht Ha|σ t lid Ht|σ t lid Ht Hm
    |σ t lid Ht|σ t lid Ht|σ t lid sig s Ht Hr|σ t u lid Ht Hw|σ t lid Ht Hw].
  3: { by eapply inv_take. }
  8: { eapply inv_release; [done|by right|done]. }
  7: { split; unfold owns; setoid_rewrite at_goto; cbn.
       - intros u k H. destruct (decide (t = u)) as [<-|]; [|eauto]. destruct H as [H|H]; [done|]. injection H as ->.
         apply (Hl t). by left.
       - intros u v k H1 H2. apply (Hu u v k); unfold owns; repeat case_decide; subst;
           first [done|left; destruct H1 as [H1|H1]; congruence|left; destruct H2 as [H2|H2]; congruence]. }
  all: apply (inv_move σ); [done| |];
    [intros v k [H|H]; rewrite ?at_goto in H; repeat case_decide; try congruence; first [by left|by right]|];
    try (by intros); intros v k _ H; cbn; unfold acquire_enter.
  destruct (lockstate_table (server σ) !! lid) eqn:E; [done|]. cbn.
  rewrite lookup_insert_ne; [done|congruence].
Qed.

Lemma ls_reachable_inv σ : reachable σ -> inv σ.
Proof.
  induction 1 as [|l σ σ' _ IH Hs]; [|by eapply ls_step_inv].
  split; unfold owns, at_pc; cbn; [intros t lid|intros t u lid]; rewrite !lookup_empty; cbn; intros [?|?]; done.
Qed.

(** *** Theorems *)

(** C29: whatever the interleaving of handlers and wake-ups, no two
    sessions own the same lock: between the OK of acquire and the moment
    release frees the lock nobody else is granted it. *)
Theorem lock_server_mutex (σ : sys) (t u : positive) (lid : lockid) :
  reachable σ -> owns σ t lid -> owns σ u lid -> t = u.
Proof. intros Hr. apply (inv_unique _ (ls_reachable_inv _ Hr)). Qed.

(** Two sessions contend for lock 7; session 1 has it. *)
Definition contended : sys :=
  goto 1 (Granted 7) (with_mutex None (with_server (LockServer 0 {[ 7 := LOCKED ]})
    (goto 1 (Testing 7) (with_mutex (Some 1%positive) (with_server (LockServer 0 {[ 7 := FREE ]})
      (goto 2 (Acquiring 7) (goto 1 (Acquiring 7) sys_new))))))).

(** Extend the reachable state of [H] by rule [c] for session [t]. *)
Ltac advance H c t := eapply reach_step in H; [|eapply (fun σ => c σ t 7); [reflexivity..]].

Lemma contended_reachable : reachable contended.
Proof.
  pose proof reach_init as H. advance H step_acquire 1%positive. advance H step_acquire 2%positive.
  advance H step_lock 1%positive. advance H step_take 1%positive. exact H.
Qed.

Lemma lock_server_mutex_witness : owns contended 1 7 /\ forall u, owns contended u 7 -> u = 1%positive.
Proof.
  assert (Ho : owns contended 1 7) by (left; reflexivity).
  split; [exact Ho|]. intros u Hu. exact (lock_server_mutex contended u 1 7 contended_reachable Hu Ho).
Defined.

(** Session 2 finds the lock busy; session 1 frees it and signals before
    session 2 is on the condition variable. *)
Definition lost : sys :=
  let σ1 := goto 2 (Testing 7) (with_mutex (Some 2%positive) contended) in
  let σ2 := goto 2 (Sleeping 7) σ1 in
  let σ3 := goto 1 (Releasing 7) σ2 in
  let σ4 := goto 1 (Signalling 7) (with_server (LockServer 0 {[ 7 := FREE ]}) σ3) in
  let σ5 := goto 1 Idle σ4 in
  goto 2 (Waiting 7) (with_mutex None σ5).

Lemma at_lost u : at_pc lost u = if decide (u = 2%positive) then Waiting 7 else Idle.
Proof.
  unfold lost. cbv zeta. rewrite at_goto. case_decide; subst; [by rewrite decide_True|].
  rewrite decide_False by done. change (at_pc (with_mutex None ?x) u) with (at_pc x u).
  destruct (decide (u = 1%positive)) as [->|Hne]; [reflexivity|].
  unfold at_pc, contended. cbn. by rewrite !lookup_insert_ne, lookup_empty by done.
Qed.

Lemma lost_reachable : reachable lost.
Proof.
  pose proof contended_reachable as H. advance H step_lock 2%positive. advance H step_busy 2%positive.
  advance H step_release 1%positive. advance H step_free 1%positive.
  eapply reach_step in H; [|apply (step_signal_nobody _ 1 7); [reflexivity|]].
  - advance H step_wait 2%positive. exact H.
  - intros u. destruct (decide (u = 1%positive)) as [->|]; [done|].
    destruct (decide (u = 2%positive)) as [->|]; [done|].
    unfold at_pc, contended. cbn. by rewrite !lookup_insert_ne, lookup_empty by done.
Qed.

(** Release frees the lock and signals without taking the mutex, so a
    wake-up can be lost: there is a reachable state in which the lock is
    free, nobody owns it, a client's acquire waits for it, and no handler
    can take another step unless a new call arrives or the wait returns
    spuriously. *)
Theorem lost_wakeup :
  exists σ t lid, reachable σ /\ at_pc σ t = Waiting lid /\ state_of lid (server σ) = FREE /\
    (forall u, ~ owns σ u lid) /\ forall σ', ~ step Internal σ σ'.
Proof.
  exists lost, 2%positive, 7. split; [apply lost_reachable|]. split; [reflexivity|].
  split; [reflexivity|]. split.
  - intros u [H|H]; rewrite at_lost in H; case_decide; done.
  - intros σ' Hs. remember Internal as l. remember lost as σ.
    destruct Hs as [σ t lid Ht|σ t lid Ht Hm|σ t lid s Ht Ha|σ t lid Ht Ha|σ t lid Ht|σ t lid Ht Hm
      |σ t lid Ht|σ t lid Ht|σ t lid sig s Ht Hr|σ t u lid Ht Hw|σ t lid Ht Hw]; try done;
      subst; rewrite at_lost in Ht; case_decide; done.
Qed.

End lock_server.

(** ** lock_client: the stubs without a cache *)
Module lock_client.

(** [rets]: what the successive calls of the acquire RPC return; [None]
    when all of them fail (the loop goes on). *)
Fixpoint acquire (rets : list Z) : option Z :=
  match rets with
  | [] => None
  | ret :: rets => if negb (ret =? lock_protocol.OK) then acquire rets else Some ret
  end.

Definition release (ret : Z) : res Z := verify (ret =? lock_protocol.OK) (Ret ret).

Definition stat (ret r : Z) : res Z := verify (ret =? lock_protocol.OK) (Ret r).

End lock_client.
