(* ===== verification/LockServerCache.v ===== *)
(** * The caching lock server (lock_server_cache.cc/.h)

    The handlers [acquire] and [release], the loops of the retryer and
    revoker threads and the jobs they hand to the thread pool.  Each
    definition is one critical section of lock_server_cache_mutex; a step
    relation interleaves them with each other and with the clients. *)

From Stdlib Require Import ZArith Lia.
From stdpp Require Import base list gmap sets.
From S2P Require Import Prelude LockServer.

#[local] Open Scope Z_scope.
#[local] Set Warnings "-clear-no-such-hyp".

Module lock_server_cache.

(** struct lock; an empty owner_cl means the lock is free. *)
Record lock := Lock {
  l_id : lockid;
  owner_cl : bytes;
  waiting_cls : list bytes
}.

Record lock_server_cache := LockServerCache {
  nacquire : Z;  (* never initialised *)
  lock_table : gmap lockid lock;
  retryer_queue : list lockid;
  revoker_queue : list lockid;
  retryer_awake : bool;  (* the retryer thread is not in pthread_cond_wait *)
  revoker_awake : bool
}.

Definition lock_server_cache_new (junk : Z) : lock_server_cache :=
  LockServerCache junk ∅ [] [] true true.

(** [lock_table[lid]], value-initialised when missing. *)
Definition get_lock (lid : lockid) (s : lock_server_cache) : lock :=
  default (Lock 0 [] []) (lock_table s !! lid).

Definition put_lock (lid : lockid) (l : lock) (s : lock_server_cache) : lock_server_cache :=
  LockServerCache (nacquire s) (<[lid := l]> (lock_table s)) (retryer_queue s) (revoker_queue s)
    (retryer_awake s) (revoker_awake s).

Definition set_retryer (q : list lockid) (awake : bool) (s : lock_server_cache) : lock_server_cache :=
  LockServerCache (nacquire s) (lock_table s) q (revoker_queue s) awake (revoker_awake s).

Definition set_revoker (q : list lockid) (awake : bool) (s : lock_server_cache) : lock_server_cache :=
  LockServerCache (nacquire s) (lock_table s) (retryer_queue s) q (retryer_awake s) awake.

Definition with_owner (o : bytes) (l : lock) : lock := Lock (l_id l) o (waiting_cls l).
Definition with_waiting (w : list bytes) (l : lock) : lock := Lock (l_id l) (owner_cl l) w.

Definition acquire (lid : lockid) (id : bytes) (s : lock_server_cache) : Z * lock_server_cache :=
  let s := match lock_table s !! lid with
           | None => put_lock lid (Lock lid [] []) s
           | Some _ => s
           end in
  let reqlock := get_lock lid s in
  let queue_len := i32 (lenZ (waiting_cls reqlock)) in
  if bool_decide (owner_cl reqlock = [])
  then (lock_protocol.OK, put_lock lid (with_owner id reqlock) s)
  else
    let s := if queue_len =? 0 then set_revoker (revoker_queue s ++ [lid]) true s else s in
    (lock_protocol.RETRY, put_lock lid (with_waiting (waiting_cls reqlock ++ [id]) reqlock) s).

Definition release (lid : lockid) (id : bytes) (s : lock_server_cache) : Z * lock_server_cache :=
  match lock_table s !! lid with
  | Some l =>
      if bool_decide (owner_cl l = id)
      then (lock_protocol.OK,
            set_retryer (retryer_queue s ++ [lid]) true (put_lock lid (with_owner [] l) s))
      else (lock_protocol.IOERR, s)
  | None => (lock_protocol.IOERR, s)
  end.

Definition stat (lid : lockid) (s : lock_server_cache) : Z * Z := (lock_protocol.OK, nacquire s).

(** One turn of the retryer's loop; [added] is what addObjJob returns.
    The result names the lock of the job that was added. *)
Definition retryer (added : bool) (s : lock_server_cache) : option lockid * lock_server_cache :=
  match retryer_queue s with
  | [] => (None, set_retryer [] false s)
  | lid :: q =>
      let retrylock := get_lock lid s in
      let s := set_retryer q (retryer_awake s) (put_lock lid retrylock s) in
      match waiting_cls retrylock with
      | [] => (None, s)
      | retryclient :: _ =>
          (if added then Some lid else None, put_lock lid (with_owner retryclient retrylock) s)
      end
  end.

(** One turn of the revoker's loop. *)
Definition revoker (added : bool) (s : lock_server_cache) : option lockid * lock_server_cache :=
  match revoker_queue s with
  | [] => (None, set_revoker [] false s)
  | lid :: q =>
      let revokelock := get_lock lid s in
      let s := set_revoker q (revoker_awake s) (put_lock lid revokelock s) in
      match waiting_cls revokelock with
      | [] => (None, s)
      | _ :: _ => (if added then Some lid else None, s)
      end
  end.

(** retryer_rpc and revoker_rpc up to the call: whom they contact, read
    without the mutex. *)
Definition rpc_target (lid : lockid) (s : lock_server_cache) : bytes := owner_cl (get_lock lid s).

(** retryer_rpc after the call returned [ret]. *)
Definition retryer_rpc (lid : lockid) (ret : Z) (s : lock_server_cache) : res lock_server_cache :=
  let target := get_lock lid s in
  if negb (ret =? rlock_protocol.OK) then
    let s := put_lock lid (with_owner [] target) s in
    Ret (set_retryer (retryer_queue s ++ [l_id target]) (retryer_awake s) s)
  else
    match waiting_cls target with
    | [] => Crash Undefined (* pop() of an empty queue *)
    | _ :: w =>
        let s := put_lock lid (with_waiting w target) s in
        Ret (match w with
             | [] => s
             | _ :: _ => set_revoker (revoker_queue s ++ [l_id target]) true s
             end)
    end.

(** revoker_rpc after the call returned [ret]. *)
Definition revoker_rpc (lid : lockid) (ret : Z) (s : lock_server_cache) : lock_server_cache :=
  if negb (ret =? rlock_protocol.OK)
  then set_revoker (revoker_queue s ++ [l_id (get_lock lid s)]) (revoker_awake s) s
  else s.

(** ** Interleavings

    The jobs in the thread pool, and the clients that believe they hold a
    lock: since acquire answered OK or since they accepted a retry, until
    the server has processed their release. *)

Inductive job :=
| RetryPending (lid : lockid)
| RetryCalling (lid : lockid) (c : bytes)
| RetryReplied (lid : lockid) (ret : Z)
| RevokePending (lid : lockid)
| RevokeReplied (lid : lockid) (ret : Z).

Record sys := Sys {
  srv : lock_server_cache;
  jobs : gmap positive job;
  holders : gset (lockid * bytes)
}.

(** What the server's own threads do: a turn of the retryer's or the
    revoker's loop, a spurious wakeup, the jobs of the thread pool.  A retry
    that fails without reaching the client is among them. *)
Inductive service : sys -> sys -> Prop :=
| sv_retryer σ added j s lid :
    retryer_awake (srv σ) = true -> retryer added (srv σ) = (Some lid, s) -> jobs σ !! j = None ->
    service σ (Sys s (<[j := RetryPending lid]> (jobs σ)) (holders σ))
| sv_retryer_none σ added s :
    retryer_awake (srv σ) = true -> retryer added (srv σ) = (None, s) ->
    service σ (Sys s (jobs σ) (holders σ))
| sv_revoker σ added j s lid :
    revoker_awake (srv σ) = true -> revoker added (srv σ) = (Some lid, s) -> jobs σ !! j = None ->
    service σ (Sys s (<[j := RevokePending lid]> (jobs σ)) (holders σ))
| sv_revoker_none σ added s :
    revoker_awake (srv σ) = true -> revoker added (srv σ) = (None, s) ->
    service σ (Sys s (jobs σ) (holders σ))
| sv_wake σ :
    service σ (Sys (set_retryer (retryer_queue (srv σ)) true
      (set_revoker (revoker_queue (srv σ)) true (srv σ))) (jobs σ) (holders σ))
| sv_retry_call σ j lid :
    jobs σ !! j = Some (RetryPending lid) ->
    service σ (Sys (srv σ) (<[j := RetryCalling lid (rpc_target lid (srv σ))]> (jobs σ)) (holders σ))
| sv_retry_fail σ j lid c ret :
    jobs σ !! j = Some (RetryCalling lid c) -> ret <> rlock_protocol.OK ->
    service σ (Sys (srv σ) (<[j := RetryReplied lid ret]> (jobs σ)) (holders σ))
| sv_retry_finish σ j lid ret s :
    jobs σ !! j = Some (RetryReplied lid ret) -> retryer_rpc lid ret (srv σ) = Ret s ->
    service σ (Sys s (delete j (jobs σ)) (holders σ))
| sv_revoke_finish σ j lid ret :
    jobs σ !! j = Some (RevokeReplied lid ret) ->
    service σ (Sys (revoker_rpc lid ret (srv σ)) (delete j (jobs σ)) (holders σ)).

(** [guarded] restricts the interleavings to those in which no acquire of
    a lock is processed while the lock waits in the retryer's queue, and no
    retry that the client accepted is reported to the server as failed. *)
Inductive step (guarded : bool) : sys -> sys -> Prop :=
| step_acquire σ lid id ret s :
    acquire lid id (srv σ) = (ret, s) -> id <> [] ->
    (guarded = true -> lid ∉ retryer_queue (srv σ)) ->
    step guarded σ (Sys s (jobs σ)
      (if ret =? lock_protocol.OK then {[ (lid, id) ]} ∪ holders σ else holders σ))
| step_release σ lid id ret s :
    (lid, id) ∈ holders σ -> release lid id (srv σ) = (ret, s) ->
    step guarded σ (Sys s (jobs σ)
      (if ret =? lock_protocol.OK then holders σ ∖ {[ (lid, id) ]} else holders σ))
| step_service σ σ' : service σ σ' -> step guarded σ σ'
| step_retry_accept σ j lid c :
    jobs σ !! j = Some (RetryCalling lid c) ->
    step guarded σ (Sys (srv σ) (<[j := RetryReplied lid rlock_protocol.OK]> (jobs σ))
      ({[ (lid, c) ]} ∪ holders σ))
| step_retry_lost σ j lid c ret :
    guarded = false -> jobs σ !! j = Some (RetryCalling lid c) -> ret <> rlock_protocol.OK ->
    step guarded σ (Sys (srv σ) (<[j := RetryReplied lid ret]> (jobs σ)) ({[ (lid, c) ]} ∪ holders σ))
| step_revoke_call σ j lid ret :
    jobs σ !! j = Some (RevokePending lid) ->
    step guarded σ (Sys (srv σ) (<[j := RevokeReplied lid ret]> (jobs σ)) (holders σ)).

Definition sys_new (junk : Z) : sys := Sys (lock_server_cache_new junk) ∅ ∅.

Inductive reachable (guarded : bool) (junk : Z) : sys -> Prop :=
| reach_init : reachable guarded junk (sys_new junk)
| reach_step σ σ' : reachable guarded junk σ -> step guarded σ σ' -> reachable guarded junk σ'.

(** ** Invariant *)

Definition owner (σ : sys) (lid : lockid) : bytes := owner_cl (get_lock lid (srv σ)).

Definition job_lid (jb : job) : lockid :=
  match jb with
  | RetryPending lid | RetryCalling lid _ | RetryReplied lid _
  | RevokePending lid | RevokeReplied lid _ => lid
  end.

(** A retry the client has not accepted: it still carries the right to
    grant the lock, or to put it back into the queue. *)
Definition granting (jb : job) : Prop :=
  match jb with
  | RetryPending _ | RetryCalling _ _ => True
  | RetryReplied _ ret => ret <> rlock_protocol.OK
  | _ => False
  end.

Definition active (σ : sys) (lid : lockid) (j : positive) (jb : job) : Prop :=
  jobs σ !! j = Some jb /\ job_lid jb = lid /\ granting jb.

(** For each lock one right to it: with its holder, with its place in the
    retryer's queue, or with one job that is granting it. *)
Record lock_ok (σ : sys) (lid : lockid) : Prop := LockOk {
  lo_held : forall c, (lid, c) ∈ holders σ ->
    owner σ lid = c /\ c <> [] /\ (lid ∉ retryer_queue (srv σ)) /\ forall j jb, ~ active σ lid j jb;
  lo_queued : lid ∈ retryer_queue (srv σ) ->
    owner σ lid = [] /\ forall j jb, ~ active σ lid j jb;
  lo_active : forall j jb, active σ lid j jb ->
    owner σ lid <> [] /\ (forall c, jb = RetryCalling lid c -> c = owner σ lid) /\
    forall j' jb', active σ lid j' jb' -> j' = j
}.

(** The locks the queues and the jobs refer to. *)
Definition known (σ : sys) (lid : lockid) : Prop :=
  lid ∈ retryer_queue (srv σ) \/ lid ∈ revoker_queue (srv σ) \/
  (exists j jb, jobs σ !! j = Some jb /\ job_lid jb = lid).

Record table_ok (σ : sys) : Prop := TableOk {
  to_entry : forall lid l, lock_table (srv σ) !! lid = Some l ->
    l_id l = lid /\ Forall (fun c => c <> []) (waiting_cls l);
  to_known : forall lid, known σ lid -> is_Some (lock_table (srv σ) !! lid)
}.

Record inv (σ : sys) : Prop := Inv {
  inv_table : table_ok σ;
  inv_nodup : NoDup (retryer_queue (srv σ));
  inv_lock : forall lid, lock_ok σ lid
}.

(** What [lock_ok] of a lock depends on. *)
Definition same_view (σ σ' : sys) (lid : lockid) : Prop :=
  owner σ' lid = owner σ lid /\
  (lid ∈ retryer_queue (srv σ') <-> lid ∈ retryer_queue (srv σ)) /\
  (forall j jb, active σ' lid j jb <-> active σ lid j jb) /\
  (forall c, (lid, c) ∈ holders σ' <-> (lid, c) ∈ holders σ).

Lemma sc_lock_ok_same σ σ' lid : same_view σ σ' lid -> lock_ok σ lid -> lock_ok σ' lid.
Proof.
  intros (Ho & Hq & Ha & Hh) [H1 H2 H3]. split.
  - intros c Hc. rewrite Ho, Hq. apply Hh, H1 in Hc as (? & ? & ? & Hn).
    do 3 (split; [done|]). intros j jb. rewrite Ha. auto.
  - rewrite Hq, Ho. intros Hl. destruct (H2 Hl) as [? Hn]. split; [done|]. intros j jb. rewrite Ha. auto.
  - intros j jb Hj. apply Ha in Hj as Hj'. rewrite Ho. destruct (H3 _ _ Hj') as (? & ? & Hu).
    do 2 (split; [done|]). intros j' jb' Hj2. apply Ha in Hj2. eauto.
Qed.

(** A step concerns one lock; the others keep their view. *)
Lemma sc_locks_frame L σ σ' :
  (forall lid, lid <> L -> same_view σ σ' lid) -> lock_ok σ' L ->
  (forall lid, lock_ok σ lid) -> forall lid, lock_ok σ' lid.
Proof.
  intros Hf HL H lid. destruct (decide (lid = L)) as [->|]; [done|].
  eapply sc_lock_ok_same; eauto.
Qed.

Lemma sc_get_put lid lid' l s :
  get_lock lid' (put_lock lid l s) = if decide (lid = lid') then l else get_lock lid' s.
Proof.
  unfold get_lock, put_lock. cbn. case_decide; subst; [by rewrite lookup_insert_eq|].
  by rewrite lookup_insert_ne.
Qed.

Lemma get_lock_ok σ lid : table_ok σ -> Forall (fun c => c <> []) (waiting_cls (get_lock lid (srv σ))).
Proof.
  intros Ht. unfold get_lock. destruct (lock_table (srv σ) !! lid) eqn:E; cbn; [|done].
  apply (to_entry _ Ht _ _ E).
Qed.

Lemma owned_id σ lid : table_ok σ -> owner σ lid <> [] ->
  lock_table (srv σ) !! lid = Some (get_lock lid (srv σ)) /\ l_id (get_lock lid (srv σ)) = lid.
Proof.
  unfold owner, get_lock. intros Ht Ho. destruct (lock_table (srv σ) !! lid) eqn:E; [|done].
  split; [done|]. apply (to_entry _ Ht _ _ E).
Qed.

(** Replacing a job by another of the same lock leaves the active jobs of
    every other lock. *)
Lemma active_replace σ s h L j jb jb' lid :
  jobs σ !! j = Some jb -> job_lid jb = L -> job_lid jb' = L -> lid <> L ->
  forall k kb, active (Sys s (<[j := jb']> (jobs σ)) h) lid k kb <-> active σ lid k kb.
Proof.
  intros Hj H1 H2 Hne k kb. unfold active. cbn. destruct (decide (j = k)) as [->|Hk].
  - rewrite lookup_insert_eq. split; intros (E & El & _); simplify_eq.
  - by rewrite lookup_insert_ne.
Qed.

Lemma active_delete σ s h L j jb lid :
  jobs σ !! j = Some jb -> job_lid jb = L -> lid <> L ->
  forall k kb, active (Sys s (delete j (jobs σ)) h) lid k kb <-> active σ lid k kb.
Proof.
  intros Hj H1 Hne k kb. unfold active. cbn. destruct (decide (j = k)) as [->|Hk].
  - rewrite lookup_delete_eq. split; intros (E & El & _); simplify_eq.
  - by rewrite lookup_delete_ne.
Qed.

Lemma active_new σ s h L j jb lid :
  jobs σ !! j = None -> job_lid jb = L -> lid <> L ->
  forall k kb, active (Sys s (<[j := jb]> (jobs σ)) h) lid k kb <-> active σ lid k kb.
Proof.
  intros Hj H1 Hne k kb. unfold active. cbn. destruct (decide (j = k)) as [->|Hk].
  - rewrite lookup_insert_eq. split; intros (E & El & _); simplify_eq.
  - by rewrite lookup_insert_ne.
Qed.

(** A step that stores a good entry for [L], or leaves the table and knows
    [L], and mentions no lock but [L] that was not mentioned before. *)
Lemma table_ok_put L l σ σ' :
  table_ok σ -> lock_table (srv σ') = <[L := l]> (lock_table (srv σ)) ->
  l_id l = L -> Forall (fun c => c <> []) (waiting_cls l) ->
  (forall lid, known σ' lid -> lid = L \/ known σ lid) -> table_ok σ'.
Proof.
  intros [H1 H2] Et Hid Hw Hk. split.
  - intros lid l'. rewrite Et. destruct (decide (L = lid)) as [<-|].
    + rewrite lookup_insert_eq. intros [= <-]. done.
    + rewrite lookup_insert_ne by done. apply H1.
  - intros lid Hl. rewrite Et. destruct (decide (L = lid)) as [<-|].
    + rewrite lookup_insert_eq. done.
    + rewrite lookup_insert_ne by done. apply Hk in Hl as [->|Hl]; [done|auto].
Qed.

Lemma table_ok_keep L σ σ' :
  table_ok σ -> lock_table (srv σ') = lock_table (srv σ) -> is_Some (lock_table (srv σ) !! L) ->
  (forall lid, known σ' lid -> lid = L \/ known σ lid) -> table_ok σ'.
Proof.
  intros Ht Et [l Hl] Hk. destruct (to_entry _ Ht _ _ Hl) as [Hi Hw].
  apply (table_ok_put L l σ); try done. by rewrite insert_id.
Qed.

Lemma known_jobs σ s h (m : gmap positive job) L lid :
  (forall j jb, m !! j = Some jb -> job_lid jb = L \/ jobs σ !! j = Some jb) ->
  known (Sys s m h) lid ->
  lid ∈ retryer_queue s \/ lid ∈ revoker_queue s \/ lid = L \/ known σ lid.
Proof.
  intros Hm [H|[H|(j & jb & Hj & <-)]]; [by left|by right; left|]. cbn in Hj.
  right; right. destruct (Hm _ _ Hj) as [?|?]; [by left|right; right; right; eauto].
Qed.

(** *** Preservation, operation by operation *)

Lemma acquire_eq lid id s :
  let l := default (Lock lid [] []) (lock_table s !! lid) in
  acquire lid id s =
    if bool_decide (owner_cl l = []) then (lock_protocol.OK, put_lock lid (with_owner id l) s)
    else (lock_protocol.RETRY, put_lock lid (with_waiting (waiting_cls l ++ [id]) l)
      (if i32 (lenZ (waiting_cls l)) =? 0 then set_revoker (revoker_queue s ++ [lid]) true s else s)).
Proof.
  cbv zeta. unfold acquire, get_lock. destruct (lock_table s !! lid) as [l|] eqn:E; cbn.
  - rewrite E. cbn. case_bool_decide; done.
  - rewrite lookup_insert_eq. cbn. unfold put_lock. cbn. by rewrite insert_insert_eq.
Qed.

Lemma acquire_inv σ lid id ret s :
  inv σ -> acquire lid id (srv σ) = (ret, s) -> id <> [] -> lid ∉ retryer_queue (srv σ) ->
  inv (Sys s (jobs σ) (if ret =? lock_protocol.OK then {[ (lid, id) ]} ∪ holders σ else holders σ)).
Proof.
  intros [Ht Hn Hl] E Hid Hq. rewrite acquire_eq in E.
  set (l := default (Lock lid [] []) (lock_table (srv σ) !! lid)) in E.
  assert (l_id l = lid /\ Forall (fun c => c <> []) (waiting_cls l) /\ owner σ lid = owner_cl l) as (Hi & Hw & Ho).
  { unfold l, owner, get_lock. destruct (lock_table (srv σ) !! lid) eqn:El; [|done].
    destruct (to_entry _ Ht _ _ El). done. }
  clearbody l. case_bool_decide as Ho'; injection E as <- <-; cbn [Z.eqb lock_protocol.OK lock_protocol.RETRY].
  - split; [| |apply (sc_locks_frame lid σ)]; try done.
    + apply (table_ok_put lid (with_owner id l) σ); try done. intros k Hk. by right.
    + intros k Hne. split; [|split; [|split]]; try done.
      * unfold owner. cbn. rewrite sc_get_put, decide_False by done. done.
      * intros c. cbn. set_solver.
    + destruct (Hl lid) as [H1 H2 H3]. split; unfold owner; cbn; rewrite ?sc_get_put, ?decide_True by done; cbn.
      * intros c [Hc|Hc]%elem_of_union.
        -- apply elem_of_singleton in Hc as [= ->]. do 3 (split; [done|]). intros j jb Hj.
           apply H3 in Hj as [? _]. congruence.
        -- apply H1 in Hc as (? & ? & _). congruence.
      * done.
      * intros j jb Hj. apply H3 in Hj as [? _]. congruence.
  - set (s1 := if i32 (lenZ (waiting_cls l)) =? 0 then _ else _).
    assert (retryer_queue s1 = retryer_queue (srv σ) /\ lock_table s1 = lock_table (srv σ) /\
      (forall k, k ∈ revoker_queue s1 -> k = lid \/ k ∈ revoker_queue (srv σ))) as (Hrq & Htb & Hvq).
    { subst s1. destruct (_ =? 0); cbn; [|naive_solver]. do 2 (split; [done|]). set_solver. }
    clearbody s1. split.
    + apply (table_ok_put lid (with_waiting (waiting_cls l ++ [id]) l) σ); cbn; [done|by rewrite Htb|done| |].
      * apply Forall_app. by repeat constructor.
      * intros k [Hk|[Hk|Hk]]; cbn in Hk; [right; left; by rewrite <- Hrq| |by right; right; right].
        apply Hvq in Hk as [?|?]; [by left|by right; right; left].
    + cbn. by rewrite Hrq.
    + intros k. apply (sc_lock_ok_same σ); [|done]. split; [|split; [|done]]; cbn; [|by rewrite Hrq].
      unfold owner. cbn. rewrite sc_get_put. case_decide; [subst; done|]. unfold get_lock. by rewrite Htb.
Qed.

Lemma sc_release_inv σ lid id ret s :
  inv σ -> (lid, id) ∈ holders σ -> release lid id (srv σ) = (ret, s) ->
  inv (Sys s (jobs σ) (if ret =? lock_protocol.OK then holders σ ∖ {[ (lid, id) ]} else holders σ)).
Proof.
  intros [Ht Hn Hl] Hh E. pose proof (lo_held _ _ (Hl lid) _ Hh) as (Ho & Hid & Hq & Ha).
  destruct (owned_id σ lid Ht) as [El Ei]; [by rewrite Ho|].
  unfold release in E. rewrite El in E. rewrite bool_decide_true in E by done. injection E as <- <-.
  cbn [Z.eqb lock_protocol.OK]. split.
  - eapply (table_ok_put lid); [done|reflexivity|done|by apply (get_lock_ok σ)|].
    intros k [Hk|[Hk|Hk]]; cbn in Hk; [|by right; right; left|by right; right; right].
    apply elem_of_app in Hk as [Hk|Hk%list_elem_of_singleton]; [by right; left|by left].
  - cbn. apply NoDup_app. split; [done|]. split; [|apply NoDup_singleton].
    intros k Hk Hk2%list_elem_of_singleton. by subst.
  - apply (sc_locks_frame lid σ); [| |done].
    + intros k Hne. split; [|split; [|split]]; cbn; try done.
      * unfold owner. cbn. change (get_lock k (set_retryer _ _ ?x)) with (get_lock k x).
        by rewrite sc_get_put, decide_False.
      * rewrite elem_of_app, list_elem_of_singleton. naive_solver.
      * intros c. set_solver.
    + split; unfold owner; cbn; change (get_lock lid (set_retryer _ _ ?x)) with (get_lock lid x);
        rewrite ?sc_get_put, ?decide_True by done; cbn.
      * intros c [Hc Hc']%elem_of_difference. apply (lo_held _ _ (Hl lid)) in Hc as (Hc & _).
        set_solver.
      * done.
      * intros j jb Hj. by apply Ha in Hj.
Qed.

Lemma retryer_inv σ added lid j s :
  inv σ -> retryer added (srv σ) = (Some lid, s) -> jobs σ !! j = None ->
  inv (Sys s (<[j := RetryPending lid]> (jobs σ)) (holders σ)).
Proof.
  intros [Ht Hn Hl] E Hj. unfold retryer in E. destruct (retryer_queue (srv σ)) as [|L q] eqn:Eq; [done|].
  destruct (waiting_cls (get_lock L (srv σ))) as [|c w] eqn:Ew; [done|].
  destruct added; [|done]. injection E as -> <-.
  destruct (to_known _ Ht lid) as [l El]; [left; rewrite Eq; by left|].
  assert (Eg : get_lock lid (srv σ) = l) by (unfold get_lock; by rewrite El).
  destruct (to_entry _ Ht _ _ El) as [Hi Hw]. rewrite Eg in *.
  assert (Hc : c <> []) by (rewrite Ew in Hw; by inversion Hw).
  apply NoDup_cons in Hn as [Hnq Hn].
  destruct (lo_queued _ _ (Hl lid)) as [Ho Ha]; [rewrite Eq; by left|].
  assert (Hnh : forall c, (lid, c) ∉ holders σ).
  { intros d Hd. apply (lo_held _ _ (Hl lid)) in Hd as (? & ? & _). congruence. }
  split; [| exact Hn |].
  - apply (table_ok_put lid (with_owner c l) σ); try done; [cbn; apply insert_insert_eq|].
    intros k Hk. eapply known_jobs in Hk as [Hk|[Hk|[Hk|Hk]]]; [| | | |].
    + right; left. rewrite Eq. by right.
    + by right; right; left.
    + by left.
    + by right.
    + intros i ib. destruct (decide (i = j)) as [->|]; [rewrite lookup_insert_eq; intros [= <-]; by left|].
      rewrite lookup_insert_ne by done. by right.
  - apply (sc_locks_frame lid σ); [| |done].
    + intros k Hne. split; [|split; [|split]]; cbn.
      * unfold owner. cbn. rewrite sc_get_put, decide_False by done.
        change (get_lock k (set_retryer _ _ ?x)) with (get_lock k x). by rewrite sc_get_put, decide_False.
      * rewrite Eq, elem_of_cons. naive_solver.
      * by apply (active_new σ _ _ lid).
      * done.
    + assert (Hone : forall i ib, active (Sys (put_lock lid (with_owner c l) (set_retryer q (retryer_awake (srv σ))
          (put_lock lid l (srv σ)))) (<[j := RetryPending lid]> (jobs σ)) (holders σ)) lid i ib ->
          i = j /\ ib = RetryPending lid).
      { intros i ib (Hi1 & Hi2 & Hi3). cbn in Hi1. destruct (decide (i = j)) as [->|].
        - rewrite lookup_insert_eq in Hi1. by simplify_eq.
        - rewrite lookup_insert_ne in Hi1 by done. by destruct (Ha i ib). }
      split; unfold owner; cbn; rewrite ?sc_get_put, ?decide_True by done; cbn.
      * intros d Hd. by apply Hnh in Hd.
      * intros Hd. by apply Hnq in Hd.
      * intros i ib Hib. apply Hone in Hib as [-> ->]. split; [done|]. split; [done|].
        intros i' ib' Hib'. by apply Hone in Hib' as [-> _].
Qed.

(** A lock nobody holds, queues or grants is fine with any owner. *)
Lemma lock_ok_idle σ lid :
  (forall c, (lid, c) ∉ holders σ) -> lid ∉ retryer_queue (srv σ) -> (forall j jb, ~ active σ lid j jb) ->
  lock_ok σ lid.
Proof.
  intros Hh Hq Ha. split.
  - intros c Hc. by apply Hh in Hc.
  - done.
  - intros j jb Hj. by apply Ha in Hj.
Qed.

Lemma retryer_none_inv σ added s :
  inv σ -> retryer added (srv σ) = (None, s) -> inv (Sys s (jobs σ) (holders σ)).
Proof.
  intros [Ht Hn Hl] E. unfold retryer in E. destruct (retryer_queue (srv σ)) as [|L q] eqn:Eq.
  { injection E as <-. split; [|constructor|].
    - destruct Ht as [H1 H2]. split; [done|]. intros k [Hk|Hk]; [by apply not_elem_of_nil in Hk|].
      apply H2. by right.
    - intros k. apply (sc_lock_ok_same σ); [|done]. split; [done|]. split; [|done]. by rewrite Eq. }
  destruct (to_known _ Ht L) as [l El]; [left; rewrite Eq; by left|].
  assert (Eg : get_lock L (srv σ) = l) by (unfold get_lock; by rewrite El).
  destruct (to_entry _ Ht _ _ El) as [Hi Hw].
  apply NoDup_cons in Hn as [Hnq Hn].
  destruct (lo_queued _ _ (Hl L)) as [Ho Ha]; [rewrite Eq; by left|].
  assert (exists o, lock_table s = <[L := with_owner o l]> (lock_table (srv σ)) /\
    retryer_queue s = q /\ revoker_queue s = revoker_queue (srv σ)) as (o & Et & Erq & Evq).
  { rewrite Eg in E. destruct (waiting_cls l) as [|c w] eqn:Ew.
    - injection E as <-. exists (owner_cl l). by destruct l.
    - destruct added; [done|]. injection E as <-. exists c. cbn. by rewrite insert_insert_eq. }
  split; [|by cbn; rewrite Erq|].
  - apply (table_ok_put L (with_owner o l) σ); try done.
    intros k [Hk|[Hk|Hk]]; cbn in Hk; rewrite ?Erq, ?Evq in Hk; right;
      [left; rewrite Eq; by right|by right; left|by right; right].
  - apply (sc_locks_frame L σ); [| |done].
    + intros k Hne. split; [|split; [|done]]; cbn.
      * unfold owner, get_lock. cbn. by rewrite Et, lookup_insert_ne.
      * rewrite Erq, Eq, elem_of_cons. naive_solver.
    + apply lock_ok_idle; cbn; [|by rewrite Erq|done].
      intros c Hc. apply (lo_held _ _ (Hl L)) in Hc as (? & ? & _). congruence.
Qed.

(** Steps that leave every owner, the retryer's queue, the holders and the
    granting jobs alone. *)
Lemma sc_quiet_inv σ σ' :
  inv σ -> table_ok σ' -> retryer_queue (srv σ') = retryer_queue (srv σ) -> holders σ' = holders σ ->
  (forall k, owner σ' k = owner σ k) -> (forall k j jb, active σ' k j jb <-> active σ k j jb) -> inv σ'.
Proof.
  intros [Ht Hn Hl] Ht' Hq Hh Ho Ha. split; [done|by rewrite Hq|]. intros k.
  apply (sc_lock_ok_same σ); [|done]. split; [auto|]. split; [by rewrite Hq|]. split; [auto|]. by rewrite Hh.
Qed.

Lemma active_revoke σ s h j jb :
  (forall jb0, jobs σ !! j = Some jb0 -> ~ granting jb0) -> ~ granting jb ->
  forall k i ib, active (Sys s (<[j := jb]> (jobs σ)) h) k i ib <-> active σ k i ib.
Proof.
  intros H0 H1 k i ib. unfold active. cbn. destruct (decide (j = i)) as [->|Hne].
  - rewrite lookup_insert_eq. split; intros (E & _ & Hg); [by simplify_eq|by destruct (H0 _ E)].
  - by rewrite lookup_insert_ne.
Qed.

Lemma active_done σ s h j jb :
  jobs σ !! j = Some jb -> ~ granting jb ->
  forall k i ib, active (Sys s (delete j (jobs σ)) h) k i ib <-> active σ k i ib.
Proof.
  intros H0 H1 k i ib. unfold active. cbn. destruct (decide (j = i)) as [->|Hne].
  - rewrite lookup_delete_eq. split; intros (E & _ & Hg); by simplify_eq.
  - by rewrite lookup_delete_ne.
Qed.

Lemma revoker_eq σ added o s :
  table_ok σ -> revoker added (srv σ) = (o, s) ->
  lock_table s = lock_table (srv σ) /\ retryer_queue s = retryer_queue (srv σ) /\
  (forall k, k ∈ revoker_queue s -> k ∈ revoker_queue (srv σ)) /\
  (forall lid, o = Some lid -> lid ∈ revoker_queue (srv σ)).
Proof.
  intros Ht E. unfold revoker in E. destruct (revoker_queue (srv σ)) as [|L q] eqn:Eq.
  { injection E as <- <-. split; [done|]. split; [done|]. split; [|done]. intros k Hk. cbn in Hk. by rewrite ?Eq. }
  destruct (to_known _ Ht L) as [l El]; [right; left; rewrite Eq; by left|].
  assert (Eg : get_lock L (srv σ) = l) by (unfold get_lock; by rewrite El). rewrite Eg in E.
  assert (Hid : <[L := l]> (lock_table (srv σ)) = lock_table (srv σ)) by (by apply insert_id).
  destruct (waiting_cls l); [|destruct added]; injection E as <- <-; cbn; rewrite Hid, ?Eq;
    (do 2 (split; [done|])); (split; [intros k Hk; by right|]); intros k [= <-]; by left.
Qed.

Lemma known_insert σ j jb s h lid :
  retryer_queue s = retryer_queue (srv σ) ->
  (forall k, k ∈ revoker_queue s -> k ∈ revoker_queue (srv σ)) ->
  known (Sys s (<[j := jb]> (jobs σ)) h) lid -> lid = job_lid jb \/ known σ lid.
Proof.
  intros Hrq Hvq Hk. eapply (known_jobs σ _ _ _ (job_lid jb)) in Hk as [Hk|[Hk|[Hk|Hk]]].
  - right; left. by rewrite <- Hrq.
  - right; right; left. auto.
  - by left.
  - by right.
  - intros i ib. destruct (decide (j = i)) as [->|]; [rewrite lookup_insert_eq; intros [= <-]; by left|].
    rewrite lookup_insert_ne by done. by right.
Qed.

Lemma known_delete σ j s h lid L :
  (forall k, k ∈ retryer_queue s -> k = L \/ k ∈ retryer_queue (srv σ)) ->
  (forall k, k ∈ revoker_queue s -> k = L \/ k ∈ revoker_queue (srv σ)) ->
  known (Sys s (delete j (jobs σ)) h) lid -> lid = L \/ known σ lid.
Proof.
  intros Hrq Hvq Hk. eapply (known_jobs σ _ _ _ L) in Hk as [Hk|[Hk|[Hk|Hk]]].
  - apply Hrq in Hk as [?|?]; [by left|by right; left].
  - apply Hvq in Hk as [?|?]; [by left|by right; right; left].
  - by left.
  - by right.
  - intros i ib [_ Hi]%lookup_delete_Some. by right.
Qed.

(** A granting job that becomes another granting job of the same lock. *)
Lemma retry_move_inv σ j jb jb' :
  inv σ -> jobs σ !! j = Some jb -> granting jb -> granting jb' -> job_lid jb' = job_lid jb ->
  (forall c, jb' = RetryCalling (job_lid jb) c -> c = owner σ (job_lid jb)) ->
  inv (Sys (srv σ) (<[j := jb']> (jobs σ)) (holders σ)).
Proof.
  intros [Ht Hn Hl] Hj Hg Hg' Hid Hc. set (L := job_lid jb) in *.
  assert (HA : active σ L j jb) by done.
  split; [|done|].
  - apply (table_ok_keep L σ); [done|done|apply (to_known _ Ht); right; right; eauto|].
    intros k Hk. rewrite <- Hid. by apply known_insert in Hk.
  - apply (sc_locks_frame L σ); [| |done].
    + intros k Hne. do 2 (split; [done|]). split; [|done]. by apply (active_replace σ _ _ L j jb).
    + destruct (Hl L) as [H1 H2 H3]. destruct (H3 _ _ HA) as (Ho & _ & Hu).
      assert (Hone : forall i ib, active (Sys (srv σ) (<[j := jb']> (jobs σ)) (holders σ)) L i ib ->
        i = j /\ ib = jb').
      { intros i ib (Hi1 & Hi2 & Hi3). cbn in Hi1. destruct (decide (j = i)) as [<-|Hne].
        - rewrite lookup_insert_eq in Hi1. by simplify_eq.
        - rewrite lookup_insert_ne in Hi1 by done. exfalso. apply Hne. symmetry. by apply (Hu i ib). }
      split; cbn.
      * intros c Hc1. apply H1 in Hc1 as (_ & _ & _ & Hna). by destruct (Hna _ _ HA).
      * intros Hq. destruct (H2 Hq) as [_ Hna]. by destruct (Hna _ _ HA).
      * intros i ib Hib. apply Hone in Hib as [-> ->]. split; [done|]. split; [done|].
        intros i' ib' Hib'. by apply Hone in Hib' as [-> _].
Qed.

(** No job of [L] is active once its one active job is gone. *)
Lemma active_gone σ σ' L j jb :
  inv σ -> active σ L j jb ->
  (forall i ib, jobs σ' !! i = Some ib -> granting ib -> i <> j /\ jobs σ !! i = Some ib) ->
  forall i ib, ~ active σ' L i ib.
Proof.
  intros [Ht Hn Hl] HA Hj i ib (H1 & H2 & H3). destruct (Hj _ _ H1 H3) as [Hne Hi].
  destruct (lo_active _ _ (Hl L) _ _ HA) as (_ & _ & Hu). apply Hne. by apply (Hu i ib).
Qed.

Lemma retry_accept_inv σ j lid c :
  inv σ -> jobs σ !! j = Some (RetryCalling lid c) ->
  inv (Sys (srv σ) (<[j := RetryReplied lid rlock_protocol.OK]> (jobs σ)) ({[ (lid, c) ]} ∪ holders σ)).
Proof.
  intros Hi Hj. pose proof Hi as [Ht Hn Hl].
  assert (HA : active σ lid j (RetryCalling lid c)) by done.
  destruct (Hl lid) as [H1 H2 H3]. destruct (H3 _ _ HA) as (Ho & Hc & _). specialize (Hc c eq_refl).
  split; [|done|].
  - apply (table_ok_keep lid σ); [done|done|apply (to_known _ Ht); right; right; eauto|].
    intros k Hk. by apply known_insert in Hk.
  - apply (sc_locks_frame lid σ); [| |done].
    + intros k Hne. do 2 (split; [done|]). split; [by apply (active_replace σ _ _ lid j (RetryCalling lid c))|].
      intros d. cbn. set_solver.
    + assert (Hna : forall i ib, ~ active (Sys (srv σ) (<[j := RetryReplied lid rlock_protocol.OK]> (jobs σ))
          ({[ (lid, c) ]} ∪ holders σ)) lid i ib).
      { apply (active_gone σ _ lid j (RetryCalling lid c)); [done|done|]. cbn. intros i ib.
        destruct (decide (j = i)) as [<-|].
        - rewrite lookup_insert_eq. by intros [= <-].
        - by rewrite lookup_insert_ne. }
      split; cbn.
      * intros d [Hd|Hd]%elem_of_union.
        -- apply elem_of_singleton in Hd as [= ->]. split; [done|]. split; [congruence|]. split; [|done].
           intros Hq. destruct (H2 Hq) as [_ Hq']. by destruct (Hq' _ _ HA).
        -- apply H1 in Hd as (_ & _ & _ & Hd). by destruct (Hd _ _ HA).
      * intros Hq. destruct (H2 Hq) as [_ Hq']. by destruct (Hq' _ _ HA).
      * intros i ib Hib. by apply Hna in Hib.
Qed.

Lemma retry_finish_inv σ j lid ret s :
  inv σ -> jobs σ !! j = Some (RetryReplied lid ret) -> retryer_rpc lid ret (srv σ) = Ret s ->
  inv (Sys s (delete j (jobs σ)) (holders σ)).
Proof.
  intros Hi Hj E. pose proof Hi as [Ht Hn Hl].
  destruct (to_known _ Ht lid) as [l El]; [right; right; eauto|].
  assert (Eg : get_lock lid (srv σ) = l) by (unfold get_lock; by rewrite El).
  destruct (to_entry _ Ht _ _ El) as [Hid Hw].
  unfold retryer_rpc in E. rewrite Eg, Hid in E. destruct (Z.eqb_spec ret rlock_protocol.OK) as [->|Hr]; cbn [negb] in E.
  - destruct (waiting_cls l) as [|c w] eqn:Ew; [done|].
    set (s1 := put_lock lid (with_waiting w l) (srv σ)) in E.
    assert (lock_table s = lock_table s1 /\ retryer_queue s = retryer_queue s1 /\
      (forall k, k ∈ revoker_queue s -> k = lid \/ k ∈ revoker_queue (srv σ))) as (Et & Erq & Evq).
    { injection E as <-. destruct w; cbn; [naive_solver|]. do 2 (split; [done|]). set_solver. }
    apply (sc_quiet_inv σ); [done| | |done| |by eapply (active_done σ); [done|intros Hg; apply Hg]].
    + apply (table_ok_put lid (with_waiting w l) σ); [done|exact Et|done|by inversion Hw|].
      intros k Hk. apply (known_delete σ j s (holders σ) k lid) in Hk; [done| |done]. cbn in Erq. rewrite Erq. naive_solver.
    + exact Erq.
    + intros k. unfold owner, get_lock. cbn. rewrite Et. cbn. destruct (decide (lid = k)) as [<-|].
      * by rewrite lookup_insert_eq, El.
      * by rewrite lookup_insert_ne.
  - injection E as <-. assert (HA : active σ lid j (RetryReplied lid ret)) by done.
    destruct (Hl lid) as [H1 H2 H3].
    assert (Hq : lid ∉ retryer_queue (srv σ)).
    { intros Hq. destruct (H2 Hq) as [_ Hq']. by destruct (Hq' _ _ HA). }
    split.
    + eapply (table_ok_put lid (with_owner [] l) σ); try done.
      intros k Hk. apply (known_delete σ j _ _ k lid) in Hk; [done| |naive_solver]. cbn. set_solver.
    + cbn. apply NoDup_app. split; [done|]. split; [|apply NoDup_singleton].
      intros k Hk Hk2%list_elem_of_singleton. by subst.
    + apply (sc_locks_frame lid σ); [| |done].
      * intros k Hne. split; [|split; [|split]]; cbn.
        -- unfold owner, get_lock. cbn. by rewrite lookup_insert_ne.
        -- rewrite elem_of_app, list_elem_of_singleton. naive_solver.
        -- by apply (active_delete σ _ _ lid j (RetryReplied lid ret)).
        -- done.
      * set (σ' := Sys _ _ _).
        assert (Hna : forall i ib, ~ active σ' lid i ib).
        { apply (active_gone σ _ lid j (RetryReplied lid ret)); [done|done|]. cbn. intros i ib.
          rewrite lookup_delete_Some. naive_solver. }
        split; cbn.
        -- intros d Hd. apply H1 in Hd as (_ & _ & _ & Hd). by destruct (Hd _ _ HA).
        -- intros _. split; [|done]. unfold owner, get_lock. cbn. by rewrite lookup_insert_eq.
        -- intros i ib Hib. by apply Hna in Hib.
Qed.

Lemma service_inv σ σ' : inv σ -> service σ σ' -> inv σ'.
Proof.
  intros Hi Hs. pose proof Hi as [Ht Hn Hl]. destruct Hs as
    [σ added j s lid _ E Hj|σ added s _ E|σ added j s lid _ E Hj|σ added s _ E|σ|σ j lid Hj
    |σ j lid c ret Hj Hr|σ j lid ret s Hj E|σ j lid ret Hj].
  - by eapply retryer_inv.
  - by eapply retryer_none_inv.
  - destruct (revoker_eq σ _ _ _ Ht E) as (Et & Erq & Hvq & Hlid). specialize (Hlid lid eq_refl).
    apply (sc_quiet_inv σ); [done| |done|done| |].
    + apply (table_ok_keep lid σ); [done|done|apply (to_known _ Ht); by right; left|].
      intros k Hk. by apply known_insert in Hk.
    + intros k. unfold owner, get_lock. cbn. by rewrite Et.
    + apply active_revoke; [intros jb0 Hj0; congruence|cbn; tauto].
  - destruct (revoker_eq σ _ _ _ Ht E) as (Et & Erq & Hvq & _).
    apply (sc_quiet_inv σ); [done| |done|done| |done].
    + destruct Ht as [H1 H2]. split; cbn; rewrite Et; [done|]. intros k [Hk|[Hk|Hk]]; cbn in Hk; apply H2.
      * left. by rewrite <- Erq.
      * right; left; auto.
      * by right; right.
    + intros k. unfold owner, get_lock. cbn. by rewrite Et.
  - apply (sc_quiet_inv σ); try done. destruct Ht as [H1 H2]. by split.
  - by apply (retry_move_inv σ j (RetryPending lid)); [..|intros c [= <-]].
  - by apply (retry_move_inv σ j (RetryCalling lid c)).
  - by eapply retry_finish_inv.
  - destruct (to_known _ Ht lid) as [l El]; [right; right; eauto|].
    assert (Eg : get_lock lid (srv σ) = l) by (unfold get_lock; by rewrite El).
    destruct (to_entry _ Ht _ _ El) as [Hid _].
    apply (sc_quiet_inv σ); [done| | |done| |eapply (active_done σ); [done|cbn; tauto]];
      unfold revoker_rpc; rewrite Eg, Hid; destruct (negb _); try done.
    + apply (table_ok_keep lid σ); [done|done|done|].
      intros k Hk. apply (known_delete σ j _ _ k lid) in Hk; [done|naive_solver|cbn; set_solver].
    + apply (table_ok_keep lid σ); [done|done|done|].
      intros k Hk. apply (known_delete σ j _ _ k lid) in Hk; [done|naive_solver..].
Qed.

Lemma sc_step_inv σ σ' : inv σ -> step true σ σ' -> inv σ'.
Proof.
  intros Hi Hs. pose proof Hi as [Ht Hn Hl]. destruct Hs as
    [σ lid id ret s E Hid Hq|σ lid id ret s Hh E|σ σ' Hs|σ j lid c Hj|σ j lid c ret Hg|σ j lid ret Hj].
  - by apply acquire_inv; [| | |apply Hq].
  - by apply sc_release_inv.
  - by eapply service_inv.
  - by apply retry_accept_inv.
  - discriminate Hg.
  - apply (sc_quiet_inv σ); [done| |done|done|done|].
    + apply (table_ok_keep lid σ); [done|done|apply (to_known _ Ht); right; right; eauto|].
      intros k Hk. by apply known_insert in Hk.
    + apply active_revoke; [intros jb0 Hj0; simplify_eq; cbn; tauto|cbn; tauto].
Qed.

Lemma sc_reachable_inv junk σ : reachable true junk σ -> inv σ.
Proof.
  induction 1 as [|σ σ' _ IH Hs]; [|by eapply sc_step_inv].
  assert (Hnil : forall lid : lockid, lid ∉ ([] : list lockid)) by (intros; apply not_elem_of_nil).
  split; [split|constructor|split]; unfold active; cbn.
  - intros lid l. by rewrite lookup_empty.
  - intros lid [H|[H|(j & jb & H & _)]]; cbn in H; try by apply Hnil in H. by rewrite lookup_empty in H.
  - intros c H. set_solver.
  - intros H. by apply Hnil in H.
  - intros j jb (H & _). by rewrite lookup_empty in H.
Qed.

(** ** Theorems *)

(** As long as no acquire of a lock is processed while the lock waits
    in the retryer's queue and a retry is reported to the server as the
    client answered it, at most one client holds each lock, under every
    interleaving of the handlers, the two service threads, the thread
    pool's jobs, failing retries and refused jobs. *)
Theorem lock_cache_mutex (junk : Z) (σ : sys) (lid : lockid) (c d : bytes) :
  reachable true junk σ -> (lid, c) ∈ holders σ -> (lid, d) ∈ holders σ -> c = d.
Proof.
  intros Hr Hc Hd. pose proof (inv_lock _ (sc_reachable_inv _ _ Hr) lid) as Hl.
  apply (lo_held _ _ Hl) in Hc as (<- & _). by apply (lo_held _ _ Hl) in Hd as (<- & _).
Qed.

(** Three clients of lock 7. *)
Definition cl1 : bytes := str "127.0.0.1:3001".
Definition cl2 : bytes := str "127.0.0.1:3002".
Definition cl3 : bytes := str "127.0.0.1:3003".

Definition acquire_of (lid : lockid) (id : bytes) (σ : sys) : sys :=
  let '(ret, s) := acquire lid id (srv σ) in
  Sys s (jobs σ) (if ret =? lock_protocol.OK then {[ (lid, id) ]} ∪ holders σ else holders σ).
Definition release_of (lid : lockid) (id : bytes) (σ : sys) : sys :=
  let '(ret, s) := release lid id (srv σ) in
  Sys s (jobs σ) (if ret =? lock_protocol.OK then holders σ ∖ {[ (lid, id) ]} else holders σ).

Lemma reach_acquire g junk lid id σ :
  reachable g junk σ -> id <> [] -> (g = true -> lid ∉ retryer_queue (srv σ)) ->
  reachable g junk (acquire_of lid id σ).
Proof.
  intros Hr Hid Hg. unfold acquire_of. destruct (acquire lid id (srv σ)) as [ret s] eqn:E.
  eapply reach_step; [done|]. by apply step_acquire.
Qed.

Lemma reach_release g junk lid id σ :
  reachable g junk σ -> (lid, id) ∈ holders σ -> reachable g junk (release_of lid id σ).
Proof.
  intros Hr Hh. unfold release_of. destruct (release lid id (srv σ)) as [ret s] eqn:E.
  eapply reach_step; [done|]. by apply step_release.
Qed.

(** cl1 holds the lock, cl2 waits. *)
Definition contended (junk : Z) : sys := acquire_of 7 cl2 (acquire_of 7 cl1 (sys_new junk)).

Lemma sc_contended_reachable g junk : reachable g junk (contended junk).
Proof.
  apply reach_acquire; [apply reach_acquire; [constructor|done|]|done|];
    intros _; cbn; apply not_elem_of_nil.
Qed.

Lemma lock_cache_mutex_witness :
  (7, cl1) ∈ holders (contended 0) /\ forall d, (7, d) ∈ holders (contended 0) -> cl1 = d.
Proof.
  assert (H : (7, cl1) ∈ holders (contended 0)) by (apply elem_of_union_l, elem_of_singleton; done).
  split; [exact H|]. intros d Hd. exact (lock_cache_mutex 0 _ 7 cl1 d (sc_contended_reachable true 0) H Hd).
Defined.

(** cl1 releases, cl3 acquires before the retryer runs, and the retryer
    then grants the lock to cl2. *)
Definition raced (junk : Z) : sys :=
  let σ1 := acquire_of 7 cl3 (release_of 7 cl1 (contended junk)) in
  let s := (retryer true (srv σ1)).2 in
  Sys s {[ 1%positive := RetryReplied 7 rlock_protocol.OK ]} ({[ (7, cl2) ]} ∪ holders σ1).

(** Without that restriction mutual exclusion fails: a client that
    acquires a lock after its release and before the retryer has run is
    granted it, and the retryer then grants the same lock to the first
    waiting client. *)
Theorem lock_cache_race (junk : Z) :
  exists σ c d, reachable false junk σ /\ c <> d /\ (7, c) ∈ holders σ /\ (7, d) ∈ holders σ.
Proof.
  exists (raced junk), cl2, cl3. split; [|split; [done|split; set_solver]].
  set (σ1 := acquire_of 7 cl3 (release_of 7 cl1 (contended junk))).
  assert (H1 : reachable false junk σ1).
  { apply reach_acquire; [|done..]. apply reach_release; [apply sc_contended_reachable|].
    apply elem_of_union_l, elem_of_singleton. done. }
  eapply reach_step in H1; [|eapply step_service, (sv_retryer _ true 1%positive); reflexivity].
  eapply reach_step in H1; [|eapply step_service, (sv_retry_call _ 1%positive); reflexivity].
  eapply reach_step in H1; [|eapply (step_retry_accept _ _ 1%positive); reflexivity].
  exact H1.
Qed.

(** A retry that fails is queued again without a signal: there is a
    reachable state in which the lock is free and a client waits for it,
    its retry is queued, and the retryer thread is asleep. *)
Theorem retry_not_signalled (junk : Z) :
  exists σ, reachable true junk σ /\ owner σ 7 = [] /\ waiting_cls (get_lock 7 (srv σ)) = [cl2] /\
    jobs σ = ∅ /\ retryer_queue (srv σ) = [7] /\ retryer_awake (srv σ) = false.
Proof.
  pose proof (reach_release true junk 7 cl1 _ (sc_contended_reachable true junk)) as H1.
  specialize (H1 ltac:(apply elem_of_union_l, elem_of_singleton; done)).
  eapply reach_step in H1; [|eapply step_service, (sv_retryer _ true 1%positive); reflexivity].
  eapply reach_step in H1; [|eapply step_service, (sv_retryer_none _ true); reflexivity].
  eapply reach_step in H1; [|eapply step_service, (sv_retry_call _ 1%positive); reflexivity].
  eapply reach_step in H1;
    [|eapply step_service, (sv_retry_fail _ 1%positive _ _ rlock_protocol.RPCERR); [reflexivity|done]].
  eapply reach_step in H1; [|eapply step_service, (sv_retry_finish _ 1%positive); reflexivity].
  eexists. split; [exact H1|]. do 4 (split; [reflexivity|]). reflexivity.
Qed.

(** The lock is handed over in the order of arrival: when the owner
    releases it, the retryer runs and the retry is accepted, the first
    waiting client is the new owner and no longer waits, the others keep
    their order, and a revocation is queued exactly when someone waits. *)
Theorem handover (lid : lockid) (id c : bytes) (ws : list bytes) (s : lock_server_cache) :
  lock_table s !! lid = Some (Lock lid id (c :: ws)) -> retryer_queue s = [] ->
  exists s1 s2 s3, release lid id s = (lock_protocol.OK, s1) /\ retryer true s1 = (Some lid, s2) /\
    rpc_target lid s2 = c /\ retryer_rpc lid rlock_protocol.OK s2 = Ret s3 /\
    lock_table s3 = <[lid := Lock lid c ws]> (lock_table s) /\ retryer_queue s3 = [] /\
    revoker_queue s3 = revoker_queue s ++ (if bool_decide (ws = []) then [] else [lid]).
Proof.
  intros El Eq. eexists _, _, _. split.
  { unfold release. rewrite El. cbn. by rewrite bool_decide_true. }
  split.
  { unfold retryer. cbn. rewrite Eq. cbn. unfold get_lock. cbn. rewrite lookup_insert_eq. cbn. reflexivity. }
  split; [unfold rpc_target; by rewrite sc_get_put, decide_True|]. split.
  { unfold retryer_rpc. rewrite sc_get_put, decide_True by done. cbn. reflexivity. }
  destruct ws; cbn; rewrite !insert_insert_eq, ?app_nil_r; done.
Qed.

Lemma handover_witness :
  exists s1 s2 s3, let s := srv (contended 0) in
    release 7 cl1 s = (lock_protocol.OK, s1) /\ retryer true s1 = (Some 7, s2) /\
    rpc_target 7 s2 = cl2 /\ retryer_rpc 7 rlock_protocol.OK s2 = Ret s3 /\
    lock_table s3 = <[7 := Lock 7 cl2 []]> (lock_table s) /\ retryer_queue s3 = [] /\
    revoker_queue s3 = revoker_queue s ++ (if bool_decide (([] : list bytes) = []) then [] else [7]).
Proof. apply (handover 7 cl1 cl2 [] (srv (contended 0))); reflexivity. Defined.

End lock_server_cache.
