(* ===== verification/LockClientCache.v ===== *)
(** * The caching lock client (lock_client_cache.cc/.h)

    Each definition is a stretch of code executed under
    lock_client_cache_mutex, between two points where the mutex is
    dropped: a wait on a condition variable or an RPC.  A step relation
    interleaves the application threads, the handlers called by the lock
    server and the releaser's jobs. *)

From Stdlib Require Import ZArith Lia.
From stdpp Require Import base list gmap sets.
From S2P Require Import Prelude LockServer.

#[local] Open Scope Z_scope.
#[local] Set Warnings "-clear-no-such-hyp".

Module lock_client_cache.

Inductive lockstate_t := NONE | FREE | LOCKED | ACQUIRING | RELEASING.
#[export] Instance lockstate_eq_dec : EqDecision lockstate_t.
Proof. solve_decision. Defined.

(** struct cache_lock.  A pthread_t is a number, 0 is nobody; the
    condition variables are [cond] below, [q] is the reply argument of the
    RPCs and is never read. *)
Record cache_lock := CacheLock {
  id : lockid;
  state : lockstate_t;
  owner : Z;
  ifrevoke : bool;
  iftimout : bool;
  ifrlsreq : bool;
  wait_threads : Z
}.

Inductive cond := queue_cond (lid : lockid) | revoke_cond (lid : lockid) | tmout_cond (lid : lockid)
  | releaser_cond.

(** The state the operations share; the port and the id string are set
    once by the constructor and only sent in the RPCs. *)
Record lock_client_cache := LockClientCache {
  cachelock_table : gmap lockid cache_lock;
  releaser_queue : list lockid
}.

Definition timeout_value : Z := 120.

Definition lock_client_cache_new : lock_client_cache := LockClientCache ∅ [].

(** [cachelock_table[lid]]: missing entries are value-initialised. *)
Definition get_lock (lid : lockid) (s : lock_client_cache) : cache_lock :=
  default (CacheLock 0 NONE 0 false false false 0) (cachelock_table s !! lid).

Definition put_lock (lid : lockid) (l : cache_lock) (s : lock_client_cache) : lock_client_cache :=
  LockClientCache (<[lid := l]> (cachelock_table s)) (releaser_queue s).

Definition push_releaser (lid : lockid) (s : lock_client_cache) : lock_client_cache :=
  LockClientCache (cachelock_table s) (releaser_queue s ++ [lid]).

Definition with_state (st : lockstate_t) (l : cache_lock) : cache_lock :=
  CacheLock (id l) st (owner l) (ifrevoke l) (iftimout l) (ifrlsreq l) (wait_threads l).
Definition with_owner (o : Z) (l : cache_lock) : cache_lock :=
  CacheLock (id l) (state l) o (ifrevoke l) (iftimout l) (ifrlsreq l) (wait_threads l).
Definition with_wait (n : Z) (l : cache_lock) : cache_lock :=
  CacheLock (id l) (state l) (owner l) (ifrevoke l) (iftimout l) (ifrlsreq l) n.
Definition with_revoke (b : bool) (l : cache_lock) : cache_lock :=
  CacheLock (id l) (state l) (owner l) b (iftimout l) (ifrlsreq l) (wait_threads l).
Definition with_timout (b r : bool) (l : cache_lock) : cache_lock :=
  CacheLock (id l) (state l) (owner l) (ifrevoke l) b r (wait_threads l).

(** ** acquire *)

(** Where a stretch of acquire ends. *)
Inductive progress :=
| Blocked       (* in pthread_cond_wait on queue_cond *)
| Calling       (* mutex dropped, the acquire RPC in flight *)
| Done (ret : Z).

(** The end of acquire when [ret] is OK. *)
Definition take (self : Z) (l : cache_lock) : cache_lock :=
  with_wait (wait_threads l - 1) (with_owner self (with_state LOCKED l)).

(** RETRY_WAIT: the loop on queue_cond, and what follows it. *)
Definition retry_wait (lid : lockid) (self : Z) (s : lock_client_cache)
  : progress * lock_client_cache :=
  let l := get_lock lid s in
  match state l with
  | FREE => (Done lock_protocol.OK, put_lock lid (take self l) s)
  | NONE => (Calling, put_lock lid (with_state ACQUIRING l) s)
  | _ => (Blocked, s)
  end.

Definition acquire (lid : lockid) (self : Z) (s : lock_client_cache) : progress * lock_client_cache :=
  let s := match cachelock_table s !! lid with
           | None => put_lock lid (CacheLock lid NONE 0 false false false 0) s
           | Some _ => s
           end in
  let l := get_lock lid s in
  let l := with_wait (wait_threads l + 1) l in
  let s := put_lock lid l s in
  match state l with
  | LOCKED =>
      if owner l =? self then (Done lock_protocol.OK, put_lock lid (take self l) s)
      else retry_wait lid self s
  | ACQUIRING | RELEASING => retry_wait lid self s
  | NONE => (Calling, put_lock lid (with_state ACQUIRING l) s)
  | FREE => (Done lock_protocol.OK, put_lock lid (take self l) s)
  end.

(** The acquire RPC returned [ret]: anything but RETRY counts as OK. *)
Definition acquire_return (lid : lockid) (self ret : Z) (s : lock_client_cache)
  : progress * lock_client_cache :=
  if ret =? lock_protocol.RETRY then retry_wait lid self s
  else (Done lock_protocol.OK, put_lock lid (take self (get_lock lid s)) s).

(** ** release and the handlers *)

Definition release (lid : lockid) (self : Z) (s : lock_client_cache)
  : Z * option cond * lock_client_cache :=
  match cachelock_table s !! lid with
  | None => (lock_protocol.NOENT, None, s)
  | Some l =>
      if bool_decide (state l = LOCKED) && (owner l =? self) then
        let c := if iftimout l || (ifrlsreq l && (wait_threads l =? 0)) then tmout_cond lid
                 else if ifrevoke l then revoke_cond lid else queue_cond lid in
        (lock_protocol.OK, Some c, put_lock lid (with_state FREE l) s)
      else (lock_protocol.NOENT, None, s)
  end.

(** The loop of revoke_handler and what follows; [None] while it waits on
    revoke_cond. *)
Definition revoke_loop (lid : lockid) (s : lock_client_cache) : option (Z * lock_client_cache) :=
  let l := get_lock lid s in
  match state l with
  | FREE => Some (rlock_protocol.OK,
              push_releaser lid (put_lock lid (with_state RELEASING (with_revoke false l)) s))
  | _ => None
  end.

(** revoke_handler up to its loop: [None] when the lock is not cached and
    RPCERR is returned. *)
Definition revoke_handler (lid : lockid) (s : lock_client_cache) : option lock_client_cache :=
  match cachelock_table s !! lid with
  | Some l => Some (put_lock lid (with_revoke true l) s)
  | None => None
  end.

Definition retry_handler (lid : lockid) (s : lock_client_cache) : Z * option cond * lock_client_cache :=
  match cachelock_table s !! lid with
  | Some l =>
      if bool_decide (state l = ACQUIRING)
      then (rlock_protocol.OK, Some (queue_cond lid), put_lock lid (with_state FREE l) s)
      else (rlock_protocol.RPCERR, None, s)
  | None => (rlock_protocol.RPCERR, None, s)
  end.

(** ** The releaser *)

(** One turn of the releaser's loop with a non-empty queue. *)
Definition releaser (s : lock_client_cache) : option (lockid * lock_client_cache) :=
  match releaser_queue s with
  | [] => None
  | lid :: q => Some (lid, LockClientCache (<[lid := get_lock lid s]> (cachelock_table s)) q)
  end.

Inductive releaser_progress := TimedWait | CallRelease.

(** releaser_rpc up to the timed wait, or up to the RPC. *)
Definition releaser_rpc (lid : lockid) (s : lock_client_cache)
  : res (releaser_progress * lock_client_cache) :=
  let l := get_lock lid s in
  verify (bool_decide (state l = RELEASING))
    (if wait_threads l >? 0
     then Ret (TimedWait, put_lock lid (with_timout (iftimout l) true (with_state FREE l)) s)
     else Ret (CallRelease, put_lock lid (with_state RELEASING (with_timout false false l)) s)).

(** pthread_cond_timedwait returned. *)
Definition releaser_timeout (lid : lockid) (s : lock_client_cache)
  : releaser_progress * lock_client_cache :=
  let l := get_lock lid s in
  let l := with_timout true (ifrlsreq l) l in
  if bool_decide (state l = FREE)
  then (CallRelease, put_lock lid (with_state RELEASING (with_timout false false l)) s)
  else (TimedWait, put_lock lid l s).

(** The release RPC returned [ret]. *)
Definition releaser_return (lid : lockid) (ret : Z) (s : lock_client_cache)
  : res (option cond * lock_client_cache) :=
  let l := get_lock lid s in
  verify (bool_decide (state l = RELEASING))
    (if ret =? lock_protocol.OK
     then Ret (if wait_threads l >? 0 then Some (queue_cond lid) else None,
               put_lock lid (with_state NONE (with_owner 0 l)) s)
     else Ret (None, push_releaser (id l) s)).

(** ** Interleavings *)

(** What thread [t] does about lock [lid].  [Call retried]: its acquire
    RPC is in flight; [retried] once a retry for the lock was accepted. *)
Inductive tpc := Out | Wait | Call (retried : bool) | Hold.

Inductive job := Pending (lid : lockid) | Timed (lid : lockid) | Releasing (lid : lockid).

Record sys := Sys {
  cc : lock_client_cache;
  threads : gmap (positive * lockid) tpc;
  revokes : list lockid;        (* revoke_handlers waiting on revoke_cond *)
  jobs : gmap positive job      (* releaser_rpc jobs *)
}.

Definition tpc_of (p : progress) : tpc :=
  match p with Blocked => Wait | Calling => Call false | Done _ => Hold end.

Definition job_of (p : releaser_progress) (lid : lockid) : job :=
  match p with TimedWait => Timed lid | CallRelease => Releasing lid end.

Definition at_lock (σ : sys) (t : positive) (lid : lockid) : tpc := default Out (threads σ !! (t, lid)).

(** A retry was accepted: the RPCs in flight for [lid] are answered. *)
Definition mark_retried (lid : lockid) (m : gmap (positive * lockid) tpc) : gmap (positive * lockid) tpc :=
  map_imap (fun k p => Some (match p with Call _ => if k.2 =? lid then Call true else p | _ => p end)) m.

Definition move (t : positive) (lid : lockid) (p : tpc) (s : lock_client_cache) (σ : sys) : sys :=
  Sys s (<[(t, lid) := p]> (threads σ)) (revokes σ) (jobs σ).

(** What the client does by itself: its application threads, which may
    wake from a condition variable at any time, the revoke_handlers that
    wait for their lock, the releaser and its jobs. *)
Inductive local : sys -> sys -> Prop :=
| loc_acquire σ t lid p s :
    at_lock σ t lid = Out \/ at_lock σ t lid = Hold ->
    acquire lid (Zpos t) (cc σ) = (p, s) -> local σ (move t lid (tpc_of p) s σ)
| loc_wake σ t lid p s :
    at_lock σ t lid = Wait -> retry_wait lid (Zpos t) (cc σ) = (p, s) ->
    local σ (move t lid (tpc_of p) s σ)
| loc_release σ t lid ret c s :
    at_lock σ t lid = Hold -> release lid (Zpos t) (cc σ) = (ret, c, s) ->
    local σ (move t lid Out s σ)
| loc_revoke_done σ lid ret s r1 r2 :
    revokes σ = r1 ++ lid :: r2 -> revoke_loop lid (cc σ) = Some (ret, s) ->
    local σ (Sys s (threads σ) (r1 ++ r2) (jobs σ))
| loc_releaser σ (added : bool) j lid s :
    releaser (cc σ) = Some (lid, s) -> jobs σ !! j = None ->
    local σ (Sys s (threads σ) (revokes σ) (if added then <[j := Pending lid]> (jobs σ) else jobs σ))
| loc_job σ j lid p s :
    jobs σ !! j = Some (Pending lid) -> releaser_rpc lid (cc σ) = Ret (p, s) ->
    local σ (Sys s (threads σ) (revokes σ) (<[j := job_of p lid]> (jobs σ)))
| loc_timeout σ j lid p s :
    jobs σ !! j = Some (Timed lid) -> releaser_timeout lid (cc σ) = (p, s) ->
    local σ (Sys s (threads σ) (revokes σ) (<[j := job_of p lid]> (jobs σ))).

(** The handlers, the replies of RPCs and the client's own steps.  With
    [exact] the lock server does not both grant a request and retry it: an
    acquire RPC during which a retry was accepted returns RETRY.  The client
    does not check this, and the server does not keep to it (see
    [LockSystem]); the client's own steps are those with [exact] = [false]. *)
Inductive step (exact : bool) : sys -> sys -> Prop :=
| step_local σ σ' : local σ σ' -> step exact σ σ'
| step_return σ t lid retried ret p s :
    at_lock σ t lid = Call retried -> (exact = true -> retried = true -> ret = lock_protocol.RETRY) ->
    acquire_return lid (Zpos t) ret (cc σ) = (p, s) ->
    step exact σ (move t lid (tpc_of p) s σ)
| step_revoke σ lid s :
    revoke_handler lid (cc σ) = Some s ->
    step exact σ (Sys s (threads σ) (lid :: revokes σ) (jobs σ))
| step_retry σ lid ret c s :
    retry_handler lid (cc σ) = (ret, c, s) ->
    step exact σ (Sys s (if ret =? rlock_protocol.OK then mark_retried lid (threads σ) else threads σ)
      (revokes σ) (jobs σ))
| step_job_return σ j lid ret c s :
    jobs σ !! j = Some (Releasing lid) -> releaser_return lid ret (cc σ) = Ret (c, s) ->
    step exact σ (Sys s (threads σ) (revokes σ) (delete j (jobs σ))).

Definition sys_new : sys := Sys lock_client_cache_new ∅ [] ∅.

Inductive reachable (exact : bool) : sys -> Prop :=
| reach_init : reachable exact sys_new
| reach_step σ σ' : reachable exact σ -> step exact σ σ' -> reachable exact σ'.

(** ** Invariant *)

Abbreviation st σ lid := (state (get_lock lid (cc σ))).
Abbreviation own σ lid := (owner (get_lock lid (cc σ))).

(** A job that owes the server a release it has not postponed. *)
Definition owing (σ : sys) (j : positive) (lid : lockid) : Prop :=
  jobs σ !! j = Some (Pending lid) \/ jobs σ !! j = Some (Releasing lid).

Record lock_ok (σ : sys) (lid : lockid) : Prop := LockOk {
  lo_hold : forall t, at_lock σ t lid = Hold -> st σ lid = LOCKED /\ own σ lid = Zpos t;
  lo_call : forall t, at_lock σ t lid = Call false ->
    st σ lid = ACQUIRING /\ forall t', at_lock σ t' lid = Call false -> t' = t;
  lo_queue : lid ∈ releaser_queue (cc σ) -> st σ lid = RELEASING /\ forall j, ~ owing σ j lid;
  lo_owing : forall j, owing σ j lid -> st σ lid = RELEASING /\ forall j', owing σ j' lid -> j' = j
}.

Record inv (σ : sys) : Prop := Inv {
  inv_id : forall lid l, cachelock_table (cc σ) !! lid = Some l -> id l = lid;
  inv_known : forall t lid, at_lock σ t lid <> Out -> is_Some (cachelock_table (cc σ) !! lid);
  inv_nodup : NoDup (releaser_queue (cc σ));
  inv_lock : forall lid, lock_ok σ lid
}.

Definition same_view (σ σ' : sys) (lid : lockid) : Prop :=
  st σ' lid = st σ lid /\ own σ' lid = own σ lid /\ (forall t, at_lock σ' t lid = at_lock σ t lid) /\
  (lid ∈ releaser_queue (cc σ') <-> lid ∈ releaser_queue (cc σ)) /\
  (forall j, owing σ' j lid <-> owing σ j lid).

Lemma cc_lock_ok_same σ σ' lid : same_view σ σ' lid -> lock_ok σ lid -> lock_ok σ' lid.
Proof.
  intros (Hs & Ho & Ha & Hq & Hj) [H1 H2 H3 H4]. split; rewrite ?Hs, ?Ho.
  - intros t. rewrite Ha. apply H1.
  - intros t. rewrite Ha. intros Ht. destruct (H2 _ Ht) as [? Hu]. split; [done|]. intros t'. rewrite Ha. apply Hu.
  - rewrite Hq. intros Hl. destruct (H3 Hl) as [? Hn]. split; [done|]. intros j. rewrite Hj. auto.
  - intros j. rewrite Hj. intros Hjo. destruct (H4 _ Hjo) as [? Hu]. split; [done|]. intros j'. rewrite Hj. auto.
Qed.

Lemma cc_locks_frame L σ σ' :
  (forall lid, lid <> L -> same_view σ σ' lid) -> lock_ok σ' L ->
  (forall lid, lock_ok σ lid) -> forall lid, lock_ok σ' lid.
Proof.
  intros Hf HL H lid. destruct (decide (lid = L)) as [->|]; [done|].
  eapply cc_lock_ok_same; eauto.
Qed.

Lemma cc_get_put lid lid' l s :
  get_lock lid' (put_lock lid l s) = if decide (lid = lid') then l else get_lock lid' s.
Proof.
  unfold get_lock, put_lock. cbn. case_decide; subst; [by rewrite lookup_insert_eq|].
  by rewrite lookup_insert_ne.
Qed.

Lemma at_move t L p s σ t' lid :
  at_lock (move t L p s σ) t' lid = if decide ((t, L) = (t', lid)) then p else at_lock σ t' lid.
Proof.
  unfold at_lock, move. cbn. case_decide as E; [rewrite <- E; by rewrite lookup_insert_eq|].
  by rewrite lookup_insert_ne.
Qed.

(** Lock [L] was stored, every other lock and the queue are as before. *)
Definition stores (L : lockid) (s s' : lock_client_cache) : Prop :=
  (forall lid, lid <> L -> get_lock lid s' = get_lock lid s) /\
  releaser_queue s' = releaser_queue s /\
  (forall lid, is_Some (cachelock_table s !! lid) -> is_Some (cachelock_table s' !! lid)) /\
  ((forall lid l, cachelock_table s !! lid = Some l -> id l = lid) ->
   forall lid l, cachelock_table s' !! lid = Some l -> id l = lid).

Lemma stores_refl L s : stores L s s.
Proof. done. Qed.

Lemma stores_trans L s1 s2 s3 : stores L s1 s2 -> stores L s2 s3 -> stores L s1 s3.
Proof.
  intros (H1 & H2 & H3 & H4) (H1' & H2' & H3' & H4'). split; [|split; [|split]].
  - intros lid Hne. rewrite H1' by done. auto.
  - congruence.
  - auto.
  - auto.
Qed.

Lemma stores_put L l s : id l = L -> stores L s (put_lock L l s).
Proof.
  intros Hi. split; [|split; [done|split]].
  - intros lid Hne. by rewrite cc_get_put, decide_False.
  - intros lid Hs. cbn. destruct (decide (L = lid)) as [<-|]; [by rewrite lookup_insert_eq|].
    by rewrite lookup_insert_ne.
  - intros H lid l'. cbn. destruct (decide (L = lid)) as [<-|].
    + rewrite lookup_insert_eq. by intros [= <-].
    + rewrite lookup_insert_ne by done. apply H.
Qed.

(** What a thread's step may do to the lock it is about. *)
Inductive effect (σ : sys) (t : positive) (L : lockid) : lockstate_t -> Z -> tpc -> Prop :=
| eff_leave : effect σ t L (st σ L) (own σ L) Wait
| eff_call o : st σ L = NONE -> effect σ t L ACQUIRING o (Call false)
| eff_take : st σ L = FREE \/ (st σ L = LOCKED /\ own σ L = Zpos t) \/ at_lock σ t L = Call false ->
    effect σ t L LOCKED (Zpos t) Hold
| eff_release o : st σ L = LOCKED -> own σ L = Zpos t -> effect σ t L FREE o Out.

Lemma effect_ok σ t L p s :
  lock_ok σ L -> releaser_queue s = releaser_queue (cc σ) ->
  effect σ t L (state (get_lock L s)) (owner (get_lock L s)) p -> lock_ok (move t L p s σ) L.
Proof.
  intros [H1 H2 H3 H4] Hq He.
  set (a := state (get_lock L s)) in *. set (o := owner (get_lock L s)) in *.
  split; change (cc (move t L p s σ)) with s; fold a o; try setoid_rewrite at_move; rewrite ?Hq.
  - intros u Hu. case_decide as E; [injection E as <-|].
    + subst p. by inversion He.
    + destruct (H1 _ Hu) as [Hst Ho]. inversion He as [Ha|? Hn|Hor|? Hs Hso]; subst; try congruence; [done|].
      destruct Hor as [?|[[_ ?]|Hc]]; [congruence|split; congruence|].
      destruct (H2 _ Hc). congruence.
  - intros u Hu. case_decide as E; [injection E as <-|].
    + subst p. inversion He as [|? Hn| |]; subst. split; [done|]. intros v. case_decide; [congruence|].
      intros Hv. destruct (H2 _ Hv). congruence.
    + destruct (H2 _ Hu) as [Hst Huq]. inversion He as [Ha|? Hn|Hor|? Hs Hso]; subst; try congruence.
      * split; [done|]. intros v. case_decide; [done|auto].
      * destruct Hor as [?|[[? _]|Hc]]; try congruence. destruct E. f_equal. auto.
  - intros Hl. destruct (H3 Hl) as [Hst Hn]. split; [|done].
    inversion He as [Ha|? Hn'|Hor|? Hs Hso]; subst; try congruence.
    destruct Hor as [?|[[? _]|Hc]]; try congruence. destruct (H2 _ Hc). congruence.
  - intros j Hj. destruct (H4 j Hj) as [Hst Hu]. split; [|done].
    inversion He as [Ha|? Hn'|Hor|? Hs Hso]; subst; try congruence.
    destruct Hor as [?|[[? _]|Hc]]; try congruence. destruct (H2 _ Hc). congruence.
Qed.

Lemma move_inv σ t L p s :
  inv σ -> stores L (cc σ) s -> is_Some (cachelock_table s !! L) ->
  effect σ t L (state (get_lock L s)) (owner (get_lock L s)) p -> inv (move t L p s σ).
Proof.
  intros [Hi Hk Hn Hl] (Hg & Hq & Hm & Ht) HL He. split; cbn.
  - by apply Ht.
  - intros u lid. rewrite at_move. case_decide as E; [injection E as <- <-; done|]. eauto.
  - by rewrite Hq.
  - apply (cc_locks_frame L σ); [|by apply effect_ok|done].
    intros lid Hne. split; [|split; [|split; [|split]]]; cbn.
    + by rewrite Hg.
    + by rewrite Hg.
    + intros u. rewrite at_move. case_decide; [congruence|done].
    + by rewrite Hq.
    + done.
Qed.

Lemma cc_get_some lid s l : cachelock_table s !! lid = Some l -> get_lock lid s = l.
Proof. unfold get_lock. by intros ->. Qed.

(** The stretches of acquire have such an effect. *)
Lemma retry_wait_effect σ t L p s :
  (forall lid l, cachelock_table (cc σ) !! lid = Some l -> id l = lid) ->
  is_Some (cachelock_table (cc σ) !! L) -> retry_wait L (Zpos t) (cc σ) = (p, s) ->
  stores L (cc σ) s /\ is_Some (cachelock_table s !! L) /\
  effect σ t L (state (get_lock L s)) (owner (get_lock L s)) (tpc_of p).
Proof.
  intros Hi [l El] E. pose proof (Hi _ _ El) as Hid. pose proof (cc_get_some _ _ _ El) as Eg.
  unfold retry_wait in E. rewrite Eg in E.
  destruct (state l) eqn:Es; injection E as <- <-; rewrite ?cc_get_put, ?decide_True, ?Eg by done; cbn.
  - split; [by apply stores_put|]. split; [by rewrite lookup_insert_eq|]. constructor. by rewrite Eg.
  - split; [by apply stores_put|]. split; [by rewrite lookup_insert_eq|]. constructor. left. by rewrite Eg.
  - split; [done|]. split; [done|]. pose proof (eff_leave σ t L) as H. by rewrite Eg in H.
  - split; [done|]. split; [done|]. pose proof (eff_leave σ t L) as H. by rewrite Eg in H.
  - split; [done|]. split; [done|]. pose proof (eff_leave σ t L) as H. by rewrite Eg in H.
Qed.

Lemma acquire_effect σ t L p s :
  (forall lid l, cachelock_table (cc σ) !! lid = Some l -> id l = lid) ->
  acquire L (Zpos t) (cc σ) = (p, s) ->
  stores L (cc σ) s /\ is_Some (cachelock_table s !! L) /\
  effect σ t L (state (get_lock L s)) (owner (get_lock L s)) (tpc_of p).
Proof.
  intros Hi E. unfold acquire in E.
  set (s0 := match cachelock_table (cc σ) !! L with Some _ => cc σ | None => _ end) in E.
  assert (stores L (cc σ) s0 /\ exists l, cachelock_table s0 !! L = Some l /\ id l = L /\
    state l = st σ L /\ owner l = own σ L) as (H0 & l & El & Hid & Hst & Ho).
  { subst s0. unfold get_lock. destruct (cachelock_table (cc σ) !! L) as [l|] eqn:El.
    - split; [apply stores_refl|]. exists l. eauto.
    - split; [by apply stores_put|]. eexists. split; [apply lookup_insert_eq|]. done. }
  clearbody s0. rewrite (cc_get_some _ _ _ El) in E.
  set (l1 := with_wait (wait_threads l + 1) l) in E. set (s1 := put_lock L l1 s0) in E.
  assert (H1 : stores L (cc σ) s1) by (eapply stores_trans; [done|by apply stores_put]).
  assert (E1 : get_lock L s1 = l1) by (unfold s1; by rewrite cc_get_put, decide_True).
  assert (Hs1 : is_Some (cachelock_table s1 !! L)) by (cbn; by rewrite lookup_insert_eq).
  assert (Hput : forall l', id l' = L -> stores L (cc σ) (put_lock L l' s1))
    by (intros; eapply stores_trans; [done|by apply stores_put]).
  change (state l1) with (state l) in E. change (owner l1) with (owner l) in E.
  assert (Hrw : retry_wait L (Zpos t) s1 = (Blocked, s1) \/ st σ L = NONE \/ st σ L = FREE).
  { unfold retry_wait. rewrite E1. change (state l1) with (state l). rewrite Hst. destruct (st σ L); auto. }
  assert (Hwait : st σ L <> NONE -> st σ L <> FREE -> retry_wait L (Zpos t) s1 = (p, s) ->
    stores L (cc σ) s /\ is_Some (cachelock_table s !! L) /\
    effect σ t L (state (get_lock L s)) (owner (get_lock L s)) (tpc_of p)).
  { intros Hn1 Hn2 Er. destruct Hrw as [Hrw|[?|?]]; [|done..]. rewrite Hrw in Er. injection Er as <- <-.
    split; [done|]. split; [done|]. rewrite E1. subst l1. cbn. rewrite Hst, Ho. constructor. }
  assert (Hdone : forall l', id l' = L -> effect σ t L (state l') (owner l') (tpc_of p) ->
    s = put_lock L l' s1 -> stores L (cc σ) s /\ is_Some (cachelock_table s !! L) /\
    effect σ t L (state (get_lock L s)) (owner (get_lock L s)) (tpc_of p)).
  { intros l' Hi' He ->. split; [auto|]. rewrite cc_get_put, decide_True by done.
    split; [cbn; by rewrite lookup_insert_eq|done]. }
  rewrite Hst, Ho in E. destruct (st σ L) eqn:Es; try (apply Hwait; done).
  - injection E as <- <-. eapply Hdone; [| |done]; [done|]. by constructor.
  - injection E as <- <-. eapply Hdone; [| |done]; [done|]. constructor. by left.
  - destruct (Z.eqb_spec (own σ L) (Zpos t)) as [Et|Et]; [|by apply Hwait].
    injection E as <- <-. eapply Hdone; [| |done]; [done|]. constructor. right; left. done.
Qed.

Definition job_lid (jb : job) : lockid :=
  match jb with Pending lid | Timed lid | Releasing lid => lid end.

Definition owes (jb : job) : Prop := match jb with Timed _ => False | _ => True end.

Lemma owing_eq σ j lid : owing σ j lid <-> exists jb, jobs σ !! j = Some jb /\ owes jb /\ job_lid jb = lid.
Proof.
  unfold owing. split.
  - intros [H|H]; (eexists; split; [exact H|done]).
  - intros ([l|l|l] & H & Ho & <-); cbn in *; tauto.
Qed.

(** What the releaser, its jobs and revoke do: lock [L] is stored, other
    locks keep their place in the queue and their jobs. *)
Lemma job_inv L σ s r (m : gmap positive job) :
  inv σ -> (forall lid, lid <> L -> get_lock lid s = get_lock lid (cc σ)) ->
  (forall lid l, cachelock_table s !! lid = Some l -> id l = lid) ->
  (forall lid, is_Some (cachelock_table (cc σ) !! lid) -> is_Some (cachelock_table s !! lid)) ->
  NoDup (releaser_queue s) ->
  (forall lid, lid <> L -> lid ∈ releaser_queue s <-> lid ∈ releaser_queue (cc σ)) ->
  (forall j jb, job_lid jb <> L -> m !! j = Some jb <-> jobs σ !! j = Some jb) ->
  st σ L <> LOCKED -> st σ L <> ACQUIRING ->
  (L ∈ releaser_queue s -> state (get_lock L s) = RELEASING /\ forall j jb, m !! j = Some jb -> owes jb -> job_lid jb <> L) ->
  (forall j jb, m !! j = Some jb -> owes jb -> job_lid jb = L -> state (get_lock L s) = RELEASING /\
     forall j' jb', m !! j' = Some jb' -> owes jb' -> job_lid jb' = L -> j' = j) ->
  inv (Sys s (threads σ) r m).
Proof.
  intros [Hi Hk Hn Hl] Hg Hid Hm Hn' Hq Hj Hs1 Hs2 HL1 HL2. split; cbn; try done.
  - intros t lid Ht. apply Hm. by apply (Hk t).
  - apply (cc_locks_frame L σ); [| |done].
    + intros lid Hne. split; [|split; [|split; [|split]]]; cbn; rewrite ?Hg; auto.
      intros j. rewrite !owing_eq. cbn. split; intros (jb & H1 & H2 & H3); exists jb; (split; [|done]);
        (apply Hj; [congruence|done]).
    + destruct (Hl L) as [H1 H2 _ _]. split; cbn.
      * intros t Ht. by apply H1 in Ht as [? _].
      * intros t Ht. by apply H2 in Ht as [? _].
      * intros Hin. destruct (HL1 Hin) as [? Hno]. split; [done|]. intros j.
        rewrite owing_eq. intros (jb & Hjb & Ho & Hjl). by apply (Hno j jb).
      * intros j. rewrite owing_eq. intros (jb & Hjb & Ho & Hjl). destruct (HL2 _ _ Hjb Ho Hjl) as [? Hu].
        split; [done|]. intros j'. rewrite owing_eq. intros (jb' & Hjb' & Ho' & Hjl'). eauto.
Qed.

Lemma cc_quiet_inv σ s r :
  inv σ -> (forall lid, st σ lid = state (get_lock lid s) /\ own σ lid = owner (get_lock lid s)) ->
  (forall lid l, cachelock_table s !! lid = Some l -> id l = lid) ->
  (forall lid, is_Some (cachelock_table (cc σ) !! lid) -> is_Some (cachelock_table s !! lid)) ->
  releaser_queue s = releaser_queue (cc σ) -> inv (Sys s (threads σ) r (jobs σ)).
Proof.
  intros [Hi Hk Hn Hl] Hg Hid Hm Hq. split; cbn; [done| |by rewrite Hq|].
  - intros t lid Ht. apply Hm. by apply (Hk t).
  - intros lid. apply (cc_lock_ok_same σ); [|done]. destruct (Hg lid). split; [done|].
    split; [done|]. split; [done|]. cbn. by rewrite Hq.
Qed.

Lemma replace_other (m : gmap positive job) i jb0 jb1 L :
  m !! i = Some jb0 -> job_lid jb0 = L -> job_lid jb1 = L ->
  forall j jb, job_lid jb <> L -> <[i := jb1]> m !! j = Some jb <-> m !! j = Some jb.
Proof.
  intros H0 E0 E1 j jb Hne. destruct (decide (i = j)) as [<-|]; [|by rewrite lookup_insert_ne].
  rewrite lookup_insert_eq, H0. split; intros [= <-]; done.
Qed.

Lemma delete_other (m : gmap positive job) i jb0 L :
  m !! i = Some jb0 -> job_lid jb0 = L ->
  forall j jb, job_lid jb <> L -> delete i m !! j = Some jb <-> m !! j = Some jb.
Proof.
  intros H0 E0 j jb Hne. destruct (decide (i = j)) as [<-|]; [|by rewrite lookup_delete_ne].
  rewrite lookup_delete_eq, H0. split; [done|]. intros [= <-]; done.
Qed.

Lemma acquire_return_inv σ t L retried ret p s :
  inv σ -> at_lock σ t L = Call retried -> (retried = true -> ret = lock_protocol.RETRY) ->
  acquire_return L (Zpos t) ret (cc σ) = (p, s) -> inv (move t L (tpc_of p) s σ).
Proof.
  intros Hi Ht Hr E. pose proof Hi as [Hid Hk _ _].
  destruct (Hk t L) as [l El]; [by rewrite Ht|].
  unfold acquire_return in E. destruct (Z.eqb_spec ret lock_protocol.RETRY) as [->|Hne].
  - destruct (retry_wait_effect σ t L p s Hid) as (H1 & H2 & H3); [done|done|]. by apply move_inv.
  - destruct retried; [by rewrite (Hr eq_refl) in Hne|]. injection E as <- <-.
    rewrite (cc_get_some _ _ _ El). apply move_inv; [done|apply stores_put; exact (Hid L l El)| |].
    + cbn. by rewrite lookup_insert_eq.
    + rewrite cc_get_put, decide_True by done. cbn. constructor. by right; right.
Qed.

Lemma cc_release_inv σ t L ret c s :
  inv σ -> at_lock σ t L = Hold -> release L (Zpos t) (cc σ) = (ret, c, s) -> inv (move t L Out s σ).
Proof.
  intros Hi Ht E. pose proof Hi as [Hid Hk _ Hl].
  destruct (lo_hold _ _ (Hl L) _ Ht) as [Hs Ho].
  destruct (Hk t L) as [l El]; [by rewrite Ht|]. pose proof (cc_get_some _ _ _ El) as Eg.
  unfold release in E. rewrite El in E. rewrite Eg in Hs, Ho. rewrite Hs, Ho, Z.eqb_refl in E.
  rewrite bool_decide_true in E by done. injection E as <- <- <-.
  apply move_inv; [done|apply stores_put; exact (Hid L l El)|cbn; by rewrite lookup_insert_eq|].
  rewrite cc_get_put, decide_True by done. cbn. constructor; by rewrite Eg.
Qed.

(** Entries that exist keep their ids under a store of the same lock. *)
Lemma put_keeps L l l' s :
  (forall lid l, cachelock_table s !! lid = Some l -> id l = lid) ->
  cachelock_table s !! L = Some l -> id l' = id l ->
  (forall lid l, cachelock_table (put_lock L l' s) !! lid = Some l -> id l = lid) /\
  (forall lid, is_Some (cachelock_table s !! lid) -> is_Some (cachelock_table (put_lock L l' s) !! lid)).
Proof.
  intros Hid El Hi. destruct (stores_put L l' s) as (_ & _ & H1 & H2); [rewrite Hi; eauto|]. auto.
Qed.

Lemma get_put_ne L l s lid : lid <> L -> get_lock lid (put_lock L l s) = get_lock lid s.
Proof. intros. by rewrite cc_get_put, decide_False. Qed.

Lemma busy_entry σ L : st σ L <> NONE -> exists l, cachelock_table (cc σ) !! L = Some l /\ get_lock L (cc σ) = l.
Proof. unfold get_lock. destruct (cachelock_table (cc σ) !! L); cbn; [eauto|done]. Qed.

Lemma revoke_inv σ L s r :
  inv σ -> revoke_handler L (cc σ) = Some s -> inv (Sys s (threads σ) r (jobs σ)).
Proof.
  intros Hi E. pose proof Hi as [Hid Hk Hn Hl]. unfold revoke_handler in E.
  destruct (cachelock_table (cc σ) !! L) as [l|] eqn:El; [|done]. injection E as <-.
  destruct (put_keeps L l (with_revoke true l) (cc σ)) as [H1 H2]; [done..|].
  apply cc_quiet_inv; try done. intros lid. rewrite cc_get_put. case_decide; [subst|done].
  by rewrite (cc_get_some _ _ _ El).
Qed.

Lemma revoke_done_inv σ L ret s r :
  inv σ -> revoke_loop L (cc σ) = Some (ret, s) -> inv (Sys s (threads σ) r (jobs σ)).
Proof.
  intros Hi E. pose proof Hi as [Hid Hk Hn Hl]. unfold revoke_loop in E.
  destruct (state (get_lock L (cc σ))) eqn:Es; try done. injection E as <- <-.
  destruct (busy_entry σ L) as (l & El & Eg); [congruence|]. rewrite Eg in *.
  destruct (put_keeps L l (with_state RELEASING (with_revoke false l)) (cc σ)) as [H1 H2]; [done..|].
  destruct (Hl L) as [_ _ H3 H4]. rewrite Eg in H3, H4.
  assert (Hnq : L ∉ releaser_queue (cc σ)) by (intros Hin; destruct (H3 Hin); congruence).
  assert (Hno : forall j jb, jobs σ !! j = Some jb -> owes jb -> job_lid jb <> L).
  { intros j jb Hj Ho Hjl. destruct (H4 j) as [? _]; [apply owing_eq; eauto|]. congruence. }
  apply (job_inv L); try done; cbn; rewrite ?Eg, ?Es; try done.
  - intros lid Hne. by apply get_put_ne.
  - apply NoDup_app. split; [done|]. split; [|apply NoDup_singleton].
    intros k Hk1 Hk2%list_elem_of_singleton. by subst.
  - intros lid Hne. rewrite elem_of_app, list_elem_of_singleton. naive_solver.
  - intros _. split; [|done].
    change (get_lock L (push_releaser L ?x)) with (get_lock L x). by rewrite cc_get_put, decide_True.
  - intros j jb Hj Ho Hjl. by destruct (Hno j jb).
Qed.

Lemma retry_inv σ L ret c s :
  inv σ -> retry_handler L (cc σ) = (ret, c, s) ->
  inv (Sys s (if ret =? rlock_protocol.OK then mark_retried L (threads σ) else threads σ) (revokes σ) (jobs σ)).
Proof.
  intros Hi E. pose proof Hi as [Hid Hk Hn Hl]. unfold retry_handler in E.
  destruct (cachelock_table (cc σ) !! L) as [l|] eqn:El.
  2: { injection E as <- <- <-. by destruct σ. }
  case_bool_decide as Es.
  2: { injection E as <- <- <-. by destruct σ. }
  injection E as <- <- <-. cbn [Z.eqb rlock_protocol.OK]. pose proof (cc_get_some _ _ _ El) as Eg.
  destruct (put_keeps L l (with_state FREE l) (cc σ)) as [H1 H2]; [done..|].
  set (σ' := Sys _ _ _ _).
  assert (Ha : forall t lid, at_lock σ' t lid = match at_lock σ t lid with
      | Call b => if lid =? L then Call true else Call b | p => p end).
  { intros t lid. unfold at_lock, σ', mark_retried. cbn. rewrite map_lookup_imap.
    destruct (threads σ !! (t, lid)) as [[]|]; cbn; try done; by destruct (lid =? L). }
  destruct (Hl L) as [K1 K2 K3 K4]. rewrite Eg in *. split; try done.
  - intros t lid Ht. apply H2, (Hk t). intros He. apply Ht. by rewrite Ha, He.
  - apply (cc_locks_frame L σ); [| |done].
    + intros lid Hne. pose proof (get_put_ne L (with_state FREE l) (cc σ) lid Hne) as Hg.
      split; [exact (f_equal state Hg)|]. split; [exact (f_equal owner Hg)|]. split; [|done]. intros t. rewrite Ha. destruct (at_lock σ t lid); try done.
      destruct (Z.eqb_spec lid L); done.
    + split.
      * intros t. rewrite Ha. destruct (at_lock σ t L) eqn:Et; try done; [by destruct (L =? L)|].
        destruct (K1 _ Et). congruence.
      * intros t. rewrite Ha. destruct (at_lock σ t L); try done. by rewrite Z.eqb_refl.
      * intros Hin. destruct (K3 Hin). congruence.
      * intros j Hj. destruct (K4 j Hj). congruence.
Qed.

Lemma releaser_inv σ (added : bool) i L s :
  inv σ -> releaser (cc σ) = Some (L, s) -> jobs σ !! i = None ->
  inv (Sys s (threads σ) (revokes σ) (if added then <[i := Pending L]> (jobs σ) else jobs σ)).
Proof.
  intros Hi E Hf. pose proof Hi as [Hid Hk Hn Hl]. unfold releaser in E.
  destruct (releaser_queue (cc σ)) as [|k q] eqn:Eq; [done|]. injection E as -> <-.
  destruct (lo_queue _ _ (Hl L)) as [Hs Hno]; [rewrite Eq; by left|].
  destruct (busy_entry σ L) as (l & El & Eg); [congruence|]. rewrite Eg in *.
  rewrite insert_id by done. apply NoDup_cons in Hn as [HLq Hn].
  assert (Hno' : forall j jb, jobs σ !! j = Some jb -> owes jb -> job_lid jb <> L).
  { intros j jb Hj Ho Hjl. apply (Hno j), owing_eq. eauto. }
  assert (Hgl : get_lock L (LockClientCache (cachelock_table (cc σ)) q) = l) by exact Eg.
  apply (job_inv L); cbn; try done; rewrite ?Eg, ?Hgl, ?Hs; try done.
  - intros lid Hne. rewrite Eq, elem_of_cons. naive_solver.
  - intros j jb Hne. destruct added; [|done]. destruct (decide (i = j)) as [<-|]; [|by rewrite lookup_insert_ne].
    rewrite lookup_insert_eq, Hf. split; intros [= <-]; done.
  - intros j jb Hj Ho Hjl. split; [done|]. destruct added; [|by destruct (Hno' j jb)].
    assert (Hone : forall j jb, <[i := Pending L]> (jobs σ) !! j = Some jb -> owes jb -> job_lid jb = L -> j = i).
    { intros k kb Hk1 Hk2 Hk3. destruct (decide (i = k)) as [<-|]; [done|].
      rewrite lookup_insert_ne in Hk1 by done. by destruct (Hno' k kb). }
    rewrite (Hone j jb) by done. intros. eauto.
Qed.

(** An owing job is the only one for its lock, and the lock is not queued. *)
Lemma owing_only σ i L jb0 :
  inv σ -> jobs σ !! i = Some jb0 -> owes jb0 -> job_lid jb0 = L ->
  st σ L = RELEASING /\ (L ∉ releaser_queue (cc σ)) /\
  forall j jb, jobs σ !! j = Some jb -> owes jb -> job_lid jb = L -> j = i.
Proof.
  intros [_ _ _ Hl] Hj Ho HL. destruct (Hl L) as [_ _ H3 H4].
  assert (Hw : owing σ i L) by (apply owing_eq; eauto).
  destruct (H4 _ Hw) as [Hs Hu]. split; [done|]. split.
  - intros Hq. destruct (H3 Hq) as [_ Hn]. by destruct (Hn i).
  - intros j jb Hj1 Hj2 Hj3. apply Hu, owing_eq. eauto.
Qed.

Lemma releaser_rpc_inv σ i L p s :
  inv σ -> jobs σ !! i = Some (Pending L) -> releaser_rpc L (cc σ) = Ret (p, s) ->
  inv (Sys s (threads σ) (revokes σ) (<[i := job_of p L]> (jobs σ))).
Proof.
  intros Hi Hj E. pose proof Hi as [Hid Hk Hn Hl].
  destruct (owing_only σ i L _ Hi Hj) as (Hs & Hq & Hu); [done..|].
  destruct (busy_entry σ L) as (l & El & Eg); [congruence|]. rewrite Eg in *.
  assert (exists l', s = put_lock L l' (cc σ) /\ id l' = id l /\
    ((p = TimedWait /\ state l' = FREE) \/ (p = CallRelease /\ state l' = RELEASING))) as (l' & -> & Hid' & Hp).
  { unfold releaser_rpc, verify in E. rewrite Eg, bool_decide_true in E by done.
    destruct (wait_threads l >? 0); injection E as <- <-; eexists; (split; [reflexivity|]); cbn; tauto. }
  destruct (put_keeps L l l' (cc σ)) as [H1 H2]; [done..|].
  apply (job_inv L); cbn; try done; rewrite ?Eg, ?Hs; try done.
  - intros lid Hne. by apply get_put_ne.
  - apply (replace_other _ _ (Pending L)); [done|done|by destruct p].
  - rewrite cc_get_put, decide_True by done. intros j jb Hj1 Hj2 Hj3.
    assert (Hone : forall j jb, <[i := job_of p L]> (jobs σ) !! j = Some jb -> owes jb -> job_lid jb = L -> j = i).
    { intros k kb Hk1 Hk2 Hk3. destruct (decide (i = k)) as [<-|]; [done|].
      rewrite lookup_insert_ne in Hk1 by done. by apply (Hu k kb). }
    rewrite (Hone j jb) in * by done. rewrite lookup_insert_eq in Hj1. injection Hj1 as <-.
    destruct Hp as [[-> _]|[-> Hst]]; [done|]. split; [done|]. intros. eauto.
Qed.

Lemma releaser_timeout_inv σ i L p s :
  inv σ -> jobs σ !! i = Some (Timed L) -> releaser_timeout L (cc σ) = (p, s) ->
  is_Some (cachelock_table (cc σ) !! L) ->
  inv (Sys s (threads σ) (revokes σ) (<[i := job_of p L]> (jobs σ))).
Proof.
  intros Hi Hj E [l El]. pose proof Hi as [Hid Hk Hn Hl]. pose proof (cc_get_some _ _ _ El) as Eg.
  unfold releaser_timeout in E. rewrite Eg in E. case_bool_decide as Hs; injection E as <- <-; cbn in Hs.
  - set (l' := with_state RELEASING _). destruct (put_keeps L l l' (cc σ)) as [H1 H2]; [done..|].
    destruct (Hl L) as [_ _ H3 H4]. rewrite Eg in H3, H4.
    assert (Hno : forall j jb, jobs σ !! j = Some jb -> owes jb -> job_lid jb <> L).
    { intros j jb Hj1 Ho Hjl. destruct (H4 j) as [? _]; [apply owing_eq; eauto|]. congruence. }
    apply (job_inv L); cbn; try done; rewrite ?Eg, ?Hs; try done.
    + intros lid Hne. by apply get_put_ne.
    + by apply (replace_other _ _ (Timed L)).
    + intros Hin. destruct (H3 Hin). congruence.
    + rewrite cc_get_put, decide_True by done. intros j jb Hj1 Hj2 Hj3. split; [done|].
      assert (Hone : forall j jb, <[i := Releasing L]> (jobs σ) !! j = Some jb -> owes jb -> job_lid jb = L -> j = i).
      { intros k kb Hk1 Hk2 Hk3. destruct (decide (i = k)) as [<-|]; [done|].
        rewrite lookup_insert_ne in Hk1 by done. by destruct (Hno k kb). }
      rewrite (Hone j jb) by done. intros. eauto.
  - set (l' := with_timout _ _ _). destruct (put_keeps L l l' (cc σ)) as [H1 H2]; [done..|].
    cbn [job_of]. rewrite insert_id by done. apply cc_quiet_inv; try done.
    intros lid. rewrite cc_get_put. case_decide; [subst lid; by rewrite Eg|done].
Qed.

Lemma releaser_return_inv σ i L ret c s :
  inv σ -> jobs σ !! i = Some (Releasing L) -> releaser_return L ret (cc σ) = Ret (c, s) ->
  inv (Sys s (threads σ) (revokes σ) (delete i (jobs σ))).
Proof.
  intros Hi Hj E. pose proof Hi as [Hid Hk Hn Hl].
  destruct (owing_only σ i L _ Hi Hj) as (Hs & Hq & Hu); [done..|].
  destruct (busy_entry σ L) as (l & El & Eg); [congruence|]. rewrite Eg in *.
  assert (Hgone : forall j jb, delete i (jobs σ) !! j = Some jb -> owes jb -> job_lid jb <> L).
  { intros j jb [Hne Hj1]%lookup_delete_Some Hj2 Hj3. apply Hne. symmetry. by apply (Hu j jb). }
  unfold releaser_return, verify in E. rewrite Eg, bool_decide_true in E by done.
  destruct (ret =? lock_protocol.OK).
  - injection E as <- <-. set (l' := with_state NONE _).
    destruct (put_keeps L l l' (cc σ)) as [H1 H2]; [done..|].
    apply (job_inv L); cbn; try done; rewrite ?Eg, ?Hs; try done.
    + intros lid Hne. by apply get_put_ne.
    + by apply (delete_other _ _ (Releasing L)).
    + intros j jb Hj1 Hj2 Hj3. by destruct (Hgone j jb).
  - injection E as <- <-. rewrite (Hid L l El).
    apply (job_inv L); cbn; try done; rewrite ?Eg, ?Hs; try done.
    + apply NoDup_app. split; [done|]. split; [|apply NoDup_singleton].
      intros k Hk1 Hk2%list_elem_of_singleton. by subst.
    + intros lid Hne. rewrite elem_of_app, list_elem_of_singleton. naive_solver.
    + by apply (delete_other _ _ (Releasing L)).
    + intros _. split; [|done]. change (get_lock L (push_releaser L ?x)) with (get_lock L x). by rewrite Eg.
    + intros j jb Hj1 Hj2 Hj3. by destruct (Hgone j jb).
Qed.

(** Entries are never removed. *)
Lemma put_mono L l s lid : is_Some (cachelock_table s !! lid) -> is_Some (cachelock_table (put_lock L l s) !! lid).
Proof.
  cbn. intros H. destruct (decide (L = lid)) as [<-|]; [by rewrite lookup_insert_eq|by rewrite lookup_insert_ne].
Qed.

Lemma releaser_timeout_mono L p s0 s lid :
  releaser_timeout L s0 = (p, s) -> is_Some (cachelock_table s0 !! lid) -> is_Some (cachelock_table s !! lid).
Proof.
  unfold releaser_timeout. intros E H. case_bool_decide; injection E as <- <-; by apply put_mono.
Qed.

Definition jobs_known (σ : sys) : Prop :=
  forall j jb, jobs σ !! j = Some jb -> is_Some (cachelock_table (cc σ) !! job_lid jb).

Lemma known_keep σ σ' :
  jobs_known σ -> (forall lid, is_Some (cachelock_table (cc σ) !! lid) -> is_Some (cachelock_table (cc σ') !! lid)) ->
  (forall j jb, jobs σ' !! j = Some jb -> jobs σ !! j = Some jb \/ is_Some (cachelock_table (cc σ) !! job_lid jb)) ->
  jobs_known σ'.
Proof. intros Hk Hm Hj j jb Hjb. apply Hm. destruct (Hj _ _ Hjb); eauto. Qed.

Lemma insert_known σ i jb' (m : gmap positive job) :
  m = <[i := jb']> (jobs σ) -> is_Some (cachelock_table (cc σ) !! job_lid jb') ->
  forall j jb, m !! j = Some jb -> jobs σ !! j = Some jb \/ is_Some (cachelock_table (cc σ) !! job_lid jb).
Proof.
  intros -> Hs j jb. destruct (decide (i = j)) as [<-|]; [rewrite lookup_insert_eq; intros [= <-]; by right|].
  rewrite lookup_insert_ne by done. by left.
Qed.

Lemma job_of_lid p L : job_lid (job_of p L) = L.
Proof. by destruct p. Qed.

Lemma stores_known L σ t p s : jobs_known σ -> stores L (cc σ) s -> jobs_known (move t L p s σ).
Proof. intros Hk (_ & _ & Hm & _). apply (known_keep σ); [done|exact Hm|by left]. Qed.

Lemma local_inv σ σ' : inv σ -> jobs_known σ -> local σ σ' -> inv σ' /\ jobs_known σ'.
Proof.
  intros Hi Hk Hs. pose proof Hi as [Hid Hth Hn Hl]. destruct Hs as
    [σ t L p s Ht E|σ t L p s Ht E|σ t L ret c s Ht E|σ L ret s r1 r2 Er E
    |σ added j L s E Hj|σ j L p s Hj E|σ j L p s Hj E].
  - destruct (acquire_effect σ t L p s Hid E) as (H1 & H2 & H3).
    split; [by apply move_inv|by apply stores_known].
  - destruct (retry_wait_effect σ t L p s Hid) as (H1 & H2 & H3); [apply (Hth t); by rewrite Ht|done|].
    split; [by apply move_inv|by apply stores_known].
  - split; [by eapply cc_release_inv|]. apply (known_keep σ); [done| |by left]. intros lid Hlid.
    unfold release in E. destruct (cachelock_table (cc σ) !! L); [|by injection E as <- <- <-].
    destruct (_ && _); injection E as <- <- <-; [by apply put_mono|done].
  - split; [by eapply revoke_done_inv|]. apply (known_keep σ); [done| |by left]. intros lid Hlid.
    unfold revoke_loop in E. destruct (state _); try done. injection E as <- <-. by apply put_mono.
  - split; [by eapply releaser_inv|]. unfold releaser in E.
    destruct (releaser_queue (cc σ)) as [|L' q] eqn:Eq; [done|]. injection E as -> <-.
    destruct (lo_queue _ _ (Hl L)) as [HsL _]; [rewrite Eq; by left|].
    destruct (busy_entry σ L) as (l & El & Eg); [congruence|]. apply (known_keep σ); [done| |].
    + intros lid Hlid. by apply (put_mono L (get_lock L (cc σ)) (cc σ)).
    + destruct added; [|by left]. by apply (insert_known σ j (Pending L)).
  - split; [by eapply releaser_rpc_inv|]. apply (known_keep σ); [done| |].
    + intros lid Hlid. unfold releaser_rpc, verify in E. case_bool_decide; [|done].
      destruct (_ >? 0); injection E as <- <-; by apply put_mono.
    + apply (insert_known σ j (job_of p L)); [done|]. rewrite job_of_lid. apply (Hk _ _ Hj).
  - split; [apply (releaser_timeout_inv σ j L p s); try done; apply (Hk _ _ Hj)|]. apply (known_keep σ); [done| |].
    + intros lid. by eapply releaser_timeout_mono.
    + apply (insert_known σ j (job_of p L)); [done|]. rewrite job_of_lid. apply (Hk _ _ Hj).
Qed.

Lemma cc_step_inv σ σ' : inv σ -> jobs_known σ -> step true σ σ' -> inv σ' /\ jobs_known σ'.
Proof.
  intros Hi Hk Hs. pose proof Hi as [Hid Hth Hn Hl]. destruct Hs as
    [σ σ' Hs|σ t L retried ret p s Ht Hr E|σ L s E|σ L ret c s E|σ j L ret c s Hj E].
  - by eapply local_inv.
  - split; [by eapply acquire_return_inv; [| |apply Hr|]|]. apply (known_keep σ); [done| |by left].
    intros lid Hlid. unfold acquire_return in E. destruct (ret =? _); [|injection E as <- <-; by apply put_mono].
    destruct (retry_wait_effect σ t L p s Hid) as ((_ & _ & Hm & _) & _); [apply (Hth t); by rewrite Ht|done|auto].
  - split; [by eapply revoke_inv|]. apply (known_keep σ); [done| |by left]. intros lid Hlid.
    unfold revoke_handler in E. destruct (cachelock_table (cc σ) !! L); [|done]. injection E as <-. by apply put_mono.
  - split; [by eapply retry_inv|]. apply (known_keep σ); [done| |by left]. intros lid Hlid.
    unfold retry_handler in E. destruct (cachelock_table (cc σ) !! L); [|by injection E as <- <- <-].
    case_bool_decide; injection E as <- <- <-; [by apply put_mono|done].
  - split; [by eapply releaser_return_inv|]. apply (known_keep σ); [done| |].
    + intros lid Hlid. unfold releaser_return, verify in E. case_bool_decide; [|done].
      destruct (ret =? _); injection E as <- <-; [by apply put_mono|done].
    + cbn. intros i ib [_ Hib]%lookup_delete_Some. by left.
Qed.

Lemma cc_reachable_inv σ : reachable true σ -> inv σ /\ jobs_known σ.
Proof.
  induction 1 as [|σ σ' _ [IH1 IH2] Hs]; [|by eapply cc_step_inv].
  split; [split; [| |constructor|split]|]; unfold owing, at_lock; cbn.
  - intros lid l. by rewrite lookup_empty.
  - intros t lid. by rewrite lookup_empty.
  - intros t. by rewrite lookup_empty.
  - intros t. by rewrite lookup_empty.
  - intros H. by apply not_elem_of_nil in H.
  - intros j. rewrite lookup_empty. by intros [?|?].
  - intros j jb. cbn. by rewrite lookup_empty.
Qed.

(** ** Theorems *)

(** C9: within a client at most one thread holds a lock at a time, in
    every interleaving in which no acquire RPC is granted after a retry for
    its lock was accepted ([exact]): of the application threads, retries,
    revocations (duplicated ones included) and releaser jobs, whatever the
    release RPCs and the other acquire RPCs return.  Without the condition,
    which the composed lock server does not keep, [overtaken_retry] has two
    threads that hold the lock. *)
Theorem client_mutex (σ : sys) (t u : positive) (lid : lockid) :
  reachable true σ -> at_lock σ t lid = Hold -> at_lock σ u lid = Hold -> t = u.
Proof.
  intros Hr Ht Hu. pose proof (inv_lock _ (proj1 (cc_reachable_inv _ Hr)) lid) as Hl.
  apply (lo_hold _ _ Hl) in Ht as [_ Ht]. apply (lo_hold _ _ Hl) in Hu as [_ Hu]. congruence.
Qed.

(** C20: the VERIFYs of releaser_rpc do not fail in interleavings in which
    no acquire RPC is granted after a retry for its lock was accepted
    ([exact]): a job that starts and a release RPC that returns find their
    lock in state RELEASING, so both return, even when the server revokes
    the same lock more than once.  Without the condition one of them does
    fail ([overtaken_retry], and the composed server of LockSystem gets
    there). *)
Theorem releaser_asserts (σ : sys) (j : positive) (lid : lockid) (ret : Z) :
  reachable true σ ->
  (jobs σ !! j = Some (Pending lid) -> returns (releaser_rpc lid (cc σ))) /\
  (jobs σ !! j = Some (Releasing lid) -> returns (releaser_return lid ret (cc σ))).
Proof.
  intros Hr. pose proof (proj1 (cc_reachable_inv _ Hr)) as Hi.
  split; intros Hj; destruct (owing_only σ j lid _ Hi Hj) as (Hs & _ & _); try done;
    unfold releaser_rpc, releaser_return, verify, returns; rewrite bool_decide_true by done.
  - destruct (_ >? 0); eauto.
  - destruct (ret =? _); eauto.
Qed.

(** Thread 1 acquires lock 7 from the server, thread 2 waits for it. *)
Lemma held_reachable :
  exists σ, reachable true σ /\ at_lock σ 1 7 = Hold /\ at_lock σ 2 7 = Wait /\
    cc σ = LockClientCache {[ 7 := CacheLock 7 LOCKED 1 false false false 1 ]} [] /\
    revokes σ = [] /\ jobs σ = ∅.
Proof.
  pose proof (reach_init true) as H.
  eapply reach_step in H; [|eapply step_local, (loc_acquire _ 1 7); [by left|reflexivity]].
  eapply reach_step in H; [|eapply (step_return true _ 1 7 false lock_protocol.OK); [reflexivity|done|reflexivity]].
  eapply reach_step in H; [|eapply step_local, (loc_acquire _ 2 7); [by left|reflexivity]].
  eexists. split; [exact H|]. do 4 (split; [reflexivity|]). reflexivity.
Qed.

Lemma client_mutex_witness :
  exists σ, reachable true σ /\ at_lock σ 1 7 = Hold /\ forall u, at_lock σ u 7 = Hold -> u = 1%positive.
Proof.
  destruct held_reachable as (σ & Hr & Ht & _). exists σ. split; [exact Hr|]. split; [exact Ht|].
  intros u Hu. exact (client_mutex σ u 1 7 Hr Hu Ht).
Defined.

(** A revocation while thread 2 waits: the releaser postpones the release. *)
Lemma releaser_asserts_witness :
  exists σ, reachable true σ /\ jobs σ !! 1%positive = Some (Pending 7) /\ returns (releaser_rpc 7 (cc σ)).
Proof.
  destruct held_reachable as ([c th rv jb] & H & Ht & _ & Ec & Er & Ej). cbn in Ec, Er, Ej. subst c rv jb.
  eapply reach_step in H; [|eapply (step_revoke true _ 7); reflexivity].
  eapply reach_step in H; [|eapply step_local, (loc_release _ 1 7); [exact Ht|reflexivity]].
  eapply reach_step in H; [|eapply step_local, (loc_revoke_done _ 7 _ _ [] []); reflexivity].
  eapply reach_step in H; [|eapply step_local, (loc_releaser _ true 1%positive); reflexivity].
  eexists. split; [exact H|]. split; [reflexivity|].
  apply (releaser_asserts _ 1 7 0 H). reflexivity.
Defined.

(** When an acquire RPC is granted although a retry for its lock was
    accepted: thread 2 takes the retried lock, and thread 1 holds it too;
    or the retried lock is revoked, and the releaser's VERIFY finds it
    LOCKED. *)
Lemma overtaken_retry :
  (exists σ, reachable false σ /\ at_lock σ 1 7 = Hold /\ at_lock σ 2 7 = Hold) /\
  (exists σ, reachable false σ /\ jobs σ !! 1%positive = Some (Pending 7) /\ releaser_rpc 7 (cc σ) = Crash AssertFailed).
Proof.
  pose proof (reach_init false) as H.
  eapply reach_step in H; [|eapply step_local, (loc_acquire _ 1 7); [by left|reflexivity]].
  eapply reach_step in H; [|eapply (step_retry false _ 7); reflexivity]. split.
  - eapply reach_step in H; [|eapply step_local, (loc_acquire _ 2 7); [by left|reflexivity]].
    eapply reach_step in H; [|eapply (step_return false _ 1 7 true lock_protocol.OK); [reflexivity|done|reflexivity]].
    eexists. split; [exact H|]. split; reflexivity.
  - eapply reach_step in H; [|eapply (step_revoke false _ 7); reflexivity].
    eapply reach_step in H; [|eapply step_local, (loc_revoke_done _ 7 _ _ [] []); reflexivity].
    eapply reach_step in H; [|eapply step_local, (loc_releaser _ true 1%positive); reflexivity].
    eapply reach_step in H; [|eapply (step_return false _ 1 7 true lock_protocol.OK); [reflexivity|done|reflexivity]].
    eexists. split; [exact H|]. split; reflexivity.
Qed.

(** The client holds the lock although its RPC failed: thread 1's acquire
    RPC times out and acquire returns OK. *)
Lemma failed_rpc_grants :
  exists σ σ', reachable true σ /\ at_lock σ 1 7 = Call false /\
    acquire_return 7 1 (-1) (cc σ) = (Done lock_protocol.OK, cc σ') /\
    reachable true σ' /\ at_lock σ' 1 7 = Hold.
Proof.
  pose proof (reach_init true) as H.
  eapply reach_step in H; [|eapply step_local, (loc_acquire _ 1 7); [by left|reflexivity]]. eexists _, _. split; [exact H|].
  eapply reach_step in H; [|eapply (step_return true _ 1 7 false (-1)); [reflexivity|done|reflexivity]].
  split; [reflexivity|]. split; [|split; [exact H|reflexivity]]. reflexivity.
Qed.

End lock_client_cache.
