(* ===== verification/LockRpc.v ===== *)
(** * The lock service over the wire (lock_smain.cc, lock_client.cc, lock_demo.cc)

    The registrations of the lock server's main and of a caching client's
    own server, the calls the two sides make of each other, and what the
    calls of the plain lock_client come to against this server. *)

From Stdlib Require Import ZArith Lia.
From stdpp Require Import base list gmap.
From S2P Require Import Prelude Marshall ReplyWindow RpcServer RpcClient Rpc RpcSession LockServer LockServerCache LockClientCache.

#[local] Open Scope Z_scope.

Module lock_rpc.

Section lock_rpc.
Context `{!StringLimit}.

Abbreviation server_t := lock_server_cache.lock_server_cache.
Abbreviation client_t := lock_client_cache.lock_client_cache.
Abbreviation wire_lock := (wire_pair wire_ull wire_string).

(** ** The registered methods

    [junk] is what the [int &r] that a handler does not assign holds when
    it is marshalled. *)
Section methods.
Context (junk : Z).

Definition do_acquire : method server_t (lockid * bytes) Z := fun '(lid, id) s =>
  let '(ret, s) := lock_server_cache.acquire lid id s in Ret (ret, junk, s).
Definition do_release : method server_t (lockid * bytes) Z := fun '(lid, id) s =>
  let '(ret, s) := lock_server_cache.release lid id s in Ret (ret, junk, s).
Definition do_stat : method server_t lockid Z := fun lid s =>
  let '(ret, r) := lock_server_cache.stat lid s in Ret (ret, r, s).

(** main of lock_smain.cc, up to its endless sleep: [count] is RPC_COUNT or
    0, [nacquire] what the member of that name happens to hold, [a0] what
    uninitialised arguments hold. *)
Definition lock_smain (count nonce a0 nacquire : Z) : res (rpcs server_t) :=
  server ← rpcs_new count nonce a0 (lock_server_cache.lock_server_cache_new nacquire);
  server ← reg1 lock_protocol.stat (h1 wire_ull wire_int a0 do_stat) server;
  server ← reg1 lock_protocol.acquire (h1 wire_lock wire_int (a0, []) do_acquire) server;
  reg1 lock_protocol.release (h1 wire_lock wire_int (a0, []) do_release) server.


(** ** Calls of the caching client and of the server's jobs

    [r] is the result object, which the callers ignore afterwards. *)
Section calls.
Context (cmp : conn -> conn -> Z) (dead : conn -> bool) (k : conn) (c : rpcc).


(** stat of lock_client: it sends its client id before the lock's. *)
Definition stat_call (s : rpcs server_t) (lid : lockid) (r : Z) (Q : Z -> Z -> rpcc -> rpcs server_t -> Prop) : Prop :=
  call_wp (wire_pair wire_uint wire_ull) wire_int lock_protocol.stat MAX_PAYLOAD realizes cmp dead k c s
    (c_clt_nonce c, lid) r Q.
End calls.

(** acquire of lock_client: [n] rounds of its loop, none of which ends it. *)
Fixpoint acquire_spins (cmp : conn -> conn -> Z) (dead : conn -> bool) (k : conn) (lid : lockid) (n : nat) (r : Z)
    (c : rpcc) (s : rpcs server_t) : Prop :=
  match n with
  | O => True
  | S n =>
      call_wp (wire_pair wire_uint wire_ull) wire_int lock_protocol.acquire MAX_PAYLOAD realizes cmp dead k c s
        (c_clt_nonce c, lid) r (fun ret r c s => ret <> lock_protocol.OK /\ acquire_spins cmp dead k lid n r c s)
  end.

(** main of lock_demo.cc: a lock_client is made, which binds, and stat(1)
    is called; [Q] of what stat returns. *)
Definition lock_demo (cmp : conn -> conn -> Z) (dead : conn -> bool) (k : conn) (nonce lossy r0 r : Z) (s : rpcs server_t)
    (Q : res Z -> Prop) : Prop :=
  bind_wp MAX_PAYLOAD realizes cmp dead k (rpcc_new true nonce lossy) s r0 (fun _ c s =>
  stat_call cmp dead k c s 1 r (fun ret r _ _ => Q (lock_client.stat ret r))).

(** ** The server after start-up *)

Record lock_procs (a0 : Z) (s : rpcs server_t) : Prop := LockProcs {
  lp_stat : s_procs s !! lock_protocol.stat = Some (h1 wire_ull wire_int a0 do_stat);
  lp_acquire : s_procs s !! lock_protocol.acquire = Some (h1 wire_lock wire_int (a0, []) do_acquire);
  lp_release : s_procs s !! lock_protocol.release = Some (h1 wire_lock wire_int (a0, []) do_release)
}.

Lemma lock_smain_ok count nonce a0 nacquire :
  exists s, lock_smain count nonce a0 nacquire = Ret s /\ lock_procs a0 s /\
    s_nonce s = u32 nonce /\ s_procs s !! rpc_const.bind = Some (bind_handler nonce a0) /\ s_reply_window s = ∅ /\
    s_app s = lock_server_cache.lock_server_cache_new nacquire.
Proof.
  set (w := lock_server_cache.lock_server_cache_new nacquire).
  destruct (reg1_ok rpc_const.bind (bind_handler nonce a0) (Rpcs (u32 nonce) ∅ ∅ count count ∅ true ∅ w))
    as (s0 & E0 & N0 & W0 & A0 & P0); [done|done|].
  destruct (reg1_ok lock_protocol.stat (h1 wire_ull wire_int a0 do_stat) s0)
    as (s1 & E1 & N1 & W1 & A1 & P1); [done|by rewrite P0|].
  destruct (reg1_ok lock_protocol.acquire (h1 wire_lock wire_int (a0, []) do_acquire) s1)
    as (s2 & E2 & N2 & W2 & A2 & P2); [done|by rewrite P1, P0|].
  destruct (reg1_ok lock_protocol.release (h1 wire_lock wire_int (a0, []) do_release) s2)
    as (s3 & E3 & N3 & W3 & A3 & P3); [done|by rewrite P2, P1, P0|].
  exists s3. split.
  { unfold lock_smain. fold w. assert (Er : rpcs_new count nonce a0 w = Ret s0) by (rewrite <- E0; done).
    rstep Er. rstep E1. rstep E2. done. }
  split; [split; rewrite ?P3, ?P2, ?P1, ?P0; done|].
  split; [by rewrite N3, N2, N1, N0|]. split; [by rewrite P3, P2, P1, P0|].
  split; [by rewrite W3, W2, W1, W0|by rewrite A3, A2, A1, A0].
Qed.




(** The client and the server between two calls of this client. *)
Definition calling {W} (c : rpcc) (s : rpcs W) : Prop :=
  client_ready c (s_nonce s) /\
  exists seen, orderly seen (default [] (s_reply_window s !! c_clt_nonce c)) /\ forall y, y ∈ seen -> y < c_xid c.




(** ** The plain client against this server *)

(** What the server takes for the lock id of a request that begins with
    the client's id: it and the high half of the lock id. *)
Definition misread (clt : Z) (lid : lockid) : lockid := Z.shiftl clt 32 + Z.shiftr lid 32.

Lemma misread_ok clt lid : is_u32 clt -> is_u64 lid ->
  is_u64 (misread clt lid) /\
  w_image (wire_pair wire_uint wire_ull) (clt, lid) = w_image wire_ull (misread clt lid) ++ be4 lid.
Proof.
  unfold is_u32, is_u64, misread. intros Hc Hl. rewrite Z.shiftl_mul_pow2, Z.shiftr_div_pow2 by lia.
  assert (0 <= lid / 2 ^ 32 < 2 ^ 32) by (split; [apply Z.div_pos; lia|apply Z.div_lt_upper_bound; lia]).
  split; [lia|]. cbn [w_image wire_pair wire_uint wire_ull fst snd]. rewrite <- !app_assoc. f_equal; [|f_equal].
  - rewrite Z.shiftr_div_pow2, Z.div_add_l, (Z.div_small (lid / 2 ^ 32)), Z.add_0_r by lia. done.
  - rewrite <- (be4_u32 (_ + _)). unfold u32. rewrite Z.add_comm, Z.mod_add, Z.mod_small by lia.
    by rewrite Z.shiftr_div_pow2.
Qed.

Lemma plain_image clt lid : lenZ (w_image (wire_pair wire_uint wire_ull) (clt, lid)) = 12.
Proof. reflexivity. Qed.

(** stat: four bytes too many. *)
Lemma stat_rejected a0 cmp dead k c (s : rpcs server_t) lid r (Q : Z -> Z -> rpcc -> rpcs server_t -> Prop) :
  calling c s -> lock_procs a0 s -> dead k = false -> is_u64 lid ->
  (forall c' s', Q rpc_const.unmarshal_args_failure r c' s') -> stat_call cmp dead k c s lid r Q.
Proof.
  intros [[Hb Hc] Hw] Hp Hd Hl HQ. destruct (misread_ok (c_clt_nonce c) lid (proj1 (cl_nonce _ _ Hc)) Hl) as [Hm Hi].
  unfold stat_call. eapply call_wp_mono; [done| |].
  2: { apply (rpc_rejected_wp (wire_pair wire_uint wire_ull) wire_int (h1 wire_ull wire_int a0 do_stat) lock_protocol.stat MAX_PAYLOAD);
         try done; [split; [apply Hp|done]|split; [apply (cl_nonce _ _ Hc)|done]|].
       intros u Ha Hok Hz. rewrite Hi in Ha. by apply (h1_leftover wire_ull wire_int do_stat a0 (misread (c_clt_nonce c) lid) u _ _ (be4 lid)). }
  intros b r' c' s' (-> & -> & _). apply HQ.
Qed.

(** acquire: the low half of the lock id is taken for the length of the
    client's name. *)
Lemma plain_acquire_handler a0 clt lid u m (w : server_t) :
  is_u32 clt -> is_u64 lid -> 0 < u32 lid < 2 ^ 31 ->
  ahead u (w_image (wire_pair wire_uint wire_ull) (clt, lid)) -> u_ok u = true -> u_sz u < 2 ^ 31 ->
  h1 wire_lock wire_int (a0, []) do_acquire u m w = Ret (rpc_const.unmarshal_args_failure, m, w).
Proof.
  intros Hc Hl Hlo Ha Hok Hz. destruct (misread_ok clt lid Hc Hl) as [Hm Hi]. rewrite Hi in Ha.
  unfold h1. cbn [w_get wire_pair fst snd]. rewrite !res_assoc.
  pose proof (get_ok (w := wire_ull) u _ a0 _ Ha Hok ltac:(lia) Hm) as E1. rstep E1. rewrite !res_assoc.
  apply advance_ahead in Ha. set (u1 := advance _ u) in *.
  rewrite <- (app_nil_r (be4 lid)), <- be4_u32 in Ha.
  pose proof (get_ok (w := wire_uint) u1 [] 0 (u32 lid) Ha Hok ltac:(cbn; lia) (u32_range lid)) as E2.
  apply advance_ahead in Ha. cbn [w_get wire_string]. unfold get_string. cbn [w_get wire_uint] in E2.
  change (lenZ (w_image wire_uint (u32 lid))) with 4 in *. change (lenZ (be4 (u32 lid))) with 4 in *.
  rewrite !res_assoc. rstep E2. set (u2 := advance 4 u1) in *.
  assert (Hok2 : u_ok u2 = true) by exact Hok. rewrite Hok2.
  pose proof (ahead_bound _ _ Ha) as [Hb Hb0]. cbn [length Z.of_nat] in Hb.
  unfold rawbytes. rewrite (u32_small (u_ind u2 + _)), (u32_small (u_sz u2)); cycle 1.
  { change (u_sz u2) with (u_sz u) in *. unfold is_u32. lia. }
  { change (u_sz u2) with (u_sz u) in *. unfold is_u32. lia. }
  destruct (Z.gtb_spec (u_ind u2 + u32 lid) (u_sz u2)); [|lia]. done.
Qed.

Lemma calling_after c (s : rpcs server_t) c' s' a0 :
  calling c s -> client_seq c -> lock_procs a0 s -> call_after c s c' s' -> c_xid c + 1 < 2 ^ 31 ->
  calling c' s' /\ client_seq c' /\ lock_procs a0 s'.
Proof.
  intros [[Hb Hc] (seen & Ho & Hlt)] Hq [H1 H2 H3] Haf Hx.
  destruct (call_after_client c s c' s' (s_nonce s) Hc Hq Haf Hx) as [Hc' Hq'].
  destruct Haf as [_ _ _ Hn _ Hb' Hx' Hp Hsn Hseen]. split; [|split; [done|split; by rewrite Hp]]. split.
  - split; [by rewrite Hb'|by rewrite Hsn].
  - exists (c_xid c :: seen). rewrite Hn, Hx'. split; [by apply Hseen|].
    intros y [->|Hy]%elem_of_cons; [lia|]. specialize (Hlt y Hy). lia.
Qed.

Lemma acquire_spins_ok a0 cmp dead k lid n : dead k = false -> is_u64 lid -> 0 < u32 lid < 2 ^ 31 ->
  forall r c s, calling c s -> client_seq c -> lock_procs a0 s -> c_xid c + Z.of_nat n < 2 ^ 31 ->
  acquire_spins cmp dead k lid n r c s.
Proof.
  intros Hd Hl Hlo. induction n as [|n IH]; intros r c s Hc Hq Hp Hx; [done|].
  cbn [acquire_spins]. pose proof Hc as [[Hb Hlive] Hw].
  pose proof (cl_nonce _ _ Hlive) as [Hn _]. eapply call_wp_mono; [done| |].
  2: { apply (rpc_rejected_wp (wire_pair wire_uint wire_ull) wire_int (h1 wire_lock wire_int (a0, []) do_acquire)
         lock_protocol.acquire MAX_PAYLOAD); try done; [split; [apply Hp|done]|].
       intros u Ha Hok Hz. by apply (plain_acquire_handler a0 (c_clt_nonce c) lid). }
  intros b r' c' s' (-> & -> & _ & Haf). split; [done|].
  destruct (calling_after c s c' s' a0 Hc Hq Hp Haf ltac:(lia)) as (Hc' & Hq' & Hp').
  apply IH; try done. rewrite (af_xid _ _ _ _ Haf). lia.
Qed.

Lemma bound_calling (s0 : rpcs server_t) c s a0 : bound s0 c s -> lock_procs a0 s0 ->
  calling c s /\ client_seq c /\ lock_procs a0 s.
Proof.
  intros [Hr Hq _ _ _ Hp _ Hw] [H1 H2 H3]. split; [by split|]. split; [done|]. split; by rewrite Hp.
Qed.

(** C36: the plain lock_client does not speak this server's protocol: it
    sends its client id, then the lock.  lock_demo's stat(1) is refused
    with unmarshal_args_failure and its VERIFY aborts; acquire of a lock
    whose low 32 bits are between 1 and 2^31 - 1 is refused the same way in
    each of any 2^30 rounds and does not leave its loop.  (Of other locks
    nothing is said: with low bits 0 the request parses as one with an empty
    client id.) *)
Theorem plain_client_refused (count snonce a0 nacquire nonce lossy r0 r : Z) cmp dead k (lid : lockid) (n : nat) :
  dead k = false -> u32 nonce <> 0 -> is_u64 lid -> 0 < u32 lid < 2 ^ 31 -> Z.of_nat n < 2 ^ 30 ->
  exists s, lock_smain count snonce a0 nacquire = Ret s /\
    lock_demo cmp dead k nonce lossy r0 r s (fun res => res = Crash AssertFailed) /\
    bind_wp MAX_PAYLOAD realizes cmp dead k (rpcc_new true nonce lossy) s r0 (fun ret c s =>
      ret = 0 /\ acquire_spins cmp dead k lid n r c s).
Proof.
  intros Hd Hn Hl Hlo Hk. destruct (lock_smain_ok count snonce a0 nacquire) as (s & E & Hp & Hsn & Hb & Hw & _).
  exists s. split; [done|].
  assert (Hbind : bind_wp MAX_PAYLOAD realizes cmp dead k (rpcc_new true nonce lossy) s r0 (fun b c s' => b = 0 /\ bound s c s')).
  { apply (bind_fresh MAX_PAYLOAD cmp dead k snonce nonce lossy a0 r0 s); try done. by rewrite Hw. }
  split; (eapply (call_wp_mono wire_int wire_int rpc_const.bind MAX_PAYLOAD realizes realizes); [done| |exact Hbind]);
    cbv beta; intros ret ri ci si [-> Hbd]; destruct (bound_calling _ _ _ a0 Hbd Hp) as (Hc & Hq & Hp').
  - apply (stat_rejected a0); [exact Hc|exact Hp'|exact Hd|split; vm_compute; congruence|]. intros c' s'. reflexivity.
  - split; [done|]. apply (acquire_spins_ok a0); [exact Hd|exact Hl|exact Hlo|exact Hc|exact Hq|exact Hp'|]. rewrite (bd_xid _ _ _ Hbd). lia.
Qed.

End methods.

End lock_rpc.

(** A 1 GB limit on strings; a connected client and both servers. *)
Definition a_limit : StringLimit := 2 ^ 30.




Lemma plain_client_refused_witness :
  exists s, @lock_smain a_limit 3 0 9 0 0 = Ret s /\
    lock_demo (fun _ _ => 0) (fun _ => false) 1%positive 77 0 0 0 s (fun res => res = Crash AssertFailed) /\
    bind_wp MAX_PAYLOAD realizes (fun _ _ => 0) (fun _ => false) 1%positive (rpcc_new true 77 0) s 0 (fun ret c s =>
      ret = 0 /\ acquire_spins (fun _ _ => 0) (fun _ => false) 1%positive 7 1000 0 c s).
Proof.
  apply (@plain_client_refused a_limit 3 0 9 0 0 77 0 0 0 (fun _ _ => 0) (fun _ => false) 1%positive 7 1000).
  - reflexivity.
  - discriminate.
  - split; vm_compute; congruence.
  - split; vm_compute; congruence.
  - vm_compute; congruence.
Defined.

End lock_rpc.
