(* ===== verification/LockSystem.v ===== *)
(** * The caching lock service: one server and its clients

    The server of [LockServerCache] and any number of clients of
    [LockClientCache], joined by their RPCs: a client's acquire and release
    calls and the server's retry and revoke calls.  A call is a request on
    its way, its execution by the other side and a reply on its way; the
    requests and the replies of different calls overtake each other.  *)

From Stdlib Require Import ZArith Lia.
From stdpp Require Import base list gmap sets.
From S2P Require Import Prelude LockServer LockServerCache LockClientCache.

#[local] Open Scope Z_scope.
#[local] Set Warnings "-clear-no-such-hyp".

Module lock_system.
Import lock_client_cache.

(** The server, the clients by their ids, and the replies and revocations
    on their way.  A thread in its acquire call and a job in its release
    call without an entry in [acquire_replies] or [release_replies] have
    their request on its way. *)
Record world := World {
  server : lock_server_cache.sys;
  clients : gmap bytes sys;
  acquire_replies : gmap (bytes * positive * lockid) Z;
  release_replies : gmap (bytes * positive) Z;
  revocations : list (bytes * lockid)
}.

Definition client (w : world) (c : bytes) : sys := default sys_new (clients w !! c).

Definition set_client (c : bytes) (σ : sys) (w : world) : world :=
  World (server w) (<[c := σ]> (clients w)) (acquire_replies w) (release_replies w) (revocations w).
Definition set_server (σ : lock_server_cache.sys) (w : world) : world :=
  World σ (clients w) (acquire_replies w) (release_replies w) (revocations w).
Definition set_acquire_replies (m : gmap (bytes * positive * lockid) Z) (w : world) : world :=
  World (server w) (clients w) m (release_replies w) (revocations w).
Definition set_release_replies (m : gmap (bytes * positive) Z) (w : world) : world :=
  World (server w) (clients w) (acquire_replies w) m (revocations w).
Definition set_revocations (l : list (bytes * lockid)) (w : world) : world :=
  World (server w) (clients w) (acquire_replies w) (release_replies w) l.

(** The server executes a client's acquire or release. *)
Definition serve_acquire (lid : lockid) (c : bytes) (σ : lock_server_cache.sys) : Z * lock_server_cache.sys :=
  let '(ret, s) := lock_server_cache.acquire lid c (lock_server_cache.srv σ) in
  (ret, lock_server_cache.Sys s (lock_server_cache.jobs σ)
     (if ret =? lock_protocol.OK then {[ (lid, c) ]} ∪ lock_server_cache.holders σ
      else lock_server_cache.holders σ)).
Definition serve_release (lid : lockid) (c : bytes) (σ : lock_server_cache.sys) : Z * lock_server_cache.sys :=
  let '(ret, s) := lock_server_cache.release lid c (lock_server_cache.srv σ) in
  (ret, lock_server_cache.Sys s (lock_server_cache.jobs σ)
     (if ret =? lock_protocol.OK then lock_server_cache.holders σ ∖ {[ (lid, c) ]}
      else lock_server_cache.holders σ)).

(** A client executes a retry; job [j] of the server gets its answer. *)
Definition client_retry (lid : lockid) (σ : sys) : Z * sys :=
  let '(ret, _, s) := retry_handler lid (cc σ) in
  (ret, Sys s (if ret =? rlock_protocol.OK then mark_retried lid (threads σ) else threads σ)
     (revokes σ) (jobs σ)).
Definition retry_answered (j : positive) (lid : lockid) (c : bytes) (ret : Z)
    (σ : lock_server_cache.sys) : lock_server_cache.sys :=
  lock_server_cache.Sys (lock_server_cache.srv σ)
    (<[j := lock_server_cache.RetryReplied lid ret]> (lock_server_cache.jobs σ))
    (if ret =? rlock_protocol.OK then {[ (lid, c) ]} ∪ lock_server_cache.holders σ
     else lock_server_cache.holders σ).

(** Job [j] of the server sends a revocation, which may time out. *)
Definition revoke_sent (j : positive) (lid : lockid) (ret : Z) (σ : lock_server_cache.sys) : lock_server_cache.sys :=
  lock_server_cache.Sys (lock_server_cache.srv σ)
    (<[j := lock_server_cache.RevokeReplied lid ret]> (lock_server_cache.jobs σ)) (lock_server_cache.holders σ).

(** The acquire and release calls return what the server answered; retries
    return what the client answered or fail without reaching it (a step of
    [service]); a revocation may be lost and its call may return anything
    at any time.  [guarded]: no acquire of a lock is processed while the
    lock waits in the retryer's queue. *)
Inductive step (guarded : bool) (w : world) : world -> Prop :=
| w_client c σ' :
    local (client w c) σ' -> step guarded w (set_client c σ' w)
| w_service σ' :
    lock_server_cache.service (server w) σ' -> step guarded w (set_server σ' w)
| w_acquire c t lid retried ret σ' :
    c <> [] -> at_lock (client w c) t lid = Call retried -> acquire_replies w !! (c, t, lid) = None ->
    (guarded = true -> lid ∉ lock_server_cache.retryer_queue (lock_server_cache.srv (server w))) ->
    serve_acquire lid c (server w) = (ret, σ') ->
    step guarded w (set_server σ' (set_acquire_replies (<[(c, t, lid) := ret]> (acquire_replies w)) w))
| w_acquire_return c t lid retried ret p s :
    at_lock (client w c) t lid = Call retried -> acquire_replies w !! (c, t, lid) = Some ret ->
    acquire_return lid (Zpos t) ret (cc (client w c)) = (p, s) ->
    step guarded w (set_client c (move t lid (tpc_of p) s (client w c))
      (set_acquire_replies (delete (c, t, lid) (acquire_replies w)) w))
| w_release c j lid ret σ' :
    jobs (client w c) !! j = Some (Releasing lid) -> release_replies w !! (c, j) = None ->
    serve_release lid c (server w) = (ret, σ') ->
    step guarded w (set_server σ' (set_release_replies (<[(c, j) := ret]> (release_replies w)) w))
| w_release_return c j lid ret cnd s :
    jobs (client w c) !! j = Some (Releasing lid) -> release_replies w !! (c, j) = Some ret ->
    releaser_return lid ret (cc (client w c)) = Ret (cnd, s) ->
    step guarded w (set_client c (Sys s (threads (client w c)) (revokes (client w c)) (delete j (jobs (client w c))))
      (set_release_replies (delete (c, j) (release_replies w)) w))
| w_retry j lid c ret σ' :
    lock_server_cache.jobs (server w) !! j = Some (lock_server_cache.RetryCalling lid c) ->
    client_retry lid (client w c) = (ret, σ') ->
    step guarded w (set_server (retry_answered j lid c ret (server w)) (set_client c σ' w))
| w_revoke_send j lid ret :
    lock_server_cache.jobs (server w) !! j = Some (lock_server_cache.RevokePending lid) ->
    step guarded w (set_server (revoke_sent j lid ret (server w))
      (set_revocations (revocations w ++ [(lock_server_cache.rpc_target lid (lock_server_cache.srv (server w)), lid)]) w))
| w_revoke c lid s r1 r2 :
    revocations w = r1 ++ (c, lid) :: r2 -> revoke_handler lid (cc (client w c)) = Some s ->
    step guarded w (set_client c (Sys s (threads (client w c)) (lid :: revokes (client w c)) (jobs (client w c)))
      (set_revocations (r1 ++ r2) w))
| w_revoke_lost c lid r1 r2 :
    revocations w = r1 ++ (c, lid) :: r2 -> step guarded w (set_revocations (r1 ++ r2) w).

Definition world_new (junk : Z) : world := World (lock_server_cache.sys_new junk) ∅ ∅ ∅ [].

Inductive reachable (guarded : bool) (junk : Z) : world -> Prop :=
| reach_new : reachable guarded junk (world_new junk)
| reach_next w w' : reachable guarded junk w -> step guarded w w' -> reachable guarded junk w'.

(** ** Rights

    What entitles a client to a lock: the lock is cached, a release of it
    is queued or under way and the server has not executed it yet, or a
    grant is on its way to a thread. *)

Inductive token := Cached | Queued | Job (j : positive) | Granted (t : positive).

Definition has (σ : sys) (acq rel : positive -> option Z) (lid : lockid) (k : token) : Prop :=
  match k with
  | Cached => st σ lid = FREE \/ st σ lid = LOCKED
  | Queued => lid ∈ releaser_queue (cc σ)
  | Job j => jobs σ !! j = Some (Pending lid) \/ (jobs σ !! j = Some (Releasing lid) /\ rel j = None)
  | Granted t => exists ret, acq t = Some ret /\ ret <> lock_protocol.RETRY
  end.

(** From the tokens [H] to the tokens [H']: none is new, or one was
    exchanged for another. *)
Definition shift (H H' : token -> Prop) : Prop :=
  (forall k, H' k -> H k) \/ exists k0 k1, H k0 /\ forall k, H' k -> k = k1 \/ (H k /\ k <> k0).

Definition unique (H : token -> Prop) : Prop := forall k k', H k -> H k' -> k = k'.

Lemma shift_keep (H H' : token -> Prop) : (forall k, H' k -> H k) -> shift H H'.
Proof. by left. Qed.

Lemma shift_unique H H' : unique H -> shift H H' -> unique H'.
Proof.
  intros Hu [Hk|(k0 & k1 & H0 & H1)] k k' Hk1 Hk2; [by apply Hu; apply Hk|].
  destruct (H1 _ Hk1) as [->|[Ha Hn]], (H1 _ Hk2) as [->|[Hb Hn']]; try done;
    (destruct Hn; by apply Hu) || (destruct Hn'; by apply Hu).
Qed.

Lemma shift_some H H' k : shift H H' -> H' k -> exists k0, H k0.
Proof. intros [Hk|(k0 & k1 & H0 & _)] Hk'; eauto. Qed.

(** ** The client's operations and the rights *)

(** A thread that holds a lock is its owner in the client. *)
Definition hold_ok (σ : sys) : Prop :=
  forall t lid, at_lock σ t lid = Hold -> st σ lid = LOCKED /\ own σ lid = Zpos t.

(** Only lock [L] is touched. *)
Definition only (L : lockid) (s s' : lock_client_cache) : Prop :=
  forall lid, lid <> L -> get_lock lid s' = get_lock lid s.

Lemma only_put L l s : only L s (put_lock L l s).
Proof. intros lid Hne. by apply get_put_ne. Qed.

Lemma only_trans L s1 s2 s3 : only L s1 s2 -> only L s2 s3 -> only L s1 s3.
Proof. intros H1 H2 lid Hne. by rewrite H2, H1. Qed.

(** What a stretch of acquire does to the lock. *)
Inductive stretch (t : positive) (l l' : cache_lock) : progress -> Prop :=
| str_blocked : state l' = state l -> owner l' = owner l -> stretch t l l' Blocked
| str_calling : state l = NONE -> state l' = ACQUIRING -> stretch t l l' Calling
| str_done ret : state l = FREE \/ (state l = LOCKED /\ owner l = Zpos t) ->
    state l' = LOCKED -> owner l' = Zpos t -> stretch t l l' (Done ret).

Lemma retry_wait_stretch t L s p s' :
  retry_wait L (Zpos t) s = (p, s') ->
  only L s s' /\ releaser_queue s' = releaser_queue s /\ stretch t (get_lock L s) (get_lock L s') p.
Proof.
  unfold retry_wait. destruct (state (get_lock L s)) eqn:Es; intros [= <- <-];
    (split; [first [apply only_put|done]|]); (split; [done|]); rewrite ?cc_get_put, ?decide_True by done.
  - by constructor.
  - constructor; cbn; auto.
  - by constructor.
  - by constructor.
  - by constructor.
Qed.

Lemma acquire_stretch t L s p s' :
  acquire L (Zpos t) s = (p, s') ->
  only L s s' /\ releaser_queue s' = releaser_queue s /\ stretch t (get_lock L s) (get_lock L s') p.
Proof.
  unfold acquire. set (s0 := match cachelock_table s !! L with Some _ => s | None => _ end).
  assert (only L s s0 /\ releaser_queue s0 = releaser_queue s /\ state (get_lock L s0) = state (get_lock L s) /\
    owner (get_lock L s0) = owner (get_lock L s)) as (H0 & Hq & Hs & Ho).
  { subst s0. destruct (cachelock_table s !! L) eqn:El; [done|]. split; [apply only_put|]. split; [done|].
    rewrite cc_get_put, decide_True by done. unfold get_lock. by rewrite El. }
  clearbody s0. set (l1 := with_wait _ (get_lock L s0)). set (s1 := put_lock L l1 s0).
  assert (E1 : get_lock L s1 = l1) by (unfold s1; by rewrite cc_get_put, decide_True).
  assert (H1 : only L s s1) by (eapply only_trans; [done|apply only_put]).
  assert (Hput : forall l ret, state (get_lock L s) = FREE \/
      (state (get_lock L s) = LOCKED /\ owner (get_lock L s) = Zpos t) ->
      (Done ret, put_lock L (take (Zpos t) l) s1) = (p, s') -> only L s s' /\
      releaser_queue s' = releaser_queue s /\ stretch t (get_lock L s) (get_lock L s') p).
  { intros l ret Hl [= <- <-]. split; [eapply only_trans; [done|apply only_put]|]. split; [done|].
    rewrite cc_get_put, decide_True by done. by constructor. }
  assert (Hw : retry_wait L (Zpos t) s1 = (p, s') -> only L s s' /\
      releaser_queue s' = releaser_queue s /\ stretch t (get_lock L s) (get_lock L s') p).
  { intros Er. apply retry_wait_stretch in Er as (Ha & Hb & Hc). rewrite E1 in Hc.
    split; [by eapply only_trans|]. split; [by rewrite Hb|].
    inversion Hc as [Hx Hy|Hx Hy|r Hx Hy Hz]; constructor; try done; cbn in *; by rewrite <- ?Hs, <- ?Ho. }
  change (state l1) with (state (get_lock L s0)). change (owner l1) with (owner (get_lock L s0)).
  rewrite Hs, Ho. destruct (state (get_lock L s)) eqn:Es; try exact Hw.
  - intros [= <- <-]. split; [eapply only_trans; [done|apply only_put]|]. split; [done|].
    rewrite cc_get_put, decide_True by done. by constructor.
  - apply Hput. by left.
  - destruct (Z.eqb_spec (owner (get_lock L s)) (Zpos t)); [|exact Hw]. apply Hput. by right.
Qed.

Definition good (σ : sys) : Prop := hold_ok σ /\ NoDup (releaser_queue (cc σ)).

Lemma has_other L σ σ' acq rel lid k :
  lid <> L -> only L (cc σ) (cc σ') -> (lid ∈ releaser_queue (cc σ') -> lid ∈ releaser_queue (cc σ)) ->
  (forall j jb, job_lid jb <> L -> jobs σ' !! j = Some jb -> jobs σ !! j = Some jb) ->
  has σ' acq rel lid k -> has σ acq rel lid k.
Proof.
  intros Hne Ho Hq Hj. destruct k as [| |j|t]; cbn; [by rewrite Ho|done| |done].
  intros [H|[H Hr]]; apply Hj in H; auto.
Qed.

(** A thread leaves a stretch of acquire. *)
Lemma stretch_rights t L p s σ :
  good σ -> only L (cc σ) s -> releaser_queue s = releaser_queue (cc σ) ->
  stretch t (get_lock L (cc σ)) (get_lock L s) p ->
  good (move t L (tpc_of p) s σ) /\
  forall acq rel lid, shift (has σ acq rel lid) (has (move t L (tpc_of p) s σ) acq rel lid).
Proof.
  intros [Hh Hn] Ho Hq Hs. split; [split; [|by cbn; rewrite Hq]|].
  - intros u lid. rewrite at_move. cbn. case_decide as E; [injection E as <- <-|].
    + by destruct Hs.
    + intros Hu. destruct (Hh _ _ Hu) as [H1 H2]. destruct (decide (lid = L)) as [->|]; [|by rewrite Ho].
      destruct Hs as [E1 E2|E1 E2|r E1 E2 E3]; [split; congruence|congruence|].
      destruct E1 as [?|[_ ?]]; [congruence|split; congruence].
  - intros acq rel lid. apply shift_keep. intros k. destruct (decide (lid = L)) as [->|Hne].
    + destruct k; cbn; rewrite ?Hq; try done. destruct Hs as [E1 E2|E1 E2|r E1 E2 E3]; rewrite ?E1, ?E2; [done|naive_solver|].
      intros _. destruct E1 as [?|[? _]]; auto.
    + apply (has_other L); [done|done| |done]. cbn. by rewrite Hq.
Qed.

(** The other steps of a client leave the lock alone when it is locked. *)
Lemma hold_job L σ s r m :
  hold_ok σ -> only L (cc σ) s ->
  (st σ L = LOCKED -> state (get_lock L s) = LOCKED /\ owner (get_lock L s) = own σ L) ->
  hold_ok (Sys s (threads σ) r m).
Proof.
  intros Hh Ho HL t lid Ht. change (at_lock σ t lid = Hold) in Ht. destruct (Hh _ _ Ht) as [H1 H2].
  cbn. destruct (decide (lid = L)) as [->|]; [|by rewrite Ho]. destruct (HL H1). split; congruence.
Qed.

Lemma release_rights t L ret c s σ :
  good σ -> at_lock σ t L = Hold -> release L (Zpos t) (cc σ) = (ret, c, s) ->
  good (move t L Out s σ) /\
  forall acq rel lid, shift (has σ acq rel lid) (has (move t L Out s σ) acq rel lid).
Proof.
  intros [Hh Hn] Ht E. destruct (Hh _ _ Ht) as [H1 H2].
  destruct (busy_entry σ L) as (l & El & Eg); [congruence|]. rewrite Eg in H1, H2.
  unfold release in E. rewrite El, H1, H2, Z.eqb_refl, bool_decide_true in E by done. injection E as <- <- <-.
  split; [split; [|done]|].
  - intros u lid. rewrite at_move. cbn [cc move]. case_decide as Eu; [done|]. intros Hu. destruct (Hh _ _ Hu) as [H3 H4].
    rewrite cc_get_put. case_decide as EL; [|done]. subst lid. rewrite Eg in H4. congruence.
  - intros acq rel lid. apply shift_keep. intros k. destruct (decide (lid = L)) as [->|Hne].
    + destruct k; cbn; try done. rewrite Eg, H1. auto.
    + apply (has_other L); [done|apply only_put|done|done].
Qed.

(** One lock's token is exchanged, the others keep theirs. *)
Lemma shift_one L k0 k1 σ σ' (acq : lockid -> positive -> option Z) rel :
  only L (cc σ) (cc σ') -> (forall lid, lid <> L -> lid ∈ releaser_queue (cc σ') -> lid ∈ releaser_queue (cc σ)) ->
  (forall j jb, job_lid jb <> L -> jobs σ' !! j = Some jb -> jobs σ !! j = Some jb) ->
  has σ (acq L) rel L k0 ->
  (forall k, has σ' (acq L) rel L k -> k = k1 \/ (has σ (acq L) rel L k /\ k <> k0)) ->
  forall lid, shift (has σ (acq lid) rel lid) (has σ' (acq lid) rel lid).
Proof.
  intros Ho Hq Hj H0 H1 lid. destruct (decide (lid = L)) as [->|Hne]; [right; eauto|].
  apply shift_keep. intros k. eapply has_other; eauto.
Qed.

Lemma revoke_done_rights σ L ret s r (acq : lockid -> positive -> option Z) rel :
  good σ -> unique (has σ (acq L) rel L) -> revoke_loop L (cc σ) = Some (ret, s) ->
  let σ' := Sys s (threads σ) r (jobs σ) in
  good σ' /\ forall lid, shift (has σ (acq lid) rel lid) (has σ' (acq lid) rel lid).
Proof.
  intros [Hh Hn] Hu E σ'. unfold revoke_loop in E.
  destruct (state (get_lock L (cc σ))) eqn:Es; try done. injection E as <- <-.
  assert (Hc : has σ (acq L) rel L Cached) by (cbn; auto).
  assert (Hq : L ∉ releaser_queue (cc σ)) by (intros Hq; by specialize (Hu Cached Queued Hc Hq)).
  split; [split|].
  - apply (hold_job L); [done|apply only_put|congruence].
  - cbn. apply NoDup_app. split; [done|]. split; [|apply NoDup_singleton].
    intros k Hk1 Hk2%list_elem_of_singleton. by subst.
  - apply (shift_one L Cached Queued); [apply only_put| |done|done|].
    + intros lid Hne. cbn. rewrite elem_of_app, list_elem_of_singleton. naive_solver.
    + intros [| |i|i]; [|by left|by right..].
      unfold σ'. cbn [has cc]. change (get_lock L (push_releaser L ?x)) with (get_lock L x).
      rewrite cc_get_put, decide_True by done. cbn. naive_solver.
Qed.

Lemma releaser_rights σ (added : bool) j L s (acq : lockid -> positive -> option Z) rel :
  good σ -> releaser (cc σ) = Some (L, s) -> jobs σ !! j = None ->
  let σ' := Sys s (threads σ) (revokes σ) (if added then <[j := Pending L]> (jobs σ) else jobs σ) in
  good σ' /\ forall lid, shift (has σ (acq lid) rel lid) (has σ' (acq lid) rel lid).
Proof.
  intros [Hh Hn] E Hj σ'. unfold releaser in E. destruct (releaser_queue (cc σ)) as [|L' q] eqn:Eq; [done|].
  injection E as -> <-. apply NoDup_cons in Hn as [HLq Hn].
  assert (Ho : forall lid, get_lock lid (LockClientCache (<[L := get_lock L (cc σ)]> (cachelock_table (cc σ))) q)
    = get_lock lid (cc σ)).
  { intros lid. unfold get_lock at 1. cbn. destruct (decide (L = lid)) as [<-|].
    - by rewrite lookup_insert_eq.
    - by rewrite lookup_insert_ne. }
  split; [split; [|done]|].
  - apply (hold_job L); [done|intros lid _; apply Ho|]. by rewrite Ho.
  - apply (shift_one L Queued (Job j)).
    + intros lid _. apply Ho.
    + intros lid _ Hq. cbn in Hq. rewrite Eq. by right.
    + cbn. intros i ib Hne. destruct added; [|done]. rewrite lookup_insert_Some. intros [[_ <-]|[_ ?]]; done.
    + cbn. rewrite Eq. by left.
    + intros [| |i|i]; cbn; [rewrite Ho; auto|done| |auto].
      destruct added; [|auto]. destruct (decide (j = i)) as [<-|]; [by left|].
      rewrite lookup_insert_ne by done. auto.
Qed.

(** Job [i] of lock [L] became [jb], lock [L] was stored. *)
Lemma job_rights σ i jb0 jb L l k0 k1 (acq : lockid -> positive -> option Z) rel :
  good σ -> jobs σ !! i = Some jb0 -> job_lid jb0 = L -> job_lid jb = L -> st σ L <> LOCKED ->
  has σ (acq L) rel L k0 -> k0 = Job i \/ k0 = Cached ->
  (state l = FREE \/ state l = LOCKED -> k1 = Cached) -> (owes jb -> k1 = Job i) ->
  let σ' := Sys (put_lock L l (cc σ)) (threads σ) (revokes σ) (<[i := jb]> (jobs σ)) in
  good σ' /\ forall lid, shift (has σ (acq lid) rel lid) (has σ' (acq lid) rel lid).
Proof.
  intros [Hh Hn] Hj H0 H1 HL Hk0 Hor Hst Hjb σ'. split; [split; [|done]|].
  - apply (hold_job L); [done|apply only_put|done].
  - apply (shift_one L k0 k1); [apply only_put|done| |done|].
    + cbn. intros k kb Hne. rewrite lookup_insert_Some. intros [[_ <-]|[_ ?]]; done.
    + intros [| |k|k]; cbn; rewrite ?cc_get_put, ?decide_True by done.
      * intros Hs. left. symmetry. auto.
      * intros H. right. split; [done|]. by destruct Hor as [->| ->].
      * destruct (decide (i = k)) as [<-|Hne].
        -- rewrite lookup_insert_eq. intros Hk. left. symmetry. apply Hjb.
           destruct Hk as [Hk|[Hk _]]; by simplify_eq.
        -- rewrite lookup_insert_ne by done. intros Hk. right. split; [done|]. destruct Hor as [->| ->]; congruence.
      * intros H. right. split; [done|]. by destruct Hor as [->| ->].
Qed.

Lemma releaser_rpc_rights σ i L p s (acq : lockid -> positive -> option Z) rel :
  good σ -> jobs σ !! i = Some (Pending L) -> releaser_rpc L (cc σ) = Ret (p, s) ->
  let σ' := Sys s (threads σ) (revokes σ) (<[i := job_of p L]> (jobs σ)) in
  good σ' /\ forall lid, shift (has σ (acq lid) rel lid) (has σ' (acq lid) rel lid).
Proof.
  intros Hg Hj E. unfold releaser_rpc, verify in E. case_bool_decide as Hs; [|done].
  assert (Hk : has σ (acq L) rel L (Job i)) by (by left). assert (st σ L <> LOCKED) by congruence.
  destruct (_ >? 0); injection E as <- <-; cbn [job_of].
  - apply (job_rights σ i (Pending L) _ L _ (Job i) Cached); auto. intros [].
  - apply (job_rights σ i (Pending L) _ L _ (Job i) (Job i)); auto. cbn. naive_solver.
Qed.

Lemma releaser_timeout_rights σ i L p s (acq : lockid -> positive -> option Z) rel :
  good σ -> jobs σ !! i = Some (Timed L) -> releaser_timeout L (cc σ) = (p, s) ->
  let σ' := Sys s (threads σ) (revokes σ) (<[i := job_of p L]> (jobs σ)) in
  good σ' /\ forall lid, shift (has σ (acq lid) rel lid) (has σ' (acq lid) rel lid).
Proof.
  intros Hg Hj E. unfold releaser_timeout in E. case_bool_decide as Hs; injection E as <- <-; cbn [job_of].
  - assert (Hk : has σ (acq L) rel L Cached) by (by left). change (st σ L = FREE) in Hs.
    apply (job_rights σ i (Timed L) _ L _ Cached (Job i)); auto; [congruence|cbn; naive_solver].
  - rewrite insert_id by done. set (s := put_lock L _ _). destruct Hg as [Hh Hn].
    assert (Hsame : forall lid, state (get_lock lid s) = st σ lid /\ owner (get_lock lid s) = own σ lid).
    { intros lid. unfold s. rewrite cc_get_put. case_decide as EL; [by subst lid|done]. }
    split; [split; [|done]|].
    + apply (hold_job L); [done|apply only_put|]. destruct (Hsame L) as [-> ->]. done.
    + intros lid. apply shift_keep. intros [| |k|k]; cbn; try done. by destruct (Hsame lid) as [-> _].
Qed.

Lemma local_rights σ σ' (acq : lockid -> positive -> option Z) rel :
  good σ -> (forall lid, unique (has σ (acq lid) rel lid)) -> local σ σ' ->
  good σ' /\ forall lid, shift (has σ (acq lid) rel lid) (has σ' (acq lid) rel lid).
Proof.
  intros Hg Hu Hs. pose proof Hg as [Hh Hn]. destruct Hs as
    [σ t L p s Ht E|σ t L p s Ht E|σ t L ret c s Ht E|σ L ret s r1 r2 Er E
    |σ added j L s E Hj|σ j L p s Hj E|σ j L p s Hj E].
  - apply acquire_stretch in E as (Ho & Hq & Hs). destruct (stretch_rights t L p s σ) as [H1 H2]; auto.
  - apply retry_wait_stretch in E as (Ho & Hq & Hs). destruct (stretch_rights t L p s σ) as [H1 H2]; auto.
  - destruct (release_rights t L ret c s σ) as [H1 H2]; auto.
  - eapply revoke_done_rights; eauto.
  - by apply releaser_rights.
  - by apply releaser_rpc_rights.
  - by apply releaser_timeout_rights.
Qed.

(** ** The invariant of the system *)

Definition rights (w : world) (c : bytes) (lid : lockid) : token -> Prop :=
  has (client w c) (fun t => acquire_replies w !! (c, t, lid)) (fun j => release_replies w !! (c, j)) lid.

Abbreviation holders w := (lock_server_cache.holders (server w)).

Record winv (w : world) : Prop := Winv {
  wi_server : lock_server_cache.inv (server w);
  wi_good : forall c, good (client w c);
  wi_unique : forall c lid, unique (rights w c lid);
  wi_holder : forall c lid k, rights w c lid k -> (lid, c) ∈ holders w;
  wi_released : forall k ret, release_replies w !! k = Some ret -> ret = lock_protocol.OK
}.

(** Per client and lock: the rights shift and the server still counts it as
    a holder, or it gains its only right with the server's consent, or it
    is left with none. *)
Definition transfer (w w' : world) (c : bytes) (lid : lockid) : Prop :=
  (shift (rights w c lid) (rights w' c lid) /\ ((lid, c) ∈ holders w -> (lid, c) ∈ holders w')) \/
  (exists k1, (forall k, rights w' c lid k -> k = k1) /\ (lid, c) ∈ holders w') \/
  (forall k, ~ rights w' c lid k).

Lemma winv_intro w w' :
  winv w -> lock_server_cache.inv (server w') -> (forall c, good (client w' c)) ->
  (forall k ret, release_replies w' !! k = Some ret -> ret = lock_protocol.OK) ->
  (forall c lid, transfer w w' c lid) -> winv w'.
Proof.
  intros [Hs Hg Hu Hh Hr] Hs' Hg' Hr' Ht. split; [done|done| | |done].
  - intros c lid. destruct (Ht c lid) as [[Hsh _]|[(k1 & H1 & _)|Hno]].
    + by eapply shift_unique.
    + intros k k' Hk Hk'. by rewrite (H1 _ Hk), (H1 _ Hk').
    + intros k k' Hk. by apply Hno in Hk.
  - intros c lid k Hk. destruct (Ht c lid) as [[Hsh Hin]|[(k1 & _ & H1)|Hno]]; [|done|by apply Hno in Hk].
    destruct (shift_some _ _ _ Hsh Hk) as [k0 Hk0]. eauto.
Qed.

Lemma transfer_same w w' c lid :
  (forall k, rights w' c lid k -> rights w c lid k) -> ((lid, c) ∈ holders w -> (lid, c) ∈ holders w') ->
  transfer w w' c lid.
Proof. intros H1 H2. left. split; [by apply shift_keep|done]. Qed.

Lemma client_set c σ w d : client (set_client c σ w) d = if decide (c = d) then σ else client w d.
Proof.
  unfold client, set_client. cbn. case_decide; [subst; by rewrite lookup_insert_eq|by rewrite lookup_insert_ne].
Qed.

(** Client [c] moved, the server counts the same holders. *)
Lemma winv_client c σ w w' :
  winv w -> clients w' = <[c := σ]> (clients w) ->
  lock_server_cache.inv (server w') -> holders w' = holders w -> good σ ->
  (forall k ret, release_replies w' !! k = Some ret -> release_replies w !! k = Some ret) ->
  (forall d t lid, c <> d -> acquire_replies w' !! (d, t, lid) = acquire_replies w !! (d, t, lid)) ->
  (forall d j, c <> d -> release_replies w' !! (d, j) = release_replies w !! (d, j)) ->
  (forall lid, shift (rights w c lid) (rights w' c lid)) -> winv w'.
Proof.
  intros Hw Ec Hs Hh Hg Hr Ha Hj Hsh.
  assert (Hc : forall d, client w' d = if decide (c = d) then σ else client w d).
  { intros d. rewrite <- client_set. unfold client. by rewrite Ec. }
  apply (winv_intro w); [done|done| | |].
  - intros d. rewrite Hc. case_decide; [done|by apply wi_good].
  - intros k ret Hk. eapply wi_released; eauto.
  - intros d lid. rewrite ?Hh. destruct (decide (c = d)) as [<-|Hne].
    + left. by rewrite Hh.
    + apply transfer_same; [|by rewrite Hh]. intros k. unfold rights. rewrite Hc, decide_False by done.
      destruct k; cbn; rewrite ?Ha, ?Hj by done; done.
Qed.

(** Only the server moved, its holders did not. *)
Lemma winv_server w w' :
  winv w -> clients w' = clients w -> lock_server_cache.inv (server w') -> holders w' = holders w ->
  acquire_replies w' = acquire_replies w -> release_replies w' = release_replies w -> winv w'.
Proof.
  intros Hw Hc Hs Hh Ha Hr. apply (winv_intro w); [done|done| | |].
  - intros d. unfold client. rewrite Hc. by apply (wi_good w).
  - intros k ret. rewrite Hr. by apply wi_released.
  - intros d lid. apply transfer_same; [|by rewrite Hh]. unfold rights, client. by rewrite Hc, Ha, Hr.
Qed.

(** *** The server's side of the calls *)

Lemma service_holders σ σ' :
  lock_server_cache.service σ σ' -> lock_server_cache.holders σ' = lock_server_cache.holders σ.
Proof. by destruct 1. Qed.

Lemma serve_acquire_spec lid c σ ret σ' :
  lock_server_cache.inv σ -> c <> [] -> lid ∉ lock_server_cache.retryer_queue (lock_server_cache.srv σ) ->
  serve_acquire lid c σ = (ret, σ') ->
  lock_server_cache.inv σ' /\
  ((ret = lock_protocol.RETRY /\ lock_server_cache.holders σ' = lock_server_cache.holders σ) \/
   (ret = lock_protocol.OK /\ lock_server_cache.holders σ' = {[ (lid, c) ]} ∪ lock_server_cache.holders σ)).
Proof.
  intros Hi Hc Hq E. unfold serve_acquire in E.
  destruct (lock_server_cache.acquire lid c _) as [r s] eqn:Ea. injection E as <- <-. split.
  - by apply lock_server_cache.acquire_inv.
  - rewrite lock_server_cache.acquire_eq in Ea. case_bool_decide; injection Ea as <- <-; [by right|by left].
Qed.

(** A lock is free of rights when the server grants it. *)
Lemma acquire_ok_free lid c d σ σ' :
  lock_server_cache.inv σ -> serve_acquire lid c σ = (lock_protocol.OK, σ') ->
  (lid, d) ∉ lock_server_cache.holders σ.
Proof.
  intros Hi E Hd. destruct (lock_server_cache.lo_held _ _ (lock_server_cache.inv_lock _ Hi lid) _ Hd) as (Ho & Hne & _).
  unfold serve_acquire in E. destruct (lock_server_cache.acquire lid c _) as [r s] eqn:Ea. injection E as -> _.
  rewrite lock_server_cache.acquire_eq in Ea. case_bool_decide as Hb; [|done]. apply Hne. rewrite <- Ho, <- Hb.
  unfold lock_server_cache.owner, lock_server_cache.get_lock.
  by destruct (lock_server_cache.lock_table _ !! lid).
Qed.

Lemma serve_release_spec lid c σ ret σ' :
  lock_server_cache.inv σ -> (lid, c) ∈ lock_server_cache.holders σ -> serve_release lid c σ = (ret, σ') ->
  lock_server_cache.inv σ' /\ ret = lock_protocol.OK /\
  lock_server_cache.holders σ' = lock_server_cache.holders σ ∖ {[ (lid, c) ]}.
Proof.
  intros Hi Hh E. unfold serve_release in E.
  destruct (lock_server_cache.release lid c _) as [r s] eqn:Er. injection E as <- <-.
  pose proof Hi as [Ht _ Hl]. destruct (lock_server_cache.lo_held _ _ (Hl lid) _ Hh) as (Ho & Hne & _).
  split; [by apply lock_server_cache.sc_release_inv|].
  destruct (lock_server_cache.owned_id σ lid Ht) as [El _]; [by rewrite Ho|].
  unfold lock_server_cache.release in Er. rewrite El in Er. rewrite bool_decide_true in Er by done.
  by injection Er as <- <-.
Qed.

Lemma retry_answered_inv j lid c ret σ :
  lock_server_cache.inv σ ->
  lock_server_cache.jobs σ !! j = Some (lock_server_cache.RetryCalling lid c) ->
  lock_server_cache.inv (retry_answered j lid c ret σ) /\
  ((ret <> rlock_protocol.OK /\ lock_server_cache.holders (retry_answered j lid c ret σ) = lock_server_cache.holders σ) \/
   (ret = rlock_protocol.OK /\
    lock_server_cache.holders (retry_answered j lid c ret σ) = {[ (lid, c) ]} ∪ lock_server_cache.holders σ)) /\
  forall d, (lid, d) ∉ lock_server_cache.holders σ.
Proof.
  intros Hi Hj. split; [|split].
  - unfold retry_answered. destruct (Z.eqb_spec ret rlock_protocol.OK) as [->|Hne].
    + by apply lock_server_cache.retry_accept_inv.
    + by apply (lock_server_cache.retry_move_inv σ j (lock_server_cache.RetryCalling lid c)).
  - cbn. destruct (Z.eqb_spec ret rlock_protocol.OK) as [->|Hne]; [by right|by left].
  - intros d Hd. destruct (lock_server_cache.lo_held _ _ (lock_server_cache.inv_lock _ Hi lid) _ Hd) as (_ & _ & _ & Ha).
    by apply (Ha j (lock_server_cache.RetryCalling lid c)).
Qed.

Lemma revoke_sent_inv j lid ret σ :
  lock_server_cache.inv σ -> lock_server_cache.jobs σ !! j = Some (lock_server_cache.RevokePending lid) ->
  lock_server_cache.inv (revoke_sent j lid ret σ).
Proof. intros Hi Hj. eapply lock_server_cache.sc_step_inv; [done|]. by constructor. Qed.

(** *** The clients' side *)

Lemma has_fewer_replies σ acq acq' rel lid k :
  (forall t ret, acq' t = Some ret -> acq t = Some ret) -> has σ acq' rel lid k -> has σ acq rel lid k.
Proof. intros Ha. destruct k; cbn; try done. intros (ret & H1 & H2). exists ret. auto. Qed.

Lemma shift_fewer (H H' H'' : token -> Prop) : (forall k, H'' k -> H' k) -> shift H H' -> shift H H''.
Proof. intros Hk [H1|(k0 & k1 & H0 & H1)]; [left; auto|right; exists k0, k1; auto]. Qed.

(** A reply to thread [t] arrives; [acq'] are the replies left. *)
Lemma acquire_return_rights σ t L ret p s (acq acq' : lockid -> positive -> option Z) rel :
  good σ -> (forall lid, unique (has σ (acq lid) rel lid)) -> acq L t = Some ret ->
  (forall lid u r, acq' lid u = Some r -> acq lid u = Some r) -> acq' L t = None ->
  acquire_return L (Zpos t) ret (cc σ) = (p, s) ->
  let σ' := move t L (tpc_of p) s σ in
  good σ' /\ forall lid, shift (has σ (acq lid) rel lid) (has σ' (acq' lid) rel lid).
Proof.
  intros Hg Hu Hr Ha Ht E σ'. unfold acquire_return in E. destruct (Z.eqb_spec ret lock_protocol.RETRY) as [->|Hne].
  - apply retry_wait_stretch in E as (Ho & Hq & Hs). destruct (stretch_rights t L p s σ) as [H1 H2]; [done..|].
    split; [done|]. intros lid. eapply shift_fewer; [|apply (H2 (acq lid))].
    intros k. apply has_fewer_replies. apply Ha.
  - injection E as <- <-. destruct Hg as [Hh Hn].
    assert (HG : has σ (acq L) rel L (Granted t)) by (exists ret; auto).
    assert (Hfree : ~ (st σ L = FREE \/ st σ L = LOCKED)).
    { intros Hc. by specialize (Hu L Cached (Granted t) Hc HG). }
    split; [split; [|done]|].
    + intros u lid. unfold σ'. rewrite at_move. cbn [cc move]. rewrite cc_get_put.
      case_decide as Eu; [injection Eu as <- <-; by rewrite decide_True|].
      intros Hhu. destruct (Hh _ _ Hhu) as [H1 H2]. case_decide; [|done]. subst lid. destruct Hfree. by right.
    + intros lid. destruct (decide (lid = L)) as [->|HneL].
      * right. exists (Granted t), Cached. split; [done|].
        intros [| |j|u] Hk; [by left|by right..|]. right. destruct Hk as (r & Hr1 & Hr2).
        split; [exists r; eauto|]. intros [= ->]. congruence.
      * apply shift_keep. intros k Hk. apply (has_other L σ) in Hk; [|done|apply only_put|done|done].
        by eapply has_fewer_replies; [apply Ha|].
Qed.

(** A release that the server has executed returns: the lock is not cached
    any more. *)
Lemma release_return_rights σ j L c s (acq : lockid -> positive -> option Z) rel rel' :
  good σ -> jobs σ !! j = Some (Releasing L) -> (forall i, i <> j -> rel' i = rel i) ->
  releaser_return L lock_protocol.OK (cc σ) = Ret (c, s) ->
  let σ' := Sys s (threads σ) (revokes σ) (delete j (jobs σ)) in
  good σ' /\ forall lid, shift (has σ (acq lid) rel lid) (has σ' (acq lid) rel' lid).
Proof.
  intros [Hh Hn] Hj Hr E σ'. unfold releaser_return, verify in E. case_bool_decide as Hs; [|done].
  injection E as <- <-. split; [split; [|done]|].
  - apply (hold_job L); [done|apply only_put|congruence].
  - intros lid. apply shift_keep. intros [| |i|i]; cbn; try done.
    + rewrite cc_get_put. case_decide; cbn; [naive_solver|done].
    + rewrite !lookup_delete_Some. intros [[Hi H]|[[Hi H] H']]; [by left|]. right. rewrite <- Hr; done.
Qed.

Lemma mark_retried_hold L m k : mark_retried L m !! k = Some Hold -> m !! k = Some Hold.
Proof.
  unfold mark_retried. rewrite map_lookup_imap. destruct (m !! k) as [[]|]; cbn; try done. by destruct (_ =? _).
Qed.

(** An accepted retry caches the lock. *)
Lemma client_retry_rights σ L ret σ' :
  good σ -> client_retry L σ = (ret, σ') ->
  good σ' /\ (ret <> rlock_protocol.OK /\ σ' = σ \/ ret = rlock_protocol.OK) /\
  forall acq rel lid k, has σ' acq rel lid k -> has σ acq rel lid k \/ (lid = L /\ k = Cached /\ ret = rlock_protocol.OK).
Proof.
  intros [Hh Hn] E. unfold client_retry, retry_handler in E.
  destruct (cachelock_table (cc σ) !! L) as [l|] eqn:El.
  2: { injection E as <- <-. destruct σ. split; [done|]. split; [by left|]. auto. }
  pose proof (cc_get_some _ _ _ El) as Eg. case_bool_decide as Es; injection E as <- <-.
  2: { destruct σ. split; [done|]. split; [by left|]. auto. }
  cbn [Z.eqb rlock_protocol.OK]. split; [split; [|done]|split; [by right|]].
  - intros t lid Ht. unfold at_lock in Ht. cbn in Ht.
    destruct (mark_retried L (threads σ) !! (t, lid)) as [q|] eqn:Eq; [cbn in Ht; subst q|done].
    apply mark_retried_hold in Eq. destruct (Hh t lid) as [H1 H2]; [unfold at_lock; by rewrite Eq|].
    cbn [cc]. rewrite cc_get_put. case_decide; [|done]. subst lid. congruence.
  - intros acq rel lid k. destruct (decide (lid = L)) as [->|Hne].
    + destruct k; try by left. by right.
    + intros Hk. left. apply (has_other L σ) in Hk; [done|done|apply only_put|done|done].
Qed.

(** *** Every step *)

Lemma holders_set σ w : holders (set_server σ w) = lock_server_cache.holders σ.
Proof. done. Qed.

Lemma set_client_inv c σ w w' :
  winv w -> good σ -> w' = set_client c σ w ->
  (forall lid, shift (rights w c lid) (has σ (fun t => acquire_replies w !! (c, t, lid))
     (fun j => release_replies w !! (c, j)) lid)) -> winv w'.
Proof.
  intros Hw Hg -> Hsh. apply (winv_client c σ w); try done; [apply Hw|].
  intros lid. unfold rights at 2. by rewrite client_set, decide_True.
Qed.

Lemma w_acquire_inv w c t lid ret σ' :
  winv w -> c <> [] -> lid ∉ lock_server_cache.retryer_queue (lock_server_cache.srv (server w)) ->
  serve_acquire lid c (server w) = (ret, σ') ->
  winv (set_server σ' (set_acquire_replies (<[(c, t, lid) := ret]> (acquire_replies w)) w)).
Proof.
  intros Hw Hc Hq E. destruct (serve_acquire_spec _ _ _ _ _ (wi_server _ Hw) Hc Hq E) as [Hs Hor].
  apply (winv_intro w); [done|done|apply Hw|apply Hw|].
  intros d k. destruct (decide ((d, k) = (c, lid))) as [[= -> ->]|Hne].
  - destruct Hor as [[-> Hh]|[-> Hh]].
    + apply transfer_same; [|cbn; by rewrite Hh]. intros [| |j|u]; cbn; try done.
      destruct (decide (t = u)) as [<-|Hu].
      { rewrite lookup_insert_eq. by intros (r & [= <-] & Hr). }
      by rewrite lookup_insert_ne by congruence.
    + right; left. exists (Granted t). split; [|rewrite holders_set, Hh; set_solver].
      assert (Hno : forall k, ~ rights w c lid k).
      { intros k Hk. apply (wi_holder _ Hw) in Hk. by apply (acquire_ok_free _ c c _ σ' (wi_server _ Hw) E) in Hk. }
      intros [| |j|u] Hk; [by apply (Hno Cached) in Hk|by apply (Hno Queued) in Hk|by apply (Hno (Job j)) in Hk|].
      f_equal. destruct (decide (t = u)) as [<-|Hu]; [done|]. cbn in Hk. rewrite lookup_insert_ne in Hk by congruence.
      by apply (Hno (Granted u)) in Hk.
  - apply transfer_same.
    + intros [| |j|u]; cbn; try done. rewrite lookup_insert_ne by congruence. done.
    + rewrite holders_set. destruct Hor as [[_ ->]|[_ ->]]; set_solver.
Qed.

Lemma w_release_inv w c j lid ret σ' :
  winv w -> jobs (client w c) !! j = Some (Releasing lid) -> release_replies w !! (c, j) = None ->
  serve_release lid c (server w) = (ret, σ') ->
  winv (set_server σ' (set_release_replies (<[(c, j) := ret]> (release_replies w)) w)).
Proof.
  intros Hw Hj Hr E. assert (Hk : rights w c lid (Job j)) by (right; auto).
  destruct (serve_release_spec _ _ _ _ _ (wi_server _ Hw) (wi_holder _ Hw _ _ _ Hk) E) as (Hs & -> & Hh).
  apply (winv_intro w); [done|done|apply Hw| |].
  - intros k r. cbn. rewrite lookup_insert_Some. intros [[_ <-]|[_ H]]; [done|by eapply wi_released].
  - assert (Hkeep : forall d l k, rights (set_server σ' (set_release_replies
        (<[(c, j) := lock_protocol.OK]> (release_replies w)) w)) d l k -> rights w d l k).
    { intros d l [| |i|u]; cbn; try done. intros [H|[H H']]; [by left|]. right. split; [done|].
      by apply lookup_insert_None in H' as [H' _]. }
    intros d l. destruct (decide ((d, l) = (c, lid))) as [[= -> ->]|Hne].
    + right; right. intros k Hk'. pose proof (Hkeep _ _ _ Hk') as Hk0.
      rewrite (wi_unique _ Hw _ _ _ _ Hk0 Hk) in Hk'. cbn in Hk'. rewrite lookup_insert_eq in Hk'.
      destruct Hk' as [H|[_ H]]; [|done]. change (jobs (client w c) !! j = Some (Pending lid)) in H. congruence.
    + apply transfer_same; [apply Hkeep|]. rewrite holders_set, Hh. set_solver.
Qed.

Lemma w_retry_inv w j lid c ret σ' :
  winv w -> lock_server_cache.jobs (server w) !! j = Some (lock_server_cache.RetryCalling lid c) ->
  client_retry lid (client w c) = (ret, σ') ->
  winv (set_server (retry_answered j lid c ret (server w)) (set_client c σ' w)).
Proof.
  intros Hw Hj E. destruct (retry_answered_inv j lid c ret _ (wi_server _ Hw) Hj) as (Hs & Hor & Hno).
  destruct (client_retry_rights _ _ _ _ (wi_good _ Hw c) E) as (Hg & _ & Hk).
  apply (winv_intro w); [done|done| |apply Hw|].
  - intros d. change (good (client (set_client c σ' w) d)). rewrite client_set. case_decide; [done|apply Hw].
  - intros d l. assert (Hin : (l, d) ∈ holders w -> (l, d) ∈ lock_server_cache.holders (retry_answered j lid c ret (server w)))
      by (destruct Hor as [[_ ->]|[_ ->]]; set_solver).
    set (w' := set_server _ _).
    assert (Hc : client w' d = if decide (c = d) then σ' else client w d) by apply client_set.
    assert (Hr : forall k, rights w' d l k -> rights w d l k \/ (d = c /\ l = lid /\ k = Cached /\ ret = rlock_protocol.OK)).
    { intros k. unfold rights. rewrite Hc. case_decide; [subst d|by left]. intros H. apply Hk in H. naive_solver. }
    destruct (decide ((d, l, ret) = (c, lid, rlock_protocol.OK))) as [[= -> -> ->]|Hne].
    + right; left. exists Cached. split.
      * intros k H. apply Hr in H as [H|(_ & _ & -> & _)]; [|done]. apply (wi_holder _ Hw) in H. by apply Hno in H.
      * destruct Hor as [[? _]|[_ Hh]]; [done|]. unfold w'. rewrite holders_set, Hh. set_solver.
    + apply transfer_same; [|done]. intros k H. apply Hr in H as [H|(-> & -> & _ & ->)]; done.
Qed.

Lemma revoke_rights σ L s r :
  good σ -> revoke_handler L (cc σ) = Some s ->
  good (Sys s (threads σ) r (jobs σ)) /\
  forall acq rel lid, shift (has σ acq rel lid) (has (Sys s (threads σ) r (jobs σ)) acq rel lid).
Proof.
  intros [Hh Hn] E. unfold revoke_handler in E. destruct (cachelock_table (cc σ) !! L) as [l|] eqn:El; [|done].
  injection E as <-. pose proof (cc_get_some _ _ _ El) as Eg. split; [split; [|done]|].
  - apply (hold_job L); [done|apply only_put|]. rewrite Eg, cc_get_put, decide_True by done. done.
  - intros acq rel lid. apply shift_keep. intros [| |j|t]; cbn; try done. rewrite cc_get_put.
    case_decide; [subst lid; by rewrite Eg|done].
Qed.

Lemma step_winv w w' : winv w -> step true w w' -> winv w'.
Proof.
  intros Hw Hs. destruct Hs as [c σ' Hl|σ' Hs|c t lid b ret σ' Hc Ht Hn Hq E|c t lid b ret p s Ht Hr E
    |c j lid ret σ' Hj Hr E|c j lid ret cnd s Hj Hr E|j lid c ret σ' Hj E|j lid ret Hj|c lid s r1 r2 Er E|c lid r1 r2 Er].
  - destruct (local_rights _ _ (fun lid t => acquire_replies w !! (c, t, lid)) (fun j => release_replies w !! (c, j))
      (wi_good _ Hw c) (wi_unique _ Hw c) Hl) as [Hg Hsh]. by eapply set_client_inv.
  - apply (winv_server w); try done; [|by apply service_holders].
    eapply lock_server_cache.service_inv; [apply Hw|done].
  - by apply w_acquire_inv; auto.
  - edestruct (acquire_return_rights (client w c) t lid ret p s (fun l u => acquire_replies w !! (c, u, l))
      (fun l u => delete (c, t, lid) (acquire_replies w) !! (c, u, l)) (fun j => release_replies w !! (c, j)))
      as [Hg Hsh]; try done; [apply Hw|apply Hw| |apply lookup_delete_eq|].
    { intros l u r. rewrite lookup_delete_Some. by intros [_ ?]. }
    apply (winv_client c (move t lid (tpc_of p) s (client w c)) w); try done; [apply Hw| |].
    + intros d u l Hne. cbn. by rewrite lookup_delete_ne by congruence.
    + intros l. unfold rights at 2. rewrite client_set, decide_True by done. apply Hsh.
  - by apply (w_release_inv w c j lid).
  - pose proof (wi_released _ Hw _ _ Hr) as ->.
    edestruct (release_return_rights (client w c) j lid cnd s (fun l u => acquire_replies w !! (c, u, l))
      (fun i => release_replies w !! (c, i)) (fun i => delete (c, j) (release_replies w) !! (c, i)))
      as [Hg Hsh]; try done; [apply Hw| |].
    { intros i Hi. by rewrite lookup_delete_ne by congruence. }
    eapply (winv_client c _ w); try done; [apply Hw| | |].
    + intros k r. cbn. rewrite lookup_delete_Some. by intros [_ ?].
    + intros d u Hne. cbn. by rewrite lookup_delete_ne by congruence.
    + intros l. unfold rights at 2. rewrite client_set, decide_True by done. apply Hsh.
  - by apply w_retry_inv.
  - apply (winv_server w); try done. by apply revoke_sent_inv; [apply Hw|].
  - destruct (revoke_rights (client w c) lid s (lid :: revokes (client w c)) (wi_good _ Hw c) E) as [Hg Hsh].
    eapply (winv_client c _ w); try done; [apply Hw|].
    intros l. unfold rights at 2. rewrite client_set, decide_True by done. apply Hsh.
  - apply (winv_server w); try done. apply Hw.
Qed.

Lemma no_rights_new junk c lid k : ~ rights (world_new junk) c lid k.
Proof.
  unfold rights, client, world_new. cbn. rewrite lookup_empty.
  destruct k; cbn; unfold get_lock; cbn; rewrite ?lookup_empty; cbn;
    [naive_solver|apply not_elem_of_nil|naive_solver|naive_solver].
Qed.

Lemma reachable_winv junk w : reachable true junk w -> winv w.
Proof.
  induction 1 as [|w w' _ IH Hs]; [|by eapply step_winv]. split; cbn.
  - apply (lock_server_cache.sc_reachable_inv junk). constructor.
  - intros c. split; [|constructor]. intros t lid. unfold client, at_lock. cbn. by rewrite lookup_empty.
  - intros c lid k k' Hk. by apply no_rights_new in Hk.
  - intros c lid k Hk. by apply no_rights_new in Hk.
  - intros k ret. by rewrite lookup_empty.
Qed.

Lemma winv_exclusion w c d t u lid :
  winv w -> at_lock (client w c) t lid = Hold -> at_lock (client w d) u lid = Hold ->
  c = d /\ t = u /\ lock_server_cache.owner (server w) lid = c.
Proof.
  intros Hw Ht Hu.
  destruct (proj1 (wi_good _ Hw c) _ _ Ht) as [H1 H2]. destruct (proj1 (wi_good _ Hw d) _ _ Hu) as [H3 H4].
  pose proof (wi_holder _ Hw c lid Cached (or_intror H1)) as Hc.
  pose proof (wi_holder _ Hw d lid Cached (or_intror H3)) as Hd.
  pose proof (lock_server_cache.lo_held _ _ (lock_server_cache.inv_lock _ (wi_server _ Hw) lid)) as Ho.
  apply Ho in Hc as (Hc & _). apply Ho in Hd as (Hd & _). assert (c = d) as -> by congruence.
  split; [done|]. split; [congruence|done].
Qed.

(** ** The service and its users

    Programs whose threads call acquire and release of the clients. *)

(** Thread [i]'s pthread_self(). *)
Definition tid (i : nat) : positive := Pos.of_succ_nat i.

(** A step of the service that is no call of its users' threads: nobody enters
    acquire or leaves with release. *)
Definition quiet (w w' : world) : Prop :=
  forall c t lid, (at_lock (client w' c) t lid = Out <-> at_lock (client w c) t lid = Out) /\
    (at_lock (client w c) t lid = Hold -> at_lock (client w' c) t lid = Hold).

Lemma tid_inj i j : tid i = tid j -> i = j.
Proof. apply SuccNat2Pos.inj. Qed.

(** A client's thread moves; the others keep what they hold. *)
Lemma hold_frame (lc : nat -> bytes) n i l p s w m j l' :
  at_lock (client w (lc m)) (tid j) l' = Hold -> j <> i \/ l' <> l \/ at_lock (client w (lc n)) (tid i) l <> Hold ->
  at_lock (client (set_client (lc n) (move (tid i) l p s (client w (lc n))) w) (lc m)) (tid j) l' = Hold.
Proof.
  intros Hm Hor. rewrite client_set. case_decide as E; [|done]. rewrite at_move, E.
  case_decide as E'; [|done]. injection E' as Ej El. subst l'. exfalso.
  destruct Hor as [Hne|[Hne|Hne]]; [apply Hne; by apply tid_inj|done|]. apply Hne. rewrite E, Ej. done.
Qed.

(** A thread's call is answered. *)
Lemma quiet_move c t lid p s w w' :
  at_lock (client w c) t lid <> Out -> at_lock (client w c) t lid <> Hold -> p <> Out ->
  clients w' = clients (set_client c (move t lid p s (client w c)) w) -> quiet w w'.
Proof.
  intros H1 H2 H3 Ec d u l.
  assert (Ed : client w' d = client (set_client c (move t lid p s (client w c)) w) d) by (unfold client; by rewrite Ec).
  rewrite Ed, client_set. case_decide as E; [|done]. subst d. rewrite at_move. case_decide as E; [|done].
  injection E as <- <-. done.
Qed.

(** ** Theorems *)

(** C6: mutual exclusion across the whole service: two threads, of one
    client or of two, never hold the same lock at once, and the server
    counts the holder's client as the owner.  This holds for every
    interleaving of the clients' threads, their releasers, the server's
    threads and thread pool and of the messages, delayed grants and stale
    retries included, as long as no acquire is processed while its lock
    waits in the retryer's queue. *)
Theorem system_mutex (junk : Z) (w : world) (c d : bytes) (t u : positive) (lid : lockid) :
  reachable true junk w -> at_lock (client w c) t lid = Hold -> at_lock (client w d) u lid = Hold ->
  c = d /\ t = u /\ lock_server_cache.owner (server w) lid = c.
Proof.
  intros Hr. by apply winv_exclusion, (reachable_winv junk).
Qed.

Abbreviation cl1 := lock_server_cache.cl1.
Abbreviation cl2 := lock_server_cache.cl2.
Abbreviation cl3 := lock_server_cache.cl3.

(** ** Running a schedule

    The steps as an executable function, for concrete runs. *)

Inductive action :=
| Acquires (c : bytes) (t : positive) (lid : lockid)    (* a thread enters acquire *)
| Served (c : bytes) (t : positive) (lid : lockid)      (* the server executes its call *)
| Returned (c : bytes) (t : positive) (lid : lockid)    (* the reply arrives *)
| Releases (c : bytes) (t : positive) (lid : lockid)    (* the thread releases the lock *)
| Revoker (j : positive)                                (* the revoker adds job j *)
| RevokeSends (j : positive) (ret : Z)                  (* job j sends, the call returns ret *)
| RevokeEnds (j : positive)                             (* job j ends *)
| Revoked (c : bytes) (lid : lockid)                    (* the first revocation arrives *)
| RevokeDone (c : bytes) (lid : lockid)                 (* its handler finds the lock free *)
| Releaser (c : bytes) (j : positive)                   (* the releaser adds job j *)
| Starts (c : bytes) (j : positive)                     (* job j sends the release or waits *)
| TimesOut (c : bytes) (j : positive)                   (* its timed wait ends *)
| ServedRelease (c : bytes) (j : positive)
| ReturnedRelease (c : bytes) (j : positive)
| Retryer (j : positive)                                (* the retryer adds job j *)
| RetryerIdle                                           (* or finds nobody waiting *)
| RetrySends (j : positive)
| Retried (j : positive)                                (* the client answers *)
| RetryEnds (j : positive).

Definition exec_client (a : action) (σ : sys) : option sys :=
  match a with
  | Acquires _ t lid =>
      match at_lock σ t lid with
      | Out | Hold => let '(p, s) := acquire lid (Zpos t) (cc σ) in Some (move t lid (tpc_of p) s σ)
      | _ => None
      end
  | Releases _ t lid =>
      match at_lock σ t lid with
      | Hold => let '(_, _, s) := release lid (Zpos t) (cc σ) in Some (move t lid Out s σ)
      | _ => None
      end
  | RevokeDone _ lid =>
      match revokes σ, revoke_loop lid (cc σ) with
      | lid' :: r, Some (_, s) => if lid' =? lid then Some (Sys s (threads σ) r (jobs σ)) else None
      | _, _ => None
      end
  | Releaser _ j =>
      match releaser (cc σ), jobs σ !! j with
      | Some (lid, s), None => Some (Sys s (threads σ) (revokes σ) (<[j := Pending lid]> (jobs σ)))
      | _, _ => None
      end
  | Starts _ j =>
      match jobs σ !! j with
      | Some (Pending lid) =>
          match releaser_rpc lid (cc σ) with
          | Ret (p, s) => Some (Sys s (threads σ) (revokes σ) (<[j := job_of p lid]> (jobs σ)))
          | _ => None
          end
      | _ => None
      end
  | TimesOut _ j =>
      match jobs σ !! j with
      | Some (Timed lid) =>
          let '(p, s) := releaser_timeout lid (cc σ) in
          Some (Sys s (threads σ) (revokes σ) (<[j := job_of p lid]> (jobs σ)))
      | _ => None
      end
  | _ => None
  end.

Lemma exec_client_sound a σ σ' : exec_client a σ = Some σ' -> local σ σ'.
Proof.
  destruct a as [c t lid|c t lid|c t lid|c t lid| | | |c lid|c lid|c j|c j|c j|c j|c j| | | | | ]; cbn; try done.
  - destruct (at_lock σ t lid) eqn:Et; try done; destruct (acquire _ _ _) eqn:E; intros [= <-]; constructor; auto.
  - destruct (at_lock σ t lid) eqn:Et; try done. destruct (release _ _ _) as [[ret cnd] s] eqn:E. intros [= <-].
    by eapply loc_release.
  - destruct (revokes σ) as [|lid' r] eqn:Er; [done|]. destruct (revoke_loop lid (cc σ)) as [[ret s]|] eqn:E; [|done].
    destruct (Z.eqb_spec lid' lid) as [->|]; [|done]. intros [= <-]. by apply (loc_revoke_done σ lid ret s [] r).
  - destruct (releaser (cc σ)) as [[lid s]|] eqn:E; [|done]. destruct (jobs σ !! j) eqn:Ej; [done|]. intros [= <-].
    by apply (loc_releaser σ true).
  - destruct (jobs σ !! j) as [[]|] eqn:Ej; try done. destruct (releaser_rpc lid (cc σ)) as [[p s]|] eqn:E; [|done].
    intros [= <-]. by apply loc_job.
  - destruct (jobs σ !! j) as [[]|] eqn:Ej; try done. destruct (releaser_timeout lid (cc σ)) as [p s] eqn:E.
    intros [= <-]. by apply loc_timeout.
Qed.

Section exec_server.
Import lock_server_cache.

Definition exec_server (a : action) (σ : sys) : option sys :=
  match a with
  | Revoker j =>
      match revoker true (srv σ), jobs σ !! j with
      | (Some lid, s), None =>
          if revoker_awake (srv σ) then Some (Sys s (<[j := RevokePending lid]> (jobs σ)) (holders σ)) else None
      | _, _ => None
      end
  | RevokeEnds j =>
      match jobs σ !! j with
      | Some (RevokeReplied lid ret) => Some (Sys (revoker_rpc lid ret (srv σ)) (delete j (jobs σ)) (holders σ))
      | _ => None
      end
  | Retryer j =>
      match retryer true (srv σ), jobs σ !! j with
      | (Some lid, s), None =>
          if retryer_awake (srv σ) then Some (Sys s (<[j := RetryPending lid]> (jobs σ)) (holders σ)) else None
      | _, _ => None
      end
  | RetryerIdle =>
      match retryer true (srv σ) with
      | (None, s) => if retryer_awake (srv σ) then Some (Sys s (jobs σ) (holders σ)) else None
      | _ => None
      end
  | RetrySends j =>
      match jobs σ !! j with
      | Some (RetryPending lid) =>
          Some (Sys (srv σ) (<[j := RetryCalling lid (rpc_target lid (srv σ))]> (jobs σ)) (holders σ))
      | _ => None
      end
  | RetryEnds j =>
      match jobs σ !! j with
      | Some (RetryReplied lid ret) =>
          match retryer_rpc lid ret (srv σ) with
          | Ret s => Some (Sys s (delete j (jobs σ)) (holders σ))
          | Crash _ => None
          end
      | _ => None
      end
  | _ => None
  end.

Lemma exec_server_sound a σ σ' : exec_server a σ = Some σ' -> service σ σ'.
Proof.
  destruct a as [| | | |j| |j| | | | | | | |j| |j| |j]; cbn; try done.
  - destruct (revoker true (srv σ)) as [[lid|] s] eqn:E; [|done]. destruct (jobs σ !! j) eqn:Ej; [done|].
    destruct (revoker_awake (srv σ)) eqn:Ea; [|done]. intros [= <-]. by apply (sv_revoker σ true).
  - destruct (jobs σ !! j) as [[]|] eqn:Ej; try done. intros [= <-]. by apply sv_revoke_finish.
  - destruct (retryer true (srv σ)) as [[lid|] s] eqn:E; [|done]. destruct (jobs σ !! j) eqn:Ej; [done|].
    destruct (retryer_awake (srv σ)) eqn:Ea; [|done]. intros [= <-]. by apply (sv_retryer σ true).
  - destruct (retryer true (srv σ)) as [[lid|] s] eqn:E; [done|].
    destruct (retryer_awake (srv σ)) eqn:Ea; [|done]. intros [= <-]. by apply (sv_retryer_none σ true).
  - destruct (jobs σ !! j) as [[]|] eqn:Ej; try done. intros [= <-]. by apply sv_retry_call.
  - destruct (jobs σ !! j) as [[| |lid ret| |]|] eqn:Ej; try done.
    destruct (retryer_rpc lid ret (srv σ)) eqn:E; [|done]. intros [= <-]. by eapply sv_retry_finish.
Qed.

End exec_server.

Definition exec (guarded : bool) (a : action) (w : world) : option world :=
  match a with
  | Acquires c _ _ | Releases c _ _ | RevokeDone c _ | Releaser c _ | Starts c _ | TimesOut c _ =>
      match exec_client a (client w c) with Some σ => Some (set_client c σ w) | None => None end
  | Revoker _ | RevokeEnds _ | Retryer _ | RetryerIdle | RetrySends _ | RetryEnds _ =>
      match exec_server a (server w) with Some σ => Some (set_server σ w) | None => None end
  | Served c t lid =>
      if bool_decide (c = []) || (guarded &&
          bool_decide (lid ∈ lock_server_cache.retryer_queue (lock_server_cache.srv (server w)))) then None
      else match at_lock (client w c) t lid, acquire_replies w !! (c, t, lid) with
           | Call _, None =>
               let '(ret, σ) := serve_acquire lid c (server w) in
               Some (set_server σ (set_acquire_replies (<[(c, t, lid) := ret]> (acquire_replies w)) w))
           | _, _ => None
           end
  | Returned c t lid =>
      match at_lock (client w c) t lid, acquire_replies w !! (c, t, lid) with
      | Call _, Some ret =>
          let '(p, s) := acquire_return lid (Zpos t) ret (cc (client w c)) in
          Some (set_client c (move t lid (tpc_of p) s (client w c))
            (set_acquire_replies (delete (c, t, lid) (acquire_replies w)) w))
      | _, _ => None
      end
  | ServedRelease c j =>
      match jobs (client w c) !! j, release_replies w !! (c, j) with
      | Some (Releasing lid), None =>
          let '(ret, σ) := serve_release lid c (server w) in
          Some (set_server σ (set_release_replies (<[(c, j) := ret]> (release_replies w)) w))
      | _, _ => None
      end
  | ReturnedRelease c j =>
      match jobs (client w c) !! j, release_replies w !! (c, j) with
      | Some (Releasing lid), Some ret =>
          match releaser_return lid ret (cc (client w c)) with
          | Ret (_, s) => Some (set_client c
              (Sys s (threads (client w c)) (revokes (client w c)) (delete j (jobs (client w c))))
              (set_release_replies (delete (c, j) (release_replies w)) w))
          | Crash _ => None
          end
      | _, _ => None
      end
  | Retried j =>
      match lock_server_cache.jobs (server w) !! j with
      | Some (lock_server_cache.RetryCalling lid c) =>
          let '(ret, σ) := client_retry lid (client w c) in
          Some (set_server (retry_answered j lid c ret (server w)) (set_client c σ w))
      | _ => None
      end
  | RevokeSends j ret =>
      match lock_server_cache.jobs (server w) !! j with
      | Some (lock_server_cache.RevokePending lid) =>
          Some (set_server (revoke_sent j lid ret (server w)) (set_revocations (revocations w ++
            [(lock_server_cache.rpc_target lid (lock_server_cache.srv (server w)), lid)]) w))
      | _ => None
      end
  | Revoked c lid =>
      match revocations w, revoke_handler lid (cc (client w c)) with
      | m :: r, Some s =>
          if bool_decide (m = (c, lid)) then
            Some (set_client c (Sys s (threads (client w c)) (lid :: revokes (client w c)) (jobs (client w c)))
              (set_revocations r w))
          else None
      | _, _ => None
      end
  end.

Lemma exec_sound g a w w' : exec g a w = Some w' -> step g w w'.
Proof.
  destruct a as [c t lid|c t lid|c t lid|c t lid|j|j ret|j|c lid|c lid|c j|c j|c j|c j|c j|j| |j|j|j]; cbn [exec];
    try (destruct (exec_client _ _) eqn:E; [|done]; apply exec_client_sound in E; intros [= <-]; by constructor);
    try (destruct (exec_server _ _) eqn:E; [|done]; apply exec_server_sound in E; intros [= <-]; by constructor).
  - case_bool_decide as Hc; [done|]. cbn [orb]. destruct (g && _) eqn:Eg; [done|].
    destruct (at_lock _ _ _) eqn:Et; try done. destruct (acquire_replies w !! _) eqn:Er; [done|].
    destruct (serve_acquire _ _ _) eqn:E. intros [= <-]. eapply w_acquire; try done.
    intros ->. by apply bool_decide_eq_false in Eg.
  - destruct (at_lock _ _ _) eqn:Et; try done. destruct (acquire_replies w !! _) eqn:Er; [|done].
    destruct (acquire_return _ _ _ _) eqn:E. intros [= <-]. by eapply w_acquire_return.
  - destruct (lock_server_cache.jobs _ !! j) as [[]|] eqn:Ej; try done. intros [= <-]. by constructor.
  - destruct (revocations w) as [|m r] eqn:Er; [done|]. destruct (revoke_handler _ _) eqn:E; [|done].
    case_bool_decide as Hm; [|done]. intros [= <-]. subst m. by apply (w_revoke g w c lid _ [] r).
  - destruct (jobs _ !! j) as [[]|] eqn:Ej; try done. destruct (release_replies w !! _) eqn:Er; [done|].
    destruct (serve_release _ _ _) eqn:E. intros [= <-]. by eapply w_release.
  - destruct (jobs _ !! j) as [[]|] eqn:Ej; try done. destruct (release_replies w !! _) eqn:Er; [|done].
    destruct (releaser_return _ _ _) as [[cnd s]|] eqn:E; [|done]. intros [= <-]. by eapply w_release_return.
  - destruct (lock_server_cache.jobs _ !! j) as [[]|] eqn:Ej; try done. destruct (client_retry _ _) eqn:E.
    intros [= <-]. by eapply w_retry.
Qed.

Fixpoint run (guarded : bool) (l : list action) (w : world) : option world :=
  match l with
  | [] => Some w
  | a :: l => match exec guarded a w with Some w' => run guarded l w' | None => None end
  end.

Lemma run_reachable g junk l w w' : reachable g junk w -> run g l w = Some w' -> reachable g junk w'.
Proof.
  revert w. induction l as [|a l IH]; intros w Hr; cbn [run]; [by intros [= <-]|].
  destruct (exec g a w) eqn:E; [|done]. apply IH. eapply reach_next; [done|]. by eapply exec_sound.
Qed.

(** A schedule that ends in a state with property [P]. *)
Definition ends (guarded : bool) (junk : Z) (l : list action) (P : world -> bool) : bool :=
  match run guarded l (world_new junk) with Some w => P w | None => false end.

Lemma ends_reachable g junk l P :
  ends g junk l P = true -> exists w, reachable g junk w /\ P w = true.
Proof.
  unfold ends. destruct (run g l (world_new junk)) as [w|] eqn:E; [|done].
  intros HP. exists w. split; [|done]. eapply run_reachable; [constructor|done].
Qed.

Definition holds (w : world) (c : bytes) (t : positive) (lid : lockid) : bool :=
  match at_lock (client w c) t lid with Hold => true | _ => false end.

Lemma holds_spec w c t lid : holds w c t lid = true -> at_lock (client w c) t lid = Hold.
Proof. unfold holds. by destruct (at_lock _ _ _). Qed.

(** cl1 holds the lock, cl2 waits for it and has been answered RETRY. *)
Definition contention : list action :=
  [Acquires cl1 1 7; Served cl1 1 7; Returned cl1 1 7; Acquires cl2 1 7; Served cl2 1 7].

(** cl1's thread and the server's revocation give the lock back. *)
Definition handed_back : list action :=
  [Revoker 1; RevokeSends 1 rlock_protocol.RPCERR; Revoked cl1 7; Releases cl1 1 7; RevokeDone cl1 7;
   Releaser cl1 1; Starts cl1 1; ServedRelease cl1 1].

Lemma system_mutex_witness :
  exists w, reachable true 0 w /\ at_lock (client w cl1) 1 7 = Hold /\
    forall d u, at_lock (client w d) u 7 = Hold -> cl1 = d /\ 1%positive = u.
Proof.
  destruct (ends_reachable true 0 contention (fun w => holds w cl1 1 7)) as (w & H & Ht); [vm_compute; reflexivity|].
  apply holds_spec in Ht. exists w. split; [exact H|]. split; [exact Ht|].
  intros d u Hu. destruct (system_mutex 0 w cl1 d 1 u 7 H Ht Hu) as (H1 & H2 & _). split; assumption.
Defined.

(** Without that restriction the whole service breaks mutual exclusion:
    cl3 acquires the lock between cl1's release and the retryer's turn and
    is granted it, the retryer then grants it to cl2, and a thread of each
    holds the lock. *)
Theorem system_race (junk : Z) :
  exists w, reachable false junk w /\ at_lock (client w cl2) 1 7 = Hold /\ at_lock (client w cl3) 1 7 = Hold.
Proof.
  destruct (ends_reachable false junk
    (contention ++ handed_back ++
     [Acquires cl3 1 7; Served cl3 1 7; Returned cl3 1 7;
      Retryer 2; RetrySends 2; Retried 2; Returned cl2 1 7])
    (fun w => holds w cl2 1 7 && holds w cl3 1 7)) as (w & H & Ht); [vm_compute; reflexivity|].
  apply andb_prop in Ht as [H2%holds_spec H3%holds_spec]. exists w. auto.
Qed.

(** A revocation that timed out is repeated.  The repeated one reaches cl2
    after it was granted the lock and before its place in the queue is
    removed: cl2's release makes the retryer grant it the lock again, while
    it asks for it anew. *)
Definition stale_retry : list action :=
  contention ++ handed_back ++
  [ReturnedRelease cl1 1; RevokeEnds 1; Revoker 1; Retryer 2; RetrySends 2; Retried 2; Returned cl2 1 7;
   RevokeSends 1 rlock_protocol.RPCERR; Revoked cl2 7; Releases cl2 1 7; RevokeDone cl2 7; Releaser cl2 1; Starts cl2 1;
   ServedRelease cl2 1; ReturnedRelease cl2 1; Retryer 3; RetrySends 3; Acquires cl2 2 7; Retried 3].

(** The stale retry corrupts the server: the two jobs that granted cl2
    the lock each remove an entry from the queue of waiting clients, the
    second from an empty queue, which is undefined behaviour. *)
Theorem system_pops_empty (junk : Z) :
  exists w lid ret, reachable true junk w /\
    lock_server_cache.jobs (server w) !! 3%positive = Some (lock_server_cache.RetryReplied lid ret) /\
    lock_server_cache.retryer_rpc lid ret (lock_server_cache.srv (server w)) = Crash Undefined.
Proof.
  destruct (ends_reachable true junk (stale_retry ++ [RetryEnds 2])
    (fun w => match lock_server_cache.jobs (server w) !! 3%positive with
              | Some (lock_server_cache.RetryReplied lid ret) =>
                  match lock_server_cache.retryer_rpc lid ret (lock_server_cache.srv (server w)) with
                  | Crash Undefined => true
                  | _ => false
                  end
              | _ => false
              end)) as (w & H & Ht); [vm_compute; reflexivity|].
  destruct (_ !! 3%positive) as [[| |lid ret| |]|] eqn:Ej in Ht; try done.
  exists w, lid, ret. split; [done|]. split; [done|].
  destruct (lock_server_cache.retryer_rpc lid ret _) as [|[]]; done.
Qed.

(** And it defeats the VERIFY of releaser_rpc: cl2's delayed acquire is
    granted after its release was executed and before the release has
    returned, the grant marks the lock as locked, and the returning release
    finds it so. *)
Theorem system_releaser_asserts (junk : Z) :
  exists w lid ret, reachable true junk w /\ at_lock (client w cl2) 2 7 = Hold /\
    jobs (client w cl2) !! 1%positive = Some (Releasing lid) /\ release_replies w !! (cl2, 1%positive) = Some ret /\
    releaser_return lid ret (cc (client w cl2)) = Crash AssertFailed.
Proof.
  destruct (ends_reachable true junk
    (stale_retry ++ [Acquires cl2 3 7; Releases cl2 3 7; RevokeEnds 1; Revoker 1; RevokeSends 1 rlock_protocol.OK;
      Revoked cl2 7; RevokeDone cl2 7; Releaser cl2 1; Starts cl2 1; TimesOut cl2 1; ServedRelease cl2 1; RetryEnds 2;
      RetryerIdle; Served cl2 2 7; Returned cl2 2 7])
    (fun w => holds w cl2 2 7 &&
       match jobs (client w cl2) !! 1%positive, release_replies w !! (cl2, 1%positive) with
       | Some (Releasing lid), Some ret =>
           match releaser_return lid ret (cc (client w cl2)) with Crash AssertFailed => true | _ => false end
       | _, _ => false
       end)) as (w & H & [Ht%holds_spec Hj]%andb_prop); [vm_compute; reflexivity|].
  destruct (jobs (client w cl2) !! 1%positive) as [[]|] eqn:Ej; try done.
  destruct (release_replies w !! _) as [ret|] eqn:Er; [|done]. exists w, lid, ret. do 4 (split; [done|]).
  destruct (releaser_return lid ret _) as [|[]]; done.
Qed.

End lock_system.
