(* ===== verification/LockTester.v ===== *)
(** * The lock tester (lock_tester.cc)

    The five tests as programs of calls and checks, run by concurrent
    threads against the caching lock service of [LockSystem]; main runs
    them phase by phase, joining the threads of a phase before the next.
    The checks count the grants of each lock and exit on a double one. *)

From Stdlib Require Import ZArith Lia.
From stdpp Require Import base list gmap sets.
From S2P Require Import Prelude LockServer LockServerCache LockClientCache LockSystem.

#[local] Open Scope Z_scope.
#[local] Set Warnings "-clear-no-such-hyp".

Module lock_tester.
Import lock_client_cache lock_system.

(** What a test thread does: calls on the client [lc[i]] and checks. *)
Inductive instr :=
| Acquire (i : nat) (lid : lockid)
| CheckGrant (lid : lockid)
| CheckRelease (lid : lockid)
| Release (i : nat) (lid : lockid).

Definition nt : nat := 10.
Definition a : lockid := 1.
Definition b : lockid := 2.

(** [int ct[256]], zero-initialised. *)
Abbreviation counts := (gmap Z Z).
Definition ct_at (ct : counts) (x : Z) : Z := default 0 (ct !! x).

(** [None]: the error is printed and the process exits. *)
Definition check_grant (lid : lockid) (ct : counts) : option counts :=
  let x := Z.land lid 0xff in
  if negb (ct_at ct x =? 0) then None else Some (<[x := ct_at ct x + 1]> ct).

Definition check_release (lid : lockid) (ct : counts) : option counts :=
  let x := Z.land lid 0xff in
  if negb (ct_at ct x =? 1) then None else Some (<[x := ct_at ct x - 1]> ct).

Definition test1 : list instr :=
  [Acquire 0 a; CheckGrant a; Release 0 a; CheckRelease a;
   Acquire 0 a; CheckGrant a; Release 0 a; CheckRelease a;
   Acquire 0 a; CheckGrant a; Acquire 0 b; CheckGrant b; Release 0 b; CheckRelease b; Release 0 a; CheckRelease a].

Definition test2 (i : nat) : list instr := [Acquire i a; CheckGrant a; CheckRelease a; Release i a].

(** [for (int j = 0; j < n; j++) body] *)
Fixpoint repeated (n : nat) (body : list instr) : list instr :=
  match n with O => [] | S n => body ++ repeated n body end.

Definition test3 (i : nat) : list instr :=
  repeated 10 [Acquire i a; CheckGrant a; CheckRelease a; Release i a].

Definition test4 (i : nat) : list instr :=
  repeated 10 [Acquire 0 a; CheckGrant a; CheckRelease a; Release 0 a].

Definition test5 (i : nat) : list instr :=
  repeated 10 [Acquire (if (i <? 5)%nat then 0 else 1) a; CheckGrant a; CheckRelease a;
               Release (if (i <? 5)%nat then 0 else 1) a].

(** The threads of each phase that main runs; [test] is the number on the
    command line, 0 without one. *)
Definition phases (test : Z) : list (list (list instr)) :=
  (if (test =? 0) || (test =? 1) then [[test1]] else []) ++
  (if (test =? 0) || (test =? 2) then [test2 <$> seq 0 nt] else []) ++
  (if (test =? 0) || (test =? 3) then [test3 <$> seq 0 nt] else []) ++
  (if (test =? 0) || (test =? 4) then [test4 <$> seq 0 2] else []) ++
  (if (test =? 0) || (test =? 5) then [test5 <$> seq 0 nt] else []).

(** [None]: main prints the usage or refuses the number, and exits. *)
Definition main (args : list Z) : option (list (list (list instr))) :=
  match args with
  | [] => None
  | [_] => Some (phases 0)
  | _ :: test :: _ => if (test <? 1) || (test >? 5) then None else Some (phases test)
  end.

(** ** Running the tests *)

Record tester := Tester {
  system : world;
  ct : counts;
  progs : list (list instr);         (* what each thread of the phase still does *)
  todo : list (list (list instr))    (* the phases to come *)
}.

Section tester.
(** The id of each client [lc[i]]. *)
Context (lc : nat -> bytes).

Definition popped (i : nat) (rest : list instr) (w : world) (c : counts) (τ : tester) : tester :=
  Tester w c (<[i := rest]> (progs τ)) (todo τ).

Inductive tstep : tester -> tester -> Prop :=
| t_service τ w' :
    step true (system τ) w' -> quiet (system τ) w' -> tstep τ (Tester w' (ct τ) (progs τ) (todo τ))
| t_acquire τ i n lid rest p s :
    progs τ !! i = Some (Acquire n lid :: rest) -> at_lock (client (system τ) (lc n)) (tid i) lid = Out ->
    acquire lid (Zpos (tid i)) (cc (client (system τ) (lc n))) = (p, s) ->
    tstep τ (Tester (set_client (lc n) (move (tid i) lid (tpc_of p) s (client (system τ) (lc n))) (system τ))
      (ct τ) (progs τ) (todo τ))
| t_acquired τ i n lid rest :
    progs τ !! i = Some (Acquire n lid :: rest) -> at_lock (client (system τ) (lc n)) (tid i) lid = Hold ->
    tstep τ (popped i rest (system τ) (ct τ) τ)
| t_release τ i n lid rest ret cnd s :
    progs τ !! i = Some (Release n lid :: rest) -> at_lock (client (system τ) (lc n)) (tid i) lid = Hold ->
    release lid (Zpos (tid i)) (cc (client (system τ) (lc n))) = (ret, cnd, s) ->
    tstep τ (popped i rest
      (set_client (lc n) (move (tid i) lid Out s (client (system τ) (lc n))) (system τ)) (ct τ) τ)
| t_check_grant τ i lid rest c :
    progs τ !! i = Some (CheckGrant lid :: rest) -> check_grant lid (ct τ) = Some c ->
    tstep τ (popped i rest (system τ) c τ)
| t_check_release τ i lid rest c :
    progs τ !! i = Some (CheckRelease lid :: rest) -> check_release lid (ct τ) = Some c ->
    tstep τ (popped i rest (system τ) c τ)
| t_join τ phase todo' :
    Forall (fun p => p = []) (progs τ) -> todo τ = phase :: todo' ->
    tstep τ (Tester (system τ) (ct τ) phase todo').

Definition tester_new (junk : Z) (plan : list (list (list instr))) : tester :=
  Tester (world_new junk) ∅ [] plan.

Inductive treachable (junk : Z) (plan : list (list (list instr))) : tester -> Prop :=
| treach_new : treachable junk plan (tester_new junk plan)
| treach_step τ τ' : treachable junk plan τ -> tstep τ τ' -> treachable junk plan τ'.

(** ** Discipline

    [h]: the locks a thread holds, with the clients; [c]: the locks it has
    counted.  A [strict] thread uncounts a lock before it releases it. *)
Fixpoint disciplined (strict : bool) (p : list instr) (h : gset (nat * lockid)) (c : gset lockid) : bool :=
  match p with
  | [] => bool_decide (h = ∅) && bool_decide (c = ∅)
  | Acquire n lid :: p => disciplined strict p ({[ (n, lid) ]} ∪ h) c
  | CheckGrant lid :: p =>
      bool_decide (set_Exists (fun k => k.2 = lid) h) && bool_decide (lid ∉ c) &&
      (0 <=? lid) && (lid <? 256) && disciplined strict p h ({[ lid ]} ∪ c)
  | CheckRelease lid :: p => bool_decide (lid ∈ c) && disciplined strict p h (c ∖ {[ lid ]})
  | Release n lid :: p =>
      bool_decide ((n, lid) ∈ h) && (negb strict || bool_decide (lid ∉ c)) &&
      disciplined strict p (filter (fun k => k.2 <> lid) h) c
  end.

(** A phase of one thread, or of strict threads. *)
Definition fair_phase (ph : list (list instr)) : bool :=
  forallb (fun p => disciplined true p ∅ ∅) ph ||
  ((length ph <=? 1)%nat && forallb (fun p => disciplined false p ∅ ∅) ph).

Lemma phases_fair test : forallb fair_phase (phases test) = true.
Proof.
  unfold phases. rewrite !forallb_app.
  repeat (destruct (_ || _)); vm_compute; reflexivity.
Qed.

(** ** Invariant *)

(** [hs]: what each thread holds and has counted. *)
Record tinv (junk : Z) (strict : bool) (hs : list (gset (nat * lockid) * gset lockid)) (τ : tester) : Prop := Tinv {
  ti_reach : reachable true junk (system τ);
  ti_len : length hs = length (progs τ);
  ti_disc : forall i p h c, progs τ !! i = Some p -> hs !! i = Some (h, c) -> disciplined strict p h c = true;
  ti_held : forall i h c n lid, hs !! i = Some (h, c) -> (n, lid) ∈ h ->
    at_lock (client (system τ) (lc n)) (tid i) lid = Hold;
  ti_cover : strict = true -> forall i h c lid, hs !! i = Some (h, c) -> lid ∈ c -> exists n, (n, lid) ∈ h;
  ti_range : forall i h c lid, hs !! i = Some (h, c) -> lid ∈ c -> 0 <= lid < 256;
  ti_count : forall x, (ct_at (ct τ) x = 1 /\ exists i h c, hs !! i = Some (h, c) /\ x ∈ c) \/
    (ct_at (ct τ) x = 0 /\ forall i h c, hs !! i = Some (h, c) -> x ∉ c);
  ti_strict : strict = true \/ (length hs <= 1)%nat;
  ti_todo : forallb fair_phase (todo τ) = true
}.

Lemma byte_land lid : 0 <= lid < 256 -> Z.land lid 0xff = lid.
Proof. intros H. change 0xff with (Z.ones 8). rewrite Z.land_ones by lia. apply Z.mod_small. lia. Qed.

(** A lock that thread [i] holds is counted by no other thread. *)
Lemma counted_by_holder junk strict hs τ i j h c n h' c' lid :
  tinv junk strict hs τ -> hs !! i = Some (h, c) -> (n, lid) ∈ h -> hs !! j = Some (h', c') -> lid ∈ c' -> j = i.
Proof.
  intros Hi Hhi Hn Hhj Hl. destruct (ti_strict _ _ _ _ Hi) as [Hs|Hs].
  - destruct (ti_cover _ _ _ _ Hi Hs _ _ _ _ Hhj Hl) as [m Hm].
    pose proof (ti_held _ _ _ _ Hi _ _ _ _ _ Hhi Hn) as H1. pose proof (ti_held _ _ _ _ Hi _ _ _ _ _ Hhj Hm) as H2.
    destruct (winv_exclusion _ _ _ _ _ _ (reachable_winv _ _ (ti_reach _ _ _ _ Hi)) H2 H1) as (_ & Ht & _). by apply tid_inj.
  - apply lookup_lt_Some in Hhi, Hhj. lia.
Qed.

(** Thread [i] has counted [lid] when a check of its release comes. *)
Lemma release_passes junk strict hs τ i lid rest :
  tinv junk strict hs τ -> progs τ !! i = Some (CheckRelease lid :: rest) ->
  exists h c, hs !! i = Some (h, c) /\ lid ∈ c /\ 0 <= lid < 256 /\ ct_at (ct τ) lid = 1 /\
    disciplined strict rest h (c ∖ {[ lid ]}) = true.
Proof.
  intros Hi Hp. destruct (lookup_lt_is_Some_2 hs i) as [[h c] Hh].
  { rewrite (ti_len _ _ _ _ Hi). by eapply lookup_lt_Some. }
  pose proof (ti_disc _ _ _ _ Hi _ _ _ _ Hp Hh) as Hd. cbn in Hd. apply andb_prop in Hd as [Hc Hd].
  apply bool_decide_eq_true in Hc. exists h, c. split; [done|]. split; [done|].
  pose proof (ti_range _ _ _ _ Hi _ _ _ _ Hh Hc). split; [done|]. split; [|done].
  destruct (ti_count _ _ _ _ Hi lid) as [[? _]|[_ Hn]]; [done|]. by destruct (Hn _ _ _ Hh).
Qed.

Lemma grant_passes junk strict hs τ i lid rest :
  tinv junk strict hs τ -> progs τ !! i = Some (CheckGrant lid :: rest) ->
  exists h c n, hs !! i = Some (h, c) /\ (n, lid) ∈ h /\ lid ∉ c /\ 0 <= lid < 256 /\ ct_at (ct τ) lid = 0 /\
    disciplined strict rest h ({[ lid ]} ∪ c) = true.
Proof.
  intros Hi Hp. destruct (lookup_lt_is_Some_2 hs i) as [[h c] Hh].
  { rewrite (ti_len _ _ _ _ Hi). by eapply lookup_lt_Some. }
  pose proof (ti_disc _ _ _ _ Hi _ _ _ _ Hp Hh) as Hd. cbn in Hd. rewrite !andb_true_iff in Hd.
  destruct Hd as ((((He & Hc) & H0) & H1) & Hd). apply bool_decide_eq_true in He as ([n l] & Hn & Hl), Hc.
  cbn in Hl. subst l. exists h, c, n. do 3 (split; [done|]). split; [lia|]. split; [|done].
  destruct (ti_count _ _ _ _ Hi lid) as [(_ & j & h' & c' & Hj & Hjc)|[? _]]; [|done].
  assert (j = i) as -> by (by eapply counted_by_holder). by simplify_eq.
Qed.

(** Thread [i] moves on, holding [h'] and having counted [c']. *)
Lemma tinv_pop junk strict hs τ i rest h c h' c' w d :
  tinv junk strict hs τ -> hs !! i = Some (h, c) -> disciplined strict rest h' c' = true ->
  reachable true junk w ->
  (forall j m l, at_lock (client (system τ) (lc m)) (tid j) l = Hold -> (j <> i \/ (m, l) ∈ h') ->
     at_lock (client w (lc m)) (tid j) l = Hold) ->
  (forall m l, (m, l) ∈ h' -> at_lock (client (system τ) (lc m)) (tid i) l = Hold) ->
  (strict = true -> forall l, l ∈ c' -> exists m, (m, l) ∈ h') -> (forall l, l ∈ c' -> 0 <= l < 256) ->
  (forall x, (ct_at d x = 1 /\ exists j h c, <[i := (h', c')]> hs !! j = Some (h, c) /\ x ∈ c) \/
    (ct_at d x = 0 /\ forall j h c, <[i := (h', c')]> hs !! j = Some (h, c) -> x ∉ c)) ->
  tinv junk strict (<[i := (h', c')]> hs) (popped i rest w d τ).
Proof.
  intros [Hr Hl Hd Hh Hv Hg Hc Hs Ht] Hi Hd' Hw Hkeep Hmine Hv' Hg' Hc'.
  assert (Hlook : forall j h0 c0, <[i := (h', c')]> hs !! j = Some (h0, c0) ->
    (j = i /\ h0 = h' /\ c0 = c') \/ (j <> i /\ hs !! j = Some (h0, c0))).
  { intros j h0 c0. rewrite list_lookup_insert_Some. naive_solver. }
  split; cbn; try done; rewrite ?length_insert; try done.
  - intros j p h0 c0. rewrite list_lookup_insert_Some. intros [(<- & <- & _)|[Hne Hp]] Hj.
    + apply Hlook in Hj as [(_ & -> & ->)|[? _]]; done.
    + apply Hlook in Hj as [(-> & _)|[_ Hj]]; [done|]. eauto.
  - intros j h0 c0 n l Hj Hn. apply Hlook in Hj as [(-> & -> & ->)|[Hne Hj]]; [auto|].
    apply Hkeep; [eauto|by left].
  - intros Hst j h0 c0 l Hj Hin. apply Hlook in Hj as [(-> & -> & ->)|[Hne Hj]]; [auto|eauto].
  - intros j h0 c0 l Hj Hin. apply Hlook in Hj as [(-> & -> & ->)|[Hne Hj]]; [auto|eauto].
Qed.

(** Nothing is counted or uncounted. *)
Lemma count_same (hs : list (gset (nat * lockid) * gset lockid)) d i h c h' :
  hs !! i = Some (h, c) ->
  (forall x, (ct_at d x = 1 /\ exists j h c, hs !! j = Some (h, c) /\ x ∈ c) \/
    (ct_at d x = 0 /\ forall j h c, hs !! j = Some (h, c) -> x ∉ c)) ->
  forall x, (ct_at d x = 1 /\ exists j h1 c1, <[i := (h', c)]> hs !! j = Some (h1, c1) /\ x ∈ c1) \/
    (ct_at d x = 0 /\ forall j h1 c1, <[i := (h', c)]> hs !! j = Some (h1, c1) -> x ∉ c1).
Proof.
  intros Hi Hc x. pose proof (lookup_lt_Some _ _ _ Hi) as Hlt.
  destruct (Hc x) as [(H1 & j & h0 & c0 & Hj & Hx)|[H0 Hn]].
  - left. split; [done|]. destruct (decide (i = j)) as [<-|Hne].
    + assert (c0 = c) as -> by congruence. exists i, h', c. by rewrite list_lookup_insert_eq.
    + exists j, h0, c0. by rewrite list_lookup_insert_ne.
  - right. split; [done|]. intros j h0 c0. rewrite list_lookup_insert_Some. intros [(_ & [= _ <-] & _)|[_ Hj]]; eauto.
Qed.

Lemma ct_at_insert d x v y : ct_at (<[x := v]> d) y = if decide (x = y) then v else ct_at d y.
Proof. unfold ct_at. case_decide; [subst; by rewrite lookup_insert_eq|by rewrite lookup_insert_ne]. Qed.

Lemma check_grant_inv junk strict hs τ i lid rest d :
  tinv junk strict hs τ -> progs τ !! i = Some (CheckGrant lid :: rest) -> check_grant lid (ct τ) = Some d ->
  exists hs', tinv junk strict hs' (popped i rest (system τ) d τ).
Proof.
  intros Hi Hp E. destruct (grant_passes _ _ _ _ _ _ _ Hi Hp) as (h & c & n & Hh & Hn & Hc & Hl & H0 & Hd).
  unfold check_grant in E. rewrite byte_land, H0 in E by done. injection E as <-.
  eexists. apply (tinv_pop junk strict hs τ i rest h c h ({[ lid ]} ∪ c)); try done.
  - apply Hi.
  - intros m l Hm. by eapply ti_held.
  - intros Hs l. rewrite elem_of_union, elem_of_singleton. intros [->|Hin]; [eauto|by eapply ti_cover].
  - intros l. rewrite elem_of_union, elem_of_singleton. intros [->|Hin]; [done|by eapply ti_range].
  - pose proof (lookup_lt_Some _ _ _ Hh) as Hlt. intros x. rewrite ct_at_insert. case_decide as Ex.
    + subst x. left. split; [done|]. exists i, h, ({[ lid ]} ∪ c). rewrite list_lookup_insert_eq by done. set_solver.
    + destruct (count_same hs (ct τ) i h c h Hh (ti_count _ _ _ _ Hi) x) as [(H1 & j & h0 & c0 & Hj & Hx)|[H1 Hno]].
      * left. split; [done|]. apply list_lookup_insert_Some in Hj as [(<- & [= <- <-] & _)|[Hne Hj]].
        -- exists i, h, ({[ lid ]} ∪ c). rewrite list_lookup_insert_eq by done. set_solver.
        -- exists j, h0, c0. by rewrite list_lookup_insert_ne.
      * right. split; [done|]. intros j h0 c0 [(<- & [= <- <-] & _)|[Hne Hj]]%list_lookup_insert_Some.
        -- specialize (Hno i h c). rewrite list_lookup_insert_eq in Hno by done. specialize (Hno eq_refl). set_solver.
        -- apply (Hno j h0 c0). by rewrite list_lookup_insert_ne.
Qed.

Lemma check_release_inv junk strict hs τ i lid rest d :
  tinv junk strict hs τ -> progs τ !! i = Some (CheckRelease lid :: rest) -> check_release lid (ct τ) = Some d ->
  (forall j h c, hs !! j = Some (h, c) -> lid ∈ c -> j = i) ->
  exists hs', tinv junk strict hs' (popped i rest (system τ) d τ).
Proof.
  intros Hi Hp E Hu. destruct (release_passes _ _ _ _ _ _ _ Hi Hp) as (h & c & Hh & Hc & Hl & H0 & Hd).
  unfold check_release in E. rewrite byte_land, H0 in E by done. injection E as <-.
  eexists. apply (tinv_pop junk strict hs τ i rest h c h (c ∖ {[ lid ]})); try done.
  - apply Hi.
  - intros m l Hm. by eapply ti_held.
  - intros Hs l [Hin _]%elem_of_difference. by eapply ti_cover.
  - intros l [Hin _]%elem_of_difference. by eapply ti_range.
  - pose proof (lookup_lt_Some _ _ _ Hh) as Hlt. intros x. rewrite ct_at_insert. case_decide as Ex.
    + subst x. right. split; [done|]. intros j h0 c0 [(<- & [= <- <-] & _)|[Hne Hj]]%list_lookup_insert_Some; [set_solver|].
      intros Hin. apply Hne. symmetry. by eapply Hu.
    + destruct (ti_count _ _ _ _ Hi x) as [(H1 & j & h0 & c0 & Hj & Hx)|[H1 Hno]].
      * left. split; [done|]. destruct (decide (i = j)) as [<-|Hne].
        -- assert (c0 = c) as -> by congruence.
           exists i, h, (c ∖ {[ lid ]}). rewrite list_lookup_insert_eq by done. set_solver.
        -- exists j, h0, c0. by rewrite list_lookup_insert_ne.
      * right. split; [done|]. intros j h0 c0 [(<- & [= <- <-] & _)|[Hne Hj]]%list_lookup_insert_Some; [|eauto].
        specialize (Hno _ _ _ Hh). set_solver.
Qed.

(** A counted lock is counted once. *)
Lemma counted_once junk strict hs τ i h c lid :
  tinv junk strict hs τ -> hs !! i = Some (h, c) -> lid ∈ c ->
  forall j h' c', hs !! j = Some (h', c') -> lid ∈ c' -> j = i.
Proof.
  intros Hi Hh Hc j h' c' Hj Hc'. destruct (ti_strict _ _ _ _ Hi) as [Hs|Hs].
  - destruct (ti_cover _ _ _ _ Hi Hs _ _ _ _ Hh Hc) as [n Hn]. by eapply counted_by_holder.
  - apply lookup_lt_Some in Hh, Hj. lia.
Qed.

(** The threads of a phase have counted nothing when they are joined. *)
Lemma join_inv junk strict hs τ phase todo' :
  tinv junk strict hs τ -> Forall (fun p => p = []) (progs τ) -> todo τ = phase :: todo' ->
  exists strict' hs', tinv junk strict' hs' (Tester (system τ) (ct τ) phase todo').
Proof.
  intros Hi Hn Ht. pose proof (ti_todo _ _ _ _ Hi) as Hf. rewrite Ht in Hf. cbn in Hf. apply andb_prop in Hf as [Hf Hf'].
  assert (exists strict', (forall p, p ∈ phase -> disciplined strict' p ∅ ∅ = true) /\
    (strict' = true \/ (length phase <= 1)%nat)) as (strict' & Hd & Hs).
  { apply orb_prop in Hf as [Hf|[Hl Hf]%andb_prop]; [exists true|exists false]; rewrite forallb_forall in Hf;
      (split; [intros p Hp; by apply Hf, list_elem_of_In|]); [by left|right; by apply Nat.leb_le]. }
  assert (Hz : forall x, ct_at (ct τ) x = 0).
  { intros x. destruct (ti_count _ _ _ _ Hi x) as [(_ & i & h & c & Hh & Hx)|[? _]]; [|done].
    destruct (lookup_lt_is_Some_2 (progs τ) i) as [p Hp].
    - rewrite <- (ti_len _ _ _ _ Hi). by eapply lookup_lt_Some.
    - pose proof (ti_disc _ _ _ _ Hi _ _ _ _ Hp Hh) as Hd'. rewrite Forall_lookup in Hn. rewrite (Hn _ _ Hp) in Hd'.
      apply andb_prop in Hd' as [_ Hc]. apply bool_decide_eq_true in Hc. set_solver. }
  exists strict', ((fun _ => (∅, ∅)) <$> phase).
  assert (Hnew : forall i h c, ((fun _ => (∅, ∅)) <$> phase : list (gset (nat * lockid) * gset lockid)) !! i = Some (h, c) ->
    h = ∅ /\ c = ∅).
  { intros i h c. rewrite list_lookup_fmap_Some. naive_solver. }
  split; cbn; rewrite ?length_fmap; try done; [apply Hi|..].
  - intros i p h c Hp Hh. apply Hnew in Hh as [-> ->]. apply Hd. by eapply list_elem_of_lookup_2.
  - intros i h c n lid Hh Hin. apply Hnew in Hh as [-> ->]. set_solver.
  - intros _ i h c lid Hh Hin. apply Hnew in Hh as [-> ->]. set_solver.
  - intros i h c lid Hh Hin. apply Hnew in Hh as [-> ->]. set_solver.
  - intros x. right. split; [done|]. intros i h c Hh. apply Hnew in Hh as [-> ->]. set_solver.
Qed.

Lemma tstep_inv junk strict hs τ τ' :
  tinv junk strict hs τ -> tstep τ τ' -> exists strict' hs', tinv junk strict' hs' τ'.
Proof.
  intros Hi Hs. assert (Hh : forall i p, progs τ !! i = Some p -> exists h c, hs !! i = Some (h, c) /\ disciplined strict p h c = true).
  { intros i p Hp. destruct (lookup_lt_is_Some_2 hs i) as [[h c] Hh].
    - rewrite (ti_len _ _ _ _ Hi). by eapply lookup_lt_Some.
    - exists h, c. split; [done|]. by eapply ti_disc. }
  destruct Hs as [τ w' Hw Hq|τ i n lid rest p s Hp Ht E|τ i n lid rest Hp Ht|τ i n lid rest ret cnd s Hp Ht E
    |τ i lid rest c Hp E|τ i lid rest c Hp E|τ phase todo' Hn Ht].
  - exists strict, hs. destruct Hi as [Hr Hl Hd Hh' Hv Hg Hc Hs Hto]. split; try done.
    + by eapply reach_next.
    + intros i h c n lid Hj Hn. destruct (Hq (lc n) (tid i) lid) as [_ H]. eauto.
  - exists strict, hs. destruct Hi as [Hr Hl Hd Hh' Hv Hg Hc Hs Hto]. split; try done.
    + eapply reach_next; [done|]. apply w_client. apply loc_acquire; [by left|done].
    + intros j h c m l Hj Hm. apply (hold_frame lc); [by eapply Hh'|]. right; right. by rewrite Ht.
  - destruct (Hh _ _ Hp) as (h & c & Hi1 & Hd). cbn in Hd. exists strict. eexists.
    apply (tinv_pop junk strict hs τ i rest h c ({[ (n, lid) ]} ∪ h) c); try done; [apply Hi| | | |].
    + intros m l. rewrite elem_of_union, elem_of_singleton. intros [[= -> ->]|Hm]; [done|by eapply ti_held].
    + intros Hst l Hl. destruct (ti_cover _ _ _ _ Hi Hst _ _ _ _ Hi1 Hl) as [m Hm]. exists m. set_solver.
    + intros l Hl. by eapply ti_range.
    + eapply count_same; [done|]. apply Hi.
  - destruct (Hh _ _ Hp) as (h & c & Hi1 & Hd). cbn in Hd. rewrite !andb_true_iff in Hd. destruct Hd as ((H1 & H2) & Hd).
    exists strict. eexists. apply (tinv_pop junk strict hs τ i rest h c (filter (fun k => k.2 <> lid) h) c); try done.
    + eapply reach_next; [apply Hi|]. apply w_client. by eapply loc_release.
    + intros j m l Hm Hor. apply (hold_frame lc); [done|]. destruct Hor as [?|[? _]%elem_of_filter]; auto.
    + intros m l [_ Hm]%elem_of_filter. by eapply ti_held.
    + intros -> l Hl. destruct (ti_cover _ _ _ _ Hi eq_refl _ _ _ _ Hi1 Hl) as [m Hm]. exists m.
      apply elem_of_filter. split; [|done]. cbn in *. apply bool_decide_eq_true in H2. congruence.
    + intros l Hl. by eapply ti_range.
    + eapply count_same; [done|]. apply Hi.
  - destruct (check_grant_inv _ _ _ _ _ _ _ _ Hi Hp E) as [hs' H]. eauto.
  - destruct (release_passes _ _ _ _ _ _ _ Hi Hp) as (h & c0 & Hi1 & Hc & _).
    destruct (check_release_inv _ _ _ _ _ _ _ _ Hi Hp E) as [hs' H]; [by eapply counted_once|eauto].
  - by eapply join_inv.
Qed.

Lemma treachable_inv junk plan τ :
  forallb fair_phase plan = true -> treachable junk plan τ -> exists strict hs, tinv junk strict hs τ.
Proof.
  intros Hf. induction 1 as [|τ τ' _ (strict & hs & IH) Hs]; [|by eapply tstep_inv].
  exists true, []. split; cbn; try done; [apply reach_new|by right|by left].
Qed.

Lemma main_fair args plan : main args = Some plan -> forallb fair_phase plan = true.
Proof.
  destruct args as [|x [|test args]]; cbn [main]; [done|intros [= <-]; apply phases_fair|].
  destruct (_ || _); [done|]. intros [= <-]. apply phases_fair.
Qed.

(** ** Theorems *)

(** C16: the lock tester never reports an error: in every run of the tests
    that main starts, whichever are selected and however the test threads,
    the service and the messages interleave, each check finds the count it
    expects, so the process does not exit, as long as no acquire is
    processed while its lock waits in the retryer's queue. *)
Theorem lock_tester_passes (junk : Z) (args : list Z) (plan : list (list (list instr))) (τ : tester)
    (i : nat) (lid : lockid) (rest : list instr) :
  main args = Some plan -> treachable junk plan τ ->
  (progs τ !! i = Some (CheckGrant lid :: rest) -> is_Some (check_grant lid (ct τ))) /\
  (progs τ !! i = Some (CheckRelease lid :: rest) -> is_Some (check_release lid (ct τ))).
Proof.
  intros Hm Hr. apply main_fair in Hm. destruct (treachable_inv _ _ _ Hm Hr) as (strict & hs & Hi). split; intros Hp.
  - destruct (grant_passes _ _ _ _ _ _ _ Hi Hp) as (h & c & n & _ & _ & _ & Hl & H0 & _).
    unfold check_grant. by rewrite byte_land, H0.
  - destruct (release_passes _ _ _ _ _ _ _ Hi Hp) as (h & c & _ & _ & Hl & H0 & _).
    unfold check_release. by rewrite byte_land, H0.
Qed.

End tester.

Definition lc_demo (n : nat) : bytes := match n with O => str "a" | _ => str "b" end.

(** The first thread of test 2 has its lock and checks the grant. *)
Lemma first_grant :
  exists τ, treachable lc_demo 0 (phases 2) τ /\ progs τ !! O = Some [CheckGrant a; CheckRelease a; Release 0 a].
Proof.
  pose proof (treach_new lc_demo 0 (phases 2)) as H.
  eapply treach_step in H; [|eapply t_join; [constructor|reflexivity]].
  eapply treach_step in H; [|eapply (t_acquire _ _ O); reflexivity].
  eapply treach_step in H; [|eapply t_service;
    [eapply (w_acquire _ _ (lc_demo 0) 1 a); [done|reflexivity|reflexivity|intros _; apply not_elem_of_nil|reflexivity]|done]].
  eapply treach_step in H; [|eapply t_service; [eapply (w_acquire_return _ _ (lc_demo 0) 1 a); reflexivity|]].
  2: { eapply (quiet_move (lc_demo 0) 1 a Hold); [discriminate| |discriminate|reflexivity]. discriminate. }
  eapply treach_step in H; [|eapply (t_acquired _ _ O); reflexivity].
  eexists. split; [exact H|reflexivity].
Qed.

Lemma lock_tester_passes_witness :
  exists τ, treachable lc_demo 0 (phases 2) τ /\
    progs τ !! O = Some [CheckGrant a; CheckRelease a; Release 0 a] /\ is_Some (check_grant a (ct τ)).
Proof.
  destruct first_grant as (τ & H & Hp). exists τ. split; [exact H|]. split; [exact Hp|].
  apply (lock_tester_passes lc_demo 0 [0; 2] (phases 2) _ O a [CheckRelease a; Release 0 a] eq_refl H). exact Hp.
Defined.

End lock_tester.
