(* ===== verification/Handle.v ===== *)
(** * The cache of RPC connections (handle.cc, handle.h)

    handle_mgr keeps one reference-counted hinfo per destination.  The
    heap of hinfo objects is explicit, so that an access through a pointer
    to a deleted object is a fault. *)

From Stdlib Require Import ZArith Lia.
From stdpp Require Import base list gmap.
From S2P Require Import Prelude.

#[local] Open Scope Z_scope.
#[local] Set Warnings "-clear-no-such-hyp".

Module handle.

Abbreviation ptr := positive.

(** struct hinfo; the rpcc object is an identifier. *)
Record hinfo := Hinfo {
  cl : option positive;
  refcnt : Z;
  del : bool;
  m : bytes
}.

Record handle_mgr := HandleMgr {
  hmap : gmap bytes ptr;
  heap : gmap ptr hinfo
}.

Definition handle_mgr_new : handle_mgr := HandleMgr ∅ ∅.

Definition deref (h : ptr) (s : handle_mgr) : res hinfo :=
  match heap s !! h with Some i => Ret i | None => Crash Undefined end.

Definition store (h : ptr) (i : hinfo) (s : handle_mgr) : handle_mgr :=
  HandleMgr (hmap s) (<[h := i]> (heap s)).

(** get_handle; [a] is the address new returns. *)
Definition get_handle (a : ptr) (n : bytes) (s : handle_mgr) : res (option ptr * handle_mgr) :=
  match hmap s !! n with
  | None => Ret (Some a, HandleMgr (<[n := a]> (hmap s)) (<[a := Hinfo None 1 false n]> (heap s)))
  | Some h =>
      i ← deref h s;
      if negb (del i) then Ret (Some h, store h (Hinfo (cl i) (refcnt i + 1) (del i) (m i)) s)
      else Ret (None, s)
  end.

(** delete_handle_wo: the rpcc to cancel and delete, if any. *)
Definition delete_handle_wo (n : bytes) (s : handle_mgr) : res (option positive * handle_mgr) :=
  match hmap s !! n with
  | None => Ret (None, s)
  | Some h =>
      i ← deref h s;
      if refcnt i =? 0
      then Ret (cl i, HandleMgr (delete n (hmap s)) (delete h (heap s)))
      else Ret (None, store h (Hinfo (cl i) (refcnt i) true (m i)) s)
  end.

Definition delete_handle (n : bytes) (s : handle_mgr) : res (option positive * handle_mgr) :=
  delete_handle_wo n s.

Definition done_handle (h : ptr) (s : handle_mgr) : res (option positive * handle_mgr) :=
  i ← deref h s;
  let i := Hinfo (cl i) (refcnt i - 1) (del i) (m i) in
  let s := store h i s in
  if (refcnt i =? 0) && del i then delete_handle_wo (m i) s else Ret (None, s).

(** handle::safebind; [c] is the address of the new rpcc and [bound] what
    its bind() returned. *)
Definition safebind (h : option ptr) (c : positive) (bound : Z) (s : handle_mgr)
  : res (option positive * handle_mgr) :=
  match h with
  | None => Ret (None, s)
  | Some h =>
      i ← deref h s;
      if del i then Ret (None, s)
      else match cl i with
           | Some c' => Ret (Some c', s)
           | None =>
               let i := if bound <? 0 then Hinfo None (refcnt i) true (m i)
                        else Hinfo (Some c) (refcnt i) (del i) (m i) in
               Ret (cl i, store h i s)
           end
  end.

(** handle::~handle *)
Definition handle_destroy (h : option ptr) (s : handle_mgr) : res (option positive * handle_mgr) :=
  match h with Some h => done_handle h s | None => Ret (None, s) end.

(** ** The manager and its live handle objects *)

Record sys := Sys { mgr : handle_mgr; live : list (option ptr) }.

Inductive step : sys -> sys -> Prop :=
| step_new σ a n h s :
    heap (mgr σ) !! a = None -> get_handle a n (mgr σ) = Ret (h, s) -> step σ (Sys s (h :: live σ))
| step_bind σ h c bound r s :
    h ∈ live σ -> safebind h c bound (mgr σ) = Ret (r, s) -> step σ (Sys s (live σ))
| step_destroy σ h l1 l2 r s :
    live σ = l1 ++ h :: l2 -> handle_destroy h (mgr σ) = Ret (r, s) -> step σ (Sys s (l1 ++ l2))
| step_delete σ n r s :
    delete_handle n (mgr σ) = Ret (r, s) -> step σ (Sys s (live σ)).

Inductive reachable : sys -> Prop :=
| reach_init : reachable (Sys handle_mgr_new [])
| reach_step σ σ' : reachable σ -> step σ σ' -> reachable σ'.

(** Handles that point to [h]. *)
Definition refs (h : ptr) (l : list (option ptr)) : Z := lenZ (filter (eq (Some h)) l).

Record inv (σ : sys) : Prop := Inv {
  inv_map : forall n h, hmap (mgr σ) !! n = Some h -> exists i, heap (mgr σ) !! h = Some i /\ m i = n;
  inv_heap : forall h i, heap (mgr σ) !! h = Some i ->
    hmap (mgr σ) !! m i = Some h /\ refcnt i = refs h (live σ);
  inv_live : forall h, Some h ∈ live σ -> is_Some (heap (mgr σ) !! h)
}.

Lemma refs_app h l1 l2 : refs h (l1 ++ l2) = refs h l1 + refs h l2.
Proof. unfold refs. rewrite filter_app, length_app. lia. Qed.

Lemma refs_cons h o l : refs h (o :: l) = (if decide (Some h = o) then 1 else 0) + refs h l.
Proof. unfold refs. rewrite filter_cons. case_decide; cbn; lia. Qed.

Lemma refs_zero h l : refs h l = 0 -> Some h ∉ l.
Proof.
  unfold refs. intros E Hin. assert (Hf : Some h ∈ filter (eq (Some h)) l) by (apply list_elem_of_filter; done).
  destruct (filter (eq (Some h)) l); [by apply not_elem_of_nil in Hf|cbn in E; lia].
Qed.

Lemma refs_pos h l : Some h ∈ l -> 0 < refs h l.
Proof.
  intros H. assert (refs h l <> 0) by (intros E; by apply refs_zero in E). unfold refs in *. lia.
Qed.

Lemma refs_absent h l : Some h ∉ l -> refs h l = 0.
Proof.
  intros Hn. unfold refs. destruct (filter (eq (Some h)) l) as [|o f] eqn:Ef; [done|]. exfalso.
  assert (Ho : o ∈ filter (eq (Some h)) l) by (rewrite Ef; by left).
  apply list_elem_of_filter in Ho as [<- Ho]. done.
Qed.

(** Replacing an object by one of the same name, with the references of
    the new list of handles. *)
Lemma inv_store σ h i i' l :
  inv σ -> heap (mgr σ) !! h = Some i -> m i' = m i ->
  refcnt i' = refs h l -> (forall k, k <> h -> refs k l = refs k (live σ)) ->
  inv (Sys (store h i' (mgr σ)) l).
Proof.
  intros [H1 H2 H3] Hh Hm Hr Hl. split; cbn.
  - intros n k Hk. destruct (H1 _ _ Hk) as (ik & Hik & Hmk). destruct (decide (h = k)) as [<-|].
    + rewrite lookup_insert_eq. simplify_eq. eauto.
    + rewrite lookup_insert_ne by done. eauto.
  - intros k ik. destruct (decide (h = k)) as [<-|].
    + rewrite lookup_insert_eq. intros [= <-]. rewrite Hm. destruct (H2 _ _ Hh). done.
    + rewrite lookup_insert_ne by done. rewrite Hl by done. apply H2.
  - intros k Hk. destruct (decide (h = k)) as [<-|]; [by rewrite lookup_insert_eq|].
    rewrite lookup_insert_ne by done. apply H3. apply refs_pos in Hk. rewrite Hl in Hk by done.
    destruct (decide (Some k ∈ live σ)) as [|Hn]; [done|]. apply refs_absent in Hn. lia.
Qed.

(** delete_handle_wo on a consistent state. *)
Lemma delete_inv σ n : inv σ -> exists r s, delete_handle_wo n (mgr σ) = Ret (r, s) /\ inv (Sys s (live σ)).
Proof.
  intros Hi. pose proof Hi as [H1 H2 H3]. unfold delete_handle_wo.
  destruct (hmap (mgr σ) !! n) as [h|] eqn:En; [|eexists _, _; split; [done|by destruct σ]].
  destruct (H1 _ _ En) as (i & Hh & <-). unfold deref. rewrite Hh. cbn [mbind res_bind].
  destruct (H2 _ _ Hh) as [_ Hr].
  destruct (Z.eqb_spec (refcnt i) 0) as [Hz|Hz]; (eexists _, _; split; [done|]).
  - split; cbn.
    + intros k a Ha. apply lookup_delete_Some in Ha as [Hne Ha]. destruct (H1 _ _ Ha) as (ia & Hia & <-).
      exists ia. rewrite lookup_delete_ne; [done|]. intros <-. simplify_eq.
    + intros a ia [Hne Ha]%lookup_delete_Some. destruct (H2 _ _ Ha) as [Hm Hra]. split; [|done].
      rewrite lookup_delete_ne; [done|]. intros E. rewrite <- E in Hm. simplify_eq.
    + intros a Ha. rewrite lookup_delete_ne; [auto|]. intros <-. apply (refs_zero h (live σ)); [congruence|done].
  - by eapply inv_store.
Qed.

Lemma get_inv σ a n : inv σ -> heap (mgr σ) !! a = None ->
  exists h s, get_handle a n (mgr σ) = Ret (h, s) /\ inv (Sys s (h :: live σ)).
Proof.
  intros Hi Ha. pose proof Hi as [H1 H2 H3]. unfold get_handle.
  destruct (hmap (mgr σ) !! n) as [h|] eqn:En.
  - destruct (H1 _ _ En) as (i & Hh & <-). unfold deref. rewrite Hh. cbn [mbind res_bind].
    destruct (H2 _ _ Hh) as [_ Hr]. destruct (negb (del i)); (eexists _, _; split; [done|]).
    + eapply inv_store; [done|done|done| |]; cbn.
      * rewrite refs_cons, decide_True by done. lia.
      * intros k Hk. rewrite refs_cons, decide_False by congruence. lia.
    + split; try done; cbn.
      intros k Hk. apply elem_of_cons in Hk as [?|Hk]; [done|auto].
  - eexists _, _. split; [done|].
    assert (Hz : refs a (live σ) = 0).
    { apply refs_absent. intros Ho. apply H3 in Ho as [? ?]. congruence. }
    split; cbn.
    + intros k h. destruct (decide (n = k)) as [<-|].
      * rewrite lookup_insert_eq. intros [= <-]. rewrite lookup_insert_eq. eauto.
      * rewrite lookup_insert_ne by done. intros Hk. destruct (H1 _ _ Hk) as (i & Hh & <-).
        exists i. rewrite lookup_insert_ne; [done|congruence].
    + intros h i. destruct (decide (a = h)) as [<-|].
      * rewrite lookup_insert_eq. intros [= <-]. cbn. rewrite lookup_insert_eq, refs_cons, decide_True, Hz by done. done.
      * rewrite lookup_insert_ne by done. intros Hh. destruct (H2 _ _ Hh) as [Hm Hr].
        rewrite refs_cons, decide_False by congruence. rewrite lookup_insert_ne; [done|congruence].
    + intros h. rewrite elem_of_cons. intros [[= ->]|Hh]; [by rewrite lookup_insert_eq|].
      destruct (decide (a = h)) as [<-|]; [by rewrite lookup_insert_eq|]. rewrite lookup_insert_ne by done. auto.
Qed.

Lemma bind_inv σ h c bound : inv σ -> h ∈ live σ ->
  exists r s, safebind h c bound (mgr σ) = Ret (r, s) /\ inv (Sys s (live σ)).
Proof.
  intros Hi Hin. pose proof Hi as [H1 H2 H3]. unfold safebind.
  destruct h as [h|]; [|eexists _, _; split; [done|by destruct σ]].
  destruct (H3 _ Hin) as [i Hh]. unfold deref. rewrite Hh. cbn [mbind res_bind].
  destruct (del i); [eexists _, _; split; [done|by destruct σ]|].
  destruct (cl i); [eexists _, _; split; [done|by destruct σ]|].
  destruct (H2 _ _ Hh) as [_ Hr].
  eexists _, _; split; [done|]. eapply inv_store; [done|done| | |done]; by destruct (bound <? 0).
Qed.

Lemma destroy_inv σ h l1 l2 : inv σ -> live σ = l1 ++ h :: l2 ->
  exists r s, handle_destroy h (mgr σ) = Ret (r, s) /\ inv (Sys s (l1 ++ l2)).
Proof.
  intros Hi El. pose proof Hi as [H1 H2 H3]. unfold handle_destroy.
  assert (Hin : h ∈ live σ) by (rewrite El; apply elem_of_app; right; by left).
  assert (Hrefs : forall k, refs k (live σ) = refs k (l1 ++ l2) + (if decide (Some k = h) then 1 else 0)).
  { intros k. rewrite El, !refs_app, refs_cons. lia. }
  destruct h as [h|].
  - destruct (H3 _ Hin) as [i Hh]. unfold done_handle, deref. rewrite Hh. cbn [mbind res_bind].
    destruct (H2 _ _ Hh) as [_ Hr].
    assert (Hs : inv (Sys (store h (Hinfo (cl i) (refcnt i - 1) (del i) (m i)) (mgr σ)) (l1 ++ l2))).
    { eapply inv_store; [done|done|done| |]; cbn.
      - rewrite Hr, Hrefs, decide_True by done. lia.
      - intros k Hk. rewrite (Hrefs k), decide_False by congruence. lia. }
    cbn [refcnt del m]. destruct (_ && _); [|eauto].
    apply (delete_inv _ (m i) Hs).
  - eexists _, _. split; [done|]. split; cbn; try done.
    + intros k i Hk. destruct (H2 _ _ Hk) as [? Hr]. split; [done|]. rewrite Hr, Hrefs, decide_False by done. lia.
    + intros k Hk. apply H3. rewrite El. apply elem_of_app. apply elem_of_app in Hk as [?|?]; [by left|right; by right].
Qed.

Lemma handle_reachable_inv σ : reachable σ -> inv σ.
Proof.
  induction 1 as [|σ σ' _ IH Hs].
  - split; cbn; intros.
    + by rewrite lookup_empty in *.
    + by rewrite lookup_empty in *.
    + exfalso. by eapply not_elem_of_nil.
  - destruct Hs as [σ a n h s Ha E|σ h c bound r s Hin E|σ h l1 l2 r s El E|σ n r s E].
    + destruct (get_inv σ a n IH Ha) as (h' & s' & E' & Hi'). rewrite E in E'. by injection E' as <- <-.
    + destruct (bind_inv σ h c bound IH Hin) as (r' & s' & E' & Hi'). rewrite E in E'. by injection E' as <- <-.
    + destruct (destroy_inv σ h l1 l2 IH El) as (r' & s' & E' & Hi'). rewrite E in E'. by injection E' as <- <-.
    + destruct (delete_inv σ n IH) as (r' & s' & E' & Hi'). unfold delete_handle in E. rewrite E in E'. by injection E' as <- <-.
Qed.

(** ** Theorems *)

(** C30: whatever handles are created, bound, destroyed and deleted in
    whatever order, no operation touches a deleted hinfo: the constructor,
    safebind and the destructor of a live handle, and delete_handle, all
    return. *)
Theorem handle_no_use_after_free (σ : sys) (a : ptr) (n : bytes) (h : option ptr) (c : positive) (bound : Z) :
  reachable σ -> heap (mgr σ) !! a = None -> h ∈ live σ ->
  returns (get_handle a n (mgr σ)) /\ returns (safebind h c bound (mgr σ)) /\
  returns (handle_destroy h (mgr σ)) /\ returns (delete_handle n (mgr σ)).
Proof.
  intros Hr Ha Hh. pose proof (handle_reachable_inv _ Hr) as Hi.
  destruct (get_inv σ a n Hi Ha) as (? & ? & E1 & _).
  destruct (bind_inv σ h c bound Hi Hh) as (? & ? & E2 & _).
  apply list_elem_of_split in Hh as (l1 & l2 & El).
  destruct (destroy_inv σ h l1 l2 Hi El) as (? & ? & E3 & _).
  destruct (delete_inv σ n Hi) as (? & ? & E4 & _).
  unfold returns, delete_handle. eauto 10.
Qed.

(** Two handles of one destination, whose bind failed. *)
Lemma handle_no_use_after_free_witness :
  exists σ, reachable σ /\ live σ = [Some 1%positive; Some 1%positive] /\
    returns (handle_destroy (Some 1%positive) (mgr σ)) /\ returns (delete_handle (str "h:1") (mgr σ)).
Proof.
  pose proof reach_init as H.
  eapply reach_step in H; [|eapply (step_new _ 1 (str "h:1")); [reflexivity|reflexivity]].
  eapply reach_step in H; [|eapply (step_new _ 2 (str "h:1")); [reflexivity|reflexivity]].
  eapply reach_step in H; [|eapply (step_bind _ (Some 1%positive) 5 (-1)); [by left|reflexivity]].
  eexists. split; [exact H|]. split; [reflexivity|].
  edestruct (handle_no_use_after_free _ 2 (str "h:1") (Some 1%positive) 5 0 H) as (_ & _ & H3 & H4);
    [reflexivity|by left|]. split; [exact H3|exact H4].
Defined.

(** Reference counts are exact: every hinfo that exists is the one its
    destination maps to and counts the handles that point to it, so an
    object that is marked deleted is freed with its last handle. *)
Theorem handle_refcount (σ : sys) (h : ptr) (i : hinfo) :
  reachable σ -> heap (mgr σ) !! h = Some i ->
  hmap (mgr σ) !! m i = Some h /\ refcnt i = refs h (live σ) /\
  (forall l1 l2 r s, live σ = l1 ++ Some h :: l2 -> del i = true -> Some h ∉ l1 ++ l2 ->
     done_handle h (mgr σ) = Ret (r, s) ->
     heap s !! h = None /\ hmap s !! m i = None /\ r = cl i).
Proof.
  intros Hr Hh. destruct (handle_reachable_inv _ Hr) as [H1 H2 H3]. destruct (H2 _ _ Hh) as [Hm Hc].
  split; [done|]. split; [done|]. intros l1 l2 r s El Hd Hn E.
  assert (Hone : refcnt i = 1).
  { pose proof (refs_absent _ _ Hn) as Hz.
    rewrite Hc, El, refs_app, refs_cons, decide_True by done. rewrite refs_app in Hz. lia. }
  unfold done_handle, deref in E. rewrite Hh in E. cbn [mbind res_bind refcnt del m] in E.
  rewrite Hone, Hd in E. cbn [Z.sub Z.add Z.opp Z.pos_sub Z.eqb andb] in E.
  unfold delete_handle_wo, deref in E. cbn in E. rewrite Hm, lookup_insert_eq in E. cbn in E.
  injection E as <- <-. cbn. rewrite !lookup_delete_eq. done.
Qed.

Lemma handle_refcount_witness :
  exists σ i, reachable σ /\ heap (mgr σ) !! 1%positive = Some i /\
    hmap (mgr σ) !! m i = Some 1%positive /\ refcnt i = refs 1 (live σ).
Proof.
  pose proof reach_init as H.
  eapply reach_step in H; [|eapply (step_new _ 1 (str "h:1")); [reflexivity|reflexivity]].
  eapply reach_step in H; [|eapply (step_new _ 2 (str "h:1")); [reflexivity|reflexivity]].
  eexists _, (Hinfo None 2 false (str "h:1")). split; [exact H|]. split; [reflexivity|].
  edestruct (handle_refcount _ 1 (Hinfo None 2 false (str "h:1")) H) as (Ha & Hb & _); [reflexivity|]. split; [exact Ha|exact Hb].
Defined.

End handle.
