(* ===== verification/YfsClient.v ===== *)
(** * The file system operations of yfs_client.cc

    The operations are written against two interfaces, the stubs of
    extent_client and of the lock client, as operations over an abstract
    world; [Backend] states what the services promise, and the world made
    of an extent server and a lock table discharges it. *)

From Stdlib Require Import ZArith Lia Strings.Byte.
From stdpp Require Import base list gmap sets.
From S2P Require Import Prelude Marshall Extent LockServer Directory.

#[local] Open Scope Z_scope.
#[local] Set Warnings "-clear-no-such-hyp".

Abbreviation attr := extent_protocol.attr.

(** ** Interfaces *)

(** extent_client: each operation is one RPC; a reference parameter is
    returned. *)
Class ExtentClient (W : Type) := {
  ec_get : Z -> W -> Z * bytes * W;
  ec_put : Z -> bytes -> W -> Z * W;
  ec_getattr : Z -> W -> Z * attr * W;
  ec_remove : Z -> W -> Z * W;
  ec_getbuf : Z -> Z -> Z -> W -> Z * bytes * W;
  ec_putbuf : Z -> Z -> bytes -> W -> Z * W
}.

Class LockClient (W : Type) := {
  lc_acquire : Z -> W -> Z * W;
  lc_release : Z -> W -> Z * W
}.

(** What the two services promise, in terms of the stored files, the locks
    this client holds and a condition on the world that lasts. *)
Class Backend (W : Type) `{!StringLimit, !ExtentClient W, !LockClient W} := {
  files : W -> gmap Z bytes;
  held : W -> gset Z;
  good : W -> Prop;
  short_files : forall w k b, good w -> files w !! k = Some b -> lenZ b <= max_size;
  acquire_law : forall w lid, good w -> lid ∉ held w ->
    exists w', lc_acquire lid w = (lock_protocol.OK, w') /\
      good w' /\ files w' = files w /\ held w' = {[ lid ]} ∪ held w;
  release_law : forall w lid, good w -> lid ∈ held w ->
    exists r w', lc_release lid w = (r, w') /\
      good w' /\ files w' = files w /\ held w' = held w ∖ {[ lid ]};
  get_law : forall w id, good w ->
    exists s b w', ec_get id w = (s, b, w') /\ good w' /\ held w' = held w /\
      extent_server.spec (extent_server.Get id 0) (files w) = (s, extent_server.OData b, files w');
  put_law : forall w id b, good w -> lenZ b <= max_size ->
    exists s w', ec_put id b w = (s, w') /\ good w' /\ held w' = held w /\
      extent_server.spec (extent_server.Put id b 0) (files w) = (s, extent_server.ODone, files w');
  getattr_law : forall w id, good w ->
    exists s a w', ec_getattr id w = (s, a, w') /\ good w' /\ held w' = held w /\
      extent_server.spec (extent_server.Getattr id) (files w) =
        (s, extent_server.OSize (extent_protocol.size a), files w');
  remove_law : forall w id, good w ->
    exists s w', ec_remove id w = (s, w') /\ good w' /\ held w' = held w /\
      extent_server.spec (extent_server.Remove id) (files w) = (s, extent_server.ODone, files w');
  getbuf_law : forall w id n off, good w -> is_u32 n -> is_u32 off ->
    exists s b w', ec_getbuf id n off w = (s, b, w') /\ good w' /\ held w' = held w /\
      extent_server.spec (extent_server.Getbuf id n off 0) (files w) = (s, extent_server.OData b, files w');
  putbuf_law : forall w id off b, good w -> is_u32 off -> off + lenZ b <= max_size ->
    exists s w', ec_putbuf id off b w = (s, w') /\ good w' /\ held w' = held w /\
      extent_server.spec (extent_server.Putbuf id off b 0) (files w) = (s, extent_server.ODone, files w')
}.

(** ** A world that keeps the promises: one extent server reached without
    failures, its clock, and the locks of this client. *)
Module world.

Record world := World { table : gmap Z extent_server.store; clock : Z; locks : gset Z }.

Section world.
Context `{!StringLimit}.

(** Run a handler; a server that ended its process answers no call, which
    the stub reports as rpc_const::timeout_failure. *)
Definition call {A} (dflt : A) (w : world) (r : extent_server.request)
    (f : extent_server.payload -> A) : Z * A * world :=
  match extent_server.serve r (table w) with
  | Ret (s, p, t) => (s, f p, World t (clock w + 1) (locks w))
  | Crash _ => (-1, dflt, w)
  end.

Definition data (p : extent_server.payload) : bytes :=
  match p with extent_server.PData b => b | _ => [] end.
Definition attrs (p : extent_server.payload) : attr :=
  match p with extent_server.PAttr a => a | _ => extent_protocol.Attr 0 0 0 0 end.

Definition status_of {A} (x : Z * A * world) : Z * world := (x.1.1, x.2).

#[export] Instance world_extent : ExtentClient world := {|
  ec_get id w := call [] w (extent_server.Get id (clock w)) data;
  ec_put id b w := status_of (call tt w (extent_server.Put id b (clock w)) (fun _ => tt));
  ec_getattr id w := call (extent_protocol.Attr 0 0 0 0) w (extent_server.Getattr id) attrs;
  ec_remove id w := status_of (call tt w (extent_server.Remove id) (fun _ => tt));
  ec_getbuf id n off w := call [] w (extent_server.Getbuf id n off (clock w)) data;
  ec_putbuf id off b w := status_of (call tt w (extent_server.Putbuf id off b (clock w)) (fun _ => tt))
|}.

#[export] Instance world_locks : LockClient world := {|
  lc_acquire lid w := (lock_protocol.OK, World (table w) (clock w) ({[ lid ]} ∪ locks w));
  lc_release lid w := (if decide (lid ∈ locks w) then lock_protocol.OK else lock_protocol.NOENT,
                       World (table w) (clock w) (locks w ∖ {[ lid ]}))
|}.

Definition world_good (w : world) : Prop := extent_server.table_ok (table w) /\ max_size < 2 ^ 31.

(** One call of the server on a good world, seen through the spec. *)
Lemma call_law {A} (dflt : A) w r f :
  world_good w -> extent_server.request_ok r -> extent_server.is_resize r = false ->
  ~ extent_server.oversize r (table w) ->
  exists s p t, extent_server.serve r (table w) = Ret (s, p, t) /\
    call dflt w r f = (s, f p, World t (clock w + 1) (locks w)) /\
    world_good (World t (clock w + 1) (locks w)) /\
    extent_server.spec r (extent_server.contents (table w)) =
      (s, extent_server.observe p, extent_server.contents t).
Proof.
  intros [Ht Hm] Hr Hn Ho. destruct (extent_server.serve_total r (table w) Hm Ht Hr) as [_ Hret].
  destruct (Hret Ho) as [[[s p] t] E]. exists s, p, t. unfold call. rewrite E.
  do 2 (split; [done|]). split; [split; [|done]; by eapply extent_server.serve_table_ok|].
  by apply extent_server.serve_spec.
Qed.

#[export] Program Instance world_backend : Backend world := {|
  files w := extent_server.contents (table w);
  held w := locks w;
  good w := world_good w
|}.
Next Obligation.
  intros w k b [Ht _] Hk. rewrite extent_server.lookup_contents in Hk.
  destruct (table w !! k) as [r|] eqn:E; [|done]. injection Hk as <-. by destruct (Ht _ _ E).
Qed.
Next Obligation. intros w lid Hg Hl. cbn. eexists. done. Qed.
Next Obligation. intros w lid Hg Hl. cbn. eexists _, _. done. Qed.
Next Obligation.
  intros w id Hg. destruct (call_law [] w (extent_server.Get id (clock w)) data) as (s & p & t & E & Ec & Hg' & Hs); try done; try (cbn; tauto).
  eexists _, _, _. split; [exact Ec|]. split; [done|]. split; [done|]. cbn in E.
  destruct (extent_server.get id [] (clock w) (table w)) as [[? ?] ?]. injection E as <- <- <-. exact Hs.
Qed.
Next Obligation.
  intros w id b Hg Hb. destruct (call_law tt w (extent_server.Put id b (clock w)) (fun _ => tt))
    as (s & p & t & E & Ec & Hg' & Hs); try done; try (cbn; tauto).
  eexists _, _. cbn [ec_put world_extent]. unfold status_of. rewrite Ec. split; [done|]. split; [done|]. split; [done|].
  cbn in E. injection E as <- <- <-. exact Hs.
Qed.
Next Obligation.
  intros w id Hg. destruct (call_law (extent_protocol.Attr 0 0 0 0) w (extent_server.Getattr id) attrs)
    as (s & p & t & E & Ec & Hg' & Hs); try done; try (cbn; tauto).
  eexists _, _, _. split; [exact Ec|]. split; [done|]. split; [done|]. cbn in E.
  destruct (extent_server.getattr id (table w)) as [? ?]. injection E as <- <- <-. exact Hs.
Qed.
Next Obligation.
  intros w id Hg. destruct (call_law tt w (extent_server.Remove id) (fun _ => tt))
    as (s & p & t & E & Ec & Hg' & Hs); try done; try (cbn; tauto).
  eexists _, _. cbn [ec_remove world_extent]. unfold status_of. rewrite Ec. split; [done|]. split; [done|]. split; [done|].
  cbn in E. destruct (extent_server.remove id (table w)) as [? ?]. injection E as <- <- <-. exact Hs.
Qed.
Next Obligation.
  intros w id n off Hg Hn Ho. destruct (call_law [] w (extent_server.Getbuf id n off (clock w)) data)
    as (s & p & t & E & Ec & Hg' & Hs); try done; try (cbn; tauto).
  eexists _, _, _. split; [exact Ec|]. split; [done|]. split; [done|]. cbn in E.
  destruct (extent_server.getbuf id n off [] (clock w) (table w)) as [[[? ?] ?]|]; [|done]. cbn in E.
  injection E as <- <- <-. exact Hs.
Qed.
Next Obligation.
  intros w id off b Hg Ho Hb. destruct (call_law tt w (extent_server.Putbuf id off b (clock w)) (fun _ => tt))
    as (s & p & t & E & Ec & Hg' & Hs); try done; try (cbn; tauto).
  - split; [done|]. unfold is_u32 in Ho. lia.
  - cbn. intros [_ ?]. lia.
  - eexists _, _. cbn [ec_putbuf world_extent]. unfold status_of. rewrite Ec. split; [done|]. split; [done|]. split; [done|].
    cbn in E. destruct (extent_server.putbuf id off b (clock w) (table w)) as [[? ?]|]; [|done]. cbn in E.
    injection E as <- <- <-. exact Hs.
Qed.

End world.
End world.

Module yfs_client.

(** enum xxstatus *)
Definition OK : Z := 0.
Definition RPCERR : Z := 1.
Definition NOENT : Z := 2.
Definition IOERR : Z := 3.
Definition EXIST : Z := 4.

Record fileinfo := Fileinfo { f_size : Z; f_atime : Z; f_mtime : Z; f_ctime : Z }.
Record dirinfo := Dirinfo { d_atime : Z; d_mtime : Z; d_ctime : Z }.
Record dirent := Dirent { name : bytes; inum : Z }.

Definition stat2yfs (yfs ext loc : Z) : Z :=
  if negb (loc =? lock_protocol.OK) then
    if loc =? lock_protocol.RETRY then IOERR else loc - 1
  else if negb (ext =? extent_protocol.OK) then ext
  else yfs.

Definition isfile (inum : Z) : bool := negb (Z.land inum 0x80000000 =? 0).
Definition isdir (inum : Z) : bool := negb (isfile inum).

(** new_inum; [rs] are the values random() returns, [None] when the loop
    has used them up. *)
Fixpoint new_inum (rs : list Z) (parent : Z) (isfile : bool) : option Z :=
  match rs with
  | [] => None
  | r :: rs =>
      let new_inum' := if isfile then Z.lor r 0x80000000 else Z.land r 0x7fffffff in
      if (new_inum' =? parent) || (new_inum' <=? 1) then new_inum rs parent isfile else Some new_inum'
  end.

Section operations.
Context {W : Type} `{!StringLimit, !ExtentClient W, !LockClient W}.

Definition getfile (inum : Z) (fin : fileinfo) (w : W) : Z * fileinfo * W :=
  let '(l, w) := lc_acquire inum w in
  if l =? lock_protocol.OK then
    let '(e, a, w) := ec_getattr inum w in
    if negb (e =? extent_protocol.OK) then
      let '(_, w) := lc_release inum w in (IOERR, fin, w)
    else
      let fin := Fileinfo (extent_protocol.size a) (extent_protocol.atime a)
                   (extent_protocol.mtime a) (extent_protocol.ctime a) in
      let '(_, w) := lc_release inum w in (OK, fin, w)
  else (IOERR, fin, w).

Definition getdir (inum : Z) (din : dirinfo) (w : W) : Z * dirinfo * W :=
  let '(l, w) := lc_acquire inum w in
  if l =? lock_protocol.OK then
    let '(e, a, w) := ec_getattr inum w in
    if negb (e =? extent_protocol.OK) then
      let '(_, w) := lc_release inum w in (IOERR, din, w)
    else
      let din := Dirinfo (extent_protocol.atime a) (extent_protocol.mtime a) (extent_protocol.ctime a) in
      let '(_, w) := lc_release inum w in (OK, din, w)
  else (IOERR, din, w).

(** dir_add_entry: status, entry_inum and the new world; [None] when
    new_inum has not found a number among [rs]. *)
Definition dir_add_entry (parent : Z) (name : bytes) (entry_inum : Z) (isfile : bool) (rs : list Z) (w : W)
  : option (Z * Z * W) :=
  let '(loc_r, w) := lc_acquire parent w in
  if loc_r =? lock_protocol.OK then
    let '(ext_r, buf, w) := ec_get parent w in
    '(yfs_r, entry_inum, w) ←
      (if ext_r =? extent_protocol.OK then
         let '(ifexist, tmpinum, _) := dir_find buf name 0 in
         if negb ifexist then
           tmpinum ← new_inum rs parent isfile;
           let buf := buf ++ entry_line name tmpinum ++ [nl] in
           let '(_, w) := ec_put tmpinum [] w in
           let '(_, w) := ec_put parent buf w in
           Some (OK, tmpinum, w)
         else Some (EXIST, tmpinum, w)
       else Some (OK, entry_inum, w));
    let '(_, w) := lc_release parent w in
    Some (stat2yfs yfs_r ext_r loc_r, entry_inum, w)
  else Some (stat2yfs OK extent_protocol.IOERR loc_r, entry_inum, w).

Definition create (parent : Z) (name : bytes) (new_inum : Z) (rs : list Z) (w : W) : option (Z * Z * W) :=
  dir_add_entry parent name new_inum true rs w.

Definition mkadir (parent : Z) (name : bytes) (new_inum : Z) (rs : list Z) (w : W) : option (Z * Z * W) :=
  dir_add_entry parent name new_inum false rs w.

(** The inner part of remove, under the lock of the directory. *)
Definition remove_entry (parent : Z) (buf : bytes) (findinum : Z) (at' : Z * Z) (w : W) : res (Z * Z * Z * W) :=
  let '(loc_r, w) := lc_acquire findinum w in
  if loc_r =? lock_protocol.OK then
    let '(ext_r, w) := ec_remove findinum w in
    '(yfs_r, w) ←
      (if ext_r =? extent_protocol.OK then
         buf ← string_erase buf at'.1 at'.2;
         let '(_, w) := ec_put parent buf w in
         Ret (OK, w)
       else Ret (NOENT, w));
    let '(_, w) := lc_release findinum w in
    Ret (yfs_r, ext_r, loc_r, w)
  else Ret (IOERR, extent_protocol.OK, loc_r, w).

Definition remove (parent : Z) (name : bytes) (w : W) : res (Z * W) :=
  let '(loc_r, w) := lc_acquire parent w in
  if loc_r =? lock_protocol.OK then
    let '(ext_r, buf, w) := ec_get parent w in
    '(yfs_r, ext_r, loc_r, w) ←
      (if ext_r =? extent_protocol.OK then
         match dir_find buf name 0 with
         | (true, findinum, Some at') => remove_entry parent buf findinum at' w
         | _ => Ret (IOERR, ext_r, loc_r, w)
         end
       else Ret (IOERR, ext_r, loc_r, w));
    let '(_, w) := lc_release parent w in
    Ret (stat2yfs yfs_r ext_r loc_r, w)
  else Ret (stat2yfs IOERR extent_protocol.IOERR loc_r, w).

Definition lookup (parent : Z) (name : bytes) (findinum : Z) (w : W) : Z * Z * W :=
  let '(loc_r, w) := lc_acquire parent w in
  if loc_r =? lock_protocol.OK then
    let '(ext_r, buf, w) := ec_get parent w in
    let '(yfs_r, findinum) :=
      if ext_r =? extent_protocol.OK then
        let '(found, findinum, _) := dir_find buf name findinum in
        (if found : bool then OK else NOENT, findinum)
      else (NOENT, findinum) in
    let '(_, w) := lc_release parent w in
    (stat2yfs yfs_r ext_r loc_r, findinum, w)
  else (stat2yfs NOENT extent_protocol.IOERR loc_r, findinum, w).

(** The loop of readir; [prev] is what lent.inum holds. *)
Fixpoint readir_lines (ls : list (bytes * bool)) (prev : Z) : list dirent :=
  match ls with
  | [] => []
  | (line, _) :: ls =>
      if lenZ line =? 0 then readir_lines ls prev
      else let '(ok, n, i) := ent_read line prev in
           if ok : bool then Dirent n i :: readir_lines ls i else []
  end.

(** readir takes no lock. *)
Definition readir (parent : Z) (w : W) : Z * list dirent * W :=
  let '(ext_r, buf, w) := ec_get parent w in
  if ext_r =? extent_protocol.OK
  then (stat2yfs OK ext_r lock_protocol.OK, readir_lines (lines buf) 0, w)
  else (stat2yfs NOENT ext_r lock_protocol.OK, [], w).

Definition resize (target new_size : Z) (w : W) : res (Z * W) :=
  let '(loc_r, w) := lc_acquire target w in
  if loc_r =? lock_protocol.OK then
    let '(ext_r, buf, w) := ec_get target w in
    '(yfs_r, w) ←
      (if ext_r =? extent_protocol.OK then
         buf ← string_resize new_size buf;
         let '(_, w) := ec_put target buf w in
         Ret (OK, w)
       else Ret (NOENT, w));
    let '(_, w) := lc_release target w in
    Ret (stat2yfs yfs_r ext_r loc_r, w)
  else Ret (stat2yfs NOENT extent_protocol.IOERR loc_r, w).

(** read: the bytes copied into the caller's buffer, of [size] bytes; the
    64-bit offset is passed on as a size_t.  It takes no lock. *)
Definition read (target size offset : Z) (w : W) : Z * bytes * W :=
  let '(ext_r, tmp, w) := ec_getbuf target size (u32 offset) w in
  if ext_r =? extent_protocol.OK then (OK, tmp, w) else (ext_r, [], w).

(** write: status, wrtb (what it held when it fails) and the world. *)
Definition write (target : Z) (buf : bytes) (offset wrtb : Z) (w : W) : Z * Z * W :=
  let '(loc_r, w) := lc_acquire target w in
  if loc_r =? lock_protocol.OK then
    let '(ext_r, w) := ec_putbuf target (u32 offset) buf w in
    let '(yfs_r, wrtb) := if ext_r =? extent_protocol.OK then (OK, u32 (lenZ buf)) else (NOENT, wrtb) in
    let '(_, w) := lc_release target w in
    (stat2yfs yfs_r ext_r loc_r, wrtb, w)
  else (stat2yfs NOENT extent_protocol.IOERR loc_r, wrtb, w).

End operations.

(** ** Inode numbers *)

Lemma lor_file r : 0 <= r < 2 ^ 31 -> Z.lor r 0x80000000 = 2 ^ 31 + r.
Proof.
  intros Hr. rewrite Z.lor_comm. change 0x80000000 with (Z.shiftl 1 31).
  rewrite lor_add_low by lia. lia.
Qed.

Lemma land_dir r : 0 <= r < 2 ^ 31 -> Z.land r 0x7fffffff = r.
Proof. intros Hr. change 0x7fffffff with (Z.ones 31). rewrite Z.land_ones by lia. apply Z.mod_small. lia. Qed.

(** isfile tests bit 31. *)
Lemma isfile_bit i : isfile i = Z.testbit i 31.
Proof.
  unfold isfile. change 0x80000000 with (2 ^ 31).
  destruct (Z.testbit i 31) eqn:E.
  - destruct (Z.eqb_spec (Z.land i (2 ^ 31)) 0) as [H|]; [|done].
    assert (Hb : Z.testbit (Z.land i (2 ^ 31)) 31 = true)
      by (rewrite Z.land_spec, E, Z.pow2_bits_true by lia; done).
    rewrite H in Hb. done.
  - destruct (Z.eqb_spec (Z.land i (2 ^ 31)) 0) as [|H]; [done|]. exfalso. apply H.
    apply Z.bits_inj'. intros n Hn. rewrite Z.land_spec, Z.bits_0.
    destruct (Z.eq_dec n 31) as [->|Hne]; [by rewrite E|]. rewrite Z.pow2_bits_false by lia. by rewrite andb_false_r.
Qed.

Lemma isfile_high r : 0 <= r < 2 ^ 31 -> isfile (2 ^ 31 + r) = true /\ isfile r = false.
Proof.
  intros Hr. rewrite !isfile_bit. split.
  - rewrite <- (lor_file r Hr), Z.lor_spec. change (Z.testbit 0x80000000 31) with true. apply orb_true_r.
  - apply (testbit_high r 31); lia.
Qed.

Definition candidate (isfile : bool) (r : Z) : Z :=
  if isfile then Z.lor r 0x80000000 else Z.land r 0x7fffffff.

Lemma new_inum_some rs parent isf i :
  Forall (fun r => 0 <= r < 2 ^ 31) rs -> new_inum rs parent isf = Some i ->
  i <> parent /\ 1 < i < 2 ^ 32 /\ isfile i = isf /\ i ∈ candidate isf <$> rs.
Proof.
  induction 1 as [|r rs Hr _ IH]; cbn [new_inum]; [done|]. fold (candidate isf r).
  destruct (Z.eqb_spec (candidate isf r) parent) as [He|He]; cbn [orb].
  - intros H. destruct (IH H) as (? & ? & ? & ?). repeat (split; [done|]). by right.
  - destruct (Z.leb_spec (candidate isf r) 1).
    + intros H'. destruct (IH H') as (? & ? & ? & ?). repeat (split; [done|]). by right.
    + intros [= <-]. split; [done|]. assert (candidate isf r < 2 ^ 32 /\ isfile (candidate isf r) = isf) as [? ?].
      { unfold candidate. destruct (isfile_high r Hr). destruct isf; [rewrite lor_file by done|rewrite land_dir by done];
          (split; [lia|done]). }
      split; [lia|]. split; [done|]. by left.
Qed.

(** C40: new_inum gives a number of the requested kind: never the parent's,
    never 0 or the root's 1, below 2^32, with bit 31 set exactly for
    files; and it returns as soon as random() yields a usable value. *)
Theorem new_inum_spec (rs : list Z) (parent : Z) (isf : bool) :
  Forall (fun r => 0 <= r < 2 ^ 31) rs ->
  (forall i, new_inum rs parent isf = Some i ->
     i <> parent /\ 1 < i < 2 ^ 32 /\ isfile i = isf /\ isdir i = negb isf) /\
  (forall r, r ∈ rs -> candidate isf r <> parent -> 1 < candidate isf r -> is_Some (new_inum rs parent isf)).
Proof.
  intros Hr. split.
  - intros i Hi. destruct (new_inum_some rs parent isf i Hr Hi) as (? & ? & Hf & _).
    unfold isdir. rewrite Hf. done.
  - clear Hr. intros r Hin Hp H1. induction rs as [|r' rs IH]; [by apply not_elem_of_nil in Hin|].
    cbn [new_inum]. fold (candidate isf r'). apply elem_of_cons in Hin as [<-|Hin].
    + destruct (Z.eqb_spec (candidate isf r) parent); [done|]. destruct (Z.leb_spec (candidate isf r) 1); [lia|].
      cbn. eauto.
    + destruct (_ || _); [auto|eauto].
Qed.

Lemma new_inum_spec_witness :
  isfile 2147483653 = true /\ is_Some (new_inum [1; 9; 5] 9 false).
Proof.
  destruct (new_inum_spec [5] 1 true) as [H _]; [repeat (constructor; [lia|]); constructor|].
  destruct (new_inum_spec [1; 9; 5] 9 false) as [_ H']; [repeat (constructor; [lia|]); constructor|].
  split.
  - apply (H 2147483653). reflexivity.
  - apply (H' 5); [by right; right; left|done|done].
Defined.

(** ** The services' promises, operation by operation *)

Abbreviation key := extent_server.key.

Section theorems.
Context {W : Type} `{!StringLimit, !ExtentClient W, !LockClient W, !Backend W}.
(** The files and the locks of two worlds agree, and the second is good. *)
Definition same (w w' : W) : Prop := good w' /\ files w' = files w /\ held w' = held w.

Lemma get_some w id b : good w -> files w !! key id = Some b ->
  exists w', ec_get id w = (extent_protocol.OK, b, w') /\ same w w'.
Proof.
  intros Hg Hb. destruct (get_law w id Hg) as (s & b' & w' & E & Hg' & Hh & Hs). cbn in Hs. rewrite Hb in Hs.
  injection Hs as <- <- Hf. by exists w'.
Qed.

Lemma get_none w id : good w -> files w !! key id = None ->
  exists b w', ec_get id w = (extent_protocol.NOENT, b, w') /\ same w w'.
Proof.
  intros Hg Hb. destruct (get_law w id Hg) as (s & b' & w' & E & Hg' & Hh & Hs). cbn in Hs. rewrite Hb in Hs.
  injection Hs as <- <- Hf. by eexists _, w'.
Qed.

Lemma put_ok w id b : good w -> lenZ b <= max_size ->
  exists w', ec_put id b w = (extent_protocol.OK, w') /\
    good w' /\ files w' = <[key id := b]> (files w) /\ held w' = held w.
Proof.
  intros Hg Hb. destruct (put_law w id b Hg Hb) as (s & w' & E & Hg' & Hh & Hs). cbn in Hs.
  injection Hs as <- Hf. by exists w'.
Qed.

Lemma remove_some w id b : good w -> files w !! key id = Some b ->
  exists w', ec_remove id w = (extent_protocol.OK, w') /\
    good w' /\ files w' = delete (key id) (files w) /\ held w' = held w.
Proof.
  intros Hg Hb. destruct (remove_law w id Hg) as (s & w' & E & Hg' & Hh & Hs). cbn in Hs. rewrite Hb in Hs.
  injection Hs as <- Hf. by exists w'.
Qed.

Lemma acquire_ok w lid : good w -> lid ∉ held w ->
  exists w', lc_acquire lid w = (lock_protocol.OK, w') /\
    good w' /\ files w' = files w /\ held w' = {[ lid ]} ∪ held w.
Proof. apply acquire_law. Qed.

(** Releasing a lock taken on top of [h] gives [h] back. *)
Lemma release_ok w lid (h : gset Z) : good w -> held w = {[ lid ]} ∪ h -> lid ∉ h ->
  exists r w', lc_release lid w = (r, w') /\ good w' /\ files w' = files w /\ held w' = h.
Proof.
  intros Hg Hh Hl. destruct (release_law w lid Hg) as (r & w' & E & Hg' & Hf & Hh'); [set_solver|].
  exists r, w'. split; [done|]. split; [done|]. split; [done|]. rewrite Hh', Hh. set_solver.
Qed.

Context (Hmax : max_size < 2 ^ 31).

Lemma short_dir w k b : good w -> files w !! k = Some b -> lenZ b < 2 ^ 32.
Proof. intros Hg Hb. pose proof (short_files w k b Hg Hb). lia. Qed.

(** *** lookup *)

Lemma lookup_dir parent name fi w slots :
  good w -> parent ∉ held w -> files w !! key parent = Some (enc slots) -> Forall slot_ok slots ->
  exists i w', lookup parent name fi w = (match find_slot name slots with Some _ => OK | None => NOENT end, i, w') /\ same w w' /\
    (forall k j, find_slot name slots = Some (k, j) -> i = j).
Proof.
  intros Hg Hl Hp Hs. unfold lookup.
  destruct (acquire_ok w parent Hg Hl) as (w1 & -> & Hg1 & Hf1 & Hh1). cbn [Z.eqb lock_protocol.OK].
  destruct (get_some w1 parent (enc slots) Hg1) as (w2 & -> & Hg2 & Hf2 & Hh2); [by rewrite Hf1|].
  cbn [Z.eqb extent_protocol.OK].
  destruct (release_ok w2 parent (held w) Hg2) as (r & w3 & Er & Hg3 & Hf3 & Hh3); [congruence|done|].
  pose proof (dir_find_enc slots name fi Hs (short_dir w _ _ Hg Hp)) as Hd.
  assert (Hsame : same w w3) by (split; [done|split; congruence]).
  destruct (find_slot name slots) as [[k i]|].
  - destruct Hd as [-> _]. rewrite Er. eexists _, w3. split; [done|]. split; [done|]. by intros k' j [= _ <-].
  - destruct Hd as [fi' ->]. rewrite Er. eexists _, w3. split; [done|]. split; [done|]. done.
Qed.

(** *** dir_add_entry *)

Lemma add_entry_dir parent name isfile rs i j w slots :
  good w -> parent ∉ held w -> files w !! key parent = Some (enc slots) -> Forall slot_ok slots ->
  find_slot name slots = None -> new_inum rs parent isfile = Some i ->
  lenZ (enc (slots ++ [Some (name, i)])) <= max_size ->
  exists w', dir_add_entry parent name j isfile rs w = Some (OK, i, w') /\ good w' /\ held w' = held w /\
    files w' = <[key parent := enc (slots ++ [Some (name, i)])]> (<[key i := []]> (files w)).
Proof.
  intros Hg Hl Hp Hs Hf Hi Hb. unfold dir_add_entry.
  destruct (acquire_ok w parent Hg Hl) as (w1 & -> & Hg1 & Hf1 & Hh1). cbn [Z.eqb lock_protocol.OK].
  destruct (get_some w1 parent (enc slots) Hg1) as (w2 & -> & Hg2 & Hf2 & Hh2); [by rewrite Hf1|].
  cbn [Z.eqb extent_protocol.OK].
  pose proof (dir_find_enc slots name 0 Hs (short_dir w _ _ Hg Hp)) as Hd. rewrite Hf in Hd.
  destruct Hd as [fi' ->]. cbn [negb]. rewrite Hi. cbn [mbind option_bind]. rewrite enc_snoc.
  destruct (put_ok w2 i [] Hg2) as (w3 & -> & Hg3 & Hf3 & Hh3); [cbn; lia|].
  destruct (put_ok w3 parent _ Hg3 Hb) as (w4 & -> & Hg4 & Hf4 & Hh4). cbn [mbind option_bind].
  destruct (release_ok w4 parent (held w) Hg4) as (r & w5 & -> & Hg5 & Hf5 & Hh5); [congruence|done|].
  exists w5. split; [done|]. split; [done|]. split; [done|]. by rewrite Hf5, Hf4, Hf3, Hf2, Hf1.
Qed.

Lemma add_entry_exists parent name isfile rs i k j w slots :
  good w -> parent ∉ held w -> files w !! key parent = Some (enc slots) -> Forall slot_ok slots ->
  find_slot name slots = Some (k, i) ->
  exists w', dir_add_entry parent name j isfile rs w = Some (EXIST, i, w') /\ same w w'.
Proof.
  intros Hg Hl Hp Hs Hf. unfold dir_add_entry.
  destruct (acquire_ok w parent Hg Hl) as (w1 & -> & Hg1 & Hf1 & Hh1). cbn [Z.eqb lock_protocol.OK].
  destruct (get_some w1 parent (enc slots) Hg1) as (w2 & -> & Hg2 & Hf2 & Hh2); [by rewrite Hf1|].
  cbn [Z.eqb extent_protocol.OK].
  pose proof (dir_find_enc slots name 0 Hs (short_dir w _ _ Hg Hp)) as Hd. rewrite Hf in Hd.
  destruct Hd as [-> _]. cbn [negb mbind option_bind].
  destruct (release_ok w2 parent (held w) Hg2) as (r & w3 & -> & Hg3 & Hf3 & Hh3); [congruence|done|].
  exists w3. split; [done|]. split; [done|]. split; congruence.
Qed.

Lemma key_inj i p : is_u32 i -> is_u32 p -> i <> p -> key i <> key p.
Proof.
  intros Hi Hp Hne E. apply Hne. rewrite <- (u32_small i Hi), <- (u32_small p Hp).
  unfold extent_server.key in E. by rewrite <- (u32_i32 i), E, u32_i32.
Qed.

(** *** remove *)

Lemma enc_erase_le name k i slots :
  find_slot name slots = Some (k, i) -> lenZ (enc (<[k := None]> slots)) <= lenZ (enc slots).
Proof.
  intros Hf. assert (Hk : slots !! k = Some (Some (name, i))).
  { revert k Hf. induction slots as [|[[n j]|] slots IH]; intros k; cbn [find_slot]; [done| |].
    - destruct (decide (n = name)) as [->|]; [by intros [= <- <-]|].
      destruct (find_slot name slots) as [[k' i']|]; [|done]. intros [= <- <-]. by apply IH.
    - destruct (find_slot name slots) as [[k' i']|]; [|done]. intros [= <- <-]. by apply IH. }
  rewrite insert_take_drop by (by eapply lookup_lt_Some). rewrite <- (take_drop_middle _ _ _ Hk) at 3.
  rewrite !enc_app. cbn [enc slot_line]. rewrite !length_app. cbn [length]. lia.
Qed.

Lemma remove_dir parent name k i b w slots :
  good w -> parent ∉ held w -> i ∉ held w -> i <> parent -> is_u32 i -> is_u32 parent ->
  files w !! key parent = Some (enc slots) -> Forall slot_ok slots ->
  find_slot name slots = Some (k, i) -> files w !! key i = Some b ->
  exists w', remove parent name w = Ret (OK, w') /\ good w' /\ held w' = held w /\
    files w' = <[key parent := enc (<[k := None]> slots)]> (delete (key i) (files w)).
Proof.
  intros Hg Hl Hli Hip Hui Hup Hp Hs Hf Hb. unfold remove.
  destruct (acquire_ok w parent Hg Hl) as (w1 & -> & Hg1 & Hf1 & Hh1). cbn [Z.eqb lock_protocol.OK].
  destruct (get_some w1 parent (enc slots) Hg1) as (w2 & -> & Hg2 & Hf2 & Hh2); [by rewrite Hf1|].
  cbn [Z.eqb extent_protocol.OK].
  pose proof (dir_find_enc slots name 0 Hs (short_dir w _ _ Hg Hp)) as Hd. rewrite Hf in Hd.
  destruct Hd as [-> Hk]. unfold remove_entry.
  destruct (acquire_ok w2 i Hg2) as (w3 & -> & Hg3 & Hf3 & Hh3); [rewrite Hh2, Hh1; set_solver|].
  cbn [Z.eqb lock_protocol.OK].
  destruct (remove_some w3 i b Hg3) as (w4 & -> & Hg4 & Hf4 & Hh4); [by rewrite Hf3, Hf2, Hf1|].
  cbn [Z.eqb extent_protocol.OK fst snd]. rewrite (erase_slot slots k name i Hk). cbn [mbind res_bind].
  destruct (put_ok w4 parent (enc (<[k:=None]> slots)) Hg4) as (w5 & -> & Hg5 & Hf5 & Hh5).
  { pose proof (short_files w _ _ Hg Hp). pose proof (enc_erase_le _ _ _ _ Hf). lia. }
  cbn [mbind res_bind].
  destruct (release_ok w5 i ({[ parent ]} ∪ held w) Hg5) as (r & w6 & -> & Hg6 & Hf6 & Hh6);
    [congruence|set_solver|]. cbn [mbind res_bind].
  destruct (release_ok w6 parent (held w) Hg6) as (r' & w7 & -> & Hg7 & Hf7 & Hh7); [done|done|].
  exists w7. split; [done|]. split; [done|]. split; [done|]. by rewrite Hf7, Hf6, Hf5, Hf4, Hf3, Hf2, Hf1.
Qed.

(** Removing a name that is not there reports IOERR. *)
Lemma remove_missing parent name w slots :
  good w -> parent ∉ held w -> files w !! key parent = Some (enc slots) -> Forall slot_ok slots ->
  find_slot name slots = None -> exists w', remove parent name w = Ret (IOERR, w') /\ same w w'.
Proof.
  intros Hg Hl Hp Hs Hf. unfold remove.
  destruct (acquire_ok w parent Hg Hl) as (w1 & -> & Hg1 & Hf1 & Hh1). cbn [Z.eqb lock_protocol.OK].
  destruct (get_some w1 parent (enc slots) Hg1) as (w2 & -> & Hg2 & Hf2 & Hh2); [by rewrite Hf1|].
  cbn [Z.eqb extent_protocol.OK].
  pose proof (dir_find_enc slots name 0 Hs (short_dir w _ _ Hg Hp)) as Hd. rewrite Hf in Hd. destruct Hd as [fi ->].
  cbn [mbind res_bind].
  destruct (release_ok w2 parent (held w) Hg2) as (r & w3 & -> & Hg3 & Hf3 & Hh3); [congruence|done|].
  exists w3. split; [done|]. split; [done|]. split; congruence.
Qed.

(** *** Claims *)

(** Create of a new name in a well formed directory succeeds, adds
    exactly one entry behind the others and an empty file under a fresh
    number, leaves the locks as they were, and a following lookup of the
    name returns that number. *)
Theorem create_then_lookup (parent : Z) (name : bytes) (rs : list Z) (i j fi : Z) (w : W) (slots : list slot) :
  good w -> parent ∉ held w -> is_u32 parent ->
  files w !! key parent = Some (enc slots) -> Forall slot_ok slots ->
  name_ok name -> find_slot name slots = None ->
  Forall (fun r => 0 <= r < 2 ^ 31) rs -> new_inum rs parent true = Some i ->
  lenZ (enc (slots ++ [Some (name, i)])) <= max_size ->
  exists w' w'', create parent name j rs w = Some (OK, i, w') /\
    files w' = <[key parent := enc (slots ++ [Some (name, i)])]> (<[key i := []]> (files w)) /\
    held w' = held w /\ lookup parent name fi w' = (OK, i, w'') /\ same w' w''.
Proof.
  intros Hg Hl Hup Hp Hs Hn Hf Hr Hi Hb.
  destruct (add_entry_dir parent name true rs i j w slots) as (w1 & E1 & Hg1 & Hh1 & Hf1); try done.
  destruct (new_inum_some rs parent true i Hr Hi) as (_ & Hi1 & _ & _).
  destruct (lookup_dir parent name fi w1 (slots ++ [Some (name, i)])) as (i2 & w2 & E2 & Hw2 & Hi2); try done.
  - by rewrite Hh1.
  - by rewrite Hf1, lookup_insert_eq.
  - apply Forall_app. split; [done|]. constructor; [|constructor]. split; [done|]. unfold is_u64. lia.
  - assert (Hfs : find_slot name (slots ++ [Some (name, i)]) = Some (length slots + 0, i)%nat)
      by (rewrite find_slot_app by done; cbn; by rewrite decide_True).
    rewrite Hfs in E2. rewrite (Hi2 _ _ Hfs) in E2. exists w1, w2. done.
Qed.

(** Creating a name that exists, as a file or as a directory, changes
    nothing and reports EXIST with the number the name has. *)
Theorem create_existing (parent : Z) (name : bytes) (rs : list Z) (k : nat) (i j : Z) (w : W) (slots : list slot) :
  good w -> parent ∉ held w -> files w !! key parent = Some (enc slots) -> Forall slot_ok slots ->
  find_slot name slots = Some (k, i) ->
  exists w1 w2, create parent name j rs w = Some (EXIST, i, w1) /\ same w w1 /\
    mkadir parent name j rs w = Some (EXIST, i, w2) /\ same w w2.
Proof.
  intros Hg Hl Hp Hs Hf.
  destruct (add_entry_exists parent name true rs i k j w slots) as (w1 & E1 & H1); try done.
  destruct (add_entry_exists parent name false rs i k j w slots) as (w2 & E2 & H2); try done. eauto 10.
Qed.

(** Remove deletes the file's extent and exactly its directory entry,
    leaves the locks as they were; afterwards the name is not found and
    every other name is found as before. *)
Theorem remove_then_lookup (parent : Z) (name other : bytes) (k : nat) (i fi : Z) (b : bytes) (w : W)
    (slots : list slot) :
  good w -> parent ∉ held w -> i ∉ held w -> i <> parent -> is_u32 i -> is_u32 parent ->
  files w !! key parent = Some (enc slots) -> Forall slot_ok slots -> NoDup (names slots) ->
  find_slot name slots = Some (k, i) -> files w !! key i = Some b -> other <> name ->
  exists w', remove parent name w = Ret (OK, w') /\ held w' = held w /\
    files w' !! key i = None /\
    (lookup parent name fi w').1.1 = NOENT /\
    (lookup parent other fi w').1.1 = (lookup parent other fi w).1.1 /\
    ((lookup parent other fi w).1.1 = OK -> (lookup parent other fi w').1.2 = (lookup parent other fi w).1.2).
Proof.
  intros Hg Hl Hli Hip Hui Hup Hp Hs Hnd Hf Hb Ho.
  destruct (remove_dir parent name k i b w slots) as (w1 & E1 & Hg1 & Hh1 & Hf1); try done.
  assert (Hs1 : Forall slot_ok (<[k:=None]> slots)) by (by apply Forall_insert).
  assert (Hp1 : files w1 !! key parent = Some (enc (<[k:=None]> slots))) by (by rewrite Hf1, lookup_insert_eq).
  assert (Hl1 : parent ∉ held w1) by (by rewrite Hh1).
  destruct (lookup_dir parent name fi w1 _ Hg1 Hl1 Hp1 Hs1) as (a & wa & Ea & _ & _).
  destruct (lookup_dir parent other fi w1 _ Hg1 Hl1 Hp1 Hs1) as (c & wc & Ec & _ & Hc).
  destruct (lookup_dir parent other fi w _ Hg Hl Hp Hs) as (d & wd & Ed & _ & Hd).
  rewrite (find_slot_insert_None _ _ _ _ Hf Hnd) in Ea.
  rewrite (find_slot_insert_other _ _ _ _ _ Hf Ho) in Ec, Hc.
  exists w1. split; [done|]. split; [done|]. split.
  { rewrite Hf1, lookup_insert_ne, lookup_delete_eq; [done|]. apply not_eq_sym, key_inj; done. }
  rewrite Ea, Ec, Ed. cbn. split; [done|]. split; [done|].
  destruct (find_slot other slots) as [[k' i']|]; [|done]. intros _. by rewrite (Hc _ _ eq_refl), (Hd _ _ eq_refl).
Qed.

(** What is written to a file is read back: after a successful write
    of a non-empty buffer the file holds the POSIX result, and a read of
    the same range returns the buffer. *)
Theorem write_then_read (target : Z) (buf old : bytes) (off wrtb : Z) (w : W) :
  good w -> target ∉ held w -> files w !! key target = Some old -> buf <> [] ->
  0 <= off -> off + lenZ buf <= max_size ->
  exists w' w'', write target buf off wrtb w = (OK, lenZ buf, w') /\ held w' = held w /\
    files w' = <[key target := extent_server.write_at old (Z.to_nat off) buf]> (files w) /\
    read target (lenZ buf) off w' = (OK, buf, w'') /\ same w' w''.
Proof.
  intros Hg Hl Ht Hne H0 Hb. assert (Hpos : 0 < lenZ buf) by (destruct buf; cbn in *; [done|lia]).
  assert (Hou : u32 off = off) by (apply u32_small; unfold is_u32; lia).
  unfold write. destruct (acquire_ok w target Hg Hl) as (w1 & -> & Hg1 & Hf1 & Hh1). cbn [Z.eqb lock_protocol.OK].
  rewrite Hou. destruct (putbuf_law w1 target off buf Hg1) as (s & w2 & -> & Hg2 & Hh2 & Hs2);
    [unfold is_u32; lia|done|]. cbn in Hs2. rewrite Hf1, Ht in Hs2. injection Hs2 as <- Hf2.
  cbn [Z.eqb extent_protocol.OK].
  destruct (release_ok w2 target (held w) Hg2) as (r & w3 & -> & Hg3 & Hf3 & Hh3); [congruence|done|].
  rewrite u32_small by (unfold is_u32; lia).
  destruct (getbuf_law w3 target (lenZ buf) off Hg3) as (s & b & w4 & Eg & Hg4 & Hh4 & Hs4);
    [unfold is_u32; lia|unfold is_u32; lia|].
  cbn in Hs4. rewrite Hf3, <- Hf2, lookup_insert_eq in Hs4. rewrite extent_server.length_write_at in Hs4.
  destruct (Z.ltb_spec off (Z.of_nat (length old `max` (Z.to_nat off + length buf)))); [|lia].
  injection Hs4 as <- <- Hf4. rewrite Nat2Z.id, extent_server.read_write_at in Eg.
  exists w3, w4. split; [done|]. split; [done|]. split; [congruence|]. split.
  - unfold read. by rewrite Hou, Eg.
  - split; [done|]. split; [|done]. congruence.
Qed.

Lemma missing_dir_ops (parent : Z) (name : bytes) (rs : list Z) (j : Z) (w : W) :
  good w -> parent ∉ held w -> files w !! key parent = None ->
  exists w1 w2 w3, lookup parent name j w = (NOENT, j, w1) /\ same w w1 /\
    (forall isf, dir_add_entry parent name j isf rs w = Some (NOENT, j, w2)) /\ same w w2 /\
    remove parent name w = Ret (NOENT, w3) /\ same w w3.
Proof.
  intros Hg Hl Hp.
  destruct (acquire_ok w parent Hg Hl) as (w1 & E1 & Hg1 & Hf1 & Hh1).
  destruct (get_none w1 parent Hg1) as (b & w2 & E2 & Hg2 & Hf2 & Hh2); [by rewrite Hf1|].
  destruct (release_ok w2 parent (held w) Hg2) as (r & w3 & E3 & Hg3 & Hf3 & Hh3); [congruence|done|].
  assert (Hsame : same w w3) by (split; [done|split; congruence]).
  exists w3, w3, w3. unfold lookup, dir_add_entry, remove. rewrite E1.
  cbn [Z.eqb lock_protocol.OK]. rewrite E2. cbn [Z.eqb extent_protocol.NOENT extent_protocol.OK mbind option_bind res_bind].
  rewrite E3. done.
Qed.

(** A missing directory is reported without leaving a lock behind:
    lookup, create, mkdir and remove under a number that has no extent
    return NOENT (remove too) with files and locks unchanged. *)
Theorem missing_parent (parent : Z) (name : bytes) (rs : list Z) (j : Z) (w : W) :
  good w -> parent ∉ held w -> files w !! key parent = None ->
  exists w1 w2 w3, lookup parent name j w = (NOENT, j, w1) /\ same w w1 /\
    (forall isf, dir_add_entry parent name j isf rs w = Some (NOENT, j, w2)) /\ same w w2 /\
    remove parent name w = Ret (NOENT, w3) /\ same w w3.
Proof.
  apply missing_dir_ops.
Qed.

(** lookup in a directory of any contents. *)
Lemma lookup_raw parent name fi w buf :
  good w -> parent ∉ held w -> files w !! key parent = Some buf ->
  exists w', lookup parent name fi w =
    (if (dir_find buf name fi).1.1 then OK else NOENT, (dir_find buf name fi).1.2, w') /\ same w w'.
Proof.
  intros Hg Hl Hp. unfold lookup.
  destruct (acquire_ok w parent Hg Hl) as (w1 & -> & Hg1 & Hf1 & Hh1). cbn [Z.eqb lock_protocol.OK].
  destruct (get_some w1 parent buf Hg1) as (w2 & -> & Hg2 & Hf2 & Hh2); [by rewrite Hf1|].
  cbn [Z.eqb extent_protocol.OK].
  destruct (release_ok w2 parent (held w) Hg2) as (r & w3 & Er & Hg3 & Hf3 & Hh3); [congruence|done|].
  destruct (dir_find buf name fi) as [[found i] o]. rewrite Er. exists w3. cbn. split; [done|].
  split; [done|]. split; congruence.
Qed.

(** A ':' in a name breaks the directory: creating n1:n2, where what
    follows the first ':' is not a number, succeeds, and from then on
    neither that file nor any file created later can be looked up. *)
Theorem colon_hides_entries (parent : Z) (n1 n2 name : bytes) (rest : bytes) (rs : list Z) (i j fi : Z)
    (w w2 : W) (slots : list slot) :
  good w -> parent ∉ held w -> files w !! key parent = Some (enc slots) -> Forall slot_ok slots ->
  colon ∉ n1 -> nl ∉ n1 ++ n2 -> (forall k, (read_ull (n2 ++ [colon] ++ print_ull k)).2 = false) ->
  find_slot (n1 ++ [colon] ++ n2) slots = None -> new_inum rs parent true = Some i -> is_u64 i ->
  lenZ (enc (slots ++ [Some (n1 ++ [colon] ++ n2, i)])) <= max_size ->
  good w2 -> parent ∉ held w2 -> find_slot name slots = None ->
  files w2 !! key parent = Some (enc (slots ++ [Some (n1 ++ [colon] ++ n2, i)]) ++ rest) ->
  exists w1, create parent (n1 ++ [colon] ++ n2) j rs w = Some (OK, i, w1) /\
    files w1 !! key parent = Some (enc (slots ++ [Some (n1 ++ [colon] ++ n2, i)])) /\
    (lookup parent name fi w2).1.1 = NOENT.
Proof.
  intros Hg Hl Hp Hs Hc Hn Hbad Hf Hi Hu Hb Hg2 Hl2 Hf2 Hp2.
  destruct (add_entry_dir parent (n1 ++ [colon] ++ n2) true rs i j w slots) as (w1 & E1 & Hg1 & Hh1 & Hf1); try done.
  exists w1. split; [done|]. split; [by rewrite Hf1, lookup_insert_eq|].
  destruct (lookup_raw parent name fi w2 _ Hg2 Hl2 Hp2) as (w3 & -> & _). cbn [fst].
  rewrite enc_app. cbn [enc slot_line]. rewrite app_nil_r, <- !app_assoc.
  rewrite dir_find_bad; [done|done|done| | | |apply (short_dir w _ _ Hg Hp)].
  - unfold entry_line. destruct (print_ull_ok i Hu) as (_ & Hd & _).
    rewrite not_elem_of_app in Hn. destruct Hn as [Hn1 Hn2].
    rewrite !not_elem_of_app, !not_elem_of_cons. repeat split; try done; try apply not_elem_of_nil.
    apply digits_no; auto.
  - unfold entry_line. by destruct n1.
  - intros k. unfold ent_read, entry_line. rewrite <- app_assoc. cbn [app].
    rewrite find_colon_name by done. specialize (Hbad i). cbn [app] in Hbad.
    destruct (read_ull _) as [v ok]. cbn in Hbad. by subst ok.
Qed.

(** Create does not check whether the number random() gave it is in
    use: a file that has the number loses its contents, and the create
    succeeds. *)
Theorem create_truncates_reused (parent : Z) (name : bytes) (rs : list Z) (i j : Z) (b : bytes) (w : W)
    (slots : list slot) :
  good w -> parent ∉ held w -> is_u32 parent -> files w !! key parent = Some (enc slots) -> Forall slot_ok slots ->
  find_slot name slots = None -> Forall (fun r => 0 <= r < 2 ^ 31) rs -> new_inum rs parent true = Some i ->
  lenZ (enc (slots ++ [Some (name, i)])) <= max_size -> files w !! key i = Some b ->
  exists w', create parent name j rs w = Some (OK, i, w') /\ files w' !! key i = Some [].
Proof.
  intros Hg Hl Hup Hp Hs Hf Hr Hi Hb Hold.
  destruct (add_entry_dir parent name true rs i j w slots) as (w1 & E1 & Hg1 & Hh1 & Hf1); try done.
  destruct (new_inum_some rs parent true i Hr Hi) as (Hne & Hi1 & _ & _).
  exists w1. split; [done|]. rewrite Hf1, lookup_insert_ne, lookup_insert_eq; [done|].
  apply not_eq_sym, key_inj; [unfold is_u32; lia|done|done].
Qed.

End theorems.

(** ** Instances of the theorems *)

Module demo.
Import world.
#[local] Instance demo_strings : StringLimit := extent_server.demo_limit.

(** The root directory has files a and b, with a removed entry between
    them; a holds five bytes. *)
Definition ino_a : Z := 2147483650.
Definition ino_b : Z := 2147483651.
Definition slots : list slot := [Some (str "a", ino_a); None; Some (str "b", ino_b)].

Definition file (b : bytes) : extent_server.store :=
  extent_server.Store b (extent_protocol.Attr 1 1 1 (lenZ b)).

Definition w0 : world :=
  World (<[1 := file (enc slots)]> (<[key ino_a := file (str "hello")]> (<[key ino_b := file []]> ∅))) 7 ∅.

Lemma limit_ok : max_size < 2 ^ 31.
Proof. reflexivity. Qed.

Lemma w0_good : good w0.
Proof.
  split; [|reflexivity].
  repeat (apply extent_server.table_ok_insert; [|split; [vm_compute; discriminate|reflexivity]]).
  apply map_Forall_empty.
Qed.

Lemma slots_good : Forall slot_ok slots.
Proof.
  repeat constructor; try (apply (bool_decide_unpack _); vm_compute; exact I); done.
Qed.

Lemma w0_free (k : Z) : k ∉ held w0.
Proof. apply not_elem_of_empty. Qed.

Lemma rs_good : Forall (fun r => 0 <= r < 2 ^ 31) [9].
Proof. repeat constructor; done. Qed.

Lemma create_then_lookup_witness :
  exists w' w'', create 1 (str "c") 0 [9] w0 = Some (OK, 2147483657, w') /\
    lookup 1 (str "c") 0 w' = (OK, 2147483657, w'').
Proof.
  destruct (create_then_lookup limit_ok 1 (str "c") [9] 2147483657 0 0 w0 slots)
    as (w' & w'' & H1 & _ & _ & H2 & _); try reflexivity.
  - exact w0_good.
  - apply w0_free.
  - done.
  - exact slots_good.
  - split; apply (bool_decide_unpack _); vm_compute; exact I.
  - exact rs_good.
  - vm_compute; discriminate.
  - exists w', w''. split; [exact H1|exact H2].
Defined.

Lemma create_existing_witness :
  exists w1 w2, create 1 (str "b") 0 [] w0 = Some (EXIST, ino_b, w1) /\ same w0 w1 /\
    mkadir 1 (str "b") 0 [] w0 = Some (EXIST, ino_b, w2) /\ same w0 w2.
Proof.
  apply (create_existing limit_ok 1 (str "b") [] 2%nat ino_b 0 w0 slots); try reflexivity.
  - exact w0_good.
  - apply w0_free.
  - exact slots_good.
Defined.

Lemma remove_then_lookup_witness :
  exists w', remove 1 (str "a") w0 = Ret (OK, w') /\ files w' !! key ino_a = None /\
    (lookup 1 (str "a") 0 w').1.1 = NOENT /\ (lookup 1 (str "b") 0 w').1.1 = (lookup 1 (str "b") 0 w0).1.1.
Proof.
  destruct (remove_then_lookup limit_ok 1 (str "a") (str "b") 0%nat ino_a 0 (str "hello") w0 slots)
    as (w' & H1 & _ & H2 & H3 & H4 & _); try reflexivity; try apply w0_free; try done.
  - exact w0_good.
  - exact slots_good.
  - apply (bool_decide_unpack _); vm_compute; exact I.
  - exists w'. split; [exact H1|]. split; [exact H2|]. split; [exact H3|exact H4].
Defined.

Lemma write_then_read_witness :
  exists w' w'', write ino_a (str "XY") 7 0 w0 = (OK, 2, w') /\
    read ino_a 2 7 w' = (OK, str "XY", w'').
Proof.
  destruct (write_then_read limit_ok ino_a (str "XY") (str "hello") 7 0 w0)
    as (w' & w'' & H1 & _ & _ & H2 & _); try reflexivity; try apply w0_free; try done.
  - exact w0_good.
  - exists w', w''. split; [exact H1|exact H2].
Defined.

Lemma missing_parent_witness :
  exists w1 w2 w3, lookup 77 (str "x") 5 w0 = (NOENT, 5, w1) /\ same w0 w1 /\
    (forall isf, dir_add_entry 77 (str "x") 5 isf [9] w0 = Some (NOENT, 5, w2)) /\ same w0 w2 /\
    remove 77 (str "x") w0 = Ret (NOENT, w3) /\ same w0 w3.
Proof. apply (missing_parent 77 (str "x") [9] 5 w0); [exact w0_good|apply w0_free|reflexivity]. Defined.

(** notes:today hides c, created after it. *)
Definition hidden : bytes :=
  enc (slots ++ [Some (str "notes" ++ [colon] ++ str "today", 2147483657)]) ++ enc [Some (str "c", 2147483660)].

Lemma colon_hides_entries_witness :
  exists w1 w2, create 1 (str "notes:today") 0 [9] w0 = Some (OK, 2147483657, w1) /\
    files w2 !! key 1 = Some hidden /\ (lookup 1 (str "c") 0 w2).1.1 = NOENT.
Proof.
  set (w2 := World (<[1 := file hidden]> (table w0)) 9 ∅).
  assert (Hg2 : good w2).
  { split; [|reflexivity]. apply extent_server.table_ok_insert; [apply w0_good|].
    split; [vm_compute; discriminate|reflexivity]. }
  destruct (colon_hides_entries limit_ok 1 (str "notes") (str "today") (str "c")
    (enc [Some (str "c", 2147483660)]) [9] 2147483657 0 0 w0 w2 slots)
    as (w1 & H1 & _ & H2); try reflexivity; try apply w0_free; try done.
  - exact w0_good.
  - exact slots_good.
  - apply (bool_decide_unpack _); vm_compute; exact I.
  - apply (bool_decide_unpack _); vm_compute; exact I.
  - exists w1, w2. split; [exact H1|]. split; [reflexivity|exact H2].
Defined.

(** random() returns 2, the number of file a. *)
Lemma create_truncates_reused_witness :
  files w0 !! key ino_a = Some (str "hello") /\
  exists w', create 1 (str "c") 0 [2] w0 = Some (OK, ino_a, w') /\ files w' !! key ino_a = Some [].
Proof.
  split; [reflexivity|].
  apply (create_truncates_reused limit_ok 1 (str "c") [2] ino_a 0 (str "hello") w0 slots);
    try reflexivity; try apply w0_free; try done.
  - exact w0_good.
  - exact slots_good.
  - repeat constructor; done.
Defined.

End demo.

End yfs_client.
