(* ===== verification/Fuse.v ===== *)
(** * The FUSE front end (fuse.cc)

    Each fuseserver_* callback maps a request of the kernel to calls of
    yfs_client and sends replies; a handler returns the list of replies it
    sent, in order.  The FUSE library's directory entry encoding is a
    parameter. *)

From Stdlib Require Import ZArith Lia Strings.Byte.
From stdpp Require Import base list gmap sets.
From S2P Require Import Prelude Marshall Extent LockServer Directory YfsClient.

#[local] Open Scope Z_scope.
#[local] Set Warnings "-clear-no-such-hyp".

Module fuse.
Import yfs_client.

Definition ENOENT : Z := 2.
Definition EIO : Z := 5.
Definition EEXIST : Z := 17.
Definition ENOTDIR : Z := 20.
Definition EISDIR : Z := 21.
Definition ENOSYS : Z := 38.

Definition S_IFREG : Z := 0x8000.
Definition S_IFDIR : Z := 0x4000.

(** The fields of struct stat the program sets, after bzero. *)
Record stat := Stat {
  st_ino : Z; st_mode : Z; st_nlink : Z; st_size : Z; st_atime : Z; st_mtime : Z; st_ctime : Z
}.

(** fuse_entry_param: the attributes are uninitialised until getattr. *)
Record entry := Entry { e_ino : Z; e_attr : stat }.

Inductive reply :=
| reply_err (e : Z)
| reply_attr (st : stat)
| reply_entry (e : entry)
| reply_create (e : entry)
| reply_buf (b : list cell)
| reply_write (n : Z)
| reply_open
| reply_statfs (namemax bsize : Z).

Section handlers.
Context {W : Type} `{!StringLimit, !ExtentClient W, !LockClient W}.

(** fuse_add_dirent: the bytes of one directory entry, fuse_dirent_size of
    them. *)
Context (dirent_bytes : bytes -> Z -> bytes).

Definition getattr (inum : Z) (w : W) : Z * stat * W :=
  let st := Stat inum 0 0 0 0 0 0 in
  if isfile inum then
    let '(ret, info, w) := getfile inum (Fileinfo 0 0 0 0) w in
    if negb (ret =? OK) then (ret, st, w)
    else (OK, Stat inum (Z.lor S_IFREG 438) 1 (f_size info) (f_atime info) (f_mtime info) (f_ctime info), w)
  else
    let '(ret, info, w) := getdir inum (Dirinfo 0 0 0) w in
    if negb (ret =? OK) then (ret, st, w)
    else (OK, Stat inum (Z.lor S_IFDIR 511) 2 0 (d_atime info) (d_mtime info) (d_ctime info), w).

Definition fuseserver_getattr (ino : Z) (w : W) : list reply * W :=
  let '(ret, st, w) := getattr ino w in
  if negb (ret =? OK) then ([reply_err ENOENT], w) else ([reply_attr st], w).

(** [set_size]: FUSE_SET_ATTR_SIZE is in to_set.  The else belongs to the
    inner if. *)
Definition fuseserver_setattr (ino size : Z) (set_size : bool) (w : W) : res (list reply * W) :=
  if set_size then
    if isfile ino then
      '(r, w) ← resize ino (u32 size) w;
      if r =? OK then
        let '(ret, st, w) := getattr ino w in
        if ret =? OK then Ret ([reply_attr st], w) else Ret ([reply_err EIO], w)
      else Ret ([], w)
    else Ret ([reply_err EISDIR], w)
  else Ret ([reply_err ENOSYS], w).

(** The reply is [size] bytes of a new char[size], whatever was read. *)
Definition fuseserver_read (ino size off : Z) (w : W) : list reply * W :=
  if isfile ino then
    let '(ret, _, w) := getfile ino (Fileinfo 0 0 0 0) w in
    if ret =? OK then
      let '(r, b, w) := read ino size off w in
      if r =? OK
      then ([reply_buf (take (Z.to_nat size) ((Some <$> b) ++ replicate (Z.to_nat size) None))], w)
      else ([reply_err EIO], w)
    else ([reply_err EIO], w)
  else ([reply_err EISDIR], w).

(** [written] is uninitialised before the call. *)
Definition fuseserver_write (ino : Z) (buf : bytes) (off : Z) (w : W) : list reply * W :=
  if isfile ino then
    let '(r, written, w) := write ino buf off 0 w in
    if r =? OK then ([reply_write written], w) else ([reply_err EIO], w)
  else ([reply_err EISDIR], w).

Definition fuseserver_createhelper (parent : Z) (name : bytes) (rs : list Z) (w : W) : option (Z * entry * W) :=
  '(r, new_inum, w) ← create parent name 0 rs w;
  if (r =? OK) || (r =? EXIST) then
    let ino := u32 new_inum in
    let '(r, st, w) := getattr ino w in
    Some (r, Entry ino st, w)
  else Some (r, Entry 0 (Stat 0 0 0 0 0 0 0), w).

Definition fuseserver_create (parent : Z) (name : bytes) (rs : list Z) (w : W) : option (list reply * W) :=
  '(ret, e, w) ← fuseserver_createhelper parent name rs w;
  if ret =? OK then Some ([reply_create e], w)
  else if ret =? EXIST then Some ([reply_err EEXIST], w) else Some ([reply_err ENOENT], w).

Definition fuseserver_mknod (parent : Z) (name : bytes) (rs : list Z) (w : W) : option (list reply * W) :=
  '(ret, e, w) ← fuseserver_createhelper parent name rs w;
  if ret =? OK then Some ([reply_entry e], w)
  else if ret =? EXIST then Some ([reply_err EEXIST], w) else Some ([reply_err ENOENT], w).

Definition fuseserver_lookup (parent : Z) (name : bytes) (w : W) : list reply * W :=
  let '(ret, findinum, w) := lookup parent name 0 w in
  if ret =? OK then
    let ino := u32 findinum in
    let '(r, st, w) := getattr ino w in
    if r =? OK then ([reply_entry (Entry ino st)], w) else ([reply_err ENOENT], w)
  else ([reply_err ENOENT], w).

(** [name.c_str()] ends at the first NUL. *)
Fixpoint c_str (s : bytes) : bytes :=
  match s with [] => [] | c :: s => if byte_Z c =? 0 then [] else c :: c_str s end.

Definition dirbuf_add (b name : bytes) (ino : Z) : bytes := b ++ dirent_bytes (c_str name) ino.

Definition reply_buf_limited (buf : bytes) (off maxsize : Z) : reply :=
  if off <? lenZ buf
  then reply_buf (Some <$> take (Z.to_nat (Z.min (lenZ buf - off) maxsize)) (drop (Z.to_nat off) buf))
  else reply_buf [].

Definition fuseserver_readdir (ino size off : Z) (w : W) : list reply * W :=
  if negb (isdir ino) then ([reply_err ENOTDIR], w)
  else
    let '(r, dirents, w) := readir ino w in
    let b := if r =? OK then fold_left (fun b d => dirbuf_add b (yfs_client.name d) (u32 (inum d))) dirents []
             else [] in
    ([reply_buf_limited b off size], w).

Definition fuseserver_open (ino : Z) (w : W) : list reply * W := ([reply_open], w).

(** The result of getattr is not looked at. *)
Definition fuseserver_mkdir (parent : Z) (name : bytes) (rs : list Z) (w : W) : option (list reply * W) :=
  '(r, new_inum, w) ← mkadir parent name 0 rs w;
  if r =? OK then
    let ino := u32 new_inum in
    let '(_, st, w) := getattr ino w in
    Some ([reply_entry (Entry ino st)], w)
  else if r =? EXIST then Some ([reply_err EEXIST], w)
  else if r =? NOENT then Some ([reply_err ENOENT], w)
  else Some ([reply_err EIO], w).

Definition fuseserver_unlink (parent : Z) (name : bytes) (w : W) : res (list reply * W) :=
  '(r, w) ← remove parent name w;
  if r =? OK then Ret ([reply_err 0], w) else Ret ([reply_err ENOENT], w).

Definition fuseserver_statfs (w : W) : list reply * W := ([reply_statfs 255 512], w).

(** ** Properties that hold for every backend *)

Lemma getattr_status inum w : (getattr inum w).1.1 = OK \/ (getattr inum w).1.1 = IOERR.
Proof.
  unfold getattr, getfile, getdir.
  destruct (isfile inum); destruct (lc_acquire inum w) as [l w1]; destruct (l =? lock_protocol.OK);
    try (right; reflexivity); destruct (ec_getattr inum w1) as [[e a] w2];
    destruct (negb (e =? extent_protocol.OK)); destruct (lc_release inum w2) as [r w3]; cbn; auto.
Qed.

(** C39: every request to one of the twelve handlers registered with FUSE
    gets exactly one reply when the handler returns, whatever the services
    answer, except setattr: it replies exactly when the request does not set
    the size, the number is a directory's, or the resize succeeded. *)
Theorem one_reply (ino parent size off : Z) (name buf : bytes) (rs : list Z) (b : bool) (w : W) :
  length (fuseserver_getattr ino w).1 = 1%nat /\ length (fuseserver_read ino size off w).1 = 1%nat /\
  length (fuseserver_write ino buf off w).1 = 1%nat /\ length (fuseserver_lookup parent name w).1 = 1%nat /\
  length (fuseserver_readdir ino size off w).1 = 1%nat /\
  length (fuseserver_open ino w).1 = 1%nat /\ length (fuseserver_statfs w).1 = 1%nat /\
  (forall x, fuseserver_create parent name rs w = Some x -> length x.1 = 1%nat) /\
  (forall x, fuseserver_mknod parent name rs w = Some x -> length x.1 = 1%nat) /\
  (forall x, fuseserver_mkdir parent name rs w = Some x -> length x.1 = 1%nat) /\
  (forall x, fuseserver_unlink parent name w = Ret x -> length x.1 = 1%nat) /\
  (forall x, fuseserver_setattr ino size b w = Ret x ->
     length x.1 = (if b && isfile ino then
       match resize ino (u32 size) w with Ret (r, _) => if (r =? OK)%Z then 1 else 0 | Crash _ => 0 end else 1)%nat).
Proof.
  repeat split.
  - unfold fuseserver_getattr. destruct (getattr ino w) as [[r st] w1]. by destruct (negb _).
  - unfold fuseserver_read. destruct (isfile ino); [|done]. destruct (getfile _ _ _) as [[r i] w1].
    destruct (r =? OK); [|done]. destruct (read _ _ _ _) as [[r2 b2] w2]. by destruct (r2 =? OK).
  - unfold fuseserver_write. destruct (isfile ino); [|done]. destruct (write _ _ _ _ _) as [[r i] w1].
    by destruct (r =? OK).
  - unfold fuseserver_lookup. destruct (lookup _ _ _ _) as [[r i] w1]. destruct (r =? OK); [|done].
    destruct (getattr _ _) as [[r2 st] w2]. by destruct (r2 =? OK).
  - unfold fuseserver_readdir. destruct (negb _); [done|]. by destruct (readir _ _) as [[r d] w1].
  - unfold fuseserver_create. intros x. destruct (fuseserver_createhelper _ _ _ _) as [[[r e] w1]|]; [|done].
    cbn. destruct (r =? OK); [|destruct (r =? EXIST)]; by intros [= <-].
  - unfold fuseserver_mknod. intros x. destruct (fuseserver_createhelper _ _ _ _) as [[[r e] w1]|]; [|done].
    cbn. destruct (r =? OK); [|destruct (r =? EXIST)]; by intros [= <-].
  - unfold fuseserver_mkdir. intros x. destruct (mkadir _ _ _ _ _) as [[[r i] w1]|]; [|done].
    cbn. destruct (getattr _ _) as [[r2 st] w2].
    destruct (r =? OK); [|destruct (r =? EXIST); [|destruct (r =? NOENT)]]; by intros [= <-].
  - unfold fuseserver_unlink. intros x. destruct (remove _ _ _) as [[r w1]|]; [|done].
    cbn. destruct (r =? OK); by intros [= <-].
  - unfold fuseserver_setattr. intros x. destruct b; [|by intros [= <-]]. destruct (isfile ino); [|by intros [= <-]].
    cbn [andb]. destruct (resize _ _ _) as [[r w1]|]; [|done]. cbn [mbind res_bind].
    destruct (r =? OK); [|by intros [= <-]]. destruct (getattr _ _) as [[r2 st] w2].
    destruct (r2 =? OK); by intros [= <-].
Qed.

(** Create and mknod never answer EEXIST: the helper replaces the
    status EXIST by the one of getattr. *)
Theorem create_never_eexist (parent : Z) (name : bytes) (rs : list Z) (w : W) :
  (forall r e w', fuseserver_createhelper parent name rs w = Some (r, e, w') -> r <> EXIST) /\
  (forall rep w', fuseserver_create parent name rs w = Some (rep, w') \/
     fuseserver_mknod parent name rs w = Some (rep, w') -> reply_err EEXIST ∉ rep).
Proof.
  assert (Hh : forall r e w', fuseserver_createhelper parent name rs w = Some (r, e, w') -> r <> EXIST).
  { unfold fuseserver_createhelper. intros r e w'. destruct (create _ _ _ _ _) as [[[r1 i] w1]|]; [|done].
    cbn [mbind option_bind]. destruct (Z.eqb_spec r1 OK) as [|H1]; destruct (Z.eqb_spec r1 EXIST) as [|H2]; cbn [orb];
      try (pose proof (getattr_status (u32 i) w1) as Hs; destruct (getattr (u32 i) w1) as [[r2 st] w2]; cbn in Hs;
           intros [= <- <- <-]; destruct Hs as [-> | ->]; done). }
  split; [exact Hh|]. unfold fuseserver_create, fuseserver_mknod. intros rep w'.
  destruct (fuseserver_createhelper parent name rs w) as [[[r e] w1]|]; [|by intros [?|?]].
  cbn [mbind option_bind]. specialize (Hh _ _ _ eq_refl).
  destruct (Z.eqb_spec r EXIST); [done|].
  destruct (r =? OK); intros [[= <- <-]|[= <- <-]] Hin; apply list_elem_of_singleton in Hin; done.
Qed.

End handlers.

(** ** Properties against the services' promises *)

Section theorems.
Context {W : Type} `{!StringLimit, !ExtentClient W, !LockClient W, !Backend W}.
Context (Hmax : max_size < 2 ^ 31).

Lemma getfile_some inum fin w b : good w -> inum ∉ held w -> files w !! key inum = Some b ->
  exists fi w', getfile inum fin w = (OK, fi, w') /\ f_size fi = lenZ b /\ same w w'.
Proof.
  intros Hg Hl Hb. unfold getfile.
  destruct (acquire_ok w inum Hg Hl) as (w1 & -> & Hg1 & Hf1 & Hh1). cbn [Z.eqb lock_protocol.OK].
  destruct (getattr_law w1 inum Hg1) as (s & a & w2 & -> & Hg2 & Hh2 & Hs). cbn in Hs.
  rewrite Hf1, Hb in Hs. injection Hs as <- Hsz Hf2. cbn [Z.eqb extent_protocol.OK negb].
  destruct (release_ok w2 inum (held w) Hg2) as (r & w3 & -> & Hg3 & Hf3 & Hh3); [congruence|done|].
  eexists _, w3. split; [done|]. split; [done|]. split; [done|]. split; congruence.
Qed.

Lemma getfile_none inum fin w : good w -> inum ∉ held w -> files w !! key inum = None ->
  exists w', getfile inum fin w = (IOERR, fin, w') /\ same w w'.
Proof.
  intros Hg Hl Hb. unfold getfile.
  destruct (acquire_ok w inum Hg Hl) as (w1 & -> & Hg1 & Hf1 & Hh1). cbn [Z.eqb lock_protocol.OK].
  destruct (getattr_law w1 inum Hg1) as (s & a & w2 & -> & Hg2 & Hh2 & Hs). cbn in Hs.
  rewrite Hf1, Hb in Hs. injection Hs as <- Hsz Hf2. cbn [Z.eqb extent_protocol.NOENT extent_protocol.OK negb].
  destruct (release_ok w2 inum (held w) Hg2) as (r & w3 & -> & Hg3 & Hf3 & Hh3); [congruence|done|].
  eexists w3. split; [done|]. split; [done|]. split; congruence.
Qed.

Lemma getattr_file inum w b : isfile inum = true -> good w -> inum ∉ held w -> files w !! key inum = Some b ->
  exists st w', getattr inum w = (OK, st, w') /\ st_ino st = inum /\ st_size st = lenZ b /\ same w w'.
Proof.
  intros Hi Hg Hl Hb. unfold getattr. rewrite Hi.
  destruct (getfile_some inum (Fileinfo 0 0 0 0) w b Hg Hl Hb) as (fi & w1 & -> & Hs & Hw).
  cbn [Z.eqb OK negb]. eexists _, w1. done.
Qed.

(** yfs_client::resize through get and put. *)
Lemma resize_file inum n w b : good w -> inum ∉ held w -> files w !! key inum = Some b -> 0 <= n <= max_size ->
  exists w', resize inum n w = Ret (OK, w') /\ good w' /\ held w' = held w /\
    files w' = <[key inum := take (Z.to_nat n) b ++ replicate (Z.to_nat n - length b) "000"%byte]> (files w).
Proof.
  intros Hg Hl Hb Hn. unfold resize.
  destruct (acquire_ok w inum Hg Hl) as (w1 & -> & Hg1 & Hf1 & Hh1). cbn [Z.eqb lock_protocol.OK].
  destruct (get_some w1 inum b Hg1) as (w2 & -> & Hg2 & Hf2 & Hh2); [by rewrite Hf1|].
  cbn [Z.eqb extent_protocol.OK].
  assert (Er : string_resize n b = Ret (take (Z.to_nat n) b ++ replicate (Z.to_nat n - length b) "000"%byte))
    by (unfold string_resize; bcase; done).
  pose proof (string_resize_length n b _ ltac:(lia) Er) as Hlen. rewrite Er. cbn [mbind res_bind].
  destruct (put_ok w2 inum (take (Z.to_nat n) b ++ replicate (Z.to_nat n - length b) "000"%byte) Hg2)
    as (w3 & -> & Hg3 & Hf3 & Hh3); [lia|]. cbn [mbind res_bind].
  destruct (release_ok w3 inum (held w) Hg3) as (r & w4 & -> & Hg4 & Hf4 & Hh4); [congruence|done|].
  exists w4. split; [done|]. split; [done|]. split; [done|]. by rewrite Hf4, Hf3, Hf2, Hf1.
Qed.

(** A truncate or extension of a file works: setattr with a size
    stores the file cut or zero padded to that size and replies with
    attributes that report it, with no lock left. *)
Theorem setattr_resizes (ino size : Z) (w : W) (b : bytes) :
  isfile ino = true -> good w -> ino ∉ held w -> files w !! key ino = Some b -> 0 <= size <= max_size ->
  exists st w', fuseserver_setattr ino size true w = Ret ([reply_attr st], w') /\
    st_ino st = ino /\ st_size st = size /\ held w' = held w /\
    files w' = <[key ino := take (Z.to_nat size) b ++ replicate (Z.to_nat size - length b) "000"%byte]> (files w).
Proof.
  intros Hi Hg Hl Hb Hs. unfold fuseserver_setattr. rewrite Hi, u32_small by (unfold is_u32; lia).
  destruct (resize_file ino size w b Hg Hl Hb Hs) as (w1 & -> & Hg1 & Hh1 & Hf1).
  cbn [mbind res_bind Z.eqb OK].
  destruct (getattr_file ino w1 (take (Z.to_nat size) b ++ replicate (Z.to_nat size - length b) "000"%byte) Hi Hg1)
    as (st & w2 & -> & Hino & Hsz & _ & Hf2 & Hh2); [by rewrite Hh1|by rewrite Hf1, lookup_insert_eq|].
  cbn [Z.eqb OK]. exists st, w2. split; [done|]. split; [done|]. split.
  - rewrite Hsz, length_app, length_take, length_replicate. lia.
  - split; congruence.
Qed.

(** Setattr of a file that does not exist is never answered: the
    resize fails and the else that would reply belongs to the inner if. *)
Theorem setattr_no_reply (ino size : Z) (w : W) :
  isfile ino = true -> good w -> ino ∉ held w -> files w !! key ino = None ->
  exists w', fuseserver_setattr ino size true w = Ret ([], w') /\ same w w'.
Proof.
  intros Hi Hg Hl Hb. unfold fuseserver_setattr, resize. rewrite Hi.
  destruct (acquire_ok w ino Hg Hl) as (w1 & -> & Hg1 & Hf1 & Hh1). cbn [Z.eqb lock_protocol.OK].
  destruct (get_none w1 ino Hg1) as (b & w2 & -> & Hg2 & Hf2 & Hh2); [by rewrite Hf1|].
  cbn [Z.eqb extent_protocol.NOENT extent_protocol.OK mbind res_bind].
  destruct (release_ok w2 ino (held w) Hg2) as (r & w3 & -> & Hg3 & Hf3 & Hh3); [congruence|done|].
  exists w3. split; [done|]. split; [done|]. split; congruence.
Qed.

(** A read inside a file is answered with exactly as many bytes as
    were asked for: the file's bytes from the offset, and beyond its end
    bytes the server never wrote; a read at or behind the end of the file
    is an I/O error. *)
Theorem read_reply (ino size off : Z) (w : W) (b : bytes) :
  isfile ino = true -> good w -> ino ∉ held w -> files w !! key ino = Some b -> is_u32 size -> is_u32 off ->
  exists w', (if off <? lenZ b then
      exists cells, fuseserver_read ino size off w = ([reply_buf cells], w') /\ lenZ cells = size /\
        (forall k, (k < Z.to_nat size)%nat ->
           cells !! k = Some (b !! (Z.to_nat off + k)%nat))
    else fuseserver_read ino size off w = ([reply_err EIO], w')) /\ same w w'.
Proof.
  intros Hi Hg Hl Hb Hn Ho. unfold fuseserver_read. rewrite Hi.
  destruct (getfile_some ino (Fileinfo 0 0 0 0) w b Hg Hl Hb) as (fi & w1 & -> & _ & Hg1 & Hf1 & Hh1).
  cbn [Z.eqb OK]. unfold read. rewrite (u32_small off) by done.
  destruct (getbuf_law w1 ino size off Hg1 Hn Ho) as (s & d & w2 & -> & Hg2 & Hh2 & Hs). cbn in Hs.
  rewrite Hf1, Hb in Hs. unfold is_u32 in *.
  assert (Hsame : same w w2 <-> files w2 = files w) by (unfold same; split; [tauto|intros; split; [done|split; congruence]]).
  destruct (Z.ltb_spec off (lenZ b)) as [Hlt|Hge]; injection Hs as <- <- Hf2;
    cbn [Z.eqb extent_protocol.OK extent_protocol.IOERR OK]; exists w2; (split; [|by apply Hsame]); [|done].
  eexists. split; [done|]. set (d := extent_server.read_at b (Z.to_nat off) (Z.to_nat size)).
  assert (Hd : (length d <= Z.to_nat size)%nat) by (unfold d, extent_server.read_at; rewrite length_take; lia).
  split; [rewrite length_take, length_app, length_fmap, length_replicate; lia|].
  intros k Hk. rewrite lookup_take_lt by lia. destruct (decide (k < length d)%nat) as [Hkd|Hkd].
  - rewrite lookup_app_l by (rewrite length_fmap; lia). rewrite list_lookup_fmap.
    assert (Ed : d !! k = b !! (Z.to_nat off + k)%nat)
      by (unfold d, extent_server.read_at; rewrite lookup_take_lt by lia; apply lookup_drop).
    rewrite <- Ed. destruct (lookup_lt_is_Some_2 d k Hkd) as [c Hc]. by rewrite Hc.
  - rewrite lookup_app_r by (rewrite length_fmap; lia). rewrite length_fmap, lookup_replicate_2 by lia.
    f_equal. symmetry. apply lookup_ge_None_2.
    unfold d, extent_server.read_at in Hkd. rewrite length_take, length_drop in Hkd. lia.
Qed.

(** Creating a file under a name that exists is answered as a success
    with the existing file's number and size. *)
Theorem create_existing_replies (parent : Z) (name : bytes) (rs : list Z) (k : nat) (i : Z) (b : bytes) (w : W)
    (slots : list slot) :
  good w -> parent ∉ held w -> i ∉ held w -> is_u32 i -> isfile i = true ->
  files w !! key parent = Some (enc slots) -> Forall slot_ok slots ->
  find_slot name slots = Some (k, i) -> files w !! key i = Some b ->
  exists e w', fuseserver_create parent name rs w = Some ([reply_create e], w') /\
    e_ino e = i /\ st_size (e_attr e) = lenZ b /\ same w w'.
Proof.
  intros Hg Hl Hli Hu Hi Hp Hs Hf Hb. unfold fuseserver_create, fuseserver_createhelper, create.
  destruct (add_entry_exists Hmax parent name true rs i k 0 w slots) as (w1 & -> & Hg1 & Hf1 & Hh1); try done.
  cbn [mbind option_bind Z.eqb OK EXIST orb]. rewrite u32_small by done.
  destruct (getattr_file i w1 b Hi Hg1) as (st & w2 & -> & Hino & Hsz & Hg2 & Hf2 & Hh2);
    [by rewrite Hh1|by rewrite Hf1|].
  cbn [mbind option_bind Z.eqb OK]. eexists _, w2. split; [done|]. split; [done|]. split; [done|].
  split; [done|]. split; congruence.
Qed.

End theorems.

(** ** Instances of the theorems *)

Module demo.
Import world yfs_client.demo.
#[local] Existing Instance demo_strings.

Lemma setattr_resizes_witness :
  exists st w', fuseserver_setattr ino_a 7 true w0 = Ret ([reply_attr st], w') /\ st_size st = 7 /\
    files w' !! key ino_a = Some (str "hello" ++ ["000"%byte; "000"%byte]).
Proof.
  destruct (setattr_resizes limit_ok ino_a 7 w0 (str "hello")) as (st & w' & H1 & _ & H2 & _ & H3);
    try reflexivity; try apply w0_free.
  - exact w0_good.
  - split; [done|vm_compute; discriminate].
  - exists st, w'. split; [exact H1|]. split; [exact H2|]. rewrite H3. reflexivity.
Defined.

Lemma setattr_no_reply_witness :
  exists w', fuseserver_setattr 2147483999 7 true w0 = Ret ([], w') /\ same w0 w'.
Proof. apply (setattr_no_reply 2147483999 7 w0); try reflexivity; [exact w0_good|apply w0_free]. Defined.

Lemma read_reply_witness :
  exists w' cells, fuseserver_read ino_a 8 3 w0 = ([reply_buf cells], w') /\ lenZ cells = 8 /\
    cells !! 1%nat = Some (Some "o"%byte) /\ cells !! 2%nat = Some None.
Proof.
  destruct (read_reply ino_a 8 3 w0 (str "hello")) as (w' & (cells & H1 & H2 & H3) & _);
    try reflexivity; try apply w0_free; try (unfold is_u32; lia).
  - exact w0_good.
  - exists w', cells. split; [exact H1|]. split; [exact H2|]. split; rewrite H3; try reflexivity; lia.
Defined.

Lemma create_existing_replies_witness :
  exists e w', fuseserver_create 1 (str "a") [] w0 = Some ([reply_create e], w') /\
    e_ino e = ino_a /\ st_size (e_attr e) = 5 /\ same w0 w'.
Proof.
  apply (create_existing_replies limit_ok 1 (str "a") [] 0%nat ino_a (str "hello") w0 slots);
    try reflexivity; try apply w0_free.
  - exact w0_good.
  - done.
  - exact slots_good.
Defined.

End demo.
End fuse.
