(* ===== verification/FileSystem.v ===== *)
(** * What yfs_client implements: an abstract file system

    The operations of [YfsClient] over the bytes the extent server stores
    refine operations on a tree of numbered nodes: a file is its bytes, a
    directory the list of its names and numbers.  The directory text, the
    blank lines that removals leave behind and the locks do not show. *)

From Stdlib Require Import ZArith Lia Strings.Byte.
From stdpp Require Import base list gmap sets.
From S2P Require Import Prelude Marshall Extent LockServer Directory YfsClient Fuse.

#[local] Open Scope Z_scope.
#[local] Set Warnings "-clear-no-such-hyp".

Module file_system.
Import yfs_client.

(** ** The abstract file system *)

Inductive node := File (b : bytes) | Dir (es : list (bytes * Z)).

Abbreviation tree := (gmap Z node).

Inductive op :=
| Create (parent : Z) (name : bytes) (rs : list Z)
| Mkdir (parent : Z) (name : bytes) (rs : list Z)
| Remove (parent : Z) (name : bytes)
| Lookup (parent : Z) (name : bytes)
| Readdir (dir : Z)
| Read (target size off : Z)
| Write (target : Z) (buf : bytes) (off : Z)
| Resize (target new_size : Z)
| Getfile (i : Z)
| Getdir (i : Z).

Inductive answer := Nothing | Inum (i : Z) | Entries (es : list (bytes * Z)) | Data (b : bytes) | Size (n : Z).

Fixpoint find_entry (name : bytes) (es : list (bytes * Z)) : option Z :=
  match es with
  | [] => None
  | (n, i) :: es => if decide (n = name) then Some i else find_entry name es
  end.

Definition drop_entry (name : bytes) (es : list (bytes * Z)) : list (bytes * Z) :=
  filter (fun e => e.1 <> name) es.

Definition add_entry (parent : Z) (name : bytes) (rs : list Z) (isf : bool) (fs : tree) : Z * answer * tree :=
  match fs !! parent with
  | Some (Dir es) =>
      match find_entry name es with
      | Some i => (EXIST, Inum i, fs)
      | None =>
          let i := default 0 (new_inum rs parent isf) in
          (OK, Inum i, <[parent := Dir (es ++ [(name, i)])]> (<[i := if isf then File [] else Dir []]> fs))
      end
  | _ => (NOENT, Nothing, fs)
  end.

(** What each operation answers and does. *)
Definition spec (o : op) (fs : tree) : Z * answer * tree :=
  match o with
  | Create p n rs => add_entry p n rs true fs
  | Mkdir p n rs => add_entry p n rs false fs
  | Remove p n =>
      match fs !! p with
      | Some (Dir es) =>
          match find_entry n es with
          | Some i => (OK, Nothing, <[p := Dir (drop_entry n es)]> (delete i fs))
          | None => (IOERR, Nothing, fs)
          end
      | _ => (NOENT, Nothing, fs)
      end
  | Lookup p n =>
      match fs !! p with
      | Some (Dir es) =>
          match find_entry n es with Some i => (OK, Inum i, fs) | None => (NOENT, Nothing, fs) end
      | _ => (NOENT, Nothing, fs)
      end
  | Readdir d =>
      match fs !! d with Some (Dir es) => (OK, Entries es, fs) | _ => (NOENT, Nothing, fs) end
  | Read t n off =>
      match fs !! t with
      | Some (File b) =>
          if off <? lenZ b then (OK, Data (extent_server.read_at b (Z.to_nat off) (Z.to_nat n)), fs)
          else (IOERR, Nothing, fs)
      | _ => (NOENT, Nothing, fs)
      end
  | Write t b off =>
      match fs !! t with
      | Some (File s) => (OK, Size (lenZ b), <[t := File (extent_server.write_at s (Z.to_nat off) b)]> fs)
      | _ => (NOENT, Nothing, fs)
      end
  | Resize t n =>
      match fs !! t with
      | Some (File s) =>
          (OK, Nothing, <[t := File (take (Z.to_nat n) s ++ replicate (Z.to_nat n - length s) "000"%byte)]> fs)
      | _ => (NOENT, Nothing, fs)
      end
  | Getfile i => match fs !! i with Some (File b) => (OK, Size (lenZ b), fs) | _ => (IOERR, Nothing, fs) end
  | Getdir i => match fs !! i with Some (Dir _) => (OK, Nothing, fs) | _ => (IOERR, Nothing, fs) end
  end.

(** A well formed tree: the root is a directory, numbers have 32 bits and
    tell files from directories, the names in a directory are distinct and
    can be written down, every entry leads to a node of its own, and
    entries lead down: each to a node of a higher rank. *)
Record tree_ok (fs : tree) : Prop := TreeOk {
  tr_root : exists es, fs !! 1 = Some (Dir es);
  tr_range : forall i x, fs !! i = Some x -> is_u32 i;
  tr_kind : forall i x, fs !! i = Some x -> isfile i = match x with File _ => true | Dir _ => false end;
  tr_names : forall d es, fs !! d = Some (Dir es) -> NoDup es.*1 /\ Forall (fun e => name_ok e.1) es;
  tr_entry : forall d es n i, fs !! d = Some (Dir es) -> (n, i) ∈ es -> is_Some (fs !! i) /\ i <> 1 /\ i <> d;
  tr_unique : forall d es n d' es' n' i, fs !! d = Some (Dir es) -> fs !! d' = Some (Dir es') ->
    (n, i) ∈ es -> (n', i) ∈ es' -> d = d' /\ n = n';
  tr_rank : exists rank : Z -> nat, forall d es n i, fs !! d = Some (Dir es) -> (n, i) ∈ es -> (rank d < rank i)%nat
}.

(** ** The operations of yfs_client as one function *)

Section perform.
Context {W : Type} `{!StringLimit, !ExtentClient W, !LockClient W}.

Definition with_inum (x : Z * Z * W) : Z * answer * W :=
  let '(r, i, w) := x in (r, if (r =? OK) || (r =? EXIST) then Inum i else Nothing, w).

(** [None]: random() yielded no usable number, or an uncaught exception. *)
Definition perform (o : op) (w : W) : option (Z * answer * W) :=
  match o with
  | Create p n rs => with_inum <$> create p n 0 rs w
  | Mkdir p n rs => with_inum <$> mkadir p n 0 rs w
  | Remove p n => match remove p n w with Ret (r, w) => Some (r, Nothing, w) | Crash _ => None end
  | Lookup p n => Some (with_inum (lookup p n 0 w))
  | Readdir d =>
      let '(r, l, w) := readir d w in
      Some (r, if r =? OK then Entries ((fun e => (name e, inum e)) <$> l) else Nothing, w)
  | Read t n off => let '(r, b, w) := read t n off w in Some (r, if r =? OK then Data b else Nothing, w)
  | Write t b off => let '(r, n, w) := write t b off 0 w in Some (r, if r =? OK then Size n else Nothing, w)
  | Resize t n => match resize t n w with Ret (r, w) => Some (r, Nothing, w) | Crash _ => None end
  | Getfile i =>
      let '(r, fi, w) := getfile i (Fileinfo 0 0 0 0) w in
      Some (r, if r =? OK then Size (f_size fi) else Nothing, w)
  | Getdir i => let '(r, _, w) := getdir i (Dirinfo 0 0 0) w in Some (r, Nothing, w)
  end.

(** Bytes an operation may add to a directory. *)
Definition cost (o : op) : Z :=
  match o with Create _ n _ | Mkdir _ n _ => lenZ n + 22 | _ => 0 end.

(** An operation that can be asked for: the number says the right kind, a
    new name can be written down, random() yields a number not in use, the
    sizes are within what a string can hold. *)
Definition op_ok (fs : tree) (o : op) : Prop :=
  match o with
  | Create p n rs | Mkdir p n rs =>
      is_u32 p /\ isfile p = false /\ name_ok n /\ Forall (fun r => 0 <= r < 2 ^ 31) rs /\
      exists i, new_inum rs p (match o with Create _ _ _ => true | _ => false end) = Some i /\ fs !! i = None
  | Remove p n | Lookup p n => is_u32 p /\ isfile p = false
  | Readdir d | Getdir d => is_u32 d /\ isfile d = false
  | Read t n off => is_u32 t /\ isfile t = true /\ is_u32 n /\ is_u32 off
  | Write t b off => is_u32 t /\ isfile t = true /\ 0 <= off /\ off + lenZ b <= max_size
  | Resize t n => is_u32 t /\ isfile t = true /\ 0 <= n <= max_size
  | Getfile i => is_u32 i /\ isfile i = true
  end.

End perform.

(** ** Directories *)

Definition live (slots : list slot) : list (bytes * Z) := omap id slots.

Lemma names_live slots : names slots = (live slots).*1.
Proof. induction slots as [|[[n i]|] slots IH]; cbn; [done|by f_equal|done]. Qed.

Lemma find_slot_live name slots :
  match find_slot name slots with
  | Some (k, i) => find_entry name (live slots) = Some i
  | None => find_entry name (live slots) = None
  end.
Proof.
  induction slots as [|[[n i]|] slots IH]; cbn; [done| |].
  - destruct (decide (n = name)); [done|]. by destruct (find_slot name slots) as [[k j]|].
  - by destruct (find_slot name slots) as [[k j]|].
Qed.

Lemma find_entry_elem name es i : find_entry name es = Some i -> (name, i) ∈ es.
Proof.
  induction es as [|[n j] es IH]; cbn; [done|]. destruct (decide (n = name)) as [->|].
  - intros [= ->]. by left.
  - intros H. right. auto.
Qed.

Lemma find_entry_none name es : find_entry name es = None -> name ∉ es.*1.
Proof.
  induction es as [|[n j] es IH]; cbn; [intros _; apply not_elem_of_nil|].
  destruct (decide (n = name)); [done|]. intros H. rewrite not_elem_of_cons. auto.
Qed.

Lemma find_entry_nodup name es i : NoDup es.*1 -> (name, i) ∈ es -> find_entry name es = Some i.
Proof.
  induction es as [|[n j] es IH]; [intros _ H; by apply not_elem_of_nil in H|].
  rewrite fmap_cons, NoDup_cons. intros [Hn Hd] [[= -> ->]|Hin]%elem_of_cons; cbn [find_entry].
  - by rewrite decide_True.
  - rewrite decide_False; [auto|]. intros ->. apply Hn. apply list_elem_of_fmap. by exists (name, i).
Qed.

Lemma drop_entry_none name es : name ∉ es.*1 -> drop_entry name es = es.
Proof.
  unfold drop_entry. induction es as [|[n j] es IH]; [done|]. rewrite fmap_cons, not_elem_of_cons. intros [H1 H2].
  rewrite filter_cons_True by (cbn in *; congruence). by rewrite IH.
Qed.

Lemma live_erase name slots k i :
  find_slot name slots = Some (k, i) -> NoDup (names slots) ->
  live (<[k := None]> slots) = drop_entry name (live slots).
Proof.
  revert k. induction slots as [|[[n j]|] slots IH]; intros k; cbn [find_slot names omap list_omap]; [done| |].
  - cbn [fmap option_fmap option_map fst]. rewrite NoDup_cons. destruct (decide (n = name)) as [->|Hne].
    + intros [= <- <-] [Hn Hd]. change (live slots = drop_entry name ((name, j) :: live slots)).
      unfold drop_entry. rewrite filter_cons_False by (cbn; tauto).
      symmetry. apply drop_entry_none. by rewrite <- names_live.
    + destruct (find_slot name slots) as [[k' i']|]; [|done]. intros [= <- <-] [_ Hd].
      change ((n, j) :: live (<[k' := None]> slots) = drop_entry name ((n, j) :: live slots)).
      unfold drop_entry. rewrite filter_cons_True by done. f_equal. by apply IH.
  - destruct (find_slot name slots) as [[k' i']|]; [|done]. intros [= <- <-] Hd. cbn. by apply IH.
Qed.

Lemma live_app s1 s2 : live (s1 ++ s2) = live s1 ++ live s2.
Proof. apply omap_app. Qed.

(** readir lists the slots that are in use. *)
Lemma readir_lines_enc slots prev :
  Forall slot_ok slots ->
  (fun e => (name e, inum e)) <$> readir_lines (slot_lines slots) prev = live slots.
Proof.
  intros Hs. revert prev. induction Hs as [|s slots Hs Hss IH]; intros prev; [done|].
  cbn [slot_lines fmap list_fmap readir_lines]. fold (slot_lines slots). destruct s as [[n i]|]; cbn [slot_line].
  - pose proof (entry_line_length n i). destruct (Z.eqb_spec (lenZ (entry_line n i)) 0); [lia|].
    destruct Hs as [Hn Hi]. rewrite ent_read_entry by done. cbn. f_equal. apply IH.
  - cbn. apply IH.
Qed.

Lemma dec_digits_length fuel n : (length (dec_digits fuel n) <= fuel)%nat.
Proof.
  revert n. induction fuel as [|fuel IH]; intros n; cbn; [lia|].
  destruct (n <? 10); [cbn; lia|]. rewrite length_app. specialize (IH (n / 10)). cbn. lia.
Qed.

Lemma entry_cost n i : lenZ (entry_line n i) + 1 <= lenZ n + 22.
Proof.
  unfold entry_line. rewrite !length_app. pose proof (dec_digits_length 20 i). unfold print_ull. cbn [length]. lia.
Qed.

(** ** Representation *)

(** The bytes [ob] stored under a number represent the node [on];
    directories take at most [used] bytes. *)
Definition node_rep (used : Z) (on : option node) (ob : option bytes) : Prop :=
  match on with
  | None => ob = None
  | Some (File b) => ob = Some b
  | Some (Dir es) => exists slots, ob = Some (enc slots) /\ Forall slot_ok slots /\ live slots = es /\
      lenZ (enc slots) <= used
  end.

Definition agree (used : Z) (fs : tree) (fl : gmap Z bytes) : Prop :=
  forall i, is_u32 i -> node_rep used (fs !! i) (fl !! key i).

Lemma node_rep_mono used used' on ob : used <= used' -> node_rep used on ob -> node_rep used' on ob.
Proof. intros Hu. destruct on as [[b|es]|]; cbn; try done. intros (slots & H1 & H2 & H3 & H4). exists slots. split_and!; try done. lia. Qed.

Lemma agree_mono used used' fs fl : used <= used' -> agree used fs fl -> agree used' fs fl.
Proof. intros Hu H i Hi. by eapply node_rep_mono, H. Qed.

Lemma agree_insert used fs fl i x b :
  agree used fs fl -> is_u32 i -> node_rep used (Some x) (Some b) ->
  agree used (<[i := x]> fs) (<[key i := b]> fl).
Proof.
  intros H Hi Hx j Hj. destruct (decide (i = j)) as [<-|Hne].
  - by rewrite !lookup_insert_eq.
  - rewrite !lookup_insert_ne by (try apply key_inj; done). by apply H.
Qed.

Lemma agree_delete used fs fl i : agree used fs fl -> is_u32 i -> agree used (delete i fs) (delete (key i) fl).
Proof.
  intros H Hi j Hj. destruct (decide (i = j)) as [<-|Hne].
  - by rewrite !lookup_delete_eq.
  - rewrite !lookup_delete_ne by (try apply key_inj; done). by apply H.
Qed.

(** *** Well formed trees stay so *)

Lemma tree_add fs p es n i isf :
  tree_ok fs -> fs !! p = Some (Dir es) -> find_entry n es = None -> name_ok n ->
  1 < i < 2 ^ 32 -> i <> p -> fs !! i = None -> isfile i = isf ->
  tree_ok (<[p := Dir (es ++ [(n, i)])]> (<[i := if isf then File [] else Dir []]> fs)).
Proof.
  intros [H1 H2 H3 H4 H5 H6 [rank H7]] Hp Hn Hok Hi Hip Hfree Hk.
  set (x := if isf then File [] else Dir []). set (fs' := <[p := _]> _).
  assert (Hlook : forall j y, fs' !! j = Some y ->
    (j = p /\ y = Dir (es ++ [(n, i)])) \/ (j = i /\ y = x) \/ (j <> p /\ j <> i /\ fs !! j = Some y)).
  { intros j y. unfold fs'. rewrite lookup_insert_Some, lookup_insert_Some. naive_solver. }
  assert (Hsome : forall j, is_Some (fs !! j) -> is_Some (fs' !! j)).
  { intros j Hj. unfold fs'. rewrite lookup_insert_is_Some', lookup_insert_is_Some'. auto. }
  assert (Hsi : is_Some (fs' !! i)) by (unfold fs'; rewrite lookup_insert_ne, lookup_insert_eq by done; done).
  assert (Hdir : forall d es', fs' !! d = Some (Dir es') ->
    (d = p /\ es' = es ++ [(n, i)]) \/ (d = i /\ es' = []) \/ (d <> p /\ d <> i /\ fs !! d = Some (Dir es'))).
  { intros d es' Hd. apply Hlook in Hd as [[-> [= ->]]|[[-> Ex]|?]]; [by left| |by right; right].
    right; left. unfold x in Ex. by destruct isf; simplify_eq. }
  assert (Hold : forall d es' m j, fs !! d = Some (Dir es') -> (m, j) ∈ es' -> j <> i).
  { intros d es' m j Hd Hm ->. destruct (H5 _ _ _ _ Hd Hm) as [Hs _]. rewrite Hfree in Hs. by destruct Hs. }
  assert (Hent : forall d es' m j, fs' !! d = Some (Dir es') -> (m, j) ∈ es' ->
    (d = p /\ m = n /\ j = i) \/ exists es0, fs !! d = Some (Dir es0) /\ (m, j) ∈ es0).
  { intros d es' m j Hd Hm. apply Hdir in Hd as [[-> ->]|[[-> ->]|(_ & _ & Hd)]]; [|by apply not_elem_of_nil in Hm|eauto].
    apply elem_of_app in Hm as [Hm|Hm]; [eauto|]. apply list_elem_of_singleton in Hm as [= -> ->]. by left. }
  split.
  - destruct H1 as [es1 H1]. unfold fs'. destruct (decide (p = 1)) as [->|]; [rewrite lookup_insert_eq; eauto|].
    rewrite !lookup_insert_ne by lia. eauto.
  - intros j y Hj. apply Hlook in Hj as [[-> _]|[[-> _]|(_ & _ & Hj)]]; [by eapply H2|unfold is_u32; lia|by eapply H2].
  - intros j y Hj. apply Hlook in Hj as [[-> ->]|[[-> ->]|(_ & _ & Hj)]]; [by apply (H3 p _ Hp)| |by apply H3].
    unfold x. by destruct isf.
  - intros d es' Hd. apply Hdir in Hd as [[-> ->]|[[-> ->]|(_ & _ & Hd)]]; [|split; constructor|eauto].
    destruct (H4 _ _ Hp) as [Ha Hb]. rewrite fmap_app. split.
    + apply NoDup_app. split; [done|]. split; [|apply NoDup_singleton].
      intros y Hy Hy2%list_elem_of_singleton. subst y. by apply find_entry_none in Hn.
    + apply Forall_app. split; [done|]. constructor; [done|constructor].
  - intros d es' m j Hd Hm. apply (Hent _ _ _ _ Hd) in Hm as [(-> & -> & ->)|(es0 & Hd0 & Hm)].
    + split; [done|]. split; [lia|done].
    + destruct (H5 _ _ _ _ Hd0 Hm) as (Ha & Hb & Hc). auto.
  - intros d es1 m d' es2 m' j Hd Hd' Hm Hm'.
    apply (Hent _ _ _ _ Hd) in Hm as [(-> & -> & ->)|(es0 & Hd0 & Hm)];
      apply (Hent _ _ _ _ Hd') in Hm' as [(-> & -> & E)|(es0' & Hd0' & Hm')]; try done.
    + by destruct (Hold _ _ _ _ Hd0' Hm').
    + subst j. by destruct (Hold _ _ _ _ Hd0 Hm).
    + eauto.
  - exists (fun z => if decide (z = i) then S (rank p) else rank z). intros d es' m j Hd Hm.
    apply (Hent _ _ _ _ Hd) in Hm as [(-> & -> & ->)|(es0 & Hd0 & Hm)].
    + rewrite decide_False, decide_True by done. lia.
    + rewrite !decide_False; [eauto|by eapply Hold|congruence].
Qed.

Lemma drop_elem n es m j : (m, j) ∈ drop_entry n es <-> (m, j) ∈ es /\ m <> n.
Proof. unfold drop_entry. rewrite list_elem_of_filter. cbn. tauto. Qed.

Lemma tree_drop fs p es n i :
  tree_ok fs -> fs !! p = Some (Dir es) -> find_entry n es = Some i ->
  tree_ok (<[p := Dir (drop_entry n es)]> (delete i fs)).
Proof.
  intros [H1 H2 H3 H4 H5 H6 [rank H7]] Hp Hn. pose proof (find_entry_elem _ _ _ Hn) as Hin.
  destruct (H5 _ _ _ _ Hp Hin) as (Hsi & Hi1 & Hip). set (fs' := <[p := _]> _).
  assert (Hlook : forall j y, fs' !! j = Some y ->
    (j = p /\ y = Dir (drop_entry n es)) \/ (j <> p /\ j <> i /\ fs !! j = Some y)).
  { intros j y. unfold fs'. rewrite lookup_insert_Some, lookup_delete_Some. naive_solver. }
  assert (Hent : forall d es' m j, fs' !! d = Some (Dir es') -> (m, j) ∈ es' ->
    exists es0, fs !! d = Some (Dir es0) /\ (m, j) ∈ es0 /\ (d = p -> m <> n)).
  { intros d es' m j Hd Hm. apply Hlook in Hd as [[-> [= ->]]|(Hne & _ & Hd)]; [|by exists es'].
    apply drop_elem in Hm as [Hm Hmn]. exists es. auto. }
  split.
  - destruct H1 as [es1 H1]. unfold fs'. destruct (decide (p = 1)) as [->|]; [rewrite lookup_insert_eq; eauto|].
    rewrite lookup_insert_ne, lookup_delete_ne by congruence. eauto.
  - intros j y Hj. apply Hlook in Hj as [[-> _]|(_ & _ & Hj)]; by eapply H2.
  - intros j y Hj. apply Hlook in Hj as [[-> ->]|(_ & _ & Hj)]; [by apply (H3 p _ Hp)|by apply H3].
  - intros d es' Hd. apply Hlook in Hd as [[-> [= ->]]|(_ & _ & Hd)]; [|eauto]. destruct (H4 _ _ Hp) as [Ha Hb]. split.
    + unfold drop_entry. eapply sublist_NoDup; [exact Ha|]. apply fmap_sublist, sublist_filter.
    + rewrite Forall_forall in *. intros e [_ He]%list_elem_of_filter. auto.
  - intros d es' m j Hd Hm. destruct (Hent _ _ _ _ Hd Hm) as (es0 & Hd0 & Hm0 & Hmn).
    destruct (H5 _ _ _ _ Hd0 Hm0) as (Ha & Hb & Hc). split; [|done]. unfold fs'.
    destruct (decide (p = j)) as [<-|Hpj]; [rewrite lookup_insert_eq; eauto|].
    rewrite lookup_insert_ne, lookup_delete_ne; [done| |done]. intros <-.
    destruct (H6 _ _ _ _ _ _ _ Hp Hd0 Hin Hm0) as [<- <-]. by apply Hmn.
  - intros d es1 m d' es2 m' j Hd Hd' Hm Hm'.
    destruct (Hent _ _ _ _ Hd Hm) as (e1 & Hd1 & Hm1 & _). destruct (Hent _ _ _ _ Hd' Hm') as (e2 & Hd2 & Hm2 & _). eauto.
  - exists rank. intros d es' m j Hd Hm. destruct (Hent _ _ _ _ Hd Hm) as (e1 & Hd1 & Hm1 & _). eauto.
Qed.

(** A file gets other contents. *)
Lemma tree_store fs t b b' : tree_ok fs -> fs !! t = Some (File b) -> tree_ok (<[t := File b']> fs).
Proof.
  intros [H1 H2 H3 H4 H5 H6 [rank H7]] Ht.
  assert (Hdir : forall d es, <[t := File b']> fs !! d = Some (Dir es) -> fs !! d = Some (Dir es)).
  { intros d es. rewrite lookup_insert_Some. naive_solver. }
  split.
  - destruct H1 as [es H1]. exists es. rewrite lookup_insert_ne; [done|congruence].
  - intros j y. rewrite lookup_insert_Some. intros [[<- _]|[_ Hj]]; by eapply H2.
  - intros j y. rewrite lookup_insert_Some. intros [[<- <-]|[_ Hj]]; [by apply (H3 t _ Ht)|by apply H3].
  - intros d es Hd. apply Hdir in Hd. eauto.
  - intros d es n i Hd Hn. apply Hdir in Hd. destruct (H5 _ _ _ _ Hd Hn) as [Hs ?]. split; [|done].
    rewrite lookup_insert_is_Some'. auto.
  - intros d es n d' es' n' i Hd Hd' Hn Hn'. apply Hdir in Hd, Hd'. eauto.
  - exists rank. intros d es n i Hd. apply Hdir in Hd. eauto.
Qed.

Lemma add_entry_ok `{!StringLimit} fs p n rs isf i :
  tree_ok fs -> name_ok n -> Forall (fun r => 0 <= r < 2 ^ 31) rs -> new_inum rs p isf = Some i -> fs !! i = None ->
  tree_ok (add_entry p n rs isf fs).2.
Proof.
  intros Hf Hn Hr Hi Hfree. unfold add_entry. destruct (fs !! p) as [[b|es]|] eqn:Ep; try done.
  destruct (find_entry n es) eqn:En; [done|]. rewrite Hi. cbn [default snd].
  destruct (new_inum_some rs p isf i Hr Hi) as (Hip & Hi1 & Hk & _). by apply tree_add.
Qed.

Lemma spec_ok `{!StringLimit} fs o : tree_ok fs -> op_ok fs o -> tree_ok (spec o fs).2.
Proof.
  intros Hf Ho. destruct o as [p n rs|p n rs|p n|p n|d|t n off|t b off|t n|i|i]; cbn [spec op_ok] in *.
  - destruct Ho as (_ & _ & Hn & Hr & i & Hi & Hfree). by eapply add_entry_ok.
  - destruct Ho as (_ & _ & Hn & Hr & i & Hi & Hfree). by eapply add_entry_ok.
  - destruct (fs !! p) as [[b|es]|] eqn:Ep; try done. destruct (find_entry n es) eqn:En; [|done]. by apply tree_drop.
  - destruct (fs !! p) as [[b|es]|]; try done. by destruct (find_entry n es).
  - by destruct (fs !! d) as [[]|].
  - destruct (fs !! t) as [[b|]|]; try done. by destruct (off <? lenZ b).
  - destruct (fs !! t) as [[s|]|] eqn:Et; try done. by eapply tree_store.
  - destruct (fs !! t) as [[s|]|] eqn:Et; try done. by eapply tree_store.
  - by destruct (fs !! i) as [[]|].
  - by destruct (fs !! i) as [[]|].
Qed.

(** ** Refinement, operation by operation *)

Section refinement.
Context {W : Type} `{!StringLimit, !ExtentClient W, !LockClient W, !Backend W}.
Context (Hmax : max_size < 2 ^ 31).

Record rep (w : W) (fs : tree) (used : Z) : Prop := Rep {
  rp_good : good w;
  rp_held : held w = ∅;
  rp_agree : agree used fs (files w)
}.

Lemma rep_free w fs used (k : Z) : rep w fs used -> k ∉ held w.
Proof. intros [_ -> _]. apply not_elem_of_empty. Qed.

Lemma rep_same w w' fs used : rep w fs used -> same w w' -> rep w' fs used.
Proof. intros [H1 H2 H3] (Hg & Hf & Hh). split; [done|congruence|by rewrite Hf]. Qed.

Lemma rep_next w w' fs used fl fs' used' :
  rep w fs used -> good w' -> held w' = held w -> files w' = fl -> agree used' fs' fl -> rep w' fs' used'.
Proof. intros [H1 H2 H3] Hg Hh Hf Ha. split; [done|congruence|by rewrite Hf]. Qed.

(** A directory number names a directory or nothing, a file number a file
    or nothing. *)
Lemma dir_cases fs p : tree_ok fs -> isfile p = false -> (exists es, fs !! p = Some (Dir es)) \/ fs !! p = None.
Proof.
  intros Hf Hk. destruct (fs !! p) as [[b|es]|] eqn:E; [|eauto|auto]. by rewrite (tr_kind _ Hf _ _ E) in Hk.
Qed.

Lemma file_cases fs p : tree_ok fs -> isfile p = true -> (exists b, fs !! p = Some (File b)) \/ fs !! p = None.
Proof.
  intros Hf Hk. destruct (fs !! p) as [[b|es]|] eqn:E; [eauto| |auto]. by rewrite (tr_kind _ Hf _ _ E) in Hk.
Qed.

Lemma rep_dir w fs used p es :
  rep w fs used -> is_u32 p -> fs !! p = Some (Dir es) ->
  exists slots, files w !! key p = Some (enc slots) /\ Forall slot_ok slots /\ live slots = es /\ lenZ (enc slots) <= used.
Proof. intros Hr Hp Hd. pose proof (rp_agree _ _ _ Hr p Hp) as Hn. by rewrite Hd in Hn. Qed.

Lemma rep_file w fs used p b :
  rep w fs used -> is_u32 p -> fs !! p = Some (File b) -> files w !! key p = Some b.
Proof. intros Hr Hp Hd. pose proof (rp_agree _ _ _ Hr p Hp) as Hn. by rewrite Hd in Hn. Qed.

Lemma rep_none w fs used p : rep w fs used -> is_u32 p -> fs !! p = None -> files w !! key p = None.
Proof. intros Hr Hp Hd. pose proof (rp_agree _ _ _ Hr p Hp) as Hn. by rewrite Hd in Hn. Qed.

Lemma find_slot_cases n slots es :
  live slots = es ->
  match find_entry n es with
  | Some i => exists k, find_slot n slots = Some (k, i)
  | None => find_slot n slots = None
  end.
Proof.
  intros <-. pose proof (find_slot_live n slots) as Hn. destruct (find_slot n slots) as [[k i]|]; rewrite Hn; eauto.
Qed.

(** A step keeps its promise. *)
Definition refines (o : op) (w : W) (fs : tree) (used : Z) : Prop :=
  exists w', perform o w = Some ((spec o fs).1, w') /\ rep w' (spec o fs).2 (used + cost o).

Lemma missing_dir w fs used p n rs isf :
  rep w fs used -> is_u32 p -> fs !! p = None ->
  (exists w', lookup p n 0 w = (NOENT, 0, w') /\ same w w') /\
  (exists w', dir_add_entry p n 0 isf rs w = Some (NOENT, 0, w') /\ same w w') /\
  (exists w', remove p n w = Ret (NOENT, w') /\ same w w').
Proof.
  intros Hr Hp Hd. destruct (missing_dir_ops p n rs 0 w (rp_good _ _ _ Hr) (rep_free _ _ _ p Hr) (rep_none _ _ _ _ Hr Hp Hd))
    as (w1 & w2 & w3 & H1 & H2 & H3 & H4 & H5 & H6). eauto 10.
Qed.

Lemma add_entry_refines w fs used p n rs isf i :
  rep w fs used -> tree_ok fs -> is_u32 p -> isfile p = false -> name_ok n -> Forall (fun r => 0 <= r < 2 ^ 31) rs ->
  new_inum rs p isf = Some i -> 0 <= used -> used + (lenZ n + 22) <= max_size ->
  exists w', with_inum <$> dir_add_entry p n 0 isf rs w = Some ((add_entry p n rs isf fs).1, w') /\
    rep w' (add_entry p n rs isf fs).2 (used + (lenZ n + 22)).
Proof.
  intros Hr Hf Hp Hk Hn Hrs Hi H0 Hu. pose proof (rp_agree _ _ _ Hr) as Ha. unfold add_entry.
  assert (Hup : agree (used + (lenZ n + 22)) fs (files w)) by (eapply agree_mono; [|done]; lia).
  destruct (dir_cases fs p Hf Hk) as [[es Hd]|Hd]; rewrite Hd.
  2: { destruct (missing_dir w fs used p n rs isf Hr Hp Hd) as (_ & (w' & -> & Hs) & _). exists w'. split; [done|].
       destruct Hs as (? & ? & ?). by eapply rep_next. }
  destruct (rep_dir _ _ _ _ _ Hr Hp Hd) as (slots & Hb & Hso & Hl & Hlen).
  pose proof (find_slot_cases n slots es Hl) as Hfind. destruct (find_entry n es) as [j|].
  - destruct Hfind as [k Hfind].
    destruct (add_entry_exists Hmax p n isf rs j k 0 w slots) as (w' & -> & Hg & Hfl & Hh); try done;
      [apply Hr|by eapply rep_free|]. exists w'. split; [done|]. by eapply rep_next.
  - destruct (new_inum_some rs p isf i Hrs Hi) as (Hip & Hi1 & _ & _). pose proof (entry_cost n i) as Hc.
    assert (Henc : lenZ (enc (slots ++ [Some (n, i)])) <= used + (lenZ n + 22))
      by (rewrite enc_app; cbn [enc slot_line]; rewrite !length_app in *; cbn [length]; lia).
    destruct (add_entry_dir Hmax p n isf rs i 0 w slots) as (w' & -> & Hg & Hh & Hfl); try done;
      [apply Hr|by eapply rep_free|lia|]. exists w'. rewrite Hi. cbn [default]. split; [done|].
    eapply rep_next; [done|done|done|exact Hfl|]. apply agree_insert; [apply agree_insert|done|].
    + done.
    + unfold is_u32. lia.
    + destruct isf; [done|]. exists []. split; [done|]. split; [constructor|]. split; [done|]. cbn. lia.
    + exists (slots ++ [Some (n, i)]). split; [done|]. split; [|split; [|done]].
      * apply Forall_app. split; [done|]. constructor; [|constructor]. split; [done|]. unfold is_u64. lia.
      * rewrite live_app, Hl. done.
Qed.

Lemma remove_refines w fs used p n :
  rep w fs used -> tree_ok fs -> is_u32 p -> isfile p = false -> refines (Remove p n) w fs used.
Proof.
  intros Hr Hf Hp Hk. unfold refines. cbn [perform spec cost]. rewrite Z.add_0_r.
  destruct (dir_cases fs p Hf Hk) as [[es Hd]|Hd]; rewrite Hd.
  2: { destruct (missing_dir w fs used p n [] true Hr Hp Hd) as (_ & _ & (w' & -> & Hs)). exists w'. split; [done|].
       by eapply rep_same. }
  destruct (rep_dir _ _ _ _ _ Hr Hp Hd) as (slots & Hb & Hso & Hl & Hlen).
  pose proof (find_slot_cases n slots es Hl) as Hfind. destruct (find_entry n es) as [i|] eqn:En.
  - destruct Hfind as [k Hfind]. pose proof (find_entry_elem _ _ _ En) as Hin.
    destruct (tr_entry _ Hf _ _ _ _ Hd Hin) as ([x Hx] & Hi1 & Hip).
    pose proof (tr_range _ Hf _ _ Hx) as Hui.
    assert (exists b, files w !! key i = Some b) as [b Hbi].
    { destruct x as [b|es']; [exists b; by eapply rep_file|].
      destruct (rep_dir _ _ _ _ _ Hr Hui Hx) as (sl & ? & _). eauto. }
    destruct (remove_dir Hmax p n k i b w slots) as (w' & -> & Hg & Hh & Hfl); try done;
      [apply Hr|by eapply rep_free|by eapply rep_free|]. exists w'. split; [done|].
    eapply rep_next; [done|done|done|exact Hfl|]. apply agree_insert; [by apply agree_delete; [apply Hr|]|done|].
    exists (<[k := None]> slots). split; [done|]. split; [by apply Forall_insert|]. split.
    + rewrite <- Hl. eapply live_erase; [done|]. rewrite names_live, Hl. by apply (tr_names _ Hf _ _ Hd).
    + eapply Z.le_trans; [|exact Hlen]. by eapply enc_erase_le.
  - destruct (remove_missing Hmax p n w slots) as (w' & -> & Hs); try done; [apply Hr|by eapply rep_free|].
    exists w'. split; [done|]. by eapply rep_same.
Qed.

Lemma lookup_refines w fs used p n :
  rep w fs used -> tree_ok fs -> is_u32 p -> isfile p = false -> refines (Lookup p n) w fs used.
Proof.
  intros Hr Hf Hp Hk. unfold refines. cbn [perform spec cost]. rewrite Z.add_0_r.
  destruct (dir_cases fs p Hf Hk) as [[es Hd]|Hd]; rewrite Hd.
  2: { destruct (missing_dir w fs used p n [] true Hr Hp Hd) as ((w' & -> & Hs) & _). exists w'. split; [done|].
       by eapply rep_same. }
  destruct (rep_dir _ _ _ _ _ Hr Hp Hd) as (slots & Hb & Hso & Hl & Hlen).
  destruct (lookup_dir Hmax p n 0 w slots) as (i & w' & -> & Hs & Hi); try done; [apply Hr|by eapply rep_free|].
  pose proof (find_slot_cases n slots es Hl) as Hfind. exists w'. destruct (find_entry n es) as [j|].
  - destruct Hfind as [k Hfind]. rewrite Hfind. rewrite (Hi _ _ Hfind). split; [done|]. by eapply rep_same.
  - rewrite Hfind. split; [done|]. by eapply rep_same.
Qed.

Lemma readdir_refines w fs used d :
  rep w fs used -> tree_ok fs -> is_u32 d -> isfile d = false -> refines (Readdir d) w fs used.
Proof.
  intros Hr Hf Hp Hk. unfold refines. cbn [perform spec cost]. rewrite Z.add_0_r. unfold readir.
  destruct (dir_cases fs d Hf Hk) as [[es Hd]|Hd]; rewrite Hd.
  - destruct (rep_dir _ _ _ _ _ Hr Hp Hd) as (slots & Hb & Hso & Hl & Hlen).
    destruct (get_some w d _ (rp_good _ _ _ Hr) Hb) as (w' & -> & Hs). exists w'.
    rewrite lines_enc by done. fold (slot_lines slots). split; [|by eapply rep_same].
    cbn. by rewrite (readir_lines_enc slots 0 Hso), Hl.
  - destruct (get_none w d (rp_good _ _ _ Hr) (rep_none _ _ _ _ Hr Hp Hd)) as (b & w' & -> & Hs). exists w'.
    split; [done|]. by eapply rep_same.
Qed.

Lemma read_refines w fs used t n off :
  rep w fs used -> tree_ok fs -> is_u32 t -> isfile t = true -> is_u32 n -> is_u32 off ->
  refines (Read t n off) w fs used.
Proof.
  intros Hr Hf Ht Hk Hn Ho. unfold refines. cbn [perform spec cost]. rewrite Z.add_0_r. unfold read.
  rewrite (u32_small off) by done.
  destruct (getbuf_law w t n off (rp_good _ _ _ Hr) Hn Ho) as (st & b & w' & -> & Hg & Hh & Hs). cbn in Hs.
  assert (Hrep : files w' = files w -> rep w' fs used) by (intros Hfl; eapply rep_same; [done|split; [done|by split]]).
  exists w'. destruct (file_cases fs t Hf Hk) as [[s Hd]|Hd]; rewrite Hd.
  - rewrite (rep_file _ _ _ _ _ Hr Ht Hd) in Hs.
    destruct (off <? lenZ s); injection Hs as <- <- Hfl; (split; [done|auto]).
  - rewrite (rep_none _ _ _ _ Hr Ht Hd) in Hs. injection Hs as <- <- Hfl. split; [done|auto].
Qed.

(** A file's bytes change, nothing else does. *)
Lemma rep_store w w' fs used t b :
  rep w fs used -> is_u32 t -> good w' -> held w' = held w -> files w' = <[key t := b]> (files w) ->
  rep w' (<[t := File b]> fs) used.
Proof. intros Hr Ht Hg Hh Hf. eapply rep_next; [done..|]. by apply agree_insert; [apply Hr|..]. Qed.

Lemma write_refines w fs used t b off :
  rep w fs used -> tree_ok fs -> is_u32 t -> isfile t = true -> 0 <= off -> off + lenZ b <= max_size ->
  refines (Write t b off) w fs used.
Proof.
  intros Hr Hf Ht Hk H0 Hb. unfold refines. cbn [perform spec cost]. rewrite Z.add_0_r. unfold write.
  destruct (acquire_ok w t (rp_good _ _ _ Hr) (rep_free _ _ _ t Hr)) as (w1 & -> & Hg1 & Hf1 & Hh1).
  cbn [Z.eqb lock_protocol.OK]. rewrite !u32_small by (unfold is_u32; lia).
  destruct (putbuf_law w1 t off b Hg1) as (st & w2 & -> & Hg2 & Hh2 & Hs); [unfold is_u32; lia|done|].
  destruct (release_ok w2 t (held w) Hg2) as (r & w3 & Er & Hg3 & Hf3 & Hh3); [congruence|by eapply rep_free|].
  cbn in Hs. rewrite Hf1 in Hs. destruct (file_cases fs t Hf Hk) as [[s Hd]|Hd]; rewrite Hd.
  - rewrite (rep_file _ _ _ _ _ Hr Ht Hd) in Hs. injection Hs as <- Hfl. cbn [Z.eqb extent_protocol.OK]. rewrite Er.
    exists w3. split; [done|]. eapply rep_store; [done..|]. congruence.
  - rewrite (rep_none _ _ _ _ Hr Ht Hd) in Hs. injection Hs as <- Hfl.
    cbn [Z.eqb extent_protocol.OK extent_protocol.NOENT]. rewrite Er. exists w3. split; [done|].
    eapply rep_same; [done|]. split; [done|]. split; congruence.
Qed.

Lemma resize_refines w fs used t n :
  rep w fs used -> tree_ok fs -> is_u32 t -> isfile t = true -> 0 <= n <= max_size -> refines (Resize t n) w fs used.
Proof.
  intros Hr Hf Ht Hk Hn. unfold refines. cbn [perform spec cost]. rewrite Z.add_0_r.
  destruct (file_cases fs t Hf Hk) as [[s Hd]|Hd]; rewrite Hd.
  - destruct (fuse.resize_file t n w s (rp_good _ _ _ Hr) (rep_free _ _ _ t Hr) (rep_file _ _ _ _ _ Hr Ht Hd) Hn)
      as (w' & -> & Hg & Hh & Hfl). exists w'. split; [done|]. by eapply rep_store.
  - unfold resize.
    destruct (acquire_ok w t (rp_good _ _ _ Hr) (rep_free _ _ _ t Hr)) as (w1 & -> & Hg1 & Hf1 & Hh1).
    cbn [Z.eqb lock_protocol.OK].
    destruct (get_none w1 t Hg1) as (b & w2 & -> & Hg2 & Hf2 & Hh2); [rewrite Hf1; by eapply rep_none|].
    cbn [Z.eqb extent_protocol.OK extent_protocol.NOENT mbind res_bind].
    destruct (release_ok w2 t (held w) Hg2) as (r & w3 & -> & Hg3 & Hf3 & Hh3); [congruence|by eapply rep_free|].
    exists w3. split; [done|]. eapply rep_same; [done|]. split; [done|]. split; congruence.
Qed.

Lemma getfile_refines w fs used i :
  rep w fs used -> tree_ok fs -> is_u32 i -> isfile i = true -> refines (Getfile i) w fs used.
Proof.
  intros Hr Hf Hi Hk. unfold refines. cbn [perform spec cost]. rewrite Z.add_0_r.
  destruct (file_cases fs i Hf Hk) as [[s Hd]|Hd]; rewrite Hd.
  - destruct (fuse.getfile_some i (Fileinfo 0 0 0 0) w s (rp_good _ _ _ Hr) (rep_free _ _ _ i Hr))
      as (fi & w' & -> & Hsz & Hs); [by eapply rep_file|]. exists w'. cbn. rewrite Hsz. split; [done|]. by eapply rep_same.
  - destruct (fuse.getfile_none i (Fileinfo 0 0 0 0) w (rp_good _ _ _ Hr) (rep_free _ _ _ i Hr))
      as (w' & -> & Hs); [by eapply rep_none|]. exists w'. split; [done|]. by eapply rep_same.
Qed.

Lemma getdir_refines w fs used i :
  rep w fs used -> tree_ok fs -> is_u32 i -> isfile i = false -> refines (Getdir i) w fs used.
Proof.
  intros Hr Hf Hi Hk. unfold refines. cbn [perform spec cost]. rewrite Z.add_0_r. unfold getdir.
  destruct (acquire_ok w i (rp_good _ _ _ Hr) (rep_free _ _ _ i Hr)) as (w1 & -> & Hg1 & Hf1 & Hh1).
  cbn [Z.eqb lock_protocol.OK].
  destruct (getattr_law w1 i Hg1) as (st & a & w2 & -> & Hg2 & Hh2 & Hs). cbn in Hs. rewrite Hf1 in Hs.
  destruct (release_ok w2 i (held w) Hg2) as (r & w3 & Er & Hg3 & Hf3 & Hh3); [congruence|by eapply rep_free|].
  assert (Hrep : files w2 = files w -> rep w3 fs used)
    by (intros Hfl; eapply rep_same; [done|split; [done|split; congruence]]).
  exists w3. destruct (dir_cases fs i Hf Hk) as [[es Hd]|Hd]; rewrite Hd.
  - destruct (rep_dir _ _ _ _ _ Hr Hi Hd) as (slots & Hb & _). rewrite Hb in Hs. injection Hs as <- _ Hfl.
    cbn [Z.eqb extent_protocol.OK negb]. rewrite Er. split; [done|auto].
  - rewrite (rep_none _ _ _ _ Hr Hi Hd) in Hs. injection Hs as <- _ Hfl.
    cbn [Z.eqb extent_protocol.OK extent_protocol.NOENT negb]. rewrite Er. split; [done|auto].
Qed.

(** That random() yields a number not in use matters for the tree to stay
    well formed, not for what the operation answers: [fs0] is any tree. *)
Lemma perform_refines_any o w fs fs0 used :
  rep w fs used -> tree_ok fs -> op_ok fs0 o -> 0 <= used -> used + cost o <= max_size -> refines o w fs used.
Proof.
  intros Hr Hf Ho H0 Hu. destruct o as [p n rs|p n rs|p n|p n|d|t n off|t b off|t n|i|i]; cbn [op_ok cost] in *.
  - destruct Ho as (Hp & Hk & Hn & Hrs & i & Hi & _). by eapply add_entry_refines.
  - destruct Ho as (Hp & Hk & Hn & Hrs & i & Hi & _). by eapply add_entry_refines.
  - by apply remove_refines; tauto.
  - by apply lookup_refines; tauto.
  - by apply readdir_refines; tauto.
  - by apply read_refines; tauto.
  - by apply write_refines; tauto.
  - by apply resize_refines; tauto.
  - by apply getfile_refines; tauto.
  - by apply getdir_refines; tauto.
Qed.

Lemma perform_refines o w fs used :
  rep w fs used -> tree_ok fs -> op_ok fs o -> 0 <= used -> used + cost o <= max_size -> refines o w fs used.
Proof. apply perform_refines_any. Qed.

(** ** Runs *)

Fixpoint performs (os : list op) (w : W) : option (list (Z * answer) * W) :=
  match os with
  | [] => Some ([], w)
  | o :: os =>
      '(r, a, w) ← perform o w; '(out, w) ← performs os w; Some ((r, a) :: out, w)
  end.

Fixpoint specs (os : list op) (fs : tree) : list (Z * answer) * tree :=
  match os with
  | [] => ([], fs)
  | o :: os => let '(ra, fs) := spec o fs in let '(out, fs) := specs os fs in (ra :: out, fs)
  end.

(** Each operation can be asked for when its turn comes. *)
Fixpoint ops_ok (os : list op) (fs : tree) : Prop :=
  match os with [] => True | o :: os => op_ok fs o /\ ops_ok os (spec o fs).2 end.

Definition costs (os : list op) : Z := foldr (fun o n => cost o + n) 0 os.

Lemma cost_pos o : 0 <= cost o.
Proof. destruct o; cbn; lia. Qed.

Lemma costs_pos os : 0 <= costs os.
Proof. induction os as [|o os IH]; cbn; [lia|]. pose proof (cost_pos o). unfold costs in IH. lia. Qed.

Lemma performs_refine os w fs used :
  rep w fs used -> tree_ok fs -> ops_ok os fs -> 0 <= used -> used + costs os <= max_size ->
  exists w', performs os w = Some ((specs os fs).1, w') /\ rep w' (specs os fs).2 (used + costs os) /\
    tree_ok (specs os fs).2.
Proof.
  revert w fs used. induction os as [|o os IH]; intros w fs used Hr Hf Ho H0 Hu.
  - exists w. cbn in *. rewrite Z.add_0_r. done.
  - cbn [ops_ok costs foldr performs specs] in *. destruct Ho as [Ho Hos]. fold (costs os) in *.
    pose proof (cost_pos o). pose proof (costs_pos os).
    destruct (perform_refines o w fs used Hr Hf Ho H0) as (w1 & E1 & Hr1); [lia|].
    destruct (IH w1 (spec o fs).2 (used + cost o) Hr1 (spec_ok fs o Hf Ho) Hos) as (w2 & E2 & Hr2 & Hf2); [lia|lia|].
    rewrite E1. destruct (spec o fs) as [[r a] fs1]. cbn [fst snd mbind option_bind] in *. rewrite E2.
    destruct (specs os fs1) as [out fs2]. cbn [fst snd mbind option_bind] in *. exists w2. split; [done|].
    by rewrite Z.add_assoc.
Qed.

(** ** Theorems *)

(** C7: yfs_client implements a file system.  On any extent and lock service
    that keep their promises, take a sequence of creates, mkdirs, removes,
    lookups, directory listings, reads, writes, truncations and stats in
    which numbers are of the operation's kind, new names have no ':' and no
    newline, random() yields a usable number that is not in use, and sizes
    and offsets stay within the limit of strings, as do the bytes all of
    them may add to what is stored ([ops_ok] and the budget).  It returns
    exactly the statuses and results of the abstract tree, error cases
    included, ends in a world that represents the abstract tree, and leaves
    no lock held. *)
Theorem yfs_refines (os : list op) (w : W) (fs : tree) (used : Z) :
  rep w fs used -> tree_ok fs -> ops_ok os fs -> 0 <= used -> used + costs os <= max_size ->
  exists w', performs os w = Some ((specs os fs).1, w') /\ rep w' (specs os fs).2 (used + costs os).
Proof.
  intros Hr Hf Ho H0 Hu. destruct (performs_refine os w fs used Hr Hf Ho H0 Hu) as (w' & H1 & H2 & _). eauto.
Qed.

(** What a represented tree lists can be looked up and has attributes. *)
Lemma rep_entries w fs used d w1 es n i :
  rep w fs used -> tree_ok fs -> is_u32 d -> isfile d = false -> 0 <= used <= max_size ->
  perform (Readdir d) w = Some (OK, Entries es, w1) -> (n, i) ∈ es ->
  (exists w', perform (Lookup d n) w = Some (OK, Inum i, w')) /\
  (if isfile i then exists sz w', perform (Getfile i) w = Some (OK, Size sz, w')
   else exists w', perform (Getdir i) w = Some (OK, Nothing, w')) /\
  NoDup es.*1.
Proof.
  intros Hr Hf Hd Hk Hu E Hin. destruct (readdir_refines w fs used d Hr Hf Hd Hk) as (w2 & E2 & _).
  rewrite E2 in E. injection E as Es _. cbn [spec] in Es.
  destruct (fs !! d) as [[|es']|] eqn:Ed; try done. injection Es as ->.
  destruct (tr_names _ Hf _ _ Ed) as [Hnd _]. destruct (tr_entry _ Hf _ _ _ _ Ed Hin) as ([x Hx] & _).
  pose proof (tr_range _ Hf _ _ Hx) as Hui. split; [|split; [|done]].
  - destruct (lookup_refines w fs used d n Hr Hf Hd Hk) as (w3 & E3 & _). exists w3. rewrite E3. cbn [spec]. rewrite Ed.
    assert (find_entry n es = Some i) as -> by (by apply find_entry_nodup). done.
  - destruct (isfile i) eqn:Ei.
    + destruct (getfile_refines w fs used i Hr Hf Hui Ei) as (w3 & E3 & _). rewrite E3. cbn [spec]. rewrite Hx.
      rewrite (tr_kind _ Hf _ _ Hx) in Ei. destruct x; [|done]. eauto.
    + destruct (getdir_refines w fs used i Hr Hf Hui Ei) as (w3 & E3 & _). rewrite E3. cbn [spec]. rewrite Hx.
      rewrite (tr_kind _ Hf _ _ Hx) in Ei. destruct x; [done|]. eauto.
Qed.

End refinement.

(** ** From an empty server *)

Section fresh.
Context `{!StringLimit}.
Import world.

(** The extent server after its constructor, no lock taken. *)
Definition fresh (now : Z) : world := World (extent_server.extent_server_new now) now ∅.
Definition empty_tree : tree := {[ 1 := Dir [] ]}.

Lemma empty_tree_ok : tree_ok empty_tree.
Proof.
  assert (Hone : forall i x, empty_tree !! i = Some x -> i = 1 /\ x = Dir []).
  { intros i x. unfold empty_tree. rewrite lookup_singleton_Some. by intros [<- <-]. }
  split.
  - exists []. done.
  - intros i x [-> ->]%Hone. done.
  - intros i x [-> ->]%Hone. done.
  - intros d es [-> [= ->]]%Hone. split; constructor.
  - intros d es n i [-> [= ->]]%Hone Hn. by apply not_elem_of_nil in Hn.
  - intros d es n d' es' n' i [-> [= ->]]%Hone _ Hn. by apply not_elem_of_nil in Hn.
  - exists (fun _ => 0%nat). intros d es n i [-> [= ->]]%Hone Hn. by apply not_elem_of_nil in Hn.
Qed.

Lemma fresh_rep now : 0 <= max_size < 2 ^ 31 -> rep (fresh now) empty_tree 0.
Proof.
  intros Hm. split.
  - split; [|cbn; lia]. apply extent_server.table_ok_new. lia.
  - done.
  - intros i Hi. unfold files. cbn. rewrite extent_server.lookup_contents.
    destruct (decide (1 = i)) as [<-|Hne].
    + exists []. split; [done|]. split; [constructor|]. done.
    + unfold empty_tree. rewrite lookup_singleton_ne by done. cbn. unfold extent_server.extent_server_new, extent_server.put.
      cbn. rewrite lookup_insert_ne; [by rewrite lookup_empty|]. change (key 1 <> key i). by apply key_inj.
Qed.

(** C10: no dangling or doubled entries.  After any sequence of operations on
    a file system that started empty, as long as the operations obey
    [ops_ok] (new names without ':' and newline, random numbers not in use,
    numbers of the right kind, sizes within the limit of strings) and the
    bytes they may add fit a string, every name readdir lists in a directory
    is listed once, lookup finds it with the listed number, and the number
    has the attributes of the kind its bit 31 announces. *)
Theorem fsck (now : Z) (os : list op) (out : list (Z * answer)) (w w1 : world) (d : Z)
    (es : list (bytes * Z)) (n : bytes) (i : Z) :
  max_size < 2 ^ 31 -> costs os <= max_size -> ops_ok os empty_tree ->
  performs os (fresh now) = Some (out, w) -> is_u32 d -> isfile d = false ->
  perform (Readdir d) w = Some (OK, Entries es, w1) -> (n, i) ∈ es ->
  (exists w', perform (Lookup d n) w = Some (OK, Inum i, w')) /\
  (if isfile i then exists sz w', perform (Getfile i) w = Some (OK, Size sz, w')
   else exists w', perform (Getdir i) w = Some (OK, Nothing, w')) /\
  NoDup es.*1.
Proof.
  intros Hm Hc Ho E Hd Hk Er Hn. pose proof (costs_pos os).
  destruct (performs_refine Hm os (fresh now) empty_tree 0) as (w' & E' & Hr & Hf); try done; try lia;
    [apply fresh_rep; lia|apply empty_tree_ok|].
  rewrite E in E'. injection E' as -> <-. eapply rep_entries; try done; lia.
Qed.

End fresh.

(** ** Instances *)

Section demo.
Import world.
#[local] Instance demo_strings : StringLimit := extent_server.demo_limit.

Lemma limit_fits : max_size < 2 ^ 31.
Proof. reflexivity. Qed.

(** A file written, a directory with a file in it, the first file removed. *)
Definition demo_ops : list op :=
  [Create 1 (str "a") [5]; Write 2147483653 (str "hello") 2; Mkdir 1 (str "sub") [9]; Create 9 (str "b") [7];
   Create 1 (str "a") [8]; Remove 1 (str "a"); Readdir 1; Remove 1 (str "zz")].

Lemma demo_ops_ok : ops_ok demo_ops empty_tree.
Proof.
  assert (Hname : forall s, bool_decide (colon ∉ s) && bool_decide (nl ∉ s) = true -> name_ok s).
  { intros s [H1 H2]%andb_prop. by apply bool_decide_eq_true in H1, H2. }
  assert (Hr : forall r, 0 <= r < 2 ^ 31 -> Forall (fun r => 0 <= r < 2 ^ 31) [r]) by (intros; by constructor).
  cbn [ops_ok demo_ops op_ok].
  repeat match goal with |- _ /\ _ => split | |- True => exact I end;
    try (apply Hname; vm_compute; reflexivity); try (apply Hr; lia); try (eexists; split; reflexivity);
    try (unfold is_u32; lia); try reflexivity; vm_compute; discriminate.
Qed.

Lemma yfs_refines_witness :
  exists w', performs demo_ops (fresh 3) =
    Some ([(OK, Inum 2147483653); (OK, Size 5); (OK, Inum 9); (OK, Inum 2147483655); (EXIST, Inum 2147483653);
           (OK, Nothing); (OK, Entries [(str "sub", 9)]); (IOERR, Nothing)], w').
Proof.
  destruct (yfs_refines limit_fits demo_ops (fresh 3) empty_tree 0) as (w' & E & _).
  - apply fresh_rep. split; [vm_compute; discriminate|reflexivity].
  - apply empty_tree_ok.
  - apply demo_ops_ok.
  - lia.
  - vm_compute. discriminate.
  - exists w'. exact E.
Defined.

Lemma fsck_witness :
  exists out w w', performs demo_ops (fresh 3) = Some (out, w) /\ perform (Lookup 1 (str "sub")) w = Some (OK, Inum 9, w').
Proof.
  destruct (performs_refine limit_fits demo_ops (fresh 3) empty_tree 0)
    as (w & E & Hr & Hf); [apply fresh_rep; split; [vm_compute; discriminate|reflexivity]|apply empty_tree_ok
    |apply demo_ops_ok|lia|vm_compute; discriminate|].
  exists (specs demo_ops empty_tree).1, w. destruct (readdir_refines w _ _ 1 Hr Hf) as (w1 & E1 & _); [unfold is_u32; lia|reflexivity|].
  destruct (fsck 3 demo_ops (specs demo_ops empty_tree).1 w w1 1 [(str "sub", 9)] (str "sub") 9) as ((w' & H1) & _).
  - reflexivity.
  - vm_compute. discriminate.
  - apply demo_ops_ok.
  - exact E.
  - unfold is_u32. lia.
  - reflexivity.
  - exact E1.
  - by left.
  - exists w'. split; [exact E|exact H1].
Defined.

End demo.

End file_system.
