(* ===== verification/YfsProgram.v ===== *)
(** * The file system operations as programs of lock and extent calls

    [YfsClient] runs an operation in one go against one world.  Here every
    operation is a tree: a call of the lock or extent client, and what the
    code does next for each reply.  Run in one go against any world such a
    program is the operation of [YfsClient]; run one call at a time it can
    be interleaved with the programs of other clients. *)

From Stdlib Require Import ZArith Lia Strings.Byte.
From stdpp Require Import base list gmap sets.
From S2P Require Import Prelude Marshall Extent LockServer Directory YfsClient Fuse FileSystem.

#[local] Open Scope Z_scope.

Module program.
Import yfs_client file_system.

(** ** Calls and programs *)

(** One call of lock_client_cache or extent_client. *)
Inductive event :=
| EAcquire (lid : Z)
| ERelease (lid : Z)
| EGet (id : Z)
| EPut (id : Z) (b : bytes)
| EGetattr (id : Z)
| ERemove (id : Z)
| EGetbuf (id n off : Z)
| EPutbuf (id off : Z) (b : bytes).

(** What a call returns: its status, the string it filled in, the size
    among the attributes. *)
Record reply := Reply { rstatus : Z; rdata : bytes; rsize : Z }.

Inductive prog :=
| Done (r : Z) (a : answer)
| Fail
| Do (e : event) (k : reply -> prog).

#[local] Notation "x '<~' e ; p" := (Do e (fun x => p)) (at level 100, e at next level, p at level 200, right associativity).
#[local] Notation "'call' e ; p" := (Do e (fun _ => p)) (at level 100, e at next level, p at level 200, right associativity).

(** ** The operations *)

Section operations.
Context `{!StringLimit}.

Definition found_inum (r i : Z) : answer := if (r =? OK) || (r =? EXIST) then Inum i else Nothing.

Definition dir_add_entry (parent : Z) (name : bytes) (entry_inum : Z) (isfile : bool) (rs : list Z) : prog :=
  l <~ EAcquire parent;
  if rstatus l =? lock_protocol.OK then
    e <~ EGet parent;
    let leave yfs_r i :=
      call ERelease parent;
      let r := stat2yfs yfs_r (rstatus e) (rstatus l) in Done r (found_inum r i) in
    if rstatus e =? extent_protocol.OK then
      let '(ifexist, tmpinum, _) := dir_find (rdata e) name 0 in
      if negb ifexist then
        match new_inum rs parent isfile with
        | None => Fail
        | Some tmpinum =>
            call EPut tmpinum [];
            call EPut parent (rdata e ++ entry_line name tmpinum ++ [nl]);
            leave OK tmpinum
        end
      else leave EXIST tmpinum
    else leave OK entry_inum
  else let r := stat2yfs OK extent_protocol.IOERR (rstatus l) in Done r (found_inum r entry_inum).

Definition remove (parent : Z) (name : bytes) : prog :=
  l <~ EAcquire parent;
  if rstatus l =? lock_protocol.OK then
    e <~ EGet parent;
    let leave yfs_r ext_r loc_r := call ERelease parent; Done (stat2yfs yfs_r ext_r loc_r) Nothing in
    if rstatus e =? extent_protocol.OK then
      match dir_find (rdata e) name 0 with
      | (true, findinum, Some at') =>
          l2 <~ EAcquire findinum;
          if rstatus l2 =? lock_protocol.OK then
            e2 <~ ERemove findinum;
            if rstatus e2 =? extent_protocol.OK then
              match string_erase (rdata e) at'.1 at'.2 with
              | Crash _ => Fail
              | Ret buf =>
                  call EPut parent buf;
                  call ERelease findinum;
                  leave OK (rstatus e2) (rstatus l2)
              end
            else call ERelease findinum; leave NOENT (rstatus e2) (rstatus l2)
          else leave IOERR extent_protocol.OK (rstatus l2)
      | _ => leave IOERR (rstatus e) (rstatus l)
      end
    else leave IOERR (rstatus e) (rstatus l)
  else Done (stat2yfs IOERR extent_protocol.IOERR (rstatus l)) Nothing.

Definition lookup (parent : Z) (name : bytes) (findinum : Z) : prog :=
  l <~ EAcquire parent;
  if rstatus l =? lock_protocol.OK then
    e <~ EGet parent;
    let '(yfs_r, findinum) :=
      if rstatus e =? extent_protocol.OK then
        let '(found, findinum, _) := dir_find (rdata e) name findinum in
        (if found : bool then OK else NOENT, findinum)
      else (NOENT, findinum) in
    call ERelease parent;
    let r := stat2yfs yfs_r (rstatus e) (rstatus l) in Done r (found_inum r findinum)
  else let r := stat2yfs NOENT extent_protocol.IOERR (rstatus l) in Done r (found_inum r findinum).

Definition readir (parent : Z) : prog :=
  e <~ EGet parent;
  let '(yfs_r, l) :=
    if rstatus e =? extent_protocol.OK then (OK, readir_lines (lines (rdata e)) 0) else (NOENT, []) in
  let r := stat2yfs yfs_r (rstatus e) lock_protocol.OK in
  Done r (if r =? OK then Entries ((fun x => (name x, inum x)) <$> l) else Nothing).

Definition resize (target new_size : Z) : prog :=
  l <~ EAcquire target;
  if rstatus l =? lock_protocol.OK then
    e <~ EGet target;
    if rstatus e =? extent_protocol.OK then
      match string_resize new_size (rdata e) with
      | Crash _ => Fail
      | Ret buf =>
          call EPut target buf;
          call ERelease target;
          Done (stat2yfs OK (rstatus e) (rstatus l)) Nothing
      end
    else
      call ERelease target;
      Done (stat2yfs NOENT (rstatus e) (rstatus l)) Nothing
  else Done (stat2yfs NOENT extent_protocol.IOERR (rstatus l)) Nothing.

Definition read (target size offset : Z) : prog :=
  e <~ EGetbuf target size (u32 offset);
  if rstatus e =? extent_protocol.OK then Done OK (Data (rdata e))
  else Done (rstatus e) Nothing.

Definition write (target : Z) (buf : bytes) (offset wrtb : Z) : prog :=
  l <~ EAcquire target;
  let finish yfs_r ext_r n :=
    let r := stat2yfs yfs_r ext_r (rstatus l) in Done r (if r =? OK then Size n else Nothing) in
  if rstatus l =? lock_protocol.OK then
    e <~ EPutbuf target (u32 offset) buf;
    let '(yfs_r, wrtb) :=
      if rstatus e =? extent_protocol.OK then (OK, u32 (lenZ buf)) else (NOENT, wrtb) in
    call ERelease target;
    finish yfs_r (rstatus e) wrtb
  else finish NOENT extent_protocol.IOERR wrtb.

Definition getfile (inum : Z) : prog :=
  l <~ EAcquire inum;
  if rstatus l =? lock_protocol.OK then
    e <~ EGetattr inum;
    if negb (rstatus e =? extent_protocol.OK) then call ERelease inum; Done IOERR Nothing
    else call ERelease inum; Done OK (Size (rsize e))
  else Done IOERR Nothing.

Definition getdir (inum : Z) : prog :=
  l <~ EAcquire inum;
  if rstatus l =? lock_protocol.OK then
    e <~ EGetattr inum;
    if negb (rstatus e =? extent_protocol.OK) then call ERelease inum; Done IOERR Nothing
    else call ERelease inum; Done OK Nothing
  else Done IOERR Nothing.

Definition prog_of (o : op) : prog :=
  match o with
  | Create p n rs => dir_add_entry p n 0 true rs
  | Mkdir p n rs => dir_add_entry p n 0 false rs
  | Remove p n => remove p n
  | Lookup p n => lookup p n 0
  | Readdir d => readir d
  | Read t n off => read t n off
  | Write t b off => write t b off 0
  | Resize t n => resize t n
  | Getfile i => getfile i
  | Getdir i => getdir i
  end.

End operations.

(** ** Running a program in one go *)

Section interp.
Context {W : Type} `{!StringLimit, !ExtentClient W, !LockClient W}.

(** One call on the world. *)
Definition exec (e : event) (w : W) : reply * W :=
  match e with
  | EAcquire lid => let '(s, w) := lc_acquire lid w in (Reply s [] 0, w)
  | ERelease lid => let '(s, w) := lc_release lid w in (Reply s [] 0, w)
  | EGet id => let '(s, b, w) := ec_get id w in (Reply s b 0, w)
  | EPut id b => let '(s, w) := ec_put id b w in (Reply s [] 0, w)
  | EGetattr id => let '(s, a, w) := ec_getattr id w in (Reply s [] (extent_protocol.size a), w)
  | ERemove id => let '(s, w) := ec_remove id w in (Reply s [] 0, w)
  | EGetbuf id n off => let '(s, b, w) := ec_getbuf id n off w in (Reply s b 0, w)
  | EPutbuf id off b => let '(s, w) := ec_putbuf id off b w in (Reply s [] 0, w)
  end.

(** [None] where the operation has no outcome. *)
Fixpoint interp (p : prog) (w : W) : option (Z * answer * W) :=
  match p with
  | Done r a => Some (r, a, w)
  | Fail => None
  | Do e k => let '(rep, w) := exec e w in interp (k rep) w
  end.

(** Follow the calls of both sides. *)
Ltac follow :=
  repeat (cbn [interp exec rstatus rdata rsize f_size fst snd mbind res_bind option_bind fmap option_fmap option_map with_inum negb];
    match goal with
    | |- ?x = ?x => reflexivity
    | |- context [interp (if ?b then _ else _)] => destruct b eqn:?
    | |- context [interp (match (if ?b then _ else _) with _ => _ end)] => destruct b eqn:?
    | |- context [dir_find ?b ?n ?i] => destruct (dir_find b n i) as [[[] ?] [?|]]
    | |- context [new_inum ?rs ?p ?f] => destruct (new_inum rs p f)
    | |- context [string_erase ?b ?x ?y] => destruct (string_erase b x y)
    | |- context [string_resize ?n ?b] => destruct (string_resize n b)
    | |- context [lc_acquire ?i ?w] => destruct (lc_acquire i w) as [? ?]
    | |- context [lc_release ?i ?w] => destruct (lc_release i w) as [? ?]
    | |- context [ec_get ?i ?w] => destruct (ec_get i w) as [[? ?] ?]
    | |- context [ec_put ?i ?b ?w] => destruct (ec_put i b w) as [? ?]
    | |- context [ec_getattr ?i ?w] => destruct (ec_getattr i w) as [[? ?] ?]
    | |- context [ec_remove ?i ?w] => destruct (ec_remove i w) as [? ?]
    | |- context [ec_getbuf ?i ?n ?o ?w] => destruct (ec_getbuf i n o w) as [[? ?] ?]
    | |- context [ec_putbuf ?i ?o ?b ?w] => destruct (ec_putbuf i o b w) as [? ?]
    | |- context [if ?b then _ else _] => destruct b eqn:?
    end).

(** The operation of [YfsClient], in the shape of its answers. *)
Lemma interp_perform o w : interp (prog_of o) w = perform o w.
Proof.
  destruct o; cbn [prog_of perform]; unfold create, mkadir, yfs_client.dir_add_entry, dir_add_entry, yfs_client.remove, remove,
    yfs_client.remove_entry, yfs_client.lookup, lookup, yfs_client.readir, readir, yfs_client.read, read, yfs_client.write,
    write, yfs_client.resize, resize, yfs_client.getfile, getfile, yfs_client.getdir, getdir, found_inum; follow;
    exfalso; unfold IOERR, OK, extent_protocol.OK in *; first [discriminate|congruence].
Qed.

End interp.
End program.
