(* ===== verification/Concurrent.v ===== *)
(** * Clients of yfs_client at the same time

    Any number of clients run the programs of [YfsProgram] against one
    extent server and one lock service, the calls of one interleaved with
    the calls of the others.  What they are answered is what an atomic file
    system answers: between its call and its return every operation takes
    effect in one step on the abstract tree of [FileSystem]. *)

From Stdlib Require Import ZArith Lia Strings.Byte.
From stdpp Require Import base list gmap sets fin_maps fin_map_dom.
From S2P Require Import Prelude Marshall Extent LockServer Directory YfsClient Fuse FileSystem YfsProgram.

#[local] Open Scope Z_scope.
#[local] Set Warnings "-clear-no-such-hyp,-register-all".

Module concurrent.
Import yfs_client file_system program.
Abbreviation key := extent_server.key.

(** ** The services as one client sees them *)

(** The extents and the locks held. *)
Record store := Store { sfiles : gmap Z bytes; slocks : gset Z }.

Definition odata (o : extent_server.observation) : bytes :=
  match o with extent_server.OData b => b | _ => [] end.
Definition osize (o : extent_server.observation) : Z :=
  match o with extent_server.OSize n => n | _ => 0 end.

(** One request to the extent server. *)
Definition serve (r : extent_server.request) (w : store) : Z * extent_server.observation * store :=
  let '(s, o, fl) := extent_server.spec r (sfiles w) in (s, o, Store fl (slocks w)).

#[export] Instance store_extent : ExtentClient store := {|
  ec_get id w := let '(s, o, w) := serve (extent_server.Get id 0) w in (s, odata o, w);
  ec_put id b w := let '(s, _, w) := serve (extent_server.Put id b 0) w in (s, w);
  ec_getattr id w :=
    let '(s, o, w) := serve (extent_server.Getattr id) w in (s, extent_protocol.Attr 0 0 0 (osize o), w);
  ec_remove id w := let '(s, _, w) := serve (extent_server.Remove id) w in (s, w);
  ec_getbuf id n off w := let '(s, o, w) := serve (extent_server.Getbuf id n off 0) w in (s, odata o, w);
  ec_putbuf id off b w := let '(s, _, w) := serve (extent_server.Putbuf id off b 0) w in (s, w)
|}.

#[export] Instance store_locks : LockClient store := {|
  lc_acquire lid w := (lock_protocol.OK, Store (sfiles w) ({[ lid ]} ∪ slocks w));
  lc_release lid w := (if decide (lid ∈ slocks w) then lock_protocol.OK else lock_protocol.NOENT,
                       Store (sfiles w) (slocks w ∖ {[ lid ]}))
|}.

(** ** The clients together *)

(** The extent server's contents, who holds each lock, and what each
    running operation still has to do. *)
Record cstate := CState { shared : gmap Z bytes; owner : gmap Z nat; running : gmap nat (op * prog) }.

(** What a schedule picks: a client calls an operation, or does the next
    step of the one it runs. *)
Inductive choice := Invoke (t : nat) (o : op) | Step (t : nat).

(** What can be seen from outside. *)
Inductive label := Call (t : nat) (o : op) | Return (t : nat) (r : Z) (a : answer).

Section machine.
Context `{!StringLimit}.

(** One call of client [t].  The lock service is a table of owners: acquire
    waits for the lock to be free.  A put replaces what is stored, whoever
    stored it. *)
Definition advance (c : cstate) (t : nat) (o : op) (e : event) (k : reply -> prog) : option cstate :=
  let next sh ow rep := CState sh ow (<[t := (o, k rep)]> (running c)) in
  let request := let '(rep, w) := exec e (Store (shared c) ∅) in next (sfiles w) (owner c) rep in
  match e with
  | EAcquire x =>
      match owner c !! x with
      | None => Some (next (shared c) (<[x := t]> (owner c)) (Reply lock_protocol.OK [] 0))
      | Some _ => None
      end
  | ERelease x =>
      if decide (owner c !! x = Some t)
      then Some (next (shared c) (delete x (owner c)) (Reply lock_protocol.OK [] 0))
      else Some (next (shared c) (owner c) (Reply lock_protocol.NOENT [] 0))
  | _ => Some request
  end.

Definition cstep (ch : choice) (c : cstate) : option (cstate * list label) :=
  match ch with
  | Invoke t o =>
      match running c !! t with
      | None => Some (CState (shared c) (owner c) (<[t := (o, prog_of o)]> (running c)), [Call t o])
      | Some _ => None
      end
  | Step t =>
      match running c !! t with
      | Some (o, Done r a) => Some (CState (shared c) (owner c) (delete t (running c)), [Return t r a])
      | Some (o, Do e k) => (fun c' => (c', [])) <$> advance c t o e k
      | _ => None
      end
  end.

Fixpoint crun (chs : list choice) (c : cstate) : option (cstate * list label) :=
  match chs with
  | [] => Some (c, [])
  | ch :: chs => '(c, ls) ← cstep ch c; '(c, ls') ← crun chs c; Some (c, ls ++ ls')
  end.

(** The number random() gives a new entry. *)
Definition new_number (o : op) : option Z :=
  match o with Create p _ rs => new_inum rs p true | Mkdir p _ rs => new_inum rs p false | _ => None end.

(** A step that stores a new entry stores it under a number that is not in
    use; create and mkdir do not look. *)
Definition fresh_step (ch : choice) (c : cstate) : bool :=
  match ch with
  | Step t =>
      match running c !! t with
      | Some (o, Do (EPut x _) _) => bool_decide (new_number o <> Some x) || bool_decide (shared c !! key x = None)
      | _ => true
      end
  | Invoke _ _ => true
  end.

Fixpoint fresh_numbers (chs : list choice) (c : cstate) : bool :=
  match chs with
  | [] => true
  | ch :: chs => fresh_step ch c && match cstep ch c with Some (c, _) => fresh_numbers chs c | None => true end
  end.

End machine.

(** ** The atomic file system *)

(** The tree, and of each running operation whether it has taken effect. *)
Record astate := AState { afs : tree; athreads : gmap nat (op + Z * answer) }.

Inductive achoice := AInvoke (t : nat) (o : op) | ACommit (t : nat) | AReturn (t : nat).

Definition astep (ch : achoice) (a : astate) : option (astate * list label) :=
  match ch with
  | AInvoke t o =>
      match athreads a !! t with
      | None => Some (AState (afs a) (<[t := inl o]> (athreads a)), [Call t o])
      | Some _ => None
      end
  | ACommit t =>
      match athreads a !! t with
      | Some (inl o) => let '(ra, fs) := spec o (afs a) in Some (AState fs (<[t := inr ra]> (athreads a)), [])
      | _ => None
      end
  | AReturn t =>
      match athreads a !! t with
      | Some (inr (r, x)) => Some (AState (afs a) (delete t (athreads a)), [Return t r x])
      | _ => None
      end
  end.

Fixpoint arun (chs : list achoice) (a : astate) : option (astate * list label) :=
  match chs with
  | [] => Some (a, [])
  | ch :: chs => '(a, ls) ← astep ch a; '(a, ls') ← arun chs a; Some (a, ls ++ ls')
  end.

(** ** The store keeps the promises of the services *)

Section backend.
Context `{!StringLimit}.

Definition store_good (w : store) : Prop := forall k b, sfiles w !! k = Some b -> lenZ b <= max_size.

Lemma good_insert k b fl locks locks' :
  store_good (Store fl locks) -> lenZ b <= max_size -> store_good (Store (<[k := b]> fl) locks').
Proof. intros Hg Hb k' b'. cbn. rewrite lookup_insert_Some. intros [[_ <-]|[_ Hk]]; [done|by eapply Hg]. Qed.

Lemma good_delete k fl locks locks' : store_good (Store fl locks) -> store_good (Store (delete k fl) locks').
Proof. intros Hg k' b'. cbn. rewrite lookup_delete_Some. intros [_ Hk]. by eapply Hg. Qed.

#[export] Program Instance store_backend : Backend store := {|
  files := sfiles;
  held := slocks;
  good := store_good
|}.
Next Obligation. intros w k b Hg Hk. by eapply Hg. Qed.
Next Obligation. intros w lid Hg Hl. eexists. done. Qed.
Next Obligation. intros w lid Hg Hl. eexists _, _. done. Qed.
Next Obligation.
  intros [fl L] id Hg. cbn. unfold serve. cbn. destruct (fl !! extent_server.key id); eexists _, _, _; split_and!; done.
Qed.
Next Obligation.
  intros [fl L] id b Hg Hb. cbn. eexists _, _. split_and!; try done. by eapply good_insert.
Qed.
Next Obligation.
  intros [fl L] id Hg. cbn. unfold serve. cbn. destruct (fl !! extent_server.key id); eexists _, _, _; split_and!; done.
Qed.
Next Obligation.
  intros [fl L] id Hg. cbn. unfold serve. cbn. destruct (fl !! extent_server.key id) eqn:E; eexists _, _; split_and!; try done.
  by eapply good_delete.
Qed.
Next Obligation.
  intros [fl L] id n off Hg Hn Ho. cbn. unfold serve. cbn. destruct (fl !! extent_server.key id) as [b|];
    [destruct (off <? lenZ b)|]; eexists _, _, _; split_and!; done.
Qed.
Next Obligation.
  intros [fl L] id off b Hg Ho Hb. cbn. unfold serve. cbn. destruct (fl !! extent_server.key id) as [s|] eqn:E;
    eexists _, _; split_and!; try done. eapply good_insert; [done|].
  pose proof (Hg _ _ E). unfold is_u32 in Ho. rewrite extent_server.length_write_at. lia.
Qed.

End backend.
(** ** What a request touches *)

(** The number a request is about. *)
Definition touches (e : event) : option Z :=
  match e with
  | EAcquire _ | ERelease _ => None
  | EGet x | EPut x _ | EGetattr x | ERemove x | EGetbuf x _ _ | EPutbuf x _ _ => Some x
  end.

(** A request reads and replaces what is stored under one key. *)
Definition local (e : event) (ob : option bytes) : reply * option bytes :=
  match e with
  | EAcquire _ | ERelease _ => (Reply 0 [] 0, ob)
  | EGet _ =>
      (match ob with Some b => Reply extent_protocol.OK b 0 | None => Reply extent_protocol.NOENT [] 0 end, ob)
  | EPut _ b => (Reply extent_protocol.OK [] 0, Some b)
  | EGetattr _ =>
      (match ob with Some b => Reply extent_protocol.OK [] (lenZ b) | None => Reply extent_protocol.NOENT [] 0 end, ob)
  | ERemove _ =>
      (match ob with Some _ => Reply extent_protocol.OK [] 0 | None => Reply extent_protocol.NOENT [] 0 end, None)
  | EGetbuf _ n off =>
      (match ob with
       | Some b =>
           if off <? lenZ b then Reply extent_protocol.OK (extent_server.read_at b (Z.to_nat off) (Z.to_nat n)) 0
           else Reply extent_protocol.IOERR [] 0
       | None => Reply extent_protocol.NOENT [] 0
       end, ob)
  | EPutbuf _ off b =>
      match ob with
      | Some s => (Reply extent_protocol.OK [] 0, Some (extent_server.write_at s (Z.to_nat off) b))
      | None => (Reply extent_protocol.NOENT [] 0, None)
      end
  end.

Definition set_key (k : Z) (ob : option bytes) (fl : gmap Z bytes) : gmap Z bytes := partial_alter (fun _ => ob) k fl.

Lemma set_key_eq k ob fl : set_key k ob fl !! k = ob.
Proof. apply lookup_partial_alter_eq. Qed.

Lemma set_key_ne k k' ob fl : k <> k' -> set_key k ob fl !! k' = fl !! k'.
Proof. intros Hk. by apply lookup_partial_alter_ne. Qed.

Lemma set_key_same k fl : set_key k (fl !! k) fl = fl.
Proof. apply partial_alter_self. Qed.

Section programs.
Context `{!StringLimit}.

Lemma exec_local e x fl L :
  touches e = Some x ->
  exec e (Store fl L) = ((local e (fl !! key x)).1, Store (set_key (key x) (local e (fl !! key x)).2 fl) L).
Proof.
  destruct e as [y|y|y|y b|y|y|y n off|y off b]; intros [= ->]; cbn; unfold serve; cbn; destruct (fl !! key x) as [s|] eqn:E;
    cbn; try (rewrite <- E, set_key_same; done); try done;
    try (destruct (off <? lenZ s); cbn; rewrite <- E, set_key_same; done).
Qed.

(** *** Before an operation takes effect *)

(** Where an operation may stand that has only taken locks and read
    extents it holds the lock of: [L] the locks, [R] the extents read and
    what was in them. *)
Inductive replay (fl : gmap Z bytes) (p0 : prog) : gset Z -> list (Z * bytes) -> prog -> Prop :=
| replay_start : replay fl p0 ∅ [] p0
| replay_acquire L R x k :
    replay fl p0 L R (Do (EAcquire x) k) -> x ∉ L ->
    replay fl p0 ({[ x ]} ∪ L) R (k (Reply lock_protocol.OK [] 0))
| replay_get L R x b k :
    replay fl p0 L R (Do (EGet x) k) -> x ∈ L -> fl !! key x = Some b ->
    replay fl p0 L ((x, b) :: R) (k (Reply extent_protocol.OK b 0)).

(** Run in one go the operation gets to the same place. *)
Lemma replay_interp fl p0 L R p : replay fl p0 L R p -> interp p0 (Store fl ∅) = interp p (Store fl L).
Proof.
  induction 1 as [|L R x k _ IH Hx|L R x b k _ IH Hx Hb]; [done| |].
  - by rewrite IH.
  - rewrite IH. cbn [interp]. rewrite (exec_local _ x) by done. cbn. rewrite Hb. cbn. rewrite <- Hb at 1.
    by rewrite set_key_same.
Qed.

Lemma replay_read fl p0 L R p x b : replay fl p0 L R p -> (x, b) ∈ R -> x ∈ L /\ fl !! key x = Some b.
Proof.
  induction 1 as [|L R y k _ IH Hy|L R y b' k _ IH Hy Hb]; [by intros ?%elem_of_nil| |].
  - intros Hx. destruct (IH Hx). set_solver.
  - rewrite elem_of_cons. intros [[= -> ->]|Hx]; auto.
Qed.

(** Other extents may change. *)
Lemma replay_frame fl fl' p0 L R p :
  (forall x, x ∈ L -> is_Some (fl !! key x) -> fl' !! key x = fl !! key x) ->
  replay fl p0 L R p -> replay fl' p0 L R p.
Proof.
  intros Hfl Hr. induction Hr as [|L R x k _ IH Hx|L R x b k _ IH Hx Hb]; [constructor| |].
  - constructor; [|done]. apply IH. set_solver.
  - constructor; [by apply IH|done|]. rewrite Hfl; eauto.
Qed.

(** *** After it has *)

(** What is left: perhaps a put of a directory, then locks to release. *)
Fixpoint releases (ls : list Z) (r : Z) (a : answer) : prog :=
  match ls with [] => Done r a | x :: ls => Do (ERelease x) (fun _ => releases ls r a) end.

Definition rest (m : option (Z * bytes)) (ls : list Z) (r : Z) (a : answer) : prog :=
  match m with None => releases ls r a | Some (y, b) => Do (EPut y b) (fun _ => releases ls r a) end.

Definition apply_put (m : option (Z * bytes)) (fl : gmap Z bytes) : gmap Z bytes :=
  match m with None => fl | Some (y, b) => <[key y := b]> fl end.

Lemma interp_releases ls r a fl L :
  interp (releases ls r a) (Store fl L) = Some (r, a, Store fl (L ∖ list_to_set ls)).
Proof.
  revert L. induction ls as [|x ls IH]; intros L; cbn [releases interp list_to_set].
  - by rewrite difference_empty_L.
  - cbn. rewrite IH. by rewrite difference_difference_l_L.
Qed.

Lemma interp_rest m ls r a fl L :
  interp (rest m ls r a) (Store fl L) = Some (r, a, Store (apply_put m fl) (L ∖ list_to_set ls)).
Proof. destruct m as [[y b]|]; cbn [rest interp]; [cbn|]; apply interp_releases. Qed.

(** *** The discipline of the programs *)

Definition creates (o : op) : bool := match o with Create _ _ _ | Mkdir _ _ _ => true | _ => false end.

(** What follows the request [e] with which [o] takes effect: a directory
    that is put has been read and not removed; an entry is added when the
    request stores the new node. *)
Definition settled (o : op) (e : event) (L : gset Z) (R : list (Z * bytes)) (p : prog) : Prop :=
  exists m ls r a, p = rest m ls r a /\ NoDup ls /\ list_to_set ls = L /\
    (forall y b, m = Some (y, b) -> y ∈ R.*1 /\ isfile y = false /\ e <> ERemove y) /\
    (creates o = true -> r = OK -> exists i, e = EPut i [] /\ new_number o = Some i /\ i ∉ L).

(** The lock an operation asks for: its first, or that of what it found
    in the one directory it holds. *)
Definition next_lock (L : gset Z) (R : list (Z * bytes)) (x : Z) : Prop :=
  (L = ∅ /\ is_u32 x) \/
  exists p b n at', L = {[ p ]} /\ isfile p = false /\ (p, b) ∈ R /\ dir_find b n 0 = (true, x, at').

(** Requests with which an operation may take effect: about an extent
    whose lock is held, of a new number, or a part of a file; what it puts
    fits into a string. *)
Definition commits (o : op) (L : gset Z) (e : event) : Prop :=
  match e with
  | EGetattr x | ERemove x => x ∈ L
  | EPutbuf x off b => x ∈ L /\ 0 <= off /\ off + lenZ b <= max_size
  | EPut x b => (x ∈ L /\ lenZ b <= max_size) \/ (b = [] /\ new_number o = Some x)
  | EGetbuf x n off => is_u32 x /\ isfile x = true /\ is_u32 n /\ is_u32 off
  | _ => False
  end.

(** Locks first, then reads of what is locked, up to the request with
    which the operation takes effect. *)
Inductive disc (o : op) : gset Z -> list (Z * bytes) -> prog -> Prop :=
| disc_fail L R : disc o L R Fail
| disc_acquire L R x k :
    next_lock L R x -> (x ∉ L -> disc o ({[ x ]} ∪ L) R (k (Reply lock_protocol.OK [] 0))) ->
    disc o L R (Do (EAcquire x) k)
| disc_get L R x k :
    x ∈ L ->
    (forall rep, settled o (EGet x) L R (k rep) \/
       (rstatus rep = extent_protocol.OK /\ disc o L ((x, rdata rep) :: R) (k rep))) ->
    disc o L R (Do (EGet x) k)
| disc_commit L R e k :
    commits o L e -> (forall rep, settled o e L R (k rep) \/ k rep = Fail) -> disc o L R (Do e k).

Lemma settled_one o e x R r a :
  (creates o = true -> r <> OK) -> settled o e ({[ x ]}) R (Do (ERelease x) (fun _ => Done r a)).
Proof.
  intros Hc. exists None, [x], r, a. split; [done|]. split; [apply NoDup_singleton|]. split; [set_solver|].
  split; [done|]. intros H1 H2. by destruct (Hc H1).
Qed.

Lemma add_disc o p n isf rs :
  is_u32 p -> isfile p = false -> new_number o = new_inum rs p isf -> Forall (fun r => 0 <= r < 2 ^ 31) rs ->
  disc o ∅ [] (dir_add_entry p n 0 isf rs).
Proof.
  intros Hp Hk Hn Hrs. constructor; [by left|]. rewrite union_empty_r_L. intros _. cbn [rstatus]. apply disc_get; [set_solver|].
  intros [st buf sz]. cbn [rstatus rdata] in *. destruct (Z.eqb_spec st extent_protocol.OK) as [->|Hst].
  - destruct (dir_find buf n 0) as [[[] i] at']; cbn [negb].
    + left. by apply settled_one.
    + right. split; [done|]. destruct (new_inum rs p isf) as [i'|] eqn:Ei; [|constructor].
      destruct (new_inum_some rs p isf i' Hrs Ei) as (Hip & _). apply disc_commit; [right; split; [done|congruence]|]. intros rep. left.
      eexists (Some (p, _)), [p], _, _. split; [done|]. split; [apply NoDup_singleton|]. split; [set_solver|]. split.
      * intros y b [= <- _]. split; [by left|]. done.
      * intros _ _. exists i'. split; [done|]. split; [congruence|]. set_solver.
  - left. apply settled_one. intros _. unfold stat2yfs. cbn. apply Z.eqb_neq in Hst. rewrite Hst. cbn. by apply Z.eqb_neq.
Qed.

Lemma remove_disc p n : is_u32 p -> isfile p = false -> disc (Remove p n) ∅ [] (remove p n).
Proof.
  intros Hp Hk. constructor; [by left|]. rewrite union_empty_r_L. intros _. cbn [rstatus]. apply disc_get; [set_solver|].
  intros [st buf sz]. cbn [rstatus rdata] in *. destruct (Z.eqb_spec st extent_protocol.OK) as [->|Hst];
    [|left; by apply settled_one].
  destruct (dir_find buf n 0) as [[[] i] [at'|]] eqn:Ed; try (left; by apply settled_one).
  right. split; [done|]. constructor; [right; exists p, buf, n, (Some at'); split_and!; try done; by left|]. intros Hi. cbn [rstatus]. apply disc_commit; [set_solver|].
  intros [st2 b2 sz2]. cbn [rstatus]. assert (Hip : i <> p) by set_solver.
  assert (Hl : forall m r, (forall y b, m = Some (y, b) -> y = p) ->
    settled (Remove p n) (ERemove i) ({[ i ]} ∪ {[ p ]}) [(p, buf)] (rest m [i; p] r Nothing)).
  { intros m r Hm. exists m, [i; p], r, Nothing. split; [done|]. split; [|split; [set_solver|]].
    - constructor; [by rewrite list_elem_of_singleton|apply NoDup_singleton].
    - split; [|done]. intros y b Hy. rewrite (Hm _ _ Hy). split; [by left|]. split; [done|congruence]. }
  destruct (Z.eqb_spec st2 extent_protocol.OK) as [->|Hst2].
  - destruct (string_erase buf at'.1 at'.2) as [buf'|]; [|by right]. left.
    eapply (Hl (Some (p, buf'))). by intros y b [= <- _].
  - left. by eapply (Hl None).
Qed.

(** All operations but readir, which takes no lock, follow it. *)
Lemma prog_disc o : op_ok ∅ o -> (forall d, o <> Readdir d) -> disc o ∅ [] (prog_of o).
Proof.
  destruct o as [p n rs|p n rs|p n|p n|d|t n off|t b off|t n|i|i]; cbn [op_ok prog_of]; intros Ho Hnd.
  - by apply add_disc; destruct Ho as (? & ? & ? & ? & _).
  - by apply add_disc; destruct Ho as (? & ? & ? & ? & _).
  - by apply remove_disc; destruct Ho.
  - destruct Ho as [Hp Hk]. constructor; [by left|]. rewrite union_empty_r_L. intros _. cbn [rstatus]. apply disc_get; [set_solver|].
    intros [st buf sz]. cbn [rstatus rdata]. left.
    destruct (st =? extent_protocol.OK); [destruct (dir_find buf n 0) as [[[] i] at']|]; by apply settled_one.
  - by destruct (Hnd d).
  - destruct Ho as (Ht & Hk & Hn & Hoff). apply disc_commit; [split_and!; try done; apply u32_range|]. intros [st buf sz]. cbn [rstatus rdata]. left.
    destruct (st =? extent_protocol.OK); eexists None, [], _, _; (split; [done|]); (split; [constructor|]); done.
  - destruct Ho as (Ht & Hk & Hoff). constructor; [by left|]. rewrite union_empty_r_L. intros _. cbn [rstatus].
    apply disc_commit; [split; [set_solver|]|intros [st buf sz]; cbn [rstatus]; left].
    { pose proof (u32_range off) as [? _]. pose proof (Z.mod_le off (2 ^ 32) ltac:(lia) ltac:(lia)). unfold u32 in *. lia. }
    destruct (st =? extent_protocol.OK); by apply settled_one.
  - destruct Ho as (Ht & Hk & Hn). constructor; [by left|]. rewrite union_empty_r_L. intros _. cbn [rstatus]. apply disc_get; [set_solver|].
    intros [st buf sz]. cbn [rstatus rdata]. destruct (Z.eqb_spec st extent_protocol.OK) as [->|];
      [|left; by apply settled_one].
    right. split; [done|]. destruct (string_resize n buf) as [buf'|] eqn:Eb; [|constructor].
    apply string_resize_length in Eb; [|lia]. apply disc_commit; [left; split; [set_solver|lia]|]. intros rep. left. by apply settled_one.
  - destruct Ho as [Hi Hk]. constructor; [by left|]. rewrite union_empty_r_L. intros _. cbn [rstatus]. apply disc_commit; [set_solver|].
    intros [st buf sz]. cbn [rstatus rsize]. left. destruct (st =? extent_protocol.OK); by apply settled_one.
  - destruct Ho as [Hi Hk]. constructor; [by left|]. rewrite union_empty_r_L. intros _. cbn [rstatus]. apply disc_commit; [set_solver|].
    intros [st buf sz]. cbn [rstatus rsize]. left. destruct (st =? extent_protocol.OK); by apply settled_one.
Qed.

End programs.
(** ** The simulation *)

(** The bytes the operations that have not taken effect may still add. *)
Definition may_add (x : op + Z * answer) : Z := match x with inl o => cost o | inr _ => 0 end.
Abbreviation waiting := (total may_add).

(** Where a running operation stands: it has taken locks and read extents,
    or it has taken effect and has this left to do. *)
Inductive phase :=
| Before (L : gset Z) (R : list (Z * bytes))
| After (m : option (Z * bytes)) (ls : list Z) (r : Z) (a : answer).

Definition held_by (ow : gmap Z nat) (t : nat) (L : gset Z) : Prop := forall x, x ∈ L <-> ow !! x = Some t.

Section simulation.
Context `{!StringLimit}.

(** [fl] are the extents as they will be when everything that has taken
    effect is written, [sh] those of the server. *)
Definition thread_ok (fl sh : gmap Z bytes) (ow : gmap Z nat) (t : nat)
    (th : option (op * prog)) (ph : option phase) (at' : option (op + Z * answer)) : Prop :=
  match th, ph, at' with
  | None, None, None => held_by ow t ∅
  | Some (o, p), Some (Before L R), Some (inl o') =>
      o' = o /\ op_ok ∅ o /\ replay fl (prog_of o) L R p /\ disc o L R p /\ held_by ow t L
  | Some (o, p), Some (After m ls r a), Some (inr ra) =>
      ra = (r, a) /\ p = rest m ls r a /\ NoDup ls /\ held_by ow t (list_to_set ls) /\
      forall y b, m = Some (y, b) ->
        ow !! y = Some t /\ isfile y = false /\ is_Some (sh !! key y) /\ fl !! key y = Some b
  | _, _, _ => False
  end.

(** Some operation has taken effect and must still put key [k]. *)
Definition unwritten (ph : gmap nat phase) (k : Z) : Prop :=
  exists t y b ls r a, ph !! t = Some (After (Some (y, b)) ls r a) /\ key y = k.

(** [B] bytes are left for calls to come. *)
Record sim (ph : gmap nat phase) (fl : gmap Z bytes) (used B : Z) (c : cstate) (a : astate) : Prop := Sim {
  s_threads : forall t, thread_ok fl (shared c) (owner c) t (running c !! t) (ph !! t) (athreads a !! t);
  s_locks : forall x t, owner c !! x = Some t -> is_u32 x;
  s_same : forall k, fl !! k = shared c !! k \/ unwritten ph k;
  s_rep : rep (Store fl ∅) (afs a) used;
  s_tree : tree_ok (afs a);
  s_used : 0 <= used;
  s_budget : used + waiting (athreads a) + B <= max_size
}.

Lemma thread_frame fl fl' sh sh' ow ow' t th ph at' :
  thread_ok fl sh ow t th ph at' ->
  (forall x, ow' !! x = Some t <-> ow !! x = Some t) ->
  (forall x, ow !! x = Some t -> is_Some (fl !! key x) -> fl' !! key x = fl !! key x) ->
  (forall x, ow !! x = Some t -> is_Some (sh !! key x) -> is_Some (sh' !! key x)) ->
  thread_ok fl' sh' ow' t th ph at'.
Proof.
  intros Hok How Hfl Hsh. assert (Hheld : forall L, held_by ow t L -> held_by ow' t L).
  { intros L HL x. by rewrite How. }
  destruct th as [[o p]|], ph as [[L R|m ls r a]|], at' as [[o'|ra]|]; cbn in *; try done; [| |by apply Hheld].
  - destruct Hok as (-> & Ho & Hr & Hd & HL). split_and!; try done; [|by apply Hheld].
    eapply replay_frame; [|done]. intros x Hx. apply Hfl. by apply HL.
  - destruct Hok as (-> & -> & Hn & HL & Hm). split_and!; try done; [by apply Hheld|].
    intros y b Hy. destruct (Hm y b Hy) as (H1 & H2 & H3 & H4). split_and!; [by apply How|done|auto|].
    rewrite Hfl; eauto.
Qed.

(** Locks of different operations guard different keys. *)
Lemma keys_apart ph fl used B c a x x' t t' :
  sim ph fl used B c a -> owner c !! x = Some t -> owner c !! x' = Some t' -> t <> t' -> key x <> key x'.
Proof.
  intros Hs Hx Hx' Hne. apply key_inj; [by eapply s_locks|by eapply s_locks|]. intros ->. congruence.
Qed.

Lemma unwritten_at ph fl used B c a k :
  sim ph fl used B c a -> unwritten ph k ->
  exists t y b m, ph !! t = Some m /\ (forall L R, m <> Before L R) /\ owner c !! y = Some t /\ key y = k /\
    isfile y = false /\ is_Some (shared c !! k) /\ fl !! k = Some b.
Proof.
  intros Hs (t & y & b & ls & r & x & Ht & Hk). pose proof (s_threads _ _ _ _ _ _ Hs t) as Hok. rewrite Ht in Hok.
  destruct (running c !! t) as [[o p]|], (athreads a !! t) as [[o'|ra]|]; cbn in Hok; try done.
  destruct Hok as (_ & _ & _ & _ & Hm). destruct (Hm y b eq_refl) as (H1 & H2 & H3 & H4). subst k.
  exists t, y, b, (After (Some (y, b)) ls r x). done.
Qed.

Lemma unwritten_insert ph t q k :
  (forall m ls r a, ph !! t = Some (After m ls r a) -> m = None) -> unwritten ph k -> unwritten (<[t := q]> ph) k.
Proof.
  intros Hq (t' & y & b & ls & r & x & Ht & Hk). exists t', y, b, ls, r, x. split; [|done].
  rewrite lookup_insert_ne; [done|]. intros <-. by apply Hq in Ht.
Qed.

(** The other operations are left alone. *)
Lemma sim_others ph fl fl' used B c a t sh' ow' th q at' :
  sim ph fl used B c a ->
  thread_ok fl' sh' ow' t (Some th) (Some q) (Some at') ->
  (forall x t', t' <> t -> ow' !! x = Some t' <-> owner c !! x = Some t') ->
  (forall x t', t' <> t -> owner c !! x = Some t' -> is_Some (fl !! key x) -> fl' !! key x = fl !! key x) ->
  (forall x t', t' <> t -> owner c !! x = Some t' -> is_Some (shared c !! key x) -> is_Some (sh' !! key x)) ->
  forall t', thread_ok fl' sh' ow' t' (<[t := th]> (running c) !! t') (<[t := q]> ph !! t')
               (<[t := at']> (athreads a) !! t').
Proof.
  intros Hs Ht How Hfl Hsh t'. destruct (decide (t = t')) as [<-|Hne]; [by rewrite !lookup_insert_eq|].
  rewrite !lookup_insert_ne by done. eapply thread_frame; [apply (s_threads _ _ _ _ _ _ Hs)|..]; intros x; eauto.
Qed.

Lemma sim_invoke ph fl used B c a t o :
  sim ph fl used (cost o + B) c a -> running c !! t = None -> op_ok ∅ o -> (forall d, o <> Readdir d) ->
  exists a', astep (AInvoke t o) a = Some (a', [Call t o]) /\
    sim (<[t := Before ∅ []]> ph) fl used B (CState (shared c) (owner c) (<[t := (o, prog_of o)]> (running c))) a'.
Proof.
  intros Hs Ht Ho Hd. pose proof (s_threads _ _ _ _ _ _ Hs t) as Hok. rewrite Ht in Hok.
  destruct (ph !! t) as [[]|] eqn:Eph, (athreads a !! t) as [[]|] eqn:Eat; cbn in Hok; try done.
  eexists. cbn [astep]. rewrite Eat. split; [done|]. destruct Hs as [H1 H2 H3 H4 H5 H6 H7] eqn:Es; clear Es. split; cbn; try done.
  - eapply sim_others; [done| |done|done|done]. cbn. split_and!; try done; [constructor|by apply prog_disc].
  - intros k. destruct (H3 k) as [?|Hu]; [by left|right]. apply unwritten_insert; [|done]. by rewrite Eph.
  - rewrite total_insert by done. cbn [may_add]. lia.
Qed.

Lemma sim_return ph fl used B c a t o r x :
  sim ph fl used B c a -> running c !! t = Some (o, Done r x) ->
  exists a', astep (AReturn t) a = Some (a', [Return t r x]) /\
    sim (delete t ph) fl used B (CState (shared c) (owner c) (delete t (running c))) a'.
Proof.
  intros Hs Ht. pose proof (s_threads _ _ _ _ _ _ Hs t) as Hok. rewrite Ht in Hok.
  destruct (ph !! t) as [[L R|m ls r' x']|] eqn:Eph, (athreads a !! t) as [[o'|ra]|] eqn:Eat; cbn in Hok; try done.
  { destruct Hok as (_ & _ & _ & Hd & _). inversion Hd. }
  destruct Hok as (-> & Hp & _ & HL & _). destruct m as [[]|]; [done|]. destruct ls; [|done]. injection Hp as <- <-.
  eexists. cbn [astep]. rewrite Eat. split; [done|]. destruct Hs as [H1 H2 H3 H4 H5 H6 H7]. split; cbn; try done.
  - intros t'. destruct (decide (t = t')) as [<-|Hne]; [by rewrite !lookup_delete_eq|]. rewrite !lookup_delete_ne by done.
    apply H1.
  - intros k. destruct (H3 k) as [?|(t' & y & b & ls & r' & x' & Hu & Hk)]; [by left|right].
    exists t', y, b, ls, r', x'. split; [|done]. rewrite lookup_delete_ne; [done|congruence].
  - rewrite (total_delete _ _ _ _ Eat) in H7. cbn [may_add] in H7. lia.
Qed.

(** A step that leaves the atomic file system where it is. *)
Lemma sim_quiet ph fl used B c a t q sh' ow' th at' :
  sim ph fl used B c a -> athreads a !! t = Some at' ->
  thread_ok fl sh' ow' t (Some th) (Some q) (Some at') ->
  (forall x t', t' <> t -> ow' !! x = Some t' <-> owner c !! x = Some t') ->
  (forall x t', t' <> t -> owner c !! x = Some t' -> is_Some (shared c !! key x) -> is_Some (sh' !! key x)) ->
  (forall x, ow' !! x = Some t -> is_u32 x) ->
  (forall k, fl !! k = sh' !! k \/ unwritten (<[t := q]> ph) k) ->
  sim (<[t := q]> ph) fl used B (CState sh' ow' (<[t := th]> (running c))) a.
Proof.
  intros Hs Ht Hok How Hsh Hu Hsame. assert (Ha : <[t := at']> (athreads a) = athreads a) by (by apply insert_id).
  split; cbn; try apply Hs.
  - rewrite <- Ha. by eapply sim_others.
  - intros x t' Hx. destruct (decide (t' = t)) as [->|Hne]; [by apply Hu|]. eapply s_locks; [done|]. by apply How.
  - done.
Qed.

(** What a waiting operation has locked is as the server has it. *)
Lemma same_locked ph fl used B c a t x L R :
  sim ph fl used B c a -> ph !! t = Some (Before L R) -> owner c !! x = Some t -> fl !! key x = shared c !! key x.
Proof.
  intros Hs Hph Hx. destruct (s_same _ _ _ _ _ _ Hs (key x)) as [?|Hu]; [done|exfalso].
  destruct (unwritten_at _ _ _ _ _ _ _ Hs Hu) as (t' & y & b & m & Hm & Hnb & Hy & Hk & _).
  eapply (keys_apart _ _ _ _ _ _ y x t' t Hs); [done|done| |done]. intros ->. rewrite Hph in Hm. injection Hm as <-.
  by destruct (Hnb L R).
Qed.

Section bounded.
Context (Hmax : max_size < 2 ^ 31).

(** A number found in a directory is that of an entry. *)
Lemma rep_found fl fs used p b n i at' :
  rep (Store fl ∅) fs used -> tree_ok fs -> used <= max_size -> is_u32 p -> isfile p = false -> fl !! key p = Some b ->
  dir_find b n 0 = (true, i, at') -> exists es, fs !! p = Some (Dir es) /\ (n, i) ∈ es.
Proof.
  intros Hr Hf Hu Hx Hk Hb Hd. destruct (dir_cases fs p Hf Hk) as [[es He]|He].
  - destruct (rep_dir _ _ _ _ _ Hr Hx He) as (slots & Hs & Hok & Hl & Hlen). cbn in Hs. rewrite Hb in Hs. injection Hs as ->.
    pose proof (dir_find_enc slots n 0 Hok ltac:(lia)) as Hfind. pose proof (find_slot_live n slots) as Hlive.
    destruct (find_slot n slots) as [[k j]|]; [|destruct Hfind as [? Hfind]; by rewrite Hd in Hfind].
    destruct Hfind as [Hfind _]. rewrite Hd in Hfind. injection Hfind as -> _. rewrite Hl in Hlive.
    exists es. split; [done|]. by apply find_entry_elem.
  - pose proof (rep_none _ _ _ _ Hr Hx He) as Hn. cbn in Hn. congruence.
Qed.

Lemma waiting_pos (ths : gmap nat (op + Z * answer)) : 0 <= waiting ths.
Proof. apply total_pos. intros t [o|] _; cbn; [apply cost_pos|done]. Qed.

Lemma sim_bound ph fl used B c a : sim ph fl used B c a -> 0 <= B -> used <= max_size.
Proof. intros Hs HB. pose proof (s_budget _ _ _ _ _ _ Hs). pose proof (waiting_pos (athreads a)). lia. Qed.

(** What an operation that holds a directory found there is an entry. *)
Lemma next_lock_entry ph fl used B c a p0 t L R p x :
  sim ph fl used B c a -> 0 <= B -> held_by (owner c) t L -> replay fl p0 L R p -> next_lock L R x ->
  (L = ∅ /\ is_u32 x) \/ exists d es n, L = {[ d ]} /\ afs a !! d = Some (Dir es) /\ (n, x) ∈ es.
Proof.
  intros Hs HB HL Hr [?|(d & b & n & at' & -> & Hk & Hb & Hd)]; [by left|right].
  destruct (replay_read _ _ _ _ _ _ _ Hr Hb) as [Hin Hfl].
  destruct (rep_found fl (afs a) used d b n x at') as (es & He & Hx); try done; try apply Hs.
  - by eapply sim_bound.
  - eapply s_locks; [done|]. by apply HL.
  - exists d, es, n. done.
Qed.

Lemma next_lock_u32 ph fl used B c a p0 t L R p x :
  sim ph fl used B c a -> 0 <= B -> held_by (owner c) t L -> replay fl p0 L R p -> next_lock L R x -> is_u32 x.
Proof.
  intros Hs HB HL Hr Hn. pose proof (s_tree _ _ _ _ _ _ Hs) as Hf.
  destruct (next_lock_entry _ _ _ _ _ _ _ _ _ _ _ _ Hs HB HL Hr Hn) as [[_ ?]|(d & es & n & _ & Hd & Hx)]; [done|].
  destruct (tr_entry _ Hf _ _ _ _ Hd Hx) as ([y Hy] & _). by eapply tr_range.
Qed.

Lemma sim_acquire ph fl used B c a t o x k L R :
  sim ph fl used B c a -> 0 <= B -> running c !! t = Some (o, Do (EAcquire x) k) -> ph !! t = Some (Before L R) ->
  owner c !! x = None ->
  exists R', sim (<[t := Before ({[ x ]} ∪ L) R']> ph) fl used B
    (CState (shared c) (<[x := t]> (owner c)) (<[t := (o, k (Reply lock_protocol.OK [] 0))]> (running c))) a.
Proof.
  intros Hs HB Ht Hph Hx. pose proof (s_threads _ _ _ _ _ _ Hs t) as Hok. rewrite Ht, Hph in Hok.
  destruct (athreads a !! t) as [[o'|ra]|] eqn:Eat; cbn in Hok; try done. destruct Hok as (-> & Ho & Hr & Hd & HL).
  assert (HxL : x ∉ L) by (rewrite (HL x); congruence).
  assert (Hu : is_u32 x /\ disc o ({[ x ]} ∪ L) R (k (Reply lock_protocol.OK [] 0))).
  { inversion Hd as [|? ? ? ? Hn Hk| |? ? ? ? Hc]; subst; [|done]. split; [|auto]. by eapply next_lock_u32. }
  destruct Hu as [Hu Hd']. exists R. eapply sim_quiet; [done|done|..].
  - cbn. split_and!; try done; [by constructor|]. intros y. rewrite elem_of_union, elem_of_singleton, lookup_insert_Some.
    rewrite (HL y). destruct (decide (x = y)) as [<-|]; [naive_solver|naive_solver].
  - intros y t' Hne. rewrite lookup_insert_Some. split; [naive_solver|]. intros Hy. right. split; [congruence|done].
  - done.
  - intros y. rewrite lookup_insert_Some. intros [[<- _]|[_ Hy]]; [done|]. by eapply s_locks.
  - intros k'. destruct (s_same _ _ _ _ _ _ Hs k') as [?|Hw]; [by left|right]. apply unwritten_insert; [|done].
    rewrite Hph. congruence.
Qed.

Lemma sim_get ph fl used B c a t o x k L R b :
  sim ph fl used B c a -> 0 <= B -> running c !! t = Some (o, Do (EGet x) k) -> ph !! t = Some (Before L R) ->
  owner c !! x = Some t -> shared c !! key x = Some b -> disc o L ((x, b) :: R) (k (Reply extent_protocol.OK b 0)) ->
  sim (<[t := Before L ((x, b) :: R)]> ph) fl used B
    (CState (shared c) (owner c) (<[t := (o, k (Reply extent_protocol.OK b 0))]> (running c))) a.
Proof.
  intros Hs HB Ht Hph Hx Hb Hd. pose proof (s_threads _ _ _ _ _ _ Hs t) as Hok. rewrite Ht, Hph in Hok.
  destruct (athreads a !! t) as [[o'|ra]|] eqn:Eat; cbn in Hok; try done. destruct Hok as (-> & Ho & Hr & _ & HL).
  eapply sim_quiet; [done|done|..]; try done.
  - cbn. split_and!; try done. constructor; [done|by apply HL|].
    by rewrite (same_locked _ _ _ _ _ _ t x L R Hs Hph Hx).
  - intros y. apply s_locks with (t := t) (1 := Hs).
  - intros k'. destruct (s_same _ _ _ _ _ _ Hs k') as [?|Hw]; [by left|right]. apply unwritten_insert; [|done].
    rewrite Hph. congruence.
Qed.

(** The tree stays well formed when the new number is not in use. *)
Lemma spec_tree_ok fs o :
  tree_ok fs -> op_ok ∅ o ->
  (creates o = true -> (spec o fs).1.1 = OK -> forall i, new_number o = Some i -> fs !! i = None) ->
  tree_ok (spec o fs).2.
Proof.
  intros Hf Ho Hfree. assert (Hadd : forall p n rs isf,
    name_ok n -> Forall (fun r => 0 <= r < 2 ^ 31) rs -> is_Some (new_inum rs p isf) ->
    ((add_entry p n rs isf fs).1.1 = OK -> forall i, new_inum rs p isf = Some i -> fs !! i = None) ->
    tree_ok (add_entry p n rs isf fs).2).
  { intros p n rs isf Hn Hrs [i Hi] Hfr. destruct (decide ((add_entry p n rs isf fs).1.1 = OK)) as [E|E].
    - eapply add_entry_ok; eauto.
    - unfold add_entry in *. destruct (fs !! p) as [[|es]|]; try done. by destruct (find_entry n es). }
  destruct o; try (apply spec_ok; done); cbn [spec op_ok] in *; destruct Ho as (_ & _ & Hn & Hr & i & Hi & _);
    (apply Hadd; [done|done|by exists i|by apply Hfree]).
Qed.

(** An operation that has not taken effect can: run in one go from where
    it stands it answers what the tree answers. *)
Lemma sim_performs ph fl used B c a t o p L R :
  sim ph fl used B c a -> 0 <= B -> running c !! t = Some (o, p) -> ph !! t = Some (Before L R) ->
  exists w', interp p (Store fl L) = Some ((spec o (afs a)).1, w') /\ rep w' (spec o (afs a)).2 (used + cost o).
Proof.
  intros Hs HB Ht Hph. pose proof (s_threads _ _ _ _ _ _ Hs t) as Hok. rewrite Ht, Hph in Hok.
  destruct (athreads a !! t) as [[o'|ra]|] eqn:Eat; cbn in Hok; try done. destruct Hok as (-> & Ho & Hr & _ & _).
  assert (Hu : used + cost o <= max_size).
  { pose proof (s_budget _ _ _ _ _ _ Hs) as Hb. rewrite (total_delete _ _ _ _ Eat) in Hb. cbn [may_add] in Hb.
    pose proof (waiting_pos (delete t (athreads a))). lia. }
  destruct (perform_refines_any Hmax o _ _ ∅ used (s_rep _ _ _ _ _ _ Hs) (s_tree _ _ _ _ _ _ Hs) Ho
    (s_used _ _ _ _ _ _ Hs) Hu) as (w' & E & Hrep').
  rewrite <- interp_perform, (replay_interp _ _ _ _ _ Hr) in E. eauto.
Qed.

(** What the whole operation does on [fl], once its next request is
    followed by the rest only. *)
Lemma commit_refines ph fl used B c a t o e k L R x :
  sim ph fl used B c a -> 0 <= B -> running c !! t = Some (o, Do e k) -> ph !! t = Some (Before L R) ->
  touches e = Some x -> settled o e L R (k (local e (fl !! key x)).1) \/ k (local e (fl !! key x)).1 = Fail ->
  exists m ls r y fs', spec o (afs a) = (r, y, fs') /\ k (local e (fl !! key x)).1 = rest m ls r y /\
    NoDup ls /\ list_to_set ls = L /\ (forall z b, m = Some (z, b) -> z ∈ R.*1 /\ isfile z = false /\ e <> ERemove z) /\
    (creates o = true -> r = OK -> exists i, e = EPut i [] /\ new_number o = Some i /\ i ∉ L) /\
    rep (Store (apply_put m (set_key (key x) (local e (fl !! key x)).2 fl)) ∅) fs' (used + cost o).
Proof.
  intros Hs HB Ht Hph He Hk. destruct (sim_performs _ _ _ _ _ _ _ _ _ _ _ Hs HB Ht Hph) as (w' & E & Hrep').
  cbn [interp] in E. rewrite (exec_local e x) in E by done.
  destruct Hk as [(m & ls & r & y & Hrest & Hnd & Hls & Hm & Hadd)|Hfail]; [|rewrite Hfail in E; done].
  rewrite Hrest, interp_rest in E. destruct (spec o (afs a)) as [[r' y'] fs'] eqn:Esp. cbn [fst snd] in *.
  injection E as <- <- <-. exists m, ls, r, y, fs'. split_and!; try done.
  rewrite Hls in Hrep'. by rewrite difference_diag_L in Hrep'.
Qed.

(** A request that others do not notice: about an extent whose lock is
    held, one that was not there, or one it leaves as it is. *)
Definition unnoticed (c : cstate) (fl : gmap Z bytes) (t : nat) (e : event) (x : Z) : Prop :=
  owner c !! x = Some t \/ fl !! key x = None \/ (local e (fl !! key x)).2 = fl !! key x.

Lemma unnoticed_key ph fl used B c a t t' e x x' :
  sim ph fl used B c a -> unnoticed c fl t e x -> t' <> t -> owner c !! x' = Some t' -> is_Some (fl !! key x') ->
  set_key (key x) (local e (fl !! key x)).2 fl !! key x' = fl !! key x'.
Proof.
  intros Hs Hun Hne Hx' [b Hb]. destruct (decide (key x = key x')) as [Hk|Hk]; [|by rewrite set_key_ne].
  rewrite <- Hk, set_key_eq in *. destruct Hun as [Hx|[Hx|Hx]]; [|congruence|done].
  exfalso. by eapply (keys_apart _ _ _ _ _ _ x x' t t' Hs).
Qed.

(** A request other than remove leaves an extent that is there. *)
Lemma local_some e b : (forall x, e <> ERemove x) -> is_Some (local e (Some b)).2.
Proof. intros He. destruct e; cbn; try (by eexists). by destruct (He id). Qed.

(** The rest of the operation finds the directory it has to put. *)
Lemma commit_after ph fl used B c a t e x z L R o p :
  sim ph fl used B c a -> running c !! t = Some (o, p) -> ph !! t = Some (Before L R) -> touches e = Some x ->
  unnoticed c fl t e x -> fl !! key x = shared c !! key x -> z ∈ R.*1 -> e <> ERemove z ->
  owner c !! z = Some t /\ is_Some (set_key (key x) (local e (fl !! key x)).2 (shared c) !! key z).
Proof.
  intros Hs Ht Hph He Hun Hsame Hz Hnr. pose proof (s_threads _ _ _ _ _ _ Hs t) as Hok. rewrite Ht, Hph in Hok.
  destruct (athreads a !! t) as [[o'|ra]|]; cbn in Hok; try done. destruct Hok as (_ & _ & Hr & _ & HL).
  apply list_elem_of_fmap in Hz as ([z' b] & -> & Hz). cbn [fst] in *.
  destruct (replay_read _ _ _ _ _ _ _ Hr Hz) as [HzL Hb]. assert (Hzo : owner c !! z' = Some t) by (by apply HL).
  split; [done|]. destruct (decide (key x = key z')) as [Hk|Hk].
  - rewrite Hk, set_key_eq, Hb. destruct Hun as [Hx|[Hx|Hx]]; [|congruence|rewrite Hk, Hb in Hx; rewrite Hx; eauto].
    apply local_some. intros y ->. injection He as ->. apply Hnr. f_equal.
    destruct (decide (x = z')) as [|Hxz]; [done|]. by destruct (key_inj x z' (s_locks _ _ _ _ _ _ Hs _ _ Hx)
      (s_locks _ _ _ _ _ _ Hs _ _ Hzo) Hxz).
  - rewrite set_key_ne by done. rewrite <- (same_locked _ _ _ _ _ _ t z' L R Hs Hph Hzo). eauto.
Qed.

Lemma rep_missing fl fs used i : rep (Store fl ∅) fs used -> is_u32 i -> fl !! key i = None -> fs !! i = None.
Proof.
  intros Hr Hi Hn. pose proof (rp_agree _ _ _ Hr i Hi) as Ha. cbn in Ha. rewrite Hn in Ha.
  destruct (fs !! i) as [[b|es]|]; [done| |done]. by destruct Ha as (? & ? & _).
Qed.

Lemma new_number_u32 o i : op_ok ∅ o -> new_number o = Some i -> is_u32 i.
Proof.
  assert (Hn : forall rs p f, Forall (fun r => 0 <= r < 2 ^ 31) rs -> new_inum rs p f = Some i -> is_u32 i).
  { intros rs p f Hr Hi. destruct (new_inum_some rs p f i Hr Hi) as (_ & ? & _). unfold is_u32. lia. }
  destruct o; cbn; try done; intros (_ & _ & _ & Hr & _); by apply Hn.
Qed.

(** What has taken effect and is not at the server is still to be put. *)
Lemma commit_same ph fl used B c a t x ob m ls r y L R k' :
  sim ph fl used B c a -> ph !! t = Some (Before L R) ->
  apply_put m (set_key (key x) ob fl) !! k' = set_key (key x) ob (shared c) !! k' \/
  unwritten (<[t := After m ls r y]> ph) k'.
Proof.
  intros Hs Hph. assert (Hold : set_key (key x) ob fl !! k' = set_key (key x) ob (shared c) !! k' \/
    unwritten (<[t := After m ls r y]> ph) k').
  { destruct (decide (key x = k')) as [<-|Hkx]; [left; by rewrite !set_key_eq|]. rewrite !set_key_ne by done.
    destruct (s_same _ _ _ _ _ _ Hs k') as [?|Hw]; [by left|right]. apply unwritten_insert; [|done].
    rewrite Hph. congruence. }
  destruct m as [[z b]|]; [|done]. cbn [apply_put]. destruct (decide (key z = k')) as [<-|Hz].
  - right. exists t, z, b, ls, r, y. by rewrite lookup_insert_eq.
  - by rewrite lookup_insert_ne.
Qed.

Lemma sim_commit ph fl used B c a t o e k L R x :
  sim ph fl used B c a -> 0 <= B -> running c !! t = Some (o, Do e k) -> ph !! t = Some (Before L R) ->
  touches e = Some x -> settled o e L R (k (local e (fl !! key x)).1) \/ k (local e (fl !! key x)).1 = Fail ->
  fl !! key x = shared c !! key x -> unnoticed c fl t e x ->
  (forall i, e = EPut i [] -> i ∉ L -> fl !! key i = None) ->
  exists ph' fl' a', astep (ACommit t) a = Some (a', []) /\
    sim ph' fl' (used + cost o) B
      (CState (set_key (key x) (local e (shared c !! key x)).2 (shared c)) (owner c)
         (<[t := (o, k (local e (shared c !! key x)).1)]> (running c))) a'.
Proof.
  intros Hs HB Ht Hph He Hk Hsame Hun Hfree.
  destruct (commit_refines _ _ _ _ _ _ _ _ _ _ _ _ _ Hs HB Ht Hph He Hk)
    as (m & ls & r & y & fs' & Hsp & Hrest & Hnd & Hls & Hm & Hadd & Hrep).
  pose proof (s_threads _ _ _ _ _ _ Hs t) as Hok. rewrite Ht, Hph in Hok.
  destruct (athreads a !! t) as [[o'|ra]|] eqn:Eat; cbn in Hok; try done. destruct Hok as (-> & Ho & _ & _ & HL).
  rewrite <- Hsame, Hrest. set (ob := (local e (fl !! key x)).2) in *.
  set (fl' := apply_put m (set_key (key x) ob fl)) in *.
  assert (Hafter : forall z b, m = Some (z, b) -> owner c !! z = Some t /\ is_Some (set_key (key x) ob (shared c) !! key z)).
  { intros z b Hz. destruct (Hm z b Hz) as (HzR & _ & Hnr). by eapply commit_after. }
  assert (Hflk : forall z, (forall y' b, m = Some (y', b) -> key y' <> z) -> fl' !! z = set_key (key x) ob fl !! z).
  { intros z Hz. unfold fl', apply_put. destruct m as [[y' b]|]; [|done]. rewrite lookup_insert_ne by eauto. done. }
  exists (<[t := After m ls r y]> ph), fl'. eexists. cbn [astep]. rewrite Eat, Hsp. split; [done|]. split; cbn.
  - eapply sim_others; [done|..]; try done.
    + cbn. rewrite Hls. split_and!; try done. intros z b Hz. destruct (Hafter z b Hz), (Hm z b Hz) as (_ & Hzd & _).
      split_and!; try done. unfold fl'. rewrite Hz. apply lookup_insert_eq.
    + intros x' t' Hne Hx' Hsome. rewrite Hflk; [by eapply unnoticed_key|]. intros z b Hz.
      eapply (keys_apart _ _ _ _ _ _ z x' t t' Hs); [by eapply Hafter|done|done].
    + intros x' t' Hne Hx' Hsome. destruct (decide (key x = key x')) as [Hkx|Hkx]; [|by rewrite set_key_ne].
      rewrite <- Hkx, set_key_eq in *. rewrite <- Hsame in Hsome. pose proof Hsome as Hsome2. rewrite Hkx in Hsome2.
      pose proof (unnoticed_key _ _ _ _ _ _ _ _ _ _ _ Hs Hun Hne Hx' Hsome2) as Hq. rewrite <- Hkx, set_key_eq in Hq.
      unfold ob. by rewrite Hq.
  - apply (s_locks _ _ _ _ _ _ Hs).
  - intros k'. by eapply commit_same.
  - done.
  - replace fs' with (spec o (afs a)).2 by (by rewrite Hsp). apply spec_tree_ok; [apply Hs|done|].
    intros Hc Hr0 i Hi. rewrite Hsp in Hr0. destruct (Hadd Hc Hr0) as (i' & Hei & Hi' & HiL).
    rewrite Hi in Hi'. injection Hi' as <-. eapply rep_missing; [apply Hs|by eapply new_number_u32|]. by apply Hfree.
  - pose proof (s_used _ _ _ _ _ _ Hs). pose proof (cost_pos o). lia.
  - rewrite (total_update _ _ _ _ _ Eat). cbn [may_add]. pose proof (s_budget _ _ _ _ _ _ Hs). lia.
Qed.

(** The rest of an operation that has taken effect. *)
Lemma sim_put ph fl used B c a t o y b ls r x :
  sim ph fl used B c a -> running c !! t = Some (o, rest (Some (y, b)) ls r x) ->
  ph !! t = Some (After (Some (y, b)) ls r x) ->
  sim (<[t := After None ls r x]> ph) fl used B
    (CState (set_key (key y) (Some b) (shared c)) (owner c) (<[t := (o, rest None ls r x)]> (running c))) a.
Proof.
  intros Hs Ht Hph. pose proof (s_threads _ _ _ _ _ _ Hs t) as Hok. rewrite Ht, Hph in Hok.
  destruct (athreads a !! t) as [[o'|ra]|] eqn:Eat; cbn in Hok; try done. destruct Hok as (-> & _ & Hnd & HL & Hm).
  destruct (Hm y b eq_refl) as (H1 & _ & _ & H4). eapply sim_quiet; [done|done|..]; try done.
  - intros x' t' Hne Hx' Hsome. destruct (decide (key y = key x')) as [->|Hk]; [by rewrite set_key_eq|by rewrite set_key_ne].
  - intros y'. apply s_locks with (t := t) (1 := Hs).
  - intros k'. destruct (decide (key y = k')) as [<-|Hk]; [left; by rewrite set_key_eq|]. rewrite set_key_ne by done.
    destruct (s_same _ _ _ _ _ _ Hs k') as [?|(t' & y' & b' & ls' & r' & x' & Ht' & Hk')]; [by left|right].
    exists t', y', b', ls', r', x'. split; [|done]. rewrite lookup_insert_ne; [done|]. intros <-. congruence.
Qed.

Lemma sim_release ph fl used B c a t o x ls r y :
  sim ph fl used B c a -> running c !! t = Some (o, rest None (x :: ls) r y) ->
  ph !! t = Some (After None (x :: ls) r y) ->
  owner c !! x = Some t /\
  sim (<[t := After None ls r y]> ph) fl used B
    (CState (shared c) (delete x (owner c)) (<[t := (o, rest None ls r y)]> (running c))) a.
Proof.
  intros Hs Ht Hph. pose proof (s_threads _ _ _ _ _ _ Hs t) as Hok. rewrite Ht, Hph in Hok.
  destruct (athreads a !! t) as [[o'|ra]|] eqn:Eat; cbn in Hok; try done.
  destruct Hok as (-> & _ & [Hx Hnd]%NoDup_cons & HL & _).
  assert (Hxt : owner c !! x = Some t) by (apply HL; set_solver). split; [done|].
  eapply sim_quiet; [done|done|..]; try done.
  - cbn. split_and!; try done. intros z. rewrite lookup_delete_Some, <- (HL z), elem_of_list_to_set.
    set_unfold. naive_solver.
  - intros z t' Hne. rewrite lookup_delete_Some. split; [tauto|]. intros Hz. split; [congruence|done].
  - intros z. rewrite lookup_delete_Some. intros [_ Hz]. by eapply s_locks.
  - intros k'. destruct (s_same _ _ _ _ _ _ Hs k') as [?|Hw]; [by left|right]. apply unwritten_insert; [|done].
    rewrite Hph. congruence.
Qed.

Lemma advance_request c t o e k x c' :
  touches e = Some x -> advance c t o e k = Some c' ->
  c' = CState (set_key (key x) (local e (shared c !! key x)).2 (shared c)) (owner c)
         (<[t := (o, k (local e (shared c !! key x)).1)]> (running c)).
Proof.
  intros He Ha. unfold advance in Ha. rewrite (exec_local e x) in Ha by done. destruct e; try done; by injection Ha as <-.
Qed.

Lemma fresh_put c t o x b k :
  fresh_step (Step t) c = true -> running c !! t = Some (o, Do (EPut x b) k) -> new_number o = Some x ->
  shared c !! key x = None.
Proof.
  intros Hf Ht Hn. cbn [fresh_step] in Hf. rewrite Ht in Hf. apply orb_prop in Hf as [Hf|Hf]; by apply bool_decide_eq_true in Hf.
Qed.

(** A request of an operation that has not taken effect. *)
Lemma sim_request ph fl used B c a t o e k x c' L R :
  sim ph fl used B c a -> 0 <= B -> running c !! t = Some (o, Do e k) -> ph !! t = Some (Before L R) ->
  commits o L e -> held_by (owner c) t L -> touches e = Some x ->
  (forall rep, settled o e L R (k rep) \/ k rep = Fail) -> fresh_step (Step t) c = true -> advance c t o e k = Some c' ->
  exists ph' fl' a', arun [ACommit t] a = Some (a', []) /\ sim ph' fl' (used + cost o) B c' a'.
Proof.
  intros Hs HB Ht Hph Hc HL He Hk Hfr Ha. rewrite (advance_request _ _ _ _ _ _ _ He Ha).
  assert (Hput : forall y b, e = EPut y b -> owner c !! y = Some t \/ shared c !! key y = None).
  { intros y b ->. destruct Hc as [[Hy _]|[_ Hn]]; [left; by apply HL|right]. by eapply fresh_put. }
  assert (Hcase : x ∈ L \/ fl !! key x = shared c !! key x /\ unnoticed c fl t e x).
  { destruct e as [z|z|z|z b|z|z|z n off|z off b]; cbn in Hc, He; try done; injection He as ->; try (left; set_solver).
    - destruct (Hput x b eq_refl) as [Hx|Hx]; [left; by apply HL|right].
      destruct (s_same _ _ _ _ _ _ Hs (key x)) as [E|Hu].
      + split; [done|]. right; left. congruence.
      + destruct (unwritten_at _ _ _ _ _ _ _ Hs Hu) as (t' & y & b' & m & _ & _ & _ & _ & _ & [? Hy] & _). congruence.
    - right. split; [|by right; right]. destruct Hc as (Hu & Hf & _).
      destruct (s_same _ _ _ _ _ _ Hs (key x)) as [E|Hw]; [done|].
      destruct (unwritten_at _ _ _ _ _ _ _ Hs Hw) as (t' & y & b' & m & _ & _ & Hy & Hky & Hyd & _).
      destruct (decide (y = x)) as [->|Hne]; [congruence|].
      by destruct (key_inj y x (s_locks _ _ _ _ _ _ Hs _ _ Hy) Hu Hne). }
  assert (Hboth : fl !! key x = shared c !! key x /\ unnoticed c fl t e x).
  { destruct Hcase as [Hx|?]; [|done]. apply HL in Hx. split; [by eapply same_locked|by left]. }
  destruct Hboth as [Hsame Hun].
  destruct (sim_commit ph fl used B c a t o e k L R x) as (ph' & fl' & a' & E & Hs'); try done.
  - intros i -> HiL. injection He as ->. rewrite Hsame. destruct (Hput x [] eq_refl) as [Hx|Hx]; [|done].
    by apply HL in Hx.
  - exists ph', fl', a'. split; [|done]. cbn [arun]. by rewrite E.
Qed.

(** One call of a client. *)
Lemma sim_advance ph fl used B c a t o e k c' :
  sim ph fl used B c a -> 0 <= B -> running c !! t = Some (o, Do e k) -> fresh_step (Step t) c = true ->
  advance c t o e k = Some c' ->
  exists acs ph' fl' used' a', arun acs a = Some (a', []) /\ sim ph' fl' used' B c' a'.
Proof.
  intros Hs HB Ht Hfr Ha. pose proof (s_threads _ _ _ _ _ _ Hs t) as Hok. rewrite Ht in Hok.
  destruct (ph !! t) as [[L R|m ls r y]|] eqn:Hph, (athreads a !! t) as [[o'|ra]|] eqn:Eat; cbn in Hok; try done.
  - destruct Hok as (-> & Ho & Hr & Hd & HL). inversion Hd as [|? ? x ? Hx Hk|? ? x ? Hx Hk|? ? ? ? Hc Hk]; subst.
    + cbn in Ha. destruct (owner c !! x) eqn:Ex; [done|]. injection Ha as <-.
      destruct (sim_acquire _ _ _ _ _ _ _ _ _ _ _ _ Hs HB Ht Hph Ex) as [R' Hs']. exists []. eauto 10.
    + pose proof Hx as Hxo. apply HL in Hxo. pose proof (same_locked _ _ _ _ _ _ _ _ _ _ Hs Hph Hxo) as Hsame.
      rewrite (advance_request c t o (EGet x) k x _ eq_refl Ha).
      destruct (Hk (local (EGet x) (fl !! key x)).1) as [Hset|[Hst Hd']].
      * destruct (sim_commit ph fl used B c a t o (EGet x) k L R x) as (ph' & fl' & a' & E & Hs'); try done;
          [by left|by left|]. exists [ACommit t], ph', fl', (used + cost o), a'. split; [|done]. cbn [arun]. by rewrite E.
      * rewrite Hsame in Hst, Hd'. destruct (shared c !! key x) as [b|] eqn:Eb; [|discriminate]. cbn [local fst snd] in *.
        pose proof (sim_get _ _ _ _ _ _ _ _ _ _ _ _ _ Hs HB Ht Hph Hxo Eb Hd') as Hs'.
        exists []. do 4 eexists. split; [done|]. rewrite <- Eb at 1. by rewrite set_key_same.
    + destruct (touches e) as [x|] eqn:Hte; [|by destruct e].
      destruct (sim_request ph fl used B c a t o e k x c' L R) as (ph' & fl' & a' & E & Hs'); try done. eauto 10.
  - destruct Hok as (-> & Hp & Hnd & HL & Hm). destruct m as [[z b]|].
    + cbn in Hp. injection Hp as -> ->. rewrite (advance_request c t o (EPut z b) _ z _ eq_refl Ha).
      pose proof (sim_put _ _ _ _ _ _ _ _ _ _ _ _ _ Hs Ht Hph). exists []. eauto 10.
    + destruct ls as [|x ls]; [done|]. cbn in Hp. injection Hp as -> ->.
      destruct (sim_release _ _ _ _ _ _ _ _ _ _ _ _ Hs Ht Hph) as [Hx Hs']. cbn [advance] in Ha.
      rewrite decide_True in Ha by done. injection Ha as <-. exists []. eauto 10.
Qed.

(** ** Runs *)

(** The operations a schedule calls. *)
Definition calls (chs : list choice) : list op :=
  omap (fun ch => match ch with Invoke _ o => Some o | Step _ => None end) chs.

(** An operation a client may call: its arguments make sense, random()
    yields a usable number, and it is not readir. *)
Definition asked (o : op) : Prop := op_ok ∅ o /\ forall d, o <> Readdir d.

Lemma arun_app acs1 acs2 a a1 a2 ls1 ls2 :
  arun acs1 a = Some (a1, ls1) -> arun acs2 a1 = Some (a2, ls2) -> arun (acs1 ++ acs2) a = Some (a2, ls1 ++ ls2).
Proof.
  revert a ls1. induction acs1 as [|ch acs1 IH]; intros a ls1; cbn [arun app].
  - by intros [= -> <-].
  - destruct (astep ch a) as [[a' l]|]; [|done]. cbn. destruct (arun acs1 a') as [[a'' l']|] eqn:E; [|done].
    cbn. intros [= -> <-] H2. rewrite (IH _ _ E H2). cbn. by rewrite app_assoc.
Qed.

Lemma sim_step ph fl used B c a ch c' ls :
  sim ph fl used (costs (calls [ch]) + B) c a -> 0 <= B -> Forall asked (calls [ch]) -> fresh_step ch c = true ->
  cstep ch c = Some (c', ls) ->
  exists acs ph' fl' used' a', arun acs a = Some (a', ls) /\ sim ph' fl' used' B c' a'.
Proof.
  intros Hs HB Hok Hfr E. destruct ch as [t o|t]; cbn in Hs, Hok; cbn [cstep] in E.
  - rewrite Z.add_0_r in Hs. destruct (running c !! t) eqn:Et; [done|]. injection E as <- <-.
    apply Forall_cons in Hok as [[Ho Hd] _]. destruct (sim_invoke _ _ _ _ _ _ _ _ Hs Et Ho Hd) as (a' & Ea & Hs').
    exists [AInvoke t o]. do 4 eexists. split; [|exact Hs']. cbn [arun]. by rewrite Ea.
  - destruct (running c !! t) as [[o [r x| |e k]]|] eqn:Et; try done.
    + injection E as <- <-. destruct (sim_return _ _ _ _ _ _ _ _ _ _ Hs Et) as (a' & Ea & Hs').
      exists [AReturn t]. do 4 eexists. split; [|exact Hs']. cbn [arun]. by rewrite Ea.
    + apply fmap_Some in E as (c'' & E & [= -> ->]). by eapply sim_advance.
Qed.

Lemma calls_cons ch chs : calls (ch :: chs) = calls [ch] ++ calls chs.
Proof. by destruct ch. Qed.

Lemma costs_app os1 os2 : costs (os1 ++ os2) = costs os1 + costs os2.
Proof. unfold costs. induction os1 as [|o os1 IH]; cbn; [done|]. rewrite IH. lia. Qed.

Lemma sim_run ph fl used c a chs c' ls :
  sim ph fl used (costs (calls chs)) c a -> Forall asked (calls chs) -> fresh_numbers chs c = true ->
  crun chs c = Some (c', ls) ->
  exists acs ph' fl' used' a', arun acs a = Some (a', ls) /\ sim ph' fl' used' 0 c' a'.
Proof.
  revert ph fl used c a ls. induction chs as [|ch chs IH]; intros ph fl used c a ls Hs Hok Hfr E; cbn [crun] in E.
  - injection E as <- <-. exists []. do 4 eexists. done.
  - rewrite calls_cons, costs_app in Hs. rewrite calls_cons in Hok. apply Forall_app in Hok as [Hok1 Hok2].
    cbn [fresh_numbers] in Hfr. apply andb_prop in Hfr as [Hfr1 Hfr2].
    destruct (cstep ch c) as [[c1 l1]|] eqn:E1; [|done]. cbn in E.
    destruct (crun chs c1) as [[c2 l2]|] eqn:E2; [|done]. cbn in E. injection E as -> <-.
    destruct (sim_step _ _ _ _ _ _ _ _ _ Hs (costs_pos _) Hok1 Hfr1 E1) as (acs & ph1 & fl1 & used1 & a1 & Ea & Hs1).
    destruct (IH _ _ _ _ _ _ Hs1 Hok2 Hfr2 E2) as (acs' & ph2 & fl2 & used2 & a2 & Ea' & Hs2).
    exists (acs ++ acs'), ph2, fl2, used2, a2. split; [by eapply arun_app|done].
Qed.

Lemma sim_start fl fs used B :
  rep (Store fl ∅) fs used -> tree_ok fs -> 0 <= used -> used + B <= max_size ->
  sim ∅ fl used B (CState fl ∅ ∅) (AState fs ∅).
Proof.
  intros Hr Hf Hu HB. split; cbn; try done.
  - intros t. rewrite !lookup_empty. intros x. rewrite lookup_empty. set_solver.
  - intros k. by left.
  - unfold total. rewrite map_fold_empty. lia.
Qed.

(** With no operation running the server's extents are the tree's. *)
Lemma sim_idle ph fl used B c a :
  sim ph fl used B c a -> 0 <= B -> running c = ∅ -> rep (Store (shared c) ∅) (afs a) max_size.
Proof.
  intros Hs HB Hr. assert (Hfl : fl = shared c).
  { apply map_eq. intros k. destruct (s_same _ _ _ _ _ _ Hs k) as [?|(t & y & b & ls & r & x & Ht & _)]; [done|].
    pose proof (s_threads _ _ _ _ _ _ Hs t) as Hok. rewrite Hr, lookup_empty, Ht in Hok. done. }
  subst fl. destruct (s_rep _ _ _ _ _ _ Hs) as [H1 H2 H3]. split; [done|done|]. eapply agree_mono; [|done].
  pose proof (s_budget _ _ _ _ _ _ Hs). pose proof (waiting_pos (athreads a)). lia.
Qed.

(** C2: clients that run at the same time see an atomic file system.  Take
    any number of clients on one extent server and one table of locks whose
    acquire always returns with the lock, the calls of their operations
    interleaved in any way.  The operations are all but readir, which takes
    no lock; their arguments are numbers of the right kind, names without
    ':' and newline, and sizes and offsets within the limit of strings; the
    bytes they may add fit together with those stored into a string; and in
    this run the numbers random() gives new entries are not in use when
    they are stored.  Then what the clients see, the sequence of calls and
    returns with statuses and results, is what an atomic file system shows
    whose operations take effect in a single step on the abstract tree,
    between call and return.  The tree stays well formed, and the server's
    bytes represent it whenever no operation runs. *)
Theorem yfs_linearizable (chs : list choice) (fl : gmap Z bytes) (fs : tree) (used : Z) (c : cstate) (ls : list label) :
  rep (Store fl ∅) fs used -> tree_ok fs -> 0 <= used -> used + costs (calls chs) <= max_size ->
  Forall asked (calls chs) -> fresh_numbers chs (CState fl ∅ ∅) = true -> crun chs (CState fl ∅ ∅) = Some (c, ls) ->
  exists acs a, arun acs (AState fs ∅) = Some (a, ls) /\ tree_ok (afs a) /\
    (running c = ∅ -> rep (Store (shared c) ∅) (afs a) max_size).
Proof.
  intros Hr Hf Hu Hb Hok Hfr E. pose proof (sim_start fl fs used _ Hr Hf Hu Hb) as Hs.
  destruct (sim_run _ _ _ _ _ _ _ _ Hs Hok Hfr E) as (acs & ph & fl' & used' & a & Ea & Hs'). exists acs, a.
  split; [done|]. split; [apply Hs'|]. by eapply sim_idle.
Qed.

(** ** No deadlock *)

(** *** The length of the programs *)

(** [p] returns within [n] steps, the return included. *)
Fixpoint short (n : nat) (p : prog) : Prop :=
  match n, p with
  | O, _ => False
  | S n, Do _ k => forall rep, short n (k rep)
  | S _, _ => True
  end.

Lemma short_do n e k : (forall rep, short n (k rep)) -> short (S n) (Do e k).
Proof. done. Qed.

Lemma prog_short o : short 8 (prog_of o).
Proof.
  destruct o; cbn [prog_of]; unfold dir_add_entry, remove, lookup, readir, read, write, resize, getfile, getdir;
    repeat (cbn zeta beta; match goal with
      | |- short (S _) (Do _ _) => apply short_do; intros ?
      | |- short _ (match ?x with _ => _ end) => destruct x
      | |- short _ _ => exact I
      end).
Qed.

Definition all_short (c : cstate) : Prop := forall t o p, running c !! t = Some (o, p) -> short 8 p.

Lemma short_mono n p : short n p -> short (S n) p.
Proof.
  revert p. induction n as [|n IH]; intros p Hp; [done|]. destruct p as [| |e k]; [done|done|]. intros rep. apply IH, Hp.
Qed.

(** A call takes its place in the program. *)
Lemma advance_running c t o e k c' :
  advance c t o e k = Some c' -> exists rep, running c' = <[t := (o, k rep)]> (running c).
Proof.
  intros Ha. unfold advance in Ha. destruct (exec e (Store (shared c) ∅)) as [rep w]. destruct e as [x|x|x|x b|x|x|x n off|x off b];
    try (destruct (owner c !! x); [done|]); try (destruct (decide _)); try done; injection Ha as <-; cbn; eauto.
Qed.

Lemma cstep_short ch c c' ls : all_short c -> cstep ch c = Some (c', ls) -> all_short c'.
Proof.
  intros Hc E. destruct ch as [t o|t]; cbn [cstep] in E.
  - destruct (running c !! t) eqn:Et; [done|]. injection E as <- _. intros t' o' p'. cbn [running]. rewrite lookup_insert_Some.
    intros [[_ [= <- <-]]|[_ Hp]]; [apply prog_short|eauto].
  - destruct (running c !! t) as [[o [r x| |e k]]|] eqn:Et; try done.
    + injection E as <- _. intros t' o' p'. cbn [running]. rewrite lookup_delete_Some. intros [_ Hp]. eauto.
    + apply fmap_Some in E as (c'' & E & [= -> ->]). destruct (advance_running _ _ _ _ _ _ E) as [rep Hrun].
      intros t' o' p'. rewrite Hrun, lookup_insert_Some. intros [[_ [= <- <-]]|[_ Hp]]; [|eauto].
      apply short_mono. by apply (Hc t o (Do e k)).
Qed.

Lemma run_short chs c c' ls : all_short c -> crun chs c = Some (c', ls) -> all_short c'.
Proof.
  revert c ls. induction chs as [|ch chs IH]; intros c ls Hc E; cbn [crun] in E; [by injection E as <- _|].
  destruct (cstep ch c) as [[c1 l1]|] eqn:E1; [|done]. cbn in E. destruct (crun chs c1) as [[c2 l2]|] eqn:E2; [|done].
  injection E as -> _. eapply IH; [|done]. by eapply cstep_short.
Qed.

(** [g] bounds the steps of each running operation; every step uses one. *)
Lemma steps_total ts c c' ls (g : gmap nat nat) :
  (forall t o p, running c !! t = Some (o, p) -> exists n, g !! t = Some n /\ short n p) ->
  crun (Step <$> ts) c = Some (c', ls) -> Z.of_nat (length ts) <= total Z.of_nat g.
Proof.
  revert c g ls. induction ts as [|t ts IH]; intros c g ls Hg E; [apply total_pos; lia|].
  rewrite fmap_cons in E. cbn [crun] in E. destruct (cstep (Step t) c) as [[c1 l1]|] eqn:E1; [|done].
  cbn in E. destruct (crun (Step <$> ts) c1) as [[c2 l2]|] eqn:E2; [|done]. injection E as -> _. cbn [cstep] in E1.
  destruct (running c !! t) as [[o [r x| |e k]]|] eqn:Et; try discriminate; destruct (Hg _ _ _ Et) as (n & Hn & Hp);
    (destruct n as [|n]; [by destruct Hp|]).
  - injection E1 as <- _. rewrite (total_delete _ _ _ _ Hn). cbn [length].
    enough (Z.of_nat (length ts) <= total Z.of_nat (delete t g)) by lia. eapply IH; [|done]. intros t' o' p'. cbn [running].
    rewrite lookup_delete_Some. intros [Hne Ht']. destruct (Hg _ _ _ Ht') as (n' & ? & ?). exists n'.
    by rewrite lookup_delete_ne.
  - apply fmap_Some in E1 as (c'' & E1 & [= -> _]). destruct (advance_running _ _ _ _ _ _ E1) as [rep Hrun].
    enough (Z.of_nat (length ts) <= total Z.of_nat (<[t := n]> g)) as Hle.
    { rewrite (total_update _ _ _ _ _ Hn) in Hle. cbn [length]. lia. }
    eapply IH; [|done]. intros t' o' p'. rewrite Hrun, lookup_insert_Some. intros [[<- [= <- <-]]|[Hne Ht']].
    + exists n. rewrite lookup_insert_eq. split; [done|]. apply Hp.
    + destruct (Hg _ _ _ Ht') as (n' & ? & ?). exists n'. by rewrite lookup_insert_ne.
Qed.

Lemma total_const (m : gmap nat (op * prog)) : total Z.of_nat ((fun _ => 8%nat) <$> m) = 8 * Z.of_nat (size m).
Proof.
  induction m as [|t x m Ht IH] using map_ind; [done|]. rewrite fmap_insert, total_insert, IH, map_size_insert_None; [lia|done|].
  by rewrite lookup_fmap, Ht.
Qed.

Lemma steps_bounded ts c c' ls :
  all_short c -> crun (Step <$> ts) c = Some (c', ls) -> (length ts <= 8 * size (running c))%nat.
Proof.
  intros Hc E. enough (Z.of_nat (length ts) <= total Z.of_nat ((fun _ => 8%nat) <$> running c)) as Hle.
  { rewrite total_const in Hle. lia. }
  eapply steps_total; [|done]. intros t o p Ht. exists 8%nat. split; [by rewrite lookup_fmap, Ht|]. by eapply Hc.
Qed.


(** An operation that cannot go on waits for a lock. *)
Lemma blocked ph fl used B c a t o p :
  sim ph fl used B c a -> 0 <= B -> running c !! t = Some (o, p) -> cstep (Step t) c = None ->
  exists x k t', p = Do (EAcquire x) k /\ owner c !! x = Some t'.
Proof.
  intros Hs HB Ht Hn. cbn [cstep] in Hn. rewrite Ht in Hn. pose proof (s_threads _ _ _ _ _ _ Hs t) as Hok. rewrite Ht in Hok.
  destruct p as [r x| |e k]; [done| |].
  - exfalso. destruct (ph !! t) as [[L R|m ls r y]|] eqn:Hph, (athreads a !! t) as [[o'|ra]|]; cbn in Hok; try done.
    + by destruct (sim_performs _ _ _ _ _ _ _ _ _ _ _ Hs HB Ht Hph) as (w' & E & _).
    + destruct Hok as (_ & Hp & _). destruct m as [[]|]; [done|]. by destruct ls.
  - apply fmap_None in Hn. destruct e as [x|x|x|x b|x|x|x n off|x off b]; cbn [advance] in Hn; try done.
    + destruct (owner c !! x) as [t'|] eqn:Ex; [|done]. by exists x, k, t'.
    + by destruct (decide _) in Hn.
Qed.

(** Who holds a lock and waits for another waits further down the tree. *)
Lemma wait_down ph fl used B c a (rank : Z -> nat) t o x x' k :
  sim ph fl used B c a -> 0 <= B ->
  (forall d es n i, afs a !! d = Some (Dir es) -> (n, i) ∈ es -> (rank d < rank i)%nat) ->
  running c !! t = Some (o, Do (EAcquire x') k) -> owner c !! x = Some t -> (rank x < rank x')%nat.
Proof.
  intros Hs HB Hrank Ht Hx. pose proof (s_threads _ _ _ _ _ _ Hs t) as Hok. rewrite Ht in Hok.
  destruct (ph !! t) as [[L R|m ls r y]|], (athreads a !! t) as [[o'|ra]|]; cbn in Hok; try done.
  - destruct Hok as (_ & _ & Hr & Hd & HL). inversion Hd as [|? ? ? ? Hn _| |? ? ? ? Hc _]; subst; [|done].
    apply HL in Hx. destruct (next_lock_entry _ _ _ _ _ _ _ _ _ _ _ _ Hs HB HL Hr Hn) as [[-> _]|(d & es & n & -> & Hd' & Hin)].
    + by apply elem_of_empty in Hx.
    + apply elem_of_singleton in Hx as ->. eauto.
  - destruct Hok as (_ & Hp & _). destruct m as [[]|]; [done|]. by destruct ls.
Qed.

Definition awaited (rank : Z -> nat) (th : op * prog) : nat :=
  match th.2 with Do (EAcquire x) _ => rank x | _ => 0%nat end.

Lemma someone_steps ph fl used B c a t th :
  sim ph fl used B c a -> 0 <= B -> running c !! t = Some th ->
  exists t', is_Some (cstep (Step t') c).
Proof.
  intros Hs HB. destruct (tr_rank _ (s_tree _ _ _ _ _ _ Hs)) as [rank Hrank].
  set (top := max_list (awaited rank <$> (map_to_list (running c)).*2)).
  assert (Htop : forall t th, running c !! t = Some th -> (awaited rank th <= top)%nat).
  { intros t' th' Ht'. apply max_list_elem_of_le. apply list_elem_of_fmap. exists th'. split; [done|].
    apply list_elem_of_fmap. exists (t', th'). split; [done|]. by apply elem_of_map_to_list. }
  remember (top - awaited rank th)%nat as n eqn:En. revert t th En.
  induction n as [n IH] using lt_wf_ind; intros t [o p] -> Ht.
  destruct (cstep (Step t) c) as [r|] eqn:Est; [exists t; by rewrite Est|].
  destruct (blocked _ _ _ _ _ _ _ _ _ Hs HB Ht Est) as (x & k & t' & -> & Hx).
  destruct (running c !! t') as [[o' p']|] eqn:Et'.
  - destruct (cstep (Step t') c) as [r|] eqn:Est'; [exists t'; by rewrite Est'|].
    destruct (blocked _ _ _ _ _ _ _ _ _ Hs HB Et' Est') as (x' & k' & t'' & -> & Hx').
    pose proof (wait_down _ _ _ _ _ _ rank t' o' x x' k' Hs HB Hrank Et' Hx) as Hlt.
    pose proof (Htop _ _ Et') as Hle. cbn [awaited snd] in *. eapply (IH (top - rank x')%nat); [lia| |exact Et']. done.
  - exfalso. pose proof (s_threads _ _ _ _ _ _ Hs t') as Hok. rewrite Et' in Hok.
    destruct (ph !! t') as [[]|], (athreads a !! t') as [[]|]; cbn in Hok; try done. apply Hok in Hx.
    by apply elem_of_empty in Hx.
Qed.

(** C21: the order in which yfs_client takes its locks cannot deadlock.
    The locks are those of an ideal table, whose acquire waits exactly as
    long as somebody else holds the lock; of the lock service itself, which
    can lose wake-ups, nothing is said.  After any calls and steps of any
    number of clients, with operations other than readir whose arguments
    are numbers of the right kind, names without ':' and newline and sizes
    and offsets that fit a string, the bytes they may add included, and in
    which new entries get numbers that are not in use: as long as some
    operation is running some client can go on.  remove, the one operation
    that takes a second lock, takes it further down the tree.
    And an operation takes eight steps at most, so all operations return
    after so many steps. *)
Theorem yfs_no_deadlock (chs : list choice) (fl : gmap Z bytes) (fs : tree) (used : Z) (c : cstate) (ls : list label) :
  rep (Store fl ∅) fs used -> tree_ok fs -> 0 <= used -> used + costs (calls chs) <= max_size ->
  Forall asked (calls chs) -> fresh_numbers chs (CState fl ∅ ∅) = true -> crun chs (CState fl ∅ ∅) = Some (c, ls) ->
  (forall t, is_Some (running c !! t) -> exists t', is_Some (cstep (Step t') c)) /\
  (forall ts c' ls', crun (Step <$> ts) c = Some (c', ls') -> (length ts <= 8 * size (running c))%nat).
Proof.
  intros Hr Hf Hu Hb Hok Hfr E. pose proof (sim_start fl fs used _ Hr Hf Hu Hb) as Hs.
  destruct (sim_run _ _ _ _ _ _ _ _ Hs Hok Hfr E) as (acs & ph & fl' & used' & a & _ & Hs'). split.
  - intros t [th Ht]. by eapply someone_steps.
  - intros ts c' ls' E'. eapply steps_bounded; [|done]. eapply run_short; [|done]. intros t o p Ht. cbn in Ht.
    by rewrite lookup_empty in Ht.
Qed.

End bounded.
End simulation.
(** ** Deciding whether a history is that of an atomic file system *)

#[export] Instance op_eq_dec : EqDecision op.
Proof. solve_decision. Defined.
#[export] Instance answer_eq_dec : EqDecision answer.
Proof. solve_decision. Defined.
#[export] Instance label_eq_dec : EqDecision label.
Proof. solve_decision. Defined.

(** Operations that may take effect next. *)
Definition committed (a : astate) : list astate :=
  omap (fun t => fst <$> astep (ACommit t) a) ((map_to_list (athreads a)).*1).

Fixpoint closure (n : nat) (a : astate) : list astate :=
  a :: match n with O => [] | S n => committed a ≫= closure n end.

Definition visible (l : label) (a : astate) : list astate :=
  let ch := match l with Call t o => AInvoke t o | Return t _ _ => AReturn t end in
  match astep ch a with Some (a', ls) => if decide (ls = [l]) then [a'] else [] | None => [] end.

(** The states in which the atomic file system can be after a history. *)
Fixpoint explore (ls : list label) (a : astate) : list astate :=
  match ls with
  | [] => closure (size (athreads a)) a
  | l :: ls => closure (size (athreads a)) a ≫= fun b => visible l b ≫= explore ls
  end.

Definition pending (x : op + Z * answer) : Z := match x with inl _ => 1 | inr _ => 0 end.

Inductive quiet (a : astate) : astate -> Prop :=
| quiet_refl : quiet a a
| quiet_step t a1 a2 : astep (ACommit t) a = Some (a1, []) -> quiet a1 a2 -> quiet a a2.

Lemma commit_pending t a a' ls :
  astep (ACommit t) a = Some (a', ls) ->
  ls = [] /\ t ∈ (map_to_list (athreads a)).*1 /\ total pending (athreads a') = total pending (athreads a) - 1 /\
  size (athreads a') = size (athreads a).
Proof.
  cbn [astep]. destruct (athreads a !! t) as [[o|]|] eqn:Et; [|done|done]. destruct (spec o (afs a)) as [ra fs].
  intros [= <- <-]. split; [done|]. split; [|cbn; split].
  - apply list_elem_of_fmap. exists (t, inl o). split; [done|]. by apply elem_of_map_to_list.
  - rewrite (total_update _ _ _ _ _ Et). cbn. lia.
  - by rewrite map_size_insert_Some by eauto.
Qed.

Lemma pending_pos (ths : gmap nat (op + Z * answer)) : 0 <= total pending ths.
Proof. apply total_pos. by intros t [] _. Qed.

Lemma pending_size (ths : gmap nat (op + Z * answer)) : total pending ths <= Z.of_nat (size ths).
Proof.
  induction ths as [|t x ths Ht IH] using map_ind; [done|]. rewrite total_insert, map_size_insert_None by done.
  destruct x; cbn; lia.
Qed.

Lemma closure_complete n a a' : quiet a a' -> total pending (athreads a) <= Z.of_nat n -> a' ∈ closure n a.
Proof.
  intros Hq. revert n. induction Hq as [a|a t a1 a2 E Hq IH]; intros n Hn; [destruct n; by left|].
  destruct (commit_pending _ _ _ _ E) as (_ & Ht & Hp & _). pose proof (pending_pos (athreads a1)).
  destruct n as [|n]; [lia|]. right. apply list_elem_of_bind. exists a1. split; [apply IH; lia|].
  apply list_elem_of_omap. exists t. split; [done|]. by rewrite E.
Qed.

Lemma closure_sound n a a' : a' ∈ closure n a -> quiet a a'.
Proof.
  revert a. induction n as [|n IH]; intros a; cbn [closure]; rewrite elem_of_cons.
  - intros [->|?%elem_of_nil]; [constructor|done].
  - intros [->|(a1 & Ha' & Ha1)%list_elem_of_bind]; [constructor|].
    apply list_elem_of_omap in Ha1 as (t & _ & Et). apply fmap_Some in Et as ([a1' ls] & E & ->).
    destruct (commit_pending _ _ _ _ E) as (-> & _). econstructor; [done|]. by apply IH.
Qed.

Lemma closure_commit t a a1 a' :
  astep (ACommit t) a = Some (a1, []) -> a' ∈ closure (size (athreads a1)) a1 -> a' ∈ closure (size (athreads a)) a.
Proof.
  intros E Ha'. apply closure_complete; [|apply pending_size]. econstructor; [done|]. by eapply closure_sound.
Qed.

(** Every run of the atomic file system is found. *)
Lemma explore_complete acs a a' ls : arun acs a = Some (a', ls) -> a' ∈ explore ls a.
Proof.
  assert (Hself : forall b, b ∈ closure (size (athreads b)) b) by (intros b; destruct (size _); by left).
  revert a ls. induction acs as [|ch acs IH]; intros a ls E; cbn [arun] in E; [by injection E as <- <-|].
  destruct (astep ch a) as [[a1 l1]|] eqn:E1; [|done]. cbn in E. destruct (arun acs a1) as [[a2 l2]|] eqn:E2; [|done].
  cbn in E. injection E as -> <-. specialize (IH _ _ E2).
  assert (Hvis : forall l, l1 = [l] -> (match l with Call t o => AInvoke t o | Return t _ _ => AReturn t end) = ch ->
    a' ∈ explore (l1 ++ l2) a).
  { intros l -> <-. cbn [app explore]. apply list_elem_of_bind. exists a. split; [|done]. apply list_elem_of_bind.
    exists a1. split; [done|]. unfold visible. rewrite E1. rewrite decide_True by done. by left. }
  destruct ch as [t o|t|t].
  - apply (Hvis (Call t o)); [|done]. cbn in E1. destruct (athreads a !! t); [done|]. by injection E1 as _ <-.
  - destruct (commit_pending _ _ _ _ E1) as (-> & _). cbn [app]. destruct l2 as [|l l2]; cbn [explore] in *.
    + by eapply closure_commit.
    + apply list_elem_of_bind in IH as (b & Hb & Hc). apply list_elem_of_bind. exists b. split; [done|]. by eapply closure_commit.
  - cbn in E1. destruct (athreads a !! t) as [[|[r x]]|] eqn:Et; try done. injection E1 as <- <-.
    apply (Hvis (Return t r x)); [done|done].
Qed.

(** ** Instances *)

Section demo.
#[local] Instance demo_strings : StringLimit := extent_server.demo_limit.

(** The extents of a server that has just started. *)
Definition fresh_files : gmap Z bytes := {[ key 1 := [] ]}.

Lemma fresh_files_rep : rep (Store fresh_files ∅) empty_tree 0.
Proof.
  split; [|done|].
  - intros k b. cbn. unfold fresh_files. rewrite lookup_singleton_Some. intros [_ <-]. vm_compute. discriminate.
  - intros i Hi. cbn [files store_backend sfiles]. unfold fresh_files, empty_tree. destruct (decide (1 = i)) as [<-|Hne].
    + exists []. split; [done|]. split; [constructor|]. done.
    + rewrite lookup_singleton_ne by done. cbn. rewrite lookup_singleton_ne; [done|]. by apply key_inj.
Qed.

(** Two clients add entries to the root while a third asks for the file
    the first is creating, before its entry is written. *)
Definition demo_choices : list choice :=
  [Invoke 1 (Create 1 (str "a") [5]); Step 1; Invoke 2 (Mkdir 1 (str "b") [9]); Step 1; Step 1;
   Invoke 3 (Getfile 2147483653); Step 3; Step 3; Step 3; Step 3; Step 1; Step 1; Step 2; Step 1; Step 2; Step 2;
   Invoke 1 (Remove 1 (str "a")); Step 2; Step 2; Step 1; Step 2; Step 1; Step 1; Step 1; Step 1; Step 1; Step 1; Step 1].

Definition demo_history : list label :=
  [Call 1 (Create 1 (str "a") [5]); Call 2 (Mkdir 1 (str "b") [9]); Call 3 (Getfile 2147483653);
   Return 3 OK (Size 0); Return 1 OK (Inum 2147483653); Call 1 (Remove 1 (str "a")); Return 2 OK (Inum 9);
   Return 1 OK Nothing].

Lemma demo_history_run : snd <$> crun demo_choices (CState fresh_files ∅ ∅) = Some demo_history.
Proof. vm_compute. reflexivity. Qed.
Lemma demo_asked : Forall asked (calls demo_choices).
Proof.
  assert (Hname : forall b, bool_decide (colon ∉ b) && bool_decide (nl ∉ b) = true -> name_ok b).
  { intros b [H1 H2]%andb_prop. by apply bool_decide_eq_true in H1, H2. }
  assert (Hadd : forall n r i isf, 0 <= r < 2 ^ 31 -> bool_decide (colon ∉ n) && bool_decide (nl ∉ n) = true ->
    new_inum [r] 1 isf = Some i ->
    is_u32 1 /\ isfile 1 = false /\ name_ok n /\ Forall (fun r => 0 <= r < 2 ^ 31) [r] /\
    exists i, new_inum [r] 1 isf = Some i /\ (∅ : tree) !! i = None).
  { intros n r i isf Hr Hn Hi. split; [done|]. split; [done|]. split; [by apply Hname|]. split; [by constructor|].
    exists i. done. }
  cbn [calls demo_choices omap list_omap]. repeat (apply Forall_cons; split); [..|constructor]; (split; [|done]); cbn [op_ok].
  - by apply (Hadd _ _ 2147483653).
  - by apply (Hadd _ _ 9).
  - done.
  - done.
Qed.

Lemma yfs_linearizable_witness :
  exists acs a, arun acs (AState empty_tree ∅) = Some (a, demo_history) /\ tree_ok (afs a).
Proof.
  destruct (crun demo_choices (CState fresh_files ∅ ∅)) as [[c ls]|] eqn:E;
    pose proof demo_history_run as Hr; rewrite E in Hr; [|discriminate Hr]. injection Hr as ->.
  destruct (yfs_linearizable limit_fits demo_choices fresh_files empty_tree 0 c demo_history) as (acs & a & H1 & H2 & _).
  - apply fresh_files_rep.
  - apply empty_tree_ok.
  - lia.
  - vm_compute. discriminate.
  - apply demo_asked.
  - vm_compute. reflexivity.
  - exact E.
  - exists acs, a. split; [exact H1|exact H2].
Defined.

Lemma yfs_no_deadlock_witness :
  exists c ls, crun demo_choices (CState fresh_files ∅ ∅) = Some (c, ls) /\
    forall ts c' ls', crun (Step <$> ts) c = Some (c', ls') -> (length ts <= 8 * size (running c))%nat.
Proof.
  destruct (crun demo_choices (CState fresh_files ∅ ∅)) as [[c ls]|] eqn:E;
    pose proof demo_history_run as Hr; rewrite E in Hr; [|discriminate Hr]. exists c, ls. split; [reflexivity|].
  apply (yfs_no_deadlock limit_fits demo_choices fresh_files empty_tree 0 c ls).
  - apply fresh_files_rep.
  - apply empty_tree_ok.
  - lia.
  - vm_compute. discriminate.
  - apply demo_asked.
  - vm_compute. reflexivity.
  - exact E.
Defined.

(** One client has removed a file and not yet written the directory; the
    other is told that the file does not exist, and then finds it listed. *)
Definition listing_choices : list choice :=
  [Invoke 1 (Create 1 (str "a") [5])] ++ replicate 6 (Step 1) ++
  [Invoke 1 (Remove 1 (str "a"))] ++ replicate 4 (Step 1) ++
  [Invoke 2 (Read 2147483653 4 0); Step 2; Step 2; Invoke 2 (Readdir 1); Step 2; Step 2].

Definition listing_history : list label :=
  [Call 1 (Create 1 (str "a") [5]); Return 1 OK (Inum 2147483653); Call 1 (Remove 1 (str "a"));
   Call 2 (Read 2147483653 4 0); Return 2 NOENT Nothing;
   Call 2 (Readdir 1); Return 2 OK (Entries [(str "a", 2147483653)])].

(** C38: read and readir take no lock, and together they show a state the
    file system never has: while a client removes a file another client can
    be told that the file does not exist and afterwards be given its entry
    in the directory.  The run exists, and no run of the atomic file system
    has its history. *)
Theorem readdir_not_atomic :
  snd <$> crun listing_choices (CState fresh_files ∅ ∅) = Some listing_history /\
  forall acs a, arun acs (AState empty_tree ∅) <> Some (a, listing_history).
Proof.
  split; [vm_compute; reflexivity|]. intros acs a E. apply explore_complete in E.
  assert (Hnone : length (explore listing_history (AState empty_tree ∅)) = 0%nat) by (vm_compute; reflexivity).
  apply length_zero_iff_nil in Hnone. rewrite Hnone in E. by apply elem_of_nil in E.
Qed.

End demo.
End concurrent.
