(* ===== verification/YfsSystem.v ===== *)
(** * The whole system: yfs_client over its two servers

    Any number of threads run the operations of [YfsProgram]; their locks
    are those of the caching lock service of [LockSystem], clients, server
    and messages included, and their extents those of the handlers of
    extent_server.cc.  The runs are runs of [Concurrent], whose lock table
    and store stand for the two services. *)

From Stdlib Require Import ZArith Lia Strings.Byte.
From stdpp Require Import base list gmap sets.
From S2P Require Import Prelude Marshall Extent LockServer LockServerCache LockClientCache LockSystem Directory YfsClient Fuse FileSystem YfsProgram Concurrent.

#[local] Open Scope Z_scope.
#[local] Set Warnings "-clear-no-such-hyp,-register-all".

Module yfs_system.
Import yfs_client file_system program concurrent.
Import lock_client_cache(at_lock, tpc_of, move, cc).
Import lock_system(world, client, set_client, tid, quiet, world_new).

Abbreviation Out := lock_client_cache.Out.
Abbreviation Hold := lock_client_cache.Hold.

(** The lock service, the extent server and what each thread still does. *)
Record ysys := YSys {
  locks : world;
  extents : extent_server.table;
  threads : gmap nat (op * prog)
}.

(** The stubs of extent_client: a call as a request, the reply as the
    stub's results.  [now] is the server's clock. *)
Definition request_of (e : event) (now : Z) : option extent_server.request :=
  match e with
  | EAcquire _ | ERelease _ => None
  | EGet x => Some (extent_server.Get x now)
  | EPut x b => Some (extent_server.Put x b now)
  | EGetattr x => Some (extent_server.Getattr x)
  | ERemove x => Some (extent_server.Remove x)
  | EGetbuf x n off => Some (extent_server.Getbuf x n off now)
  | EPutbuf x off b => Some (extent_server.Putbuf x off b now)
  end.

Definition reply_of (s : Z) (p : extent_server.payload) : reply :=
  Reply s (odata (extent_server.observe p)) (osize (extent_server.observe p)).

(** The number random() gave a new entry is not in use when it is stored. *)
Definition number_free (o : op) (e : event) (st : extent_server.table) : Prop :=
  forall x b, e = EPut x b -> new_number o = Some x -> st !! key x = None.

Section system.
Context `{!StringLimit}.

(** The yfs_client process of each thread, by the id of its lock client. *)
Context (lc : nat -> bytes).

Abbreviation lock_client_of σ t := (client (locks σ) (lc t)).
Abbreviation lock_at σ t x := (at_lock (client (locks σ) (lc t)) (tid t) x).

Definition set_thread (t : nat) (o : op) (p : prog) (w : world) (σ : ysys) : ysys :=
  YSys w (extents σ) (<[t := (o, p)]> (threads σ)).

(** The steps of the system.  [guarded]: no acquire is processed while its
    lock waits in the retryer's queue (see [LockSystem]); [fresh]: random()
    gives new entries numbers that are not in use.  The program makes sure
    of neither: its own steps are those with [false]. *)
Inductive ystep (guarded fresh : bool) : ysys -> list label -> ysys -> Prop :=
| y_service σ w' :
    lock_system.step guarded (locks σ) w' -> quiet (locks σ) w' -> ystep guarded fresh σ [] (YSys w' (extents σ) (threads σ))
| y_call σ t o :
    threads σ !! t = None -> ystep guarded fresh σ [Call t o] (set_thread t o (prog_of o) (locks σ) σ)
| y_acquire σ t o x k p s :
    threads σ !! t = Some (o, Do (EAcquire x) k) -> lock_at σ t x = Out ->
    lock_client_cache.acquire x (Zpos (tid t)) (cc (lock_client_of σ t)) = (p, s) ->
    ystep guarded fresh σ [] (YSys (set_client (lc t) (move (tid t) x (tpc_of p) s (lock_client_of σ t)) (locks σ))
                  (extents σ) (threads σ))
| y_acquired σ t o x k :
    threads σ !! t = Some (o, Do (EAcquire x) k) -> lock_at σ t x = Hold ->
    ystep guarded fresh σ [] (set_thread t o (k (Reply lock_protocol.OK [] 0)) (locks σ) σ)
| y_release σ t o x k ret cnd s :
    threads σ !! t = Some (o, Do (ERelease x) k) ->
    lock_client_cache.release x (Zpos (tid t)) (cc (lock_client_of σ t)) = (ret, cnd, s) ->
    ystep guarded fresh σ [] (set_thread t o (k (Reply ret [] 0))
                  (if decide (ret = lock_protocol.OK)
                   then set_client (lc t) (move (tid t) x Out s (lock_client_of σ t)) (locks σ) else locks σ) σ)
| y_request σ t o e k now r s pl st' :
    threads σ !! t = Some (o, Do e k) -> request_of e now = Some r -> (fresh = true -> number_free o e (extents σ)) ->
    extent_server.serve r (extents σ) = Ret (s, pl, st') ->
    ystep guarded fresh σ [] (YSys (locks σ) st' (<[t := (o, k (reply_of s pl))]> (threads σ)))
| y_return σ t o r a :
    threads σ !! t = Some (o, Done r a) ->
    ystep guarded fresh σ [Return t r a] (YSys (locks σ) (extents σ) (delete t (threads σ))).

Inductive yrun (guarded fresh : bool) : ysys -> list label -> ysys -> Prop :=
| yrun_nil σ : yrun guarded fresh σ [] σ
| yrun_cons σ l σ' ls σ'' :
    ystep guarded fresh σ l σ' -> yrun guarded fresh σ' ls σ'' -> yrun guarded fresh σ (l ++ ls) σ''.

(** The operations called in a history. *)
Definition called (ls : list label) : list op := omap (fun l => match l with Call _ o => Some o | Return _ _ _ => None end) ls.

(** ** What the simulation of [Concurrent] says of the next call *)

Section bounded.
Context (Hmax : max_size < 2 ^ 31).

(** A thread does not ask for a lock it has. *)
Lemma acquires_other ph fl used B c a t o x k :
  sim ph fl used B c a -> 0 <= B -> running c !! t = Some (o, Do (EAcquire x) k) -> owner c !! x <> Some t.
Proof.
  intros Hs HB Ht. pose proof (s_threads _ _ _ _ _ _ Hs t) as Hok. rewrite Ht in Hok.
  destruct (ph !! t) as [[L R|m ls r y]|] eqn:Hph, (athreads a !! t) as [[o'|ra]|]; cbn in Hok; try done.
  - destruct Hok as (_ & _ & Hr & Hd & HL). inversion Hd as [|? ? ? ? Hn _| |? ? ? ? Hc _]; subst; [|done].
    rewrite <- (HL x). destruct (next_lock_entry Hmax _ _ _ _ _ _ _ _ _ _ _ _ Hs HB HL Hr Hn) as [[-> _]|(d & es & n & -> & Hes & Hin)];
      [set_solver|]. destruct (tr_rank _ (s_tree _ _ _ _ _ _ Hs)) as [rank Hrank]. specialize (Hrank _ _ _ _ Hes Hin).
    rewrite elem_of_singleton. intros ->. lia.
  - destruct Hok as (_ & Hp & _). destruct m as [[]|]; [done|]. by destruct ls.
Qed.

(** It releases only what it has. *)
Lemma releases_own ph fl used B c a t o x k :
  sim ph fl used B c a -> running c !! t = Some (o, Do (ERelease x) k) -> owner c !! x = Some t.
Proof.
  intros Hs Ht. pose proof (s_threads _ _ _ _ _ _ Hs t) as Hok. rewrite Ht in Hok.
  destruct (ph !! t) as [[L R|m ls r y]|] eqn:Hph, (athreads a !! t) as [[o'|ra]|]; cbn in Hok; try done.
  - destruct Hok as (_ & _ & _ & Hd & _). by inversion Hd.
  - destruct Hok as (_ & Hp & _ & HL & _). destruct m as [[]|]; [done|]. destruct ls as [|z ls]; [done|]. injection Hp as -> _.
    apply HL. set_solver.
Qed.

(** The extent server can serve it. *)
Lemma request_fits ph fl used B c a t o e k now r :
  sim ph fl used B c a -> 0 <= B -> running c !! t = Some (o, Do e k) -> request_of e now = Some r ->
  extent_server.request_ok r /\ forall st, ~ extent_server.oversize r st.
Proof.
  intros Hs HB Ht Hr. pose proof (s_threads _ _ _ _ _ _ Hs t) as Hok. rewrite Ht in Hok.
  assert (H0 : 0 <= max_size) by (pose proof (sim_bound _ _ _ _ _ _ Hs HB); pose proof (s_used _ _ _ _ _ _ Hs); lia).
  destruct (ph !! t) as [[L R|m ls r' y]|] eqn:Hph, (athreads a !! t) as [[o'|ra]|]; cbn in Hok; try done.
  - destruct Hok as (_ & _ & _ & Hd & _). inversion Hd as [|? ? ? ? _ _|? ? ? ? _ _|? ? ? ? Hc _]; subst; [done|injection Hr as <-; split; [done|by intros st []]|].
    destruct e as [z|z|z|z b|z|z|z n off|z off b]; try done; injection Hr as <-; cbn in *; (split; [try done|try by intros st []]).
    + destruct Hc as [[_ ?]|[-> _]]; [done|]. done.
    + by destruct Hc as (_ & _ & ? & ?).
    + destruct Hc as (_ & ? & ?). unfold is_u32. split; lia.
    + intros st [_ Hbig]. destruct Hc as (_ & ? & ?). lia.
  - destruct Hok as (_ & Hp & _ & _ & Hm). destruct m as [[y' b']|]; [|destruct ls; [done|]; by injection Hp as -> _].
    injection Hp as -> _. injection Hr as <-. split; [|by intros st []]. destruct (Hm y' b' eq_refl) as (_ & _ & _ & Hb).
    cbn. exact (rp_good _ _ _ (s_rep _ _ _ _ _ _ Hs) _ _ Hb).
Qed.

(** ** The link to [Concurrent] *)

Record linked (junk : Z) (σ : ysys) (c : cstate) : Prop := Linked {
  l_reach : lock_system.reachable true junk (locks σ);
  l_table : extent_server.table_ok (extents σ);
  l_files : shared c = extent_server.contents (extents σ);
  l_threads : running c = threads σ;
  l_locks : forall x t, owner c !! x = Some t -> lock_at σ t x = Hold
}.

(** A lock that a thread has got is nobody else's. *)
Lemma granted_free junk ph fl used B σ c a t o x k :
  sim ph fl used B c a -> 0 <= B -> linked junk σ c -> threads σ !! t = Some (o, Do (EAcquire x) k) ->
  lock_at σ t x = Hold -> owner c !! x = None.
Proof.
  intros Hs HB Hl Ht Hh. destruct (owner c !! x) as [t'|] eqn:Ex; [|done]. exfalso.
  pose proof (l_locks _ _ _ Hl _ _ Ex) as Hh'.
  destruct (lock_system.winv_exclusion _ _ _ _ _ _ (lock_system.reachable_winv _ _ (l_reach _ _ _ Hl)) Hh Hh') as (_ & Hid & _).
  apply lock_system.tid_inj in Hid as <-. rewrite <- (l_threads _ _ _ Hl) in Ht. by eapply acquires_other.
Qed.

(** What the thread of a held lock gets from release. *)
Lemma released_ok junk σ c x t ret cnd s :
  linked junk σ c -> owner c !! x = Some t ->
  lock_client_cache.release x (Zpos (tid t)) (cc (lock_client_of σ t)) = (ret, cnd, s) ->
  ret = lock_protocol.OK /\ lock_system.step true (locks σ) (set_client (lc t) (move (tid t) x Out s (lock_client_of σ t)) (locks σ)).
Proof.
  intros Hl Hx E. pose proof (l_locks _ _ _ Hl _ _ Hx) as Hh.
  split; [|apply lock_system.w_client; by eapply lock_client_cache.loc_release].
  pose proof (lock_system.reachable_winv _ _ (l_reach _ _ _ Hl)) as Hw.
  destruct (proj1 (lock_system.wi_good _ Hw (lc t)) _ _ Hh) as [H1 H2].
  destruct (lock_client_cache.busy_entry (lock_client_of σ t) x) as (l & El & Eg); [congruence|]. rewrite Eg in H1, H2.
  unfold lock_client_cache.release in E. rewrite El, H1, H2, Z.eqb_refl, bool_decide_true in E by done. by injection E as <- _ _.
Qed.

Ltac served Hsp :=
  cbn -[extent_server.spec]; unfold serve; cbn -[extent_server.spec];
  match type of Hsp with
  | extent_server.spec ?r ?f = _ =>
      match goal with |- context [extent_server.spec ?r' f] => change (extent_server.spec r' f) with (extent_server.spec r f) end
  end; rewrite Hsp; reflexivity.

(** A request to the extent server is one to the store. *)
Lemma request_exec e now r st s pl st' :
  extent_server.table_ok st -> extent_server.request_ok r -> request_of e now = Some r ->
  extent_server.serve r st = Ret (s, pl, st') ->
  exec e (Store (extent_server.contents st) ∅) = (reply_of s pl, Store (extent_server.contents st') ∅).
Proof.
  intros Hst Hr He E. pose proof (extent_server.serve_spec _ _ _ _ _ Hmax Hst Hr E) as Hsp.
  destruct e as [z|z|z|z b|z|z|z n off|z off b]; try done; injection He as <-; cbn [extent_server.serve] in E.
  - destruct (extent_server.get z [] now st) as [[s1 b1] st1]. injection E as <- <- <-. served Hsp.
  - injection E as <- <- <-. served Hsp.
  - destruct (extent_server.getattr z st) as [s1 at1]. injection E as <- <- <-. served Hsp.
  - destruct (extent_server.remove z st) as [s1 st1]. injection E as <- <- <-. served Hsp.
  - destruct (extent_server.getbuf z n off [] now st) as [[[s1 b1] st1]|]; [|done]. injection E as <- <- <-. served Hsp.
  - destruct (extent_server.putbuf z off b now st) as [[s1 st1]|]; [|done]. injection E as <- <- <-. served Hsp.
Qed.

(** *** Steps *)

(** One choice of the machine of [Concurrent], or none. *)
Definition follows (junk : Z) (c : cstate) (l : list label) (σ' : ysys) : Prop :=
  exists chs c', crun chs c = Some (c', l) /\ calls chs = called l /\ fresh_numbers chs c = true /\ (length chs <= 1)%nat /\
    linked junk σ' c'.

Lemma follows_stay junk σ' c : linked junk σ' c -> follows junk c [] σ'.
Proof. intros Hl. exists [], c. split_and!; [done|done|done|cbn; lia|done]. Qed.

Lemma follows_step junk c ch c' l σ' :
  cstep ch c = Some (c', l) -> calls [ch] = called l -> fresh_step ch c = true -> linked junk σ' c' -> follows junk c l σ'.
Proof.
  intros E Hc Hfr Hl. exists [ch], c'. split_and!; [|done| |done|done].
  - cbn [crun]. rewrite E. cbn. by rewrite app_nil_r.
  - cbn [fresh_numbers]. by rewrite Hfr, E.
Qed.

Lemma fresh_other c t o e k :
  running c !! t = Some (o, Do e k) -> (forall x b, e = EPut x b -> new_number o = Some x -> shared c !! key x = None) ->
  fresh_step (Step t) c = true.
Proof.
  intros Ht Hf. cbn [fresh_step]. rewrite Ht. destruct e; try done.
  destruct (decide (new_number o = Some id)) as [Hn|Hn]; apply orb_true_intro; [right|left]; apply bool_decide_eq_true; [by eapply Hf|done].
Qed.

Lemma acquire_follows junk σ c t o x k :
  linked junk σ c -> threads σ !! t = Some (o, Do (EAcquire x) k) -> lock_at σ t x = Hold -> owner c !! x = None ->
  follows junk c [] (set_thread t o (k (Reply lock_protocol.OK [] 0)) (locks σ) σ).
Proof.
  intros [H1 H2 H3 H4 H5] Ht Hh Hx.
  apply (follows_step junk c (Step t) (CState (shared c) (<[x := t]> (owner c)) (<[t := (o, k (Reply lock_protocol.OK [] 0))]> (running c)))).
  - cbn [cstep]. rewrite H4, Ht. cbn. by rewrite Hx, H4.
  - done.
  - by eapply fresh_other; [rewrite H4|].
  - split; cbn; try done; [by rewrite H4|]. intros y u. rewrite lookup_insert_Some. intros [[<- <-]|[_ Hy]]; [done|by apply H5].
Qed.

Lemma release_follows junk σ c t o x k ret cnd s :
  linked junk σ c -> threads σ !! t = Some (o, Do (ERelease x) k) -> owner c !! x = Some t ->
  lock_client_cache.release x (Zpos (tid t)) (cc (lock_client_of σ t)) = (ret, cnd, s) ->
  follows junk c [] (set_thread t o (k (Reply ret [] 0))
    (if decide (ret = lock_protocol.OK)
     then set_client (lc t) (move (tid t) x Out s (lock_client_of σ t)) (locks σ) else locks σ) σ).
Proof.
  intros Hl Ht Hx E. destruct (released_ok _ _ _ _ _ _ _ _ Hl Hx E) as [-> Hstep]. rewrite decide_True by done.
  destruct Hl as [H1 H2 H3 H4 H5].
  apply (follows_step junk c (Step t) (CState (shared c) (delete x (owner c)) (<[t := (o, k (Reply lock_protocol.OK [] 0))]> (running c)))).
  - cbn [cstep]. rewrite H4, Ht. cbn [advance]. rewrite decide_True by done. cbn. by rewrite H4.
  - done.
  - by eapply fresh_other; [rewrite H4|].
  - split; cbn; try done; [by eapply lock_system.reach_next|by rewrite H4|].
    intros y u. rewrite lookup_delete_Some. intros [Hne Hy]. apply (lock_system.hold_frame lc); [by apply H5|].
    destruct (decide (u = t)) as [->|]; [|by left]. right; left. congruence.
Qed.

Lemma request_follows junk σ c t o e k now r s pl st' :
  linked junk σ c -> threads σ !! t = Some (o, Do e k) -> request_of e now = Some r -> extent_server.request_ok r ->
  number_free o e (extents σ) ->
  extent_server.serve r (extents σ) = Ret (s, pl, st') ->
  follows junk c [] (YSys (locks σ) st' (<[t := (o, k (reply_of s pl))]> (threads σ))).
Proof.
  intros [H1 H2 H3 H4 H5] Ht He Hr Hput E. pose proof (request_exec _ _ _ _ _ _ _ H2 Hr He E) as Hx.
  apply (follows_step junk c (Step t) (CState (extent_server.contents st') (owner c) (<[t := (o, k (reply_of s pl))]> (running c)))).
  - cbn [cstep]. rewrite H4, Ht. unfold advance. rewrite H3, Hx, H4. cbn [sfiles].
    destruct e as [z|z|z|z b|z|z|z n off|z off b]; done.
  - done.
  - eapply fresh_other; [by rewrite H4|]. intros x b Hx' Hn. rewrite H3, extent_server.lookup_contents, (Hput x b Hx' Hn). done.
  - split; cbn; try done; [|by rewrite H4]. eapply extent_server.serve_table_ok; [exact H2|exact Hr| |exact E].
    destruct e; try done; by injection He as <-.
Qed.

Lemma ystep_follows junk ph fl used B σ c a l σ' :
  sim ph fl used B c a -> 0 <= B -> linked junk σ c -> ystep true true σ l σ' -> follows junk c l σ'.
Proof.
  intros Hs HB Hl Hy. destruct Hy as [σ w' Hw Hq|σ t o Ht|σ t o x k p s Ht Hout E|σ t o x k Ht Hh|σ t o x k ret cnd s Ht E
    |σ t o e k now r s pl st' Ht He Hfree E|σ t o r y Ht].
  - apply follows_stay. destruct Hl as [H1 H2 H3 H4 H5]. split; cbn; try done; [by eapply lock_system.reach_next|].
    intros x t Hx. apply (proj2 (Hq _ _ _)). by apply H5.
  - destruct Hl as [H1 H2 H3 H4 H5].
    apply (follows_step junk c (Invoke t o) (CState (shared c) (owner c) (<[t := (o, prog_of o)]> (running c)))).
    + cbn [cstep]. by rewrite H4, Ht.
    + done.
    + cbn [fresh_step]. by rewrite ?H4, ?Ht.
    + split; cbn; try done. by rewrite H4.
  - apply follows_stay. destruct Hl as [H1 H2 H3 H4 H5]. split; try done.
    + eapply lock_system.reach_next; [done|]. apply lock_system.w_client. apply lock_client_cache.loc_acquire; [by left|done].
    + intros y u Hy. apply (lock_system.hold_frame lc); [by apply H5|]. right; right. by rewrite Hout.
  - eapply acquire_follows; try done. by eapply granted_free.
  - eapply release_follows; try done. rewrite <- (l_threads _ _ _ Hl) in Ht. by eapply releases_own.
  - pose proof Ht as Ht'. rewrite <- (l_threads _ _ _ Hl) in Ht'.
    eapply request_follows; try done; [by eapply request_fits|]. by apply Hfree.
  - destruct Hl as [H1 H2 H3 H4 H5].
    apply (follows_step junk c (Step t) (CState (shared c) (owner c) (delete t (running c)))).
    + cbn [cstep]. by rewrite H4, Ht.
    + done.
    + cbn [fresh_step]. by rewrite ?H4, ?Ht.
    + split; cbn; try done. by rewrite H4.
Qed.

(** *** Runs *)

Lemma yrun_sim junk σ ls σ' ph fl used B c a :
  yrun true true σ ls σ' -> sim ph fl used (costs (called ls) + B) c a -> 0 <= B -> linked junk σ c -> Forall asked (called ls) ->
  exists acs ph' fl' used' c' a', arun acs a = Some (a', ls) /\ sim ph' fl' used' B c' a' /\ linked junk σ' c'.
Proof.
  intros Hrun. revert ph fl used c a. induction Hrun as [σ|σ l σ1 ls σ2 Hstep _ IH]; intros ph fl used c a Hs HB Hl Hok.
  { exists [], ph, fl, used, c, a. done. }
  unfold called in Hs, Hok. rewrite omap_app in Hs, Hok. fold (called l) (called ls) in Hs, Hok.
  rewrite costs_app, <- Z.add_assoc in Hs. apply Forall_app in Hok as [Hok1 Hok2].
  pose proof (costs_pos (called ls)) as Hpos.
  assert (H0 : 0 <= costs (called l) + (costs (called ls) + B)) by (pose proof (costs_pos (called l)); lia).
  destruct (ystep_follows _ _ _ _ _ _ _ _ _ _ Hs H0 Hl Hstep) as (chs & c1 & Ec & Hcl & Hfr & Hlen & Hl1).
  assert (exists acs ph1 fl1 used1 a1, arun acs a = Some (a1, l) /\ sim ph1 fl1 used1 (costs (called ls) + B) c1 a1)
    as (acs & ph1 & fl1 & used1 & a1 & Ea & Hs1).
  { destruct chs as [|ch [|? ?]]; [| |cbn in Hlen; lia].
    - cbn [crun] in Ec. injection Ec as <- <-. exists [], ph, fl, used, a. done.
    - cbn [crun] in Ec. destruct (cstep ch c) as [[c2 l2]|] eqn:E1; [|done]. cbn in Ec. injection Ec as <- <-.
      rewrite app_nil_r in *. rewrite <- Hcl in Hs, Hok1. eapply sim_step; [exact Hmax|exact Hs|lia|done|by apply andb_prop in Hfr as [? _]|exact E1]. }
  destruct (IH _ _ _ _ _ Hs1 HB Hl1 Hok2) as (acs' & ph2 & fl2 & used2 & c2 & a2 & Ea' & Hs2 & Hl2).
  exists (acs ++ acs'), ph2, fl2, used2, c2, a2. split_and!; [by eapply arun_app|done|done].
Qed.

(** C1: the whole system is an atomic file system.  Any number of threads
    in any number of processes run operations of yfs_client over the caching
    lock service, with its clients, server, jobs and messages, and over the
    handlers of the extent server; all of it interleaves in any way in which
    no acquire is processed while its lock waits in the retryer's queue
    ([guarded]) and random() gives new entries numbers that are not in use
    ([fresh]).  The operations called are all but readir, with numbers of
    the right kind, names without ':' and newline, sizes and offsets within
    the limit of strings and usable random numbers, and the bytes they may
    add fit together with those stored into a string.  Then what the threads
    see, calls and returns, is a history of the file system whose operations
    take effect at once; the tree stays well formed and the server's bytes
    represent it when no operation runs.  On the way the extent server never
    ends on a request of such an operation, and no thread releases a lock it
    does not hold. *)
Theorem yfs_system_linearizable (junk : Z) (st : extent_server.table) (fs : tree) (used : Z) (ls : list label) (σ : ysys) :
  extent_server.table_ok st -> rep (Store (extent_server.contents st) ∅) fs used -> tree_ok fs -> 0 <= used ->
  used + costs (called ls) <= max_size -> Forall asked (called ls) -> yrun true true (YSys (world_new junk) st ∅) ls σ ->
  (exists acs a, arun acs (AState fs ∅) = Some (a, ls) /\ tree_ok (afs a) /\
    (threads σ = ∅ -> rep (Store (extent_server.contents (extents σ)) ∅) (afs a) max_size)) /\
  (forall t o e k now r, threads σ !! t = Some (o, Do e k) -> request_of e now = Some r ->
     returns (extent_server.serve r (extents σ))) /\
  (forall t o x k, threads σ !! t = Some (o, Do (ERelease x) k) -> lock_at σ t x = Hold).
Proof.
  intros Hst Hr Hf Hu Hb Hok Hrun.
  assert (Hs : sim ∅ (extent_server.contents st) used (costs (called ls) + 0) (CState (extent_server.contents st) ∅ ∅) (AState fs ∅)).
  { apply sim_start; try done. lia. }
  assert (Hl : linked junk (YSys (world_new junk) st ∅) (CState (extent_server.contents st) ∅ ∅)).
  { split; cbn; try done. apply lock_system.reach_new. }
  destruct (yrun_sim _ _ _ _ _ _ _ _ _ _ Hrun Hs (Z.le_refl 0) Hl Hok) as (acs & ph & fl & used' & c & a & Ea & Hs' & Hl').
  split_and!.
  - exists acs, a. split; [done|]. split; [apply Hs'|]. intros Ht. rewrite <- (l_files _ _ _ Hl'). eapply sim_idle; [exact Hs'|lia|].
    by rewrite (l_threads _ _ _ Hl').
  - intros t o e k now r Ht He. rewrite <- (l_threads _ _ _ Hl') in Ht.
    destruct (request_fits _ _ _ _ _ _ _ _ _ _ _ _ Hs' (Z.le_refl 0) Ht He) as [Hfit Hno].
    by apply (extent_server.serve_total r (extents σ) Hmax (l_table _ _ _ Hl') Hfit).
  - intros t o x k Ht. apply (l_locks _ _ _ Hl'). rewrite <- (l_threads _ _ _ Hl') in Ht. by eapply releases_own.
Qed.

End bounded.
End system.

(** ** Running a schedule *)

(** The steps as an executable function, for concrete runs. *)
Inductive ychoice :=
| Service (a : lock_system.action)
| Calls (t : nat) (o : op)
| Acquires (t : nat)
| Acquired (t : nat)
| Releases (t : nat)
| Requests (t : nat) (now : Z)
| Returns (t : nat).

(** Nobody enters acquire or leaves with release. *)
Definition calm (p p' : lock_client_cache.tpc) : bool :=
  match p, p' with
  | lock_client_cache.Out, lock_client_cache.Out | lock_client_cache.Hold, lock_client_cache.Hold => true
  | lock_client_cache.Out, _ | _, lock_client_cache.Out | lock_client_cache.Hold, _ => false
  | _, _ => true
  end.

Definition quietb (w w' : world) : bool :=
  forallb (fun c =>
    forallb (fun k => calm (at_lock (client w c) k.1 k.2) (at_lock (client w' c) k.1 k.2))
      (elements (dom (lock_client_cache.threads (client w c)) ∪ dom (lock_client_cache.threads (client w' c)))))
    (elements (dom (lock_system.clients w) ∪ dom (lock_system.clients w'))).

Lemma calm_spec p p' : calm p p' = true -> (p' = Out <-> p = Out) /\ (p = Hold -> p' = Hold).
Proof. destruct p, p'; done. Qed.

Lemma quietb_sound w w' : quietb w w' = true -> quiet w w'.
Proof.
  intros Hq c t x. unfold quietb in Hq. rewrite forallb_forall in Hq.
  destruct (decide (c ∈ dom (lock_system.clients w) ∪ dom (lock_system.clients w'))) as [Hc|Hc].
  - specialize (Hq c). rewrite <- list_elem_of_In, elem_of_elements in Hq. specialize (Hq Hc). rewrite forallb_forall in Hq.
    destruct (decide ((t, x) ∈ dom (lock_client_cache.threads (client w c)) ∪ dom (lock_client_cache.threads (client w' c)))) as [Ht|Ht].
    + specialize (Hq (t, x)). rewrite <- list_elem_of_In, elem_of_elements in Hq. by apply calm_spec, Hq.
    + apply not_elem_of_union in Ht as [H1%not_elem_of_dom H2%not_elem_of_dom]. unfold at_lock. by rewrite H1, H2.
  - apply not_elem_of_union in Hc as [H1%not_elem_of_dom H2%not_elem_of_dom]. unfold client. by rewrite H1, H2.
Qed.

Section exec.
Context `{!StringLimit} (lc : nat -> bytes).

Definition number_freeb (o : op) (e : event) (st : extent_server.table) : bool :=
  match e, new_number o with EPut x _, Some y => negb (x =? y) || bool_decide (st !! key x = None) | _, _ => true end.

Lemma number_freeb_sound o e st : number_freeb o e st = true -> number_free o e st.
Proof.
  unfold number_freeb. intros Hf x b -> Hn. rewrite Hn, Z.eqb_refl in Hf. cbn in Hf. by apply bool_decide_eq_true in Hf.
Qed.

Definition ydo (ch : ychoice) (σ : ysys) : option (list label * ysys) :=
  match ch with
  | Service a =>
      w' ← lock_system.exec true a (locks σ); if quietb (locks σ) w' then Some ([], YSys w' (extents σ) (threads σ)) else None
  | Calls t o =>
      match threads σ !! t with None => Some ([Call t o], set_thread t o (prog_of o) (locks σ) σ) | Some _ => None end
  | Acquires t =>
      match threads σ !! t with
      | Some (o, Do (EAcquire x) k) =>
          let σc := client (locks σ) (lc t) in
          match at_lock σc (tid t) x, lock_client_cache.acquire x (Zpos (tid t)) (cc σc) with
          | lock_client_cache.Out, (p, s) =>
              Some ([], YSys (set_client (lc t) (move (tid t) x (tpc_of p) s σc) (locks σ)) (extents σ) (threads σ))
          | _, _ => None
          end
      | _ => None
      end
  | Acquired t =>
      match threads σ !! t with
      | Some (o, Do (EAcquire x) k) =>
          match at_lock (client (locks σ) (lc t)) (tid t) x with
          | lock_client_cache.Hold => Some ([], set_thread t o (k (Reply lock_protocol.OK [] 0)) (locks σ) σ)
          | _ => None
          end
      | _ => None
      end
  | Releases t =>
      match threads σ !! t with
      | Some (o, Do (ERelease x) k) =>
          let σc := client (locks σ) (lc t) in
          let '(ret, _, s) := lock_client_cache.release x (Zpos (tid t)) (cc σc) in
          Some ([], set_thread t o (k (Reply ret [] 0))
            (if decide (ret = lock_protocol.OK) then set_client (lc t) (move (tid t) x Out s σc) (locks σ) else locks σ) σ)
      | _ => None
      end
  | Requests t now =>
      match threads σ !! t with
      | Some (o, Do e k) =>
          r ← request_of e now;
          match extent_server.serve r (extents σ) with
          | Ret (s, pl, st') =>
              if number_freeb o e (extents σ)
              then Some ([], YSys (locks σ) st' (<[t := (o, k (reply_of s pl))]> (threads σ))) else None
          | Crash _ => None
          end
      | _ => None
      end
  | Returns t =>
      match threads σ !! t with
      | Some (o, Done r a) => Some ([Return t r a], YSys (locks σ) (extents σ) (delete t (threads σ)))
      | _ => None
      end
  end.

Lemma ydo_sound ch σ l σ' : ydo ch σ = Some (l, σ') -> ystep lc true true σ l σ'.
Proof.
  destruct ch as [a|t o|t|t|t|t now|t]; cbn [ydo].
  - destruct (lock_system.exec true a (locks σ)) as [w'|] eqn:E; [|done]. cbn.
    destruct (quietb (locks σ) w') eqn:Eq; [|done]. intros [= <- <-].
    constructor; [by apply (lock_system.exec_sound true a)|by apply quietb_sound].
  - destruct (threads σ !! t) eqn:Et; [done|]. intros [= <- <-]. by constructor.
  - destruct (threads σ !! t) as [[o [| |[x| | | | | | | ] k]]|] eqn:Et; try done.
    destruct (at_lock _ _ _) eqn:Ea; try done. destruct (lock_client_cache.acquire _ _ _) as [p s] eqn:E.
    intros [= <- <-]. by eapply y_acquire.
  - destruct (threads σ !! t) as [[o [| |[x| | | | | | | ] k]]|] eqn:Et; try done.
    destruct (at_lock _ _ _) eqn:Ea; try done. intros [= <- <-]. by eapply y_acquired.
  - destruct (threads σ !! t) as [[o [| |[|x| | | | | | ] k]]|] eqn:Et; try done.
    destruct (lock_client_cache.release _ _ _) as [[ret cnd] s] eqn:E. intros [= <- <-]. by eapply y_release.
  - destruct (threads σ !! t) as [[o [| |e k]]|] eqn:Et; try done. destruct (request_of e now) as [r|] eqn:Er; [|done]. cbn.
    destruct (extent_server.serve r (extents σ)) as [[[s pl] st']|] eqn:E; [|done].
    destruct (number_freeb o e (extents σ)) eqn:En; [|done]. intros [= <- <-].
    eapply y_request; try done. intros _. by apply number_freeb_sound.
  - destruct (threads σ !! t) as [[o [r a| |e k]]|] eqn:Et; try done. intros [= <- <-]. by eapply y_return.
Qed.

Fixpoint ydos (chs : list ychoice) (σ : ysys) : option (list label * ysys) :=
  match chs with
  | [] => Some ([], σ)
  | ch :: chs => '(l, σ) ← ydo ch σ; '(ls, σ) ← ydos chs σ; Some (l ++ ls, σ)
  end.

Lemma ydos_sound chs σ ls σ' : ydos chs σ = Some (ls, σ') -> yrun lc true true σ ls σ'.
Proof.
  revert σ ls. induction chs as [|ch chs IH]; intros σ ls; cbn [ydos]; [intros [= <- <-]; constructor|].
  destruct (ydo ch σ) as [[l σ1]|] eqn:E1; [|done]. cbn. destruct (ydos chs σ1) as [[ls1 σ2]|] eqn:E2; [|done]. cbn.
  intros [= <- <-]. eapply yrun_cons; [by eapply ydo_sound|by apply IH].
Qed.
End exec.


Section demo.
#[local] Instance demo_strings : StringLimit := extent_server.demo_limit.

(** Two processes: thread 0 creates a file while thread 1 asks for it; the
    second one's acquire is told to retry, the lock is revoked from the
    first and granted to the second. *)
Definition two_processes (t : nat) : bytes := match t with O => str "a" | _ => str "b" end.
Definition demo_server : extent_server.table := extent_server.extent_server_new 5.
Definition demo_start : ysys := YSys (world_new 0) demo_server ∅.

Definition system_choices : list ychoice :=
  [Calls 0 (Create 1 (str "a") [5]); Acquires 0; Service (lock_system.Served (str "a") 1 1);
   Service (lock_system.Returned (str "a") 1 1); Calls 1 (Lookup 1 (str "a")); Acquires 1;
   Service (lock_system.Served (str "b") 2 1); Acquired 0; Requests 0 6; Requests 0 7; Requests 0 8;
   Service (lock_system.Revoker 1); Service (lock_system.RevokeSends 1 rlock_protocol.RPCERR);
   Service (lock_system.Revoked (str "a") 1); Releases 0; Returns 0; Service (lock_system.RevokeDone (str "a") 1);
   Service (lock_system.Releaser (str "a") 1); Service (lock_system.Starts (str "a") 1);
   Service (lock_system.ServedRelease (str "a") 1); Service (lock_system.Retryer 2); Service (lock_system.RetrySends 2);
   Service (lock_system.Retried 2); Service (lock_system.Returned (str "b") 2 1); Acquired 1; Requests 1 9; Releases 1; Returns 1].

Definition system_history : list label :=
  [Call 0 (Create 1 (str "a") [5]); Call 1 (Lookup 1 (str "a")); Return 0 OK (Inum 2147483653);
   Return 1 OK (Inum 2147483653)].

Lemma system_run : fst <$> ydos two_processes system_choices demo_start = Some system_history.
Proof. vm_compute. reflexivity. Qed.

Lemma system_asked : Forall asked (called system_history).
Proof.
  cbn [called system_history omap list_omap]. repeat (apply Forall_cons; split); [..|constructor]; (split; [|done]); cbn [op_ok]; [|done].
  split; [done|]. split; [done|]. split; [by split; apply (bool_decide_unpack _); vm_compute|]. split; [by constructor|].
  exists 2147483653. done.
Qed.

Lemma demo_server_rep : rep (Store (extent_server.contents demo_server) ∅) empty_tree 0.
Proof. exact fresh_files_rep. Qed.

Lemma yfs_system_linearizable_witness :
  exists acs a, arun acs (AState empty_tree ∅) = Some (a, system_history) /\ tree_ok (afs a).
Proof.
  destruct (ydos two_processes system_choices demo_start) as [[ls σ]|] eqn:E;
    pose proof system_run as Hr; rewrite E in Hr; [|discriminate Hr]. injection Hr as ->.
  destruct (yfs_system_linearizable two_processes limit_fits 0 demo_server empty_tree 0 system_history σ) as ((acs & a & H1 & H2 & _) & _).
  - apply extent_server.table_ok_new. vm_compute. discriminate.
  - apply demo_server_rep.
  - apply empty_tree_ok.
  - lia.
  - vm_compute. discriminate.
  - apply system_asked.
  - eapply ydos_sound. exact E.
  - exists acs, a. split; [exact H1|exact H2].
Defined.

End demo.
End yfs_system.
