(* ===== verification/Posix.v ===== *)
(** * The system calls the file system tests make

    The test programs run as processes over a mounted file system; the
    kernel and libfuse between them and fuse.cc are not part of the
    sources.  They are a parameter here: a class with the calls as an
    operation and one law, a contract that says what POSIX says of the
    calls the tests make and nothing of other uses.  Processes are trees of
    calls, a test a sequence of stretches some of which run beside a forked
    child; a rely-guarantee logic for stretches carries over to all runs. *)

From Stdlib Require Import ZArith Lia Strings.Byte.
From stdpp Require Import base list gmap sets sorting.
From S2P Require Import Prelude Extent.

#[local] Open Scope Z_scope.
#[local] Set Warnings "-clear-no-such-hyp,-register-all".

Module posix.

(** ** Calls *)

(** opendir, readdir and closedir are of the C library. *)
Inductive call :=
| Creat (path : bytes)
| Open (path : bytes) (flags : Z)
| Read (fd n : Z)
| Write (fd : Z) (b : bytes)
| Close (fd : Z)
| Lseek (fd off : Z)
| Fsync (fd : Z)
| Unlink (path : bytes)
| Mkdir (path : bytes)
| Access (path : bytes)
| Opendir (path : bytes)
| Readdir (dp : Z)
| Closedir (dp : Z).

(** The value returned, errno after the call, the bytes stored.  For
    readdir the value is 0 at the end, and the bytes are d_name. *)
Record result := Result { rc : Z; errno : Z; rbuf : bytes }.

Definition O_RDONLY : Z := 0.
Definition O_WRONLY : Z := 1.
Definition O_CREAT : Z := 64.
Definition O_APPEND : Z := 1024.
Definition EEXIST : Z := 17.

(** ** The contract *)

(** A file with its identity, or a directory's number. *)
Inductive node := NFile (ino : Z) (b : bytes) | NDir (D : Z).

(** The directories. *)
Abbreviation fsys := (gmap Z (gmap bytes node)).

(** How a file is open: to read, to write, to append. *)
Inductive mode := Reading | Writing | Appending.

(** An open file: the entry it was opened through, what it was, and the
    offset. *)
Record fdesc := Fdesc { fd_dir : Z; fd_name : bytes; fd_ino : Z; fd_off : Z; fd_mode : mode }.

(** A directory stream: the directory, its names when it was opened, and
    the entries still to come. *)
Record dstream := Stream { ds_dir : Z; ds_names : gset bytes; ds_rest : list bytes }.

(** What belongs to one process: open files and directory streams. *)
Record local := Local { fds : gmap Z fdesc; streams : gmap Z dstream }.

Definition slash : byte := Z_byte 47.
Definition dot : byte := Z_byte 46.

(** Split a path at its last slash. *)
Fixpoint split_last (path : bytes) : option (bytes * bytes) :=
  match path with
  | [] => None
  | c :: p =>
      match split_last p with
      | Some (d, f) => Some (c :: d, f)
      | None => if decide (c = slash) then Some ([], p) else None
      end
  end.

(** The node an entry leads to. *)
Definition entry (fs : fsys) (D : Z) (f : bytes) : option node := m ← fs !! D; m !! f.

Definition set_entry (fs : fsys) (D : Z) (f : bytes) (x : option node) : fsys :=
  <[D := partial_alter (fun _ => x) f (default ∅ (fs !! D))]> fs.

(** The contents of what an open file refers to, while its entry has not
    been removed or replaced. *)
Definition contents (fs : fsys) (d : fdesc) : option bytes :=
  match entry fs (fd_dir d) (fd_name d) with
  | Some (NFile i b) => if i =? fd_ino d then Some b else None
  | _ => None
  end.

Definition set_off (off : Z) (d : fdesc) : fdesc := Fdesc (fd_dir d) (fd_name d) (fd_ino d) off (fd_mode d).
Definition set_fd (fd : Z) (d : fdesc) (l : local) : local := Local (<[fd := d]> (fds l)) (streams l).
Definition set_stream (dp : Z) (st : dstream) (l : local) : local := Local (fds l) (<[dp := st]> (streams l)).

Section contract.

(** Where file systems are mounted. *)
Context (mount : bytes -> option Z).

(** The directory a path leads to: a mount point or just below one. *)
Definition dir_of (fs : fsys) (d : bytes) : option Z :=
  match mount d with
  | Some D => Some D
  | None =>
      '(p, f) ← split_last d; D ← mount p;
      match entry fs D f with Some (NDir D') => Some D' | _ => None end
  end.

(** A file opened anew, at its start. *)
Definition opened (l : local) (D : Z) (f : bytes) (ino : Z) (md : mode) (r : result) (l' : local) : Prop :=
  0 <= rc r /\ fds l !! rc r = None /\ l' = set_fd (rc r) (Fdesc D f ino 0 md) l.

Definition failed (r : result) (fs : fsys) (l : local) (fs' : fsys) (l' : local) : Prop :=
  rc r < 0 /\ fs' = fs /\ l' = l.

(** The ways the tests open files. *)
Definition open_mode (flags : Z) : option mode :=
  if flags =? O_RDONLY then Some Reading
  else if flags =? Z.lor O_WRONLY O_APPEND then Some Appending
  else if flags =? Z.lor O_WRONLY O_CREAT then Some Writing
  else None.

(** What is known of a call in a path's directory [D] about the name [f]. *)
Definition by_path (c : call) (D : Z) (f : bytes) (fs : fsys) (l : local) (r : result) (fs' : fsys) (l' : local) : Prop :=
  match c with
  | Creat _ =>
      match entry fs D f with
      | Some (NFile i _) => fs' = set_entry fs D f (Some (NFile i [])) /\ opened l D f i Writing r l'
      | None => exists i, fs' = set_entry fs D f (Some (NFile i [])) /\ opened l D f i Writing r l'
      | Some (NDir _) => failed r fs l fs' l'
      end
  | Open _ flags =>
      match entry fs D f with
      | Some (NFile i _) =>
          forall md, open_mode flags = Some md -> fs' = fs /\ opened l D f i md r l'
      | None =>
          if flags =? Z.lor O_WRONLY O_CREAT
          then exists i, fs' = set_entry fs D f (Some (NFile i [])) /\ opened l D f i Writing r l'
          else is_Some (open_mode flags) -> failed r fs l fs' l'
      | Some (NDir _) => True
      end
  | Unlink _ =>
      match entry fs D f with
      | Some (NFile _ _) => rc r = 0 /\ fs' = set_entry fs D f None /\ l' = l
      | _ => failed r fs l fs' l'
      end
  | Mkdir _ =>
      match entry fs D f with
      | None => exists D', fs !! D' = None /\ rc r = 0 /\ fs' = set_entry (<[D' := ∅]> fs) D f (Some (NDir D')) /\ l' = l
      | Some _ => failed r fs l fs' l'
      end
  | Access _ =>
      match entry fs D f with Some _ => rc r = 0 /\ fs' = fs /\ l' = l | None => failed r fs l fs' l' end
  | _ => True
  end.

(** And of a call on the open file [d]. *)
Definition by_fd (c : call) (d : fdesc) (fs : fsys) (l : local) (r : result) (fs' : fsys) (l' : local) : Prop :=
  match c with
  | Read fd n =>
      match contents fs d with
      | Some b =>
          0 <= n -> fd_mode d = Reading -> fs' = fs /\ rbuf r = take (Z.to_nat n) (drop (Z.to_nat (fd_off d)) b) /\ rc r = lenZ (rbuf r) /\
            l' = set_fd fd (set_off (fd_off d + rc r) d) l
      | None => True
      end
  | Write fd b =>
      match contents fs d with
      | Some s =>
          let off := match fd_mode d with Appending => lenZ s | _ => fd_off d end in
          fd_mode d <> Reading -> fs' = set_entry fs (fd_dir d) (fd_name d) (Some (NFile (fd_ino d) (extent_server.write_at s (Z.to_nat off) b))) /\
            rc r = lenZ b /\ l' = set_fd fd (set_off (off + lenZ b) d) l
      | None => True
      end
  | Close fd => rc r = 0 /\ fs' = fs /\ l' = Local (delete fd (fds l)) (streams l)
  | Lseek fd off => 0 <= off -> rc r = off /\ fs' = fs /\ l' = set_fd fd (set_off off d) l
  | Fsync fd => rc r = 0 /\ fs' = fs /\ l' = l
  | _ => True
  end.

(** And of the others: a directory stream has the names in the directory
    when it was opened, each once, and perhaps the two dot entries; once
    the directory has other names nothing is known of what it gives. *)
Definition by_dir (c : call) (fs : fsys) (l : local) (r : result) (fs' : fsys) (l' : local) : Prop :=
  match c with
  | Opendir path =>
      match D ← dir_of fs path; m ← fs !! D; Some (D, m) with
      | Some (D, m) =>
          exists es dots, rc r <> 0 /\ streams l !! rc r = None /\ fs' = fs /\
            l' = set_stream (rc r) (Stream D (dom m) es) l /\ es ≡ₚ (map_to_list m).*1 ++ dots /\ (length dots <= 2)%nat /\ Forall (fun n => head n = Some dot) dots
      | None => True
      end
  | Readdir dp =>
      match streams l !! dp with
      | Some (Stream D ns es) =>
          dom <$> fs !! D = Some ns ->
          match es with
          | [] => rc r = 0 /\ fs' = fs /\ l' = l
          | n :: es => rc r <> 0 /\ rbuf r = n /\ fs' = fs /\ l' = set_stream dp (Stream D ns es) l
          end
      | None => True
      end
  | Closedir dp => is_Some (streams l !! dp) -> fs' = fs /\ l' = Local (fds l) (delete dp (streams l))
  | _ => True
  end.

Definition contract (c : call) (fs : fsys) (l : local) (r : result) (fs' : fsys) (l' : local) : Prop :=
  match c with
  | Creat path | Open path _ | Unlink path | Mkdir path | Access path =>
      forall d f D, split_last path = Some (d, f) -> dir_of fs d = Some D -> is_Some (fs !! D) ->
        by_path c D f fs l r fs' l'
  | Read fd _ | Write fd _ | Close fd | Lseek fd _ | Fsync fd =>
      forall d, fds l !! fd = Some d -> by_fd c d fs l r fs' l'
  | Opendir _ | Readdir _ | Closedir _ => by_dir c fs l r fs' l'
  end.

End contract.

(** ** The interface *)

(** System calls of process [p]; fork ([false] when it fails) gives the
    child copies of the parent's descriptors.  [starved]: a call has failed
    for lack of resources, among them every failed fork; until then the
    calls keep to the contract. *)
Class Posix (W : Type) := {
  mount : bytes -> option Z;
  sys : nat -> call -> W -> result * W;
  fork : W -> bool * W;
  view : W -> fsys;
  locals : W -> nat -> local;
  starved : W -> bool;
  sys_law : forall p c w r w', sys p c w = (r, w') -> starved w' = false ->
    starved w = false /\
    contract mount c (view w) (locals w p) r (view w') (locals w' p) /\
    (forall q, q <> p -> locals w' q = locals w q);
  fork_law : forall w ok w', fork w = (ok, w') -> starved w' = false ->
    starved w = false /\ ok = true /\
    view w' = view w /\ locals w' 0 = locals w 0 /\ locals w' 1 = locals w 0
}.

(** ** Processes *)

(** A stretch of a process: [Fault] where the C program has undefined
    behaviour. *)
Inductive prog (A : Type) :=
| Return (a : A)
| Exit (code : Z)
| Fault
| Sys (c : call) (k : result -> prog A).
Arguments Return {A} a.
Arguments Exit {A} code.
Arguments Fault {A}.
Arguments Sys {A} c k.

Fixpoint bind {A B} (p : prog A) (k : A -> prog B) : prog B :=
  match p with
  | Return a => k a
  | Exit code => Exit code
  | Fault => Fault
  | Sys c k' => Sys c (fun r => bind (k' r) k)
  end.
#[export] Instance prog_ret : MRet prog := fun A => @Return A.
#[export] Instance prog_bind : MBind prog := fun A B k p => bind p k.

Definition syscall (c : call) : prog result := Sys c Return.

(** A program: stretches one after the other; [Forked]: the child runs the
    first while the parent runs the second and then waits for it. *)
Inductive script :=
| Finish
| Then (p : prog unit) (s : script)
| Forked (child parent : prog unit) (s : script).

Inductive pstate :=
| Single (p : prog unit) (s : script)
| Double (child parent : prog unit) (s : script)
| Ended (code : Z).

Section machine.
Context {W : Type} `{!Posix W}.

(** reap: the parent waits ([None]) for the child, and goes on when it
    exited with 0; otherwise it exits with the status given.  A child's
    code ends with exit(0). *)
Definition reap (child : prog unit) : option (option Z) :=
  match child with
  | Return _ => Some None
  | Exit n => Some (if n =? 0 then None else Some 1)
  | _ => None
  end.

(** One step of the parent ([false]) or the child ([true]). *)
Definition pstep (who : bool) (x : pstate * W) : option (pstate * W) :=
  match x with
  | (Single p s, w) =>
      if who then None
      else match p with
           | Sys c k => let '(r, w) := sys 0 c w in Some (Single (k r) s, w)
           | Exit n => Some (Ended n, w)
           | Fault => None
           | Return _ =>
               match s with
               | Finish => Some (Ended 0, w)
               | Then p s => Some (Single p s, w)
               | Forked ch pa s =>
                   (* if(pid < 0) exit(1) *)
                   let '(ok, w) := fork w in Some (if ok then Double ch pa s else Ended 1, w)
               end
           end
  | (Double ch pa s, w) =>
      if who then
        match ch with
        | Sys c k => let '(r, w) := sys 1 c w in Some (Double (k r) pa s, w)
        | _ => None
        end
      else
        match pa with
        | Sys c k => let '(r, w) := sys 0 c w in Some (Double ch (k r) s, w)
        | Exit n => Some (Ended n, w)
        | Fault => None
        | Return _ =>
            match reap ch with
            | Some None => Some (Single (Return tt) s, w)
            | Some (Some n) => Some (Ended n, w)
            | None => None
            end
        end
  | (Ended _, _) => None
  end.

Fixpoint pruns (whos : list bool) (x : pstate * W) : option (pstate * W) :=
  match whos with [] => Some x | who :: whos => x ← pstep who x; pruns whos x end.

End machine.
(** ** A logic for stretches *)

Section wp.
Context (mt : bytes -> option Z) {Γ : Type}.

(** [R]: what the other process may do, [G]: what this one does; both see
    a ghost value beside the directories. *)
Context (R G : fsys * Γ -> fsys * Γ -> Prop).

Fixpoint wp {A} (p : prog A) (Q : A -> fsys -> local -> Γ -> Prop) (fs : fsys) (l : local) (g : Γ) : Prop :=
  match p with
  | Return a => Q a fs l g
  | Exit _ | Fault => False
  | Sys c k =>
      forall fs1 g1, R (fs, g) (fs1, g1) -> forall r fs2 l2, contract mt c fs1 l r fs2 l2 ->
        exists g2, G (fs1, g1) (fs2, g2) /\ wp (k r) Q fs2 l2 g2
  end.

Lemma wp_bind {A B} (p : prog A) (k : A -> prog B) Q fs l g :
  wp p (fun a => wp (k a) Q) fs l g -> wp (bind p k) Q fs l g.
Proof.
  revert fs l g. induction p as [a|n| |c k' IH]; intros fs l g Hp; try done.
  intros fs1 g1 HR r fs2 l2 Hc. destruct (Hp fs1 g1 HR r fs2 l2 Hc) as (g2 & HG & Hk). exists g2. split; [done|].
  by apply IH.
Qed.

Lemma wp_mono {A} (p : prog A) (Q Q' : A -> fsys -> local -> Γ -> Prop) fs l g :
  (forall a fs l g, Q a fs l g -> Q' a fs l g) -> wp p Q fs l g -> wp p Q' fs l g.
Proof.
  intros HQ. revert fs l g. induction p as [a|n| |c k IH]; intros fs l g Hp; cbn [wp] in *; auto.
  intros fs1 g1 HR r fs2 l2 Hc. destruct (Hp fs1 g1 HR r fs2 l2 Hc) as (g2 & HG & Hk). eauto.
Qed.

(** The other process's steps do not spoil it. *)
Lemma wp_stable {A} (p : prog A) Q fs l g fs' g' :
  Transitive R -> (forall a fs l g fs' g', Q a fs l g -> R (fs, g) (fs', g') -> Q a fs' l g') ->
  wp p Q fs l g -> R (fs, g) (fs', g') -> wp p Q fs' l g'.
Proof.
  intros HT HQ Hp HR. destruct p as [a|n| |c k]; cbn [wp] in *; try done; [eauto|].
  intros fs1 g1 HR1. apply Hp. by transitivity (fs', g').
Qed.
End wp.

(** Against fewer steps of the other, with a weaker guarantee. *)
Lemma wp_weaken (mt : bytes -> option Z) {Γ} (R R' G G' : fsys * Γ -> fsys * Γ -> Prop) {A} (p : prog A) Q fs l g :
  (forall x y, R' x y -> R x y) -> (forall x y, G x y -> G' x y) -> wp mt R G p Q fs l g -> wp mt R' G' p Q fs l g.
Proof.
  intros HR HG. revert fs l g. induction p as [a|n| |c k IH]; intros fs l g Hp; cbn [wp] in *; auto.
  intros fs1 g1 HR1 r fs2 l2 Hc. destruct (Hp fs1 g1 (HR _ _ HR1) r fs2 l2 Hc) as (g2 & HG2 & Hk). eauto.
Qed.

(** Alone. *)
Definition alone {A} (mt : bytes -> option Z) (p : prog A) (Q : A -> fsys -> local -> Prop) (fs : fsys) (l : local) : Prop :=
  wp mt (fun x y : fsys * unit => x = y) (fun _ _ => True) p (fun a fs l _ => Q a fs l) fs l tt.

(** A child ([R1], [G1]) and its parent get along. *)
Record couple (mt : bytes -> option Z) (child parent : prog unit) (fs : fsys) (l1 l2 : local)
    (Q : fsys -> local -> Prop) := Couple {
  cp_ghost : Type;
  cp_R1 : fsys * cp_ghost -> fsys * cp_ghost -> Prop;
  cp_R2 : fsys * cp_ghost -> fsys * cp_ghost -> Prop;
  cp_Q1 : fsys -> local -> cp_ghost -> Prop;
  cp_Q2 : fsys -> local -> cp_ghost -> Prop;
  cp_g : cp_ghost;
  cp_T1 : PreOrder cp_R1;
  cp_T2 : PreOrder cp_R2;
  cp_S1 : forall fs l g fs' g', cp_Q1 fs l g -> cp_R1 (fs, g) (fs', g') -> cp_Q1 fs' l g';
  cp_S2 : forall fs l g fs' g', cp_Q2 fs l g -> cp_R2 (fs, g) (fs', g') -> cp_Q2 fs' l g';
  cp_child : wp mt cp_R1 cp_R2 child (fun _ => cp_Q1) fs l1 cp_g;
  cp_parent : wp mt cp_R2 cp_R1 parent (fun _ => cp_Q2) fs l2 cp_g;
  cp_join : forall fs l1 l2 g, cp_Q1 fs l1 g -> cp_Q2 fs l2 g -> Q fs l2
}.

(** A script that goes well from the states of [P] on. *)
Inductive good (mt : bytes -> option Z) : script -> (fsys -> local -> Prop) -> Prop :=
| good_finish P : good mt Finish P
| good_then P Q p s :
    (forall fs l, P fs l -> alone mt p (fun _ => Q) fs l) -> good mt s Q -> good mt (Then p s) P
| good_forked P Q child parent s :
    (forall fs l, P fs l -> inhabited (couple mt child parent fs l l Q)) -> good mt s Q ->
    good mt (Forked child parent s) P.

Section adequacy.
Context {W : Type} `{!Posix W}.

Definition fine (x : pstate * W) : Prop :=
  let w := x.2 in
  match x.1 with
  | Single p s => exists P, alone mount p (fun _ => P) (view w) (locals w 0) /\ good mount s P
  | Double ch pa s => exists Q, inhabited (couple mount ch pa (view w) (locals w 1) (locals w 0) Q) /\ good mount s Q
  | Ended n => n = 0
  end.

Lemma couple_child c k pa fs l1 l2 Q r fs' l1' :
  couple mount (Sys c k) pa fs l1 l2 Q -> contract mount c fs l1 r fs' l1' ->
  inhabited (couple mount (k r) pa fs' l1' l2 Q).
Proof.
  intros [Γ R1 R2 Q1 Q2 g T1 T2 S1 S2 Hc Hp Hj] Hr. destruct (Hc fs g (reflexivity _) r fs' l1' Hr) as (g2 & HG & Hk).
  constructor. exists Γ R1 R2 Q1 Q2 g2; try done. eapply wp_stable; [apply T2| |done|done]. intros _. apply S2.
Qed.

Lemma couple_parent ch c k fs l1 l2 Q r fs' l2' :
  couple mount ch (Sys c k) fs l1 l2 Q -> contract mount c fs l2 r fs' l2' ->
  inhabited (couple mount ch (k r) fs' l1 l2' Q).
Proof.
  intros [Γ R1 R2 Q1 Q2 g T1 T2 S1 S2 Hc Hp Hj] Hr. destruct (Hp fs g (reflexivity _) r fs' l2' Hr) as (g2 & HG & Hk).
  constructor. exists Γ R1 R2 Q1 Q2 g2; try done. eapply wp_stable; [apply T1| |done|done]. intros _. apply S1.
Qed.

Lemma single_fine s P (w : W) : good mount s P -> P (view w) (locals w 0) -> fine (Single (Return tt) s, w).
Proof. intros Hg HP. exists P. done. Qed.

Lemma starved_step who x x' : pstep who x = Some x' -> starved x'.2 = false -> starved x.2 = false.
Proof.
  destruct x as [[p s|ch pa s|n] w]; cbn [pstep]; [| |by destruct who].
  - destruct who; [done|]. destruct p as [[]|n| |c k]; try done; [destruct s as [|p s|ch pa s]|..]; try (by intros [= <-]).
    + destruct (fork w) as [ok w'] eqn:E. intros [= <-] Hs. by destruct (fork_law _ _ _ E Hs).
    + destruct (sys 0 c w) as [r w'] eqn:E. intros [= <-] Hs. by destruct (sys_law _ _ _ _ _ E Hs).
  - destruct who.
    + destruct ch as [|n| |c k]; try done. destruct (sys 1 c w) as [r w'] eqn:E. intros [= <-] Hs. by destruct (sys_law _ _ _ _ _ E Hs).
    + destruct pa as [[]|n| |c k]; try done; [destruct (reap ch) as [[n|]|]; try done| |]; try (by intros [= <-]).
      destruct (sys 0 c w) as [r w'] eqn:E. intros [= <-] Hs. by destruct (sys_law _ _ _ _ _ E Hs).
Qed.

Lemma starved_runs whos x x' : pruns whos x = Some x' -> starved x'.2 = false -> starved x.2 = false.
Proof.
  revert x. induction whos as [|who whos IH]; intros x E Hs; cbn [pruns] in E; [by injection E as <-|].
  destruct (pstep who x) as [x1|] eqn:E1; [|done]. eapply starved_step; [done|]. by eapply IH.
Qed.

Lemma fine_step who x x' : fine x -> pstep who x = Some x' -> starved x'.2 = false -> fine x'.
Proof.
  destruct x as [[p s|ch pa s|n] w]; cbn [fst snd fine]; [| |by intros _; destruct who].
  - intros (P & Hp & Hg) E Hns. destruct who; [done|]. destruct p as [[]|n| |c k]; cbn [pstep] in E; try done.
    + unfold alone in Hp. cbn [wp] in Hp. destruct Hg as [P|P Q p s Hthen Hg|P Q ch pa s Hfork Hg]; cbn in E;
        [injection E as <-..|].
      * done.
      * exists Q. split; [|done]. cbn [snd]. by apply Hthen.
      * destruct (fork w) as [ok w'] eqn:Ef. injection E as <-. destruct (fork_law _ _ _ Ef Hns) as (_ & -> & Hv & H0 & H1).
        exists Q. split; [|done]. cbn [snd]. rewrite Hv, H0, H1. by apply Hfork.
    + destruct (sys 0 c w) as [r w'] eqn:Es. injection E as <-. destruct (sys_law _ _ _ _ _ Es Hns) as (_ & Hr & _).
      destruct (Hp (view w) tt eq_refl r _ _ Hr) as ([] & _ & Hk). exists P. done.
  - intros (Q & [Hcp] & Hg) E Hns. destruct who.
    + destruct ch as [|n| |c k]; try done. cbn [pstep] in E.
      destruct (sys 1 c w) as [r w'] eqn:Es. injection E as <-. destruct (sys_law _ _ _ _ _ Es Hns) as (_ & Hr & Ho).
      exists Q. split; [|done]. cbn [snd]. rewrite (Ho 0%nat) by done. by eapply couple_child.
    + destruct pa as [[]|n| |c k]; cbn [pstep] in E.
      * destruct Hcp as [Γ R1 R2 Q1 Q2 g T1 T2 S1 S2 Hc Hp Hj]. destruct ch as [[]|n| |c k]; try done.
        injection E as <-. eapply single_fine; [done|]. by eapply Hj.
      * by destruct Hcp as [? ? ? ? ? ? ? ? ? ? ? Hp ?].
      * by destruct Hcp as [? ? ? ? ? ? ? ? ? ? ? Hp ?].
      * destruct (sys 0 c w) as [r w'] eqn:Es. injection E as <-. destruct (sys_law _ _ _ _ _ Es Hns) as (_ & Hr & Ho).
        exists Q. split; [|done]. cbn [snd]. rewrite (Ho 1%nat) by done. by eapply couple_parent.
Qed.

Lemma fine_runs whos x x' : fine x -> pruns whos x = Some x' -> starved x'.2 = false -> fine x'.
Proof.
  revert x. induction whos as [|who whos IH]; intros x Hx E Hns; cbn [pruns] in E; [by injection E as <-|].
  destruct (pstep who x) as [x1|] eqn:E1; [|done]. eapply IH; [|done|done].
  eapply fine_step; [done|done|]. by eapply starved_runs.
Qed.

(** Until it has ended some process can go on. *)
Lemma fine_goes_on x : fine x -> (exists n, x.1 = Ended n) \/ exists who, is_Some (pstep who x).
Proof.
  destruct x as [[p s|ch pa s|n] w]; cbn [fst snd fine]; [| |eauto].
  - intros (P & Hp & Hg). right. exists false. destruct p as [[]|n| |c k]; try done.
    + destruct s; try done. cbn [pstep]. by destruct (fork w).
    + cbn [pstep]. by destruct (sys 0 c w).
  - intros (Q & [[Γ R1 R2 Q1 Q2 g T1 T2 S1 S2 Hc Hp Hj]] & Hg). right. destruct pa as [[]|n| |c k]; try done.
    + destruct ch as [[]|n| |c k]; try done; [by exists false|]. exists true. cbn [pstep]. by destruct (sys 1 c w).
    + exists false. cbn [pstep]. by destruct (sys 0 c w).
Qed.

(** *** Runs end *)

Definition psucc (y x : pstate * W) : Prop := exists who, pstep who x = Some y.

Lemma ended_acc n (w : W) : Acc psucc (Ended n, w).
Proof. constructor. intros y [who E]. by destruct who. Qed.

Lemma scripts_end s : forall p (w : W), Acc psucc (Single p s, w).
Proof.
  assert (Hsys : forall s, (forall w : W, Acc psucc (Single (Return tt) s, w)) -> forall p (w : W), Acc psucc (Single p s, w)).
  { clear s. intros s Hs p. induction p as [[]|n| |c k IH]; intros w; [apply Hs|constructor; intros y [who E]..].
    - destruct who; [done|]. injection E as <-. apply ended_acc.
    - by destruct who.
    - destruct who; [done|]. cbn [pstep] in E. destruct (sys 0 c w). injection E as <-. apply IH. }
  induction s as [|p s IH|ch pa s IH]; apply Hsys; intros w; constructor; intros y [who E]; (destruct who; [done|]);
    cbn [pstep] in E; [injection E as <-; apply ended_acc|injection E as <-; apply IH|].
  destruct (fork w) as [[] w1]; injection E as <-; [|apply ended_acc]. clear w. revert w1. revert pa. induction ch as [[]|n| |c k IHc]; intros pa;
    (induction pa as [[]|n'| |c' k' IHp]; intros w; constructor; intros y [who E];
     destruct who; cbn [pstep reap] in E; try discriminate E;
     try (injection E as <-; first [apply ended_acc|apply IH]);
     try (destruct (n =? 0); injection E as <-; first [apply ended_acc|apply IH]);
     try (destruct (sys 0 c' w); injection E as <-; apply IHp);
     try (destruct (sys 1 c w); injection E as <-; apply IHc)).
Qed.

(** A good script: whatever the schedule, as long as no call has failed for
    lack of resources the program has not exited with a failure nor got to
    undefined behaviour, and goes on until it has exited; and every run
    ends. *)
Lemma good_script s P w whos x :
  good mount s P -> P (view w) (locals w 0) -> pruns whos (Single (Return tt) s, w) = Some x ->
  (starved x.2 = false ->
     (forall n, x.1 = Ended n -> n = 0) /\ ((exists n, x.1 = Ended n) \/ exists who, is_Some (pstep who x))) /\
  Acc psucc x.
Proof.
  intros Hg HP E. split; [intros Hns; pose proof (fine_runs _ _ _ (single_fine s P w Hg HP) E Hns) as Hx; split|].
  - intros n Hn. unfold fine in Hx. by rewrite Hn in Hx.
  - by apply fine_goes_on.
  - revert E. generalize (scripts_end s (Return tt) w). generalize (Single (Return tt) s, w).
    induction whos as [|who whos IH]; intros y Hy E; cbn [pruns] in E; [by injection E as <-|].
    destruct (pstep who y) as [y1|] eqn:E1; [|done]. eapply IH; [|done]. apply Hy. by exists who.
Qed.

End adequacy.
(** ** A system that keeps the contract *)

Module kernel.

(** The directories, what each process has open, the processes that may
    still be made, and whether one was refused. *)
Record kern := Kern { kfs : fsys; klocal : nat -> local; kprocs : nat; kshort : bool }.

Definition next_fd (l : local) : Z := Z.of_nat (fresh (set_map Z.to_nat (dom (fds l)) : gset nat)).
Definition next_dp (l : local) : Z :=
  1 + Z.of_nat (fresh (set_map (fun z => Z.to_nat (z - 1)) (dom (streams l)) : gset nat)).

Section kernel.
Context (mt : bytes -> option Z).

Definition ok (n : Z) : result := Result n 0 [].
Definition err (e : Z) : result := Result (-1) e [].

Definition open_at (l : local) (D : Z) (f : bytes) (ino : Z) (md : mode) : result * local :=
  (ok (next_fd l), set_fd (next_fd l) (Fdesc D f ino 0 md) l).

Definition path_call (c : call) (D : Z) (f : bytes) (fs : fsys) (l : local) : result * fsys * local :=
  match c, entry fs D f with
  | Creat _, Some (NFile i _) =>
      let '(r, l) := open_at l D f i Writing in (r, set_entry fs D f (Some (NFile i [])), l)
  | Creat _, None =>
      let '(r, l) := open_at l D f 0 Writing in (r, set_entry fs D f (Some (NFile 0 [])), l)
  | Open _ flags, Some (NFile i _) =>
      let '(r, l) := open_at l D f i (default Reading (open_mode flags)) in (r, fs, l)
  | Open _ flags, None =>
      if flags =? Z.lor O_WRONLY O_CREAT
      then let '(r, l) := open_at l D f 0 Writing in (r, set_entry fs D f (Some (NFile 0 [])), l)
      else (err 2, fs, l)
  | Unlink _, Some (NFile _ _) => (ok 0, set_entry fs D f None, l)
  | Mkdir _, None =>
      let D' := fresh (dom fs) in (ok 0, set_entry (<[D' := ∅]> fs) D f (Some (NDir D')), l)
  | Access _, Some _ => (ok 0, fs, l)
  | _, _ => (err 2, fs, l)
  end.

Definition fd_call (c : call) (d : fdesc) (fs : fsys) (l : local) : result * fsys * local :=
  match c with
  | Read fd n =>
      let b := take (Z.to_nat n) (drop (Z.to_nat (fd_off d)) (default [] (contents fs d))) in
      (Result (lenZ b) 0 b, fs, set_fd fd (set_off (fd_off d + lenZ b) d) l)
  | Write fd b =>
      match contents fs d with
      | Some s =>
          let off := match fd_mode d with Appending => lenZ s | _ => fd_off d end in
          (ok (lenZ b),
           set_entry fs (fd_dir d) (fd_name d) (Some (NFile (fd_ino d) (extent_server.write_at s (Z.to_nat off) b))),
           set_fd fd (set_off (off + lenZ b) d) l)
      | None => (ok (lenZ b), fs, l)
      end
  | Close fd => (ok 0, fs, Local (delete fd (fds l)) (streams l))
  | Lseek fd off => (ok off, fs, set_fd fd (set_off off d) l)
  | _ => (ok 0, fs, l)
  end.

Definition dir_call (c : call) (fs : fsys) (l : local) : result * fsys * local :=
  match c with
  | Opendir path =>
      match D ← dir_of mt fs path; m ← fs !! D; Some (D, m) with
      | Some (D, m) =>
          (ok (next_dp l), fs,
           set_stream (next_dp l) (Stream D (dom m) ((map_to_list m).*1 ++ [[dot]; [dot; dot]])) l)
      | None => (ok 0, fs, l)
      end
  | Readdir dp =>
      match streams l !! dp with
      | Some (Stream D ns (n :: es)) => (Result 1 0 n, fs, set_stream dp (Stream D ns es) l)
      | _ => (ok 0, fs, l)
      end
  | Closedir dp => (ok 0, fs, Local (fds l) (delete dp (streams l)))
  | _ => (ok 0, fs, l)
  end.

Definition run_call (c : call) (fs : fsys) (l : local) : result * fsys * local :=
  match c with
  | Creat path | Open path _ | Unlink path | Mkdir path | Access path =>
      match '(d, f) ← split_last path; D ← dir_of mt fs d; Some (D, f) with
      | Some (D, f) => path_call c D f fs l
      | None => (err 2, fs, l)
      end
  | Read fd _ | Write fd _ | Close fd | Lseek fd _ | Fsync fd =>
      match fds l !! fd with Some d => fd_call c d fs l | None => (err 9, fs, l) end
  | Opendir _ | Readdir _ | Closedir _ => dir_call c fs l
  end.

Definition set_local (p : nat) (l : local) (k : nat -> local) : nat -> local := fun q => if decide (q = p) then l else k q.

Lemma next_fd_new l : 0 <= next_fd l /\ fds l !! next_fd l = None.
Proof.
  unfold next_fd. split; [lia|]. apply not_elem_of_dom. intros Hin.
  apply (is_fresh (set_map Z.to_nat (dom (fds l)) : gset nat)). apply elem_of_map. eexists. split; [|done]. lia.
Qed.

Lemma next_dp_new l : next_dp l <> 0 /\ streams l !! next_dp l = None.
Proof.
  unfold next_dp. split; [lia|]. apply not_elem_of_dom. intros Hin.
  apply (is_fresh (set_map (fun z => Z.to_nat (z - 1)) (dom (streams l)) : gset nat)). apply elem_of_map.
  eexists. split; [|done]. lia.
Qed.

Lemma path_call_ok c D f fs l r fs' l' :
  path_call c D f fs l = (r, fs', l') -> by_path c D f fs l r fs' l'.
Proof.
  destruct (next_fd_new l) as [H0 Hn].
  destruct c; cbn [path_call by_path open_at]; try done; destruct (entry fs D f) as [[i b|D']|] eqn:Ee; try done.
  - intros [= <- <- <-]. split; [done|]. done.
  - intros [= <- <- <-]. split_and!; [cbn; lia|done|done].
  - intros [= <- <- <-]. exists 0. split; [done|]. done.
  - intros [= <- <- <-] md ->. split; [done|]. done.
  - destruct (flags =? _); intros [= <- <- <-]; [exists 0; split; [done|]; done|]. intros _. split_and!; [cbn; lia|done|done].
  - by intros [= <- <- <-].
  - intros [= <- <- <-]. split_and!; [cbn; lia|done|done].
  - intros [= <- <- <-]. split_and!; [cbn; lia|done|done].
  - intros [= <- <- <-]. split_and!; [cbn; lia|done|done].
  - intros [= <- <- <-]. split_and!; [cbn; lia|done|done].
  - intros [= <- <- <-]. eexists. split; [|done]. apply not_elem_of_dom, is_fresh.
  - by intros [= <- <- <-].
  - by intros [= <- <- <-].
  - intros [= <- <- <-]. split_and!; [cbn; lia|done|done].
Qed.

Lemma fd_call_ok c d fs l r fs' l' : fd_call c d fs l = (r, fs', l') -> by_fd c d fs l r fs' l'.
Proof.
  destruct c; cbn [fd_call by_fd]; try done; try (intros [= <- <- <-]; done);
    destruct (contents fs d) as [s|]; try done; intros [= <- <- <-]; done.
Qed.

Lemma run_call_ok c fs l r fs' l' : run_call c fs l = (r, fs', l') -> contract mt c fs l r fs' l'.
Proof.
  intros E. assert (Hpath : forall path, match '(d, f) ← split_last path; D ← dir_of mt fs d; Some (D, f) with
      | Some (D, f) => path_call c D f fs l | None => (err 2, fs, l) end = (r, fs', l') ->
    forall d f D, split_last path = Some (d, f) -> dir_of mt fs d = Some D -> is_Some (fs !! D) ->
      by_path c D f fs l r fs' l').
  { intros path Ep d f D Hs Hd _. rewrite Hs in Ep. cbn in Ep. rewrite Hd in Ep. by apply path_call_ok. }
  assert (Hfd : forall fd, match fds l !! fd with Some d => fd_call c d fs l | None => (err 9, fs, l) end = (r, fs', l') ->
    forall d, fds l !! fd = Some d -> by_fd c d fs l r fs' l').
  { intros fd Ef d Hd. rewrite Hd in Ef. by apply fd_call_ok. }
  destruct c; cbn [run_call contract] in *; eauto; clear Hpath Hfd; cbn [dir_call by_dir] in *.
  - destruct (D ← dir_of mt fs path; m ← fs !! D; Some (D, m)) as [[D m]|]; [|done]. injection E as <- <- <-.
    destruct (next_dp_new l). do 2 eexists. split_and!; [done|done|done|done|reflexivity|cbn; lia|].
    repeat constructor.
  - destruct (streams l !! dp) as [[D ns [|n es]]|]; [| |done]; intros _; by injection E as <- <- <-.
  - by injection E as <- <- <-.
Qed.

#[export] Program Instance kern_posix : Posix kern := {|
  mount := mt;
  sys p c w :=
    let '(r, fs, l) := run_call c (kfs w) (klocal w p) in (r, Kern fs (set_local p l (klocal w)) (kprocs w) (kshort w));
  fork w :=
    match kprocs w with
    | O => (false, Kern (kfs w) (klocal w) 0 true)
    | S n => (true, Kern (kfs w) (set_local 1 (klocal w 0%nat) (klocal w)) n (kshort w))
    end;
  view := kfs;
  locals := klocal;
  starved := kshort
|}.
Next Obligation.
  intros p c w r w' E Hs. cbn in *. destruct (run_call c (kfs w) (klocal w p)) as [[r0 fs] l] eqn:Ec. injection E as <- <-.
  split; [done|split; cbn].
  - unfold set_local. rewrite decide_True by done. by apply run_call_ok.
  - intros q Hq. unfold set_local. by rewrite decide_False.
Qed.
Next Obligation. intros w ok w' E Hs. cbn in *. destruct (kprocs w); by injection E as <- <-. Qed.

End kernel.
End kernel.
End posix.
