(* ===== verification/LabTests.v ===== *)
(** * The file system tests (test-lab-3-b.c, test-lab-3-c.c)

    Both programs make directories under two mount points of one file
    system and create, read, append to, list and delete files there, at
    times from two processes at once; any answer that is not the expected
    one ends the program with status 1.  They are programs over the system
    calls of [Posix]; sleeping and printing are left out. *)

From Stdlib Require Import ZArith Lia Strings.Byte.
From stdpp Require Import base list list_numbers gmap sets sorting.
From S2P Require Import Prelude Marshall Extent LockServer Directory YfsClient Fuse Posix.

#[local] Open Scope Z_scope.
#[local] Set Warnings "-clear-no-such-hyp,-register-all".

(** ** C library functions the tests use *)
Module libc.
Import posix.

(** sprintf into an array of [size] chars. *)
Definition sprintf (size : Z) (s : bytes) : prog bytes := if lenZ s <? size then Return s else Fault.

(** strcmp and strncmp; [0] when they agree. *)
Fixpoint strcmp (a b : bytes) : Z :=
  match a, b with
  | [], [] => 0
  | [], _ :: _ => -1
  | _ :: _, [] => 1
  | x :: a, y :: b => if byte_Z x =? byte_Z y then strcmp a b else byte_Z x - byte_Z y
  end.

Definition strncmp (a b : bytes) (n : Z) : Z :=
  strcmp (take (Z.to_nat n) (fuse.c_str a)) (take (Z.to_nat n) (fuse.c_str b)).

(** The representation of an int in memory. *)
Definition le4 (i : Z) : bytes :=
  [Z_byte i; Z_byte (Z.shiftr i 8); Z_byte (Z.shiftr i 16); Z_byte (Z.shiftr i 24)].

Definition int_of (b : bytes) : Z :=
  i32 (foldr (fun c n => byte_Z c + 256 * n) 0 b).

(** qsort by the order of strcmp. *)
Definition str_le (a b : bytes) : Prop := strcmp a b <= 0.
#[export] Instance str_le_dec : RelDecision str_le.
Proof. intros a b. unfold str_le. apply _. Defined.

Definition qsort (l : list bytes) : list bytes := merge_sort str_le l.

End libc.

(** ** test-lab-3-b.c *)
Module lab3b.
Import posix libc.

Definition path (d f : bytes) : prog bytes := sprintf 512 (d ++ slash :: f).

Definition create1 (d f inp : bytes) : prog unit :=
  n ← path d f;
  fd ← syscall (Creat n);
  if rc fd <? 0 then Exit 1 else
  cc ← syscall (Write (rc fd) inp);
  if negb (rc cc =? lenZ inp) then Exit 1 else
  r ← syscall (Close (rc fd));
  if negb (rc r =? 0) then Exit 1 else Return tt.

(** [size]: of the array buf. *)
Definition check1_buf (size : Z) (d f inp : bytes) : prog unit :=
  n ← path d f;
  fd ← syscall (Open n O_RDONLY);
  if rc fd <? 0 then Exit 1 else
  cc ← syscall (Read (rc fd) (size - 1));
  if negb (rc cc =? lenZ inp) then Exit 1 else
  _ ← syscall (Close (rc fd));
  if negb (strncmp (rbuf cc) inp (lenZ n) =? 0) then Exit 1 else Return tt.

Definition check1 (d f inp : bytes) : prog unit := check1_buf 21000 d f inp.

Definition unlink1 (d f : bytes) : prog unit :=
  n ← path d f;
  r ← syscall (Unlink n);
  if negb (rc r =? 0) then Exit 1 else Return tt.

Definition checknot (d f : bytes) : prog unit :=
  n ← path d f;
  fd ← syscall (Open n O_RDONLY);
  if 0 <=? rc fd then Exit 1 else Return tt.

Definition append1 (d f inp : bytes) : prog unit :=
  n ← path d f;
  fd ← syscall (Open n (Z.lor O_WRONLY O_APPEND));
  if rc fd <? 0 then Exit 1 else
  cc ← syscall (Write (rc fd) inp);
  if negb (rc cc =? lenZ inp) then Exit 1 else
  r ← syscall (Close (rc fd));
  if negb (rc r =? 0) then Exit 1 else Return tt.

Fixpoint write1_loop (fd : Z) (c : byte) (n : nat) : prog unit :=
  match n with
  | O => Return tt
  | S n =>
      cc ← syscall (Write fd [c]);
      if negb (rc cc =? 1) then Exit 1 else
      r ← syscall (Fsync fd);
      if negb (rc r =? 0) then Exit 1 else write1_loop fd c n
  end.

Definition write1 (d f : bytes) (start n : Z) (c : byte) : prog unit :=
  name ← path d f;
  fd ← syscall (Open name (Z.lor O_WRONLY O_CREAT));
  fd ← (if (rc fd <? 0) && (errno fd =? EEXIST) then syscall (Open name O_WRONLY) else Return fd);
  if rc fd <? 0 then Exit 1 else
  r ← syscall (Lseek (rc fd) start);
  if negb (rc r =? start) then Exit 1 else
  _ ← write1_loop (rc fd) c (Z.to_nat n);
  r ← syscall (Close (rc fd));
  if negb (rc r =? 0) then Exit 1 else Return tt.

Fixpoint checkread_loop (fd : Z) (c : byte) (n : nat) : prog unit :=
  match n with
  | O => Return tt
  | S n =>
      xc ← syscall (Read fd 1);
      if negb (rc xc =? 1) then Exit 1 else
      if decide (rbuf xc = [c]) then checkread_loop fd c n else Exit 1
  end.

Definition checkread (d f : bytes) (start n : Z) (c : byte) : prog unit :=
  name ← path d f;
  fd ← syscall (Open name O_RDONLY);
  if rc fd <? 0 then Exit 1 else
  r ← syscall (Lseek (rc fd) start);
  if negb (rc r =? start) then Exit 1 else
  _ ← checkread_loop (rc fd) c (Z.to_nat n);
  _ ← syscall (Close (rc fd)); Return tt.

(** The name prefix-i. *)
Definition numbered (prefix : bytes) (i : Z) : bytes := prefix ++ Z_byte 45 :: print_ull i.

Fixpoint createn_loop (d prefix : bytes) (possible_dup : bool) (idx : list Z) : prog unit :=
  match idx with
  | [] => Return tt
  | i :: idx =>
      n ← path d (numbered prefix i);
      fd ← syscall (Creat n);
      if (rc fd <? 0) && possible_dup && (errno fd =? EEXIST) then createn_loop d prefix possible_dup idx else
      if rc fd <? 0 then Exit 1 else
      cc ← syscall (Write (rc fd) (le4 i));
      if negb (rc cc =? 4) then Exit 1 else
      r ← syscall (Close (rc fd));
      if negb (rc r =? 0) then Exit 1 else createn_loop d prefix possible_dup idx
  end.

Definition createn (d prefix : bytes) (nf : Z) (possible_dup : bool) : prog unit :=
  createn_loop d prefix possible_dup (seqZ 0 nf).

Fixpoint checkn_loop (d prefix : bytes) (idx : list Z) : prog unit :=
  match idx with
  | [] => Return tt
  | i :: idx =>
      n ← path d (numbered prefix i);
      fd ← syscall (Open n O_RDONLY);
      if rc fd <? 0 then Exit 1 else
      cc ← syscall (Read (rc fd) 4);
      if negb (rc cc =? 4) then Exit 1 else
      if negb (int_of (rbuf cc) =? i) then Exit 1 else
      _ ← syscall (Close (rc fd)); checkn_loop d prefix idx
  end.

Definition checkn (d prefix : bytes) (nf : Z) : prog unit := checkn_loop d prefix (seqZ 0 nf).

Fixpoint unlinkn_loop (d prefix : bytes) (idx : list Z) : prog unit :=
  match idx with
  | [] => Return tt
  | i :: idx =>
      n ← path d (numbered prefix i);
      r ← syscall (Unlink n);
      if negb (rc r =? 0) then Exit 1 else unlinkn_loop d prefix idx
  end.

Definition unlinkn (d prefix : bytes) (nf : Z) : prog unit := unlinkn_loop d prefix (seqZ 0 nf).

(** The loop over the entries: the array names has 1000 places, and
    [fuel] is enough for them, the dot entries and the end. *)
Fixpoint dircheck_loop (fuel : nat) (dp : Z) (names : list bytes) : prog (list bytes) :=
  match fuel with
  | O => Fault
  | S fuel =>
      e ← syscall (Readdir dp);
      if rc e =? 0 then Return names else
      if decide (head (rbuf e) = Some dot) then dircheck_loop fuel dp names else
      if 1000 <=? lenZ names then Fault else dircheck_loop fuel dp (names ++ [rbuf e])
  end.

Fixpoint duplicate (names : list bytes) : bool :=
  match names with
  | a :: (b :: _) as rest => (strcmp a b =? 0) || duplicate rest
  | _ => false
  end.

Definition dircheck (d : bytes) (nf : Z) : prog unit :=
  dp ← syscall (Opendir d);
  if rc dp =? 0 then Exit 1 else
  names ← dircheck_loop 1003 (rc dp) [];
  _ ← syscall (Closedir (rc dp));
  if negb (nf =? lenZ names) then Exit 1 else
  if duplicate (qsort names) then Exit 1 else Return tt.

Definition big : bytes := replicate 20000 (Z_byte 120).
Definition huge : bytes := replicate 131072 (Z_byte 48).

(** Run one after the other. *)
Fixpoint all (ps : list (prog unit)) : prog unit :=
  match ps with [] => Return tt | p :: ps => _ ← p; all ps end.

(** The tests of main that run in one process. *)
Definition sequential (d1 d2 : bytes) (s : script) : script :=
  Then (all [create1 d1 (str "f1") (str "aaa"); check1 d2 (str "f1") (str "aaa"); check1 d1 (str "f1") (str "aaa")]) (
  Then (all [unlink1 d2 (str "f1"); create1 d1 (str "fx1") (str "fxx"); unlink1 d1 (str "fx1");
             checknot d1 (str "f1"); checknot d2 (str "f1");
             create1 d1 (str "f2") (str "222"); unlink1 d2 (str "f2"); checknot d1 (str "f2"); checknot d2 (str "f2");
             create1 d1 (str "f3") (str "333"); check1 d2 (str "f3") (str "333"); check1 d1 (str "f3") (str "333");
             unlink1 d1 (str "f3"); create1 d2 (str "fx2") (str "22"); unlink1 d2 (str "fx2");
             checknot d2 (str "f3"); checknot d1 (str "f3")]) (
  Then (all [create1 d2 (str "f1") (str "aaa"); append1 d1 (str "f1") (str "bbb"); append1 d2 (str "f1") (str "ccc");
             check1 d1 (str "f1") (str "aaabbbccc"); check1 d2 (str "f1") (str "aaabbbccc")]) (
  Then (all [dircheck d1 1; dircheck d2 1; unlink1 d1 (str "f1"); dircheck d1 0; dircheck d2 0;
             create1 d2 (str "f2") (str "aaa"); create1 d1 (str "f3") (str "aaa"); dircheck d1 2; dircheck d2 2;
             unlink1 d2 (str "f2"); dircheck d2 1; dircheck d1 1; unlink1 d2 (str "f3"); dircheck d1 0; dircheck d2 0]) (
  Then (all [createn d1 (str "aa") 10 false; createn d2 (str "bb") 10 false; dircheck d2 20;
             checkn d2 (str "bb") 10; checkn d2 (str "aa") 10; checkn d1 (str "aa") 10; checkn d1 (str "bb") 10;
             unlinkn d1 (str "aa") 10; unlinkn d2 (str "bb") 10]) (
  Then (all [create1 d1 (str "bf") big; check1 d1 (str "bf") big; check1 d2 (str "bf") big; unlink1 d1 (str "bf")]) s))))).

(** And those with a forked child. *)
Definition concurrent (d1 d2 : bytes) : script :=
  Forked (createn d2 (str "xx") 20 false) (createn d1 (str "yy") 20 false) (
  Then (all [dircheck d1 40; checkn d1 (str "xx") 20; checkn d2 (str "yy") 20;
             unlinkn d1 (str "xx") 20; unlinkn d1 (str "yy") 20]) (
  Forked (createn d2 (str "zz") 20 true) (all [createn d1 (str "zz") 20 true; dircheck d1 20]) (
  Then (all [checkn d1 (str "zz") 20; checkn d2 (str "zz") 20; unlinkn d1 (str "zz") 20]) (
  Then (all [createn d1 (str "x1") 20 false; createn d2 (str "x2") 20 false]) (
  Forked (all [unlinkn d2 (str "x1") 20; createn d1 (str "x3") 20 false]) (createn d1 (str "x4") 20 false) (
  Then (all [unlinkn d2 (str "x2") 20; unlinkn d2 (str "x4") 20; unlinkn d2 (str "x3") 20; dircheck d1 0]) (
  Forked (createn d1 (str "zz") 20 true) (all [createn d1 (str "zz") 20 true; dircheck d1 20]) (
  Then (all [checkn d1 (str "zz") 20; unlinkn d1 (str "zz") 20]) (
  Then (create1 d1 (str "www") huge) (
  Forked (write1 d2 (str "www") 65536 64 (Z_byte 50)) (write1 d1 (str "www") 0 64 (Z_byte 49)) (
  Then (all [checkread d1 (str "www") 0 64 (Z_byte 49); checkread d2 (str "www") 0 64 (Z_byte 49);
             checkread d1 (str "www") 65536 64 (Z_byte 50); checkread d2 (str "www") 65536 64 (Z_byte 50)])
  Finish))))))))))).

(** main, once the directories are there. *)
Definition phases (d1 d2 : bytes) : script := sequential d1 d2 (concurrent d1 d2).

(** The directory of this run below a mount point. *)
Definition run_dir (mp : bytes) (pid : Z) : bytes := mp ++ slash :: str "d" ++ print_ull pid.

Definition make_dirs (d1 d2 : bytes) : prog unit :=
  d1 ← sprintf 512 d1;
  r ← syscall (Mkdir d1);
  if negb (rc r =? 0) then Exit 1 else
  d2 ← sprintf 512 d2;
  r ← syscall (Access d2);
  if negb (rc r =? 0) then Exit 1 else Return tt.

Definition main (argv : list bytes) (pid : Z) : script :=
  match argv with
  | [_; a1; a2] => Then (make_dirs (run_dir a1 pid) (run_dir a2 pid)) (phases (run_dir a1 pid) (run_dir a2 pid))
  | _ => Then (Exit 1) Finish
  end.

End lab3b.

(** ** test-lab-3-c.c *)
Module lab3c.
Import posix libc.

(** The functions are those of test-lab-3-b.c; check1's buffer is
    smaller, createn does not expect files to exist. *)
Definition create1 (d f inp : bytes) : prog unit := lab3b.create1 d f inp.
Definition check1 (d f inp : bytes) : prog unit := lab3b.check1_buf 512 d f inp.
Definition unlink1 (d f : bytes) : prog unit := lab3b.unlink1 d f.
Definition checknot (d f : bytes) : prog unit := lab3b.checknot d f.
Definition append1 (d f inp : bytes) : prog unit := lab3b.append1 d f inp.
Definition createn (d prefix : bytes) (nf : Z) : prog unit := lab3b.createn d prefix nf false.
Definition checkn (d prefix : bytes) (nf : Z) : prog unit := lab3b.checkn d prefix nf.
Definition unlinkn (d prefix : bytes) (nf : Z) : prog unit := lab3b.unlinkn d prefix nf.
Definition dircheck (d : bytes) (nf : Z) : prog unit := lab3b.dircheck d nf.

Definition run_dir (mp which : bytes) (pid : Z) : bytes := mp ++ slash :: which ++ print_ull pid.

Definition make_dirs (d1 d2 dd : bytes) : prog unit :=
  d1 ← sprintf 512 d1;
  r ← syscall (Mkdir d1);
  if negb (rc r =? 0) then Exit 1 else
  d2 ← sprintf 512 d2;
  r ← syscall (Mkdir d2);
  if negb (rc r =? 0) then Exit 1 else
  dd ← sprintf 512 dd;
  r ← syscall (Access dd);
  if negb (rc r =? 0) then Exit 1 else Return tt.

Definition phases (d1 d2 : bytes) : script :=
  Forked (lab3b.all [createn d2 (str "xx") 100; unlinkn d2 (str "xx") 99])
         (lab3b.all [createn d1 (str "yy") 100; unlinkn d1 (str "yy") 99]) (
  Then (lab3b.all [dircheck d1 1; dircheck d2 1]) Finish).

Definition main (argv : list bytes) (pid : Z) : script :=
  match argv with
  | [_; a1; a2] =>
      Then (make_dirs (run_dir a1 (str "da") pid) (run_dir a2 (str "db") pid) (run_dir a2 (str "da") pid))
        (phases (run_dir a1 (str "da") pid) (run_dir a2 (str "db") pid))
  | _ => Then (Exit 1) Finish
  end.

End lab3c.
