(* ===== verification/LabProofs.v ===== *)
(** * The file system tests pass

    On any system that keeps the contract of [Posix], with the two mount
    points on one file system, no schedule of the processes of the tests
    makes them fail. *)

From Stdlib Require Import ZArith Lia Strings.Byte.
From stdpp Require Import base list list_numbers gmap sets sorting.
From S2P Require Import Prelude Marshall Extent LockServer Directory YfsClient Fuse FileSystem Posix LabTests.

#[local] Open Scope Z_scope.
#[local] Set Warnings "-clear-no-such-hyp,-register-all".

Module lab_proofs.
Import posix libc lab3b.

(** ** The C library *)

Lemma strcmp_refl a : strcmp a a = 0.
Proof. induction a as [|x a IH]; cbn; [done|]. by rewrite Z.eqb_refl. Qed.

Lemma strcmp_eq a b : strcmp a b = 0 -> a = b.
Proof.
  revert b. induction a as [|x a IH]; intros [|y b]; cbn; [done|done|done|].
  destruct (Z.eqb_spec (byte_Z x) (byte_Z y)) as [E|E]; [|lia]. intros H. f_equal; [|auto].
  rewrite <- (Z_byte_of_byte x), E. apply Z_byte_of_byte.
Qed.

Lemma int_of_le4 i : 0 <= i < 2 ^ 31 -> int_of (le4 i) = i.
Proof.
  intros Hi. unfold int_of, le4. cbn [foldr]. rewrite !byte_Z_of_Z, !Z.shiftr_div_pow2 by lia. unfold u8.
  change (2 ^ 8) with 256. change (2 ^ 16) with 65536. change (2 ^ 24) with 16777216.
  assert (E : i mod 256 + 256 * ((i / 256) mod 256 + 256 * ((i / 65536) mod 256 + 256 * ((i / 16777216) mod 256 + 256 * 0))) = i).
  { change (2 ^ 31) with 2147483648 in Hi. Z.to_euclidean_division_equations. lia. }
  rewrite E. apply i32_small. unfold is_i32. lia.
Qed.

Lemma le4_length i : lenZ (le4 i) = 4.
Proof. done. Qed.

Lemma print_ull_inj i j : is_u64 i -> is_u64 j -> print_ull i = print_ull j -> i = j.
Proof.
  intros Hi Hj E. destruct (print_ull_ok i Hi) as (_ & _ & <-), (print_ull_ok j Hj) as (_ & _ & <-). by rewrite E.
Qed.

(** ** Directories and entries *)

Lemma split_last_app d f : slash ∉ f -> split_last (d ++ slash :: f) = Some (d, f).
Proof.
  intros Hf. assert (Hnone : split_last f = None).
  { revert Hf. induction f as [|c f IH]; [done|]. rewrite not_elem_of_cons. intros [Hc Hf]. cbn [split_last].
    rewrite IH by done. by rewrite decide_False. }
  induction d as [|c d IH]; cbn [app split_last]; [|by rewrite IH]. rewrite Hnone. by rewrite decide_True.
Qed.

Lemma entry_set fs D f x D' n :
  entry (set_entry fs D f x) D' n = if decide (D' = D /\ n = f) then x else entry fs D' n.
Proof.
  unfold entry, set_entry. destruct (decide (D = D')) as [<-|HD].
  - rewrite lookup_insert_eq. cbn. destruct (decide (f = n)) as [<-|Hn].
    + rewrite lookup_partial_alter_eq. by rewrite decide_True.
    + rewrite lookup_partial_alter_ne by done. rewrite decide_False by naive_solver. by destruct (fs !! D).
  - rewrite lookup_insert_ne by done. by rewrite decide_False by naive_solver.
Qed.

Lemma entry_set_eq fs D f x : entry (set_entry fs D f x) D f = x.
Proof. rewrite entry_set. by rewrite decide_True. Qed.

Lemma dir_set fs D f x D' : is_Some (fs !! D') -> is_Some (set_entry fs D f x !! D').
Proof. unfold set_entry. rewrite lookup_insert_is_Some'. auto. Qed.

Definition is_dir (x : option node) : Prop := match x with Some (NDir _) => True | _ => False end.

Section logic.
Context (mt : bytes -> option Z).

(** Directories stay where they are. *)
Definition kept (fs fs' : fsys) : Prop :=
  forall d D, dir_of mt fs d = Some D -> is_Some (fs !! D) -> dir_of mt fs' d = Some D /\ is_Some (fs' !! D).

Lemma kept_refl fs : kept fs fs.
Proof. done. Qed.

Lemma kept_trans fs fs' fs'' : kept fs fs' -> kept fs' fs'' -> kept fs fs''.
Proof. intros H1 H2 d D Hd HD. destruct (H1 d D Hd HD). by apply H2. Qed.

Lemma kept_set fs D f x : ~ is_dir (entry fs D f) -> ~ is_dir x -> kept fs (set_entry fs D f x).
Proof.
  intros Ho Hx d D' Hd HD'. split; [|by apply dir_set]. unfold dir_of in *. destruct (mt d); [done|].
  destruct (split_last d) as [[p n]|]; [|done]. cbn in *. destruct (mt p) as [D0|]; [|done]. cbn in *.
  rewrite entry_set. destruct (decide (D0 = D /\ n = f)) as [[-> ->]|]; [|done].
  exfalso. apply Ho. by destruct (entry fs D f) as [[]|].
Qed.

(** *** Processes that keep to different names *)

(** What the other process may do when this one has the names [N] of
    directory [D], and what this one may do. *)
Definition others (D : Z) (N : bytes -> Prop) (fs fs' : fsys) : Prop :=
  kept fs fs' /\ forall n, N n -> entry fs' D n = entry fs D n.
Definition ours (D : Z) (N : bytes -> Prop) (fs fs' : fsys) : Prop :=
  kept fs fs' /\ forall D' n, ~ (D' = D /\ N n) -> entry fs' D' n = entry fs D' n.

(** The names [N] of [D] are those of the files [F]. *)
Definition own (D : Z) (N : bytes -> Prop) (F : gmap bytes bytes) (fs : fsys) : Prop :=
  forall n, N n ->
    match entry fs D n with None => F !! n = None | Some (NFile _ b) => F !! n = Some b | Some (NDir _) => False end.

(** And the paths [ds] lead to it. *)
Definition at_dir (D : Z) (ds : list bytes) (N : bytes -> Prop) (F : gmap bytes bytes) (fs : fsys) : Prop :=
  is_Some (fs !! D) /\ Forall (fun d => dir_of mt fs d = Some D) ds /\ own D N F fs.

Lemma others_pre D N : PreOrder (others D N).
Proof.
  split; [intros fs; by split|]. intros fs fs' fs'' [H1 H2] [H3 H4]. split; [by eapply kept_trans|].
  intros n Hn. rewrite H4 by done. auto.
Qed.

Lemma kept_dirs D ds fs fs' :
  kept fs fs' -> is_Some (fs !! D) -> ds <> [] -> Forall (fun d => dir_of mt fs d = Some D) ds ->
  is_Some (fs' !! D) /\ Forall (fun d => dir_of mt fs' d = Some D) ds.
Proof.
  intros Hk HD Hds Hall. assert (Hall' : Forall (fun d => dir_of mt fs' d = Some D) ds).
  { eapply Forall_impl; [done|]. intros d Hd. by apply (Hk d D). }
  split; [|done]. destruct ds as [|d ds]; [done|]. by apply (Hk d D); [apply Forall_cons in Hall as [? _]|].
Qed.

Lemma at_dir_stable D ds N F fs fs' : ds <> [] -> at_dir D ds N F fs -> others D N fs fs' -> at_dir D ds N F fs'.
Proof.
  intros Hds (HD & Hall & Ho) [Hk Hn]. destruct (kept_dirs D ds fs fs' Hk HD Hds Hall) as [HD' Hall'].
  split_and!; [done|done|]. intros n HN. rewrite Hn by done. by apply Ho.
Qed.

Lemma ours_set D N f fs x :
  N f -> ~ is_dir (entry fs D f) -> ~ is_dir x -> ours D N fs (set_entry fs D f x).
Proof.
  intros Hf Ho Hx. split; [by apply kept_set|]. intros D' n Hn. rewrite entry_set. rewrite decide_False; [done|].
  intros [-> ->]. by apply Hn.
Qed.

(** Writing and deleting an entry. *)
Lemma at_dir_set D ds N F fs f i b :
  ds <> [] -> at_dir D ds N F fs -> ~ is_dir (entry fs D f) ->
  at_dir D ds N (<[f := b]> F) (set_entry fs D f (Some (NFile i b))).
Proof.
  intros Hds (HD & Hall & Ho) Hnd. destruct (kept_dirs D ds fs (set_entry fs D f (Some (NFile i b)))) as [HD' Hall'];
    [by apply kept_set; [|intros []]|done..|].
  split_and!; [done|done|]. intros n Hn. rewrite entry_set. destruct (decide (D = D /\ n = f)) as [[_ ->]|Hne].
  - by rewrite lookup_insert_eq.
  - rewrite lookup_insert_ne by naive_solver. by apply Ho.
Qed.

Lemma at_dir_unset D ds N F fs f :
  ds <> [] -> at_dir D ds N F fs -> ~ is_dir (entry fs D f) -> at_dir D ds N (delete f F) (set_entry fs D f None).
Proof.
  intros Hds (HD & Hall & Ho) Hnd. destruct (kept_dirs D ds fs (set_entry fs D f None)) as [HD' Hall'];
    [by apply kept_set; [|intros []]|done..|].
  split_and!; [done|done|]. intros n Hn. rewrite entry_set. destruct (decide (D = D /\ n = f)) as [[_ ->]|Hne].
  - by rewrite lookup_delete_eq.
  - rewrite lookup_delete_ne by naive_solver. by apply Ho.
Qed.

Lemma own_not_dir D ds N F fs f : at_dir D ds N F fs -> N f -> ~ is_dir (entry fs D f).
Proof. intros (_ & _ & Ho) Hf Hd. specialize (Ho f Hf). by destruct (entry fs D f) as [[]|]. Qed.

Lemma own_file D ds N F fs f b :
  at_dir D ds N F fs -> N f -> F !! f = Some b -> exists i, entry fs D f = Some (NFile i b).
Proof.
  intros (_ & _ & Ho) Hf Hb. specialize (Ho f Hf). destruct (entry fs D f) as [[i b'|]|]; [|done|congruence].
  exists i. congruence.
Qed.

Lemma own_missing D ds N F fs f : at_dir D ds N F fs -> N f -> F !! f = None -> entry fs D f = None.
Proof.
  intros (_ & _ & Ho) Hf Hb. specialize (Ho f Hf). destruct (entry fs D f) as [[i b'|]|]; [congruence|done|done].
Qed.

Lemma own_known D ds N F fs f i b : at_dir D ds N F fs -> N f -> entry fs D f = Some (NFile i b) -> F !! f = Some b.
Proof. intros (_ & _ & Ho) Hf Hb. specialize (Ho f Hf). by rewrite Hb in Ho. Qed.

(** *** Rules for the calls *)

Section rules.
Context (D : Z) (ds : list bytes) (N : bytes -> Prop).
Context (Hds : ds <> []).

(** A stretch of a process that keeps to the names [N] of [D]. *)
Definition wpn {A} (p : prog A) (Q : A -> fsys -> local -> Prop) (fs : fsys) (l : local) : Prop :=
  wp mt (fun x y : fsys * unit => others D N x.1 y.1) (fun x y => ours D N x.1 y.1) p (fun a fs l _ => Q a fs l) fs l tt.

Lemma wpn_bind {A B} (p : prog A) (k : A -> prog B) Q fs l :
  wpn p (fun a => wpn (k a) Q) fs l -> wpn (bind p k) Q fs l.
Proof. intros Hp. apply wp_bind. eapply wp_mono; [|exact Hp]. by intros a fs' l' []. Qed.

Lemma wpn_mono {A} (p : prog A) (Q Q' : A -> fsys -> local -> Prop) fs l :
  (forall a fs l, Q a fs l -> Q' a fs l) -> wpn p Q fs l -> wpn p Q' fs l.
Proof. intros HQ. apply wp_mono. auto. Qed.

(** A call from where the names are those of [F]. *)
Lemma wpn_call {A} c (k : result -> prog A) Q F fs l :
  at_dir D ds N F fs ->
  (forall fs1 r fs2 l2, at_dir D ds N F fs1 -> (forall n, N n -> entry fs1 D n = entry fs D n) ->
     contract mt c fs1 l r fs2 l2 -> ours D N fs1 fs2 /\ wpn (k r) Q fs2 l2) ->
  wpn (Sys c k) Q fs l.
Proof.
  intros Hat Hk fs1 [] HR r fs2 l2 Hc. cbn [fst] in HR. exists tt. apply (Hk fs1 r fs2 l2); [|apply HR|exact Hc].
  by eapply at_dir_stable.
Qed.

Lemma at_path d f F fs :
  at_dir D ds N F fs -> d ∈ ds -> slash ∉ f ->
  split_last (d ++ slash :: f) = Some (d, f) /\ dir_of mt fs d = Some D /\ is_Some (fs !! D).
Proof.
  intros (HD & Hall & _) Hd Hf. split_and!; [by apply split_last_app| |done]. rewrite Forall_forall in Hall. auto.
Qed.

Lemma wpn_creat {A} d f F (k : result -> prog A) Q fs l :
  at_dir D ds N F fs -> d ∈ ds -> slash ∉ f -> N f ->
  (forall r fs' l' i, 0 <= rc r -> fds l' !! rc r = Some (Fdesc D f i 0 Writing) -> entry fs' D f = Some (NFile i []) ->
     at_dir D ds N (<[f := []]> F) fs' -> wpn (k r) Q fs' l') ->
  wpn (Sys (Creat (d ++ slash :: f)) k) Q fs l.
Proof.
  intros Hat Hd Hf HN Hk. eapply wpn_call; [done|]. intros fs1 r fs2 l2 Hat1 _ Hc.
  destruct (at_path d f F fs1 Hat1 Hd Hf) as (Hs & Hdir & HD). specialize (Hc d f D Hs Hdir HD). cbn [by_path] in Hc.
  pose proof (own_not_dir _ _ _ _ _ _ Hat1 HN) as Hnd.
  assert (Hgo : forall i, fs2 = set_entry fs1 D f (Some (NFile i [])) /\ opened l D f i Writing r l2 ->
    ours D N fs1 fs2 /\ wpn (k r) Q fs2 l2).
  { intros i (-> & H0 & _ & ->). split; [apply ours_set; [done|done|intros []]|]. eapply (Hk r _ _ i); [done| | |].
    - cbn. apply lookup_insert_eq.
    - apply entry_set_eq.
    - by apply at_dir_set. }
  destruct (entry fs1 D f) as [[i b|]|]; [by apply (Hgo i)|by destruct Hnd|].
  destruct Hc as [i Hc]. by apply (Hgo i).
Qed.

Lemma wpn_open {A} d f flags md b F (k : result -> prog A) Q fs l :
  at_dir D ds N F fs -> d ∈ ds -> slash ∉ f -> N f -> F !! f = Some b -> open_mode flags = Some md ->
  (forall r fs' l' i, 0 <= rc r -> fds l' !! rc r = Some (Fdesc D f i 0 md) -> entry fs' D f = Some (NFile i b) ->
     at_dir D ds N F fs' -> wpn (k r) Q fs' l') ->
  wpn (Sys (Open (d ++ slash :: f) flags) k) Q fs l.
Proof.
  intros Hat Hd Hf HN Hb Hmd Hk. eapply wpn_call; [done|]. intros fs1 r fs2 l2 Hat1 _ Hc.
  destruct (at_path d f F fs1 Hat1 Hd Hf) as (Hs & Hdir & HD). specialize (Hc d f D Hs Hdir HD). cbn [by_path] in Hc.
  destruct (own_file _ _ _ _ _ _ _ Hat1 HN Hb) as [i Hi]. rewrite Hi in Hc. destruct (Hc md Hmd) as (-> & H0 & _ & ->).
  split; [split; [apply kept_refl|done]|]. eapply (Hk r _ _ i); [done| |done|done]. cbn. apply lookup_insert_eq.
Qed.

Lemma wpn_open_missing {A} d f F (k : result -> prog A) Q fs l :
  at_dir D ds N F fs -> d ∈ ds -> slash ∉ f -> N f -> F !! f = None ->
  (forall r fs', rc r < 0 -> at_dir D ds N F fs' -> wpn (k r) Q fs' l) ->
  wpn (Sys (Open (d ++ slash :: f) O_RDONLY) k) Q fs l.
Proof.
  intros Hat Hd Hf HN Hb Hk. eapply wpn_call; [done|]. intros fs1 r fs2 l2 Hat1 _ Hc.
  destruct (at_path d f F fs1 Hat1 Hd Hf) as (Hs & Hdir & HD). specialize (Hc d f D Hs Hdir HD). cbn [by_path] in Hc.
  rewrite (own_missing _ _ _ _ _ _ Hat1 HN Hb) in Hc. destruct (Hc ltac:(by eexists)) as (H0 & -> & ->).
  split; [split; [apply kept_refl|done]|]. by apply Hk.
Qed.

Lemma wpn_unlink {A} d f b F (k : result -> prog A) Q fs l :
  at_dir D ds N F fs -> d ∈ ds -> slash ∉ f -> N f -> F !! f = Some b ->
  (forall r fs', rc r = 0 -> at_dir D ds N (delete f F) fs' -> wpn (k r) Q fs' l) ->
  wpn (Sys (Unlink (d ++ slash :: f)) k) Q fs l.
Proof.
  intros Hat Hd Hf HN Hb Hk. eapply wpn_call; [done|]. intros fs1 r fs2 l2 Hat1 _ Hc.
  destruct (at_path d f F fs1 Hat1 Hd Hf) as (Hs & Hdir & HD). specialize (Hc d f D Hs Hdir HD). cbn [by_path] in Hc.
  pose proof (own_not_dir _ _ _ _ _ _ Hat1 HN) as Hnd.
  destruct (own_file _ _ _ _ _ _ _ Hat1 HN Hb) as [i Hi]. rewrite Hi in Hc. destruct Hc as (H0 & -> & ->).
  split; [apply ours_set; [done|done|intros []]|]. apply Hk; [done|]. by apply at_dir_unset.
Qed.

Lemma entry_contents fs f i b off md : entry fs D f = Some (NFile i b) -> contents fs (Fdesc D f i off md) = Some b.
Proof. intros Hi. unfold contents. cbn. rewrite Hi. by rewrite Z.eqb_refl. Qed.

Lemma wpn_write {A} fd f i off md b data F (k : result -> prog A) Q fs l :
  at_dir D ds N F fs -> N f -> fds l !! fd = Some (Fdesc D f i off md) -> md <> Reading ->
  entry fs D f = Some (NFile i b) ->
  let off' := match md with Appending => lenZ b | _ => off end in
  let b' := extent_server.write_at b (Z.to_nat off') data in
  (forall r fs' l', rc r = lenZ data -> fds l' !! fd = Some (Fdesc D f i (off' + lenZ data) md) ->
     entry fs' D f = Some (NFile i b') -> at_dir D ds N (<[f := b']> F) fs' -> wpn (k r) Q fs' l') ->
  wpn (Sys (Write fd data) k) Q fs l.
Proof.
  intros Hat HN Hfd Hmd Hb off' b' Hk. eapply wpn_call; [done|]. intros fs1 r fs2 l2 Hat1 Hsame Hc.
  specialize (Hc _ Hfd). cbn [by_fd] in Hc. rewrite <- (Hsame f HN) in Hb. rewrite (entry_contents _ _ _ _ _ _ Hb) in Hc.
  cbn [fd_dir fd_name fd_ino fd_off fd_mode] in Hc. destruct (Hc Hmd) as (-> & Hr & ->).
  pose proof (own_not_dir _ _ _ _ _ _ Hat1 HN) as Hnd. split; [apply ours_set; [done|done|intros []]|].
  apply Hk; [done| |apply entry_set_eq|by apply at_dir_set]. cbn. apply lookup_insert_eq.
Qed.

Lemma wpn_read {A} fd f i off b n F (k : result -> prog A) Q fs l :
  at_dir D ds N F fs -> N f -> fds l !! fd = Some (Fdesc D f i off Reading) -> 0 <= n ->
  entry fs D f = Some (NFile i b) ->
  (forall r fs' l', rbuf r = take (Z.to_nat n) (drop (Z.to_nat off) b) -> rc r = lenZ (rbuf r) ->
     fds l' !! fd = Some (Fdesc D f i (off + rc r) Reading) ->
     entry fs' D f = Some (NFile i b) -> at_dir D ds N F fs' -> wpn (k r) Q fs' l') ->
  wpn (Sys (Read fd n) k) Q fs l.
Proof.
  intros Hat HN Hfd Hn Hb Hk. eapply wpn_call; [done|]. intros fs1 r fs2 l2 Hat1 Hsame Hc.
  specialize (Hc _ Hfd). cbn [by_fd] in Hc. rewrite <- (Hsame f HN) in Hb. rewrite (entry_contents _ _ _ _ _ _ Hb) in Hc.
  destruct (Hc Hn eq_refl) as (-> & H1 & H2 & ->). split; [split; [apply kept_refl|done]|].
  apply Hk; [done|done| |done|done]. cbn. apply lookup_insert_eq.
Qed.

Lemma wpn_close {A} fd d F (k : result -> prog A) Q fs l :
  at_dir D ds N F fs -> fds l !! fd = Some d ->
  (forall r fs' l', rc r = 0 -> at_dir D ds N F fs' -> wpn (k r) Q fs' l') ->
  wpn (Sys (Close fd) k) Q fs l.
Proof.
  intros Hat Hfd Hk. eapply wpn_call; [done|]. intros fs1 r fs2 l2 Hat1 _ Hc. destruct (Hc _ Hfd) as (Hr & -> & ->).
  split; [split; [apply kept_refl|done]|]. by apply Hk.
Qed.

Lemma wpn_lseek {A} fd f i off off' md b F (k : result -> prog A) Q fs l :
  at_dir D ds N F fs -> N f -> fds l !! fd = Some (Fdesc D f i off md) -> 0 <= off' -> entry fs D f = Some (NFile i b) ->
  (forall r fs' l', rc r = off' -> fds l' !! fd = Some (Fdesc D f i off' md) -> entry fs' D f = Some (NFile i b) ->
     at_dir D ds N F fs' -> wpn (k r) Q fs' l') ->
  wpn (Sys (Lseek fd off') k) Q fs l.
Proof.
  intros Hat HN Hfd H0 Hb Hk. eapply wpn_call; [done|]. intros fs1 r fs2 l2 Hat1 Hsame Hc.
  specialize (Hc _ Hfd). cbn [by_fd] in Hc. destruct (Hc H0) as (Hr & -> & ->). split; [split; [apply kept_refl|done]|].
  apply Hk; [done| |by rewrite Hsame|done]. cbn. apply lookup_insert_eq.
Qed.

(** *** The functions of the tests *)

(** Names that can be made into paths of at most 512 chars. *)
Definition plain (f : bytes) : Prop := slash ∉ f /\ lenZ f <= 40.

Context (Hshort : Forall (fun d => lenZ d <= 450) ds).

Lemma path_ok d f : d ∈ ds -> plain f -> path d f = Return (d ++ slash :: f).
Proof.
  intros Hd [_ Hf]. rewrite Forall_forall in Hshort. specialize (Hshort d Hd). unfold path, sprintf.
  destruct (Z.ltb_spec (lenZ (d ++ slash :: f)) 512) as [|Hge]; [done|]. rewrite length_app in Hge. cbn [length] in Hge. lia.
Qed.

Lemma write_at_empty b : extent_server.write_at [] 0 b = b.
Proof.
  apply list_eq. intros i. rewrite extent_server.lookup_write_at. destruct (decide (i < length b)%nat) as [Hi|Hi].
  - rewrite decide_True by lia. by rewrite Nat.sub_0_r.
  - rewrite decide_False by lia. rewrite (lookup_ge_None_2 b) by lia. by destruct (decide _).
Qed.

Ltac expose := cbn [mbind prog_bind bind syscall].

Lemma create1_ok d f inp F fs l :
  at_dir D ds N F fs -> d ∈ ds -> plain f -> N f ->
  wpn (create1 d f inp) (fun _ fs' _ => at_dir D ds N (<[f := inp]> F) fs') fs l.
Proof.
  intros Hat Hd Hf HN. unfold create1. rewrite path_ok by done. expose.
  eapply wpn_creat; [done|done|apply Hf|done|]. intros fd fs1 l1 i H0 Hfd He Hat1.
  destruct (Z.ltb_spec (rc fd) 0); [lia|]. expose. eapply wpn_write; [done|done|done|done|done|].
  intros cc fs2 l2 Hcc Hfd2 He2 Hat2. rewrite insert_insert_eq in Hat2. rewrite Hcc, Z.eqb_refl.
  cbn [negb]. expose. eapply wpn_close; [done|done|]. intros r fs3 l3 -> Hat3. cbn.
  change (Z.to_nat 0) with 0%nat in Hat3. by rewrite write_at_empty in Hat3.
Qed.

Lemma check1_ok size d f inp F fs l :
  at_dir D ds N F fs -> d ∈ ds -> plain f -> N f -> F !! f = Some inp -> lenZ inp < size ->
  wpn (check1_buf size d f inp) (fun _ fs' _ => at_dir D ds N F fs') fs l.
Proof.
  intros Hat Hd Hf HN Hb Hsz. unfold check1_buf. rewrite path_ok by done. expose.
  eapply wpn_open; [done|done|apply Hf|done|done|done|]. intros fd fs1 l1 i H0 Hfd He Hat1.
  destruct (Z.ltb_spec (rc fd) 0); [lia|]. expose. eapply wpn_read; [done|done|done|lia|done|].
  intros cc fs2 l2 Hbuf Hcc Hfd2 He2 Hat2. change (Z.to_nat 0) with 0%nat in Hbuf. rewrite drop_0, take_ge in Hbuf by lia.
  rewrite Hcc, Hbuf, Z.eqb_refl. cbn [negb]. expose. eapply wpn_close; [done|done|]. intros r fs3 l3 _ Hat3. expose.
  rewrite ?Hbuf. unfold strncmp. rewrite strcmp_refl. done.
Qed.

Lemma unlink1_ok d f b F fs l :
  at_dir D ds N F fs -> d ∈ ds -> plain f -> N f -> F !! f = Some b ->
  wpn (unlink1 d f) (fun _ fs' _ => at_dir D ds N (delete f F) fs') fs l.
Proof.
  intros Hat Hd Hf HN Hb. unfold unlink1. rewrite path_ok by done. expose.
  eapply wpn_unlink; [done|done|apply Hf|done|done|]. intros r fs1 -> Hat1. done.
Qed.

Lemma checknot_ok d f F fs l :
  at_dir D ds N F fs -> d ∈ ds -> plain f -> N f -> F !! f = None ->
  wpn (checknot d f) (fun _ fs' _ => at_dir D ds N F fs') fs l.
Proof.
  intros Hat Hd Hf HN Hb. unfold checknot. rewrite path_ok by done. expose.
  eapply wpn_open_missing; [done|done|apply Hf|done|done|]. intros r fs1 Hr Hat1.
  destruct (Z.leb_spec 0 (rc r)); [lia|done].
Qed.

Lemma write_at_end s b : extent_server.write_at s (length s) b = s ++ b.
Proof.
  apply list_eq. intros i. rewrite extent_server.lookup_write_at. destruct (decide (i < length s)%nat) as [Hi|Hi].
  - rewrite decide_False by lia. by rewrite lookup_app_l.
  - rewrite lookup_app_r by lia. destruct (decide (length s <= i < length s + length b)%nat) as [|Hn]; [done|].
    symmetry. apply lookup_ge_None_2. lia.
Qed.

Lemma append1_ok d f b inp F fs l :
  at_dir D ds N F fs -> d ∈ ds -> plain f -> N f -> F !! f = Some b ->
  wpn (append1 d f inp) (fun _ fs' _ => at_dir D ds N (<[f := b ++ inp]> F) fs') fs l.
Proof.
  intros Hat Hd Hf HN Hb. unfold append1. rewrite path_ok by done. expose.
  eapply wpn_open; [done|done|apply Hf|done|done|done|]. intros fd fs1 l1 i H0 Hfd He Hat1.
  destruct (Z.ltb_spec (rc fd) 0); [lia|]. expose. eapply wpn_write; [done|done|done|done|done|].
  intros cc fs2 l2 Hcc Hfd2 He2 Hat2. rewrite Hcc, Z.eqb_refl. cbn [negb]. expose.
  eapply wpn_close; [done|done|]. intros r fs3 l3 -> Hat3. cbn.
  rewrite Nat2Z.id, write_at_end in Hat3. done.
Qed.

(** The files a loop over [idx] makes and deletes. *)
Definition added (prefix : bytes) (idx : list Z) (F : gmap bytes bytes) : gmap bytes bytes :=
  foldl (fun F i => <[numbered prefix i := le4 i]> F) F idx.
Definition removed (prefix : bytes) (idx : list Z) (F : gmap bytes bytes) : gmap bytes bytes :=
  foldl (fun F i => delete (numbered prefix i) F) F idx.

Lemma numbered_plain prefix i : slash ∉ prefix -> lenZ prefix <= 10 -> is_u64 i -> plain (numbered prefix i).
Proof.
  intros Hp Hl Hi. unfold numbered. destruct (print_ull_ok i Hi) as (_ & Hd & _). split.
  - rewrite not_elem_of_app, not_elem_of_cons. split_and!; [done|done|]. intros Hs.
    rewrite Forall_forall in Hd. by specialize (Hd _ Hs).
  - rewrite length_app. cbn [length]. pose proof (file_system.dec_digits_length 20 i). unfold print_ull. lia.
Qed.

(** The names of a loop are among [N]. *)
Definition all_ours (prefix : bytes) (idx : list Z) : Prop :=
  Forall (fun i => 0 <= i < 2 ^ 31 /\ plain (numbered prefix i) /\ N (numbered prefix i)) idx.

Lemma createn_ok d prefix dup idx F fs l :
  at_dir D ds N F fs -> d ∈ ds -> all_ours prefix idx ->
  wpn (createn_loop d prefix dup idx) (fun _ fs' _ => at_dir D ds N (added prefix idx F) fs') fs l.
Proof.
  intros Hat Hd Hall. revert F fs l Hat. induction Hall as [|i idx (Hi & Hf & HN) Hall IH]; intros F fs l Hat; [done|].
  cbn [createn_loop added foldl]. rewrite path_ok by done. expose.
  eapply wpn_creat; [done|done|apply Hf|done|]. intros fd fs1 l1 ino H0 Hfd He Hat1.
  destruct (Z.ltb_spec (rc fd) 0); [lia|]. cbn [andb]. expose. eapply wpn_write; [done|done|done|done|done|].
  intros cc fs2 l2 Hcc Hfd2 He2 Hat2. rewrite Hcc. change (negb (lenZ (le4 i) =? 4)) with false. cbn [negb]. expose.
  eapply wpn_close; [done|done|]. intros r fs3 l3 -> Hat3. cbn [negb Z.eqb]. expose.
  change (Z.to_nat 0) with 0%nat in Hat3. rewrite write_at_empty, insert_insert_eq in Hat3. by apply IH.
Qed.

Lemma checkn_ok d prefix idx F fs l :
  at_dir D ds N F fs -> d ∈ ds -> all_ours prefix idx -> Forall (fun i => F !! numbered prefix i = Some (le4 i)) idx ->
  wpn (checkn_loop d prefix idx) (fun _ fs' _ => at_dir D ds N F fs') fs l.
Proof.
  intros Hat Hd Hall HF. revert fs l Hat. induction Hall as [|i idx (Hi & Hf & HN) Hall IH]; intros fs l Hat; [done|].
  apply Forall_cons in HF as [Hb HF]. specialize (IH HF). cbn [checkn_loop]. rewrite path_ok by done. expose.
  eapply wpn_open; [done|done|apply Hf|done|done|done|]. intros fd fs1 l1 ino H0 Hfd He Hat1.
  destruct (Z.ltb_spec (rc fd) 0); [lia|]. expose. eapply wpn_read; [done|done|done|lia|done|].
  intros cc fs2 l2 Hbuf Hcc Hfd2 He2 Hat2. change (rbuf cc = le4 i) in Hbuf. rewrite Hcc, Hbuf.
  change (negb (lenZ (le4 i) =? 4)) with false. cbn [negb]. rewrite int_of_le4 by done. rewrite Z.eqb_refl. cbn [negb]. expose.
  eapply wpn_close; [done|done|]. intros r fs3 l3 _ Hat3. expose. by apply IH.
Qed.

Lemma unlinkn_ok d prefix idx F fs l :
  at_dir D ds N F fs -> d ∈ ds -> all_ours prefix idx -> NoDup idx ->
  Forall (fun i => is_Some (F !! numbered prefix i)) idx ->
  wpn (unlinkn_loop d prefix idx) (fun _ fs' _ => at_dir D ds N (removed prefix idx F) fs') fs l.
Proof.
  intros Hat Hd Hall Hnd HF. revert F fs l HF Hat.
  induction Hall as [|i idx (Hi & Hf & HN) Hall IH]; intros F fs l HF Hat; [done|].
  apply Forall_cons in HF as [[b Hb] HF]. apply NoDup_cons in Hnd as [Hni Hnd]. cbn [unlinkn_loop removed foldl].
  rewrite path_ok by done. expose. eapply wpn_unlink; [done|done|apply Hf|done|done|]. intros r fs1 -> Hat1.
  cbn [negb Z.eqb]. apply IH; [done| |done]. clear -HF Hni Hall Hi. rewrite Forall_forall in *. intros j Hj.
  rewrite lookup_delete_ne; [by apply HF|]. intros E. apply app_inj_1 in E as [_ [= E]]; [|done].
  apply Hni. apply print_ull_inj in E; [by subst| |]; unfold is_u64; [|specialize (Hall j Hj)]; lia.
Qed.

Lemma checkread_loop_ok fd f i c n off b F fs l :
  at_dir D ds N F fs -> N f -> fds l !! fd = Some (Fdesc D f i off Reading) -> entry fs D f = Some (NFile i b) ->
  0 <= off -> (forall k, off <= k < off + Z.of_nat n -> b !! Z.to_nat k = Some c) ->
  wpn (checkread_loop fd c n)
    (fun _ fs' l' => at_dir D ds N F fs' /\ exists off', fds l' !! fd = Some (Fdesc D f i off' Reading)) fs l.
Proof.
  intros Hat HN Hfd He H0 Hb. revert off fs l Hat Hfd He H0 Hb. induction n as [|n IH]; intros off fs l Hat Hfd He H0 Hb.
  - split; [done|]. eauto.
  - cbn [checkread_loop]. expose. eapply wpn_read; [done|done|done|lia|done|].
    intros xc fs2 l2 Hbuf Hcc Hfd2 He2 Hat2. change (Z.to_nat 1) with 1%nat in Hbuf.
    assert (Hx : rbuf xc = [c]).
    { rewrite Hbuf. pose proof (Hb off ltac:(lia)) as Hc. erewrite drop_S by done. cbn. by rewrite take_0. }
    rewrite Hcc, Hx. cbn [length negb Z.eqb]. rewrite decide_True by done. eapply (IH (off + 1)); try done.
    + rewrite Hfd2, Hcc, Hx. done.
    + lia.
    + intros k Hk. apply Hb. lia.
Qed.

Lemma checkread_ok d f start n c b F fs l :
  at_dir D ds N F fs -> d ∈ ds -> plain f -> N f -> F !! f = Some b -> 0 <= start -> 0 <= n ->
  (forall k, start <= k < start + n -> b !! Z.to_nat k = Some c) ->
  wpn (checkread d f start n c) (fun _ fs' _ => at_dir D ds N F fs') fs l.
Proof.
  intros Hat Hd Hf HN Hb H0 Hn Hc. unfold checkread. rewrite path_ok by done. expose.
  eapply wpn_open; [done|done|apply Hf|done|done|done|]. intros fd fs1 l1 i Hp Hfd He Hat1.
  destruct (Z.ltb_spec (rc fd) 0); [lia|]. expose. eapply wpn_lseek; [done|done|done|done|done|].
  intros r fs2 l2 Hr Hfd2 He2 Hat2. rewrite Hr, Z.eqb_refl. cbn [negb]. expose. apply wpn_bind.
  eapply wpn_mono; [|eapply checkread_loop_ok; try done; intros k Hk; apply Hc; lia].
  intros [] fs3 l3 (Hat3 & off' & Hfd3). expose. eapply wpn_close; [done|done|]. by intros r' fs4 l4 _ Hat4.
Qed.

End rules.
(** *** Listing a directory *)

Lemma duplicate_none l : NoDup l -> duplicate l = false.
Proof.
  induction l as [|a [|b l] IH]; [done|done|]. rewrite NoDup_cons. intros [Ha Hl]. cbn [duplicate].
  destruct (Z.eqb_spec (strcmp a b) 0) as [E|]; [|by apply IH]. apply strcmp_eq in E as ->. exfalso. apply Ha. by left.
Qed.

Lemma qsort_perm l : qsort l ≡ₚ l.
Proof. apply merge_sort_Permutation. Qed.

Definition not_dot (n : bytes) : Prop := head n <> Some dot.

Section listing.
Context {Γ : Type} (R G : fsys * Γ -> fsys * Γ -> Prop) (J : fsys -> Γ -> Prop).
Context (HR : forall fs g fs' g', J fs g -> R (fs, g) (fs', g') -> J fs' g').
Context (HG : forall fs g, J fs g -> G (fs, g) (fs, g)).

Lemma dircheck_loop_ok fuel dp D X es acc fs l g :
  (forall fs g, J fs g -> dom <$> fs !! D = Some X) ->
  J fs g -> streams l !! dp = Some (Stream D X es) -> (length es < fuel)%nat -> (length acc + length (filter not_dot es) <= 1000)%nat ->
  wp mt R G (dircheck_loop fuel dp acc)
    (fun ns fs' l' g' => J fs' g' /\ ns = acc ++ filter not_dot es /\ is_Some (streams l' !! dp)) fs l g.
Proof.
  intros HX. revert fuel acc fs l g. induction es as [|n es IH]; intros fuel acc fs l g HJ Hs Hfuel Hroom;
    (destruct fuel as [|fuel]; [cbn in Hfuel; lia|]); cbn [dircheck_loop mbind prog_bind bind syscall wp];
    intros fs1 g1 HR1 r fs2 l2 Hc; cbn [contract by_dir] in Hc; rewrite Hs in Hc; pose proof (HR _ _ _ _ HJ HR1) as HJ1;
    specialize (Hc (HX _ _ HJ1)).
  - destruct Hc as (-> & -> & ->). exists g1. split; [by apply HG|]. cbn [Z.eqb wp]. split; [done|].
    rewrite filter_nil, app_nil_r. split; [done|]. by rewrite Hs.
  - destruct Hc as (Hr & Hn & -> & ->). exists g1. split; [by apply HG|]. destruct (Z.eqb_spec (rc r) 0); [done|].
    rewrite Hn. cbn [length] in Hfuel.
    assert (Hs' : streams (set_stream dp (Stream D X es) l) !! dp = Some (Stream D X es)) by (cbn; apply lookup_insert_eq).
    destruct (decide (head n = Some dot)) as [Hd|Hd].
    + rewrite (filter_cons_False not_dot) in * by (unfold not_dot; tauto). apply IH; [done|done|lia|done].
    + rewrite (filter_cons_True not_dot) in * by done. cbn [length] in Hroom. destruct (Z.leb_spec 1000 (lenZ acc)); [lia|].
      eapply wp_mono; [|apply IH; [done|done|lia|rewrite length_app; cbn; lia]].
      intros ns fs' l' g' (HJ' & -> & Hst). by rewrite <- app_assoc.
Qed.

Lemma filter_dots dots : Forall (fun n => head n = Some dot) dots -> filter not_dot dots = [].
Proof.
  induction 1 as [|n dots Hn _ IH]; [done|]. rewrite filter_cons_False by (unfold not_dot; tauto). done.
Qed.

Lemma filter_not_dot ns : Forall not_dot ns -> filter not_dot ns = ns.
Proof. induction 1 as [|n ns Hn _ IH]; [done|]. rewrite filter_cons_True by done. by rewrite IH. Qed.

Lemma names_dom (m : gmap bytes node) ns : (map_to_list m).*1 ≡ₚ ns -> dom m = list_to_set ns.
Proof.
  intros Hp. apply set_eq. intros n. rewrite elem_of_list_to_set, <- Hp, elem_of_dom, list_elem_of_fmap. split.
  - intros [x Hx]. exists (n, x). split; [done|]. by apply elem_of_map_to_list.
  - intros ([n' x] & -> & Hx%elem_of_map_to_list). by exists x.
Qed.

(** With the names [ns] in the directory the count is right and there are
    no duplicates. *)
Lemma dircheck_ok d D ns fs l g :
  J fs g ->
  (forall fs g, J fs g -> dir_of mt fs d = Some D /\ exists m, fs !! D = Some m /\ (map_to_list m).*1 ≡ₚ ns) ->
  NoDup ns -> Forall not_dot ns -> (length ns <= 1000)%nat ->
  wp mt R G (dircheck d (lenZ ns)) (fun _ fs' _ g' => J fs' g') fs l g.
Proof.
  intros HJ Hdir Hnd Hdots Hlen. unfold dircheck. cbn [mbind prog_bind bind syscall wp]. intros fs1 g1 HR1 r fs2 l2 Hc.
  pose proof (HR _ _ _ _ HJ HR1) as HJ1. destruct (Hdir _ _ HJ1) as (Hd & m & Hm & Hp). cbn [contract by_dir] in Hc.
  rewrite Hd in Hc. cbn in Hc. rewrite Hm in Hc. destruct Hc as (es & dots & Hr & _ & -> & -> & Hes & Hdl & Hda).
  exists g1. split; [by apply HG|]. destruct (Z.eqb_spec (rc r) 0); [done|]. rewrite Hp in Hes.
  assert (Hfil : filter not_dot es ≡ₚ ns).
  { rewrite Hes, filter_app, (filter_dots _ Hda), (filter_not_dot _ Hdots). by rewrite app_nil_r. }
  apply wp_bind. eapply wp_mono; [|eapply (dircheck_loop_ok 1003 (rc r) D (list_to_set ns) es [])].
  - intros names fs3 l3 g3 (HJ3 & -> & [es' Hst]). cbn [app mbind prog_bind bind syscall wp].
    intros fs4 g4 HR4 r5 fs5 l5 Hc5. pose proof (HR _ _ _ _ HJ3 HR4) as HJ4. cbn [contract by_dir] in Hc5.
    destruct (Hc5 ltac:(by eexists)) as (-> & _). exists g4. split; [by apply HG|]. rewrite Hfil, Z.eqb_refl. cbn [negb].
    rewrite duplicate_none; [done|]. by rewrite qsort_perm, Hfil.
  - intros fs' g' HJ'. destruct (Hdir _ _ HJ') as (_ & m' & -> & Hp'). cbn. f_equal. by apply names_dom.
  - done.
  - cbn. rewrite <- (names_dom m ns Hp). apply lookup_insert_eq.
  - apply Permutation_length in Hes. rewrite length_app in Hes. lia.
  - apply Permutation_length in Hfil. cbn. lia.
Qed.
End listing.

(** The names of the whole directory. *)
Lemma own_names D ds F fs m :
  at_dir D ds (fun _ => True) F fs -> fs !! D = Some m -> (map_to_list m).*1 ≡ₚ (map_to_list F).*1.
Proof.
  intros (_ & _ & Ho) Hm. apply NoDup_Permutation; [apply NoDup_fst_map_to_list..|]. intros n.
  assert (Hk : forall A (h : gmap bytes A), n ∈ (map_to_list h).*1 <-> is_Some (h !! n)).
  { intros A h. rewrite list_elem_of_fmap. split.
    - intros ([n' x] & -> & Hx%elem_of_map_to_list). by exists x.
    - intros [x Hx]. exists (n, x). split; [done|]. by apply elem_of_map_to_list. }
  rewrite !Hk. specialize (Ho n I). unfold entry in Ho. rewrite Hm in Ho. cbn in Ho.
  destruct (m !! n) as [[i b|]|]; [|done|]; rewrite Ho; split; intros []; naive_solver.
Qed.

Lemma dircheck_whole D ds d nf F fs l :
  ds <> [] -> at_dir D ds (fun _ => True) F fs -> d ∈ ds -> nf = Z.of_nat (size F) -> (size F <= 1000)%nat ->
  Forall not_dot (map_to_list F).*1 ->
  wpn D (fun _ => True) (dircheck d nf) (fun _ fs' _ => at_dir D ds (fun _ => True) F fs') fs l.
Proof.
  intros Hds Hat Hd -> Hsz Hdots.
  assert (Hlen : length (map_to_list F).*1 = size F) by (rewrite length_fmap; apply length_map_to_list).
  rewrite <- Hlen at 1. eapply (dircheck_ok _ _ (fun fs _ => at_dir D ds (fun _ => True) F fs)); try done.
  - intros fs1 [] fs2 [] H1 H2. by eapply at_dir_stable.
  - intros fs1 [] Hat1. destruct (Hat1) as ([m Hm] & Hall & _). split; [rewrite Forall_forall in Hall; auto|].
    exists m. split; [done|]. by eapply own_names.
  - apply NoDup_fst_map_to_list.
  - lia.
Qed.

(** ** Stretches run alone *)

Abbreviation whole := (fun _ : bytes => True).

Lemma wpn_alone {A} D N (p : prog A) Q fs l : wpn D N p Q fs l -> alone mt p Q fs l.
Proof.
  apply wp_weaken; [|done]. intros [fs1 []] [fs2 []] [= ->]. split; [apply kept_refl|done].
Qed.

Section stretches.
Context (ds : list bytes).
Context (Hds : ds <> []) (Hshort : Forall (fun d => lenZ d <= 450) ds).

(** The directory the paths lead to has the files [F]. *)
Definition here (F : gmap bytes bytes) (fs : fsys) (l : local) : Prop := exists D, at_dir D ds whole F fs.

Lemma alone_here (p : prog unit) F F' :
  (forall D fs l, at_dir D ds whole F fs -> wpn D whole p (fun _ fs' _ => at_dir D ds whole F' fs') fs l) ->
  forall fs l, here F fs l -> alone mt p (fun _ => here F') fs l.
Proof.
  intros Hp fs l [D Hat]. eapply wpn_alone, wpn_mono; [|by apply (Hp D)]. intros [] fs' l' Hat'. by exists D.
Qed.

Lemma all_cons D F1 p ps Q fs l :
  wpn D whole p (fun _ fs' _ => at_dir D ds whole F1 fs') fs l ->
  (forall fs l, at_dir D ds whole F1 fs -> wpn D whole (all ps) Q fs l) ->
  wpn D whole (all (p :: ps)) Q fs l.
Proof. intros Hp Hps. apply wpn_bind. eapply wpn_mono; [|done]. intros [] fs' l' Hat. by apply Hps. Qed.

Lemma numbers_ours N prefix n :
  slash ∉ prefix -> lenZ prefix <= 10 -> n <= 2 ^ 31 -> (forall i, N (numbered prefix i)) ->
  all_ours N prefix (seqZ 0 n).
Proof.
  intros Hp Hl Hn HN. apply Forall_seqZ. intros i Hi. split_and!; [lia|lia| |done].
  apply numbered_plain; [done|done|]. unfold is_u64. lia.
Qed.

End stretches.

(** ** A child and its parent on different names *)

Lemma at_dir_sub D ds N F fs : at_dir D ds whole F fs -> at_dir D ds N F fs.
Proof. intros (H1 & H2 & H3). split_and!; [done|done|]. intros n _. by apply H3. Qed.

(** The loops leave names with other prefixes alone. *)
Lemma numbered_prefix prefix i : take (length prefix) (numbered prefix i) = prefix.
Proof. unfold numbered. by rewrite take_app_length. Qed.

Lemma added_other prefix idx F n : take (length prefix) n <> prefix -> added prefix idx F !! n = F !! n.
Proof.
  intros Hn. unfold added. revert F. induction idx as [|i idx IH]; intros F; cbn; [done|]. rewrite IH.
  apply lookup_insert_ne. intros <-. by rewrite numbered_prefix in Hn.
Qed.

Lemma removed_other prefix idx F n : take (length prefix) n <> prefix -> removed prefix idx F !! n = F !! n.
Proof.
  intros Hn. unfold removed. revert F. induction idx as [|i idx IH]; intros F; cbn; [done|]. rewrite IH.
  apply lookup_delete_ne. intros <-. by rewrite numbered_prefix in Hn.
Qed.

Lemma added_cong prefix idx F F' n : F !! n = F' !! n -> added prefix idx F !! n = added prefix idx F' !! n.
Proof.
  unfold added. revert F F'. induction idx as [|i idx IH]; intros F F' E; cbn; [done|]. apply IH.
  destruct (decide (numbered prefix i = n)) as [<-|]; [by rewrite !lookup_insert_eq|by rewrite !lookup_insert_ne].
Qed.

Lemma removed_cong prefix idx F F' n : F !! n = F' !! n -> removed prefix idx F !! n = removed prefix idx F' !! n.
Proof.
  unfold removed. revert F F'. induction idx as [|i idx IH]; intros F F' E; cbn; [done|]. apply IH.
  destruct (decide (numbered prefix i = n)) as [<-|]; [by rewrite !lookup_delete_eq|by rewrite !lookup_delete_ne].
Qed.

Lemma lift_pre (R : fsys -> fsys -> Prop) : PreOrder R -> PreOrder (fun x y : fsys * unit => R x.1 y.1).
Proof. intros [H1 H2]. split; [intros [x []]; apply H1|intros [x []] [y []] [z []]; apply H2]. Qed.

(** [N1] are the child's names in [D1], [N2] the parent's in [D2]. *)
Lemma couple_apart (D1 D2 : Z) (N1 N2 : bytes -> Prop) (ds1 ds2 : list bytes) (F1 F2 : gmap bytes bytes) (child parent : prog unit) (fs : fsys) (l : local) (Q : fsys -> local -> Prop) :
  ds1 <> [] -> ds2 <> [] ->
  (forall n, ~ (D1 = D2 /\ N1 n /\ N2 n)) ->
  wpn D1 N1 child (fun _ fs' _ => at_dir D1 ds1 N1 F1 fs') fs l ->
  wpn D2 N2 parent (fun _ fs' _ => at_dir D2 ds2 N2 F2 fs') fs l ->
  (forall fs l, at_dir D1 ds1 N1 F1 fs -> at_dir D2 ds2 N2 F2 fs -> Q fs l) ->
  inhabited (couple mt child parent fs l l Q).
Proof.
  intros Hd1 Hd2 Hno Hc Hp Hj.
  assert (H12 : forall x y, ours D1 N1 x y -> others D2 N2 x y).
  { intros x y [Hk He]. split; [done|]. intros n Hn. apply He. intros [<- Hn1]. by apply (Hno n). }
  assert (H21 : forall x y, ours D2 N2 x y -> others D1 N1 x y).
  { intros x y [Hk He]. split; [done|]. intros n Hn. apply He. intros [<- Hn1]. by apply (Hno n). }
  constructor. exists unit (fun x y => others D1 N1 x.1 y.1) (fun x y => others D2 N2 x.1 y.1)
    (fun fs _ _ => at_dir D1 ds1 N1 F1 fs) (fun fs _ _ => at_dir D2 ds2 N2 F2 fs) tt.
  - apply lift_pre, others_pre.
  - apply lift_pre, others_pre.
  - intros fs1 l1 [] fs2 [] Hat HR. by eapply at_dir_stable.
  - intros fs1 l1 [] fs2 [] Hat HR. by eapply at_dir_stable.
  - eapply wp_weaken; [..|exact Hc]; [done|]. intros x y. apply H12.
  - eapply wp_weaken; [..|exact Hp]; [done|]. intros x y. apply H21.
  - intros fs1 l1 l2 [] Ha Hb. by apply Hj.
Qed.

(** The two halves of one directory. *)
Lemma at_dir_join D ds N (HN : forall n, Decision (N n)) F1 F2 F fs :
  at_dir D ds N F1 fs -> at_dir D ds (fun n => ~ N n) F2 fs ->
  (forall n, F !! n = if decide (N n) then F1 !! n else F2 !! n) -> at_dir D ds whole F fs.
Proof.
  intros (H1 & H2 & H3) (_ & _ & H4) HF. split_and!; [done|done|]. intros n _. rewrite HF.
  destruct (decide (N n)) as [Hn|Hn]; [by apply H3|by apply H4].
Qed.

(** ** A child and its parent on the same files *)

Lemma write_at_all b c : length b = length c -> extent_server.write_at b 0 c = c.
Proof.
  intros Hl. apply list_eq. intros i. rewrite extent_server.lookup_write_at. destruct (decide (i < length c)%nat) as [Hi|Hi].
  - rewrite decide_True by lia. by rewrite Nat.sub_0_r.
  - rewrite !decide_False by lia. symmetry. apply lookup_ge_None_2. lia.
Qed.

Section same_files.
Context (D : Z) (ds : list bytes) (prefix : bytes) (n : Z).
Context (Hds : ds <> []) (Hshort : Forall (fun d => lenZ d <= 450) ds).
Context (Hslash : slash ∉ prefix) (Hlen : lenZ prefix <= 10) (Hn : n <= 1000).

(** The file each process has created or emptied and not yet written. *)
Abbreviation unwritten := (bool -> option bytes).
Definition upd (who : bool) (x : option bytes) (g : unwritten) : unwritten := fun w => if Bool.eqb w who then x else g w.

Lemma upd_eq who x g : upd who x g who = x.
Proof. unfold upd. by rewrite Bool.eqb_reflx. Qed.

Lemma upd_ne who w x g : w <> who -> upd who x g w = g w.
Proof. unfold upd. intros Hw. destruct (Bool.eqb_spec w who); [done|done]. Qed.

(** Only the numbered files are there, and each has its number or is about
    to get it. *)
Definition numbered_files (fs : fsys) (g : unwritten) : Prop :=
  is_Some (fs !! D) /\ Forall (fun d => dir_of mt fs d = Some D) ds /\
  forall f, match entry fs D f with
    | None => True
    | Some (NDir _) => False
    | Some (NFile _ b) =>
        exists i, 0 <= i < n /\ f = numbered prefix i /\ (b = le4 i \/ (b = [] /\ exists who, g who = Some f))
    end.

Definition mates (who : bool) (x y : fsys * unwritten) : Prop :=
  numbered_files x.1 x.2 ->
  numbered_files y.1 y.2 /\ y.2 who = x.2 who /\ kept x.1 y.1 /\
  forall f i b, entry x.1 D f = Some (NFile i b) -> exists b', entry y.1 D f = Some (NFile i b').

Lemma mates_pre who : PreOrder (mates who).
Proof.
  split.
  - intros [fs g] Hx. split_and!; try done. eauto.
  - intros [f1 g1] [f2 g2] [f3 g3] H12 H23 H1. destruct (H12 H1) as (H2 & Hg & Hk & He).
    destruct (H23 H2) as (H3 & Hg' & Hk' & He'). cbn [fst snd] in *. split_and!; [done|congruence|by eapply kept_trans|].
    intros f i b Hf. destruct (He f i b Hf) as [b' Hf']. eauto.
Qed.

Definition present (fs : fsys) (i : Z) : Prop := exists ino b, entry fs D (numbered prefix i) = Some (NFile ino b).

Lemma numbered_inj i j : 0 <= i < n -> 0 <= j < n -> numbered prefix i = numbered prefix j -> i = j.
Proof.
  intros Hi Hj E. apply app_inj_1 in E as [_ [= E]]; [|done]. apply print_ull_inj in E; [done|unfold is_u64; lia..].
Qed.

(** Replacing a file's contents, with what is then unwritten. *)
Lemma numbered_set fs g g' who i ino b :
  numbered_files fs g -> 0 <= i < n -> ~ is_dir (entry fs D (numbered prefix i)) ->
  (forall w, w <> who -> g' w = g w) -> (forall f, g who = Some f -> f = numbered prefix i) ->
  (b = le4 i \/ (b = [] /\ g' who = Some (numbered prefix i))) ->
  (forall j b', entry fs D (numbered prefix i) = Some (NFile j b') -> ino = j) ->
  mates (negb who) (fs, g) (set_entry fs D (numbered prefix i) (Some (NFile ino b)), g').
Proof.
  intros Hf Hi Hnd Hg Hwho Hb Hino _. set (f := numbered prefix i) in *.
  assert (Hk : kept fs (set_entry fs D f (Some (NFile ino b)))) by (apply kept_set; [done|intros []]).
  destruct Hf as (HD & Hall & Hfiles). destruct (kept_dirs D ds _ _ Hk HD Hds Hall) as [HD' Hall'].
  split_and!; cbn [fst snd]; [split_and!; [done|done|]|apply Hg; by destruct who|done|].
  - intros f'. rewrite entry_set. destruct (decide (D = D /\ f' = f)) as [[_ ->]|Hne].
    + exists i. split_and!; [lia|lia|done|]. destruct Hb as [->|[-> Hw]]; eauto.
    + specialize (Hfiles f'). destruct (entry fs D f') as [[j b'|]|]; [|done|done].
      destruct Hfiles as (k & Hk' & -> & Hc). exists k. split_and!; [lia|lia|done|]. destruct Hc as [?|[? [w Hw]]]; [by left|].
      right. split; [done|]. exists w. rewrite Hg; [done|]. intros ->. apply Hne. split; [done|]. by apply Hwho.
  - intros f' j b' Hf'. rewrite entry_set. destruct (decide (D = D /\ f' = f)) as [[_ ->]|Hne]; [|eauto].
    exists b. by rewrite (Hino j b' Hf').
Qed.

Lemma creat_shared who d i fs l g r fs' l' :
  d ∈ ds -> 0 <= i < n -> plain (numbered prefix i) -> numbered_files fs g -> g who = None ->
  contract mt (Creat (d ++ slash :: numbered prefix i)) fs l r fs' l' ->
  exists ino, 0 <= rc r /\ fds l' !! rc r = Some (Fdesc D (numbered prefix i) ino 0 Writing) /\
    entry fs' D (numbered prefix i) = Some (NFile ino []) /\
    mates (negb who) (fs, g) (fs', upd who (Some (numbered prefix i)) g).
Proof.
  intros Hd Hi [Hpl _] Hf Hg Hc. destruct (Hf) as (HD & Hall & Hfiles).
  assert (Hdir : dir_of mt fs d = Some D) by (rewrite Forall_forall in Hall; auto).
  specialize (Hc d _ D (split_last_app d _ Hpl) Hdir HD). cbn [by_path] in Hc. specialize (Hfiles (numbered prefix i)).
  assert (Hgo : forall ino, (forall j b', entry fs D (numbered prefix i) = Some (NFile j b') -> ino = j) ->
    ~ is_dir (entry fs D (numbered prefix i)) ->
    fs' = set_entry fs D (numbered prefix i) (Some (NFile ino [])) /\ opened l D (numbered prefix i) ino Writing r l' ->
    exists ino, 0 <= rc r /\ fds l' !! rc r = Some (Fdesc D (numbered prefix i) ino 0 Writing) /\
      entry fs' D (numbered prefix i) = Some (NFile ino []) /\
      mates (negb who) (fs, g) (fs', upd who (Some (numbered prefix i)) g)).
  { intros ino Hino Hnd (-> & H0 & _ & ->). exists ino. split_and!; [done|cbn; apply lookup_insert_eq|apply entry_set_eq|].
    apply numbered_set; try done; [intros w; apply upd_ne|by rewrite Hg|]. right. by rewrite upd_eq. }
  destruct (entry fs D (numbered prefix i)) as [[ino b|]|]; [|done|].
  - apply (Hgo ino); [by intros j b' [= <- _]|intros []|done].
  - destruct Hc as [ino Hc]. apply (Hgo ino); [done|intros []|done].
Qed.

Lemma write_shared who fd i ino fs l g r fs' l' :
  0 <= i < n -> numbered_files fs g -> g who = Some (numbered prefix i) ->
  fds l !! fd = Some (Fdesc D (numbered prefix i) ino 0 Writing) -> (exists b, entry fs D (numbered prefix i) = Some (NFile ino b)) ->
  contract mt (Write fd (le4 i)) fs l r fs' l' ->
  rc r = 4 /\ present fs' i /\ is_Some (fds l' !! fd) /\ mates (negb who) (fs, g) (fs', upd who None g).
Proof.
  intros Hi Hf Hg Hfd [b Hb] Hc. specialize (Hc _ Hfd). cbn [by_fd] in Hc.
  rewrite (entry_contents _ _ _ _ _ _ _ Hb) in Hc. cbn [fd_dir fd_name fd_ino fd_off fd_mode] in Hc.
  destruct (Hc ltac:(done)) as (-> & Hr & ->). change (Z.to_nat 0) with 0%nat.
  assert (Hw : extent_server.write_at b 0 (le4 i) = le4 i).
  { destruct Hf as (_ & _ & Hfiles). specialize (Hfiles (numbered prefix i)). rewrite Hb in Hfiles.
    destruct Hfiles as (j & Hj & Hij & [->|[-> _]]); [by apply write_at_all|apply write_at_empty]. }
  rewrite Hw. split_and!; [done| |cbn; rewrite lookup_insert_eq; eauto|].
  - exists ino, (le4 i). apply entry_set_eq.
  - apply numbered_set; try done; [rewrite Hb; intros []|intros w; apply upd_ne|intros f Hf2; congruence|by left|].
    intros j b' Hj. congruence.
Qed.

Lemma present_mono who fs g fs' g' i : numbered_files fs g -> mates who (fs, g) (fs', g') -> present fs i -> present fs' i.
Proof. intros Hf Hm (ino & b & Hb). destruct (Hm Hf) as (_ & _ & _ & He). destruct (He _ _ _ Hb) as [b' Hb']. by exists ino, b'. Qed.

Lemma createn_shared who d idx fs l g made :
  d ∈ ds -> Forall (fun i => 0 <= i < n) idx -> numbered_files fs g -> g who = None -> Forall (present fs) made ->
  wp mt (mates who) (mates (negb who)) (createn_loop d prefix true idx)
    (fun _ fs' _ g' => numbered_files fs' g' /\ g' who = None /\ Forall (present fs') (made ++ idx)) fs l g.
Proof.
  intros Hd Hidx. revert fs l g made. induction Hidx as [|i idx Hi Hidx IH]; intros fs l g made Hf Hg Hmade.
  { rewrite app_nil_r. done. }
  assert (Hpl : plain (numbered prefix i)) by (apply numbered_plain; [done|done|unfold is_u64; lia]).
  cbn [createn_loop]. rewrite (path_ok ds) by done. cbn [mbind prog_bind bind syscall wp].
  intros fs1 g1 HR1 fd fs2 l2 Hc2. destruct (HR1 Hf) as (Hf1 & Hg1 & _ & _). cbn [fst snd] in *. rewrite Hg in Hg1.
  destruct (creat_shared who d i fs1 l g1 fd fs2 l2 Hd Hi Hpl Hf1 Hg1 Hc2) as (ino & H0 & Hfd & Hb & HG2).
  exists (upd who (Some (numbered prefix i)) g1). split; [done|]. destruct (HG2 Hf1) as (Hf2 & _). cbn [fst snd] in Hf2.
  destruct (Z.ltb_spec (rc fd) 0); [lia|]. cbn [andb mbind prog_bind bind syscall wp].
  intros fs3 g3 HR3 cc fs4 l4 Hc4. destruct (HR3 Hf2) as (Hf3 & Hg3 & _ & Hp3). cbn [fst snd] in *. rewrite upd_eq in Hg3.
  destruct (Hp3 _ _ _ Hb) as [b' Hb'].
  destruct (write_shared who (rc fd) i ino fs3 l2 g3 cc fs4 l4 Hi Hf3 Hg3 Hfd ltac:(by eexists) Hc4) as (Hcc & Hpr & [fdd Hfd4] & HG4).
  exists (upd who None g3). split; [done|]. destruct (HG4 Hf3) as (Hf4 & _). cbn [fst snd] in Hf4. rewrite Hcc. cbn [negb Z.eqb].
  cbn [mbind prog_bind bind syscall wp]. intros fs5 g5 HR5 cl fs6 l6 Hc6. destruct (HR5 Hf4) as (Hf5 & Hg5 & _ & _).
  cbn [fst snd] in *. rewrite upd_eq in Hg5. destruct (Hc6 _ Hfd4) as (-> & -> & ->). exists g5. split; [by apply mates_pre|].
  cbn [negb Z.eqb]. eapply wp_mono; [|apply (IH fs5 _ g5 (made ++ [i])); [done|done|]].
  - intros [] fs' l' g' (H1 & H2 & H3). by rewrite <- app_assoc in H3.
  - apply Forall_app. split; [|constructor; [|constructor]].
    + eapply Forall_impl; [exact Hmade|]. intros j Hj. eapply (present_mono who fs4); [done|done|].
      eapply (present_mono (negb who) fs3); [done|done|]. eapply (present_mono who fs2); [done|done|].
      eapply (present_mono (negb who) fs1); [done|done|]. by eapply (present_mono who fs).
    + by eapply (present_mono who fs4).
Qed.

(** Both are done, as far as [who] is concerned. *)
Definition made (who : bool) (fs : fsys) (g : unwritten) : Prop :=
  numbered_files fs g /\ g who = None /\ Forall (present fs) (seqZ 0 n).

Lemma made_stable who fs g fs' g' : made who fs g -> mates who (fs, g) (fs', g') -> made who fs' g'.
Proof.
  intros (Hf & Hg & Hp) Hm. destruct (Hm Hf) as (Hf' & Hg' & _). cbn [fst snd] in *. split_and!; [done|congruence|].
  eapply Forall_impl; [exact Hp|]. intros i Hi. by apply (present_mono who fs g fs' g' i).
Qed.

Lemma made_names who fs g m :
  made who fs g -> fs !! D = Some m -> (map_to_list m).*1 ≡ₚ numbered prefix <$> seqZ 0 n.
Proof.
  intros ((_ & _ & Hfiles) & _ & Hp) Hm. apply NoDup_Permutation.
  - apply NoDup_fst_map_to_list.
  - apply NoDup_fmap_2_strong; [|apply NoDup_seqZ]. intros i j Hi%elem_of_seqZ Hj%elem_of_seqZ E. apply numbered_inj; [lia|lia|done].
  - intros f. rewrite !list_elem_of_fmap. split.
    + intros ([f' x] & -> & Hx%elem_of_map_to_list). specialize (Hfiles f'). unfold entry in Hfiles. rewrite Hm in Hfiles.
      cbn in *. rewrite Hx in Hfiles. destruct x as [ino b|]; [|done]. destruct Hfiles as (i & Hi & -> & _). exists i.
      split; [done|]. apply elem_of_seqZ. lia.
    + intros (i & -> & Hi). rewrite Forall_forall in Hp. destruct (Hp i Hi) as (ino & b & Hb). unfold entry in Hb.
      rewrite Hm in Hb. exists (numbered prefix i, NFile ino b). split; [done|]. by apply elem_of_map_to_list.
Qed.

Lemma added_lookup idx F i :
  Forall (fun i => 0 <= i < n) idx -> i ∈ idx -> added prefix idx F !! numbered prefix i = Some (le4 i).
Proof.
  intros Hidx. assert (Hkeep : forall idx F, Forall (fun i => 0 <= i < n) idx -> 0 <= i < n ->
    F !! numbered prefix i = Some (le4 i) -> added prefix idx F !! numbered prefix i = Some (le4 i)).
  { clear idx F Hidx. intros idx F Hidx Hi. revert F. induction Hidx as [|j idx Hj _ IH]; intros F HF; [done|]. cbn. apply IH.
    destruct (decide (i = j)) as [<-|Hne]; [by rewrite lookup_insert_eq|]. rewrite lookup_insert_ne; [done|].
    intros E. apply Hne. symmetry. by apply numbered_inj. }
  revert F. induction Hidx as [|j idx Hj Hidx IH]; intros F; [by intros ?%elem_of_nil|]. rewrite elem_of_cons.
  intros [->|Hi]; [|by apply IH]. cbn. apply Hkeep; [done|done|]. apply lookup_insert_eq.
Qed.

Lemma added_inv idx f b : added prefix idx ∅ !! f = Some b -> exists i, i ∈ idx /\ f = numbered prefix i.
Proof.
  assert (Hgen : forall F, added prefix idx F !! f = Some b -> F !! f = Some b \/ exists i, i ∈ idx /\ f = numbered prefix i).
  { induction idx as [|j idx IH]; intros F HF; [by left|]. cbn in HF. destruct (IH _ HF) as [E|(i & Hi & ->)].
    - apply lookup_insert_Some in E as [[<- _]|[_ E]]; [|by left]. right. exists j. split; [by left|done].
    - right. exists i. split; [by right|done]. }
  intros H. destruct (Hgen _ H) as [E|?]; [by rewrite lookup_empty in E|done].
Qed.

Lemma made_both fs g :
  made true fs g -> made false fs g -> at_dir D ds whole (added prefix (seqZ 0 n) ∅) fs.
Proof.
  intros ((HD & Hall & Hfiles) & Hg1 & Hp) (_ & Hg2 & _). split_and!; [done|done|]. intros f _. specialize (Hfiles f).
  assert (Hrange : Forall (fun i => 0 <= i < n) (seqZ 0 n)) by (apply Forall_seqZ; lia).
  destruct (entry fs D f) as [[ino b|]|] eqn:Ef; [|done|].
  - destruct Hfiles as (i & Hi & -> & Hb). rewrite added_lookup; [|done|apply elem_of_seqZ; lia].
    destruct Hb as [->|[_ [[] Hw]]]; [done|congruence|congruence].
  - apply eq_None_not_Some. intros [b Hb]. apply added_inv in Hb as (i & Hi & ->). rewrite Forall_forall in Hp.
    destruct (Hp i Hi) as (ino & b' & Hb'). congruence.
Qed.

Lemma couple_shared dc dp fs l :
  0 <= n -> Forall not_dot (numbered prefix <$> seqZ 0 n) -> dc ∈ ds -> dp ∈ ds -> at_dir D ds whole ∅ fs ->
  inhabited (couple mt (createn dc prefix n true) (all [createn dp prefix n true; dircheck dp n]) fs l l
    (fun fs' _ => at_dir D ds whole (added prefix (seqZ 0 n) ∅) fs')).
Proof.
  intros H0 Hdots Hdc Hdp Hat. assert (Hstart : numbered_files fs (fun _ => None)).
  { destruct Hat as (HD & Hall & Ho). split_and!; [done|done|]. intros f. specialize (Ho f I).
    destruct (entry fs D f) as [[]|]; [|done|done]. by rewrite lookup_empty in Ho. }
  assert (Hrange : Forall (fun i => 0 <= i < n) (seqZ 0 n)) by (apply Forall_seqZ; lia).
  constructor. exists unwritten (mates true) (mates false) (fun fs _ => made true fs) (fun fs _ => made false fs) (fun _ => None).
  - apply mates_pre.
  - apply mates_pre.
  - intros fs1 l1 g1 fs2 g2. apply made_stable.
  - intros fs1 l1 g1 fs2 g2. apply made_stable.
  - eapply wp_mono; [|by apply (createn_shared true dc (seqZ 0 n) fs l _ [])]. by intros [] fs' l' g'.
  - cbn [all]. apply wp_bind. eapply wp_mono; [|by apply (createn_shared false dp (seqZ 0 n) fs l _ [])].
    intros [] fs1 l1 g1 Hmade. apply wp_bind.
    assert (Hlen' : lenZ (numbered prefix <$> seqZ 0 n) = n) by (rewrite length_fmap, length_seqZ; lia).
    replace (dircheck dp n) with (dircheck dp (lenZ (numbered prefix <$> seqZ 0 n))) by (by rewrite Hlen').
    eapply wp_mono; [|eapply (dircheck_ok _ _ (made false) (made_stable false) (fun fs g _ => @PreOrder_Reflexive _ _ (mates_pre true) (fs, g)) dp D)]; try done.
    + intros fs2 g2 Hm2. destruct (Hm2) as (([m Hm] & Hall & _) & _). split; [rewrite Forall_forall in Hall; auto|].
      exists m. split; [done|]. by eapply made_names.
    + apply NoDup_fmap_2_strong; [|apply NoDup_seqZ]. intros i j Hi%elem_of_seqZ Hj%elem_of_seqZ E. apply numbered_inj; [lia|lia|done].
    + rewrite length_fmap, length_seqZ. lia.
  - intros fs1 l1 l2 g1. apply made_both.
Qed.

End same_files.
(** ** A child and its parent on different parts of one file *)

Section parts.
Context (D : Z) (ds : list bytes) (f : bytes).
Context (Hds : ds <> []) (Hshort : Forall (fun d => lenZ d <= 450) ds) (Hf : plain f).

(** The bytes from [start] on, [len] of them. *)
Definition part (start len k : Z) : Prop := start <= k < start + len.

(** The file stays, with its length and the bytes [M]. *)
Definition spares (M : Z -> Prop) (x y : fsys * unit) : Prop :=
  kept x.1 y.1 /\
  forall i b, entry x.1 D f = Some (NFile i b) ->
    exists b', entry y.1 D f = Some (NFile i b') /\ length b' = length b /\
      forall k, 0 <= k -> M k -> b' !! Z.to_nat k = b !! Z.to_nat k.

Lemma spares_pre M : PreOrder (spares M).
Proof.
  split.
  - intros [fs []]. split; [apply kept_refl|]. intros i b Hb. by exists b.
  - intros [f1 []] [f2 []] [f3 []] [Hk H12] [Hk' H23]. split; [by eapply kept_trans|]. intros i b Hb.
    destruct (H12 i b Hb) as (b' & Hb' & Hl & Hs). destruct (H23 i b' Hb') as (b'' & Hb'' & Hl' & Hs').
    exists b''. split_and!; [done|congruence|]. intros k H0 Hk''. rewrite Hs' by done. by apply Hs.
Qed.

(** The file, with the bytes of the part from [start] to [upto] all [c]. *)
Definition filled (start upto : Z) (c : byte) (len i : Z) (fs : fsys) : Prop :=
  is_Some (fs !! D) /\ Forall (fun d => dir_of mt fs d = Some D) ds /\
  exists b, entry fs D f = Some (NFile i b) /\ lenZ b = len /\ forall k, start <= k < upto -> b !! Z.to_nat k = Some c.

Lemma filled_stable start upto n c len i fs fs' :
  0 <= start -> upto <= start + n -> filled start upto c len i fs -> spares (part start n) (fs, tt) (fs', tt) ->
  filled start upto c len i fs'.
Proof.
  intros H0 Hu (HD & Hall & b & Hb & Hl & Hc) [Hk Hs]. cbn [fst] in *. destruct (kept_dirs D ds fs fs' Hk HD Hds Hall) as [HD' Hall'].
  destruct (Hs i b Hb) as (b' & Hb' & Hl' & Hsame). split_and!; [done|done|]. exists b'. split_and!; [done|lia|].
  intros k Hk'. rewrite Hsame; [by apply Hc|lia|]. unfold part. lia.
Qed.

Section writer.
Context (start n : Z) (c : byte) (M : Z -> Prop) (len i : Z).
Context (H0 : 0 <= start) (Hlen : start + n <= len) (HM : forall k, part start n k -> ~ M k).

Lemma filled_write off fs s :
  start <= off < start + n -> filled start off c len i fs -> entry fs D f = Some (NFile i s) ->
  let fs' := set_entry fs D f (Some (NFile i (extent_server.write_at s (Z.to_nat off) [c]))) in
  filled start (off + 1) c len i fs' /\ spares M (fs, tt) (fs', tt).
Proof.
  intros Hoff (HD & Hall & b & Hb & Hl & Hc) Hs fs'. rewrite Hb in Hs. injection Hs as <-.
  assert (Hk : kept fs fs') by (apply kept_set; [by rewrite Hb; intros []|intros []]).
  assert (Hbl : length (extent_server.write_at b (Z.to_nat off) [c]) = length b)
    by (rewrite extent_server.length_write_at; cbn; lia).
  assert (He : entry fs' D f = Some (NFile i (extent_server.write_at b (Z.to_nat off) [c]))) by apply entry_set_eq.
  assert (Hat : forall k, 0 <= k -> extent_server.write_at b (Z.to_nat off) [c] !! Z.to_nat k =
    if decide (k = off) then Some c else b !! Z.to_nat k).
  { intros k Hk0. rewrite extent_server.lookup_write_at. cbn [length]. destruct (decide (k = off)) as [->|Hne].
    - rewrite decide_True by lia. by rewrite Nat.sub_diag.
    - rewrite decide_False by lia. destruct (decide (Z.to_nat k < length b)%nat) as [|Hge]; [done|].
      rewrite decide_False by lia. symmetry. apply lookup_ge_None_2. lia. }
  split.
  - destruct (kept_dirs D ds fs fs' Hk HD Hds Hall) as [HD' Hall']. split_and!; [done|done|]. eexists. split; [exact He|].
    split; [lia|]. intros k Hk'. rewrite Hat by lia. destruct (decide (k = off)); [done|]. apply Hc. lia.
  - split; [done|]. cbn [fst]. intros j b' Hb'. rewrite Hb in Hb'. injection Hb' as <- <-. eexists. split; [exact He|].
    split; [done|]. intros k Hk0 HMk. rewrite Hat by done. destruct (decide (k = off)) as [->|]; [|done].
    exfalso. apply (HM off); [unfold part; lia|done].
Qed.

Lemma write1_loop_ok m off fd fs l :
  filled start off c len i fs -> start <= off -> off + Z.of_nat m = start + n ->
  fds l !! fd = Some (Fdesc D f i off Writing) ->
  wp mt (spares (part start n)) (spares M) (write1_loop fd c m)
    (fun _ fs' l' _ => filled start (start + n) c len i fs' /\ is_Some (fds l' !! fd)) fs l tt.
Proof.
  revert off fs l. induction m as [|m IH]; intros off fs l Hfill Hoff Hm Hfd.
  { replace (start + n) with off by lia. split; [done|eauto]. }
  cbn [write1_loop mbind prog_bind bind syscall wp]. intros fs1 [] HR1 cc fs2 l2 Hc2.
  pose proof (filled_stable start off n c len i fs fs1 H0 ltac:(lia) Hfill HR1) as Hf1.
  destruct (Hf1) as (_ & _ & b & Hb & _). specialize (Hc2 _ Hfd). cbn [by_fd] in Hc2.
  rewrite (entry_contents _ _ _ _ _ _ _ Hb) in Hc2. cbn [fd_dir fd_name fd_ino fd_off fd_mode] in Hc2.
  destruct (Hc2 ltac:(done)) as (-> & Hcc & ->).
  destruct (filled_write off fs1 b ltac:(lia) Hf1 Hb) as [Hf2 HG2]. exists tt. split; [done|]. rewrite Hcc. cbn [length negb Z.eqb].
  cbn [mbind prog_bind bind syscall wp]. intros fs3 [] HR3 r fs4 l4 Hc4.
  pose proof (filled_stable start (off + 1) n c len i _ fs3 H0 ltac:(lia) Hf2 HR3) as Hf3.
  destruct (Hc4 _ (lookup_insert_eq _ _ _)) as (Hr & -> & ->). exists tt. split; [apply spares_pre|]. rewrite Hr. cbn [negb Z.eqb].
  apply (IH (off + 1)); [done|lia|lia|]. cbn. apply lookup_insert_eq.
Qed.

Lemma write1_ok d fs l :
  0 <= n -> d ∈ ds -> filled start start c len i fs ->
  wp mt (spares (part start n)) (spares M) (write1 d f start n c)
    (fun _ fs' _ _ => filled start (start + n) c len i fs') fs l tt.
Proof.
  intros Hn Hd Hfill. unfold write1. rewrite (path_ok ds) by done. cbn [mbind prog_bind bind syscall wp].
  intros fs1 [] HR1 fd fs2 l2 Hc2. pose proof (filled_stable start start n c len i fs fs1 H0 ltac:(lia) Hfill HR1) as Hf1.
  destruct (Hf1) as (HD & Hall & b & Hb & _).
  assert (Hdir : dir_of mt fs1 d = Some D) by (rewrite Forall_forall in Hall; auto).
  specialize (Hc2 d f D (split_last_app d f (proj1 Hf)) Hdir HD). cbn [by_path] in Hc2. rewrite Hb in Hc2.
  destruct (Hc2 Writing eq_refl) as (-> & Hrc & _ & ->). exists tt. split; [apply spares_pre|].
  destruct (Z.ltb_spec (rc fd) 0); [lia|]. cbn [andb mbind prog_bind bind]. destruct (Z.ltb_spec (rc fd) 0); [lia|].
  cbn [mbind prog_bind bind syscall wp]. intros fs3 [] HR3 r fs4 l4 Hc4.
  pose proof (filled_stable start start n c len i fs1 fs3 H0 ltac:(lia) Hf1 HR3) as Hf3.
  specialize (Hc4 _ (lookup_insert_eq _ _ _)). cbn [by_fd] in Hc4. destruct (Hc4 H0) as (Hr & -> & ->). exists tt.
  split; [apply spares_pre|]. rewrite Hr, Z.eqb_refl. cbn [negb]. apply wp_bind.
  eapply wp_mono; [|apply (write1_loop_ok (Z.to_nat n) start); [done|lia|lia|cbn; apply lookup_insert_eq]].
  intros [] fs5 l5 [] (Hf5 & [fdd Hfd5]). cbn [mbind prog_bind bind syscall wp]. intros fs6 [] HR6 cl fs7 l7 Hc7.
  pose proof (filled_stable start (start + n) n c len i fs5 fs6 H0 ltac:(lia) Hf5 HR6) as Hf6.
  destruct (Hc7 _ Hfd5) as (Hcl & -> & ->). exists tt. split; [apply spares_pre|]. by rewrite Hcl.
Qed.
End writer.
End parts.

End logic.
End lab_proofs.
