(* ===== verification/LabRuns.v ===== *)
(** * The runs of the file system tests

    The stretches of test-lab-3-b.c and test-lab-3-c.c, those run alone and
    those run beside a forked child, put together with the rules of
    [LabProofs]. *)

From Stdlib Require Import ZArith Lia Strings.Byte.
From stdpp Require Import base list list_numbers gmap sets sorting.
From S2P Require Import Prelude Marshall Extent LockServer Directory YfsClient Fuse FileSystem Posix LabTests LabProofs.

#[local] Open Scope Z_scope.
#[local] Set Warnings "-clear-no-such-hyp,-register-all".

Module lab_runs.
Import posix libc lab3b lab_proofs.

#[local] Instance not_dot_dec n : Decision (not_dot n).
Proof. unfold not_dot. apply _. Defined.
#[local] Instance plain_dec f : Decision (plain f).
Proof. unfold plain. apply _. Defined.

(** Decide a closed goal. *)
Ltac computed := apply (bool_decide_unpack _); vm_compute; exact I.

Section runs.
Context (mt : bytes -> option Z) (d1 d2 : bytes).
Context (H1 : lenZ d1 <= 450) (H2 : lenZ d2 <= 450).

Abbreviation ds := [d1; d2].
Abbreviation whole := (fun _ : bytes => True).

Lemma ds_some : ds <> [].
Proof. done. Qed.

Lemma ds_short : Forall (fun d => lenZ d <= 450) ds.
Proof. by repeat constructor. Qed.

Lemma all_nil D F F' fs l :
  at_dir mt D ds whole F fs -> F = F' -> wpn mt D whole (all []) (fun _ fs' _ => at_dir mt D ds whole F' fs') fs l.
Proof. by intros Hat <-. Qed.

Ltac in_ds := solve [by left | by right; left].
Ltac ours := apply numbers_ours; [computed|computed|computed|done].

(** The rule for the next function of a stretch. *)
Ltac func :=
  lazymatch goal with
  | |- wpn _ _ _ (create1 _ _ _) _ _ _ => eapply create1_ok; [exact ds_some|exact ds_short|eassumption|in_ds|computed|exact I]
  | |- wpn _ _ _ (check1 _ _ _) _ _ _ =>
      eapply check1_ok; [exact ds_some|exact ds_short|eassumption|in_ds|computed|exact I|vm_compute; reflexivity|computed]
  | |- wpn _ _ _ (unlink1 _ _) _ _ _ =>
      eapply unlink1_ok; [exact ds_some|exact ds_short|eassumption|in_ds|computed|exact I|vm_compute; reflexivity]
  | |- wpn _ _ _ (checknot _ _) _ _ _ =>
      eapply checknot_ok; [exact ds_some|exact ds_short|eassumption|in_ds|computed|exact I|vm_compute; reflexivity]
  | |- wpn _ _ _ (append1 _ _ _) _ _ _ =>
      eapply append1_ok; [exact ds_some|exact ds_short|eassumption|in_ds|computed|exact I|vm_compute; reflexivity]
  | |- wpn _ _ _ (createn _ _ _ _) _ _ _ =>
      eapply createn_ok; [exact ds_some|exact ds_short|eassumption|in_ds|ours]
  | |- wpn _ _ _ (checkn _ _ _) _ _ _ =>
      eapply checkn_ok; [exact ds_some|exact ds_short|eassumption|in_ds|ours|computed]
  | |- wpn _ _ _ (unlinkn _ _ _) _ _ _ =>
      eapply unlinkn_ok; [exact ds_some|exact ds_short|eassumption|in_ds|ours|apply NoDup_seqZ|computed]
  | |- wpn _ _ _ (dircheck _ _) _ _ _ =>
      eapply dircheck_whole; [exact ds_some|eassumption|in_ds|vm_compute; reflexivity|computed|computed]
  end.

Ltac stretch :=
  apply alone_here; intros ? ? ? Hat;
  repeat (lazymatch goal with |- wpn _ _ _ (all (_ :: _)) _ _ _ => eapply all_cons; [func|clear Hat; intros ? ? Hat] end);
  lazymatch goal with |- wpn _ _ _ (all []) _ _ _ => eapply all_nil; [exact Hat|computed] end.

Lemma create_read_ok fs l :
  here mt ds ∅ fs l ->
  alone mt (all [create1 d1 (str "f1") (str "aaa"); check1 d2 (str "f1") (str "aaa"); check1 d1 (str "f1") (str "aaa")])
    (fun _ => here mt ds {[ str "f1" := str "aaa" ]}) fs l.
Proof. revert fs l. stretch. Qed.

Lemma unlink_ok fs l :
  here mt ds {[ str "f1" := str "aaa" ]} fs l ->
  alone mt
    (all [unlink1 d2 (str "f1"); create1 d1 (str "fx1") (str "fxx"); unlink1 d1 (str "fx1");
          checknot d1 (str "f1"); checknot d2 (str "f1");
          create1 d1 (str "f2") (str "222"); unlink1 d2 (str "f2"); checknot d1 (str "f2"); checknot d2 (str "f2");
          create1 d1 (str "f3") (str "333"); check1 d2 (str "f3") (str "333"); check1 d1 (str "f3") (str "333");
          unlink1 d1 (str "f3"); create1 d2 (str "fx2") (str "22"); unlink1 d2 (str "fx2");
          checknot d2 (str "f3"); checknot d1 (str "f3")])
    (fun _ => here mt ds ∅) fs l.
Proof. revert fs l. stretch. Qed.

Lemma append_ok fs l :
  here mt ds ∅ fs l ->
  alone mt
    (all [create1 d2 (str "f1") (str "aaa"); append1 d1 (str "f1") (str "bbb"); append1 d2 (str "f1") (str "ccc");
          check1 d1 (str "f1") (str "aaabbbccc"); check1 d2 (str "f1") (str "aaabbbccc")])
    (fun _ => here mt ds {[ str "f1" := str "aaabbbccc" ]}) fs l.
Proof. revert fs l. stretch. Qed.

Lemma readdir_ok fs l :
  here mt ds {[ str "f1" := str "aaabbbccc" ]} fs l ->
  alone mt
    (all [dircheck d1 1; dircheck d2 1; unlink1 d1 (str "f1"); dircheck d1 0; dircheck d2 0;
          create1 d2 (str "f2") (str "aaa"); create1 d1 (str "f3") (str "aaa"); dircheck d1 2; dircheck d2 2;
          unlink1 d2 (str "f2"); dircheck d2 1; dircheck d1 1; unlink1 d2 (str "f3"); dircheck d1 0; dircheck d2 0])
    (fun _ => here mt ds ∅) fs l.
Proof. revert fs l. stretch. Qed.

Lemma many_ok fs l :
  here mt ds ∅ fs l ->
  alone mt
    (all [createn d1 (str "aa") 10 false; createn d2 (str "bb") 10 false; dircheck d2 20;
          checkn d2 (str "bb") 10; checkn d2 (str "aa") 10; checkn d1 (str "aa") 10; checkn d1 (str "bb") 10;
          unlinkn d1 (str "aa") 10; unlinkn d2 (str "bb") 10])
    (fun _ => here mt ds ∅) fs l.
Proof. revert fs l. stretch. Qed.

Lemma big_ok fs l :
  here mt ds ∅ fs l ->
  alone mt (all [create1 d1 (str "bf") big; check1 d1 (str "bf") big; check1 d2 (str "bf") big; unlink1 d1 (str "bf")])
    (fun _ => here mt ds ∅) fs l.
Proof.
  revert fs l. apply alone_here. intros D fs l Hat. eapply all_cons; [func|clear Hat; intros fs1 l1 Hat].
  do 2 (eapply all_cons; [eapply check1_ok; [exact ds_some|exact ds_short|exact Hat|in_ds|computed|exact I
    |apply lookup_insert_eq|unfold big; rewrite length_replicate; vm_compute; reflexivity]|clear Hat; intros ? ? Hat]).
  eapply all_cons; [eapply unlink1_ok; [exact ds_some|exact ds_short|exact Hat|in_ds|computed|exact I|apply lookup_insert_eq]
    |clear Hat; intros ? ? Hat].
  eapply all_nil; [exact Hat|]. rewrite delete_insert_eq. apply delete_empty.
Qed.

Definition after_fork1 : gmap bytes bytes := added (str "xx") (seqZ 0 20) (added (str "yy") (seqZ 0 20) ∅).

Lemma fork1_checks fs l :
  here mt ds after_fork1 fs l ->
  alone mt (all [dircheck d1 40; checkn d1 (str "xx") 20; checkn d2 (str "yy") 20;
                 unlinkn d1 (str "xx") 20; unlinkn d1 (str "yy") 20])
    (fun _ => here mt ds ∅) fs l.
Proof. revert fs l. stretch. Qed.

Definition all_zz : gmap bytes bytes := added (str "zz") (seqZ 0 20) ∅.

Lemma fork2_checks fs l :
  here mt ds all_zz fs l ->
  alone mt (all [checkn d1 (str "zz") 20; checkn d2 (str "zz") 20; unlinkn d1 (str "zz") 20]) (fun _ => here mt ds ∅) fs l.
Proof. revert fs l. stretch. Qed.

Definition before_fork3 : gmap bytes bytes := added (str "x2") (seqZ 0 20) (added (str "x1") (seqZ 0 20) ∅).

Lemma fork3_prepare fs l :
  here mt ds ∅ fs l ->
  alone mt (all [createn d1 (str "x1") 20 false; createn d2 (str "x2") 20 false]) (fun _ => here mt ds before_fork3) fs l.
Proof. revert fs l. stretch. Qed.

Definition after_fork3 : gmap bytes bytes :=
  added (str "x3") (seqZ 0 20) (removed (str "x1") (seqZ 0 20) (added (str "x4") (seqZ 0 20) before_fork3)).

Lemma fork3_checks fs l :
  here mt ds after_fork3 fs l ->
  alone mt (all [unlinkn d2 (str "x2") 20; unlinkn d2 (str "x4") 20; unlinkn d2 (str "x3") 20; dircheck d1 0])
    (fun _ => here mt ds ∅) fs l.
Proof. revert fs l. stretch. Qed.

Lemma fork4_checks fs l :
  here mt ds all_zz fs l ->
  alone mt (all [checkn d1 (str "zz") 20; unlinkn d1 (str "zz") 20]) (fun _ => here mt ds ∅) fs l.
Proof. revert fs l. stretch. Qed.

(** *** Stretches beside a child that keeps to other names *)

Lemma couple_names N (HN : forall n, Decision (N n)) (F F1 F2 F' : gmap bytes bytes) (child parent : prog unit) (fs : fsys) (l : local) :
  (forall D fs l, at_dir mt D ds N F fs -> wpn mt D N child (fun _ fs' _ => at_dir mt D ds N F1 fs') fs l) ->
  (forall D fs l, at_dir mt D ds (fun n => ~ N n) F fs ->
     wpn mt D (fun n => ~ N n) parent (fun _ fs' _ => at_dir mt D ds (fun n => ~ N n) F2 fs') fs l) ->
  (forall n, F' !! n = if decide (N n) then F1 !! n else F2 !! n) ->
  here mt ds F fs l -> inhabited (couple mt child parent fs l l (here mt ds F')).
Proof.
  intros Hc Hp HF [D Hat]. eapply (couple_apart mt D D N (fun n => ~ N n) ds ds F1 F2); [done|done|tauto| | |].
  - apply Hc. by apply at_dir_sub.
  - apply Hp. by apply at_dir_sub.
  - intros fs' l' Ha Hb. exists D. by apply (at_dir_join mt D ds N HN F1 F2 F').
Qed.

(** Names that begin with a prefix. *)
Abbreviation starts p := (fun n : bytes => take 2 n = p).

Lemma fork1_ok fs l :
  here mt ds ∅ fs l ->
  inhabited (couple mt (createn d2 (str "xx") 20 false) (createn d1 (str "yy") 20 false) fs l l (here mt ds after_fork1)).
Proof.
  apply (couple_names (starts (str "xx")) _ ∅ (added (str "xx") (seqZ 0 20) ∅) (added (str "yy") (seqZ 0 20) ∅)).
  - intros D fs' l' Hat. eapply createn_ok; [exact ds_some|exact ds_short|exact Hat|in_ds|]. apply numbers_ours; computed || done.
  - intros D fs' l' Hat. eapply createn_ok; [exact ds_some|exact ds_short|exact Hat|in_ds|]. apply numbers_ours; computed || done.
  - intros n. unfold after_fork1. destruct (decide _) as [Hn|Hn].
    + apply added_cong. apply added_other. change (take 2 n <> str "yy"). by rewrite Hn.
    + by apply added_other.
Qed.

Lemma fork3_ok fs l :
  here mt ds before_fork3 fs l ->
  inhabited (couple mt (all [unlinkn d2 (str "x1") 20; createn d1 (str "x3") 20 false]) (createn d1 (str "x4") 20 false)
    fs l l (here mt ds after_fork3)).
Proof.
  apply (couple_names (fun n => take 2 n = str "x1" \/ take 2 n = str "x3") _ before_fork3
    (added (str "x3") (seqZ 0 20) (removed (str "x1") (seqZ 0 20) before_fork3)) (added (str "x4") (seqZ 0 20) before_fork3)).
  - intros D fs' l' Hat. apply wpn_bind. eapply wpn_mono.
    2: { eapply unlinkn_ok; [exact ds_some|exact ds_short|exact Hat|in_ds| |apply NoDup_seqZ|computed].
         apply numbers_ours; [computed..|]. intros i. by left. }
    intros [] fs1 l1 Hat1. apply wpn_bind. eapply wpn_mono.
    2: { eapply createn_ok; [exact ds_some|exact ds_short|exact Hat1|in_ds|]. apply numbers_ours; [computed..|]. intros i. by right. }
    by intros [] fs2 l2 Hat2.
  - intros D fs' l' Hat. eapply createn_ok; [exact ds_some|exact ds_short|exact Hat|in_ds|].
    apply numbers_ours; [computed..|]. intros i [Hi|Hi]; discriminate Hi.
  - intros n. unfold after_fork3. destruct (decide _) as [Hn|Hn].
    + apply added_cong, removed_cong, added_other. change (take 2 n <> str "x4"). by destruct Hn as [-> | ->].
    + rewrite added_other, removed_other; [done|..]; intros Hx; apply Hn; [by left|by right].
Qed.

(** *** Stretches beside a child that works on the same files *)

Lemma couple_weaken (child parent : prog unit) (fs : fsys) (l : local) (Q Q' : fsys -> local -> Prop) :
  (forall fs l, Q fs l -> Q' fs l) -> inhabited (couple mt child parent fs l l Q) -> inhabited (couple mt child parent fs l l Q').
Proof.
  intros HQ [[Γ R1 R2 Q1 Q2 g T1 T2 S1 S2 Hc Hp Hj]]. constructor. exists Γ R1 R2 Q1 Q2 g; try done. eauto.
Qed.

Lemma fork_same_ok (dc : bytes) (fs : fsys) (l : local) :
  dc ∈ ds -> here mt ds ∅ fs l ->
  inhabited (couple mt (createn dc (str "zz") 20 true) (all [createn d1 (str "zz") 20 true; dircheck d1 20]) fs l l
    (here mt ds all_zz)).
Proof.
  intros Hdc [D Hat]. eapply couple_weaken; [|apply (couple_shared mt D ds (str "zz") 20); try computed; try done].
  - intros fs' l' Hat'. by exists D.
  - apply ds_short.
  - in_ds.
Qed.

(** *** Different parts of one file *)

Definition www_written (fs : fsys) (l : local) : Prop :=
  exists D b, at_dir mt D ds (fun n => n = str "www") {[ str "www" := b ]} fs /\
    (forall k, 0 <= k < 64 -> b !! Z.to_nat k = Some (Z_byte 49)) /\
    (forall k, 65536 <= k < 65536 + 64 -> b !! Z.to_nat k = Some (Z_byte 50)).

Lemma huge_length : lenZ huge = 131072.
Proof. unfold huge. rewrite length_replicate. vm_compute. reflexivity. Qed.

Lemma huge_ok (fs : fsys) (l : local) :
  here mt ds ∅ fs l -> alone mt (create1 d1 (str "www") huge) (fun _ => here mt ds {[ str "www" := huge ]}) fs l.
Proof.
  revert fs l. apply alone_here. intros D fs l Hat.
  eapply create1_ok; [exact ds_some|exact ds_short|exact Hat|in_ds|computed|exact I].
Qed.

Lemma fork5_ok (fs : fsys) (l : local) :
  here mt ds {[ str "www" := huge ]} fs l ->
  inhabited (couple mt (write1 d2 (str "www") 65536 64 (Z_byte 50)) (write1 d1 (str "www") 0 64 (Z_byte 49)) fs l l www_written).
Proof.
  intros [D Hat]. destruct (own_file _ _ _ _ _ _ (str "www") huge Hat I ltac:(apply lookup_singleton_eq)) as [i Hi].
  destruct Hat as (HD & Hall & _).
  assert (Hfill : forall st c, filled mt D ds (str "www") st st c 131072 i fs).
  { intros st c. split_and!; [done|done|]. exists huge. split_and!; [done|apply huge_length|lia]. }
  constructor. exists unit (spares mt D (str "www") (part 65536 64)) (spares mt D (str "www") (part 0 64))
    (fun fs _ _ => filled mt D ds (str "www") 65536 (65536 + 64) (Z_byte 50) 131072 i fs)
    (fun fs _ _ => filled mt D ds (str "www") 0 (0 + 64) (Z_byte 49) 131072 i fs) tt.
  - apply spares_pre.
  - apply spares_pre.
  - intros fs1 l1 [] fs2 [] Hf HR. eapply filled_stable; [exact ds_some|lia|reflexivity|exact Hf|exact HR].
  - intros fs1 l1 [] fs2 [] Hf HR. eapply filled_stable; [exact ds_some|lia|reflexivity|exact Hf|exact HR].
  - apply write1_ok; [exact ds_some|exact ds_short|computed|lia|lia|unfold part; lia|lia|in_ds|apply Hfill].
  - apply write1_ok; [exact ds_some|exact ds_short|computed|lia|lia|unfold part; lia|lia|in_ds|apply Hfill].
  - intros fs1 l1 l2 [] (HD1 & Hall1 & b & Hb & _ & H50) (_ & _ & b' & Hb' & _ & H49). rewrite Hb in Hb'. injection Hb' as <-.
    exists D, b. split_and!; [|done|done]. split_and!; [done|done|]. intros n ->. rewrite Hb. apply lookup_singleton_eq.
Qed.

Lemma www_checks (fs : fsys) (l : local) :
  www_written fs l ->
  alone mt (all [checkread d1 (str "www") 0 64 (Z_byte 49); checkread d2 (str "www") 0 64 (Z_byte 49);
                 checkread d1 (str "www") 65536 64 (Z_byte 50); checkread d2 (str "www") 65536 64 (Z_byte 50)])
    (fun _ => www_written) fs l.
Proof.
  intros (D & b & Hat & H49 & H50). apply (wpn_alone mt D (fun n => n = str "www")). revert fs l Hat.
  assert (Hread : forall d st c fs l, d ∈ ds -> 0 <= st -> (forall k, st <= k < st + 64 -> b !! Z.to_nat k = Some c) ->
    at_dir mt D ds (fun n => n = str "www") {[ str "www" := b ]} fs ->
    wpn mt D (fun n => n = str "www") (checkread d (str "www") st 64 c)
      (fun _ fs' _ => at_dir mt D ds (fun n => n = str "www") {[ str "www" := b ]} fs') fs l).
  { intros d st c fs l Hd Hst Hc Hat. eapply checkread_ok; [exact ds_some|exact ds_short|exact Hat|done|computed|done
      |apply lookup_singleton_eq|done|lia|done]. }
  intros fs l Hat. cbn [all].
  do 4 (apply wpn_bind; eapply wpn_mono; [|apply Hread; [in_ds|lia|done|exact Hat]]; clear fs l Hat; intros [] fs l Hat).
  by exists D, b.
Qed.

(** *** All of test-lab-3-b *)

Lemma phases_good : good mt (phases d1 d2) (here mt ds ∅).
Proof.
  unfold phases, sequential, concurrent. eapply good_then; [exact create_read_ok|]. eapply good_then; [exact unlink_ok|].
  eapply good_then; [exact append_ok|]. eapply good_then; [exact readdir_ok|]. eapply good_then; [exact many_ok|].
  eapply good_then; [exact big_ok|]. eapply good_forked; [exact fork1_ok|]. eapply good_then; [exact fork1_checks|].
  eapply good_forked; [intros fs l; apply fork_same_ok; in_ds|]. eapply good_then; [exact fork2_checks|].
  eapply good_then; [exact fork3_prepare|]. eapply good_forked; [exact fork3_ok|]. eapply good_then; [exact fork3_checks|].
  eapply good_forked; [intros fs l; apply fork_same_ok; in_ds|]. eapply good_then; [exact fork4_checks|].
  eapply good_then; [exact huge_ok|]. eapply good_forked; [exact fork5_ok|]. eapply good_then; [exact www_checks|].
  apply good_finish.
Qed.

End runs.

(** ** Making the directories *)

Section setup.
Context (mt : bytes -> option Z) (Rt : Z).

(** What main's two arguments have to be: short names of places where one
    file system is mounted. *)
Definition mounted (a : bytes) : Prop := mt a = Some Rt /\ lenZ a <= 400.

(** The directory of that name [f] there. *)
Abbreviation below a f := (a ++ slash :: f).

Lemma dir_below fs a f D :
  mounted a -> slash ∉ f -> mt (below a f) = None -> entry fs Rt f = Some (NDir D) -> dir_of mt fs (below a f) = Some D.
Proof. intros [Ha _] Hf Hn He. unfold dir_of. rewrite Hn, split_last_app by done. cbn. rewrite Ha. cbn. by rewrite He. Qed.

Lemma sprintf_below a f : mounted a -> lenZ f <= 40 -> sprintf 512 (below a f) = Return (below a f).
Proof.
  intros [_ Ha] Hf. unfold sprintf. destruct (Z.ltb_spec (lenZ (below a f)) 512) as [|Hge]; [done|].
  rewrite length_app in Hge. cbn [length] in Hge. lia.
Qed.

Lemma mkdir_below a f fs l r fs' l' :
  mounted a -> slash ∉ f -> is_Some (fs !! Rt) -> entry fs Rt f = None -> contract mt (Mkdir (below a f)) fs l r fs' l' ->
  rc r = 0 /\ exists D, fs !! D = None /\ fs' !! D = Some ∅ /\ is_Some (fs' !! Rt) /\ entry fs' Rt f = Some (NDir D) /\
    (forall n, n <> f -> entry fs' Rt n = entry fs Rt n) /\ (forall D', D' <> D -> D' <> Rt -> fs' !! D' = fs !! D').
Proof.
  intros [Ha _] Hf HR He Hc. assert (Hdir : dir_of mt fs a = Some Rt) by (unfold dir_of; by rewrite Ha).
  specialize (Hc a f Rt (split_last_app a f Hf) Hdir HR). cbn [by_path] in Hc. rewrite He in Hc.
  destruct Hc as (D & HD & Hr & -> & ->). assert (HDR : D <> Rt) by (intros ->; destruct HR; congruence).
  split; [done|]. exists D. split_and!.
  - done.
  - unfold set_entry. rewrite lookup_insert_ne by done. apply lookup_insert_eq.
  - apply dir_set. by rewrite lookup_insert_ne.
  - apply entry_set_eq.
  - intros n Hn. rewrite entry_set, decide_False by naive_solver. unfold entry. by rewrite lookup_insert_ne.
  - intros D' H1 H2. unfold set_entry. by rewrite !lookup_insert_ne.
Qed.

Lemma access_below a f D fs l r fs' l' :
  mounted a -> slash ∉ f -> is_Some (fs !! Rt) -> entry fs Rt f = Some (NDir D) ->
  contract mt (Access (below a f)) fs l r fs' l' -> rc r = 0 /\ fs' = fs.
Proof.
  intros [Ha _] Hf HR He Hc. assert (Hdir : dir_of mt fs a = Some Rt) by (unfold dir_of; by rewrite Ha).
  specialize (Hc a f Rt (split_last_app a f Hf) Hdir HR). cbn [by_path] in Hc. rewrite He in Hc. naive_solver.
Qed.

Lemma empty_dir fs D ds : fs !! D = Some ∅ -> Forall (fun d => dir_of mt fs d = Some D) ds -> at_dir mt D ds (fun _ => True) ∅ fs.
Proof.
  intros HD Hall. split_and!; [by eexists|done|]. intros n _. unfold entry. rewrite HD. cbn. by rewrite !lookup_empty.
Qed.

(** The names of a run's directories. *)
Definition run_name (which : bytes) (pid : Z) : bytes := which ++ print_ull pid.

Lemma run_name_ok which pid :
  slash ∉ which -> lenZ which <= 2 -> 0 <= pid < 2 ^ 31 -> (slash ∉ run_name which pid) /\ lenZ (run_name which pid) <= 40.
Proof.
  intros Hw Hl Hp. unfold run_name. assert (Hu : is_u64 pid) by (unfold is_u64; lia).
  destruct (print_ull_ok pid Hu) as (_ & Hd & _). split.
  - rewrite not_elem_of_app. split; [done|]. intros Hs. rewrite Forall_forall in Hd. by specialize (Hd _ Hs).
  - rewrite length_app. pose proof (file_system.dec_digits_length 20 pid). unfold print_ull. lia.
Qed.

Lemma below_short a f : mounted a -> lenZ f <= 40 -> lenZ (below a f) <= 450.
Proof. intros [_ Ha] Hf. rewrite length_app. cbn [length]. lia. Qed.

Lemma make_dirs_3b a1 a2 f fs l :
  mounted a1 -> mounted a2 -> slash ∉ f -> lenZ f <= 40 -> mt (below a1 f) = None -> mt (below a2 f) = None ->
  is_Some (fs !! Rt) -> entry fs Rt f = None ->
  alone mt (lab3b.make_dirs (below a1 f) (below a2 f)) (fun _ => here mt [below a1 f; below a2 f] ∅) fs l.
Proof.
  intros Ha1 Ha2 Hf Hlf Hn1 Hn2 HR He. unfold lab3b.make_dirs, alone. rewrite !sprintf_below by done.
  cbn [mbind prog_bind bind syscall wp]. intros fs1 [] [= <-] r fs2 l2 Hc.
  destruct (mkdir_below a1 f fs l r fs2 l2 Ha1 Hf HR He Hc) as (-> & D & _ & HD & HR2 & He2 & _). exists tt. split; [done|].
  cbn [negb Z.eqb mbind prog_bind bind syscall wp]. intros fs3 [] [= <-] r4 fs4 l4 Hc4.
  destruct (access_below a2 f D fs2 l2 r4 fs4 l4 Ha2 Hf HR2 He2 Hc4) as (-> & ->). exists tt. split; [done|].
  cbn [negb Z.eqb wp]. exists D. apply empty_dir; [done|]. repeat constructor; by apply dir_below.
Qed.

(** *** test-lab-3-c *)

Abbreviation whole := (fun _ : bytes => True).

(** The two directories with their files. *)
Definition both (d1 d2 : bytes) (F1 F2 : gmap bytes bytes) (fs : fsys) (l : local) : Prop :=
  exists D1 D2, D1 <> D2 /\ at_dir mt D1 [d1] whole F1 fs /\ at_dir mt D2 [d2] whole F2 fs.

Lemma make_dirs_3c a1 a2 f g fs l :
  mounted a1 -> mounted a2 -> slash ∉ f -> lenZ f <= 40 -> slash ∉ g -> lenZ g <= 40 -> f <> g ->
  mt (below a1 f) = None -> mt (below a2 g) = None ->
  is_Some (fs !! Rt) -> entry fs Rt f = None -> entry fs Rt g = None ->
  alone mt (lab3c.make_dirs (below a1 f) (below a2 g) (below a2 f)) (fun _ => both (below a1 f) (below a2 g) ∅ ∅) fs l.
Proof.
  intros Ha1 Ha2 Hf Hlf Hg Hlg Hfg Hn1 Hn2 HR He Heg. unfold lab3c.make_dirs, alone. rewrite !sprintf_below by done.
  cbn [mbind prog_bind bind syscall wp]. intros fs1 [] [= <-] r fs2 l2 Hc.
  destruct (mkdir_below a1 f fs l r fs2 l2 Ha1 Hf HR He Hc) as (-> & D1 & HD0 & HD1 & HR2 & He2 & Hkeep & _).
  exists tt. split; [done|]. cbn [negb Z.eqb mbind prog_bind bind syscall wp].
  intros fs3 [] [= <-] r4 fs4 l4 Hc4. rewrite <- Hkeep in Heg by done.
  destruct (mkdir_below a2 g fs2 l2 r4 fs4 l4 Ha2 Hg HR2 Heg Hc4) as (-> & D2 & HD0' & HD2 & HR4 & He4 & Hkeep' & Hdirs).
  exists tt. split; [done|]. cbn [negb Z.eqb mbind prog_bind bind syscall wp].
  intros fs5 [] [= <-] r6 fs6 l6 Hc6. rewrite <- Hkeep' in He2 by done.
  destruct (access_below a2 f D1 fs4 l4 r6 fs6 l6 Ha2 Hf HR4 He2 Hc6) as (-> & ->). exists tt. split; [done|].
  cbn [negb Z.eqb wp]. assert (H12 : D1 <> D2) by congruence. assert (H1R : D1 <> Rt) by (intros ->; destruct HR; congruence).
  exists D1, D2. split_and!; [done|..]; apply empty_dir; try done; try (repeat constructor; by apply dir_below).
  by rewrite Hdirs.
Qed.

Definition one_left (prefix : bytes) : gmap bytes bytes := removed prefix (seqZ 0 99) (added prefix (seqZ 0 100) ∅).

(** One of the two processes, in a directory of its own. *)
Lemma create_delete_ok D d prefix fs l :
  lenZ d <= 450 -> slash ∉ prefix -> lenZ prefix <= 10 ->
  Forall (fun i => is_Some (added prefix (seqZ 0 100) ∅ !! numbered prefix i)) (seqZ 0 99) ->
  at_dir mt D [d] whole ∅ fs ->
  wpn mt D whole (all [lab3c.createn d prefix 100; lab3c.unlinkn d prefix 99])
    (fun _ fs' _ => at_dir mt D [d] whole (one_left prefix) fs') fs l.
Proof.
  intros Hd Hs Hp Hin Hat. assert (Hds : [d] <> []) by done. assert (Hsh : Forall (fun d => lenZ d <= 450) [d]) by by constructor.
  eapply all_cons; [eapply createn_ok; [exact Hds|exact Hsh|exact Hat|by left|]|].
  { apply numbers_ours; [done|done|lia|done]. }
  clear fs l Hat. intros fs l Hat. eapply all_cons; [eapply unlinkn_ok; [exact Hds|exact Hsh|exact Hat|by left| |apply NoDup_seqZ|done]|].
  { apply numbers_ours; [done|done|lia|done]. }
  clear fs l Hat. by intros fs l Hat.
Qed.

Lemma separate_ok d1 d2 fs l :
  lenZ d1 <= 450 -> lenZ d2 <= 450 -> both d1 d2 ∅ ∅ fs l ->
  inhabited (couple mt (all [lab3c.createn d2 (str "xx") 100; lab3c.unlinkn d2 (str "xx") 99])
    (all [lab3c.createn d1 (str "yy") 100; lab3c.unlinkn d1 (str "yy") 99]) fs l l
    (both d1 d2 (one_left (str "yy")) (one_left (str "xx")))).
Proof.
  intros Hs1 Hs2 (D1 & D2 & H12 & Hat1 & Hat2).
  eapply (couple_apart mt D2 D1 whole whole [d2] [d1] (one_left (str "xx")) (one_left (str "yy"))); [done|done|naive_solver| | |].
  - apply create_delete_ok; [done|computed..|done].
  - apply create_delete_ok; [done|computed..|done].
  - intros fs' l' Ha Hb. by exists D1, D2.
Qed.

Lemma both_checks d1 d2 fs l :
  both d1 d2 (one_left (str "yy")) (one_left (str "xx")) fs l ->
  alone mt (all [lab3c.dircheck d1 1; lab3c.dircheck d2 1]) (fun _ _ _ => True) fs l.
Proof.
  intros (D1 & D2 & H12 & Hat1 & Hat2).
  assert (Hone : forall D d F (fs : fsys) (l : local), at_dir mt D [d] whole F fs -> size F = 1%nat -> Forall not_dot (map_to_list F).*1 ->
    alone mt (lab3c.dircheck d 1) (fun _ fs' _ => fs' = fs) fs l).
  { clear. intros D d F fs l Hat Hsz Hdots.
    assert (Hlen : length (map_to_list F).*1 = size F) by (rewrite length_fmap; apply length_map_to_list).
    change 1 with (Z.of_nat 1). rewrite <- Hsz, <- Hlen. unfold alone.
    eapply (dircheck_ok _ _ _ (fun fs' _ => fs' = fs)); [..|exact Hdots|lia]; try done.
    - by intros fs1 g fs2 g' -> [= ->].
    - intros fs1 g ->. destruct (Hat) as ([m Hm] & Hall & _). split; [by apply Forall_cons in Hall as [? _]|].
      exists m. split; [done|]. by eapply own_names.
    - apply NoDup_fst_map_to_list. }
  cbn [all]. apply wp_bind. eapply wp_mono; [|apply (Hone D1 d1 _ fs l Hat1); computed].
  intros [] fs1 l1 [] ->. apply wp_bind. eapply wp_mono; [|apply (Hone D2 d2 _ fs l1 Hat2); computed]. done.
Qed.

End setup.

(** ** The programs *)

(** C17: test-lab-3-b passes.  It is run with two mount points of one file
    system that has no entry of this run's name yet, whose paths are at most
    400 bytes long (the test prints paths into buffers of 512), on any
    system whose calls keep the POSIX contract until one of them, or a fork,
    fails for lack of resources.  Whatever the schedule of its processes, as
    long as that has not happened a run that has exited has exited with 0,
    so no check of the test failed, and a run that has not exited can go on,
    so that the test does not get to undefined behaviour (a buffer overrun)
    and no process waits in vain; and every run ends. *)
Theorem lab3b_passes {W : Type} `{!Posix W} (Rt : Z) (argv0 a1 a2 : bytes) (pid : Z) (w : W) (whos : list bool) (x : pstate * W)
    (H1 : mounted mount Rt a1) (H2 : mounted mount Rt a2) (Hpid : 0 <= pid < 2 ^ 31)
    (Hn1 : mount (lab3b.run_dir a1 pid) = None) (Hn2 : mount (lab3b.run_dir a2 pid) = None)
    (HR : is_Some (view w !! Rt)) (Hnew : entry (view w) Rt (run_name (str "d") pid) = None)
    (Hrun : pruns whos (Single (Return tt) (lab3b.main [argv0; a1; a2] pid), w) = Some x) :
  (starved x.2 = false ->
     (forall n, x.1 = Ended n -> n = 0) /\ ((exists n, x.1 = Ended n) \/ exists who, is_Some (pstep who x))) /\
  Acc psucc x.
Proof.
  destruct (run_name_ok (str "d") pid) as [Hf Hl]; [computed..|done|].
  eapply (good_script _ (fun fs _ => is_Some (fs !! Rt) /\ entry fs Rt (run_name (str "d") pid) = None)); [|done|exact Hrun].
  eapply good_then; [|apply phases_good; by eapply below_short].
  intros fs l [HR' He]. by apply (make_dirs_3b mount Rt a1 a2 (run_name (str "d") pid)).
Qed.

(** C24: test-lab-3-c passes, under the same conditions: mount points of at
    most 400 bytes, no entries of the run's two names, calls that keep the
    POSIX contract until one of them or the fork fails for lack of
    resources.  With two processes each creating a hundred files and
    deleting all but one in a directory of its own, reached through
    different mount points, every schedule ends, and as long as nothing has
    failed for lack of resources exits with 0 only and goes on until then. *)
Theorem lab3c_passes {W : Type} `{!Posix W} (Rt : Z) (argv0 a1 a2 : bytes) (pid : Z) (w : W) (whos : list bool) (x : pstate * W)
    (H1 : mounted mount Rt a1) (H2 : mounted mount Rt a2) (Hpid : 0 <= pid < 2 ^ 31)
    (Hn1 : mount (lab3c.run_dir a1 (str "da") pid) = None) (Hn2 : mount (lab3c.run_dir a2 (str "db") pid) = None)
    (HR : is_Some (view w !! Rt)) (Hnew1 : entry (view w) Rt (run_name (str "da") pid) = None)
    (Hnew2 : entry (view w) Rt (run_name (str "db") pid) = None)
    (Hrun : pruns whos (Single (Return tt) (lab3c.main [argv0; a1; a2] pid), w) = Some x) :
  (starved x.2 = false ->
     (forall n, x.1 = Ended n -> n = 0) /\ ((exists n, x.1 = Ended n) \/ exists who, is_Some (pstep who x))) /\
  Acc psucc x.
Proof.
  destruct (run_name_ok (str "da") pid) as [Hf Hl]; [computed..|done|].
  destruct (run_name_ok (str "db") pid) as [Hg Hl']; [computed..|done|].
  eapply (good_script _ (fun fs _ => is_Some (fs !! Rt) /\ entry fs Rt (run_name (str "da") pid) = None /\
    entry fs Rt (run_name (str "db") pid) = None)); [|done|exact Hrun].
  eapply good_then; [|eapply good_forked; [|eapply good_then; [apply both_checks|apply good_finish]]].
  - intros fs l (HR' & He & He'). by apply (make_dirs_3c mount Rt a1 a2 (run_name (str "da") pid) (run_name (str "db") pid)).
  - intros fs l. apply separate_ok; by eapply below_short.
Qed.

(** *** Runs on the executable system *)

Definition two_mounts (a : bytes) : option Z := if decide (a = str "/m1" \/ a = str "/m2") then Some 1 else None.
#[local] Instance mounted_twice : Posix kernel.kern := kernel.kern_posix two_mounts.
Definition new_kern : kernel.kern := kernel.Kern {[ 1 := ∅ ]} (fun _ => Local ∅ ∅) 9 false.
Abbreviation test_args := [str "test"; str "/m1"; str "/m2"].

(** The child first. *)
Fixpoint schedule (fuel : nat) (x : pstate * kernel.kern) : list bool :=
  match fuel with
  | O => []
  | S fuel =>
      match pstep true x with
      | Some x => true :: schedule fuel x
      | None => match pstep false x with Some x => false :: schedule fuel x | None => [] end
      end
  end.

Definition ended (x : option (pstate * kernel.kern)) : bool := match x with Some (Ended _, _) => true | _ => false end.
Definition forked (x : option (pstate * kernel.kern)) : bool := match x with Some (Double _ _ _, _) => true | _ => false end.

Definition start_3b : pstate * kernel.kern := (Single (Return tt) (lab3b.main test_args 77), new_kern).
Definition start_3c : pstate * kernel.kern := (Single (Return tt) (lab3c.main test_args 77), new_kern).

Lemma mounted_example : mounted two_mounts 1 (str "/m1") /\ mounted two_mounts 1 (str "/m2").
Proof. split; split; computed || lia. Qed.

Definition fed (x : option (pstate * kernel.kern)) : bool := match x with Some (_, w) => negb (starved w) | None => false end.

(** Up to the first forked child, at work. *)
Lemma lab3b_passes_witness :
  exists x, pruns (schedule 400 start_3b) start_3b = Some x /\ ((exists n, x.1 = Ended n) \/ exists who, is_Some (pstep who x)).
Proof.
  assert (Hf : forked (pruns (schedule 400 start_3b) start_3b) && fed (pruns (schedule 400 start_3b) start_3b) = true)
    by (vm_compute; reflexivity).
  destruct (pruns (schedule 400 start_3b) start_3b) as [x|] eqn:E; [|discriminate Hf]. exists x. split; [reflexivity|].
  eapply (lab3b_passes 1 (str "test") (str "/m1") (str "/m2") 77 new_kern (schedule 400 start_3b) x); try apply mounted_example; try exact E.
  - lia.
  - vm_compute. reflexivity.
  - vm_compute. reflexivity.
  - by eexists.
  - vm_compute. reflexivity.
  - apply andb_prop in Hf as [_ Hf]. destruct x as [q w]. cbn in Hf. by apply negb_true_iff in Hf.
Defined.

(** A whole run. *)
Lemma lab3c_passes_witness : exists x, pruns (schedule 1000 start_3c) start_3c = Some x /\ x.1 = Ended 0.
Proof.
  assert (He : ended (pruns (schedule 1000 start_3c) start_3c) && fed (pruns (schedule 1000 start_3c) start_3c) = true)
    by (vm_compute; reflexivity).
  destruct (pruns (schedule 1000 start_3c) start_3c) as [[[| |n] w]|] eqn:E; try discriminate He.
  exists (Ended n, w). split; [reflexivity|]. cbn. f_equal.
  eapply (lab3c_passes 1 (str "test") (str "/m1") (str "/m2") 77 new_kern (schedule 1000 start_3c) (Ended n, w));
    try apply mounted_example; try exact E; try reflexivity.
  - lia.
  - by eexists.
  - cbn in He. by apply negb_true_iff in He.
Defined.

(** When no process can be made the test exits with 1. *)
Lemma fork_fails_exit :
  exists w, pruns (schedule 1000 (start_3c.1, kernel.Kern {[ 1 := ∅ ]} (fun _ => Local ∅ ∅) 0 false))
    (start_3c.1, kernel.Kern {[ 1 := ∅ ]} (fun _ => Local ∅ ∅) 0 false) = Some (Ended 1, w) /\ starved w = true.
Proof.
  set (x0 := (start_3c.1, kernel.Kern {[ 1 := ∅ ]} (fun _ => Local ∅ ∅) 0 false)).
  assert (He : match pruns (schedule 1000 x0) x0 with Some (Ended n, w) => (n =? 1) && starved w | _ => false end = true)
    by (vm_compute; reflexivity).
  destruct (pruns (schedule 1000 x0) x0) as [[[| |n] w]|]; try discriminate He.
  apply andb_prop in He as [->%Z.eqb_eq Hw]. by exists w.
Qed.

End lab_runs.
